(* ===== verification/_CoqProject ===== *)
-Q . S2P
Prelude.v
Wildmatch.v
Utf8.v
FilterRule.v
FilterSet.v
Implied.v
FilterWire.v
FilterParse.v
FilterChain.v
Bandwidth.v
Mplex.v
Ndx.v
Rolling.v
Varint.v
WireDelta.v
Strong.v
Signature.v
SigParallel.v
Pipeline.v
MapFile.v
Sparse.v
KernelCopy.v
RingBuffer.v
Lookup.v
DirTree.v
FlistEntry.v
FlistSort.v
FlistClean.v
FlistName.v
FlistWire.v
FlistStream.v
FlistStep.v
Hardlinks.v
IncRecurse.v
IncSend.v
IncReceive.v
Index.v
Script.v
Generator.v
Parallel.v
Verifier.v
Receiver.v
Transfer.v
