(* ===== verification/Prelude.v ===== *)
(** * Verification of oc-rsync: delta transfer, filters and file list

    oc-rsync is an implementation of rsync in Rust.  Its core is the delta
    transfer: the receiver describes the file it has (the basis) by the weak and
    strong checksums of its blocks; the sender scans the new file for windows with
    those checksums and sends literals and references to blocks; the receiver
    rebuilds the new file from them and checks a digest of the whole file.  This
    library models that path from the arithmetic of the checksums to the bytes on
    the wire and in the output file, and proves it correct.  The second part are the
    filters, which say which files are transferred and which may be deleted: the
    wildcard matcher, the rules and their verdicts, the files of rules and the stack of
    directories, the names a server may send, and the rules on the wire.  The third part
    is what both ends must agree on: the connection that carries data and messages, the
    indices that name files, and the file list: its bytes on the wire, the names that are
    taken from it, its order, from which the indices are counted, its hard links, and the
    lists of single directories that it is cut into when the transfer recurses while it
    runs.  The limiters of the bandwidth stand by themselves.  Paths below are under
    [src/crates/].

    ** How the code is represented

    Functions are translated one by one under their Rust names (with a prefix where
    a name occurs twice) into executable definitions.  A [Result] is [result]; a
    reader of wire bytes is a [parser], which returns the value and the bytes left;
    a reader whose calls matter is a list of [read_event]s, one for each call.
    Mutable objects are records passed along.  Machine integers are [Z] with their
    truncation ([wrap], [swrap]) and saturation written out, or [nat] for indices
    and lengths of data that exists.  A [usize] has 64 bits, and arithmetic is that
    of a build without overflow checks.  Messages of errors, logging, tracing and
    statistics that do not influence the result are left out.

    Code that is not in the repository is a parameter with its documented behaviour
    as the laws of a class: the hash crates ([Strong.HashCrates]), the vector unit
    the CPU has ([Rolling.HasCpu]), the work-stealing pool ([SigParallel.Rayon]),
    the sort of the standard library where it need not be stable (an argument of
    [Parallel.merge_copy_runs], of the sorts of [FlistSort] and of the receiver in
    [IncReceive]), the order of the values of a hash map (of [Hardlinks]), the readings
    of the clock (of [Bandwidth]), the compressed token decoder
    ([Receiver.TokenDecoder]), the system calls that share and copy ranges of files
    ([KernelCopy.KernelCalls]) and [fallocate] ([Sparse.Fallocate]).  Each of them has a
    concrete instance, and the witnesses of the theorems use it.

    ** The files

    - [Prelude]: results, readers, bytes and machine integers, congruence modulo a
      power of two with setoid rewriting, and the lemmas the components share.
    - [Wildmatch] ([filters/src/wildmatch.rs]): the wildcard matcher, and the language
      of a pattern as a definition of its own.
    - [Utf8]: which bytes are UTF-8, and the text that the standard library makes of bytes
      that are not.
    - [FilterRule] ([filters/src/rule.rs], [compiled/]): rules, their compilation into
      matchers, and what they match.
    - [FilterSet] ([filters/src/set.rs], [decision.rs]): sets of rules and the verdicts
      on transfer and deletion, in and outside a walk of the tree.
    - [Implied] ([filters/src/implied.rs]): the names a server may send.
    - [FilterWire] ([protocol/src/filters/]): filter lists on the wire.
    - [FilterParse] ([filters/src/merge/], and the merge expansion of [set.rs]): files of
      rules, over a file system that is an argument.
    - [FilterChain] ([filters/src/chain/]): the stack of scopes of the directories.
    - [Bandwidth] ([bandwidth/src/]): the limiters, over the readings of a clock, overrides of
      their configuration, and the argument that gives it.
    - [Mplex] ([protocol/src/envelope/], [protocol/src/multiplex/]): message headers, the
      buffering writer and the demultiplexing reader.
    - [Ndx] ([protocol/src/codec/ndx/]): file indices on the wire.
    - [FlistEntry] ([protocol/src/flist/entry/]): entries of the file list and their flags.
    - [FlistSort] ([protocol/src/flist/sort.rs], [dual.rs], [name_cmp.rs]): the comparison
      of entries, and the sorts of both ends with their in-place permutations.
    - [FlistClean] (the same files): duplicate names.
    - [FlistName] ([protocol/src/flist/read/name.rs]): cleaning and refusing received names.
    - [FlistWire] ([protocol/src/flist/write/], [read/], [state.rs], [flags.rs] and
      [protocol/src/codec/protocol/]): the entries of the file list on the wire, written and
      read against the compression states of the two ends, at once and in steps.  The
      methods of the writer are [encoder]s, those of the reader [decoder]s.
    - [FlistStream]: that the two ends understand each other.
    - [FlistStep]: that the pieces in which the bytes arrive do not matter.
    - [Hardlinks] ([protocol/src/flist/hardlink/], [file_list/hardlinks.rs] of both halves of
      [transfer/src/]): which entries are the same file.
    - [DirTree] ([protocol/src/flist/dir_tree.rs]): the tree of directories and its traversal.
    - [IncRecurse] ([transfer/src/generator/file_list/inc_recurse.rs], [generator/segments.rs]):
      cutting the sorted list into lists of directories.
    - [IncSend] ([generator/segments.rs], [generator/protocol_io.rs], [generator/context.rs],
      [generator/transfer/transfer_loop.rs]): when the lists are sent, what is sent, and what
      the indices that come back mean.
    - [IncReceive] ([transfer/src/receiver/file_list/receive.rs], [on_demand.rs],
      [receiver/context.rs]): the receiver of these lists, whose methods are [recv]s, and
      both halves together.
    - [Rolling] ([checksums/src/rolling/]): the rolling checksum, its scalar loop,
      the SSE2, AVX2 and NEON loops, rolling by one and by many bytes, digests.
    - [Varint] ([protocol/src/varint/]): every integer encoding and decoding.
    - [WireDelta] ([protocol/src/wire/]): the token stream, the opcode format of
      deltas, and the block list of signatures.
    - [Strong] ([checksums/src/strong/], [signature/src/algorithm.rs]): block
      digests, with seeds, truncation, batches and two slices.
    - [Signature] ([signature/src/layout.rs], [block_size.rs], [generation.rs]):
      block sizes, layouts, and the generator of signatures.
    - [SigParallel] ([signature/src/parallel.rs]): the parallel, windowed and
      automatic generators.
    - [Pipeline] ([checksums/src/pipelined/], [signature/src/pipelined_gen.rs]): the
      double-buffered reader and its thread as a transition system, and the
      generators that use it.
    - [MapFile] ([transfer/src/map_file/]): the trait for reading the basis and its
      three implementations, as a class with its laws and instances.
    - [Sparse] ([transfer/src/delta_apply/sparse.rs], [constants.rs],
      [fast_io/src/punch_hole.rs]): output files with holes.
    - [KernelCopy] ([fast_io/src/copy_basis_range.rs], [clone_file_range.rs]): sharing and
      copying ranges of files through the kernel, on Linux and on Windows.
    - [RingBuffer] ([matching/src/ring_buffer.rs]): the window of the scan.
    - [Lookup], [Index] ([matching/src/index/]): bucket chains, bit filter, matched
      blocks, and the index of a signature with all its probes.
    - [Script] ([matching/src/script.rs]): delta scripts and their application.
    - [Generator], [Parallel] ([matching/src/generator.rs]): the sequential scan, the
      scan that asks for consecutive matches, and the parallel scan.
    - [Verifier] ([transfer/src/delta_apply/checksum.rs]): the whole-file digest.
    - [Receiver] ([transfer/src/token_reader.rs], [token_buffer.rs],
      [delta_apply/applicator.rs]): reading and applying the stream.
    - [Transfer] ([transfer/src/generator/delta.rs]): the sender's half after the
      scan, and the composition of everything.

    ** What the theorems show

    - The transfer.  [Transfer.transfer_delivers] composes signature, index, scan,
      wire format and receiver: the receiver reads the stream to its end and holds
      the new file, or a window of the new file and a different basis block have the
      same truncated strong checksum, which is the only way the algorithm can fail.
      The mapper of the basis can hold a block, and the kernel, which is asked to copy
      only where there is no digest, does not break off a copy; what [KernelCopy] makes
      of partial copies and refusals is covered.
      [Receiver.receiver_integrity] holds for arbitrary streams: an accepted file
      has the digest that was sent.  [Receiver.discard_in_sync] is the case in which
      the file is thrown away.
    - The scan.  [Generator.delta_roundtrip], [Generator.generate_accounts] and
      [Parallel.parallel_roundtrip] are for every generator, option and way the
      input is read; [Generator.in_place_safe] is about executing a script over the
      basis itself; [Parallel.resegment_canonical] about literal framing.  They rest
      on the invariant [Generator.scan_inv] and the relation [Generator.denotes]
      between tokens and the input.
    - The index.  [Index.probes_sound] and [Index.probe_complete] say what the probes
      return and that they miss nothing; [Index.rebuild_is_fresh] and the theorems of
      [Lookup] are about the structures below.
    - Checksums.  [Rolling.roll_correct], [Rolling.simd_matches_scalar] and the other
      theorems of [Rolling] relate every optimised loop to the definition;
      [Strong.strong_digests_agree] relates the ways of hashing a block.
    - Signatures.  [Signature.layout_describes_file], [Signature.block_length_is_sqrt]
      and [Signature.signature_describes_file]; [SigParallel.parallel_signatures_agree]
      and [Pipeline.pipelined_signature_agrees] for the concurrent generators.
    - Concurrency.  The theorems of [Pipeline] hold for all interleavings of the two
      threads: the results are determined by the input, calls and threads terminate,
      and two buffers suffice; also that the design gives no overlap of reading and
      hashing and that it loses an error of the first read.
    - Storage.  [RingBuffer.ring_refines_queue], [MapFile.map_strategies_agree] and
      [Sparse.sparse_writes_file] say that a window, a mapped file and a sparse file
      are what their clients take them for; the sliding window may refuse a range that it
      cannot hold, and [MapFile.buffered_map_refuses] is such a case.
    - Formats.  Round trips of integers, deltas, signatures and filter lists
      ([FilterWire.filter_list_roundtrip]); [FilterWire.old_exclude_not_readable] is where
      the old prefixes have none.
    - Matching.  [Wildmatch.wildmatch_terminates] and [Wildmatch.wildmatch_correct] say
      that the backtracking matcher decides the language of its pattern;
      [FilterRule.rule_matches_written] that compiled rules match what is written, on
      transfer and on deletion; [FilterRule.bracket_rewrite_widens] shows where they do not,
      and [FilterRule.other_bytes_are_replaced] that names are matched as text.
    - Verdicts.  [FilterSet.deletion_is_first_match] and [FilterChain.chain_is_one_list]
      refine the two lists of a set and the scopes of the directories to one list in which
      the first match decides; [FilterSet.rejected_is_pruned] relates queries and walks.
    - Files of rules.  [FilterParse.rule_line_is_read], [FilterParse.merged_clear_is_local]
      and [FilterParse.merge_expansion_ends]; [FilterChain.walk_restores] is the
      discipline of entering and leaving directories, by induction over walks, and
      [FilterChain.failed_enter_restores] its error case.
      [FilterChain.nested_directive_outlives_directory] and two lemmas beside it show
      where nested directives, clear rules and errors leave the chain changed.
    - The connection.  [Mplex.mplex_transparent]: data and messages come out in the order
      in which they went in, however the writer buffers and the reader asks;
      [Mplex.message_read_as_data] is where the reader mixes them up.
      [Ndx.ndx_stream_roundtrip] and [Ndx.pieces_do_not_matter] are about the indices.
    - The file list.  [FlistSort.compare_is_component_order] says what the comparison means;
      [FlistSort.sort_file_list_sorts] and [FlistSort.both_sides_same_order] that both ends
      reach that order, [FlistSort.old_protocol_orders_differ] where they do not, and
      [FlistSort.subtree_contiguous] that directories are followed by their contents.
      [FlistClean.clean_leaves_one] and [FlistClean.dedup_is_collapse] are about duplicates;
      [FlistClean.non_utf8_names_collapse] and [FlistClean.file_and_directory_both_stay] show
      a name too many dropped and one too many kept.
    - The file list on the wire.  [FlistStream.flist_roundtrip] is for all protocols and
      options; it rests on a calculus of what a pair of an encoder and a decoder transmits
      ([FlistStream.transmits]), on the laws of the integer codecs ([FlistStream.CodecLaws])
      and on the relation [FlistStream.synced] of the two compression states, which
      [FlistStream.follower_out_of_step] shows to be lost after a hard link without metadata.
      [FlistStep.entry_pieces_do_not_matter] is about reading in steps, by classes of readers
      that only take bytes from the front and leave off in a state that can be restored.
      [FlistName.clean_is_component_filter] says what cleaning a name does, and
      [FlistName.accepted_names_stay_below] that no accepted name leaves its directory.
    - Hard links.  [Hardlinks.links_survive] goes through the numbering of the sender and any
      order in which the receiver sorts; [Hardlinks.old_links_grouped] is for protocols before 30.
    - Incremental recursion.  [DirTree.traversal_is_preorder] refines the links of the tree to
      the tree that the parents describe.  [IncRecurse.partition_aligned] says that cutting the
      list loses nothing and that the numbers of directories are those that the receiver
      counts; [IncReceive.lists_arrive] that all lists then arrive, with the same indices on
      both ends, by an invariant of the two ends ([IncReceive.in_step]);
      [IncReceive.only_below_announced] that a list from any sender adds entries below its
      directory only, if the receiver has its name ([IncReceive.unnamed_directory_unchecked]
      shows what happens otherwise); [IncSend.indices_resolve] that indices are understood when they come
      back.  [IncSend.all_lists_or_none] shows that the lookahead does not ration the lists
      and can hold them back for good, [IncReceive.links_refer_to_another_entry] and
      [IncReceive.published_for_another_directory] where numbers of one kind are taken for
      another.
    - Bandwidth.  [Bandwidth.rate_is_kept] bounds the bytes by the time, where sleeps are
      as long as requested and the burst size has room for the writes;
      [Bandwidth.burst_drops_debt] shows a debt that a small burst size drops;
      [Bandwidth.override_applies] relates the two ways to apply an override;
      [Bandwidth.async_rate_doubled] and [Bandwidth.short_sleep_is_forgiven] show where
      sleeps count twice.
    - The server.  [Implied.only_requested_names]: whatever a server sends, only names
      that the arguments ask for are admitted, for arguments without wildcards.

    ** Fuel

    Loops that do not follow the structure of their data have a fuel argument.  It is
    the number of bytes or blocks the loop can still consume, except for the bit loops
    of [Signature] (64 turns for a 64-bit integer) and the seek loop of [Sparse] (three
    steps of the largest [i64] cover a [u64]).  The theorems show that it suffices:
    they give the result, not what it is if there is one.  The matcher has one unit for
    each byte of the pattern, the recursive reading of files two more than the bound on
    the nesting, the traversal and the partition of directories one more than the
    directories, the dispatch of lists one more than the lists, the loops that load lists
    (where the theorem gives it) one more than the bytes on the wire, and the power in a
    size argument 33 for its 32-bit exponent.  A turn of the copy loops of [KernelCopy]
    copies a byte at least.  [apply_delta_stream] is given its fuel by the theorem, which
    is enough when it is the length of the stream; with a compressed decoder its length is
    not known from the stream.

    ** What is not modelled

    The hash functions and compression codecs, which are crates; the compressed half of
    the sender; negotiation; the drivers of the transfer around the parts above, with the id
    lists and the pruning of the first list; access control lists, extended attributes and
    conversion of names in the file list; the deletion that is fed from the lists; the
    sleeps of the limiters; metadata, the file-system executors, the command line, the
    daemon and the transports, which are system calls, parsing and control around the
    transfer.  Files are their contents, and do not change while they are mapped; writing
    to them does not fail. *)

From Stdlib Require Export ZArith Lia.
From Stdlib Require Export Strings.Byte.
From stdpp Require Export prelude list.

Set Default Proof Using "Type".

(** ** Results, errors and readers *)

(** A Rust [Result<A, E>]. *)
Inductive result (E A : Type) : Type :=
| Ok (a : A)
| Err (e : E).
Arguments Ok {E A} a.
Arguments Err {E A} e.

(** [Option::is_some] *)
Definition is_some {A} (o : option A) : bool := match o with Some _ => true | None => false end.

(** The [io::ErrorKind]s (and the tagged protocol violation) the modelled code
    builds its errors from.  Messages are not modelled. *)
Inductive io_error :=
| UnexpectedEof
| InvalidData
| InvalidInput
| ProtocolViolation
| Unsupported
| OtherError.

#[export] Instance io_error_eq_dec : EqDecision io_error.
Proof. solve_decision. Defined.

#[export] Instance result_ret {E} : MRet (result E) := λ A a, Ok a.
#[export] Instance result_bind {E} : MBind (result E) :=
  λ A B f m, match m with Ok a => f a | Err e => Err e end.

(** A reader over the bytes still to come: it returns a value and what is left,
    or an error.  This is how [R: Read] arguments are threaded. *)
Definition parser (A : Type) : Type := list byte → result io_error (A * list byte).

#[export] Instance parser_ret : MRet parser := λ A a s, Ok (a, s).
#[export] Instance parser_bind : MBind parser :=
  λ A B f p s, match p s with Ok (a, s') => f a s' | Err e => Err e end.

Definition fail {A} (e : io_error) : parser A := λ _, Err e.

(** [Read::read_exact] into a buffer of [n] bytes. *)
Definition read_exact (n : nat) : parser (list byte) := λ s,
  if decide (n ≤ length s)%nat then Ok (take n s, drop n s) else Err UnexpectedEof.

(** [read_exact] into a one-byte array. *)
Definition read_u8 : parser byte := λ s,
  match s with b :: s' => Ok (b, s') | [] => Err UnexpectedEof end.

(** [dst[i..i + src.len()].copy_from_slice(src)]. *)
Definition copy_at (i : nat) (src dst : list byte) : list byte :=
  take i dst ++ src ++ drop (i + length src) dst.

(** ** Machine integers *)

Local Open Scope Z_scope.

(** Truncation to [w] unsigned bits ([as u32], wrapping arithmetic). *)
Definition wrap (w z : Z) : Z := z mod 2 ^ w.

(** Reinterpretation as a [w]-bit two's complement integer ([as i32]). *)
Definition swrap (w z : Z) : Z := (z + 2 ^ (w - 1)) mod 2 ^ w - 2 ^ (w - 1).

Definition u32_max : Z := 2 ^ 32 - 1.
Definition usize_max : Z := 2 ^ 64 - 1.
Definition u64_max : Z := 2 ^ 64 - 1.
Definition i32_max : Z := 2 ^ 31 - 1.
Definition i64_max : Z := 2 ^ 63 - 1.

(** [saturating_add] on an unsigned type with maximum [m]. *)
Definition saturating_add (m a b : Z) : Z := Z.min m (a + b).

(** The value of a byte, and the byte [z as u8]. *)
Definition uz (b : byte) : Z := Z.of_N (Byte.to_N b).
Definition zb (z : Z) : byte :=
  match Byte.of_N (Z.to_N (z mod 256)) with Some b => b | None => x00 end.

(** [b as i8]. *)
Definition sz (b : byte) : Z := swrap 8 (uz b).

(** Little-endian bytes: [to_le_bytes] of an [n]-byte integer, and the unsigned
    value of a byte string. *)
Fixpoint le_bytes (n : nat) (z : Z) : list byte :=
  match n with
  | O => []
  | S n' => zb z :: le_bytes n' (z / 256)
  end.

Fixpoint le_val (l : list byte) : Z :=
  match l with
  | [] => 0
  | b :: l' => uz b + 256 * le_val l'
  end.

(** [i32::from_le_bytes] and [i64::from_le_bytes]. *)
Definition i32_from_le (l : list byte) : Z := swrap 32 (le_val l).
Definition i64_from_le (l : list byte) : Z := swrap 64 (le_val l).

(** ** Ranges *)

Definition in_u (w z : Z) : Prop := 0 ≤ z < 2 ^ w.
Definition in_i (w z : Z) : Prop := - 2 ^ (w - 1) ≤ z < 2 ^ (w - 1).

#[export] Instance byte_eq_dec : EqDecision byte := Byte.byte_eq_dec.

(** ** Lemmas on bytes and words *)

Lemma uz_range b : 0 ≤ uz b < 256.
Proof.
  unfold uz. pose proof (Byte.to_N_bounded b). lia.
Qed.

Lemma uz_zb z : uz (zb z) = z mod 256.
Proof.
  unfold uz, zb.
  pose proof (Z.mod_pos_bound z 256 ltac:(lia)) as Hz.
  destruct (Byte.of_N (Z.to_N (z mod 256))) as [b|] eqn:E.
  - apply Byte.to_of_N in E. rewrite E. lia.
  - apply Byte.of_N_None_iff in E. lia.
Qed.

Lemma zb_uz b : zb (uz b) = b.
Proof.
  unfold zb, uz. pose proof (uz_range b) as Hr. unfold uz in Hr.
  rewrite Z.mod_small, N2Z.id, Byte.of_to_N by lia. done.
Qed.

Lemma uz_inj b c : uz b = uz c → b = c.
Proof. intros H. rewrite <- (zb_uz b), <- (zb_uz c). by rewrite H. Qed.

Lemma uz_zb_small z : 0 ≤ z < 256 → uz (zb z) = z.
Proof. intros H. rewrite uz_zb. by apply Z.mod_small. Qed.

Lemma zb_mod z : zb (z mod 256) = zb z.
Proof. unfold zb. by rewrite Z.mod_mod. Qed.

Lemma zb_eq_mod z y : z mod 256 = y mod 256 → zb z = zb y.
Proof. intros H. rewrite <- (zb_mod z), <- (zb_mod y). by rewrite H. Qed.

Definition all_bytes : list byte := map (λ n, zb (Z.of_nat n)) (seq 0 256).

Lemma elem_of_all_bytes b : b ∈ all_bytes.
Proof.
  unfold all_bytes. apply list_elem_of_In, in_map_iff.
  exists (Z.to_nat (uz b)). pose proof (uz_range b).
  rewrite Z2Nat.id by lia. split; [apply zb_uz|]. apply in_seq. lia.
Qed.

(** A decidable property of bytes holds when it evaluates to [true] on each of
    the 256 of them. *)
Lemma byte_forall (P : byte → bool) :
  forallb P all_bytes = true → ∀ b, P b = true.
Proof.
  intros H b. rewrite forallb_forall in H. apply H.
  apply list_elem_of_In, elem_of_all_bytes.
Qed.

Lemma wrap_range w z : 0 ≤ w → in_u w (wrap w z).
Proof. intros. apply Z.mod_pos_bound. lia. Qed.

Lemma wrap_small w z : in_u w z → wrap w z = z.
Proof. apply Z.mod_small. Qed.

Lemma swrap_range w z : 0 < w → in_i w (swrap w z).
Proof.
  intros Hw. unfold swrap, in_i.
  pose proof (Z.mod_pos_bound (z + 2 ^ (w - 1)) (2 ^ w) ltac:(lia)).
  assert (2 ^ w = 2 * 2 ^ (w - 1)) by (rewrite <- Z.pow_succ_r by lia; f_equal; lia).
  lia.
Qed.

Lemma swrap_small w z : 0 < w → in_i w z → swrap w z = z.
Proof.
  unfold swrap, in_i. intros Hw Hz.
  assert (2 ^ w = 2 * 2 ^ (w - 1)) by (rewrite <- Z.pow_succ_r by lia; f_equal; lia).
  rewrite Z.mod_small; lia.
Qed.

Lemma swrap_mod w z : 0 < w → swrap w (z mod 2 ^ w) = swrap w z.
Proof.
  intros Hw. unfold swrap. by rewrite Zplus_mod_idemp_l.
Qed.

(** ** Congruence modulo [m], with setoid rewriting *)

Definition cong (m a b : Z) : Prop := a mod m = b mod m.

#[export] Instance cong_equiv m : Equivalence (cong m).
Proof. split; unfold cong; repeat intro; congruence. Qed.

#[export] Instance cong_add m : Proper (cong m ==> cong m ==> cong m) Z.add.
Proof. intros a a' Ha b b' Hb. unfold cong in *. by rewrite Zplus_mod, Ha, Hb, <- Zplus_mod. Qed.

#[export] Instance cong_sub m : Proper (cong m ==> cong m ==> cong m) Z.sub.
Proof. intros a a' Ha b b' Hb. unfold cong in *. by rewrite Zminus_mod, Ha, Hb, <- Zminus_mod. Qed.

#[export] Instance cong_mul m : Proper (cong m ==> cong m ==> cong m) Z.mul.
Proof. intros a a' Ha b b' Hb. unfold cong in *. by rewrite Zmult_mod, Ha, Hb, <- Zmult_mod. Qed.

Lemma cong_of_eq m a b : a = b → cong m a b.
Proof. by intros ->. Qed.

Lemma cong_small m a b : 0 ≤ a < m → 0 ≤ b < m → cong m a b → a = b.
Proof. unfold cong. intros Ha Hb H. rewrite !Z.mod_small in H; lia. Qed.

(** Truncation to [w] bits is invisible modulo [2^k] for [k <= w]. *)
Lemma cong_wrap k w z : 0 ≤ k ≤ w → cong (2 ^ k) (wrap w z) z.
Proof.
  intros Hk. unfold cong, wrap.
  replace (2 ^ w) with (2 ^ k * 2 ^ (w - k)) by (rewrite <- Z.pow_add_r by lia; f_equal; lia).
  rewrite Z.rem_mul_r by lia.
  rewrite Z.mul_comm, Z.mod_add by lia. by rewrite Z.mod_mod by lia.
Qed.

Lemma cong_weaken k w a b : 0 ≤ k ≤ w → cong (2 ^ w) a b → cong (2 ^ k) a b.
Proof.
  intros Hk H. rewrite <- (cong_wrap k w a), <- (cong_wrap k w b) by lia.
  unfold cong, wrap in *. by rewrite H.
Qed.

Lemma cong_wrap_eq w a b : cong (2 ^ w) a b → wrap w a = wrap w b.
Proof. done. Qed.

Lemma cong_swrap w z : 0 < w → cong (2 ^ w) (swrap w z) z.
Proof.
  intros Hw. unfold swrap.
  transitivity ((z + 2 ^ (w - 1)) - 2 ^ (w - 1)); [|apply cong_of_eq; lia].
  apply cong_sub; [|done]. unfold cong. by rewrite Z.mod_mod by lia.
Qed.

(** Masking with [0xffff] is truncation to 16 bits. *)
(** The bits of [a] above position [k] are clear when [a < 2 ^ k]. *)
Lemma testbit_above k a n : 0 ≤ a < 2 ^ k → 0 ≤ k ≤ n → Z.testbit a n = false.
Proof.
  intros Ha Hn. destruct (Z.eq_dec a 0) as [->|Hz]; [apply Z.bits_0|].
  apply Z.bits_above_log2; [lia|]. apply Z.log2_lt_pow2; [lia|].
  apply Z.lt_le_trans with (2 ^ k); [lia|]. apply Z.pow_le_mono_r; lia.
Qed.

Lemma land_low_disjoint k a b : 0 ≤ k → 0 ≤ a < 2 ^ k → Z.land (b * 2 ^ k) a = 0.
Proof.
  intros Hk Ha. apply Z.bits_inj'; intros n Hn. rewrite Z.land_spec, Z.bits_0.
  destruct (Z.lt_ge_cases n k).
  - by rewrite Z.mul_pow2_bits_low.
  - rewrite (testbit_above k a n) by lia. apply andb_false_r.
Qed.

(** Or-ing a low part into a shifted high part is addition. *)
Lemma lor_low k a b : 0 ≤ k → 0 ≤ a < 2 ^ k → Z.lor (b * 2 ^ k) a = b * 2 ^ k + a.
Proof.
  intros Hk Ha. pose proof (land_low_disjoint k a b Hk Ha) as Hd.
  by rewrite Z.add_nocarry_lxor, Z.lxor_lor.
Qed.

Lemma land_65535 z : Z.land z 65535 = wrap 16 z.
Proof. change 65535 with (Z.ones 16). apply Z.land_ones. lia. Qed.

(** ** Little-endian round trips *)

Lemma length_le_bytes n z : length (le_bytes n z) = n.
Proof. revert z. induction n; intros z; simpl; [done|]. by rewrite IHn. Qed.

Lemma le_val_nonneg l : 0 ≤ le_val l.
Proof. induction l as [|b l IH]; simpl; [lia|]. pose proof (uz_range b). lia. Qed.

Lemma le_val_bound l : le_val l < 256 ^ Z.of_nat (length l).
Proof.
  induction l as [|b l IH]; [simpl; lia|].
  cbn [length le_val]. rewrite Nat2Z.inj_succ, Z.pow_succ_r by lia.
  pose proof (uz_range b). lia.
Qed.

Lemma le_val_le_bytes n z : le_val (le_bytes n z) = z mod 256 ^ Z.of_nat n.
Proof.
  revert z. induction n as [|n IH]; intros z.
  - simpl. by rewrite Z.mod_1_r.
  - cbn [le_bytes le_val]. rewrite uz_zb, IH.
    rewrite Nat2Z.inj_succ, Z.pow_succ_r by lia.
    rewrite (Z.rem_mul_r z 256) by lia. lia.
Qed.

Lemma le_bytes_le_val l : le_bytes (length l) (le_val l) = l.
Proof.
  induction l as [|b l IH]; [done|]. cbn [length le_val le_bytes].
  pose proof (uz_range b).
  replace ((uz b + 256 * le_val l) / 256) with (le_val l)
    by (rewrite Z.mul_comm, Z.div_add by lia; rewrite (Z.div_small (uz b)); lia).
  rewrite IH. f_equal. rewrite <- (zb_uz b) at 2. apply zb_eq_mod.
  rewrite Z.mul_comm, Z.mod_add by lia. done.
Qed.

Lemma le_bytes_le_val_len n l : length l = n → le_bytes n (le_val l) = l.
Proof. intros <-. apply le_bytes_le_val. Qed.

Lemma le_bytes_mod n z : le_bytes n (z mod 256 ^ Z.of_nat n) = le_bytes n z.
Proof.
  rewrite <- le_val_le_bytes. apply le_bytes_le_val_len, length_le_bytes.
Qed.

Lemma le_val_app l k : le_val (l ++ k) = le_val l + 256 ^ Z.of_nat (length l) * le_val k.
Proof.
  induction l as [|b l IH]; [simpl; lia|].
  cbn [app le_val length]. rewrite IH, Nat2Z.inj_succ, Z.pow_succ_r by lia. lia.
Qed.

Lemma i32_from_le_bytes z : in_i 32 z → i32_from_le (le_bytes 4 z) = z.
Proof.
  intros Hz. unfold i32_from_le. rewrite le_val_le_bytes.
  change (256 ^ Z.of_nat 4) with (2 ^ 32). rewrite swrap_mod by lia.
  by apply swrap_small.
Qed.

Lemma i64_from_le_bytes z : in_i 64 z → i64_from_le (le_bytes 8 z) = z.
Proof.
  intros Hz. unfold i64_from_le. rewrite le_val_le_bytes.
  change (256 ^ Z.of_nat 8) with (2 ^ 64). rewrite swrap_mod by lia.
  by apply swrap_small.
Qed.

(** ** Lemmas on readers *)

Lemma parser_bind_ok {A B} (p : parser A) (f : A → parser B) s a s' :
  p s = Ok (a, s') → (p ≫= f) s = f a s'.
Proof. intros H. unfold mbind, parser_bind. by rewrite H. Qed.

Lemma parser_bind_err {A B} (p : parser A) (f : A → parser B) s e :
  p s = Err e → (p ≫= f) s = Err e.
Proof. intros H. unfold mbind, parser_bind. by rewrite H. Qed.

Lemma read_exact_app n l r : length l = n → read_exact n (l ++ r) = Ok (l, r).
Proof.
  intros <-. unfold read_exact. rewrite decide_True by (rewrite length_app; lia).
  by rewrite take_app_length, drop_app_length.
Qed.

Lemma read_exact_short n s : (length s < n)%nat → read_exact n s = Err UnexpectedEof.
Proof. intros H. unfold read_exact. by rewrite decide_False by lia. Qed.

Lemma read_exact_Ok n s l r :
  read_exact n s = Ok (l, r) → s = l ++ r ∧ length l = n.
Proof.
  unfold read_exact. case_decide; [|done]. intros [= <- <-].
  rewrite take_drop, length_take. split; [done|lia].
Qed.

(** ** Generic list lemmas *)

Lemma take_add_app {A} (n m : nat) (l : list A) :
  take (n + m) l = take n l ++ take m (drop n l).
Proof.
  revert l. induction n as [|n IH]; intros l; [done|].
  destruct l; simpl; [by rewrite take_nil|]. by rewrite IH.
Qed.

Lemma drop_S_lookup {A} (l : list A) i x :
  l !! i = Some x → drop i l = x :: drop (S i) l.
Proof. intros H. by apply drop_S. Qed.

(** ** Automation *)

(** ** Lists *)

Lemma lookup_copy_at i src dst j : (i + length src ≤ length dst)%nat →
  copy_at i src dst !! j =
    if decide (i ≤ j < i + length src)%nat then src !! (j - i)%nat else dst !! j.
Proof.
  intros Hl. unfold copy_at. assert (length (take i dst) = i) by (rewrite length_take; lia).
  destruct (Nat.lt_ge_cases j i).
  - rewrite decide_False by lia. rewrite lookup_app_l by lia. by rewrite lookup_take_lt.
  - rewrite lookup_app_r by lia. destruct (Nat.lt_ge_cases j (i + length src)).
    + rewrite decide_True by lia. rewrite lookup_app_l by lia. f_equal. lia.
    + rewrite decide_False by lia. rewrite lookup_app_r by lia. rewrite lookup_drop. f_equal. lia.
Qed.

Lemma length_copy_at i src dst : (i + length src ≤ length dst)%nat →
  length (copy_at i src dst) = length dst.
Proof. intros Hl. unfold copy_at. rewrite !length_app, length_take, length_drop. lia. Qed.

(** Case analysis on the scrutinee of the outermost [match] or [if]. *)
Ltac case_scrut :=
  match goal with
  | |- context [match ?x with _ => _ end] =>
      lazymatch x with context [match _ with _ => _ end] => fail | _ => destruct x eqn:? end
  end.

(** Turn boolean comparisons in the context into propositions. *)
Ltac bool_to_prop :=
  repeat match goal with
  | H : (_ && _)%bool = true |- _ => apply andb_prop in H as [??]
  | H : (_ || _)%bool = false |- _ => apply orb_false_elim in H as [??]
  | H : negb _ = true |- _ => apply negb_true_iff in H
  | H : negb _ = false |- _ => apply negb_false_iff in H
  | H : (_ <? _) = true |- _ => apply Z.ltb_lt in H
  | H : (_ <? _) = false |- _ => apply Z.ltb_ge in H
  | H : (_ <=? _) = true |- _ => apply Z.leb_le in H
  | H : (_ <=? _) = false |- _ => apply Z.leb_gt in H
  | H : (_ =? _) = true |- _ => apply Z.eqb_eq in H
  | H : (_ =? _) = false |- _ => apply Z.eqb_neq in H
  | H : (_ >? _) = true |- _ => rewrite Z.gtb_ltb in H
  | H : (_ >? _) = false |- _ => rewrite Z.gtb_ltb in H
  | H : (_ >=? _) = true |- _ => rewrite Z.geb_leb in H
  | H : (_ >=? _) = false |- _ => rewrite Z.geb_leb in H
  | H : bool_decide _ = true |- _ => apply bool_decide_eq_true in H
  | H : bool_decide _ = false |- _ => apply bool_decide_eq_false in H
  end.

Create HintDb wire discriminated.
#[export] Hint Rewrite @length_app length_le_bytes @length_take @length_drop
  @length_replicate : len.
