(* ===== verification/Wildmatch.v ===== *)
(** * Shell-style patterns ([crates/filters/src/wildmatch.rs])

    The matcher behind every filter rule, with its four return codes: besides
    "match" and "no match" it can abort the whole search, or abort back to the
    nearest [**].  Patterns and names are byte strings; the position in them is the
    suffix still to be read.

    The reference is a syntax of patterns ([glob_item], read by [parse_glob]) and
    the inductive relation [glob_match] between a pattern and the names it stands
    for.  The theorems say that the matcher stops on every input, and that it decides
    the relation: the abort codes only cut off searches that would have failed. *)

From stdpp Require Import strings.
From S2P Require Import Prelude.

Notation NUL := x00.
Notation SLASH := x2f.
Notation STAR := x2a.
Notation QUEST := x3f.
Notation LBRACK := x5b.
Notation RBRACK := x5d.
Notation BACKSLASH := x5c.
Notation COLON := x3a.
Notation DASH := x2d.

(** ** The code *)

Inductive verdict := TRUE | FALSE | ABORT_ALL | ABORT_TO_STARSTAR.

#[export] Instance verdict_eq_dec : EqDecision verdict.
Proof. solve_decision. Defined.

Definition NEGATE_CLASS : byte := x21.
Definition NEGATE_CLASS2 : byte := x5e.

(** Comparison of bytes, and the classes of the standard library. *)
Definition byte_le (a b : byte) : bool := (uz a <=? uz b)%Z.
Definition between (lo c hi : byte) : bool := byte_le lo c && byte_le c hi.

Definition is_ascii_digit (c : byte) : bool := between x30 c x39.
Definition is_ascii_uppercase (c : byte) : bool := between x41 c x5a.
Definition is_ascii_lowercase (c : byte) : bool := between x61 c x7a.
Definition is_ascii_alphabetic (c : byte) : bool := is_ascii_uppercase c || is_ascii_lowercase c.
Definition is_ascii_alphanumeric (c : byte) : bool := is_ascii_alphabetic c || is_ascii_digit c.
Definition is_ascii_control (c : byte) : bool := byte_le c x1f || bool_decide (c = x7f).
Definition is_ascii_graphic (c : byte) : bool := between x21 c x7e.
Definition is_ascii_punctuation (c : byte) : bool :=
  between x21 c x2f || between x3a c x40 || between x5b c x60 || between x7b c x7e.
Definition is_ascii_hexdigit (c : byte) : bool :=
  is_ascii_digit c || between x41 c x46 || between x61 c x66.

Definition bytes (s : string) : list byte := String.list_byte_of_string s.

Definition cc_matches (class : list byte) (ch : byte) : option bool :=
  let is_ascii := (uz ch <? 128)%Z in
  if decide (class = bytes "alnum") then Some (is_ascii && is_ascii_alphanumeric ch)
  else if decide (class = bytes "alpha") then Some (is_ascii && is_ascii_alphabetic ch)
  else if decide (class = bytes "blank") then
    Some (bool_decide (ch = x20) || bool_decide (ch = x09))
  else if decide (class = bytes "cntrl") then Some (is_ascii && is_ascii_control ch)
  else if decide (class = bytes "digit") then Some (is_ascii_digit ch)
  else if decide (class = bytes "graph") then Some (is_ascii && is_ascii_graphic ch)
  else if decide (class = bytes "lower") then Some (is_ascii && is_ascii_lowercase ch)
  else if decide (class = bytes "print") then
    Some (is_ascii && (is_ascii_graphic ch || bool_decide (ch = x20)))
  else if decide (class = bytes "punct") then Some (is_ascii && is_ascii_punctuation ch)
  else if decide (class = bytes "space") then
    Some (is_ascii && (bool_decide (ch = x20) || between x09 ch x0d))
  else if decide (class = bytes "upper") then Some (is_ascii && is_ascii_uppercase ch)
  else if decide (class = bytes "xdigit") then Some (is_ascii_hexdigit ch)
  else None.

(** The byte [i] places further, or NUL past the end. *)
Definition at_ (l : list byte) (i : nat) : byte := default NUL (l !! i).

(** [while at(p, e) != 0 && at(p, e) != b']' { e += 1 }]: how far [e] moves. *)
Fixpoint class_name_end (p : list byte) : nat :=
  match p with
  | [] => 0
  | c :: p' => if decide (c = NUL ∨ c = RBRACK) then 0 else S (class_name_end p')
  end.

(** What one turn of the loop over a bracket expression does: return [ABORT_ALL],
    or go on with a new [prev_ch] and [matched] from the position [p]. *)
Inductive class_turn :=
| TurnAbort
| TurnNext (prev_ch : byte) (matched : bool) (p : list byte).

Definition set_if (b matched : bool) : bool := if b then true else matched.

Definition class_step (t_ch prev_ch : byte) (matched : bool) (p : list byte) : class_turn :=
  let p_ch := at_ p 0 in
  if decide (p_ch = NUL) then TurnAbort
  else if decide (p_ch = BACKSLASH) then
    let p_ch := at_ p 1 in
    if decide (p_ch = NUL) then TurnAbort
    else TurnNext p_ch (set_if (bool_decide (t_ch = p_ch)) matched) (drop 1 p)
  else if decide (p_ch = DASH ∧ prev_ch ≠ NUL ∧ at_ p 1 ≠ NUL ∧ at_ p 1 ≠ RBRACK) then
    let p_ch := at_ p 1 in
    if decide (p_ch = BACKSLASH) then
      let p_ch := at_ p 2 in
      if decide (p_ch = NUL) then TurnAbort
      else TurnNext NUL (set_if (byte_le t_ch p_ch && byte_le prev_ch t_ch) matched) (drop 2 p)
    else TurnNext NUL (set_if (byte_le t_ch p_ch && byte_le prev_ch t_ch) matched) (drop 1 p)
  else if decide (p_ch = LBRACK ∧ at_ p 1 = COLON) then
    let s := 2%nat in
    let e := (s + class_name_end (drop s p))%nat in
    if decide (at_ p e = NUL) then TurnAbort
    else if decide (e ≤ s ∨ at_ p (e - 1) ≠ COLON)%nat then
      TurnNext LBRACK (set_if (bool_decide (t_ch = LBRACK)) matched) p
    else
      match cc_matches (take (e - 1 - s) (drop s p)) t_ch with
      | Some b => TurnNext NUL (set_if b matched) (drop e p)
      | None => TurnAbort
      end
  else TurnNext p_ch (set_if (bool_decide (t_ch = p_ch)) matched) p.

(** The loop over a bracket expression: [Some (Some (matched, p))] when it ends at
    the closing bracket, which [p] starts with; [Some None] for [ABORT_ALL]. *)
Fixpoint class_loop (fuel : nat) (t_ch prev_ch : byte) (matched : bool) (p : list byte)
    : option (option (bool * list byte)) :=
  match fuel with
  | O => None
  | S fuel' =>
      match class_step t_ch prev_ch matched p with
      | TurnAbort => Some None
      | TurnNext prev_ch matched p =>
          let p := drop 1 p in
          if decide (at_ p 0 = RBRACK) then Some (Some (matched, p))
          else class_loop fuel' t_ch prev_ch matched p
      end
  end.

Fixpoint skip_stars (p : list byte) : list byte :=
  match p with
  | c :: p' => if decide (c = STAR) then skip_stars p' else p
  | [] => []
  end.

(** The loop of a star that is not at the end of the pattern; [rec] is the call of
    the matcher on the rest of the pattern. *)
Fixpoint star_loop (rec : list byte → option verdict) (special : bool) (text : list byte)
    : option verdict :=
  match text with
  | [] => Some ABORT_ALL
  | t_ch :: text' =>
      if decide (t_ch = NUL) then Some ABORT_ALL
      else
        match rec text with
        | None => None
        | Some matched =>
            if decide (matched ≠ FALSE) then
              if decide (special = false ∨ matched ≠ ABORT_TO_STARSTAR) then Some matched
              else star_loop rec special text'
            else if decide (special = false ∧ t_ch = SLASH) then Some ABORT_TO_STARSTAR
            else star_loop rec special text'
        end
  end.

(** One fuel unit for every turn of the main loop, which takes at least one byte of
    the pattern. *)
Fixpoint dowild (fuel : nat) (p text : list byte) : option verdict :=
  match fuel with
  | O => None
  | S fuel' =>
      if decide (at_ p 0 = NUL) then
        if decide (at_ text 0 ≠ NUL) then Some FALSE else Some TRUE
      else
        let p_ch := at_ p 0 in
        let t_ch := at_ text 0 in
        if decide (t_ch = NUL ∧ p_ch ≠ STAR) then Some ABORT_ALL
        else if decide (p_ch = BACKSLASH) then
          if decide (t_ch ≠ at_ p 1) then Some FALSE
          else dowild fuel' (drop 2 p) (drop 1 text)
        else if decide (p_ch = QUEST) then
          if decide (t_ch = SLASH) then Some FALSE
          else dowild fuel' (drop 1 p) (drop 1 text)
        else if decide (p_ch = STAR) then
          let p := drop 1 p in
          let special := bool_decide (at_ p 0 = STAR) in
          let p := if special then skip_stars p else p in
          if decide (at_ p 0 = NUL) then
            if decide (special = false ∧ SLASH ∈ text) then Some FALSE else Some TRUE
          else star_loop (dowild fuel' p) special text
        else if decide (p_ch = LBRACK) then
          let p := drop 1 p in
          let p_ch := if decide (at_ p 0 = NEGATE_CLASS2) then NEGATE_CLASS else at_ p 0 in
          let special := bool_decide (p_ch = NEGATE_CLASS) in
          let p := if special then drop 1 p else p in
          match class_loop fuel' t_ch NUL false p with
          | None => None
          | Some None => Some ABORT_ALL
          | Some (Some (matched, p)) =>
              if decide (matched = special ∨ t_ch = SLASH) then Some FALSE
              else dowild fuel' (drop 1 p) (drop 1 text)
          end
        else if decide (t_ch ≠ p_ch) then Some FALSE
        else dowild fuel' (drop 1 p) (drop 1 text)
  end.

Definition wildmatch (pattern text : list byte) : bool :=
  bool_decide (dowild (S (length pattern)) pattern text = Some TRUE).

(** ** The reference *)

(** The syntax of patterns. *)
Inductive class_item :=
| CChar (c : byte)
| CRange (lo hi : byte)
| CNamed (name : list byte).

Inductive glob_item :=
| GLit (c : byte)
| GAny
| GClass (negated : bool) (items : list class_item)
| GStar
| GStarStar.

(** A member of a bracket expression, and the character before a dash. *)
Definition read_class_item (prev : byte) (p : list byte)
    : option (class_item * byte * list byte) :=
  match p with
  | [] => None
  | c :: p1 =>
      if decide (c = BACKSLASH) then
        match p1 with e :: p2 => Some (CChar e, e, p2) | [] => None end
      else if decide (c = DASH ∧ prev ≠ NUL ∧ at_ p1 0 ≠ NUL ∧ at_ p1 0 ≠ RBRACK) then
        match p1 with
        | hi :: p2 =>
            if decide (hi = BACKSLASH) then
              match p2 with e :: p3 => Some (CRange prev e, NUL, p3) | [] => None end
            else Some (CRange prev hi, NUL, p2)
        | [] => None
        end
      else if decide (c = LBRACK ∧ at_ p1 0 = COLON) then
        let body := drop 1 p1 in
        let e := class_name_end body in
        if decide (e = length body) then None
        else if decide (e = 0%nat ∨ at_ body (e - 1) ≠ COLON) then Some (CChar c, c, p1)
        else
          let name := take (e - 1) body in
          match cc_matches name NUL with
          | Some _ => Some (CNamed name, NUL, drop (S e) body)
          | None => None
          end
      else Some (CChar c, c, p1)
  end.

Fixpoint read_class (fuel : nat) (prev : byte) (p : list byte)
    : option (list class_item * list byte) :=
  match fuel with
  | O => None
  | S fuel' =>
      match read_class_item prev p with
      | None => None
      | Some (it, prev', p') =>
          match p' with
          | c :: rest =>
              if decide (c = RBRACK) then Some ([it], rest)
              else
                match read_class fuel' prev' p' with
                | Some (items, rest) => Some (it :: items, rest)
                | None => None
                end
          | [] =>
              match read_class fuel' prev' p' with
              | Some (items, rest) => Some (it :: items, rest)
              | None => None
              end
          end
      end
  end.

(** The items of a pattern; [None] for a malformed one. *)
Fixpoint parse_glob_fuel (fuel : nat) (p : list byte) : option (list glob_item) :=
  match fuel with
  | O => None
  | S fuel' =>
      match p with
      | [] => Some []
      | c :: p1 =>
          if decide (c = BACKSLASH) then
            match p1 with e :: p2 => cons (GLit e) <$> parse_glob_fuel fuel' p2 | [] => None end
          else if decide (c = QUEST) then cons GAny <$> parse_glob_fuel fuel' p1
          else if decide (c = STAR) then
            if decide (at_ p1 0 = STAR)
            then cons GStarStar <$> parse_glob_fuel fuel' (skip_stars p1)
            else cons GStar <$> parse_glob_fuel fuel' p1
          else if decide (c = LBRACK) then
            let negated := bool_decide (at_ p1 0 = x21 ∨ at_ p1 0 = x5e) in
            match read_class fuel' NUL (if negated then drop 1 p1 else p1) with
            | Some (items, rest) => cons (GClass negated items) <$> parse_glob_fuel fuel' rest
            | None => None
            end
          else cons (GLit c) <$> parse_glob_fuel fuel' p1
      end
  end.

Definition parse_glob (p : list byte) : option (list glob_item) :=
  parse_glob_fuel (S (length p)) p.

Definition class_item_mem (c : byte) (it : class_item) : bool :=
  match it with
  | CChar a => bool_decide (c = a)
  | CRange lo hi => byte_le c hi && byte_le lo c
  | CNamed name => default false (cc_matches name c)
  end.

(** The bytes an item stands for, when it stands for one byte. *)
Definition item_accepts (x : glob_item) (c : byte) : bool :=
  match x with
  | GLit a => bool_decide (c = a)
  | GAny => bool_decide (c ≠ SLASH)
  | GClass negated items =>
      xorb negated (existsb (class_item_mem c) items) && bool_decide (c ≠ SLASH)
  | GStar | GStarStar => false
  end.

(** The names a pattern stands for. *)
Inductive glob_match : list glob_item → list byte → Prop :=
| gm_nil : glob_match [] []
| gm_one x c g t : item_accepts x c = true → glob_match g t → glob_match (x :: g) (c :: t)
| gm_star u g t : SLASH ∉ u → glob_match g t → glob_match (GStar :: g) (u ++ t)
| gm_starstar u g t : glob_match g t → glob_match (GStarStar :: g) (u ++ t).

Definition matches_opt (o : option (list glob_item)) (t : list byte) : Prop :=
  ∃ g, o = Some g ∧ glob_match g t.

Definition glob_matches (p t : list byte) : Prop := matches_opt (parse_glob p) t.

(** What a verdict of the matcher says about the rest of the pattern. *)
Definition verdict_ok (o : option (list glob_item)) (t : list byte) (v : verdict) : Prop :=
  match v with
  | TRUE => matches_opt o t
  | FALSE => ¬ matches_opt o t
  | ABORT_ALL => ∀ u t', t = u ++ t' → ¬ matches_opt o t'
  | ABORT_TO_STARSTAR => ∀ u t', t = u ++ t' → SLASH ∉ u → ¬ matches_opt o t'
  end.

(** ** Termination *)

Lemma at_cons c p i : at_ (c :: p) (S i) = at_ p i.
Proof. done. Qed.

Lemma at_drop p i k : at_ (drop k p) i = at_ p (k + i).
Proof. unfold at_. by rewrite lookup_drop. Qed.

Lemma at_nonzero p i : at_ p i ≠ NUL → (i < length p)%nat.
Proof.
  intros H. destruct (decide (i < length p)%nat) as [|Hge]; [done|].
  exfalso. apply H. unfold at_. by rewrite lookup_ge_None_2 by lia.
Qed.

Lemma length_skip_stars p : (length (skip_stars p) ≤ length p)%nat.
Proof. induction p as [|c p IH]; simpl; [lia|]. case_decide; simpl; lia. Qed.

(** A turn that goes on has not moved past the end of the pattern. *)
Lemma class_step_position t prev m p prev' m' p' :
  class_step t prev m p = TurnNext prev' m' p' → (0 < length p' ≤ length p)%nat.
Proof.
  unfold class_step. intros H.
  repeat (case_decide; try done).
  all: try (injection H as ??<-).
  all: repeat match goal with
    | H : _ ∧ _ |- _ => destruct H
    | H : at_ _ _ ≠ NUL |- _ => apply at_nonzero in H
    end.
  all: rewrite ?length_drop in *; try lia.
  destruct (cc_matches _ _); [|done]. injection H as ??<-. rewrite length_drop. lia.
Qed.

Lemma class_loop_total fuel t prev m p :
  (length p < fuel)%nat → ∃ r, class_loop fuel t prev m p = Some r ∧
    ∀ m' p', r = Some (m', p') → (0 < length p' < length p)%nat.
Proof.
  revert prev m p. induction fuel as [|fuel IH]; intros prev m p Hl; [lia|]. cbn [class_loop].
  destruct (class_step t prev m p) as [|prev' m' p'] eqn:E; [by eexists|].
  apply class_step_position in E. case_decide as Hb.
  - eexists; split; [done|]. intros m2 p2 [= <- <-].
    assert (0 < length (drop 1 p'))%nat by (apply at_nonzero; by rewrite Hb).
    rewrite length_drop in *. lia.
  - destruct (IH prev' m' (drop 1 p')) as (r & -> & Hr); [rewrite length_drop; lia|].
    eexists; split; [done|]. intros m2 p2 E2. specialize (Hr m2 p2 E2).
    rewrite length_drop in Hr. lia.
Qed.

Lemma star_loop_total rec special text :
  (∀ t, is_Some (rec t)) → is_Some (star_loop rec special text).
Proof.
  intros Hrec. induction text as [|c text IH]; cbn [star_loop]; [by eexists|].
  case_decide; [by eexists|]. destruct (Hrec (c :: text)) as [v ->].
  repeat case_decide; done || by eexists.
Qed.

Lemma dowild_total fuel p text : (length p < fuel)%nat → is_Some (dowild fuel p text).
Proof.
  revert p text. induction fuel as [|fuel IH]; intros p text Hl; [lia|]. cbn [dowild].
  case_decide as Hp; [case_decide; by eexists|]. apply at_nonzero in Hp.
  case_decide; [by eexists|].
  case_decide; [case_decide; [by eexists|apply IH; rewrite length_drop; lia]|].
  case_decide; [case_decide; [by eexists|apply IH; rewrite length_drop; lia]|].
  case_decide.
  { destruct (decide _); [destruct (decide _); by eexists|]. apply star_loop_total. intros t. apply IH.
    pose proof (length_skip_stars (drop 1 p)). rewrite length_drop in *.
    destruct (bool_decide _); rewrite ?length_drop; lia. }
  case_decide; [|case_decide; [by eexists|apply IH; rewrite length_drop; lia]].
  match goal with |- context [class_loop fuel _ _ _ ?q] =>
    assert (length q < length p)%nat by (case_match; rewrite ?length_drop; lia);
    destruct (class_loop_total fuel (at_ text 0) NUL false q) as (r & -> & Hr); [lia|]
  end.
  destruct r as [[m q]|]; [|by eexists]. specialize (Hr _ _ eq_refl).
  destruct (decide (_ ∨ _)); [by eexists|]. apply IH. rewrite length_drop. lia.
Qed.

(** ** The matcher decides the reference *)

Lemma at_nul p i : NUL ∉ p → at_ p i = NUL ↔ (length p ≤ i)%nat.
Proof.
  intros Hp. unfold at_. destruct (p !! i) as [c|] eqn:E; simpl.
  - split; [|apply lookup_lt_Some in E; lia]. intros ->.
    by apply list_elem_of_lookup_2 in E.
  - apply lookup_ge_None in E. done.
Qed.

Lemma class_name_end_le p : (class_name_end p ≤ length p)%nat.
Proof. induction p as [|c p IH]; simpl; [lia|]. case_decide; lia. Qed.

Lemma cc_matches_known name a b : cc_matches name a = None → cc_matches name b = None.
Proof. unfold cc_matches. intros H. repeat (case_decide; [done|]). done. Qed.

Lemma class_step_reads t prev m p : NUL ∉ p →
  match read_class_item prev p with
  | None => class_step t prev m p = TurnAbort
  | Some (it, prev', p') => ∃ q,
      class_step t prev m p = TurnNext prev' (set_if (class_item_mem t it) m) q ∧ drop 1 q = p'
  end.
Proof.
  intros Hp. destruct p as [|c p1]; [done|]. unfold class_step, read_class_item.
  change (at_ (c :: p1) 0) with c. rewrite !(at_cons c p1).
  rewrite (decide_False (P := c = NUL)) by (intros ->; by apply Hp; left).
  assert (NUL ∉ p1) as Hp1 by (contradict Hp; by right).
  destruct (decide (c = BACKSLASH)) as [_|_].
  { destruct p1 as [|e p2]; [done|]. change (at_ (e :: p2) 0) with e.
    rewrite decide_False by (intros ->; by apply Hp1; left). by eexists. }
  destruct (decide (c = DASH ∧ _)) as [(_ & _ & Hnz & _)|_].
  { destruct p1 as [|hi p2]; [done|]. change (at_ (hi :: p2) 0) with hi in *.
    rewrite (at_cons hi p2). destruct (decide (hi = BACKSLASH)) as [_|_]; [|by eexists].
    destruct p2 as [|e p3]; [done|]. change (at_ (e :: p3) 0) with e.
    rewrite decide_False by (intros ->; apply Hp1; right; by left). by eexists. }
  destruct (decide (c = LBRACK ∧ _)) as [[-> Hc]|_]; [|by eexists].
  destruct p1 as [|c1 body]; [done|]. change (at_ (c1 :: body) 0) with c1 in Hc. subst c1.
  cbn [drop]. assert (NUL ∉ body) as Hb by (contradict Hp1; by right).
  rewrite !drop_0. pose proof (class_name_end_le body) as He.
  set (e := class_name_end body) in *.
  assert (∀ k, at_ (LBRACK :: COLON :: body) (2 + k) = at_ body k) as Hat by done.
  rewrite Hat. destruct (decide (e = length body)) as [Hel|Hel].
  { rewrite (decide_True (P := at_ body e = NUL)) by (apply at_nul; [done|lia]). done. }
  rewrite (decide_False (P := at_ body e = NUL)) by (rewrite at_nul by done; lia).
  destruct (decide (e = 0%nat ∨ _)) as [Hn|Hn].
  { rewrite decide_True; [by eexists|]. destruct Hn as [->|Hn]; [left; lia|].
    destruct (decide (e = 0)%nat) as [?|?]; [left; lia|right].
    by replace (2 + e - 1)%nat with (2 + (e - 1))%nat by lia. }
  rewrite decide_False.
  2: { intros [?|H]; apply Hn; [left; lia|]. right.
       destruct (decide (e = 0)%nat) as [?|?]; [exfalso; tauto|].
       by replace (2 + e - 1)%nat with (2 + (e - 1))%nat in H by lia. }
  replace (2 + e - 1 - 2)%nat with (e - 1)%nat by lia.
  unfold class_item_mem. destruct (cc_matches (take (e - 1) body) NUL) eqn:E1.
  - destruct (cc_matches (take (e - 1) body) t) eqn:E2.
    + eexists. split; [done|]. change (drop (2 + e) (LBRACK :: COLON :: body)) with (drop e body).
      rewrite drop_drop. f_equal. lia.
    + by rewrite (cc_matches_known _ t NUL) in E1.
  - by rewrite (cc_matches_known _ NUL t).
Qed.

Lemma read_class_item_suffix prev p it prev' p' :
  read_class_item prev p = Some (it, prev', p') → ∃ k, p' = drop k p.
Proof.
  unfold read_class_item. destruct p as [|c p1]; [done|]. intros H.
  repeat (case_decide || case_match); simplify_eq.
  all: first [by exists 1%nat | by exists 2%nat | by exists 3%nat | idtac].
  eexists (2 + S _)%nat. rewrite drop_drop. destruct p1; [by rewrite !drop_nil|]. done.
Qed.

Lemma nul_free_drop k (p : list byte) : NUL ∉ p → NUL ∉ drop k p.
Proof. intros H Hin. apply H. rewrite <- (take_drop k p). set_solver. Qed.

Lemma class_loop_reads fuel t prev m p : NUL ∉ p →
  class_loop fuel t prev m p =
    match read_class fuel prev p with
    | Some (items, rest) =>
        Some (Some (m || existsb (class_item_mem t) items, RBRACK :: rest))
    | None => class_loop fuel t prev m p
    end ∧
  (read_class fuel prev p = None → ∀ r, class_loop fuel t prev m p = Some r → r = None).
Proof.
  revert prev m p. induction fuel as [|fuel IH]; intros prev m p Hp; [done|].
  cbn [class_loop read_class]. pose proof (class_step_reads t prev m p Hp) as Hs.
  destruct (read_class_item prev p) as [[[it prev'] p']|] eqn:E.
  2: { rewrite Hs. split; [done|]. by intros _ r [= <-]. }
  destruct Hs as (q & -> & ->). destruct (read_class_item_suffix _ _ _ _ _ E) as [k Hk].
  assert (NUL ∉ p') as Hp' by (subst p'; by apply nul_free_drop).
  assert (set_if (class_item_mem t it) m = m || class_item_mem t it) as ->
    by (destruct m, (class_item_mem t it); done).
  destruct (IH prev' (m || class_item_mem t it) p' Hp') as [IH1 IH2].
  assert (∀ l, m || class_item_mem t it || existsb (class_item_mem t) l =
    m || existsb (class_item_mem t) (it :: l)) as Ho by (intros; cbn [existsb]; by rewrite orb_assoc).
  destruct p' as [|c rest].
  - rewrite decide_False by done. destruct (read_class fuel prev' []) as [[items rest]|].
    + by rewrite IH1, Ho.
    + by split.
  - change (at_ (c :: rest) 0) with c. case_decide as Hc.
    + subst c. split; [|done]. cbn [existsb]. by rewrite orb_false_r.
    + destruct (read_class fuel prev' (c :: rest)) as [[items rest']|]; [|by split].
      by rewrite IH1, Ho.
Qed.

Definition is_star (x : glob_item) : bool :=
  match x with GStar | GStarStar => true | _ => false end.

Lemma item_accepts_slash x c :
  item_accepts x SLASH = true → item_accepts x c = true → c = SLASH.
Proof.
  destruct x; simpl; rewrite ?andb_true_iff, ?bool_decide_eq_true; naive_solver.
Qed.

Lemma matches_one x o t : is_star x = false →
  matches_opt (cons x <$> o) t ↔ ∃ c t', t = c :: t' ∧ item_accepts x c = true ∧ matches_opt o t'.
Proof.
  intros Hx. split.
  - intros (g & Hg & Hm). apply fmap_Some in Hg as (g' & -> & ->).
    inversion Hm; subst; try done. do 2 eexists. split_and!; [done..|]. by eexists.
  - intros (c & t' & -> & Hc & g & -> & Hg). eexists. split; [done|]. by constructor.
Qed.

(** The names a starred pattern stands for. *)
Definition star_item (special : bool) : glob_item := if special then GStarStar else GStar.

Lemma matches_star special o t :
  matches_opt (cons (star_item special) <$> o) t ↔
  ∃ u t', t = u ++ t' ∧ (special = false → SLASH ∉ u) ∧ matches_opt o t'.
Proof.
  split.
  - intros (g & Hg & Hm). apply fmap_Some in Hg as (g' & -> & ->).
    destruct special; inversion Hm; subst; try done; (do 2 eexists; split_and!; [done..|]; by eexists).
  - intros (u & t' & -> & Hu & g & -> & Hg). eexists. split; [done|].
    destruct special; constructor; auto.
Qed.

(** A byte that an item accepts passes the verdict on. *)
Lemma verdict_accept x o c t v : is_star x = false → item_accepts x c = true →
  verdict_ok o t v → verdict_ok (cons x <$> o) (c :: t) v.
Proof.
  intros Hx Hc. pose proof (λ t, matches_one x o t Hx) as HM.
  destruct v; cbn [verdict_ok]; setoid_rewrite HM; clear HM.
  - intros H. by exists c, t.
  - intros H (c' & t' & [= <- <-] & _ & Hm). done.
  - intros H u t' Ht (c' & t2 & -> & _ & Hm).
    destruct u as [|a u]; simplify_eq/=; [by apply (H [] t2)|].
    apply (H (u ++ [c']) t2); [by rewrite <- app_assoc|done].
  - intros H u t' Ht Hu (c' & t2 & -> & Hc' & Hm).
    destruct u as [|a u]; simplify_eq/=; [by apply (H [] t2); [|set_solver|]|].
    apply (H (u ++ [c']) t2); [by rewrite <- app_assoc| |done].
    assert (c' ≠ SLASH); [|set_solver]. intros ->.
    assert (a = SLASH) by (by apply (item_accepts_slash x)). set_solver.
Qed.

Lemma verdict_reject x o c t : is_star x = false → item_accepts x c = false →
  verdict_ok (cons x <$> o) (c :: t) FALSE.
Proof.
  intros Hx Hc. cbn [verdict_ok]. rewrite matches_one by done. intros (? & ? & [= <- <-] & ? & _).
  congruence.
Qed.

Lemma verdict_short x o : is_star x = false → verdict_ok (cons x <$> o) [] ABORT_ALL.
Proof.
  intros Hx u t' Ht. symmetry in Ht. apply app_nil in Ht as [-> ->].
  rewrite matches_one by done. by intros (? & ? & ? & _).
Qed.

Lemma verdict_malformed t v : v ≠ TRUE → verdict_ok None t v.
Proof. destruct v; [done|..]; intros _; simpl; unfold matches_opt; naive_solver. Qed.

(** The byte the star is at cannot be the start of the rest, and is passed over. *)
Lemma verdict_star_skip special o c t v : ¬ matches_opt o (c :: t) →
  (special = false → c ≠ SLASH) → verdict_ok (cons (star_item special) <$> o) t v →
  verdict_ok (cons (star_item special) <$> o) (c :: t) v.
Proof.
  intros Hno Hc. 
  assert (matches_opt (cons (star_item special) <$> o) (c :: t) →
    matches_opt (cons (star_item special) <$> o) t) as Hback.
  { rewrite !matches_star. intros ([|a u] & t' & E & Hu & Hm); simplify_eq/=; [done|].
    exists u, t'. split_and!; [done| |done]. intros Hs. specialize (Hu Hs). set_solver. }
  destruct v; cbn [verdict_ok].
  - rewrite !matches_star. intros (u & t' & -> & Hu & Hm). exists (c :: u), t'.
    split_and!; [done| |done]. set_solver.
  - tauto.
  - intros H [|a u] t' E; simplify_eq/=; [|by eapply H].
    intros Hm. by apply (H [] t), Hback.
  - intros H [|a u] t' E Hu; simplify_eq/=; [|eapply H; [done|set_solver]].
    intros Hm. apply (H [] t); [done|set_solver|by apply Hback].
Qed.

Lemma verdict_star_now special o t v :
  (special = true → v ≠ ABORT_TO_STARSTAR) → v ≠ FALSE → verdict_ok o t v →
  verdict_ok (cons (star_item special) <$> o) t v.
Proof.
  intros Hs Hv. destruct v; cbn [verdict_ok]; [..|done| |].
  - intros H. apply matches_star. exists [], t. split_and!; [done|set_solver|done].
  - intros H u t' -> (u' & t2 & -> & _ & Hm)%matches_star.
    apply (H (u ++ u') t2); [by rewrite app_assoc|done].
  - intros H u t' -> Hu (u' & t2 & -> & Hu' & Hm)%matches_star.
    destruct special; [by specialize (Hs eq_refl)|].
    apply (H (u ++ u') t2); [by rewrite app_assoc|set_solver|done].
Qed.

Lemma star_loop_ok rec special o text v : NUL ∉ text →
  (∀ t w, NUL ∉ t → rec t = Some w → verdict_ok o t w) → ¬ matches_opt o [] →
  star_loop rec special text = Some v →
  verdict_ok (cons (star_item special) <$> o) text v.
Proof.
  intros Ht Hrec Hnil. induction text as [|c text IH]; cbn [star_loop].
  { intros [= <-] u t' E. symmetry in E. apply app_nil in E as [-> ->].
    intros (u & t' & E & _ & Hm)%matches_star. symmetry in E. by apply app_nil in E as [-> ->]. }
  rewrite decide_False by (intros ->; set_solver).
  assert (NUL ∉ text) as Ht' by set_solver. specialize (IH Ht').
  destruct (rec (c :: text)) as [w|] eqn:E; [|done]. specialize (Hrec _ _ Ht E).
  case_decide as Hw.
  - case_decide as Hs.
    + intros [= <-]. apply verdict_star_now; [|done..]. intros ->. by destruct Hs.
    + assert (w = ABORT_TO_STARSTAR ∧ special = true) as [-> Hsp]
        by (destruct w, special; try done; exfalso; apply Hs; auto).
      subst special. intros Hv. apply verdict_star_skip; [|done|auto].
      apply (Hrec []); [done|set_solver].
  - subst w. case_decide as Hs.
    + destruct Hs as [-> ->]. intros [= <-] u t' Et Hu Hm.
      apply matches_star in Hm as (u' & t2 & -> & Hu' & Hm). specialize (Hu' eq_refl).
      destruct u as [|a u]; [|simplify_eq/=; set_solver].
      destruct u' as [|a u']; [|simplify_eq/=; set_solver].
      simplify_eq/=. done.
    + intros Hv. apply verdict_star_skip; [done| |auto]. intros -> ->. by apply Hs.
Qed.

(** A pattern that starts with an item other than a star takes a byte. *)
Lemma parse_glob_head fuel p : NUL ∉ p → p ≠ [] → at_ p 0 ≠ STAR →
  ¬ matches_opt (parse_glob_fuel fuel p) [].
Proof.
  intros Hp Hne Hs. destruct fuel as [|fuel]; [by intros (? & ? & _)|].
  destruct p as [|c p1]; [done|]. change (at_ (c :: p1) 0) with c in Hs.
  cbn [parse_glob_fuel].
  repeat case_decide; try done.
  all: repeat case_match; try (by intros (? & ? & _)).
  all: rewrite matches_one by done; by intros (? & ? & ? & _).
Qed.

Lemma skip_stars_suffix p : ∃ k, skip_stars p = drop k p.
Proof.
  induction p as [|c p [k IH]]; [by exists 0%nat|]. cbn [skip_stars].
  case_decide; [by exists (S k)|by exists 0%nat].
Qed.

Lemma skip_stars_head p : at_ (skip_stars p) 0 ≠ STAR.
Proof. induction p as [|c p IH]; [done|]. cbn [skip_stars]. by case_decide. Qed.

Lemma read_class_suffix fuel prev p items rest :
  read_class fuel prev p = Some (items, rest) → ∃ k, rest = drop k p.
Proof.
  revert prev p items rest. induction fuel as [|fuel IH]; intros prev p items rest H; [done|].
  cbn [read_class] in H. destruct (read_class_item prev p) as [[[it prev'] p']|] eqn:E; [|done].
  apply read_class_item_suffix in E as [k ->].
  destruct (drop k p) as [|c r] eqn:Ed; [|case_decide; simplify_eq].
  - destruct (read_class fuel prev' []) as [[items' rest']|] eqn:E2; simplify_eq.
    apply IH in E2 as [k2 ->]. exists k. by rewrite drop_nil, Ed.
  - exists (S k). by rewrite <- Nat.add_1_r, <- drop_drop, Ed.
  - destruct (read_class fuel prev' (c :: r)) as [[items' rest']|] eqn:E2; simplify_eq.
    apply IH in E2 as [k2 ->]. rewrite <- Ed, drop_drop. by eexists.
Qed.

(** The case of a star. *)
Lemma dowild_star_ok fuel p1 text v :
  (∀ p t w, (length p < fuel)%nat → NUL ∉ p → NUL ∉ t → dowild fuel p t = Some w →
    verdict_ok (parse_glob_fuel fuel p) t w) →
  (length p1 < fuel)%nat → NUL ∉ p1 → NUL ∉ text →
  let special := bool_decide (at_ p1 0 = STAR) in
  let p2 := if special then skip_stars p1 else p1 in
  (if decide (at_ p2 0 = NUL) then
     if decide (special = false ∧ SLASH ∈ text) then Some FALSE else Some TRUE
   else star_loop (dowild fuel p2) special text) = Some v →
  verdict_ok (cons (star_item special) <$> parse_glob_fuel fuel p2) text v.
Proof.
  intros IH Hl Hp1 Ht special p2.
  assert (NUL ∉ p2 ∧ (length p2 ≤ length p1)%nat ∧ at_ p2 0 ≠ STAR) as (Hp2 & Hl2 & Hhd).
  { unfold p2, special. case_bool_decide as Hs; [|done].
    destruct (skip_stars_suffix p1) as [k Hk]. split_and!.
    - rewrite Hk. by apply nul_free_drop.
    - apply length_skip_stars.
    - apply skip_stars_head. }
  clearbody p2 special. destruct (decide (at_ p2 0 = NUL)) as [Hz|Hz].
  - apply at_nul in Hz; [|done]. destruct p2; [|simpl in Hz; lia].
    destruct fuel as [|fuel]; [lia|]. cbn [parse_glob_fuel].
    case_decide as Hs; intros [= <-]; cbn [verdict_ok]; rewrite matches_star.
    + destruct Hs as [-> Hin]. intros (u & t' & -> & Hu & g & [= <-] & Hm). inversion Hm; subst.
      specialize (Hu eq_refl). set_solver.
    + exists text, []. rewrite app_nil_r. split_and!; [done|naive_solver|].
      eexists. by split; [|constructor].
  - intros Hv. eapply star_loop_ok; [done| | |done].
    + intros t w Ht' Hw. apply IH; [lia|done..].
    + apply parse_glob_head; [done| |done]. intros ->. by apply Hz.
Qed.

(** The case of a bracket expression. *)
Lemma dowild_class_ok fuel p1 t text v :
  (∀ p t w, (length p < fuel)%nat → NUL ∉ p → NUL ∉ t → dowild fuel p t = Some w →
    verdict_ok (parse_glob_fuel fuel p) t w) →
  (length p1 < fuel)%nat → NUL ∉ p1 → NUL ∉ text →
  let p_ch := if decide (at_ p1 0 = NEGATE_CLASS2) then NEGATE_CLASS else at_ p1 0 in
  let special := bool_decide (p_ch = NEGATE_CLASS) in
  match class_loop fuel t NUL false (if special then drop 1 p1 else p1) with
  | None => None
  | Some None => Some ABORT_ALL
  | Some (Some (matched, p)) =>
      if decide (matched = special ∨ t = SLASH) then Some FALSE
      else dowild fuel (drop 1 p) text
  end = Some v →
  let negated := bool_decide (at_ p1 0 = x21 ∨ at_ p1 0 = x5e) in
  verdict_ok
    match read_class fuel NUL (if negated then drop 1 p1 else p1) with
    | Some (items, rest) => cons (GClass negated items) <$> parse_glob_fuel fuel rest
    | None => None
    end (t :: text) v.
Proof.
  intros IH Hl Hp1 Ht p_ch special Hv negated.
  assert (special = negated) as Hneg.
  { unfold special, p_ch, negated, NEGATE_CLASS, NEGATE_CLASS2.
    apply bool_decide_ext. destruct (decide (at_ p1 0 = x5e)); tauto. }
  rewrite Hneg in Hv. clear Hneg special p_ch.
  set (q := if negated then drop 1 p1 else p1) in *.
  assert (NUL ∉ q ∧ (length q ≤ length p1)%nat) as [Hq Hlq].
  { unfold q. destruct negated; [|done]. split; [by apply nul_free_drop|rewrite length_drop; lia]. }
  destruct (class_loop_total fuel t NUL false q) as (r & Hr & Hpos); [lia|].
  destruct (class_loop_reads fuel t NUL false q Hq) as [H1 H2].
  destruct (read_class fuel NUL q) as [[items rest]|] eqn:Er.
  - rewrite H1 in Hv, Hr. simplify_eq. specialize (Hpos _ _ eq_refl). cbn [drop length] in *.
    rewrite drop_0 in Hv. rewrite orb_false_l in Hv.
    destruct (read_class_suffix _ _ _ _ _ Er) as [k Hk].
    case_decide as Hd; simplify_eq.
    + apply verdict_reject; [done|]. simpl. destruct Hd as [->| ->].
      * by rewrite xorb_nilpotent.
      * by rewrite andb_false_r.
    + apply verdict_accept; [done| |].
      * simpl. rewrite bool_decide_true by tauto.
        destruct negated, (existsb (class_item_mem t) items); try done; tauto.
      * apply IH; [lia| |done..]. by apply nul_free_drop.
  - rewrite Hr in Hv. rewrite (H2 eq_refl r Hr) in Hv. simplify_eq. by apply verdict_malformed.
Qed.

Lemma dowild_ok fuel p text v : (length p < fuel)%nat → NUL ∉ p → NUL ∉ text →
  dowild fuel p text = Some v → verdict_ok (parse_glob_fuel fuel p) text v.
Proof.
  revert p text v. induction fuel as [|fuel IH]; intros p text v Hl Hp Ht; [done|].
  cbn [dowild parse_glob_fuel]. destruct p as [|c p1].
  { change (at_ [] 0) with NUL. rewrite decide_True by done. destruct text as [|t text].
    - rewrite decide_False by auto. intros [= <-]. eexists. by split; [|constructor].
    - rewrite decide_True by (intros E; change (t = NUL) in E; set_solver).
      intros [= <-] (g & [= <-] & Hm). inversion Hm. }
  change (at_ (c :: p1) 0) with c. rewrite !(at_cons c p1).
  change (drop 1 (c :: p1)) with p1. change (drop 2 (c :: p1)) with (drop 1 p1).
  rewrite (decide_False (P := c = NUL)) by (intros ->; set_solver).
  assert (NUL ∉ p1) as Hp1 by set_solver. cbn [length] in Hl.
  destruct (decide (c = STAR)) as [->|Hstar].
  { rewrite (decide_False (P := _ ∧ _)) by naive_solver.
    rewrite !(decide_False (P := STAR = _)) by done. intros Hv.
    apply (dowild_star_ok fuel p1) in Hv; [|done|lia|done..].
    unfold star_item in Hv. case_bool_decide as Hs; [rewrite (decide_True _ _ Hs)|rewrite (decide_False _ _ Hs)]; done. }
  destruct text as [|t text].
  { change (at_ [] 0) with NUL. rewrite decide_True by done. intros [= <-].
    repeat case_match; first [by apply verdict_short | by apply verdict_malformed]. }
  change (at_ (t :: text) 0) with t. change (drop 1 (t :: text)) with text.
  assert (t ≠ NUL ∧ NUL ∉ text) as [Htn Ht'] by set_solver.
  rewrite (decide_False (P := t = NUL ∧ _)) by tauto.
  destruct (decide (c = BACKSLASH)) as [->|?].
  { destruct p1 as [|e p2].
    - change (at_ [] 0) with NUL. rewrite decide_True by done. intros [= <-].
      by apply verdict_malformed.
    - change (at_ (e :: p2) 0) with e. change (drop 1 (e :: p2)) with p2. cbn [length] in Hl.
      case_decide as Hte; [intros [= <-]|intros Hv].
      + apply verdict_reject; [done|]. by apply bool_decide_false.
      + apply verdict_accept; [done|by apply bool_decide_true|]. apply IH; [lia|set_solver|done..]. }
  destruct (decide (c = QUEST)) as [->|?].
  { case_decide as Hts; [intros [= <-]|intros Hv].
    - apply verdict_reject; [done|]. apply bool_decide_false. by intros [].
    - apply verdict_accept; [done|by apply bool_decide_true|]. apply IH; [lia|done..]. }
  destruct (decide (c = LBRACK)) as [->|?].
  { intros Hv. apply (dowild_class_ok fuel p1); [done|lia|done..]. }
  case_decide as Htc; [intros [= <-]|intros Hv].
  - apply verdict_reject; [done|]. by apply bool_decide_false.
  - apply verdict_accept; [done|by apply bool_decide_true|]. apply IH; [lia|done..].
Qed.

(** ** Patterns built from patterns *)

Lemma read_class_item_shorter prev p it prev' p' :
  read_class_item prev p = Some (it, prev', p') → (length p' < length p)%nat.
Proof.
  unfold read_class_item. destruct p as [|c p1]; [done|]. intros H.
  repeat (case_decide || case_match); simplify_eq; cbn [length]; rewrite ?length_drop; lia.
Qed.

Lemma read_class_fuel f1 f2 prev p : (length p < f1)%nat → (length p < f2)%nat →
  read_class f1 prev p = read_class f2 prev p.
Proof.
  revert f2 prev p. induction f1 as [|f1 IH]; intros [|f2] prev p H1 H2; try lia.
  cbn [read_class]. destruct (read_class_item prev p) as [[[it prev'] p']|] eqn:E; [|done].
  apply read_class_item_shorter in E. rewrite (IH f2 prev' p') by lia. done.
Qed.

Lemma read_class_shorter fuel prev p items rest :
  read_class fuel prev p = Some (items, rest) → (length rest < length p)%nat.
Proof.
  revert prev p items rest. induction fuel as [|fuel IH]; intros prev p items rest H; [done|].
  cbn [read_class] in H. destruct (read_class_item prev p) as [[[it prev'] p']|] eqn:E; [|done].
  apply read_class_item_shorter in E.
  destruct p' as [|c r]; [|case_decide; simplify_eq; [cbn [length] in E; lia|]].
  all: destruct (read_class fuel _ _) as [[items' rest']|] eqn:E2; simplify_eq.
  all: apply IH in E2; lia.
Qed.

Lemma parse_glob_fuel_enough f1 f2 p : (length p < f1)%nat → (length p < f2)%nat →
  parse_glob_fuel f1 p = parse_glob_fuel f2 p.
Proof.
  revert f2 p. induction f1 as [|f1 IH]; intros [|f2] p H1 H2; try lia.
  cbn [parse_glob_fuel]. destruct p as [|c p1]; [done|]. cbn [length] in *.
  pose proof (length_skip_stars p1).
  rewrite (IH f2 p1), (IH f2 (skip_stars p1)) by lia.
  set (negated := bool_decide _). set (q := if negated then drop 1 p1 else p1).
  assert (length q ≤ length p1)%nat by (unfold q; case_match; rewrite ?length_drop; lia).
  rewrite (read_class_fuel f1 f2) by lia.
  destruct (read_class f2 NUL q) as [[items rest]|] eqn:E.
  - apply read_class_shorter in E. rewrite (IH f2 rest) by lia.
    destruct p1 as [|e p2]; [done|]. cbn [length] in *. by rewrite (IH f2 p2) by lia.
  - destruct p1 as [|e p2]; [done|]. cbn [length] in *. by rewrite (IH f2 p2) by lia.
Qed.

(** One level of the parser, without the fuel. *)
Lemma parse_glob_cons c p1 : parse_glob (c :: p1) =
  if decide (c = BACKSLASH) then
    match p1 with e :: p2 => cons (GLit e) <$> parse_glob p2 | [] => None end
  else if decide (c = QUEST) then cons GAny <$> parse_glob p1
  else if decide (c = STAR) then
    if decide (at_ p1 0 = STAR) then cons GStarStar <$> parse_glob (skip_stars p1)
    else cons GStar <$> parse_glob p1
  else if decide (c = LBRACK) then
    let negated := bool_decide (at_ p1 0 = x21 ∨ at_ p1 0 = x5e) in
    let q := if negated then drop 1 p1 else p1 in
    match read_class (S (length q)) NUL q with
    | Some (items, rest) => cons (GClass negated items) <$> parse_glob rest
    | None => None
    end
  else cons (GLit c) <$> parse_glob p1.
Proof.
  unfold parse_glob at 1. cbn [length]. remember (S (length p1)) as f eqn:Hfe.
  assert (∀ q, (length q ≤ length p1)%nat → parse_glob_fuel f q = parse_glob q) as Hf.
  { intros q Hq. apply parse_glob_fuel_enough; lia. }
  cbn [parse_glob_fuel]. rewrite (Hf p1), (Hf (skip_stars p1)) by (lia || apply length_skip_stars).
  set (negated := bool_decide _). set (q := if negated then drop 1 p1 else p1).
  assert (length q ≤ length p1)%nat by (unfold q; case_match; rewrite ?length_drop; lia).
  cbn zeta. fold q. rewrite (read_class_fuel f (S (length q))) by lia.
  destruct (read_class (S (length q)) NUL q) as [[items rest]|] eqn:E.
  - apply read_class_shorter in E. rewrite (Hf rest) by lia.
    destruct p1 as [|e p2]; [done|]. cbn [length] in *. by rewrite (Hf p2) by lia.
  - destruct p1 as [|e p2]; [done|]. cbn [length] in *. by rewrite (Hf p2) by lia.
Qed.

Lemma parse_glob_nil : parse_glob [] = Some [].
Proof. done. Qed.

(** A name that a pattern after [**/] stands for. *)
Lemma glob_matches_any_depth p t :
  glob_matches (STAR :: STAR :: SLASH :: p) t ↔
  ∃ u t', t = u ++ SLASH :: t' ∧ glob_matches p t'.
Proof.
  unfold glob_matches. rewrite parse_glob_cons. rewrite !decide_False by done.
  rewrite decide_True, decide_True by done. cbn [skip_stars].
  rewrite decide_True, decide_False by done. rewrite parse_glob_cons, !decide_False by done.
  rewrite (matches_star true). setoid_rewrite matches_one; [|done].
  split.
  - intros (u & t1 & -> & _ & c & t' & -> & Hc & Hm). apply bool_decide_eq_true in Hc. subst c.
    by exists u, t'.
  - intros (u & t' & -> & Hm). exists u, (SLASH :: t'). split_and!; [done..|].
    exists SLASH, t'. split_and!; [done| |done]. by apply bool_decide_eq_true.
Qed.

Lemma class_name_end_app body q : class_name_end body ≠ length body →
  class_name_end (body ++ q) = class_name_end body.
Proof.
  induction body as [|c body IH]; [done|]. cbn [class_name_end app length].
  case_decide; [done|]. intros Hne. by rewrite IH by lia.
Qed.

Lemma at_app p q i : (i < length p)%nat → at_ (p ++ q) i = at_ p i.
Proof. intros H. unfold at_. by rewrite lookup_app_l. Qed.

Lemma read_class_item_app prev p q it prev' p' : p' ≠ [] →
  read_class_item prev p = Some (it, prev', p') →
  read_class_item prev (p ++ q) = Some (it, prev', p' ++ q).
Proof.
  intros Hne. unfold read_class_item. destruct p as [|c p1]; [done|]. cbn [app].
  destruct (decide (c = BACKSLASH)); [destruct p1; by intros; simplify_eq/=|].
  assert (p1 ≠ [] → at_ (p1 ++ q) 0 = at_ p1 0) as Hat.
  { intros. apply at_app. destruct p1; [done|simpl; lia]. }
  destruct p1 as [|c1 p2].
  { rewrite !decide_False by (change (at_ [] 0) with NUL; naive_solver).
    intros; simplify_eq. }
  rewrite Hat by done. cbn [app].
  destruct (decide (c = DASH ∧ _)).
  { destruct (decide (c1 = BACKSLASH)); [|by intros; simplify_eq/=].
    destruct p2; by intros; simplify_eq/=. }
  destruct (decide (c = LBRACK ∧ _)); [|by intros; simplify_eq/=].
  change (drop 1 (c1 :: p2)) with p2. change (drop 1 (c1 :: p2 ++ q)) with (p2 ++ q).
  pose proof (class_name_end_le p2) as Hle.
  destruct (decide (class_name_end p2 = length p2)) as [|Hel]; [done|].
  rewrite class_name_end_app by done. rewrite (decide_False (P := class_name_end p2 = length (p2 ++ q))) by (rewrite length_app; lia).
  rewrite at_app by lia.
  destruct (decide (class_name_end p2 = 0%nat ∨ _)); [by intros; simplify_eq/=|].
  rewrite take_app_le by lia. destruct (cc_matches _ _); [|done].
  intros; simplify_eq. by rewrite drop_app_le by lia.
Qed.

Lemma read_class_app fuel fuel' prev p q items rest :
  (length (p ++ q) < fuel')%nat → read_class fuel prev p = Some (items, rest) →
  read_class fuel' prev (p ++ q) = Some (items, rest ++ q).
Proof.
  revert fuel' prev p items rest.
  induction fuel as [|fuel IH]; intros [|fuel'] prev p items rest Hl H; try (done || lia).
  cbn [read_class] in *. destruct (read_class_item prev p) as [[[it prev'] p']|] eqn:E; [|done].
  pose proof (read_class_item_shorter _ _ _ _ _ E).
  destruct p' as [|c r]; [by destruct fuel|].
  rewrite (read_class_item_app prev p q it prev' (c :: r)) by done. cbn [app].
  case_decide; [by simplify_eq|].
  destruct (read_class fuel prev' (c :: r)) as [[items' rest']|] eqn:E2; simplify_eq.
  change (c :: r ++ q) with ((c :: r) ++ q).
  rewrite (IH fuel' prev' (c :: r) items' rest) by (rewrite length_app in *; done || lia). done.
Qed.

Lemma skip_stars_app p q : at_ q 0 ≠ STAR → skip_stars p ++ q = skip_stars (p ++ q).
Proof.
  intros Hq. induction p as [|c p IH]; cbn [app skip_stars].
  - destruct q as [|c q]; [done|]. cbn [skip_stars]. by rewrite decide_False.
  - by case_decide.
Qed.

(** Well-formed patterns can be put one after the other, unless stars would meet. *)
Lemma parse_glob_app p q g h : parse_glob p = Some g → parse_glob q = Some h →
  at_ q 0 ≠ STAR → parse_glob (p ++ q) = Some (g ++ h).
Proof.
  intros Hp Hq Hs. remember (length p) as n eqn:Hn. revert p g Hn Hp.
  induction (lt_wf n) as [n _ IH]. intros p g -> Hp. destruct p as [|c p1]; [by injection Hp as <-|].
  assert (∀ p2 x g2, (length p2 < length (c :: p1))%nat →
    cons x <$> parse_glob p2 = Some g2 → cons x <$> parse_glob (p2 ++ q) = Some (g2 ++ h)) as Hrec.
  { intros p2 x g2 Hl (g3 & H3 & ->)%fmap_Some. by rewrite (IH _ Hl p2 g3). }
  cbn [length] in Hrec. rewrite parse_glob_cons in Hp. cbn [app]. rewrite parse_glob_cons.
  destruct (decide (c = BACKSLASH)).
  { destruct p1 as [|e1 p2]; [done|]. cbn [app]. apply Hrec; [simpl; lia|done]. }
  destruct (decide (c = QUEST)); [apply Hrec; [lia|done]|].
  destruct (decide (c = STAR)).
  { pose proof (length_skip_stars p1). destruct p1 as [|e1 p2].
    - cbn [app]. rewrite decide_False in Hp by done. simplify_eq/=.
      rewrite decide_False by done. by rewrite Hq.
    - cbn [app]. change (at_ (e1 :: p2 ++ q) 0) with e1.
      change (at_ (e1 :: p2) 0) with e1 in Hp. destruct (decide (e1 = STAR)) as [->|He].
      + replace (skip_stars (STAR :: p2 ++ q)) with (skip_stars (STAR :: p2) ++ q).
        * apply Hrec; [|done]. lia.
        * by rewrite (skip_stars_app (STAR :: p2)).
      + apply (Hrec (e1 :: p2)); [lia|done]. }
  destruct (decide (c = LBRACK)); [|apply Hrec; [lia|done]].
  destruct p1 as [|e1 p2]; [done|]. cbn [app]. cbn zeta in *.
  change (at_ (e1 :: p2 ++ q) 0) with e1. change (at_ (e1 :: p2) 0) with e1 in Hp.
  set (negated := bool_decide _) in *.
  assert ((if negated then drop 1 (e1 :: p2 ++ q) else e1 :: p2 ++ q) =
    (if negated then drop 1 (e1 :: p2) else e1 :: p2) ++ q) as -> by by destruct negated.
  set (r := if negated then drop 1 (e1 :: p2) else e1 :: p2) in *.
  destruct (read_class (S (length r)) NUL r) as [[items rest]|] eqn:Er; [|done].
  rewrite (read_class_app _ (S (length (r ++ q))) NUL r q items rest) by (done || lia).
  apply Hrec; [|done]. apply read_class_shorter in Er.
  assert (length r ≤ length (e1 :: p2))%nat by (unfold r; destruct negated; cbn [drop length]; rewrite ?drop_0; lia). lia.
Qed.

(** ** More fuel changes nothing *)

Lemma class_loop_mono f f' t prev m p r : (f ≤ f')%nat →
  class_loop f t prev m p = Some r → class_loop f' t prev m p = Some r.
Proof.
  revert f' prev m p. induction f as [|f IH]; intros [|f'] prev m p Hf; try (done || lia).
  cbn [class_loop]. destruct (class_step t prev m p); [done|]. case_decide; [done|].
  apply IH. lia.
Qed.

Lemma star_loop_mono rec rec' special text v :
  (∀ t w, rec t = Some w → rec' t = Some w) →
  star_loop rec special text = Some v → star_loop rec' special text = Some v.
Proof.
  intros Hrec. induction text as [|c text IH]; cbn [star_loop]; [done|].
  case_decide; [done|]. destruct (rec (c :: text)) as [w|] eqn:E; [|done].
  rewrite (Hrec _ _ E). repeat case_decide; auto.
Qed.

Lemma dowild_mono f f' p text v : (f ≤ f')%nat →
  dowild f p text = Some v → dowild f' p text = Some v.
Proof.
  revert f' p text v. induction f as [|f IH]; intros [|f'] p text v Hf; try (done || lia).
  assert (∀ p t w, dowild f p t = Some w → dowild f' p t = Some w) as IH'
    by (intros; apply IH; [lia|done]).
  cbn [dowild]. destruct (decide (at_ p 0 = NUL)); [done|].
  destruct (decide (_ ∧ at_ p 0 ≠ STAR)); [done|].
  destruct (decide (at_ p 0 = BACKSLASH)); [destruct (decide _); auto|].
  destruct (decide (at_ p 0 = QUEST)); [destruct (decide _); auto|].
  destruct (decide (at_ p 0 = STAR)).
  { destruct (decide _); [done|]. apply star_loop_mono. auto. }
  destruct (decide (at_ p 0 = LBRACK)); [|destruct (decide _); auto].
  match goal with |- context [class_loop f ?t ?c ?m ?q] =>
    destruct (class_loop f t c m q) as [r|] eqn:E; [|done];
    rewrite (class_loop_mono f f' t c m q r) by (lia || done) end.
  destruct r as [[m q]|]; [|done]. destruct (decide (_ ∨ _)); auto.
Qed.

Lemma wildmatch_spec p t : NUL ∉ p → NUL ∉ t → wildmatch p t = true ↔ glob_matches p t.
Proof.
  intros Hp Ht. unfold wildmatch, glob_matches, parse_glob. rewrite bool_decide_eq_true.
  destruct (dowild_total (S (length p)) p t) as [v Hv]; [lia|]. rewrite Hv.
  pose proof (dowild_ok _ _ _ _ (Nat.lt_succ_diag_r _) Hp Ht Hv) as Hok.
  destruct v; cbn [verdict_ok] in Hok; split; try done.
  - intros Hm. by apply (Hok [] t) in Hm.
  - intros Hm. exfalso. apply (Hok [] t); [done|set_solver|done].
Qed.

(** ** Properties *)

(** C35: The matcher returns on every pattern and every name, malformed patterns
    included: a turn of its loop for each byte of the pattern is enough, in every call
    it makes of itself, and with more turns the verdict is the same. *)
Theorem wildmatch_terminates (p text : list byte) :
  ∃ v, ∀ fuel, (length p < fuel)%nat → dowild fuel p text = Some v.
Proof.
  destruct (dowild_total (S (length p)) p text) as [v Hv]; [lia|].
  exists v. intros fuel Hf. by apply (dowild_mono (S (length p))).
Qed.

(** C8: The matcher decides the names a pattern stands for.  Its two abort codes, with
    which it cuts off the search inside a star, never lose a match and never make one;
    a malformed pattern stands for nothing.  Names and patterns have no NUL, which ends a
    string for the matcher. *)
Theorem wildmatch_correct (p text : list byte) :
  NUL ∉ p → NUL ∉ text → wildmatch p text = true ↔ glob_matches p text.
Proof. apply wildmatch_spec. Qed.

Lemma wildmatch_correct_witness :
  wildmatch (bytes "a*/[!x-z]**") (bytes "abc/d/e") = true ↔
  glob_matches (bytes "a*/[!x-z]**") (bytes "abc/d/e").
Proof. apply wildmatch_correct; apply (bool_decide_unpack _); vm_compute; exact I. Defined.

(** The corpus of the upstream program, which the tests of the repository hold. *)
Definition wildtest_corpus : list (bool * string * string) :=
  [(true, "foo", "foo"); (false, "foo", "bar"); (true, "foo", "???");
   (false, "foo", "??"); (true, "foo", "*"); (true, "foo", "f*"); (false, "foo", "*f");
   (true, "foo", "*foo*"); (true, "foobar", "*ob*a*r*"); (true, "aaaaaaabababab", "*ab");
   (true, "foo*", "foo\*"); (false, "foobar", "foo\*bar"); (true, "f\oo", "f\\oo");
   (true, "ball", "*[al]?"); (false, "ten", "[ten]"); (true, "ten", "**[!te]");
   (false, "ten", "**[!ten]"); (true, "ten", "t[a-g]n"); (false, "ten", "t[!a-g]n");
   (true, "ton", "t[!a-g]n"); (true, "ton", "t[^a-g]n"); (true, "a]b", "a[]]b");
   (true, "a-b", "a[]-]b"); (true, "a]b", "a[]-]b"); (false, "aab", "a[]-]b");
   (true, "aab", "a[]a-]b"); (true, "]", "]"); (false, "foo/baz/bar", "foo*bar");
   (true, "foo/baz/bar", "foo**bar"); (false, "foo/bar", "foo?bar");
   (false, "foo/bar", "foo[/]bar"); (false, "foo/bar", "f[^eiu][^eiu][^eiu][^eiu][^eiu]r");
   (true, "foo-bar", "f[^eiu][^eiu][^eiu][^eiu][^eiu]r"); (false, "foo", "**/foo");
   (true, "/foo", "**/foo"); (true, "bar/baz/foo", "**/foo"); (false, "bar/baz/foo", "*/foo");
   (false, "foo/bar/baz", "**/bar*"); (true, "deep/foo/bar/baz", "**/bar/*");
   (false, "deep/foo/bar/baz/", "**/bar/*"); (true, "deep/foo/bar/baz/", "**/bar/**");
   (false, "deep/foo/bar", "**/bar/*"); (true, "deep/foo/bar/", "**/bar/**");
   (true, "foo/bar/baz", "**/bar**"); (true, "foo/bar/baz/x", "*/bar/**");
   (false, "deep/foo/bar/baz/x", "*/bar/**"); (true, "deep/foo/bar/baz/x", "**/bar/*/*");
   (false, "acrt", "a[c-c]st"); (true, "acrt", "a[c-c]rt"); (false, "]", "[!]-]");
   (true, "a", "[!]-]"); (false, "\", "\"); (false, "/\", "*/\");
   (true, "/\", "*/\\"); (true, "foo", "foo"); (true, "@foo", "@foo"); (false, "foo", "@foo");
   (true, "[ab]", "\[ab]"); (true, "[ab]", "[[]ab]"); (true, "[ab]", "[[:]ab]");
   (false, "[ab]", "[[::]ab]"); (true, "[ab]", "[[:digit]ab]"); (true, "[ab]", "[\[:]ab]");
   (true, "?a?b", "\??\?b"); (true, "abc", "\a\b\c"); 
   (true, "foo/bar/baz/to", "**/t[o]"); (true, "a1B", "[[:alpha:]][[:digit:]][[:upper:]]");
   (false, "a", "[[:digit:][:upper:][:space:]]"); (true, "A", "[[:digit:][:upper:][:space:]]");
   (true, "1", "[[:digit:][:upper:][:space:]]"); (false, "1", "[[:digit:][:upper:][:spaci:]]");
   (true, " ", "[[:digit:][:upper:][:space:]]"); (false, ".", "[[:digit:][:upper:][:space:]]");
   (true, ".", "[[:digit:][:punct:][:space:]]"); (true, "5", "[[:xdigit:]]");
   (true, "f", "[[:xdigit:]]"); (true, "D", "[[:xdigit:]]");
   (true, "_", "[[:alnum:][:alpha:][:blank:][:cntrl:][:digit:][:graph:][:lower:][:print:][:punct:][:space:][:upper:][:xdigit:]]");
   (true, ".", "[^[:alnum:][:alpha:][:blank:][:cntrl:][:digit:][:lower:][:space:][:upper:][:xdigit:]]");
   (true, "5", "[a-c[:digit:]x-z]"); (true, "b", "[a-c[:digit:]x-z]");
   (true, "y", "[a-c[:digit:]x-z]"); (false, "q", "[a-c[:digit:]x-z]"); (true, "]", "[\\-^]");
   (false, "[", "[\\-^]"); (true, "-", "[\-_]"); (true, "]", "[\]]"); (false, "\]", "[\]]");
   (false, "\", "[\]]"); (false, "ab", "a[]b"); (false, "a[]b", "a[]b"); (false, "ab[", "ab[");
   (false, "ab", "[!"); (false, "ab", "[-"); (true, "-", "[-]"); (false, "-", "[a-");
   (false, "-", "[!a-"); (true, "-", "[--A]"); (true, "5", "[--A]"); (true, " ", "[ --]");
   (true, "$", "[ --]"); (true, "-", "[ --]"); (false, "0", "[ --]"); (true, "-", "[---]");
   (true, "-", "[------]"); (false, "j", "[a-e-n]"); (true, "-", "[a-e-n]");
   (true, "a", "[!------]"); (false, "[", "[]-a]"); (true, "^", "[]-a]");
   (false, "^", "[!]-a]"); (true, "[", "[!]-a]"); (true, "^", "[a^bc]");
   (true, "-b]", "[a-]b]"); (false, "\", "[\]"); (true, "\", "[\\]"); (false, "\", "[!\\]");
   (true, "G", "[A-\\]"); (false, "aaabbb", "b*a"); (false, "aabcaa", "*ba*");
   (true, ",", "[,]"); (true, ",", "[\\,]"); (true, "\", "[\\,]"); (true, "-", "[,-.]");
   (false, "+", "[,-.]"); (false, "-.]", "[,-.]"); (true, "2", "[\1-\3]");
   (true, "3", "[\1-\3]"); (false, "4", "[\1-\3]"); (true, "\", "[[-\]]");
   (true, "[", "[[-\]]"); (true, "]", "[[-\]]"); (false, "-", "[[-\]]");
   (true, "-adobe-courier-bold-o-normal--12-120-75-75-m-70-iso8859-1", "-*-*-*-*-*-*-12-*-*-*-m-*-*-*");
   (false, "-adobe-courier-bold-o-normal--12-120-75-75-X-70-iso8859-1", "-*-*-*-*-*-*-12-*-*-*-m-*-*-*");
   (false, "-adobe-courier-bold-o-normal--12-120-75-75-/-70-iso8859-1", "-*-*-*-*-*-*-12-*-*-*-m-*-*-*");
   (true, "/adobe/courier/bold/o/normal//12/120/75/75/m/70/iso8859/1", "/*/*/*/*/*/*/12/*/*/*/m/*/*/*");
   (false, "/adobe/courier/bold/o/normal//12/120/75/75/X/70/iso8859/1", "/*/*/*/*/*/*/12/*/*/*/m/*/*/*");
   (true, "abcd/abcdefg/abcdefghijk/abcdefghijklmnop.txt", "**/*a*b*g*n*t");
   (false, "abcd/abcdefg/abcdefghijk/abcdefghijklmnop.txtz", "**/*a*b*g*n*t")].

Lemma wildtest_corpus_agrees :
  forallb (λ '(expected, text, pattern),
    eqb (wildmatch (bytes pattern) (bytes text)) expected) wildtest_corpus = true.
Proof. vm_compute. reflexivity. Qed.
