(* ===== verification/Utf8.v ===== *)
(** * UTF-8

    What the standard library makes of bytes that should be text: [std::str::from_utf8]
    accepts them or not, and [String::from_utf8_lossy] (behind [Path::to_string_lossy])
    replaces what is not UTF-8.  Names on the wire and on disk are bytes; the filters match
    them as text, the file list keeps them. *)

From S2P Require Import Prelude Wildmatch.

(** ** Validity *)

Definition utf8_cont (b : byte) : bool := between x80 b xbf.

(** [std::str::from_utf8] succeeds. *)
Fixpoint valid_utf8 (s : list byte) : bool :=
  match s with
  | [] => true
  | b0 :: s1 =>
      if byte_le b0 x7f then valid_utf8 s1
      else if between xc2 b0 xdf then
        match s1 with
        | b1 :: s2 => utf8_cont b1 && valid_utf8 s2
        | _ => false
        end
      else if between xe0 b0 xef then
        match s1 with
        | b1 :: b2 :: s3 =>
            (if decide (b0 = xe0) then between xa0 b1 xbf
             else if decide (b0 = xed) then between x80 b1 x9f
             else utf8_cont b1) && utf8_cont b2 && valid_utf8 s3
        | _ => false
        end
      else if between xf0 b0 xf4 then
        match s1 with
        | b1 :: b2 :: b3 :: s4 =>
            (if decide (b0 = xf0) then between x90 b1 xbf
             else if decide (b0 = xf4) then between x80 b1 x8f
             else utf8_cont b1) && utf8_cont b2 && utf8_cont b3 && valid_utf8 s4
        | _ => false
        end
      else false
  end.

Lemma valid_utf8_ascii c s : byte_le c x7f = true → valid_utf8 (c :: s) = valid_utf8 s.
Proof. intros H. cbn [valid_utf8]. by rewrite H. Qed.

Lemma valid_utf8_app s t : valid_utf8 s = true → valid_utf8 (s ++ t) = valid_utf8 t.
Proof.
  remember (length s) as n eqn:Hn. revert s Hn. induction (lt_wf n) as [n _ IH].
  intros s -> Hs. destruct s as [|b0 s1]; [done|]. cbn [app valid_utf8] in *.
  assert (∀ s', (length s' < length (b0 :: s1))%nat → valid_utf8 s' = true →
    valid_utf8 (s' ++ t) = valid_utf8 t) as IH' by (intros; by eapply IH). clear IH.
  cbn [length] in IH'. destruct (byte_le b0 x7f); [apply IH'; [lia|done]|].
  destruct (between xc2 b0 xdf).
  { destruct s1 as [|b1 s2]; [done|]. cbn [app length] in *. apply andb_prop in Hs as [-> Hs].
    cbn [andb]. apply IH'; [lia|done]. }
  destruct (between xe0 b0 xef).
  { destruct s1 as [|b1 [|b2 s3]]; [done..|]. cbn [app length] in *.
    apply andb_prop in Hs as [-> Hs]. cbn [andb]. apply IH'; [lia|done]. }
  destruct (between xf0 b0 xf4); [|done].
  destruct s1 as [|b1 [|b2 [|b3 s4]]]; [done..|]. cbn [app length] in *.
  apply andb_prop in Hs as [-> Hs]. cbn [andb]. apply IH'; [lia|done].
Qed.

Lemma valid_utf8_all_ascii s t : forallb (λ c, byte_le c x7f) s = true →
  valid_utf8 (s ++ t) = valid_utf8 t.
Proof.
  induction s as [|c s IH]; [done|]. cbn [forallb app]. intros [H1 H2]%andb_prop.
  rewrite valid_utf8_ascii by done. auto.
Qed.

(** ** Replacement *)

(** The length of the character at the front of a string, or that of the longest start of
    one where the bytes are not UTF-8: what [String::from_utf8_lossy] replaces at once. *)
Definition utf8_chunk (s : list byte) : bool * nat :=
  match s with
  | [] => (true, O)
  | b0 :: s1 =>
      let cont s := match s with b :: _ => utf8_cont b | [] => false end in
      if byte_le b0 x7f then (true, 1%nat)
      else if between xc2 b0 xdf then if cont s1 then (true, 2%nat) else (false, 1%nat)
      else if between xe0 b0 xef then
        let second := match s1 with
                      | b1 :: _ => if decide (b0 = xe0) then between xa0 b1 xbf
                                   else if decide (b0 = xed) then between x80 b1 x9f
                                   else utf8_cont b1
                      | [] => false
                      end in
        if negb second then (false, 1%nat)
        else if negb (cont (drop 1 s1)) then (false, 2%nat) else (true, 3%nat)
      else if between xf0 b0 xf4 then
        let second := match s1 with
                      | b1 :: _ => if decide (b0 = xf0) then between x90 b1 xbf
                                   else if decide (b0 = xf4) then between x80 b1 x8f
                                   else utf8_cont b1
                      | [] => false
                      end in
        if negb second then (false, 1%nat)
        else if negb (cont (drop 1 s1)) then (false, 2%nat)
        else if negb (cont (drop 2 s1)) then (false, 3%nat) else (true, 4%nat)
      else (false, 1%nat)
  end.

(** U+FFFD. *)
Definition REPLACEMENT : list byte := [xef; xbf; xbd].

Fixpoint from_utf8_lossy_go (fuel : nat) (s : list byte) : list byte :=
  match fuel, s with
  | S fuel, _ :: _ =>
      let '(valid, len) := utf8_chunk s in
      (if valid : bool then take len s else REPLACEMENT) ++ from_utf8_lossy_go fuel (drop len s)
  | _, _ => []
  end.

Definition from_utf8_lossy (s : list byte) : list byte := from_utf8_lossy_go (length s) s.

(** Text is left as it is. *)
Lemma utf8_chunk_valid s : s ≠ [] → valid_utf8 s = true →
  ∃ len, utf8_chunk s = (true, len) ∧ (0 < len ≤ length s)%nat ∧ valid_utf8 (drop len s) = true.
Proof.
  destruct s as [|b0 s1]; [done|]. intros _. cbn [valid_utf8 utf8_chunk].
  destruct (byte_le b0 x7f); [intros H; exists 1%nat; cbn [length]; split_and!; (done || lia)|].
  destruct (between xc2 b0 xdf).
  { destruct s1 as [|b1 s2]; [done|]. intros [-> H]%andb_prop. exists 2%nat. cbn [length]. split_and!; (done || lia). }
  destruct (between xe0 b0 xef).
  { destruct s1 as [|b1 [|b2 s3]]; [done..|]. intros [[H1 H2]%andb_prop H]%andb_prop. cbn [drop].
    rewrite H1, H2. exists 3%nat. cbn [length]. split_and!; (done || lia). }
  destruct (between xf0 b0 xf4); [|done].
  destruct s1 as [|b1 [|b2 [|b3 s4]]]; [done..|]. intros [[[H1 H2]%andb_prop H3]%andb_prop H]%andb_prop. cbn [drop].
  rewrite H1, H2, H3. exists 4%nat. cbn [length]. split_and!; (done || lia).
Qed.

Lemma from_utf8_lossy_valid s : valid_utf8 s = true → from_utf8_lossy s = s.
Proof.
  unfold from_utf8_lossy. generalize (Nat.le_refl (length s)). generalize (length s) at 2 3.
  intros fuel. revert s. induction fuel as [|fuel IH]; intros [|b s] Hl Hv; cbn [length] in Hl; [done|lia|done|].
  destruct (utf8_chunk_valid (b :: s)) as (len & E & Hlen & Hd); [done..|].
  cbn [from_utf8_lossy_go]. rewrite E, IH; [apply take_drop| |done].
  rewrite length_drop. cbn [length]. lia.
Qed.

(** Nothing is added but the replacement character. *)
Lemma from_utf8_lossy_elem c s : c ∈ from_utf8_lossy s → c ∈ s ∨ c ∈ REPLACEMENT.
Proof.
  unfold from_utf8_lossy. generalize (length s). intros fuel. revert s.
  induction fuel as [|fuel IH]; intros [|b s]; cbn [from_utf8_lossy_go]; [set_solver..|].
  destruct (utf8_chunk (b :: s)) as [valid len]. intros [H|H]%elem_of_app.
  - destruct valid; [left|by right]. rewrite <-(take_drop len (b :: s)). set_solver.
  - destruct (IH _ H) as [H'|H']; [left|by right]. rewrite <-(take_drop len (b :: s)). set_solver.
Qed.

Lemma from_utf8_lossy_nul s : NUL ∉ s → NUL ∉ from_utf8_lossy s.
Proof. intros Hs [H|H]%from_utf8_lossy_elem; [done|]. unfold REPLACEMENT in H. set_solver. Qed.
