(* ===== verification/FilterRule.v ===== *)
(** * Filter rules and their compilation ([crates/filters/src/rule.rs], [action.rs],
      [compiled/])

    A rule is an action with a pattern and flags.  Compiling it splits the anchoring
    slash and the directory slash off the pattern and expands what is left into the
    patterns that the matcher is run with: the pattern itself, the pattern at any
    depth, and the patterns for everything below a matching directory.  Strings are their
    bytes in UTF-8, and a path is matched as [Path::to_string_lossy] renders it; logging is
    left out, and so is the [Result] of the constructors, which have no failing branch.

    [rule_matches_written] says what a compiled rule matches in terms of the pattern that
    was written, with what is inside of a matching directory and for deletions.  On the way
    it shows that the rewriting of [**], which is done for the sake of another matcher, adds
    nothing ([rewrite_matches_less], [bounded_stays]) unless it reaches into a bracket
    expression ([bracket_rewrite_widens]). *)

From stdpp Require Import strings sorting.
From S2P Require Import Prelude Wildmatch Utf8.

(** ** Rules *)

Inductive FilterAction :=
| Include | Exclude | Protect | Risk | Clear | Merge | DirMerge.

#[export] Instance FilterAction_eq_dec : EqDecision FilterAction.
Proof. solve_decision. Defined.

Record FilterRule := mkRule {
  fr_action : FilterAction;
  fr_pattern : list byte;
  fr_applies_to_sender : bool;
  fr_applies_to_receiver : bool;
  fr_perishable : bool;
  fr_xattr_only : bool;
  fr_negate : bool;
  fr_exclude_only : bool;
  fr_no_inherit : bool;
  fr_cvs_mode : bool;
  fr_abs_path : bool;
  fr_word_split : bool;
  fr_no_prefixes : bool;
  fr_no_prefixes_include : bool;
}.

#[export] Instance FilterRule_eq_dec : EqDecision FilterRule.
Proof. solve_decision. Defined.

Definition rule_include (pattern : list byte) : FilterRule :=
  mkRule Include pattern true true false false false false false false false false false false.
Definition rule_exclude (pattern : list byte) : FilterRule :=
  mkRule Exclude pattern true true false false false false false false false false false false.
Definition rule_protect (pattern : list byte) : FilterRule :=
  mkRule Protect pattern false true false false false false false false false false false false.
Definition rule_risk (pattern : list byte) : FilterRule :=
  mkRule Risk pattern false true false false false false false false false false false false.
Definition rule_clear : FilterRule :=
  mkRule Clear [] true true false false false false false false false false false false.
Definition rule_show (pattern : list byte) : FilterRule :=
  mkRule Include pattern true false false false false false false false false false false false.
Definition rule_hide (pattern : list byte) : FilterRule :=
  mkRule Exclude pattern true false false false false false false false false false false false.
Definition rule_merge (file_path : list byte) : FilterRule :=
  mkRule Merge file_path true true false false false false false false false false false false.
Definition rule_dir_merge (filename : list byte) : FilterRule :=
  mkRule DirMerge filename true true false false false false false false false false false false.

Definition with_receiver (applies : bool) (r : FilterRule) : FilterRule :=
  mkRule (fr_action r) (fr_pattern r) (fr_applies_to_sender r) applies (fr_perishable r)
    (fr_xattr_only r) (fr_negate r) (fr_exclude_only r) (fr_no_inherit r) (fr_cvs_mode r)
    (fr_abs_path r) (fr_word_split r) (fr_no_prefixes r) (fr_no_prefixes_include r).

Definition with_sides (sender receiver : bool) (r : FilterRule) : FilterRule :=
  mkRule (fr_action r) (fr_pattern r) sender receiver (fr_perishable r)
    (fr_xattr_only r) (fr_negate r) (fr_exclude_only r) (fr_no_inherit r) (fr_cvs_mode r)
    (fr_abs_path r) (fr_word_split r) (fr_no_prefixes r) (fr_no_prefixes_include r).

Definition with_perishable (perishable : bool) (r : FilterRule) : FilterRule :=
  mkRule (fr_action r) (fr_pattern r) (fr_applies_to_sender r) (fr_applies_to_receiver r)
    perishable (fr_xattr_only r) (fr_negate r) (fr_exclude_only r) (fr_no_inherit r)
    (fr_cvs_mode r) (fr_abs_path r) (fr_word_split r) (fr_no_prefixes r)
    (fr_no_prefixes_include r).

Definition with_pattern (pattern : list byte) (r : FilterRule) : FilterRule :=
  mkRule (fr_action r) pattern (fr_applies_to_sender r) (fr_applies_to_receiver r)
    (fr_perishable r) (fr_xattr_only r) (fr_negate r) (fr_exclude_only r) (fr_no_inherit r)
    (fr_cvs_mode r) (fr_abs_path r) (fr_word_split r) (fr_no_prefixes r)
    (fr_no_prefixes_include r).

Definition starts_with (c : byte) (s : list byte) : bool := bool_decide (head s = Some c).

Definition anchor_to_root (r : FilterRule) : FilterRule :=
  if starts_with SLASH (fr_pattern r) then r else with_pattern (SLASH :: fr_pattern r) r.

(** ** Patterns *)

Definition starts_with_starstar (s : list byte) : bool :=
  bool_decide (at_ s 0 = STAR ∧ at_ s 1 = STAR).

(** [pattern.contains("**")]. *)
Fixpoint contains_starstar (s : list byte) : bool :=
  match s with
  | [] => false
  | _ :: s' => starts_with_starstar s || contains_starstar s'
  end.

(** How many stars follow. *)
Fixpoint star_run (s : list byte) : nat :=
  match s with
  | c :: s' => if decide (c = STAR) then S (star_run s') else 0
  | [] => 0
  end.

(** [&pattern[cut..i]]. *)
Definition slice (cut i : nat) (s : list byte) : list byte := take (i - cut) (drop cut s).

(** The scanning loop of [normalise_recursive_wildcards]; it returns the last values of
    [cut], [changed] and [out].  A unit of fuel for a turn, which moves [i] on. *)
Fixpoint nrw_loop (fuel : nat) (bs : list byte) (i cut : nat) (changed : bool) (out : list byte)
    : nat * bool * list byte :=
  match fuel with
  | O => (cut, changed, out)
  | S fuel' =>
      if decide (i < length bs)%nat then
        let b := at_ bs i in
        if decide (b = BACKSLASH ∧ (i + 1 < length bs)%nat) then
          nrw_loop fuel' bs (i + 2) cut changed out
        else if decide (b = STAR ∧ (i + 1 < length bs)%nat ∧ at_ bs (i + 1) = STAR) then
          let run_start := i in
          let j := (i + 2 + star_run (drop (i + 2) bs))%nat in
          let out := out ++ slice cut run_start bs in
          let changed := if decide (2 < j - run_start)%nat then true else changed in
          let at_start := bool_decide (run_start = 0%nat) in
          let at_end := bool_decide (j = length bs) in
          let prev_is_slash :=
            bool_decide (0 < run_start)%nat && bool_decide (at_ bs (run_start - 1) = SLASH) in
          let next_is_slash :=
            bool_decide (j < length bs)%nat && bool_decide (at_ bs j = SLASH) in
          let need_leading_slash := negb at_start && negb prev_is_slash in
          let need_trailing_slash := negb at_end && negb next_is_slash in
          let changed := need_leading_slash || changed in
          let out := out ++ (if need_leading_slash then [SLASH] else []) ++ [STAR; STAR] in
          let changed := need_trailing_slash || changed in
          let out := out ++ (if need_trailing_slash then [SLASH] else []) in
          nrw_loop fuel' bs j j changed out
        else nrw_loop fuel' bs (i + 1) cut changed out
      else (cut, changed, out)
  end.

(** [None] is [Cow::Borrowed], the pattern itself. *)
Definition normalise_recursive_wildcards (pattern : list byte) : option (list byte) :=
  if negb (contains_starstar pattern) then None
  else
    let '(cut, changed, out) := nrw_loop (S (length pattern)) pattern 0 0 false [] in
    if negb changed then None else Some (out ++ drop cut pattern).

Definition ends_with (suffix s : list byte) : bool :=
  bool_decide (length suffix ≤ length s)%nat &&
  bool_decide (drop (length s - length suffix) s = suffix).

(** The flags [anchored] and [directory_only], and the stem. *)
Definition normalise_pattern (pattern : list byte) : bool * bool * list byte :=
  let starts_with_slash := starts_with SLASH pattern in
  let '(directory_only, stem) :=
    if bool_decide (1 < length pattern)%nat && ends_with [SLASH] pattern then
      (true, take (length pattern - 1) pattern)
    else if bool_decide (pattern = [SLASH]) then (true, pattern)
    else (false, pattern) in
  let '(directory_only, stem) :=
    if bool_decide (4 < length stem)%nat && ends_with [SLASH; STAR; STAR; STAR] stem then
      (true, take (length stem - 4) stem)
    else (directory_only, stem) in
  let stripped := stem in
  let core_pattern := if starts_with_slash then drop 1 stripped else stripped in
  let anchored := starts_with_slash in
  if negb starts_with_slash && negb directory_only then (anchored, false, pattern)
  else (anchored, directory_only, core_pattern).

Record CompiledPattern := mkCPattern {
  cp_bytes : list byte;
  cp_wild2_prefix : bool;
}.

(** [path.to_string_lossy()], off Windows. *)
Definition path_match_bytes (path : list byte) : list byte := from_utf8_lossy path.

Definition is_match (p : CompiledPattern) (path : list byte) : bool :=
  let body := path_match_bytes path in
  if cp_wild2_prefix p then
    let candidate := SLASH :: body in
    wildmatch (cp_bytes p) candidate
  else wildmatch (cp_bytes p) body.

(** The order of strings, which is that of their bytes. *)
Fixpoint bytes_leb (a b : list byte) : bool :=
  match a, b with
  | [], _ => true
  | _ :: _, [] => false
  | x :: a', y :: b' =>
      if decide (uz x < uz y)%Z then true
      else if decide (uz x = uz y)%Z then bytes_leb a' b' else false
  end.

Definition bytes_le (a b : list byte) : Prop := bytes_leb a b = true.

#[export] Instance bytes_le_dec : RelDecision bytes_le.
Proof. intros a b. unfold bytes_le. apply _. Defined.

(** A hash set of strings is a list; the order in it is lost by the sort. *)
Definition compile_patterns (patterns : list (list byte)) (wild2_prefix : bool)
    : list CompiledPattern :=
  let expanded :=
    pattern ← patterns;
    match normalise_recursive_wildcards pattern with
    | Some s => [s; pattern]
    | None => [pattern]
    end in
  let unique := merge_sort bytes_le (remove_dups expanded) in
  map (λ pattern, mkCPattern pattern wild2_prefix) unique.

(** ** Compiled rules *)

Record CompiledRule := mkCRule {
  cr_action : FilterAction;
  cr_pattern : list byte;
  cr_directory_only : bool;
  cr_direct_matchers : list CompiledPattern;
  cr_descendant_matchers : list CompiledPattern;
  cr_deletion_descendant_matchers : list CompiledPattern;
  cr_applies_to_sender : bool;
  cr_applies_to_receiver : bool;
  cr_perishable : bool;
  cr_negate : bool;
  cr_order : nat;
}.

(** [format!("**/{core_pattern}")] and [format!("{core_pattern}/**")]. *)
Definition any_depth (s : list byte) : list byte := STAR :: STAR :: SLASH :: s.
Definition below (s : list byte) : list byte := s ++ [SLASH; STAR; STAR].

Definition crule_new (rule : FilterRule) : CompiledRule :=
  let pattern := fr_pattern rule in
  let '(anchored, directory_only, core_pattern) := normalise_pattern pattern in
  let has_double_star := starts_with_starstar core_pattern in
  let direct_patterns :=
    core_pattern ::
    (if negb anchored && negb has_double_star then [any_depth core_pattern] else []) in
  let has_glob_wildcard :=
    bool_decide (STAR ∈ core_pattern) || bool_decide (QUEST ∈ core_pattern) ||
    bool_decide (LBRACK ∈ core_pattern) in
  let slash_anchored := starts_with SLASH pattern in
  let is_directory_only_unanchored_wildcard :=
    directory_only && negb slash_anchored && has_glob_wildcard in
  let is_anchored_wildcard := slash_anchored && has_glob_wildcard in
  let suppress_descendants := is_directory_only_unanchored_wildcard || is_anchored_wildcard in
  let below_patterns :=
    below core_pattern ::
    (if negb anchored && negb has_double_star then [any_depth (below core_pattern)] else []) in
  let '(descendant_patterns, deletion_descendant_patterns) :=
    match fr_action rule with
    | Exclude | Protect | Risk =>
        if negb suppress_descendants then (below_patterns, [])
        else if is_directory_only_unanchored_wildcard then ([], below_patterns)
        else ([], [])
    | _ => ([], [])
    end in
  let wild2_prefix := negb anchored && starts_with_starstar core_pattern in
  {| cr_action := fr_action rule;
     cr_pattern := pattern;
     cr_directory_only := directory_only;
     cr_direct_matchers := compile_patterns direct_patterns wild2_prefix;
     cr_descendant_matchers := compile_patterns descendant_patterns wild2_prefix;
     cr_deletion_descendant_matchers :=
       compile_patterns deletion_descendant_patterns wild2_prefix;
     cr_applies_to_sender := fr_applies_to_sender rule;
     cr_applies_to_receiver := fr_applies_to_receiver rule;
     cr_perishable := fr_perishable rule;
     cr_negate := fr_negate rule;
     cr_order := 0 |}.

Definition pattern_matches_impl (r : CompiledRule) (path : list byte)
    (is_dir check_descendants : bool) : bool :=
  if existsb (λ m, is_match m path && (negb (cr_directory_only r) || is_dir))
       (cr_direct_matchers r) then true
  else if check_descendants &&
          negb (bool_decide (cr_descendant_matchers r = [])) &&
          existsb (λ m, is_match m path) (cr_descendant_matchers r) then true
  else false.

Definition crule_matches (r : CompiledRule) (path : list byte) (is_dir check_descendants : bool)
    : bool :=
  let pattern_matched := pattern_matches_impl r path is_dir check_descendants in
  if cr_negate r then negb pattern_matched else pattern_matched.

Definition deletion_descendant_matches (r : CompiledRule) (path : list byte) : bool :=
  existsb (λ m, is_match m path) (cr_deletion_descendant_matchers r).

Definition matches_for_deletion (r : CompiledRule) (path : list byte)
    (is_dir check_descendants : bool) : bool :=
  let pattern_matched :=
    pattern_matches_impl r path is_dir check_descendants || deletion_descendant_matches r path in
  if cr_negate r then negb pattern_matched else pattern_matched.

(** The rule with its sides cleared, and whether it is to be kept. *)
Definition clear_sides (sender receiver : bool) (r : CompiledRule) : CompiledRule * bool :=
  let s := if sender then false else cr_applies_to_sender r in
  let v := if receiver then false else cr_applies_to_receiver r in
  (mkCRule (cr_action r) (cr_pattern r) (cr_directory_only r) (cr_direct_matchers r)
     (cr_descendant_matchers r) (cr_deletion_descendant_matchers r) s v (cr_perishable r)
     (cr_negate r) (cr_order r), s || v).

(** [Vec::retain_mut]. *)
Fixpoint retain_mut {A} (f : A → A * bool) (l : list A) : list A :=
  match l with
  | [] => []
  | x :: l' => let '(y, keep) := f x in
               if keep then y :: retain_mut f l' else retain_mut f l'
  end.

Definition apply_clear_rule (rules : list CompiledRule) (sender receiver : bool)
    : list CompiledRule :=
  if negb sender && negb receiver then rules
  else retain_mut (clear_sides sender receiver) rules.

(** ** Rules for the names of extended attributes *)

Record CompiledXattrRule := mkXRule {
  xr_action : FilterAction;
  xr_matchers : list CompiledPattern;
  xr_negate : bool;
}.

Definition xrule_new (rule : FilterRule) : CompiledXattrRule :=
  mkXRule (fr_action rule) (compile_patterns [fr_pattern rule] false) (fr_negate rule).

Definition xrule_matches (r : CompiledXattrRule) (name : list byte) : bool :=
  let matched := existsb (λ m, is_match m name) (xr_matchers r) in
  xorb matched (xr_negate r).

(** ** The rewriting of [**] is redundant *)

(** [g] is [h] with slashes put beside some of its recursive wildcards. *)
Inductive slash_pad : list glob_item → list glob_item → Prop :=
| sp_nil : slash_pad [] []
| sp_cons x g h : slash_pad g h → slash_pad (x :: g) (x :: h)
| sp_pad (lead trail : bool) g h : slash_pad g h →
    slash_pad ((if lead then [GLit SLASH] else []) ++ GStarStar ::
               (if trail then [GLit SLASH] else []) ++ g) (GStarStar :: h).

Lemma slash_pad_match g h t : slash_pad g h → glob_match g t → glob_match h t.
Proof.
  intros Hp. revert t.
  induction Hp as [|x g h Hp IH|lead trail g h Hp IH]; intros t Hm; [done|..].
  - inversion Hm; subst; constructor; auto.
  - assert (∀ b k t, glob_match ((if b : bool then [GLit SLASH] else []) ++ k) t →
      ∃ u t', t = u ++ t' ∧ glob_match k t') as Hlit.
    { intros [] k t2; cbn [app]; [|intros; by exists [], t2].
      inversion 1; subst. by exists [c], t0. }
    apply Hlit in Hm as (u1 & t1 & -> & Hm).
    assert (∃ u t', t1 = u ++ t' ∧ glob_match ((if trail then [GLit SLASH] else []) ++ g) t')
      as (u & t' & -> & Hm') by (inversion Hm; subst; [done|]; eauto).
    apply Hlit in Hm' as (u2 & t2 & -> & Hm2).
    replace (u1 ++ u ++ u2 ++ t2) with ((u1 ++ u ++ u2) ++ t2) by by rewrite <- !app_assoc.
    constructor. auto.
Qed.

(** What the loop has in place of the part [r] of the pattern. *)
Record pad_ok (s r : list byte) : Prop := {
  pad_head : at_ r 0 ≠ STAR → at_ s 0 = at_ r 0;
  pad_parse : ∀ g, parse_glob s = Some g → ∃ h, parse_glob r = Some h ∧ slash_pad g h;
  pad_nul : NUL ∉ r → NUL ∉ s;
}.

Lemma pad_ok_nil : pad_ok [] [].
Proof. split; [done| |done]. intros g [= <-]. eexists. split; [done|]. constructor. Qed.

(** A byte or an escaped byte that is copied. *)
Lemma pad_ok_lit c s r : c ≠ LBRACK → (c = STAR → at_ r 0 ≠ STAR) → c ≠ BACKSLASH →
  pad_ok s r → pad_ok (c :: s) (c :: r).
Proof.
  intros Hb Hs Hbs [Hhd Hps Hn]. split; [done| |set_solver]. intros g.
  rewrite !parse_glob_cons. rewrite !(decide_False (P := c = BACKSLASH)) by done.
  rewrite !(decide_False (P := c = LBRACK)) by done.
  assert (∀ x, cons x <$> parse_glob s = Some g →
    ∃ h, cons x <$> parse_glob r = Some h ∧ slash_pad g h) as Hx.
  { intros x (g' & Hg & ->)%fmap_Some. destruct (Hps _ Hg) as (h & -> & Hp).
    eexists. split; [done|]. by constructor. }
  case_decide; [apply Hx|]. case_decide as Hst; [|apply Hx].
  rewrite !decide_False; [apply Hx|auto|]. rewrite Hhd; auto.
Qed.

Lemma pad_ok_escape e s r : pad_ok s r → pad_ok (BACKSLASH :: e :: s) (BACKSLASH :: e :: r).
Proof.
  intros [Hhd Hps Hn]. split; [done| |set_solver]. intros g.
  rewrite !parse_glob_cons, !decide_True by done. intros (g' & Hg & ->)%fmap_Some.
  destruct (Hps _ Hg) as (h & -> & Hp). eexists. split; [done|]. by constructor.
Qed.

(** A backslash at the end makes both malformed. *)
Lemma pad_ok_trailing s r : r = [] → pad_ok s r → pad_ok (BACKSLASH :: s) (BACKSLASH :: r).
Proof.
  intros -> [Hhd Hps Hn]. assert (s = [] ∨ s ≠ []) as [->|Hs] by (destruct s; auto).
  - split; [done| |done]. intros g Hg. by rewrite parse_glob_cons, decide_True in Hg by done.
  - split; [done| |set_solver]. intros g Hg. exfalso.
    assert (at_ s 0 = NUL) as Hz by (by apply Hhd).
    assert (NUL ∉ s) as Hns by (apply Hn; set_solver).
    apply at_nul in Hz; [|done]. destruct s; [done|simpl in Hz; lia].
Qed.

Lemma skip_star_run p : skip_stars p = drop (star_run p) p.
Proof. induction p as [|c p IH]; [done|]. cbn [skip_stars star_run]. by case_decide. Qed.

Lemma parse_starstar s : at_ s 0 ≠ STAR →
  parse_glob (STAR :: STAR :: s) = cons GStarStar <$> parse_glob s.
Proof.
  intros Hs. rewrite parse_glob_cons, !decide_False by done. rewrite !decide_True by done.
  cbn [skip_stars]. rewrite decide_True by done. f_equal. f_equal.
  destruct s as [|c s]; [done|]. cbn [skip_stars]. by rewrite decide_False.
Qed.

(** A run of stars, with the slashes the loop puts beside it. *)
Lemma pad_ok_run (lead trail : bool) s r :
  let q := skip_stars r in
  (trail = false → at_ q 0 = NUL ∨ at_ q 0 = SLASH) → pad_ok s q →
  pad_ok ((if lead then [SLASH] else []) ++ [STAR; STAR] ++ (if trail then [SLASH] else []) ++ s)
    (STAR :: STAR :: r).
Proof.
  intros q Hq [Hhd Hps Hn]. pose proof (skip_stars_head r) as Hne. fold q in Hne.
  assert (parse_glob (STAR :: STAR :: r) = cons GStarStar <$> parse_glob q) as Hr.
  { rewrite parse_glob_cons, !decide_False by done. rewrite !decide_True by done.
    cbn [skip_stars]. by rewrite decide_True. }
  split.
  - intros H. by exfalso.
  - intros g. rewrite Hr.
    set (tl := (if trail then [SLASH] else []) ++ s).
    assert (at_ tl 0 ≠ STAR) as Htl.
    { unfold tl. destruct trail; [done|]. cbn [app]. rewrite Hhd by done.
      destruct (Hq eq_refl) as [-> | ->]; done. }
    assert (parse_glob tl = (λ g, (if trail then [GLit SLASH] else []) ++ g) <$> parse_glob s)
      as Ept.
    { unfold tl. destruct trail; [|cbn [app]; by destruct (parse_glob s)].
      cbn [app]. by rewrite parse_glob_cons, !decide_False by done. }
    assert (parse_glob ((if lead then [SLASH] else []) ++ [STAR; STAR] ++ tl) =
      (λ g, (if lead then [GLit SLASH] else []) ++ GStarStar ::
            (if trail then [GLit SLASH] else []) ++ g) <$> parse_glob s) as ->.
    { destruct lead; cbn [app].
      - rewrite parse_glob_cons, !decide_False by done. rewrite parse_starstar by done.
        rewrite Ept. by destruct (parse_glob s).
      - rewrite parse_starstar by done. rewrite Ept. by destruct (parse_glob s). }
    intros (g' & Hg & ->)%fmap_Some. destruct (Hps _ Hg) as (h & -> & Hp).
    eexists. split; [done|]. by constructor.
  - intros H. assert (NUL ∉ q) as H2.
    { destruct (skip_stars_suffix r) as [k Hk]. unfold q. rewrite Hk. apply nul_free_drop. set_solver. }
    specialize (Hn H2). destruct lead, trail; set_solver.
Qed.

Lemma slice_app cut i j s : (cut ≤ i ≤ j)%nat → slice cut i s ++ slice i j s = slice cut j s.
Proof.
  intros H. unfold slice. replace (j - cut)%nat with ((i - cut) + (j - i))%nat by lia.
  rewrite take_add_app, drop_drop. by replace (cut + (i - cut))%nat with i by lia.
Qed.

Lemma slice_drop i j s : (i ≤ j)%nat → slice i j s ++ drop j s = drop i s.
Proof.
  intros H. unfold slice. rewrite <- (take_drop (j - i) (drop i s)) at 2.
  rewrite drop_drop. by replace (i + (j - i))%nat with j by lia.
Qed.

Lemma star_run_le s : (star_run s ≤ length s)%nat.
Proof. induction s as [|c s IH]; simpl; [lia|]. case_decide; simpl; lia. Qed.

Lemma drop_at i s : (i < length s)%nat → drop i s = at_ s i :: drop (S i) s.
Proof.
  intros H. destruct (lookup_lt_is_Some_2 s i H) as [c Hc].
  rewrite (drop_S_lookup s i c Hc). unfold at_. by rewrite Hc.
Qed.

Lemma at_elem i s : (i < length s)%nat → at_ s i ∈ s.
Proof.
  intros H. destruct (lookup_lt_is_Some_2 s i H) as [c Hc]. unfold at_. rewrite Hc.
  by apply list_elem_of_lookup_2 in Hc.
Qed.

Lemma nrw_loop_pads fuel bs i cut changed out cut' changed' out' :
  LBRACK ∉ bs → (length bs < i + fuel)%nat → (cut ≤ i ≤ length bs)%nat →
  nrw_loop fuel bs i cut changed out = (cut', changed', out') →
  ∃ s, out' ++ drop cut' bs = out ++ slice cut i bs ++ s ∧ pad_ok s (drop i bs).
Proof.
  intros Hb. revert i cut changed out.
  induction fuel as [|fuel IH]; intros i cut changed out Hf Hc; [lia|]. cbn [nrw_loop].
  destruct (decide (i < length bs)%nat) as [Hi|Hi].
  2: { intros [= <- <- <-]. exists []. assert (i = length bs) as -> by lia.
       rewrite drop_all, app_nil_r. split; [|apply pad_ok_nil]. f_equal.
       unfold slice. by rewrite take_ge by (rewrite length_drop; lia). }
  pose proof (drop_at i bs Hi) as Hdi.
  assert (at_ bs i ≠ LBRACK) as Hnb by (intros E; apply Hb; rewrite <- E; by apply at_elem).
  destruct (decide (at_ bs i = BACKSLASH ∧ _)) as [[Hbs Hi1]|Hesc].
  { intros H. apply IH in H as (s & -> & Hs); [|lia..].
    exists (slice i (i + 2) bs ++ s). split; [by rewrite <- (slice_app cut i (i + 2)), <- app_assoc by lia|].
    rewrite <- (slice_drop i (i + 2)) by lia.
    assert (slice i (i + 2) bs = [BACKSLASH; at_ bs (S i)]) as ->.
    { unfold slice. replace (i + 2 - i)%nat with 2%nat by lia.
      rewrite Hdi, (drop_at (S i)) by lia. cbn [take]. by rewrite Hbs. }
    cbn [app]. by apply pad_ok_escape. }
  destruct (decide (at_ bs i = STAR ∧ _)) as [(Hst & Hi1 & Hst1)|Hstar].
  { set (j := (i + 2 + star_run (drop (i + 2) bs))%nat).
    set (lead := negb (bool_decide (i = 0%nat)) && _).
    set (trail := negb (bool_decide (j = length bs)) && _).
    pose proof (star_run_le (drop (i + 2) bs)) as Hr. rewrite length_drop in Hr.
    intros H. apply IH in H as (s & -> & Hs); [|lia..].
    eexists. split; [rewrite <- !app_assoc; reflexivity|].
    rewrite Hdi, (drop_at (S i)), Hst by lia. replace (S i) with (i + 1)%nat by lia. rewrite Hst1.
    replace (S (i + 1)) with (i + 2)%nat by lia.
    assert (slice j j bs = []) as -> by (unfold slice; by rewrite Nat.sub_diag). cbn [app].
    apply pad_ok_run; rewrite skip_star_run, drop_drop; fold j; [|done].
    intros Ht. rewrite at_drop, Nat.add_0_r. unfold trail in Ht.
    destruct (decide (j = length bs)) as [->|Hj].
    - left. unfold at_. by rewrite lookup_ge_None_2 by lia.
    - right. rewrite bool_decide_false in Ht by done. rewrite bool_decide_true in Ht by lia.
      cbn [negb andb] in Ht. apply negb_false_iff in Ht. by apply bool_decide_eq_true in Ht. }
  intros H. apply IH in H as (s & -> & Hs); [|lia..].
  exists (slice i (i + 1) bs ++ s). split; [by rewrite <- (slice_app cut i (i + 1)), <- app_assoc by lia|].
  assert (slice i (i + 1) bs = [at_ bs i]) as ->.
  { unfold slice. replace (i + 1 - i)%nat with 1%nat by lia. by rewrite Hdi. }
  rewrite Hdi. replace (S i) with (i + 1)%nat by lia. cbn [app].
  destruct (decide (at_ bs i = BACKSLASH)) as [Hbs|Hnbs].
  - rewrite Hbs. apply pad_ok_trailing; [|done]. apply drop_ge.
    destruct (decide (i + 1 < length bs)%nat); [exfalso; tauto|lia].
  - apply pad_ok_lit; [done| |done..]. intros Est. rewrite at_drop, Nat.add_0_r.
    intros Hx. apply Hstar. split_and!; [done| |done].
    apply (at_nonzero bs). by rewrite Hx.
Qed.

Lemma normalise_pads p s : LBRACK ∉ p → normalise_recursive_wildcards p = Some s → pad_ok s p.
Proof.
  intros Hb. unfold normalise_recursive_wildcards.
  destruct (contains_starstar p); [|done]. cbn [negb].
  destruct (nrw_loop _ _ _ _ _ _) as [[cut changed] out] eqn:E.
  destruct changed; [|done]. intros [= <-].
  apply nrw_loop_pads in E as (s & -> & Hs); [|done|lia..]. done.
Qed.

Lemma rewrite_matches_less p s t : LBRACK ∉ p → NUL ∉ p → NUL ∉ t →
  normalise_recursive_wildcards p = Some s → wildmatch s t = true → wildmatch p t = true.
Proof.
  intros Hb Hp Ht Hn. destruct (normalise_pads p s Hb Hn) as [_ Hps Hnul].
  rewrite !wildmatch_spec by auto. intros (g & Hg & Hm).
  destruct (Hps g Hg) as (h & Hh & Hpad). exists h. split; [done|]. by eapply slash_pad_match.
Qed.

(** *** Where nothing is rewritten *)

(** Two stars stand between slashes or the ends. *)
Definition bounded (s : list byte) : Prop :=
  ∀ i, s !! i = Some STAR → s !! S i = Some STAR →
    (i = 0%nat ∨ s !! (i - 1)%nat = Some SLASH) ∧ ((i + 2)%nat = length s ∨ s !! (i + 2)%nat = Some SLASH).

Lemma at_lookup s i c : at_ s i = c → c ≠ NUL → s !! i = Some c.
Proof. unfold at_. destruct (s !! i); cbn; naive_solver. Qed.

Lemma lookup_at s i c : s !! i = Some c → at_ s i = c.
Proof. unfold at_. by intros ->. Qed.

Lemma nrw_loop_bounded fuel bs i cut out : bounded bs → (nrw_loop fuel bs i cut false out).1.2 = false.
Proof.
  intros Hb. revert i cut out. induction fuel as [|fuel IH]; intros i cut out; [done|]. cbn [nrw_loop].
  destruct (decide (i < length bs)%nat); [|done]. destruct (decide (_ ∧ _)); [done|].
  destruct (decide (at_ bs i = STAR ∧ _)) as [(H1 & H2 & H3)|]; [|done].
  destruct (Hb i) as [Hl Hr]; [by apply at_lookup|replace (S i) with (i + 1)%nat by lia; by apply at_lookup|].
  assert (star_run (drop (i + 2) bs) = 0%nat) as ->.
  { destruct Hr as [Hr|Hr]; [by rewrite drop_ge by lia|].
    by rewrite (drop_S_lookup bs (i + 2) SLASH) by done. }
  rewrite Nat.add_0_r, (decide_False (P := (2 < i + 2 - i)%nat)) by lia.
  assert (negb (bool_decide (i = 0%nat)) &&
          negb (bool_decide (0 < i)%nat && bool_decide (at_ bs (i - 1) = SLASH)) = false) as ->.
  { destruct Hl as [->|Hl]; [done|]. rewrite (bool_decide_true (at_ _ _ = _)) by by apply lookup_at.
    rewrite andb_true_r. repeat case_bool_decide; (done || lia). }
  assert (negb (bool_decide ((i + 2)%nat = length bs)) &&
          negb (bool_decide (i + 2 < length bs)%nat && bool_decide (at_ bs (i + 2) = SLASH)) = false) as ->.
  { destruct Hr as [Hr|Hr]; [by rewrite bool_decide_true by done|].
    rewrite (bool_decide_true (at_ _ _ = _)) by by apply lookup_at. apply lookup_lt_Some in Hr.
    rewrite andb_true_r. repeat case_bool_decide; (done || lia). }
  cbn [orb]. apply IH.
Qed.

Lemma bounded_stays s : bounded s → normalise_recursive_wildcards s = None.
Proof.
  intros Hb. unfold normalise_recursive_wildcards. destruct (contains_starstar s); [|done]. cbn [negb].
  pose proof (nrw_loop_bounded (S (length s)) s 0 0 [] Hb) as H.
  destruct (nrw_loop _ _ _ _ _ _) as [[? ?] ?]. cbn in H. by subst.
Qed.

Lemma no_starstar s i : contains_starstar s = false → s !! i = Some STAR → s !! S i = Some STAR → False.
Proof.
  revert i. induction s as [|c s IH]; intros i; [done|]. cbn [contains_starstar].
  intros [H1 H2]%orb_false_iff. destruct i as [|i]; [|by apply IH].
  intros H3%lookup_at H4%lookup_at. apply bool_decide_eq_false in H1. naive_solver.
Qed.

Lemma bounded_plain s : contains_starstar s = false → bounded s.
Proof. intros H i H1 H2. by destruct (no_starstar s i). Qed.

Lemma bounded_any_depth s : bounded s → bounded (any_depth s).
Proof.
  intros H i H1 H2. unfold any_depth in *. destruct i as [|[|[|i]]]; [split; [by left|by right]|done..|].
  cbn in H1, H2. destruct (H i H1 H2) as [Hl Hr]. split.
  - right. destruct Hl as [->|Hl]; [done|]. destruct i as [|i]; [by cbn in Hl; simplify_eq|].
    by replace (S i - 1)%nat with i in Hl by lia.
  - cbn. destruct Hr as [Hr|Hr]; [left; cbn; lia|by right].
Qed.

Lemma bounded_below s : contains_starstar s = false → bounded (below s).
Proof.
  intros H i. unfold below. destruct (decide (i < length s)%nat) as [Hi|Hi].
  - rewrite lookup_app_l by done. destruct (decide (S i < length s)%nat) as [Hi'|Hi'].
    + rewrite lookup_app_l by done. intros H1 H2. by destruct (no_starstar s i).
    + rewrite lookup_app_r by lia. by replace (S i - length s)%nat with 0%nat by lia.
  - rewrite !lookup_app_r by lia. destruct (decide (i = length s)) as [->|Hn]; [by rewrite Nat.sub_diag|].
    destruct (decide (i = S (length s))) as [->|Hn2].
    + intros _ _. split; [right|left; rewrite length_app; cbn; lia].
      rewrite lookup_app_r by lia. by replace (S (length s) - 1 - length s)%nat with 0%nat by lia.
    + intros _ H2. apply lookup_lt_Some in H2. cbn in H2. lia.
Qed.

(** A pattern whose rewriting does not reach into a bracket expression. *)
Definition rewrite_safe (s : list byte) : Prop := LBRACK ∉ s ∨ bounded s.

(** The matchers of a set of patterns match what one of the patterns matches. *)
Lemma compile_patterns_match ps wild2 path : NUL ∉ path →
  Forall (λ p, NUL ∉ p ∧ rewrite_safe p) ps →
  existsb (λ m, is_match m path) (compile_patterns ps wild2) =
  existsb (λ p, is_match (mkCPattern p wild2) path) ps.
Proof.
  intros Ht Hps. apply eq_iff_eq_true. rewrite !existsb_exists. unfold compile_patterns.
  setoid_rewrite <- list_elem_of_In. split.
  - intros (m & Hm & Hmt). apply list_elem_of_fmap in Hm as (s & -> & Hs).
    rewrite merge_sort_Permutation, elem_of_remove_dups in Hs.
    apply list_elem_of_bind in Hs as (p & Hs & Hp).
    exists p. split; [done|]. rewrite Forall_forall in Hps. destruct (Hps p Hp) as [Hn [Hb|Hb]].
    2:{ rewrite (bounded_stays p Hb) in Hs. by apply list_elem_of_singleton in Hs as ->. }
    destruct (normalise_recursive_wildcards p) as [s'|] eqn:E; [|set_solver].
    assert (s = s' ∨ s = p) as [->| ->] by set_solver; [|done].
    pose proof (from_utf8_lossy_nul path Ht). unfold is_match, path_match_bytes in *.
    cbn [cp_bytes cp_wild2_prefix] in *. destruct wild2; eapply rewrite_matches_less; eauto. set_solver.
  - intros (p & Hp & Hmt). exists (mkCPattern p wild2). split; [|done].
    apply list_elem_of_fmap. exists p. split; [done|]. rewrite merge_sort_Permutation.
    apply elem_of_remove_dups, list_elem_of_bind. exists p. split; [|done].
    destruct (normalise_recursive_wildcards p); set_solver.
Qed.

Lemma is_match_spec p (wild2 : bool) path : NUL ∉ p → NUL ∉ path →
  is_match (mkCPattern p wild2) path = true ↔
  glob_matches p ((if wild2 then [SLASH] else []) ++ from_utf8_lossy path).
Proof.
  intros Hp Ht%from_utf8_lossy_nul. unfold is_match, path_match_bytes. cbn [cp_bytes cp_wild2_prefix].
  destruct wild2; apply wildmatch_spec; set_solver.
Qed.

(** ** What a written pattern stands for *)

(** The endings of a pattern for directories: a slash, and the two spellings of a
    directory with everything inside. *)
Definition DIR_ENDINGS : list (list byte) := [bytes "/"; bytes "/***"; bytes "/***/"].

(** A leading slash for the top of the tree, the pattern proper, and an ending. *)
Definition spelled (anchored : bool) (core ending : list byte) : list byte :=
  (if anchored then [SLASH] else []) ++ core ++ ending.

(** The pattern proper has none of the things around it. *)
Record proper (anchored : bool) (core : list byte) : Prop := {
  pr_nonempty : core ≠ [];
  pr_start : anchored = false → head core ≠ Some SLASH;
  pr_end : last core ≠ Some SLASH;
  pr_inside : ∀ p, core ≠ p ++ bytes "/***";
}.

(** A pattern without a leading slash that begins with two stars is matched against the
    name with a slash before it. *)
Definition subject (anchored : bool) (core name : list byte) : list byte :=
  if negb anchored && starts_with_starstar core then SLASH :: name else name.

(** Anchored at the top, or a name after any slash as well. *)
Definition stands_for (anchored : bool) (core s : list byte) : Prop :=
  glob_matches core s ∨
  (anchored = false ∧ starts_with_starstar core = false ∧ ∃ u t, s = u ++ SLASH :: t ∧ glob_matches core t).

Definition inside_of (anchored : bool) (core s : list byte) : Prop :=
  ∃ d rest, s = d ++ SLASH :: rest ∧ stands_for anchored core d.

Definition has_wildcard (s : list byte) : bool :=
  bool_decide (STAR ∈ s) || bool_decide (QUEST ∈ s) || bool_decide (LBRACK ∈ s).

(** The rules that reach what is inside of a directory, and whether they do so in every
    decision or only in those on deletion. *)
Definition reaches_inside (rule : FilterRule) (anchored dirs : bool) (core : list byte) (deletion : bool) : bool :=
  bool_decide (fr_action rule ∈ [Exclude; Protect; Risk]) &&
  (if deletion then has_wildcard core && negb anchored && dirs
   else negb (has_wildcard core && (anchored || dirs))).

(** Below a name that a pattern stands for. *)
Lemma glob_matches_below core path g : parse_glob core = Some g →
  glob_matches (below core) path ↔ ∃ d rest, path = d ++ SLASH :: rest ∧ glob_matches core d.
Proof.
  intros Hg. unfold below, glob_matches.
  rewrite (parse_glob_app core _ g [GLit SLASH; GStarStar]) by done. rewrite Hg. clear Hg.
  split.
  - intros (g' & [= <-] & Hm). revert path Hm. induction g as [|x g IH]; intros path Hm.
    + inversion Hm as [|? c ? t Hc Ht| |]; subst. apply bool_decide_eq_true in Hc. subst c.
      exists [], t. split; [done|]. eexists. by split; [|constructor].
    + inversion Hm as [|? c ? t Hc Ht|u ? t Hu Ht|u ? t Ht]; subst;
        apply IH in Ht as (d & rest & -> & g' & [= <-] & Hd).
      * exists (c :: d), rest. split; [done|]. eexists. split; [done|]. by constructor.
      * exists (u ++ d), rest. split; [by rewrite <- app_assoc|]. eexists. split; [done|]. by constructor.
      * exists (u ++ d), rest. split; [by rewrite <- app_assoc|]. eexists. split; [done|]. by constructor.
  - intros (d & rest & -> & g' & [= <-] & Hd). eexists. split; [done|].
    induction Hd as [|x c g t Hc Hd IH|u g t Hu Hd IH|u g t Hd IH]; cbn [app].
    + constructor; [by apply bool_decide_eq_true|]. rewrite <- (app_nil_r rest).
      constructor. constructor.
    + by constructor.
    + rewrite <- app_assoc. by constructor.
    + rewrite <- app_assoc. by constructor.
Qed.

Lemma crule_new_action rule : cr_action (crule_new rule) = fr_action rule.
Proof.
  unfold crule_new. destruct (normalise_pattern _) as [[??]?].
  by destruct (match fr_action rule with Include => _ | _ => _ end).
Qed.

Lemma existsb_and {A} (f : A → bool) b l : existsb (λ x, f x && b) l = existsb f l && b.
Proof. induction l as [|x l IH]; [done|]. simpl. rewrite IH. by destruct (f x), (existsb f l), b. Qed.

(** A pattern at its place or at any depth, as a rule is compiled. *)
Definition placed (anchored : bool) (core p : list byte) : list (list byte) :=
  p :: (if negb anchored && negb (starts_with_starstar core) then [any_depth p] else []).

Section Compiled.
Context (rule : FilterRule) (anchored dirs : bool) (core : list byte).
Context (Hnorm : normalise_pattern (fr_pattern rule) = (anchored, dirs, core)).
Context (Hnul : NUL ∉ core) (Hsafe : LBRACK ∉ core ∨ contains_starstar core = false).

Lemma crule_new_matchers :
  let wild2 := negb anchored && starts_with_starstar core in
  let inside (b : bool) := if b then placed anchored core (below core) else [] in
  cr_negate (crule_new rule) = fr_negate rule ∧ cr_directory_only (crule_new rule) = dirs ∧
  cr_direct_matchers (crule_new rule) = compile_patterns (placed anchored core core) wild2 ∧
  cr_descendant_matchers (crule_new rule) =
    compile_patterns (inside (reaches_inside rule anchored dirs core false)) wild2 ∧
  cr_deletion_descendant_matchers (crule_new rule) =
    compile_patterns (inside (reaches_inside rule anchored dirs core true)) wild2.
Proof using Hnorm.
  assert (Hanch : starts_with SLASH (fr_pattern rule) = anchored).
  { revert Hnorm. unfold normalise_pattern. repeat case_match; congruence. }
  unfold crule_new, reaches_inside, placed. rewrite Hnorm, Hanch. fold (has_wildcard core).
  destruct (fr_action rule), dirs, anchored, (has_wildcard core), (starts_with_starstar core);
    cbn [andb orb negb]; done.
Qed.

Lemma safe_pattern p : p = core ∨ p = below core → NUL ∉ p ∧ NUL ∉ any_depth p ∧
  rewrite_safe p ∧ rewrite_safe (any_depth p).
Proof using Hnul Hsafe.
  clear Hnorm. unfold rewrite_safe, any_depth. intros Hp. split_and!.
  1,2: destruct Hp as [-> | ->]; unfold below; set_solver.
  - destruct Hsafe as [H|H]; [left; destruct Hp as [-> | ->]; unfold below; set_solver|right].
    destruct Hp as [-> | ->]; [by apply bounded_plain|by apply bounded_below].
  - destruct Hsafe as [H|H]; [left; destruct Hp as [-> | ->]; unfold below; set_solver|right].
    apply bounded_any_depth. destruct Hp as [-> | ->]; [by apply bounded_plain|by apply bounded_below].
Qed.

Context (path : list byte) (Hpath : NUL ∉ path).
Local Notation name := (subject anchored core (from_utf8_lossy path)).

Lemma placed_match p : p = core ∨ p = below core →
  existsb (λ m, is_match m path) (compile_patterns (placed anchored core p) (negb anchored && starts_with_starstar core)) = true ↔
  glob_matches p name ∨
  (anchored = false ∧ starts_with_starstar core = false ∧ ∃ u t, name = u ++ SLASH :: t ∧ glob_matches p t).
Proof using Hnul Hpath Hsafe.
  clear Hnorm.
  intros Hp. destruct (safe_pattern p Hp) as (H1 & H2 & H3 & H4).
  rewrite compile_patterns_match; [|done|].
  2:{ unfold placed. constructor; [done|]. case_match; [by apply Forall_singleton|by apply Forall_nil]. }
  assert (Hs : ∀ q, NUL ∉ q → is_match (mkCPattern q (negb anchored && starts_with_starstar core)) path = true ↔ glob_matches q name).
  { intros q Hq. rewrite is_match_spec by done. unfold subject. by destruct (_ && _). }
  unfold placed. cbn [existsb]. rewrite orb_true_iff, (Hs p) by done.
  destruct anchored, (starts_with_starstar core) eqn:Es; cbn [negb andb existsb] in *;
    [naive_solver..|]. rewrite orb_false_r, (Hs (any_depth p)) by done.
  unfold any_depth. rewrite glob_matches_any_depth. naive_solver.
Qed.

Lemma direct_match :
  existsb (λ m, is_match m path) (cr_direct_matchers (crule_new rule)) = true ↔ stands_for anchored core name.
Proof using Hnorm Hnul Hpath Hsafe.
  destruct crule_new_matchers as (_ & _ & -> & _). apply placed_match. by left.
Qed.

Lemma inside_match (b : bool) : (b = true → is_Some (parse_glob core)) →
  existsb (λ m, is_match m path)
    (compile_patterns (if b then placed anchored core (below core) else []) (negb anchored && starts_with_starstar core)) = true ↔
  b = true ∧ inside_of anchored core name.
Proof using Hnul Hpath Hsafe.
  clear Hnorm.
  intros Hp. destruct b; [|by split; [|intros [? _]]]. destruct (Hp eq_refl) as [g Hg].
  rewrite placed_match by by right. setoid_rewrite (glob_matches_below core _ g Hg).
  unfold inside_of, stands_for. generalize name. intros s. split.
  - intros [(d & rest & -> & Hd)|(Ha & Hst & u & t & -> & d & rest & -> & Hd)]; (split; [done|]).
    + exists d, rest. auto.
    + exists (u ++ SLASH :: d), rest. split; [by rewrite <- app_assoc|]. right. eauto 6.
  - intros (_ & d & rest & -> & [Hd|(Ha & Hst & u & t & -> & Ht)]).
    + left. eauto.
    + right. split; [done|]. split; [done|]. exists u, (t ++ SLASH :: rest). split; [by rewrite <- app_assoc|]. eauto 6.
Qed.

Lemma pattern_matches_written (is_dir desc : bool) :
  (desc && reaches_inside rule anchored dirs core false = true → is_Some (parse_glob core)) →
  pattern_matches_impl (crule_new rule) path is_dir desc = true ↔
  (stands_for anchored core name ∧ (dirs = true → is_dir = true)) ∨
  (desc && reaches_inside rule anchored dirs core false = true ∧ inside_of anchored core name).
Proof using Hnorm Hnul Hpath Hsafe.
  intros Hp. rewrite <-direct_match, <-(inside_match (desc && _)) by done.
  destruct crule_new_matchers as (_ & Hd & _ & Hdesc & _). unfold pattern_matches_impl.
  rewrite existsb_and, Hd, Hdesc. destruct (existsb _ (cr_direct_matchers _)); cbn [andb];
    destruct dirs, is_dir, desc, (reaches_inside _ _ _ _ _); cbn [andb orb negb existsb]; try naive_solver.
  all: destruct (compile_patterns (placed anchored core (below core)) _) as [|m ms] eqn:E;
    rewrite ?bool_decide_true, ?bool_decide_false by done; cbn [negb andb existsb];
    repeat case_match; naive_solver.
Qed.
End Compiled.

(** Reading a spelled pattern gives back its parts. *)
Lemma ends_with_true suffix s : ends_with suffix s = true ↔ ∃ p, s = p ++ suffix.
Proof.
  unfold ends_with. rewrite andb_true_iff, !bool_decide_eq_true. split.
  - intros [Hl <-]. exists (take (length s - length suffix) s). by rewrite take_drop.
  - intros [p ->]. rewrite length_app. split; [lia|].
    replace (length p + length suffix - length suffix)%nat with (length p) by lia.
    by rewrite drop_app_length.
Qed.

Lemma ends_with_same_length suffix s p : length suffix = length s → suffix ≠ s →
  ends_with suffix (p ++ s) = false.
Proof.
  intros Hl Hne. apply not_true_is_false. intros [q E]%ends_with_true.
  by apply app_inj_2 in E as [_ ->].
Qed.

Lemma ends_with_app suffix p : ends_with suffix (p ++ suffix) = true.
Proof. apply ends_with_true. by exists p. Qed.

Lemma take_before {A} (p s : list A) k : k = length s → take (length (p ++ s) - k) (p ++ s) = p.
Proof.
  intros ->. rewrite length_app. replace (length p + length s - length s)%nat with (length p) by lia. apply take_app_length.
Qed.

Section Spelled.
Context (anchored : bool) (core : list byte) (Hcore : proper anchored core).
Local Notation stem := (spelled anchored core []).

Lemma stem_start ending : starts_with SLASH (spelled anchored core ending) = anchored.
Proof using Hcore.
  destruct Hcore as [Hne Hst _ _]. unfold starts_with, spelled.
  destruct anchored; [by apply bool_decide_true|]. destruct core as [|c core']; [done|].
  apply bool_decide_false. by apply Hst.
Qed.

Lemma stem_end : ends_with [SLASH] stem = false ∧
  bool_decide (4 < length stem)%nat && ends_with [SLASH; STAR; STAR; STAR] stem = false ∧
  (0 < length stem)%nat ∧ stem ≠ [SLASH] ∧ (if anchored then drop 1 stem else stem) = core.
Proof using Hcore.
  destruct Hcore as [Hne _ Hlast Hin]. unfold spelled. rewrite app_nil_r.
  destruct (exists_last Hne) as (core' & x & E). assert (x ≠ SLASH) as Hx.
  { intros ->. apply Hlast. by rewrite E, last_snoc. }
  split_and!.
  - rewrite E, app_assoc. apply ends_with_same_length; [done|]. congruence.
  - apply not_true_is_false. intros [Hl%bool_decide_eq_true [p Hp]%ends_with_true]%andb_prop.
    destruct anchored; [|by apply (Hin p)]. destruct p as [|c p]; [|injection Hp as _ Hp; by apply (Hin p)].
    rewrite Hp in Hl. cbn in Hl. lia.
  - rewrite E, !length_app. cbn. lia.
  - destruct anchored; cbn [app]; [congruence|]. intros H. apply Hlast. by rewrite H.
  - by destruct anchored.
Qed.

Lemma normalise_spelled ending : ending = [] ∨ ending ∈ DIR_ENDINGS →
  normalise_pattern (spelled anchored core ending) = (anchored, bool_decide (ending ≠ []), core).
Proof using Hcore.
  destruct stem_end as (H1 & H2 & H3 & H4 & H5). intros Hend.
  assert (spelled anchored core ending = stem ++ ending) as E.
  { unfold spelled. by rewrite app_nil_r, app_assoc. }
  unfold normalise_pattern. rewrite (stem_start ending), E.
  unfold DIR_ENDINGS in Hend. rewrite !elem_of_cons, elem_of_nil in Hend.
  destruct Hend as [->|[->|[->|[->|[]]]]].
  - rewrite app_nil_r, H1, andb_false_r, (bool_decide_false (_ = [SLASH])), H2 by done. 
    rewrite (bool_decide_false (_ ≠ _)) by tauto. destruct anchored; cbn [negb andb]; by rewrite H5.
  - change (bytes "/") with [SLASH]. rewrite (ends_with_app [SLASH]), bool_decide_true by (rewrite length_app; cbn; lia).
    cbn [andb]. rewrite (take_before stem [SLASH] 1), H2, (bool_decide_true (_ ≠ _)) by done.
    destruct anchored; cbn [negb andb]; by rewrite H5.
  - change (bytes "/***") with [SLASH; STAR; STAR; STAR].
    assert (ends_with [SLASH] (stem ++ [SLASH; STAR; STAR; STAR]) = false) as ->.
    { change [SLASH; STAR; STAR; STAR] with ([SLASH; STAR; STAR] ++ [STAR]). rewrite app_assoc.
      by apply ends_with_same_length. }
    rewrite andb_false_r, (bool_decide_false (_ = [SLASH])).
    2:{ intros Hl%(f_equal length). rewrite length_app in Hl. cbn in Hl. lia. }
    rewrite ends_with_app, bool_decide_true by (rewrite length_app; cbn; lia). cbn [andb].
    rewrite (take_before stem [SLASH; STAR; STAR; STAR] 4), (bool_decide_true (_ ≠ _)) by done.
    destruct anchored; cbn [negb andb]; by rewrite H5.
  - change (bytes "/***/") with ([SLASH; STAR; STAR; STAR] ++ [SLASH]). rewrite app_assoc, ends_with_app.
    rewrite bool_decide_true by (rewrite !length_app; cbn; lia). cbn [andb].
    rewrite (take_before _ [SLASH] 1), ends_with_app, bool_decide_true by (done || (rewrite length_app; cbn; lia)). cbn [andb].
    rewrite (take_before stem [SLASH; STAR; STAR; STAR] 4), (bool_decide_true (_ ≠ _)) by done.
    destruct anchored; cbn [negb andb]; by rewrite H5.
Qed.
End Spelled.

(** ** Properties *)

(** C33: A compiled rule matches a path exactly when its pattern as it was written does.  A
    pattern is written as an optional slash for the top of the tree, the pattern proper and
    an optional ending for directories; it is matched against the path as text.  It stands
    for the names that its wildcards describe, at the top or after any slash, only
    directories if it has the ending; an excluding, protecting or risking rule also reaches
    what is inside of those names, if the caller asks for it and the pattern has no wildcard
    together with a slash around it, and on deletion also if it has wildcards, an ending and
    no leading slash; a negated rule matches the other paths.  The several patterns that a
    rule is compiled to, their rewriting, sorting and deduplication do not show.  The
    pattern proper is well-formed and does not have both a bracket expression and two stars
    in a row. *)
Theorem rule_matches_written (rule : FilterRule) (anchored : bool) (core ending path : list byte)
    (is_dir check_descendants : bool) :
  fr_pattern rule = spelled anchored core ending → ending = [] ∨ ending ∈ DIR_ENDINGS → proper anchored core →
  NUL ∉ core → NUL ∉ path → LBRACK ∉ core ∨ contains_starstar core = false → is_Some (parse_glob core) →
  let dirs := bool_decide (ending ≠ []) in
  let name := subject anchored core (from_utf8_lossy path) in
  let direct := stands_for anchored core name ∧ (dirs = true → is_dir = true) in
  let inside deletion := reaches_inside rule anchored dirs core deletion = true ∧ inside_of anchored core name in
  let transfer := direct ∨ (check_descendants = true ∧ inside false) in
  let deletion := transfer ∨ inside true in
  (crule_matches (crule_new rule) path is_dir check_descendants = true ↔
     if fr_negate rule then ¬ transfer else transfer) ∧
  (matches_for_deletion (crule_new rule) path is_dir check_descendants = true ↔
     if fr_negate rule then ¬ deletion else deletion).
Proof.
  intros Hpat Hend Hprop Hnul Hpath Hsafe Hg dirs name direct inside transfer deletion.
  assert (Hnorm : normalise_pattern (fr_pattern rule) = (anchored, dirs, core))
    by (rewrite Hpat; by apply normalise_spelled).
  assert (H1 : pattern_matches_impl (crule_new rule) path is_dir check_descendants = true ↔ transfer).
  { rewrite (pattern_matches_written rule anchored dirs core) by done. unfold transfer, direct, inside.
    rewrite andb_true_iff. tauto. }
  assert (H2 : deletion_descendant_matches (crule_new rule) path = true ↔ inside true).
  { unfold deletion_descendant_matches. destruct (crule_new_matchers rule anchored dirs core Hnorm) as (_ & _ & _ & _ & ->).
    by apply inside_match. }
  destruct (crule_new_matchers rule anchored dirs core Hnorm) as (Hneg & _).
  unfold crule_matches, matches_for_deletion. rewrite Hneg. unfold deletion.
  destruct (fr_negate rule), (pattern_matches_impl _ _ _ _), (deletion_descendant_matches _ _); cbn [negb orb];
    split; naive_solver.
Qed.

Lemma rule_matches_written_witness :
  let rule := rule_exclude (bytes "obj*/") in
  matches_for_deletion (crule_new rule) (bytes "lib/obj1/a.o") false false = true.
Proof.
  refine (proj2 (proj2 (rule_matches_written (rule_exclude (bytes "obj*/")) false (bytes "obj*") (bytes "/")
    (bytes "lib/obj1/a.o") false false _ _ _ _ _ _ _)) _).
  - vm_compute. reflexivity.
  - right. apply (bool_decide_unpack _). vm_compute. exact I.
  - split; [done|done|done|]. intros [|c p] E; [vm_compute in E; discriminate E|].
    apply (f_equal length) in E. cbn [app length] in E. rewrite length_app in E. change (length (bytes "/***")) with 4%nat in E.
    change (length (bytes "obj*")) with 4%nat in E. lia.
  - apply (bool_decide_unpack _). vm_compute. exact I.
  - apply (bool_decide_unpack _). vm_compute. exact I.
  - left. apply (bool_decide_unpack _). vm_compute. exact I.
  - vm_compute. eauto.
  - cbn [fr_negate rule_exclude]. right. split; [vm_compute; reflexivity|].
    assert (E : subject false (bytes "obj*") (from_utf8_lossy (bytes "lib/obj1/a.o")) = bytes "lib/obj1/a.o")
      by (vm_compute; reflexivity).
    rewrite E. exists (bytes "lib/obj1"), (bytes "a.o"). split; [vm_compute; reflexivity|]. right.
    split; [done|]. split; [done|]. exists (bytes "lib"), (bytes "obj1"). split; [vm_compute; reflexivity|].
    apply wildmatch_spec; [apply (bool_decide_unpack _); vm_compute; exact I..|]. vm_compute. reflexivity.
Defined.

(** The rewriting of recursive wildcards looks for two stars also inside a bracket
    expression, and there the slash it adds can end a range: the rule [- [+-**]x] then
    excludes [,x], which the pattern does not stand for. *)
Theorem bracket_rewrite_widens :
  let pattern := bytes "[+-**]x" in
  normalise_recursive_wildcards pattern = Some (bytes "[+-/**/]x") ∧
  crule_matches (crule_new (rule_exclude pattern)) (bytes ",x") false false = true ∧
  ¬ stands_for false pattern (bytes ",x").
Proof.
  intros pattern. split_and!; [by vm_compute..|].
  assert (wildmatch pattern (bytes ",x") = false) as Hw by by vm_compute.
  intros [H|(_ & _ & u & t & E & _)].
  - apply wildmatch_spec in H; [by rewrite Hw in H|apply (bool_decide_unpack _); by vm_compute..].
  - assert (SLASH ∈ bytes ",x") as Hin by (rewrite E; set_solver).
    revert Hin. apply (bool_decide_unpack (¬ _)). by vm_compute.
Qed.

(** Bytes that are not UTF-8 are not matched as they are: a name with such a byte is
    matched as if it had the replacement character. *)
Theorem other_bytes_are_replaced :
  crule_matches (crule_new (rule_exclude (bytes "a???"))) [x61; xff] false false = true ∧
  crule_matches (crule_new (rule_exclude (bytes "a?"))) [x61; xff] false false = false.
Proof. by vm_compute. Qed.
