(* ===== verification/FilterSet.v ===== *)
(** * Sets of filter rules and their verdicts ([crates/filters/src/set.rs],
      [decision.rs], [cvs.rs], [apple_double.rs])

    A set keeps the rules in three lists: include and exclude rules, protect and risk
    rules, and rules for the names of extended attributes.  The upstream program keeps
    one list and takes the first rule that matches.  Every rule is stamped with its
    position in the source, and the verdict for deletion puts the two lists back together
    by it; [deletion_is_first_match] says that this is the first match of the one list,
    for every sequence of rules, clear rules included.

    A query for a single path, outside a walk of the tree, consults the patterns for what
    is below an excluded directory and the rules for the directories above the path;
    [rejected_is_pruned] relates it to the walk it stands in for. *)

From stdpp Require Import strings sorting.
From S2P Require Import Prelude Wildmatch FilterRule.

(** ** Paths *)

(** The pieces of a path between its slashes. *)
Fixpoint split_slash_go (cur s : list byte) : list (list byte) :=
  match s with
  | [] => [reverse cur]
  | c :: s' => if decide (c = SLASH) then reverse cur :: split_slash_go [] s'
               else split_slash_go (c :: cur) s'
  end.
Definition split_slash (s : list byte) : list (list byte) := split_slash_go [] s.

Lemma split_slash_go_app cur c s : SLASH ∉ c →
  split_slash_go cur (c ++ s) = split_slash_go (reverse c ++ cur) s.
Proof.
  revert cur. induction c as [|b c IH]; intros cur Hc; [done|].
  apply not_elem_of_cons in Hc as [Hb Hc]. cbn [app split_slash_go].
  rewrite decide_False by congruence. rewrite IH by done.
  by rewrite reverse_cons, <-app_assoc.
Qed.

Lemma split_slash_component c r : SLASH ∉ c → (r = [] ∨ ∃ r', r = SLASH :: r') →
  split_slash (c ++ r) = c :: match r with [] => [] | _ :: r' => split_slash r' end.
Proof.
  intros Hc Hr. unfold split_slash. rewrite split_slash_go_app, app_nil_r by done.
  destruct Hr as [->|[r' ->]]; cbn [split_slash_go].
  - by rewrite reverse_involutive.
  - rewrite decide_True by done. by rewrite reverse_involutive.
Qed.

(** [segments.join("/")]. *)
Fixpoint join_slash (segments : list (list byte)) : list byte :=
  match segments with
  | [] => []
  | [s] => s
  | s :: rest => s ++ SLASH :: join_slash rest
  end.

Definition DOT : list byte := [x2e].

(** [Path::components] on Unix: the root of an absolute path is a component, a [.] is one
    at the start of a relative path only, and empty pieces are none. *)
Definition components (path : list byte) : list (list byte) :=
  let pieces := split_slash path in
  let is_absolute := starts_with SLASH path in
  let is_piece := λ s : list byte, negb (bool_decide (s = [])) && negb (bool_decide (s = DOT)) in
  (if is_absolute then [[SLASH]] else []) ++
  (if negb is_absolute && bool_decide (head pieces = Some DOT) then [DOT] else []) ++
  List.filter is_piece pieces.

(** [PathBuf::push]. *)
Definition path_push (base comp : list byte) : list byte :=
  if starts_with SLASH comp then comp
  else if bool_decide (base = []) || ends_with [SLASH] base then base ++ comp
  else base ++ SLASH :: comp.

(** The paths that pushing one component after the other goes through. *)
Fixpoint push_all (base : list byte) (comps : list (list byte)) : list (list byte) :=
  match comps with
  | [] => []
  | c :: comps' => let p := path_push base c in p :: push_all p comps'
  end.

(** The directories above a path, from the outermost. *)
Definition proper_ancestors (path : list byte) : list (list byte) :=
  let comps := components path in push_all [] (take (length comps - 1) comps).

(** ** Sets *)

Record FilterSetInner := mkSet {
  fs_include_exclude : list CompiledRule;
  fs_protect_risk : list CompiledRule;
  fs_xattr : list CompiledXattrRule;
}.

Definition filter_set_default : FilterSetInner := mkSet [] [] [].

Definition set_order (n : nat) (r : CompiledRule) : CompiledRule :=
  mkCRule (cr_action r) (cr_pattern r) (cr_directory_only r) (cr_direct_matchers r)
    (cr_descendant_matchers r) (cr_deletion_descendant_matchers r) (cr_applies_to_sender r)
    (cr_applies_to_receiver r) (cr_perishable r) (cr_negate r) n.

(** A turn of the loop of [from_rules]; the number is [order]. *)
Definition from_rules_step (st : FilterSetInner * nat) (rule : FilterRule)
    : FilterSetInner * nat :=
  let '(fs, order) := st in
  if fr_xattr_only rule then
    match fr_action rule with
    | Include | Exclude =>
        (mkSet (fs_include_exclude fs) (fs_protect_risk fs) (fs_xattr fs ++ [xrule_new rule]), order)
    | _ => (fs, order)
    end
  else
    match fr_action rule with
    | Include | Exclude =>
        let compiled := set_order order (crule_new rule) in
        (mkSet (fs_include_exclude fs ++ [compiled]) (fs_protect_risk fs) (fs_xattr fs), S order)
    | Protect | Risk =>
        let compiled := set_order order (crule_new rule) in
        (mkSet (fs_include_exclude fs) (fs_protect_risk fs ++ [compiled]) (fs_xattr fs), S order)
    | Clear =>
        (mkSet
           (apply_clear_rule (fs_include_exclude fs) (fr_applies_to_sender rule)
              (fr_applies_to_receiver rule))
           (apply_clear_rule (fs_protect_risk fs) (fr_applies_to_sender rule)
              (fr_applies_to_receiver rule)) [], order)
    | Merge | DirMerge => (fs, order)
    end.

Definition from_rules (rules : list FilterRule) : FilterSetInner :=
  (foldl from_rules_step (mkSet [] [] [], 0%nat) rules).1.

Definition set_is_empty (fs : FilterSetInner) : bool :=
  bool_decide (length (fs_include_exclude fs) = 0%nat) &&
  bool_decide (length (fs_protect_risk fs) = 0%nat) &&
  bool_decide (length (fs_xattr fs) = 0%nat).

Definition has_xattr_rules (fs : FilterSetInner) : bool :=
  negb (bool_decide (length (fs_xattr fs) = 0%nat)).

Definition DEFAULT_CVSIGNORE : list (list byte) :=
  map bytes
    ["RCS"; "SCCS"; "CVS"; "CVS.adm"; "RCSLOG"; "cvslog.*"; "tags"; "TAGS"; ".make.state";
     ".nse_depinfo"; "*~"; "#*"; ".#*"; ",*"; "_$*"; "*$"; "*.old"; "*.bak"; "*.BAK"; "*.orig";
     "*.rej"; ".del-*"; "*.a"; "*.olb"; "*.o"; "*.obj"; "*.so"; "*.exe"; "*.Z"; "*.elc"; "*.ln";
     "core"; ".svn/"; ".git/"; ".hg/"; ".bzr/"].

Definition DEFAULT_APPLE_DOUBLE_PATTERN : list byte := bytes "._*".

Definition cvs_exclusion_rules (perishable : bool) : list FilterRule :=
  map (λ pattern,
    let rule := rule_exclude pattern in
    if perishable then with_perishable true rule else rule) DEFAULT_CVSIGNORE.

Definition apple_double_exclusion_rules (perishable : bool) : list FilterRule :=
  map (λ pattern,
    let rule := rule_exclude pattern in
    if perishable then with_perishable true rule else rule) [DEFAULT_APPLE_DOUBLE_PATTERN].

Definition from_rules_with_cvs (rules : list FilterRule) (perishable : bool) : FilterSetInner :=
  from_rules (rules ++ cvs_exclusion_rules perishable).

Definition from_rules_with_apple_double (rules : list FilterRule) (perishable : bool)
    : FilterSetInner :=
  from_rules (rules ++ apple_double_exclusion_rules perishable).

(** ** Decisions *)

Inductive DecisionContext := TransferCtx | DeletionCtx.

#[export] Instance DecisionContext_eq_dec : EqDecision DecisionContext.
Proof. solve_decision. Defined.

Record FilterDecision := mkDecision {
  fd_transfer_allowed : bool;
  fd_protected : bool;
  fd_excluded_for_delete_excluded : bool;
  fd_deletion_override : option bool;
}.

Definition decision_default : FilterDecision := mkDecision true false false None.

Definition allows_transfer (d : FilterDecision) : bool := fd_transfer_allowed d.

Definition decision_allows_deletion (d : FilterDecision) : bool :=
  match fd_deletion_override d with
  | Some deletable => deletable
  | None => fd_transfer_allowed d && negb (fd_protected d)
  end.

Definition decision_allows_deletion_when_excluded_removed (d : FilterDecision) : bool :=
  fd_excluded_for_delete_excluded d && negb (fd_protected d).

(** [rules.iter().find(..)]. *)
Definition first_matching_rule (rules : list CompiledRule) (path : list byte) (is_dir : bool)
    (applies : CompiledRule → bool) (include_perishable check_descendants for_deletion : bool)
    : option CompiledRule :=
  List.find (λ rule,
    (include_perishable || negb (cr_perishable rule)) && applies rule &&
    (if for_deletion then matches_for_deletion rule path is_dir check_descendants
     else crule_matches rule path is_dir check_descendants)) rules.

Definition deletion_first_match_deletable (include_exclude protect_risk : option CompiledRule)
    : bool :=
  let winner :=
    match include_exclude, protect_risk with
    | Some ie, Some pr => Some (if decide (cr_order ie ≤ cr_order pr)%nat then ie else pr)
    | Some ie, None => Some ie
    | None, Some pr => Some pr
    | None, None => None
    end in
  match winner with
  | None => true
  | Some rule => bool_decide (cr_action rule = Include) || bool_decide (cr_action rule = Risk)
  end.

Definition is_exclude (r : CompiledRule) : bool := bool_decide (cr_action r = Exclude).

Definition ancestor_pruned_by_exclude (rules : list CompiledRule) (path : list byte)
    (applies : CompiledRule → bool) (include_perishable : bool) : bool :=
  existsb (λ ancestor,
    match first_matching_rule rules ancestor true applies include_perishable false false with
    | Some rule => is_exclude rule
    | None => false
    end) (proper_ancestors path).

(** The loop of [transfer_rule_with_pruning], over the rules that are left; the rules for
    the ancestors are all of them. *)
Fixpoint pruning_loop (all rules : list CompiledRule) (path : list byte) (is_dir : bool)
    (applies : CompiledRule → bool) (include_perishable : bool) : option CompiledRule :=
  match rules with
  | [] => None
  | rule :: rules' =>
      if (negb include_perishable && cr_perishable rule) || negb (applies rule) then
        pruning_loop all rules' path is_dir applies include_perishable
      else if crule_matches rule path is_dir false then Some rule
      else if is_exclude rule && crule_matches rule path is_dir true &&
              ancestor_pruned_by_exclude all path applies include_perishable then Some rule
      else pruning_loop all rules' path is_dir applies include_perishable
  end.

Definition transfer_rule_with_pruning (rules : list CompiledRule) (path : list byte)
    (is_dir : bool) (applies : CompiledRule → bool) (include_perishable : bool)
    : option CompiledRule :=
  pruning_loop rules rules path is_dir applies include_perishable.

Definition decision_with_traversal (fs : FilterSetInner) (path : list byte) (is_dir : bool)
    (context : DecisionContext) (traversal : bool) : FilterDecision :=
  let check_descendants := negb traversal in
  let for_deletion := bool_decide (context = DeletionCtx) in
  let transfer_rule :=
    match context with
    | TransferCtx =>
        if check_descendants then
          transfer_rule_with_pruning (fs_include_exclude fs) path is_dir cr_applies_to_sender true
        else
          first_matching_rule (fs_include_exclude fs) path is_dir cr_applies_to_sender true
            check_descendants false
    | DeletionCtx =>
        first_matching_rule (fs_include_exclude fs) path is_dir cr_applies_to_receiver true
          check_descendants true
    end in
  let excluded_for_delete_excluded :=
    match context with
    | DeletionCtx =>
        match first_matching_rule (fs_include_exclude fs) path is_dir cr_applies_to_receiver true
                check_descendants for_deletion with
        | Some rule => is_exclude rule
        | None => fd_excluded_for_delete_excluded decision_default
        end
    | TransferCtx => fd_excluded_for_delete_excluded decision_default
    end in
  let transfer_allowed :=
    match transfer_rule with
    | Some rule => bool_decide (cr_action rule = Include)
    | None => fd_transfer_allowed decision_default
    end in
  let protection_rule :=
    match context with
    | TransferCtx =>
        first_matching_rule (fs_protect_risk fs) path is_dir cr_applies_to_sender true
          check_descendants false
    | DeletionCtx =>
        first_matching_rule (fs_protect_risk fs) path is_dir cr_applies_to_receiver true
          check_descendants true
    end in
  let protected :=
    match protection_rule with
    | Some rule =>
        match cr_action rule with
        | Protect => true
        | Risk => false
        | _ => fd_protected decision_default
        end
    | None => fd_protected decision_default
    end in
  let deletion_override :=
    if for_deletion then Some (deletion_first_match_deletable transfer_rule protection_rule)
    else None in
  mkDecision transfer_allowed protected excluded_for_delete_excluded deletion_override.

Definition decision (fs : FilterSetInner) (path : list byte) (is_dir : bool)
    (context : DecisionContext) : FilterDecision :=
  decision_with_traversal fs path is_dir context false.

Definition transfer_match_order (fs : FilterSetInner) (path : list byte) (is_dir : bool)
    : option nat :=
  cr_order <$>
    first_matching_rule (fs_include_exclude fs) path is_dir cr_applies_to_sender true false false.

Definition deletion_match_order (fs : FilterSetInner) (path : list byte) (is_dir : bool)
    : option nat :=
  let include_exclude :=
    first_matching_rule (fs_include_exclude fs) path is_dir cr_applies_to_receiver true false true in
  let protect_risk :=
    first_matching_rule (fs_protect_risk fs) path is_dir cr_applies_to_receiver true false true in
  match include_exclude, protect_risk with
  | Some ie, Some pr => Some (min (cr_order ie) (cr_order pr))
  | Some ie, None => Some (cr_order ie)
  | None, Some pr => Some (cr_order pr)
  | None, None => None
  end.

Definition has_matching_rule (fs : FilterSetInner) (path : list byte) (is_dir : bool)
    (context : DecisionContext) : bool :=
  let applies :=
    match context with TransferCtx => cr_applies_to_sender | DeletionCtx => cr_applies_to_receiver end in
  let for_deletion := bool_decide (context = DeletionCtx) in
  match first_matching_rule (fs_include_exclude fs) path is_dir applies true false for_deletion with
  | Some _ => true
  | None =>
      match first_matching_rule (fs_protect_risk fs) path is_dir applies true false for_deletion with
      | Some _ => true
      | None => false
      end
  end.

Definition excluded_dir_by_non_dir_rule (fs : FilterSetInner) (path : list byte) : bool :=
  match first_matching_rule (fs_include_exclude fs) path true cr_applies_to_sender true false false with
  | Some rule => is_exclude rule && negb (cr_directory_only rule)
  | None => false
  end.

Fixpoint xattr_loop (rules : list CompiledXattrRule) (name : list byte) : bool :=
  match rules with
  | [] => true
  | rule :: rules' =>
      if xrule_matches rule name then bool_decide (xr_action rule = Include)
      else xattr_loop rules' name
  end.
Definition xattr_name_allowed (fs : FilterSetInner) (name : list byte) : bool :=
  xattr_loop (fs_xattr fs) name.

(** The queries of a set. *)
Definition set_allows (fs : FilterSetInner) (path : list byte) (is_dir : bool) : bool :=
  allows_transfer (decision fs path is_dir TransferCtx).
Definition allows_during_traversal (fs : FilterSetInner) (path : list byte) (is_dir : bool) : bool :=
  allows_transfer (decision_with_traversal fs path is_dir TransferCtx true).
Definition has_transfer_rule_match (fs : FilterSetInner) (path : list byte) (is_dir : bool) : bool :=
  has_matching_rule fs path is_dir TransferCtx.
Definition has_deletion_rule_match (fs : FilterSetInner) (path : list byte) (is_dir : bool) : bool :=
  has_matching_rule fs path is_dir DeletionCtx.
Definition set_allows_deletion (fs : FilterSetInner) (path : list byte) (is_dir : bool) : bool :=
  decision_allows_deletion (decision fs path is_dir DeletionCtx).
Definition allows_deletion_during_traversal (fs : FilterSetInner) (path : list byte) (is_dir : bool)
    : bool :=
  decision_allows_deletion (decision_with_traversal fs path is_dir DeletionCtx true).
Definition allows_deletion_when_excluded_removed (fs : FilterSetInner) (path : list byte)
    (is_dir : bool) : bool :=
  decision_allows_deletion_when_excluded_removed (decision fs path is_dir DeletionCtx).

(** ** The one list of the source *)

Definition is_ie (r : CompiledRule) : bool :=
  bool_decide (cr_action r = Include) || bool_decide (cr_action r = Exclude).
Definition is_pr (r : CompiledRule) : bool :=
  bool_decide (cr_action r = Protect) || bool_decide (cr_action r = Risk).

Definition source_step (st : list CompiledRule * nat) (rule : FilterRule)
    : list CompiledRule * nat :=
  let '(l, order) := st in
  if fr_xattr_only rule then st
  else
    match fr_action rule with
    | Include | Exclude | Protect | Risk => (l ++ [set_order order (crule_new rule)], S order)
    | Clear => (apply_clear_rule l (fr_applies_to_sender rule) (fr_applies_to_receiver rule), order)
    | Merge | DirMerge => st
    end.

(** Every rule for paths in the order in which it was given. *)
Definition source_list (rules : list FilterRule) : list CompiledRule :=
  (foldl source_step ([], 0%nat) rules).1.

(** The verdict of the first rule of a list that matches. *)
Definition first_match_deletable (rules : list CompiledRule) (path : list byte)
    (is_dir check_descendants : bool) : bool :=
  match first_matching_rule rules path is_dir cr_applies_to_receiver true check_descendants true with
  | None => true
  | Some rule => bool_decide (cr_action rule = Include) || bool_decide (cr_action rule = Risk)
  end.

(** The invariant of the construction. *)
Record partitioned (l : list CompiledRule) (order : nat) (fs : FilterSetInner) : Prop := {
  part_ie : fs_include_exclude fs = List.filter is_ie l;
  part_pr : fs_protect_risk fs = List.filter is_pr l;
  part_kinds : Forall (λ r, xorb (is_ie r) (is_pr r) = true) l;
  part_orders : StronglySorted (λ r s, cr_order r < cr_order s)%nat l;
  part_bound : Forall (λ r, cr_order r < order)%nat l;
}.

Lemma retain_mut_filter {A} (f : A → A * bool) (g : A → bool) l :
  (∀ x, g (f x).1 = g x) → retain_mut f (List.filter g l) = List.filter g (retain_mut f l).
Proof.
  intros Hg. induction l as [|x l IH]; [done|]. cbn [List.filter retain_mut].
  specialize (Hg x). destruct (f x) as [y keep] eqn:E. cbn [fst] in Hg.
  destruct (g x) eqn:Ex; cbn [retain_mut]; rewrite ?E; destruct keep; cbn [List.filter];
    rewrite ?Hg, IH; done.
Qed.

Lemma apply_clear_filter g l s v : (∀ r, g (clear_sides s v r).1 = g r) →
  apply_clear_rule (List.filter g l) s v = List.filter g (apply_clear_rule l s v).
Proof. intros Hg. unfold apply_clear_rule. case_match; [done|]. by apply retain_mut_filter. Qed.

(** Properties of rules that their side flags do not matter for survive a clear rule. *)
Lemma apply_clear_Forall (P : CompiledRule → Prop) l s v :
  (∀ r, P r → P (clear_sides s v r).1) → Forall P l → Forall P (apply_clear_rule l s v).
Proof.
  intros HP Hl. unfold apply_clear_rule. case_match; [done|].
  induction Hl as [|r l Hr Hl IH]; [constructor|]. cbn [retain_mut].
  specialize (HP r Hr). destruct (clear_sides s v r) as [y []]; [constructor|]; done.
Qed.

Lemma apply_clear_sorted l s v :
  StronglySorted (λ r s, cr_order r < cr_order s)%nat l →
  StronglySorted (λ r s, cr_order r < cr_order s)%nat (apply_clear_rule l s v).
Proof.
  intros Hl. unfold apply_clear_rule. case_match eqn:E; [done|].
  induction Hl as [|r l Hl IH Hr]; [constructor|]. cbn [retain_mut].
  destruct (clear_sides s v r) as [y []] eqn:Ec; [|done].
  constructor; [done|]. assert (cr_order y = cr_order r) as -> by by injection Ec as <- _.
  pose proof (apply_clear_Forall (λ x, cr_order r < cr_order x)%nat l s v (λ _ H, H) Hr) as Hf.
  unfold apply_clear_rule in Hf. by rewrite E in Hf.
Qed.

Lemma sorted_snoc l r order :
  StronglySorted (λ r s, cr_order r < cr_order s)%nat l → Forall (λ r, cr_order r < order)%nat l →
  cr_order r = order → StronglySorted (λ r s, cr_order r < cr_order s)%nat (l ++ [r]).
Proof.
  intros Hl Hb Hr. induction Hl as [|x l Hl IH Hx]; cbn [app]; [repeat constructor|].
  inversion Hb; subst. constructor; [auto|]. apply Forall_app. split; [done|].
  by repeat constructor.
Qed.

Lemma partitioned_snoc l order fs rule kinds :
  partitioned l order fs → kinds = is_ie (set_order order (crule_new rule)) →
  xorb kinds (is_pr (set_order order (crule_new rule))) = true →
  partitioned (l ++ [set_order order (crule_new rule)]) (S order)
    (if kinds then
       mkSet (fs_include_exclude fs ++ [set_order order (crule_new rule)]) (fs_protect_risk fs) (fs_xattr fs)
     else
       mkSet (fs_include_exclude fs) (fs_protect_risk fs ++ [set_order order (crule_new rule)]) (fs_xattr fs)).
Proof.
  intros [H1 H2 H3 H4 H5] Hk Hx. split.
  - rewrite List.filter_app. cbn [List.filter]. rewrite <- Hk.
    destruct kinds; cbn [fs_include_exclude]; [by rewrite H1|by rewrite app_nil_r].
  - rewrite List.filter_app. cbn [List.filter].
    destruct kinds, (is_pr _); try done; cbn [fs_protect_risk]; [by rewrite app_nil_r|by rewrite H2].
  - apply Forall_app. split; [done|]. repeat constructor. by rewrite <- Hk.
  - by apply (sorted_snoc _ _ order).
  - apply Forall_app. split; [eapply Forall_impl; [done|]; simpl; lia|]. repeat constructor.
Qed.

Lemma partitioned_step l order fs rule :
  partitioned l order fs →
  partitioned (source_step (l, order) rule).1 (source_step (l, order) rule).2
    (from_rules_step (fs, order) rule).1 ∧
  (source_step (l, order) rule).2 = (from_rules_step (fs, order) rule).2.
Proof.
  intros Hp. unfold source_step, from_rules_step.
  destruct (fr_xattr_only rule).
  { destruct Hp. by destruct (fr_action rule). }
  pose proof (crule_new_action rule) as Ha.
  assert (cr_action (set_order order (crule_new rule)) = fr_action rule) as Ha' by done.
  destruct (fr_action rule) eqn:Ea; cbn [fst snd]; try done.
  1,2: split; [|done]; apply (partitioned_snoc l order fs rule true); [done|..];
    unfold is_ie, is_pr; by rewrite Ha'.
  1,2: split; [|done]; apply (partitioned_snoc l order fs rule false); [done|..];
    unfold is_ie, is_pr; by rewrite Ha'.
  split; [|done]. destruct Hp as [H1 H2 H3 H4 H5]. split; cbn [fs_include_exclude fs_protect_risk].
  - rewrite H1. by apply apply_clear_filter.
  - rewrite H2. by apply apply_clear_filter.
  - by apply apply_clear_Forall.
  - by apply apply_clear_sorted.
  - by apply apply_clear_Forall.
Qed.

Lemma from_rules_partitioned rules :
  ∃ order, partitioned (source_list rules) order (from_rules rules).
Proof.
  unfold source_list, from_rules.
  assert (∀ l order fs, partitioned l order fs →
    ∃ order', partitioned (foldl source_step (l, order) rules).1 order'
      (foldl from_rules_step (fs, order) rules).1) as H.
  { induction rules as [|rule rules IH]; intros l order fs Hp; [by exists order|].
    cbn [foldl]. destruct (partitioned_step l order fs rule Hp) as [Hp' Ho].
    destruct (source_step (l, order) rule) as [l' o'], (from_rules_step (fs, order) rule) as [fs' o2].
    cbn [fst snd] in *. subst o2. by apply (IH l' o' fs'). }
  apply (H [] 0%nat (mkSet [] [] [])). split; constructor.
Qed.

(** The earlier of the first matches of the two parts is the first match of the whole. *)
Lemma find_partitioned (f : CompiledRule → bool) l :
  Forall (λ r, xorb (is_ie r) (is_pr r) = true) l →
  StronglySorted (λ r s, cr_order r < cr_order s)%nat l →
  List.find f l =
    match List.find f (List.filter is_ie l), List.find f (List.filter is_pr l) with
    | Some a, Some b => Some (if decide (cr_order a ≤ cr_order b)%nat then a else b)
    | Some a, None => Some a
    | None, Some b => Some b
    | None, None => None
    end.
Proof.
  intros Hk Hs. induction Hs as [|r l Hs IH Hr]; [done|].
  inversion Hk as [|? ? Hx Hk']; subst. specialize (IH Hk'). cbn [List.filter List.find].
  assert (∀ g s, List.find f (List.filter g l) = Some s → (cr_order r < cr_order s)%nat) as Hlt.
  { intros g s Hf. apply List.find_some in Hf as [Hin _]. apply filter_In in Hin as [Hin _].
    rewrite Forall_forall in Hr. apply Hr. by apply list_elem_of_In. }
  destruct (is_ie r), (is_pr r); try done; cbn [List.find]; destruct (f r); rewrite ?IH; try done.
  - destruct (List.find f (List.filter is_pr l)) eqn:E; [|done].
    apply Hlt in E. by rewrite decide_True by lia.
  - destruct (List.find f (List.filter is_ie l)) eqn:E; [|done].
    apply Hlt in E. by rewrite decide_False by lia.
Qed.

(** ** The walk of a tree *)

(** A walk that takes a path if it is let into every directory above it. *)
Definition walk_transfers (fs : FilterSetInner) (path : list byte) (is_dir : bool) : bool :=
  forallb (λ ancestor, allows_during_traversal fs ancestor true) (proper_ancestors path) &&
  allows_during_traversal fs path is_dir.

Lemma allows_during_traversal_eq fs path is_dir :
  allows_during_traversal fs path is_dir =
  match first_matching_rule (fs_include_exclude fs) path is_dir cr_applies_to_sender true false false with
  | Some rule => bool_decide (cr_action rule = Include)
  | None => true
  end.
Proof. done. Qed.

Lemma ancestor_pruned_walk fs path :
  ancestor_pruned_by_exclude (fs_include_exclude fs) path cr_applies_to_sender true = true →
  forallb (λ ancestor, allows_during_traversal fs ancestor true) (proper_ancestors path) = false.
Proof.
  unfold ancestor_pruned_by_exclude. intros H. apply existsb_exists in H as (a & Ha & Hm).
  apply not_true_is_false. intros Hf. rewrite forallb_forall in Hf. specialize (Hf a Ha).
  rewrite allows_during_traversal_eq in Hf. destruct (first_matching_rule _ _ _ _ _ _ _); [|done].
  unfold is_exclude in Hm. apply bool_decide_eq_true in Hm, Hf. congruence.
Qed.

(** The rule the single-path query takes is the first direct match, or an ancestor is
    excluded. *)
Lemma pruning_loop_spec all rules path is_dir applies rule :
  pruning_loop all rules path is_dir applies true = Some rule →
  first_matching_rule rules path is_dir applies true false false = Some rule ∨
  (is_exclude rule = true ∧ ancestor_pruned_by_exclude all path applies true = true).
Proof.
  induction rules as [|r rules IH]; [done|]. cbn [pruning_loop negb andb orb].
  unfold first_matching_rule in *. cbn [List.find orb andb].
  destruct (applies r); cbn [negb]; [|done].
  destruct (crule_matches r path is_dir false) eqn:Em; cbn [andb]; [intros; by left|].
  destruct (is_exclude r && crule_matches r path is_dir true &&
    ancestor_pruned_by_exclude all path applies true) eqn:E; [|done].
  intros [= <-]. right. apply andb_prop in E as [E ?]. by apply andb_prop in E as [? _].
Qed.

(** ** Properties *)

(** C12: The verdict on deleting a path is that of one pass over all the rules in the order
    they were given, in which the first rule that applies to the receiver and matches
    decides: include and risk rules let the path be deleted, exclude and protect rules
    keep it, and a path that no rule matches may be deleted.  It holds for every sequence of
    rules, with clear rules and rules for one side, although the set keeps them in two
    lists. *)
Theorem deletion_is_first_match (rules : list FilterRule) (path : list byte)
    (is_dir traversal : bool) :
  decision_allows_deletion
    (decision_with_traversal (from_rules rules) path is_dir DeletionCtx traversal) =
  first_match_deletable (source_list rules) path is_dir (negb traversal).
Proof.
  destruct (from_rules_partitioned rules) as [order [H1 H2 H3 H4 H5]].
  unfold decision_with_traversal, decision_allows_deletion, first_match_deletable.
  cbn [fd_deletion_override]. rewrite bool_decide_true by done.
  unfold deletion_first_match_deletable, first_matching_rule. rewrite H1, H2.
  by rewrite (find_partitioned _ (source_list rules)).
Qed.

(** A path that a query outside a walk rejects is not reached by the walk of the tree
    with the same rules: the path itself is excluded, or a directory above it is.  So the
    patterns for what is below a directory, which only such queries consult, exclude
    nothing a walk would have taken. *)
Theorem rejected_is_pruned (fs : FilterSetInner) (path : list byte) (is_dir : bool) :
  set_allows fs path is_dir = false → walk_transfers fs path is_dir = false.
Proof.
  unfold set_allows, decision, decision_with_traversal, allows_transfer, walk_transfers.
  cbn [negb fd_transfer_allowed]. unfold transfer_rule_with_pruning. intros H.
  destruct (pruning_loop _ _ _ _ _ _) as [rule|] eqn:E; [|done].
  apply pruning_loop_spec in E as [E|[_ E]].
  - rewrite allows_during_traversal_eq, E, H. apply andb_false_r.
  - by rewrite (ancestor_pruned_walk fs path E).
Qed.

Lemma rejected_is_pruned_witness :
  walk_transfers (from_rules [rule_include (bytes "keep"); rule_exclude (bytes "build/")])
    (bytes "a/build/x") false = false.
Proof. apply rejected_is_pruned. vm_compute. reflexivity. Defined.
