(* ===== verification/Implied.v ===== *)
(** * Names a sender may send ([crates/filters/src/implied.rs])

    A client that pulls files keeps include rules for what it asked for, and refuses every
    name in the file list of the sender that none of them matches.  The theorem
    [only_requested_names] says which names these are, for arguments without wildcards and
    every option: the requested names, what is below them when the transfer descends, and
    with [--relative] the directories above them.  In particular a sender cannot make the
    client write anywhere else. *)

From stdpp Require Import strings.
From S2P Require Import Prelude Wildmatch Utf8 FilterRule FilterSet.

(** ** Strings *)

(** [split_once('/')], the part after. *)
Fixpoint after_first_slash (s : list byte) : option (list byte) :=
  match s with
  | [] => None
  | c :: s' => if decide (c = SLASH) then Some s' else after_first_slash s'
  end.

(** [rfind('/')], the part after. *)
Fixpoint after_last_slash (s : list byte) : option (list byte) :=
  match s with
  | [] => None
  | c :: s' =>
      match after_last_slash s' with
      | Some r => Some r
      | None => if decide (c = SLASH) then Some s' else None
      end
  end.

(** [find("/./")], the part after. *)
Fixpoint after_pivot (s : list byte) : option (list byte) :=
  match s with
  | [] => None
  | c :: s' =>
      if decide (take 3 s = [SLASH; x2e; SLASH]) then Some (drop 3 s) else after_pivot s'
  end.

(** ** The set *)

Record ImpliedIncludeOptions := mkImpliedOpts {
  io_relative : bool;
  io_recurse : bool;
  io_dirs : bool;
  io_skip_daemon_module : bool;
}.

(** The rules and the patterns already seen. *)
Record ImpliedIncludes := mkImplied {
  im_rules : list CompiledRule;
  im_seen : list (list byte);
}.

(** The loop of [escape_live_brackets], with the parts of [out] and the pending slice. *)
Fixpoint elb_loop (fuel : nat) (bs : list byte) (i cut : nat) (changed : bool) (out : list byte)
    : nat * bool * list byte :=
  match fuel with
  | O => (cut, changed, out)
  | S fuel' =>
      if decide (i < length bs)%nat then
        if decide (at_ bs i = BACKSLASH ∧ (i + 1 < length bs)%nat) then
          elb_loop fuel' bs (i + 2) cut changed out
        else if decide (at_ bs i = LBRACK) then
          elb_loop fuel' bs (i + 1) i true (out ++ slice cut i bs ++ [BACKSLASH])
        else elb_loop fuel' bs (i + 1) cut changed out
      else (cut, changed, out)
  end.

Definition escape_live_brackets (pattern : list byte) : option (list byte) :=
  let '(cut, changed, out) := elb_loop (S (length pattern)) pattern 0 0 false [] in
  if negb changed then None else Some (out ++ drop cut pattern).

(** [if self.seen.insert(pattern) { self.rules.push(..) }]. *)
Definition push_new (pattern : list byte) (st : ImpliedIncludes) : ImpliedIncludes :=
  if decide (pattern ∈ im_seen st) then st
  else mkImplied (im_rules st ++ [crule_new (rule_include pattern)]) (pattern :: im_seen st).

Definition implied_push_rule (pattern : list byte) (st : ImpliedIncludes) : ImpliedIncludes :=
  let st := push_new pattern st in
  match escape_live_brackets pattern with
  | Some escaped => push_new escaped st
  | None => st
  end.

(** The [segments] of an argument. *)
Definition arg_segments (opts : ImpliedIncludeOptions) (arg : list byte) : list (list byte) :=
  let arg := if io_skip_daemon_module opts then default [] (after_first_slash arg) else arg in
  let arg :=
    if io_relative opts then default arg (after_pivot arg)
    else default arg (after_last_slash arg) in
  let arg := if decide (arg = DOT) then [] else arg in
  List.filter (λ seg, negb (bool_decide (seg = [])) && negb (bool_decide (seg = DOT)))
    (split_slash arg).

Definition add_arg (opts : ImpliedIncludeOptions) (st : ImpliedIncludes) (arg : list byte)
    : ImpliedIncludes :=
  let segments := arg_segments opts arg in
  let st :=
    if decide (segments = []) then st
    else
      let st := implied_push_rule (SLASH :: join_slash segments) st in
      if io_relative opts then
        foldl (λ st depth,
          implied_push_rule (SLASH :: join_slash (take depth segments) ++ [SLASH]) st)
          st (seq 1 (length segments - 1))
      else st in
  if io_recurse opts || io_dirs opts then
    let base := if decide (segments = []) then [] else SLASH :: join_slash segments in
    let suffix := if io_recurse opts then [STAR; STAR] else [STAR] in
    implied_push_rule (base ++ SLASH :: suffix) st
  else st.

Definition implied_from_args (opts : ImpliedIncludeOptions) (args : list (list byte))
    : ImpliedIncludes :=
  foldl (add_arg opts) (mkImplied [] []) args.

Definition covers (st : ImpliedIncludes) (path : list byte) (is_dir : bool) : bool :=
  existsb (λ rule, crule_matches rule path is_dir false) (im_rules st).

(** ** Patterns without wildcards *)

Definition literal (s : list byte) : Prop :=
  Forall (λ c, c ≠ STAR ∧ c ≠ QUEST ∧ c ≠ LBRACK ∧ c ≠ BACKSLASH ∧ c ≠ NUL) s.

#[export] Instance literal_dec s : Decision (literal s).
Proof. unfold literal. apply _. Defined.

Lemma literal_not_in s c :
  literal s → c = STAR ∨ c = QUEST ∨ c = LBRACK ∨ c = BACKSLASH ∨ c = NUL → c ∉ s.
Proof. unfold literal. rewrite Forall_forall. intros H Hc Hin. specialize (H c Hin). naive_solver. Qed.

Lemma parse_literal s : literal s → parse_glob s = Some (map GLit s).
Proof.
  induction 1 as [|c s (H1 & H2 & H3 & H4 & H5) Hs IH]; [done|].
  by rewrite parse_glob_cons, !decide_False, IH by done.
Qed.

Lemma glob_match_literal s t : glob_match (map GLit s) t ↔ t = s.
Proof.
  split.
  - revert t. induction s as [|c s IH]; intros t Hm; cbn [map] in Hm; inversion Hm; subst; [done|].
    match goal with H : item_accepts _ _ = true |- _ => apply bool_decide_eq_true in H; subst end.
    f_equal. auto.
  - intros ->. induction s as [|c s IH]; [constructor|]. constructor; [|done].
    by apply bool_decide_eq_true.
Qed.

Lemma glob_matches_literal s t : literal s → glob_matches s t ↔ t = s.
Proof.
  intros Hs. unfold glob_matches, matches_opt. rewrite (parse_literal s Hs).
  rewrite <- glob_match_literal. naive_solver.
Qed.

(** A literal name, and below it anything or one more level. *)
Lemma glob_matches_literal_below s t : literal s →
  glob_matches (s ++ [SLASH; STAR; STAR]) t ↔ ∃ rest, t = s ++ SLASH :: rest.
Proof.
  intros Hs. change (s ++ [SLASH; STAR; STAR]) with (below s).
  rewrite (glob_matches_below s t (map GLit s)) by by apply parse_literal.
  setoid_rewrite (glob_matches_literal s); [|done]. naive_solver.
Qed.

Lemma glob_matches_literal_inside s t : literal s →
  glob_matches (s ++ [SLASH; STAR]) t ↔ ∃ rest, SLASH ∉ rest ∧ t = s ++ SLASH :: rest.
Proof.
  intros Hs. unfold glob_matches, matches_opt.
  rewrite (parse_glob_app s _ (map GLit s) [GLit SLASH; GStar]) by (done || by apply parse_literal).
  split.
  - intros (g & [= <-] & Hm). revert t Hm. induction s as [|c s IH]; intros t Hm; cbn [map app] in Hm.
    + inversion Hm as [|? c ? t' Hc Ht| |]; subst. apply bool_decide_eq_true in Hc. subst c.
      inversion Ht as [|? ? ? ? Hx| u ? t Hu Hn|]; subst; [done|]. inversion Hn; subst.
      rewrite app_nil_r. by exists u.
    + inversion Hm as [|? c' ? t' Hc Ht| |]; subst. apply bool_decide_eq_true in Hc. subst c'.
      inversion Hs; subst. apply IH in Ht as (rest & ? & ->); [|done]. by exists rest.
  - intros (rest & Hr & ->). eexists. split; [done|].
    induction s as [|c s IH]; cbn [map app].
    + constructor; [by apply bool_decide_eq_true|]. rewrite <- (app_nil_r rest).
      constructor; [done|constructor].
    + inversion Hs; subst. constructor; [by apply bool_decide_eq_true|auto].
Qed.

Lemma glob_matches_star_all t : glob_matches [STAR; STAR] t.
Proof.
  eexists. split; [vm_compute; reflexivity|]. rewrite <- (app_nil_r t). constructor. constructor.
Qed.

Lemma glob_matches_star_one t : glob_matches [STAR] t ↔ SLASH ∉ t.
Proof.
  split.
  - intros (g & Hg & Hm). vm_compute in Hg. injection Hg as <-.
    inversion Hm as [|? ? ? ? Hx|u ? t' Hu Ht|]; subst; [done|]. inversion Ht; subst.
    by rewrite app_nil_r.
  - intros Ht. eexists. split; [vm_compute; reflexivity|]. rewrite <- (app_nil_r t).
    by constructor; [|constructor].
Qed.

(** ** The anchored patterns of the set *)

(** A pattern with a leading slash, and no trailing slash or run of stars. *)
Lemma normalise_anchored core : core ≠ [] →
  ends_with [SLASH] core = false → ends_with [SLASH; STAR; STAR; STAR] (SLASH :: core) = false →
  normalise_pattern (SLASH :: core) = (true, false, core).
Proof.
  intros Hne H1 H2. unfold normalise_pattern.
  assert (ends_with [SLASH] (SLASH :: core) = false) as ->.
  { apply not_true_is_false. intros ([|x p] & E)%ends_with_true; simplify_eq/=.
    assert (ends_with [SLASH] (p ++ [SLASH]) = true) as Ht by (apply ends_with_true; by exists p).
    congruence. }
  rewrite andb_false_r. rewrite (bool_decide_false (_ = [SLASH])) by naive_solver.
  rewrite H2, andb_false_r. done.
Qed.

Lemma normalise_anchored_dir core : core ≠ [] → 
  ends_with [SLASH; STAR; STAR; STAR] (SLASH :: core) = false →
  normalise_pattern (SLASH :: core ++ [SLASH]) = (true, true, core).
Proof.
  intros Hne H2. unfold normalise_pattern.
  assert (ends_with [SLASH] (SLASH :: core ++ [SLASH]) = true) as ->
    by (apply ends_with_true; by exists (SLASH :: core)).
  rewrite bool_decide_true by (simpl; rewrite length_app; simpl; lia). cbn [andb].
  replace (take (length (SLASH :: core ++ [SLASH]) - 1) (SLASH :: core ++ [SLASH])) with (SLASH :: core).
  2: { cbn [length]. rewrite length_app. cbn [length].
       replace (S (length core + 1) - 1)%nat with (length (SLASH :: core)) by (simpl; lia).
       change (SLASH :: core ++ [SLASH]) with ((SLASH :: core) ++ [SLASH]).
       by rewrite take_app_length. }
  rewrite H2, andb_false_r. done.
Qed.

Lemma implied_rule_matches pattern core dir_only path is_dir :
  normalise_pattern pattern = (true, dir_only, core) → LBRACK ∉ core → NUL ∉ core → NUL ∉ path →
  crule_matches (crule_new (rule_include pattern)) path is_dir false = true ↔
  glob_matches core (from_utf8_lossy path) ∧ (dir_only = true → is_dir = true).
Proof.
  intros Hn Hb Hp Ht. unfold crule_matches.
  destruct (crule_new_matchers (rule_include pattern) true dir_only core Hn) as (-> & _).
  cbn [fr_negate rule_include].
  rewrite (pattern_matches_written (rule_include pattern) true dir_only core) by (done || by left).
  unfold stands_for, subject. cbn [negb andb]. naive_solver.
Qed.

Lemma ends_with_in suffix s c : ends_with suffix s = true → c ∈ suffix → c ∈ s.
Proof. intros [p ->]%ends_with_true. set_solver. Qed.

(** A name that is made of segments. *)
Definition good_segments (segs : list (list byte)) : Prop :=
  Forall (λ s, s ≠ [] ∧ SLASH ∉ s ∧ literal s) segs.

Lemma join_literal segs : good_segments segs → literal (join_slash segs).
Proof.
  induction 1 as [|s segs (H1 & H2 & H3) Hs IH]; [constructor|]. cbn [join_slash].
  destruct segs; [done|]. apply Forall_app. split; [done|]. by constructor.
Qed.

Lemma join_nonempty segs : good_segments segs → segs ≠ [] → join_slash segs ≠ [].
Proof.
  intros Hs Hne. destruct segs as [|s segs]; [done|]. inversion Hs as [|? ? (H1 & _) _]; subst.
  cbn [join_slash]. destruct segs; [done|]. by destruct s.
Qed.

Lemma join_last segs : good_segments segs → ends_with [SLASH] (join_slash segs) = false.
Proof.
  induction 1 as [|s segs (H1 & H2 & H3) Hs IH]; [done|]. cbn [join_slash].
  destruct segs as [|s2 segs].
  - apply not_true_is_false. intros H. apply H2. eapply ends_with_in; [done|set_solver].
  - apply not_true_is_false. intros [p E]%ends_with_true.
    set (r := join_slash (s2 :: segs)) in *.
    assert (r ≠ []) as Hr by by apply join_nonempty.
    destruct (exists_last Hr) as (r' & x & Er). rewrite Er in E.
    rewrite app_comm_cons, app_assoc in E. apply app_inj_tail in E as [_ ->].
    apply (eq_true_false_abs _) in IH; [done|]. apply ends_with_true. by exists r'.
Qed.

(** What each pattern of an argument matches. *)
Section Patterns.
Context (segs : list (list byte)) (Hs : good_segments segs).
Local Notation name := (join_slash segs).

Lemma name_plain c : c = STAR ∨ c = QUEST ∨ c = LBRACK ∨ c = BACKSLASH ∨ c = NUL → c ∉ name.
Proof using Hs. intros H. apply literal_not_in; [by apply join_literal|exact H]. Qed.

Lemma no_star_suffix : ends_with [SLASH; STAR; STAR; STAR] (SLASH :: name) = false.
Proof using Hs.
  apply not_true_is_false. intros H.
  assert (STAR ∈ SLASH :: name) as Hin by (eapply ends_with_in; [done|set_solver]).
  apply elem_of_cons in Hin as [|Hin]; [done|]. revert Hin. apply name_plain. auto.
Qed.

Context (path : list byte) (Hp : NUL ∉ path).
Local Notation shown := (from_utf8_lossy path).

Lemma base_matches is_dir : segs ≠ [] →
  crule_matches (crule_new (rule_include (SLASH :: name))) path is_dir false = true ↔ shown = name.
Proof using Hs Hp.
  intros Hne. rewrite (implied_rule_matches _ name false).
  - rewrite glob_matches_literal by by apply join_literal. naive_solver.
  - apply normalise_anchored; [by apply join_nonempty|by apply join_last|apply no_star_suffix].
  - apply name_plain. auto.
  - apply name_plain. auto 6.
  - done.
Qed.

Lemma parent_matches is_dir : segs ≠ [] →
  crule_matches (crule_new (rule_include (SLASH :: name ++ [SLASH]))) path is_dir false = true ↔
  shown = name ∧ is_dir = true.
Proof using Hs Hp.
  intros Hne. rewrite (implied_rule_matches _ name true).
  - rewrite glob_matches_literal by by apply join_literal. naive_solver.
  - apply normalise_anchored_dir; [by apply join_nonempty|apply no_star_suffix].
  - pose proof (name_plain LBRACK). set_solver.
  - pose proof (name_plain NUL). set_solver.
  - done.
Qed.

Definition below_base : list byte := if decide (segs = []) then [] else SLASH :: name.

Lemma recurse_matches is_dir :
  crule_matches (crule_new (rule_include (below_base ++ [SLASH; STAR; STAR]))) path is_dir false
    = true ↔ segs = [] ∨ ∃ rest, shown = name ++ SLASH :: rest.
Proof using Hs Hp.
  unfold below_base. destruct (decide (segs = [])) as [->|Hne].
  - rewrite (implied_rule_matches _ [STAR; STAR] false);
      [|by vm_compute|apply (bool_decide_unpack _); by vm_compute..|done].
    split; [by left|]. intros _. split; [apply glob_matches_star_all|done].
  - cbn [app]. rewrite (implied_rule_matches _ (name ++ [SLASH; STAR; STAR]) false).
    + rewrite glob_matches_literal_below by by apply join_literal. naive_solver.
    + apply normalise_anchored; [by destruct (join_slash segs)| |].
      * change ([SLASH; STAR; STAR]) with ([SLASH; STAR] ++ [STAR]). rewrite app_assoc.
        by apply ends_with_same_length.
      * pose proof (join_nonempty segs Hs Hne). destruct (exists_last H) as (n' & x & ->).
        rewrite <- app_assoc, app_comm_cons. by apply ends_with_same_length.
    + pose proof (name_plain LBRACK). set_solver.
    + pose proof (name_plain NUL). set_solver.
    + done.
Qed.

Lemma dirs_matches is_dir :
  crule_matches (crule_new (rule_include (below_base ++ [SLASH; STAR]))) path is_dir false
    = true ↔ ∃ rest, SLASH ∉ rest ∧ shown = (if decide (segs = []) then rest else name ++ SLASH :: rest).
Proof using Hs Hp.
  unfold below_base. destruct (decide (segs = [])) as [->|Hne].
  - rewrite (implied_rule_matches _ [STAR] false);
      [|by vm_compute|apply (bool_decide_unpack _); by vm_compute..|done].
    rewrite glob_matches_star_one. naive_solver.
  - cbn [app]. rewrite (implied_rule_matches _ (name ++ [SLASH; STAR]) false).
    + rewrite glob_matches_literal_inside by by apply join_literal. naive_solver.
    + apply normalise_anchored; [by destruct (join_slash segs)| |].
      * change ([SLASH; STAR]) with ([SLASH] ++ [STAR]). rewrite app_assoc.
        by apply ends_with_same_length.
      * apply not_true_is_false. intros [p E]%ends_with_true.
        change [SLASH; STAR; STAR; STAR] with ([SLASH; STAR] ++ [STAR; STAR]) in E.
        rewrite app_comm_cons, app_assoc in E. by apply app_inj_2 in E as [_ ?].
    + pose proof (name_plain LBRACK). set_solver.
    + pose proof (name_plain NUL). set_solver.
    + done.
Qed.
End Patterns.

(** ** The patterns in the set *)

Definition implied_inv (st : ImpliedIncludes) : Prop :=
  im_rules st = map (λ p, crule_new (rule_include p)) (rev (im_seen st)).

Lemma push_new_inv q st : implied_inv st →
  implied_inv (push_new q st) ∧ ∀ p, p ∈ im_seen (push_new q st) ↔ p = q ∨ p ∈ im_seen st.
Proof.
  unfold implied_inv, push_new. intros Hi. case_decide; [set_solver|]. cbn [im_rules im_seen rev].
  rewrite map_app, Hi. split; [done|]. set_solver.
Qed.

Lemma elb_loop_unchanged fuel bs i cut changed out : LBRACK ∉ bs →
  (elb_loop fuel bs i cut changed out).1.2 = changed.
Proof.
  intros Hb. revert i. induction fuel as [|fuel IH]; intros i; [done|]. cbn [elb_loop].
  destruct (decide (i < length bs)%nat); [|done]. destruct (decide (_ ∧ _)); [done|].
  rewrite decide_False; [done|]. intros E. apply Hb. rewrite <- E. by apply at_elem.
Qed.

Lemma implied_push_inv q st : LBRACK ∉ q → implied_inv st →
  implied_inv (implied_push_rule q st) ∧
  ∀ p, p ∈ im_seen (implied_push_rule q st) ↔ p = q ∨ p ∈ im_seen st.
Proof.
  intros Hb Hi. unfold implied_push_rule, escape_live_brackets.
  pose proof (elb_loop_unchanged (S (length q)) q 0 0 false [] Hb) as Hc.
  destruct (elb_loop _ _ _ _ _ _) as [[cut ?] out]. cbn in Hc. subst. by apply push_new_inv.
Qed.

Lemma covers_seen st path is_dir : implied_inv st →
  covers st path is_dir = true ↔
  ∃ p, p ∈ im_seen st ∧ crule_matches (crule_new (rule_include p)) path is_dir false = true.
Proof.
  unfold covers. intros ->. rewrite existsb_exists. split.
  - intros (r & Hr & Hm). apply in_map_iff in Hr as (p & <- & Hp). exists p.
    split; [|done]. apply in_rev in Hp. by apply list_elem_of_In.
  - intros (p & Hp & Hm). eexists. split; [|done]. apply in_map_iff. exists p. split; [done|].
    apply in_rev. rewrite rev_involutive. by apply list_elem_of_In.
Qed.

(** The pieces of an argument. *)
Lemma split_slash_go_elem cur s piece : piece ∈ split_slash_go cur s → SLASH ∉ cur →
  SLASH ∉ piece ∧ ∀ c, c ∈ piece → c ∈ cur ∨ c ∈ s.
Proof.
  revert cur piece. induction s as [|c s IH]; intros cur piece; cbn [split_slash_go].
  - intros ->%list_elem_of_singleton Hc. split; [|intros d]; rewrite elem_of_reverse; auto.
  - case_decide as Hs; intros Hin Hc.
    + apply elem_of_cons in Hin as [->|Hin].
      * split; [by rewrite elem_of_reverse|]. intros d. rewrite elem_of_reverse. auto.
      * apply IH in Hin as [H1 H2]; [|set_solver]. split; [done|]. intros d Hd.
        destruct (H2 d Hd); set_solver.
    + apply IH in Hin as [H1 H2]; [|set_solver]. split; [done|]. intros d Hd.
      destruct (H2 d Hd); set_solver.
Qed.

Lemma after_first_slash_elem s r : after_first_slash s = Some r → r ⊆ s.
Proof. induction s as [|c s IH]; [done|]. cbn. case_decide; intros; simplify_eq; set_solver. Qed.

Lemma after_last_slash_elem s r : after_last_slash s = Some r → r ⊆ s.
Proof.
  revert r. induction s as [|c s IH]; intros r; [done|]. cbn.
  destruct (after_last_slash s); [intros [= <-]; set_solver|]. case_decide; intros; simplify_eq. set_solver.
Qed.

Lemma after_pivot_elem s r : after_pivot s = Some r → r ⊆ s.
Proof.
  induction s as [|c s IH]; [done|]. cbn [after_pivot].
  case_decide; [intros [= <-]|set_solver]. intros x Hx.
  rewrite <- (take_drop 3 (c :: s)). set_solver.
Qed.

Lemma arg_segments_good opts arg : literal arg → good_segments (arg_segments opts arg).
Proof.
  unfold arg_segments, good_segments, literal. intros Hl. rewrite Forall_forall in Hl.
  set (a1 := if io_skip_daemon_module opts then _ else arg).
  assert (a1 ⊆ arg) as H1.
  { unfold a1. destruct (io_skip_daemon_module opts); [|done].
    destruct (after_first_slash arg) eqn:E; [by apply after_first_slash_elem|set_solver]. }
  set (a2 := if io_relative opts then _ else _).
  assert (a2 ⊆ arg) as H2.
  { unfold a2. destruct (io_relative opts).
    - destruct (after_pivot a1) eqn:E; [|done]. apply after_pivot_elem in E. cbn. set_solver.
    - destruct (after_last_slash a1) eqn:E; [|done]. apply after_last_slash_elem in E. cbn. set_solver. }
  set (a3 := if decide (a2 = DOT) then [] else a2).
  assert (a3 ⊆ arg) as H3 by (unfold a3; case_decide; set_solver).
  apply Forall_forall. intros seg Hseg. apply list_elem_of_In in Hseg.
  apply filter_In in Hseg as [Hin Hf]. apply list_elem_of_In in Hin.
  apply split_slash_go_elem in Hin as [Hs Hc]; [|set_solver].
  apply andb_prop in Hf as [Hne _]. apply negb_true_iff, bool_decide_eq_false in Hne.
  split_and!; [done..|]. apply Forall_forall. intros c Hcin. apply Hl.
  destruct (Hc c Hcin); [set_solver|auto].
Qed.

(** The patterns an argument adds. *)
Definition arg_pattern (opts : ImpliedIncludeOptions) (segs : list (list byte)) (p : list byte)
    : Prop :=
  (segs ≠ [] ∧ p = SLASH :: join_slash segs) ∨
  (io_relative opts = true ∧
    ∃ d, (1 ≤ d < length segs)%nat ∧ p = SLASH :: join_slash (take d segs) ++ [SLASH]) ∨
  (io_recurse opts || io_dirs opts = true ∧
    p = below_base segs ++ SLASH :: (if io_recurse opts then [STAR; STAR] else [STAR])).

Lemma implied_push_list qs (f : nat → list byte) st : (∀ d, d ∈ qs → LBRACK ∉ f d) →
  implied_inv st →
  let st' := foldl (λ st d, implied_push_rule (f d) st) st qs in
  implied_inv st' ∧ ∀ p, p ∈ im_seen st' ↔ (∃ d, d ∈ qs ∧ p = f d) ∨ p ∈ im_seen st.
Proof.
  revert st. induction qs as [|d qs IH]; intros st Hb Hi; cbn [foldl].
  - split; [done|]. set_solver.
  - destruct (implied_push_inv (f d) st) as [Hi' Hs]; [set_solver|done|].
    destruct (IH (implied_push_rule (f d) st)) as [Hi2 Hs2]; [set_solver|done|].
    split; [done|]. intros p. rewrite Hs2, Hs. set_solver.
Qed.

Lemma add_arg_inv opts st arg : literal arg → implied_inv st →
  implied_inv (add_arg opts st arg) ∧
  ∀ p, p ∈ im_seen (add_arg opts st arg) ↔
    arg_pattern opts (arg_segments opts arg) p ∨ p ∈ im_seen st.
Proof.
  intros Hl Hi. pose proof (arg_segments_good opts arg Hl) as Hg. unfold add_arg.
  set (segs := arg_segments opts arg) in *. clearbody segs. unfold arg_pattern.
  assert (∀ d, good_segments (take d segs)) as Hgt by (intros; by apply Forall_take).
  assert (∀ d, LBRACK ∉ join_slash (take d segs)) as Hbt
    by (intros d; apply literal_not_in; [by apply join_literal|auto]).
  assert (LBRACK ∉ join_slash segs) as Hb by (apply literal_not_in; [by apply join_literal|auto]).
  set (st1 := if decide (segs = []) then st else _).
  assert (implied_inv st1 ∧ ∀ p, p ∈ im_seen st1 ↔
    (segs ≠ [] ∧ p = SLASH :: join_slash segs) ∨
    (io_relative opts = true ∧
      ∃ d, (1 ≤ d < length segs)%nat ∧ p = SLASH :: join_slash (take d segs) ++ [SLASH]) ∨
    p ∈ im_seen st) as [Hi1 Hs1].
  { unfold st1. destruct (decide (segs = [])) as [->|Hne].
    { split; [done|]. cbn [length]. intros p. split; [auto|]. intros [[]|[(_ & d & ? & _)|]]; [done|lia|done]. }
    destruct (implied_push_inv (SLASH :: join_slash segs) st) as [Hi' Hs']; [set_solver|done|].
    destruct (io_relative opts); [|split; [done|]; intros p; rewrite Hs'; naive_solver].
    destruct (implied_push_list (seq 1 (length segs - 1))
      (λ d, SLASH :: join_slash (take d segs) ++ [SLASH])
      (implied_push_rule (SLASH :: join_slash segs) st)) as [Hi2 Hs2]; [set_solver|done|].
    split; [done|]. intros p. rewrite Hs2, Hs'. setoid_rewrite elem_of_seq.
    assert (∀ d, (1 ≤ d < 1 + (length segs - 1))%nat ↔ (1 ≤ d < length segs)%nat) as Hd.
    { intros d. destruct segs; [done|]. cbn [length]. lia. }
    setoid_rewrite Hd. naive_solver. }
  clearbody st1. destruct (io_recurse opts || io_dirs opts).
  - fold (below_base segs).
    destruct (implied_push_inv
      (below_base segs ++ SLASH :: (if io_recurse opts then [STAR; STAR] else [STAR])) st1)
      as [Hi2 Hs2]; [|done|].
    { unfold below_base. repeat case_match; set_solver. }
    split; [done|]. intros p. rewrite Hs2, Hs1. naive_solver.
  - split; [done|]. intros p. rewrite Hs1. naive_solver.
Qed.

(** ** What an argument names *)

(** Empty components and dots count for nothing. *)
Definition component (s : list byte) : list (list byte) :=
  if decide (s = [] ∨ s = DOT) then [] else [s].

(** The components of a path. *)
Inductive spells_out : list byte → list (list byte) → Prop :=
| so_last s : SLASH ∉ s → spells_out s (component s)
| so_more s rest comps : SLASH ∉ s → spells_out rest comps →
    spells_out (s ++ SLASH :: rest) (component s ++ comps).

(** The path in a daemon's module. *)
Definition in_module (skip : bool) (arg rest : list byte) : Prop :=
  if skip then ∃ name, SLASH ∉ name ∧ (arg = name ++ SLASH :: rest ∨ arg = name ∧ rest = [])
  else rest = arg.

Definition PIVOT : list byte := bytes "/./".

(** What is behind the first pivot, or everything if there is none. *)
Definition behind_pivot (s tail : list byte) : Prop :=
  (∃ before, s = before ++ PIVOT ++ tail ∧ ∀ p q, s = p ++ PIVOT ++ q → (length before ≤ length p)%nat) ∨
  (tail = s ∧ ∀ p q, s ≠ p ++ PIVOT ++ q).

(** What is behind the last slash, or everything if there is none. *)
Definition behind_slash (s base : list byte) : Prop :=
  SLASH ∉ base ∧ (s = base ∨ ∃ dir, s = dir ++ SLASH :: base).

(** The name, as its components, under which an argument is sent. *)
Definition sent_as (opts : ImpliedIncludeOptions) (arg : list byte) (comps : list (list byte)) : Prop :=
  ∃ path name, in_module (io_skip_daemon_module opts) arg path ∧
    (if io_relative opts then behind_pivot path name else behind_slash path name) ∧ spells_out name comps.

Lemma first_slash s : SLASH ∉ s ∨ ∃ c r, SLASH ∉ c ∧ s = c ++ SLASH :: r.
Proof.
  induction s as [|b s IH]; [left; set_solver|]. destruct (decide (b = SLASH)) as [->|Hb].
  - right. exists [], s. set_solver.
  - destruct IH as [H|(c & r & Hc & ->)]; [left; set_solver|right]. exists (b :: c), r. set_solver.
Qed.

Lemma after_first_slash_spec arg rest : in_module true arg rest ↔ rest = default [] (after_first_slash arg).
Proof.
  assert (Hno : ∀ c, SLASH ∉ c → after_first_slash c = None).
  { induction c as [|b c IH]; [done|]. intros [Hb Hc]%not_elem_of_cons. cbn. by rewrite decide_False, IH by done. }
  assert (Hyes : ∀ c r, SLASH ∉ c → after_first_slash (c ++ SLASH :: r) = Some r).
  { induction c as [|b c IH]; intros r; [done|]. intros [Hb Hc]%not_elem_of_cons. cbn. by rewrite decide_False, IH by done. }
  unfold in_module. split.
  - intros (c & Hc & [->|[-> ->]]); [by rewrite Hyes|by rewrite Hno].
  - intros ->. destruct (first_slash arg) as [H|(c & r & Hc & ->)].
    + exists arg. rewrite Hno by done. auto.
    + exists c. rewrite Hyes by done. auto.
Qed.

Lemma after_last_slash_spec s base : behind_slash s base ↔ base = default s (after_last_slash s).
Proof.
  assert (Hno : ∀ c, SLASH ∉ c → after_last_slash c = None).
  { induction c as [|b c IH]; [done|]. intros [Hb Hc]%not_elem_of_cons. cbn. by rewrite IH, decide_False by done. }
  assert (Hyes : ∀ dir c, SLASH ∉ c → after_last_slash (dir ++ SLASH :: c) = Some c).
  { induction dir as [|b dir IH]; intros c Hc; cbn; [by rewrite Hno|by rewrite IH]. }
  unfold behind_slash. split.
  - intros (Hb & [->|(dir & ->)]); [by rewrite Hno|by rewrite Hyes].
  - intros ->. induction s as [|b s IH]; [set_solver|]. cbn. destruct (after_last_slash s) as [r|] eqn:E; cbn in IH |- *.
    + destruct IH as (Hr & [->|(dir & ->)]); (split; [done|right]); [by rewrite Hno in E|by exists (b :: dir)].
    + destruct IH as [Hs _]. case_decide as Hb; [subst; split; [done|right; by exists []]|].
      split; [set_solver|by left].
Qed.

Lemma after_pivot_spec s tail : behind_pivot s tail ↔ tail = default s (after_pivot s).
Proof.
  assert (Hsome : ∀ s t, after_pivot s = Some t → ∃ before, s = before ++ PIVOT ++ t ∧
    ∀ p q, s = p ++ PIVOT ++ q → (length before ≤ length p)%nat).
  { clear. induction s as [|c s IH]; intros t; [done|]. cbn [after_pivot]. case_decide as Hc.
    - intros [= <-]. exists []. split; [|cbn; lia]. rewrite <-(take_drop 3 (c :: s)) at 1. by rewrite Hc.
    - intros (before & -> & Hmin)%IH. exists (c :: before). split; [done|]. intros [|d p] q E.
      + exfalso. apply Hc. by rewrite E.
      + injection E as _ E. cbn [length]. apply Hmin in E. lia. }
  assert (Hnone : ∀ s, after_pivot s = None → ∀ p q, s ≠ p ++ PIVOT ++ q).
  { clear. induction s as [|c s IH]; [by intros _ [|? ?] ?|]. cbn [after_pivot]. case_decide as Hc; [done|].
    intros H [|d p] q E; [apply Hc; by rewrite E|]. injection E as _ E. by apply (IH H p q). }
  unfold behind_pivot. destruct (after_pivot s) as [t|] eqn:E; cbn [default].
  - destruct (Hsome s t E) as (before & Hs & Hmin). split.
    + intros [(b2 & Hs2 & Hmin2)|[_ Hno]]; [|by destruct (Hno before t)].
      pose proof (Hmin _ _ Hs2). pose proof (Hmin2 _ _ Hs). rewrite Hs in Hs2.
      apply app_inj_1 in Hs2 as [_ Hs2]; [|lia]. by apply app_inv_head in Hs2.
    + intros ->. left. eauto.
  - pose proof (Hnone s E) as Hno. split; [intros [(b & Hs & _)|[-> _]]; [by destruct (Hno b tail)|done]|].
    intros ->. by right.
Qed.

Lemma spells_out_split s comps :
  spells_out s comps ↔
  comps = List.filter (λ seg, negb (bool_decide (seg = [])) && negb (bool_decide (seg = DOT))) (split_slash s).
Proof.
  set (keep := λ seg : list byte, _).
  assert (Hk : ∀ c l, List.filter keep (c :: l) = component c ++ List.filter keep l).
  { intros c l. unfold keep, component. cbn [List.filter].
    repeat case_bool_decide; repeat case_decide; naive_solver. }
  split.
  - induction 1 as [s Hs|s rest comps Hs _ ->].
    + rewrite <-(app_nil_r s) at 2. rewrite split_slash_component, Hk by auto. by rewrite app_nil_r.
    + rewrite split_slash_component, Hk by eauto. done.
  - intros ->. remember (length s) as n eqn:Hn. revert s Hn. induction (lt_wf n) as [n _ IH]. intros s ->.
    destruct (first_slash s) as [Hs|(c & r & Hc & ->)].
    + rewrite <-(app_nil_r s) at 2. rewrite split_slash_component, Hk by auto. rewrite app_nil_r. by constructor.
    + rewrite split_slash_component, Hk by eauto. constructor; [done|]. eapply IH; [|done].
      rewrite length_app. cbn. lia.
Qed.

Lemma sent_as_segments opts arg comps : sent_as opts arg comps ↔ comps = arg_segments opts arg.
Proof.
  assert (Hdot : ∀ s : list byte, List.filter (λ seg, negb (bool_decide (seg = [])) && negb (bool_decide (seg = DOT)))
    (split_slash (if decide (s = DOT) then [] else s)) =
    List.filter (λ seg, negb (bool_decide (seg = [])) && negb (bool_decide (seg = DOT))) (split_slash s)).
  { intros s. case_decide; [subst; by vm_compute|done]. }
  assert (Hm : ∀ rest, in_module (io_skip_daemon_module opts) arg rest ↔
    rest = if io_skip_daemon_module opts then default [] (after_first_slash arg) else arg).
  { intros rest. destruct (io_skip_daemon_module opts); [apply after_first_slash_spec|done]. }
  assert (Hp : ∀ s t, (if io_relative opts then behind_pivot s t else behind_slash s t) ↔
    t = if io_relative opts then default s (after_pivot s) else default s (after_last_slash s)).
  { intros s t. destruct (io_relative opts); [apply after_pivot_spec|apply after_last_slash_spec]. }
  unfold sent_as, arg_segments. rewrite Hdot. setoid_rewrite Hm. setoid_rewrite Hp.
  setoid_rewrite spells_out_split. naive_solver.
Qed.

(** ** What is accepted *)

(** The names that are asked for with an argument that is sent under the given components:
    the name itself; with [--relative] the directories above it; what is below it if the
    transfer recurses, or else one level with [--dirs].  An argument without components,
    such as one that ends in a slash, asks for everything (or one level) at the top. *)
Definition requested (opts : ImpliedIncludeOptions) (comps : list (list byte)) (name : list byte)
    (is_dir : bool) : Prop :=
  (comps ≠ [] ∧ name = join_slash comps) ∨
  (io_relative opts = true ∧ is_dir = true ∧
    ∃ d, (1 ≤ d < length comps)%nat ∧ name = join_slash (take d comps)) ∨
  (if io_recurse opts then comps = [] ∨ ∃ rest, name = join_slash comps ++ SLASH :: rest
   else io_dirs opts = true ∧
     ∃ rest, SLASH ∉ rest ∧
       name = if decide (comps = []) then rest else join_slash comps ++ SLASH :: rest).

Lemma arg_pattern_matches opts segs path is_dir : good_segments segs → NUL ∉ path →
  (∃ p, arg_pattern opts segs p ∧
    crule_matches (crule_new (rule_include p)) path is_dir false = true) ↔
  requested opts segs (from_utf8_lossy path) is_dir.
Proof.
  intros Hg Hp. unfold arg_pattern, requested.
  assert (∀ d, (1 ≤ d < length segs)%nat → good_segments (take d segs) ∧ take d segs ≠ []) as Ht.
  { intros d Hd. split; [by apply Forall_take|]. destruct segs, d; done || (simpl in Hd; lia). }
  split.
  - intros (p & [[Hne ->]|[(Hr & d & Hd & ->)|[Ho ->]]] & Hm).
    + left. by rewrite base_matches in Hm.
    + right; left. destruct (Ht d Hd). apply parent_matches in Hm as [-> ->]; [|done..]. eauto.
    + right; right. destruct (io_recurse opts); cbn [orb] in Ho.
      * by apply recurse_matches in Hm.
      * split; [done|]. by apply dirs_matches in Hm.
  - intros [[Hne E]|[(Hr & -> & d & Hd & E)|Hx]].
    + eexists. split; [by left|]. by apply base_matches.
    + destruct (Ht d Hd). eexists. split; [right; left; eauto|]. by apply parent_matches.
    + destruct (io_recurse opts) eqn:Er; cbn [orb].
      * eexists. split; [by right; right|]. by apply recurse_matches.
      * destruct Hx as [-> Hx]. eexists. split; [by right; right|]. by apply dirs_matches.
Qed.


