(* ===== verification/FilterWire.v ===== *)
(** * Filter rules on the wire ([crates/protocol/src/filters/wire.rs], [prefix.rs])

    The list of rules a client sends to a server: each rule as a length and a text of a
    type character, modifiers, a space and the pattern; a length of zero ends the list.
    Protocols before 29 know only [+], [-] and [!], without modifiers.

    [filter_list_roundtrip] says that a list comes back, up to what the format says of a
    rule in two ways ([wire_canon]), for every protocol from 29 on.  Before that the writer
    leaves the prefix of an exclude rule out and the reader insists on it
    ([old_exclude_not_readable]). *)

From stdpp Require Import strings.
From S2P Require Import Prelude Wildmatch Utf8 FilterRule.

(** ** Rules *)

Inductive RuleType :=
| RtInclude | RtExclude | RtClear | RtMerge | RtDirMerge | RtProtect | RtRisk.

#[export] Instance RuleType_eq_dec : EqDecision RuleType.
Proof. solve_decision. Defined.

Definition prefix_char (t : RuleType) : byte :=
  match t with
  | RtInclude => x2b
  | RtExclude => x2d
  | RtClear => x21
  | RtMerge => x2e
  | RtDirMerge => x3a
  | RtProtect => x50
  | RtRisk => x52
  end.

Definition from_prefix_char (c : byte) : option RuleType :=
  match c with
  | x2b => Some RtInclude
  | x2d => Some RtExclude
  | x21 => Some RtClear
  | x2e => Some RtMerge
  | x3a => Some RtDirMerge
  | x50 => Some RtProtect
  | x52 => Some RtRisk
  | _ => None
  end.

Record FilterRuleWireFormat := mkWireRule {
  wr_rule_type : RuleType;
  wr_pattern : list byte;
  wr_anchored : bool;
  wr_directory_only : bool;
  wr_no_inherit : bool;
  wr_cvs_exclude : bool;
  wr_word_split : bool;
  wr_exclude_from_merge : bool;
  wr_xattr_only : bool;
  wr_sender_side : bool;
  wr_receiver_side : bool;
  wr_perishable : bool;
  wr_negate : bool;
  wr_no_prefixes : bool;
  wr_no_prefixes_include : bool;
  wr_cvs_origin : bool;
}.

#[export] Instance FilterRuleWireFormat_eq_dec : EqDecision FilterRuleWireFormat.
Proof. solve_decision. Defined.

Definition wire_rule_of (t : RuleType) : FilterRuleWireFormat :=
  mkWireRule t [] false false false false false false false false false false false false false
    false.

Definition is_merge_type (t : RuleType) : bool :=
  match t with RtMerge | RtDirMerge => true | _ => false end.

(** ** Protocol versions *)

Definition uses_old_prefixes (protocol : Z) : bool := (protocol <? 29)%Z.
Definition supports_sender_receiver_modifiers (protocol : Z) : bool := (29 <=? protocol)%Z.
Definition supports_perishable_modifier (protocol : Z) : bool := (30 <=? protocol)%Z.

(** ** Writing *)

Definition SPACE : byte := x20.

Definition starts_with_bytes (prefix s : list byte) : bool :=
  bool_decide (take (length prefix) s = prefix).

Definition build_old_prefix (rule : FilterRuleWireFormat) : option (list byte) :=
  if bool_decide (wr_rule_type rule = RtDirMerge) then None
  else
    let has_modifiers :=
      wr_anchored rule || wr_negate rule || wr_cvs_exclude rule || wr_no_inherit rule ||
      wr_word_split rule || wr_exclude_from_merge rule || wr_xattr_only rule ||
      wr_sender_side rule || wr_receiver_side rule || wr_perishable rule || wr_no_prefixes rule in
    if has_modifiers then None
    else
      match wr_rule_type rule with
      | RtInclude => Some (bytes "+ ")
      | RtExclude =>
          let pat := wr_pattern rule in
          let needs_prefix :=
            starts_with_bytes (bytes "- ") pat || starts_with_bytes (bytes "+ ") pat in
          if needs_prefix then Some (bytes "- ") else Some []
      | _ => None
      end.

Definition flag (b : bool) (c : byte) : list byte := if b then [c] else [].

Definition build_modern_prefix (rule : FilterRuleWireFormat) (protocol : Z) : list byte :=
  let t := wr_rule_type rule in
  let prefix_char :=
    match t with RtProtect => x2d | RtRisk => x2b | other => prefix_char other end in
  let force_receiver := match t with RtProtect | RtRisk => true | _ => false end in
  [prefix_char] ++
  flag (wr_anchored rule && is_merge_type t) x2f ++
  flag (wr_negate rule) x21 ++
  (if wr_cvs_exclude rule then [x43]
   else
     flag (wr_no_inherit rule) x6e ++
     flag (wr_word_split rule) x77 ++
     flag (wr_no_prefixes rule && is_merge_type t)
       (if wr_no_prefixes_include rule then x2b else x2d)) ++
  flag (wr_exclude_from_merge rule) x65 ++
  flag (wr_xattr_only rule) x78 ++
  (if supports_sender_receiver_modifiers protocol then
     flag (wr_sender_side rule) x73 ++
     flag (wr_receiver_side rule || force_receiver) x72
   else []) ++
  flag (supports_perishable_modifier protocol && wr_perishable rule) x70 ++
  [SPACE].

Definition build_rule_prefix (rule : FilterRuleWireFormat) (protocol : Z) : option (list byte) :=
  if uses_old_prefixes protocol then build_old_prefix rule
  else Some (build_modern_prefix rule protocol).

Definition serialize_rule (rule : FilterRuleWireFormat) (protocol : Z)
    : result io_error (list byte) :=
  match build_rule_prefix rule protocol with
  | None => Err ProtocolViolation
  | Some prefix =>
      let bytes := prefix in
      let bytes :=
        if wr_anchored rule && negb (is_merge_type (wr_rule_type rule)) &&
           negb (starts_with SLASH (wr_pattern rule))
        then bytes ++ [SLASH] else bytes in
      let bytes := bytes ++ wr_pattern rule in
      Ok (if wr_directory_only rule then bytes ++ [SLASH] else bytes)
  end.

(** [value.to_le_bytes()] of an [i32], here of a length cast to one. *)
Definition write_i32_le (value : Z) : list byte := le_bytes 4 value.

(** The bytes written when no rule is refused. *)
Fixpoint write_filter_list (rules : list FilterRuleWireFormat) (protocol : Z)
    : result io_error (list byte) :=
  match rules with
  | [] => Ok (write_i32_le 0)
  | rule :: rules' =>
      match serialize_rule rule protocol with
      | Err e => Err e
      | Ok bytes =>
          match write_filter_list rules' protocol with
          | Err e => Err e
          | Ok rest => Ok (write_i32_le (Z.of_nat (length bytes)) ++ bytes ++ rest)
          end
      end
  end.

(** ** Reading *)

(** [strip_suffix('/')] into the directory flag. *)
Definition set_pattern (rule : FilterRuleWireFormat) (text : list byte) : FilterRuleWireFormat :=
  let '(dir, pat) :=
    if ends_with [SLASH] text then (true, take (length text - 1) text)
    else (wr_directory_only rule, text) in
  mkWireRule (wr_rule_type rule) pat (wr_anchored rule) dir (wr_no_inherit rule)
    (wr_cvs_exclude rule) (wr_word_split rule) (wr_exclude_from_merge rule) (wr_xattr_only rule)
    (wr_sender_side rule) (wr_receiver_side rule) (wr_perishable rule) (wr_negate rule)
    (wr_no_prefixes rule) (wr_no_prefixes_include rule) (wr_cvs_origin rule).

Definition parse_wire_rule_old_prefix (text : list byte) : result io_error FilterRuleWireFormat :=
  if decide (text = [x21]) then Ok (wire_rule_of RtClear)
  else if starts_with_bytes (bytes "- ") text then
    Ok (set_pattern (wire_rule_of RtExclude) (drop 2 text))
  else if starts_with_bytes (bytes "+ ") text then
    Ok (set_pattern (wire_rule_of RtInclude) (drop 2 text))
  else Err InvalidData.

(** The record updates of the modifier loop. *)
Definition upd_anchored (r : FilterRuleWireFormat) : FilterRuleWireFormat :=
  mkWireRule (wr_rule_type r) (wr_pattern r) true (wr_directory_only r) (wr_no_inherit r)
    (wr_cvs_exclude r) (wr_word_split r) (wr_exclude_from_merge r) (wr_xattr_only r)
    (wr_sender_side r) (wr_receiver_side r) (wr_perishable r) (wr_negate r) (wr_no_prefixes r)
    (wr_no_prefixes_include r) (wr_cvs_origin r).
Definition upd_no_prefixes (include : bool) (r : FilterRuleWireFormat) : FilterRuleWireFormat :=
  mkWireRule (wr_rule_type r) (wr_pattern r) (wr_anchored r) (wr_directory_only r)
    (wr_no_inherit r) (wr_cvs_exclude r) (wr_word_split r) (wr_exclude_from_merge r)
    (wr_xattr_only r) (wr_sender_side r) (wr_receiver_side r) (wr_perishable r) (wr_negate r) true
    (if include then true else wr_no_prefixes_include r) (wr_cvs_origin r).
(** The flags that are set by one letter: [n], [C], [w], [e], [x], [s], [r], [p] and [!]. *)
Definition upd_flag (n c w e x s v p neg : bool) (r : FilterRuleWireFormat)
    : FilterRuleWireFormat :=
  mkWireRule (wr_rule_type r) (wr_pattern r) (wr_anchored r) (wr_directory_only r)
    (n || wr_no_inherit r) (c || wr_cvs_exclude r) (w || wr_word_split r)
    (e || wr_exclude_from_merge r) (x || wr_xattr_only r) (s || wr_sender_side r)
    (v || wr_receiver_side r) (p || wr_perishable r) (neg || wr_negate r) (wr_no_prefixes r)
    (wr_no_prefixes_include r) (wr_cvs_origin r).

(** The modifier loop: the rule and the text from [pattern_start] on.  [first] is
    [i == 0]. *)
Fixpoint modifier_loop (protocol : Z) (first : bool) (rule : FilterRuleWireFormat)
    (text : list byte) : FilterRuleWireFormat * list byte :=
  match text with
  | [] => (rule, [])
  | c :: text' =>
      let next := λ r, modifier_loop protocol false r text' in
      match c with
      | x2f => if first then next (upd_anchored rule) else (rule, text)
      | x21 => next (upd_flag false false false false false false false false true rule)
      | x43 => next (upd_flag false true false false false false false false false rule)
      | x6e => next (upd_flag true false false false false false false false false rule)
      | x77 => next (upd_flag false false true false false false false false false rule)
      | x65 => next (upd_flag false false false true false false false false false rule)
      | x78 => next (upd_flag false false false false true false false false false rule)
      | x2d => if is_merge_type (wr_rule_type rule) then next (upd_no_prefixes false rule)
               else (rule, text)
      | x2b => if is_merge_type (wr_rule_type rule) then next (upd_no_prefixes true rule)
               else (rule, text)
      | x73 => if supports_sender_receiver_modifiers protocol
               then next (upd_flag false false false false false true false false false rule)
               else (rule, text)
      | x72 => if supports_sender_receiver_modifiers protocol
               then next (upd_flag false false false false false false true false false rule)
               else (rule, text)
      | x70 => if supports_perishable_modifier protocol
               then next (upd_flag false false false false false false false true false rule)
               else (rule, text)
      | x20 => (rule, text')
      | _ => (rule, text)
      end
  end.

Definition parse_wire_rule_modern (text : list byte) (protocol : Z)
    : result io_error FilterRuleWireFormat :=
  match text with
  | [] => Err InvalidData
  | first :: chars =>
      match from_prefix_char first with
      | None => Err InvalidData
      | Some rule_type =>
          let '(rule, pattern_text) :=
            modifier_loop protocol true (wire_rule_of rule_type) chars in
          let '(rule, pattern_text) :=
            if negb (wr_anchored rule) && negb (is_merge_type (wr_rule_type rule)) &&
               bool_decide (1 < length pattern_text)%nat && starts_with SLASH pattern_text
            then (upd_anchored rule, drop 1 pattern_text) else (rule, pattern_text) in
          Ok (set_pattern rule pattern_text)
      end
  end.

Definition parse_wire_rule (buf : list byte) (protocol : Z)
    : result io_error FilterRuleWireFormat :=
  if decide (buf = []) then Err InvalidData
  else if negb (valid_utf8 buf) then Err InvalidData
  else if uses_old_prefixes protocol then parse_wire_rule_old_prefix buf
  else parse_wire_rule_modern buf protocol.

Definition read_i32_le : parser Z := buf ← read_exact 4; mret (i32_from_le buf).

(** The loop of [read_filter_list]; every turn reads at least four bytes. *)
Fixpoint read_rules_loop (fuel : nat) (protocol : Z) : parser (list FilterRuleWireFormat) :=
  match fuel with
  | O => fail OtherError
  | S fuel' =>
      len ← read_i32_le;
      if decide (len = 0)%Z then mret []
      else if decide (len < 0)%Z then fail InvalidData
      else
        buf ← read_exact (Z.to_nat len);
        match parse_wire_rule buf protocol with
        | Err e => fail e
        | Ok rule => rules ← read_rules_loop fuel' protocol; mret (rule :: rules)
        end
  end.

Definition read_filter_list (protocol : Z) : parser (list FilterRuleWireFormat) :=
  λ s, read_rules_loop (S (length s)) protocol s.

(** ** What the format keeps of a rule *)

Definition force_receiver (t : RuleType) : bool :=
  match t with RtProtect | RtRisk => true | _ => false end.

Definition wire_type (t : RuleType) : RuleType :=
  match t with RtProtect => RtExclude | RtRisk => RtInclude | other => other end.

(** Protect and risk rules are exclude and include rules for the receiver; the flags that
    the CVS flag implies, and flags that are for merge files only, are not sent. *)
Definition wire_canon (protocol : Z) (r : FilterRuleWireFormat) : FilterRuleWireFormat :=
  let t := wr_rule_type r in
  let merge := is_merge_type t && negb (wr_cvs_exclude r) in
  mkWireRule (wire_type t) (wr_pattern r) (wr_anchored r) (wr_directory_only r)
    (wr_no_inherit r && negb (wr_cvs_exclude r)) (wr_cvs_exclude r)
    (wr_word_split r && negb (wr_cvs_exclude r)) (wr_exclude_from_merge r) (wr_xattr_only r)
    (wr_sender_side r) (wr_receiver_side r || force_receiver t)
    (wr_perishable r && supports_perishable_modifier protocol) (wr_negate r)
    (wr_no_prefixes r && merge) (wr_no_prefixes_include r && wr_no_prefixes r && merge) false.

(** A rule whose pattern has no slash that a flag stands for, and that is a string. *)
Record wire_rule_ok (r : FilterRuleWireFormat) : Prop := {
  wro_utf8 : valid_utf8 (wr_pattern r) = true;
  wro_end : ends_with [SLASH] (wr_pattern r) = false;
  wro_start : is_merge_type (wr_rule_type r) = false → starts_with SLASH (wr_pattern r) = false;
  wro_empty : is_merge_type (wr_rule_type r) = false → wr_anchored r = true →
    wr_pattern r = [] → wr_directory_only r = true;
  wro_length : (Z.of_nat (length (wr_pattern r)) < 2 ^ 30)%Z;
}.

(** ** The modifiers are read back *)

Section Modifiers.
Context (protocol : Z) (r : FilterRuleWireFormat) (f b : bool) (rest : list byte).

Lemma loop_negate : modifier_loop protocol f r (flag b x21 ++ rest) =
  modifier_loop protocol (f && negb b) (upd_flag false false false false false false false false b r) rest.
Proof. destruct b, f, r; done. Qed.

Lemma loop_cvs : modifier_loop protocol f r (x43 :: rest) =
  modifier_loop protocol false (upd_flag false true false false false false false false false r) rest.
Proof. done. Qed.

Lemma loop_no_inherit : modifier_loop protocol f r (flag b x6e ++ rest) =
  modifier_loop protocol (f && negb b) (upd_flag b false false false false false false false false r) rest.
Proof. destruct b, f, r; done. Qed.

Lemma loop_word_split : modifier_loop protocol f r (flag b x77 ++ rest) =
  modifier_loop protocol (f && negb b) (upd_flag false false b false false false false false false r) rest.
Proof. destruct b, f, r; done. Qed.

Lemma loop_exclude_from_merge : modifier_loop protocol f r (flag b x65 ++ rest) =
  modifier_loop protocol (f && negb b) (upd_flag false false false b false false false false false r) rest.
Proof. destruct b, f, r; done. Qed.

Lemma loop_xattr : modifier_loop protocol f r (flag b x78 ++ rest) =
  modifier_loop protocol (f && negb b) (upd_flag false false false false b false false false false r) rest.
Proof. destruct b, f, r; done. Qed.

Lemma loop_sender : supports_sender_receiver_modifiers protocol = true →
  modifier_loop protocol f r (flag b x73 ++ rest) =
  modifier_loop protocol (f && negb b) (upd_flag false false false false false b false false false r) rest.
Proof. intros Hp. destruct b, f, r; cbn; rewrite ?Hp; done. Qed.

Lemma loop_receiver : supports_sender_receiver_modifiers protocol = true →
  modifier_loop protocol f r (flag b x72 ++ rest) =
  modifier_loop protocol (f && negb b) (upd_flag false false false false false false b false false r) rest.
Proof. intros Hp. destruct b, f, r; cbn; rewrite ?Hp; done. Qed.

Lemma loop_perishable :
  modifier_loop protocol f r (flag (supports_perishable_modifier protocol && b) x70 ++ rest) =
  modifier_loop protocol (f && negb (supports_perishable_modifier protocol && b))
    (upd_flag false false false false false false false (supports_perishable_modifier protocol && b) false r) rest.
Proof. destruct (supports_perishable_modifier protocol) eqn:Hp, b, f, r; cbn; rewrite ?Hp; done. Qed.

(** The modifiers of merge rules. *)
Definition upd_merge (np inc : bool) (r : FilterRuleWireFormat) : FilterRuleWireFormat :=
  if np then upd_no_prefixes inc r else r.

Lemma loop_no_prefixes inc : (b = true → is_merge_type (wr_rule_type r) = true) →
  modifier_loop protocol f r (flag b (if inc : bool then x2b else x2d) ++ rest) =
  modifier_loop protocol (f && negb b) (upd_merge b inc r) rest.
Proof.
  intros Hm. unfold upd_merge. destruct b; [|by rewrite andb_true_r]. rewrite andb_false_r.
  destruct inc; cbn; by rewrite Hm.
Qed.

Lemma loop_anchored : modifier_loop protocol true r (flag b x2f ++ rest) =
  modifier_loop protocol (negb b) (if b then upd_anchored r else r) rest.
Proof. by destruct b. Qed.

Lemma loop_space : modifier_loop protocol f r (SPACE :: rest) = (r, rest).
Proof. done. Qed.
End Modifiers.

(** What the loop has read: the canonical rule without its pattern; an anchor in front of
    the pattern is still to come. *)
Definition wire_flags (protocol : Z) (r : FilterRuleWireFormat) : FilterRuleWireFormat :=
  let c := wire_canon protocol r in
  mkWireRule (wr_rule_type c) [] (wr_anchored r && is_merge_type (wr_rule_type r)) false
    (wr_no_inherit c) (wr_cvs_exclude c) (wr_word_split c) (wr_exclude_from_merge c)
    (wr_xattr_only c) (wr_sender_side c) (wr_receiver_side c) (wr_perishable c) (wr_negate c)
    (wr_no_prefixes c) (wr_no_prefixes_include c) false.

Lemma wire_rule_ext a b :
  wr_rule_type a = wr_rule_type b → wr_pattern a = wr_pattern b →
  wr_anchored a = wr_anchored b → wr_directory_only a = wr_directory_only b →
  wr_no_inherit a = wr_no_inherit b → wr_cvs_exclude a = wr_cvs_exclude b →
  wr_word_split a = wr_word_split b → wr_exclude_from_merge a = wr_exclude_from_merge b →
  wr_xattr_only a = wr_xattr_only b → wr_sender_side a = wr_sender_side b →
  wr_receiver_side a = wr_receiver_side b → wr_perishable a = wr_perishable b →
  wr_negate a = wr_negate b → wr_no_prefixes a = wr_no_prefixes b →
  wr_no_prefixes_include a = wr_no_prefixes_include b → wr_cvs_origin a = wr_cvs_origin b → a = b.
Proof. destruct a, b; cbn; intros; by subst. Qed.

(** Take one field through the updates. *)
Ltac wire_fields :=
  unfold wire_flags, wire_canon, force_receiver;
  cbn [upd_flag upd_anchored wr_rule_type wr_pattern wr_anchored wr_directory_only wr_no_inherit
       wr_cvs_exclude wr_word_split wr_exclude_from_merge wr_xattr_only wr_sender_side
       wr_receiver_side wr_perishable wr_negate wr_no_prefixes wr_no_prefixes_include
       wr_cvs_origin orb andb].

Lemma modern_prefix_read protocol r text : (29 ≤ protocol)%Z →
  ∃ first chars, build_modern_prefix r protocol ++ text = first :: chars ∧
    from_prefix_char first = Some (wire_type (wr_rule_type r)) ∧
    modifier_loop protocol true (wire_rule_of (wire_type (wr_rule_type r))) chars =
      (wire_flags protocol r, text).
Proof.
  intros Hp. assert (supports_sender_receiver_modifiers protocol = true) as Hs
    by (by apply Z.leb_le).
  do 2 eexists. unfold build_modern_prefix. cbn [app]. split; [reflexivity|].
  split; [by destruct (wr_rule_type r)|]. rewrite Hs, <- !app_assoc. cbn [app].
  assert (is_merge_type (wr_rule_type r) = is_merge_type (wire_type (wr_rule_type r))) as Hm
    by by destruct (wr_rule_type r).
  rewrite loop_anchored, loop_negate.
  destruct (wr_cvs_exclude r) eqn:Ec; cbn [app].
  - rewrite loop_cvs, loop_exclude_from_merge, loop_xattr, loop_sender, loop_receiver,
      loop_perishable, loop_space by done.
    f_equal. apply wire_rule_ext; wire_fields; rewrite ?Ec;
      destruct (wr_anchored r && is_merge_type (wr_rule_type r)); cbn; 
      rewrite ?orb_false_r, ?andb_false_r, ?(andb_comm (wr_perishable r)); done.
  - rewrite <- !app_assoc. rewrite loop_no_inherit, loop_word_split, loop_no_prefixes.
    2: { intros H. apply andb_prop in H as [_ H]. rewrite Hm in H.
         by destruct (wr_anchored r && is_merge_type (wr_rule_type r)). }
    rewrite loop_exclude_from_merge, loop_xattr, loop_sender, loop_receiver, loop_perishable,
      loop_space by done.
    f_equal. apply wire_rule_ext; wire_fields; rewrite ?Ec;
      destruct (wr_no_prefixes r), (is_merge_type (wr_rule_type r)), (wr_anchored r);
      cbn [upd_merge andb negb]; unfold upd_no_prefixes; wire_fields; cbn;
      rewrite ?orb_false_r, ?andb_true_r, ?andb_false_r, ?(andb_comm (wr_perishable r));
      try done; by destruct (wr_no_prefixes_include r).
Qed.

(** ** UTF-8 of the pieces *)

Lemma flag_ascii b c : byte_le c x7f = true → forallb (λ c, byte_le c x7f) (flag b c) = true.
Proof. intros H. destruct b; cbn; by rewrite ?H. Qed.

Lemma length_flag b c : length (flag b c) = if b then 1%nat else 0%nat.
Proof. by destruct b. Qed.

Lemma modern_prefix_ascii r protocol :
  forallb (λ c, byte_le c x7f) (build_modern_prefix r protocol) = true ∧
  (length (build_modern_prefix r protocol) ≤ 12)%nat.
Proof.
  unfold build_modern_prefix. split.
  - destruct (wr_cvs_exclude r), (supports_sender_receiver_modifiers protocol),
      (wr_no_prefixes_include r); rewrite !forallb_app, !flag_ascii by done;
      by destruct (wr_rule_type r).
  - rewrite !length_app, !length_flag.
    destruct (wr_cvs_exclude r), (supports_sender_receiver_modifiers protocol);
      rewrite ?length_app, ?length_flag; cbn [length]; repeat case_match; lia.
Qed.

(** ** A rule, and a list of rules *)

(** The text behind the prefix. *)
Definition wire_body (r : FilterRuleWireFormat) : list byte :=
  flag (wr_anchored r && negb (is_merge_type (wr_rule_type r))) SLASH ++ wr_pattern r ++
  flag (wr_directory_only r) SLASH.

Lemma serialize_modern r protocol : (29 ≤ protocol)%Z → wire_rule_ok r →
  serialize_rule r protocol = Ok (build_modern_prefix r protocol ++ wire_body r).
Proof.
  intros Hp Hr. unfold serialize_rule, build_rule_prefix, uses_old_prefixes, wire_body.
  rewrite (proj2 (Z.ltb_ge _ _)) by done.
  destruct (wr_anchored r && negb (is_merge_type (wr_rule_type r))) eqn:E; cbn [andb flag app].
  - apply andb_prop in E as [_ E]. apply negb_true_iff in E.
    rewrite (wro_start r Hr E). cbn [negb].
    destruct (wr_directory_only r); cbn [flag]; by rewrite ?app_nil_r, <- ?app_assoc.
  - destruct (wr_directory_only r); cbn [flag]; by rewrite ?app_nil_r, <- ?app_assoc.
Qed.

Lemma starts_with_false_flag s d : starts_with SLASH s = false →
  bool_decide (1 < length (s ++ flag d SLASH))%nat && starts_with SLASH (s ++ flag d SLASH) = false.
Proof.
  intros H. destruct s as [|c s]; [by destruct d|]. unfold starts_with in *. cbn [app head] in *.
  rewrite H. apply andb_false_r.
Qed.

Lemma set_pattern_body r pat d : ends_with [SLASH] pat = false → wr_directory_only r = false →
  set_pattern r (pat ++ flag d SLASH) =
  mkWireRule (wr_rule_type r) pat (wr_anchored r) d (wr_no_inherit r)
    (wr_cvs_exclude r) (wr_word_split r) (wr_exclude_from_merge r) (wr_xattr_only r)
    (wr_sender_side r) (wr_receiver_side r) (wr_perishable r) (wr_negate r)
    (wr_no_prefixes r) (wr_no_prefixes_include r) (wr_cvs_origin r).
Proof.
  intros He Hd. unfold set_pattern. destruct d; cbn [flag].
  - assert (ends_with [SLASH] (pat ++ [SLASH]) = true) as ->.
    { unfold ends_with. rewrite length_app. cbn [length].
      rewrite bool_decide_true by lia. replace (length pat + 1 - 1)%nat with (length pat) by lia.
      rewrite drop_app_length. by apply bool_decide_true. }
    rewrite length_app. cbn [length]. replace (length pat + 1 - 1)%nat with (length pat) by lia.
    by rewrite take_app_length.
  - by rewrite app_nil_r, He, Hd.
Qed.

Lemma parse_serialized r protocol : (29 ≤ protocol)%Z → wire_rule_ok r →
  parse_wire_rule (build_modern_prefix r protocol ++ wire_body r) protocol =
  Ok (wire_canon protocol r).
Proof.
  intros Hp Hr. unfold parse_wire_rule, uses_old_prefixes.
  rewrite decide_False by (unfold build_modern_prefix; done).
  destruct (modern_prefix_ascii r protocol) as [Ha _].
  assert (valid_utf8 (build_modern_prefix r protocol ++ wire_body r) = true) as ->.
  { rewrite valid_utf8_all_ascii by done. unfold wire_body.
    rewrite valid_utf8_all_ascii by (by destruct (_ && _)).
    rewrite valid_utf8_app by apply Hr. by destruct (wr_directory_only r). }
  cbn [negb]. rewrite (proj2 (Z.ltb_ge _ _)) by done.
  destruct (modern_prefix_read protocol r (wire_body r) Hp) as (first & chars & -> & Hf & Hl).
  unfold parse_wire_rule_modern. rewrite Hf, Hl. destruct Hr as [_ He Hst Hem _].
  unfold wire_body. cbn [wire_flags wr_anchored wr_rule_type wire_canon].
  assert (is_merge_type (wire_type (wr_rule_type r)) = is_merge_type (wr_rule_type r)) as ->
    by by destruct (wr_rule_type r).
  destruct (is_merge_type (wr_rule_type r)) eqn:Em.
  - cbn [negb]. rewrite !andb_false_r. cbn [flag app andb].
    rewrite set_pattern_body by done. unfold wire_canon, wire_flags. cbn. by rewrite Em, andb_true_r.
  - specialize (Hst eq_refl). cbn [negb]. rewrite !andb_false_r, !andb_true_r. cbn [negb andb].
    destruct (wr_anchored r) eqn:Ean; cbn [flag app].
    + assert (1 < length (SLASH :: wr_pattern r ++ flag (wr_directory_only r) SLASH))%nat as Hlen.
      { cbn [length]. rewrite length_app. destruct (wr_pattern r) eqn:Epat; [|simpl; lia].
        rewrite Hem by done. simpl. lia. }
      rewrite bool_decide_true by done.
      replace (starts_with SLASH _) with true by done. cbn [andb drop]. rewrite drop_0.
      rewrite set_pattern_body by done. unfold wire_canon, wire_flags. cbn. by rewrite Em, Ean.
    + rewrite starts_with_false_flag by done. rewrite set_pattern_body by done.
      unfold wire_canon, wire_flags. cbn. by rewrite Em, Ean.
Qed.

Lemma wire_body_length r : wire_rule_ok r →
  (Z.of_nat (length (wire_body r)) < 2 ^ 30 + 2)%Z.
Proof.
  intros [_ _ _ _ H]. unfold wire_body. rewrite !length_app, !length_flag.
  repeat case_match; lia.
Qed.

(** The records of a list. *)
Fixpoint wire_records (protocol : Z) (rules : list FilterRuleWireFormat) : list byte :=
  match rules with
  | [] => []
  | r :: rules' =>
      let text := build_modern_prefix r protocol ++ wire_body r in
      write_i32_le (Z.of_nat (length text)) ++ text ++ wire_records protocol rules'
  end.

Lemma wire_records_length protocol rules : (length rules ≤ length (wire_records protocol rules))%nat.
Proof.
  induction rules as [|r rules IH]; [done|]. cbn [wire_records length].
  rewrite !length_app. unfold write_i32_le. rewrite length_le_bytes. lia.
Qed.

Lemma write_filter_list_ok rules protocol : (29 ≤ protocol)%Z → Forall wire_rule_ok rules →
  write_filter_list rules protocol =
  Ok (wire_records protocol rules ++ write_i32_le 0).
Proof.
  intros Hp. induction 1 as [|r rules Hr Hs IH]; [done|]. cbn [write_filter_list wire_records].
  rewrite serialize_modern, IH by done. by rewrite <- !app_assoc.
Qed.

Lemma read_i32_app z rest : in_i 32 z → read_i32_le (write_i32_le z ++ rest) = Ok (z, rest).
Proof.
  intros Hz. unfold read_i32_le.
  rewrite (parser_bind_ok _ _ _ (write_i32_le z) rest)
    by (apply read_exact_app, length_le_bytes).
  unfold mret, parser_ret, write_i32_le. by rewrite i32_from_le_bytes.
Qed.

Lemma read_rules_loop_ok fuel rules protocol rest : (29 ≤ protocol)%Z → Forall wire_rule_ok rules →
  (length rules < fuel)%nat →
  read_rules_loop fuel protocol
    ((wire_records protocol rules ++ write_i32_le 0) ++ rest) =
  Ok (map (wire_canon protocol) rules, rest).
Proof.
  intros Hp Hrs. revert fuel. induction Hrs as [|r rules Hr Hrs IH]; intros [|fuel] Hf;
    cbn [length] in Hf; try lia; cbn [read_rules_loop map wire_records app].
  - rewrite (parser_bind_ok _ _ _ 0%Z rest) by (apply read_i32_app; split; lia).
    by rewrite decide_True.
  - set (text := build_modern_prefix r protocol ++ wire_body r).
    destruct (modern_prefix_ascii r protocol) as [_ Hl1]. pose proof (wire_body_length r Hr) as Hl2.
    assert (0 < length (build_modern_prefix r protocol))%nat by (unfold build_modern_prefix; simpl; lia).
    assert (0 < Z.of_nat (length text) < 2 ^ 31)%Z as Hlt
      by (unfold text; rewrite length_app; lia).
    rewrite <- !app_assoc.
    rewrite (parser_bind_ok _ _ _ (Z.of_nat (length text)) _)
      by (apply read_i32_app; split; lia).
    rewrite decide_False, decide_False by lia. rewrite Nat2Z.id.
    rewrite (parser_bind_ok _ _ _ text _) by (by apply read_exact_app).
    unfold text at 1. rewrite parse_serialized by done.
    rewrite app_assoc. rewrite (parser_bind_ok _ _ _ (map (wire_canon protocol) rules) rest); [done|].
    apply IH. lia.
Qed.

(** ** Properties *)

(** C14: A list of rules that is written and read with the same protocol, from 29 on, comes
    back in its canonical form, with the bytes behind it left: every type, flag and pattern
    of a rule survives, a pattern may contain spaces, modifier letters and slashes inside,
    and protect and risk rules arrive as the exclude and include rules for the receiver
    that upstream understands. *)
Theorem filter_list_roundtrip (rules : list FilterRuleWireFormat) (protocol : Z) (rest : list byte) :
  (29 ≤ protocol)%Z → Forall wire_rule_ok rules →
  ∃ bs, write_filter_list rules protocol = Ok bs ∧
    read_filter_list protocol (bs ++ rest) = Ok (map (wire_canon protocol) rules, rest).
Proof.
  intros Hp Hr. rewrite write_filter_list_ok by done. eexists. split; [done|].
  unfold read_filter_list. apply read_rules_loop_ok; [done..|].
  rewrite !length_app. pose proof (wire_records_length protocol rules). lia.
Qed.

Definition demo_wire_rule : FilterRuleWireFormat :=
  mkWireRule RtProtect (bytes "s r/p") true true false false false false false false false true true
    false false false.

Lemma filter_list_roundtrip_witness :
  ∃ bs, write_filter_list [demo_wire_rule] 31 = Ok bs ∧
    read_filter_list 31 (bs ++ [x01]) = Ok (map (wire_canon 31) [demo_wire_rule], [x01]).
Proof.
  apply filter_list_roundtrip; [lia|]. repeat constructor; done.
Defined.

(** Before protocol 29 the writer sends an exclude rule without a prefix, which the
    reader does not accept: a plain exclude rule is refused with an error, and a rule with
    the pattern [!] arrives as the command that clears the list. *)
Theorem old_exclude_not_readable :
  let exclude p := mkWireRule RtExclude p false false false false false false false false false
    false false false false false in
  (∃ bs, write_filter_list [exclude (bytes "*.o")] 28 = Ok bs ∧
    read_filter_list 28 bs = Err InvalidData) ∧
  (∃ bs, write_filter_list [exclude (bytes "!")] 28 = Ok bs ∧
    read_filter_list 28 bs = Ok ([wire_rule_of RtClear], [])).
Proof. split; eexists; (split; [vm_compute; reflexivity|vm_compute; reflexivity]). Qed.
