(* ===== verification/FilterParse.v ===== *)
(** * Files of filter rules ([crates/filters/src/merge/])

    The parser of merge files: lines with short prefixes or keywords, modifiers and a
    pattern; the variants for files whose lines are patterns and for files that are split at
    white space; and reading a file together with the files it merges.  The file system is
    an argument, and so the theorems hold for every one, with cycles of files that merge
    each other too.  Positions and messages of errors are left out. *)

From stdpp Require Import strings sorting.
From S2P Require Import Prelude Wildmatch FilterRule FilterSet.

(** ** Text *)

Definition strip_prefix_byte (c : byte) (s : list byte) : option (list byte) :=
  match s with x :: s' => if decide (x = c) then Some s' else None | [] => None end.

(** [str::lines]: the pieces between newlines, a carriage return before one taken off, and
    no piece after the last newline. *)
Fixpoint lines_go (cur s : list byte) : list (list byte) :=
  match s with
  | [] => match cur with [] => [] | _ => [reverse cur] end
  | c :: s' =>
      if decide (c = x0a) then
        let cur := match cur with x :: cur' => if decide (x = x0d) then cur' else cur | [] => [] end in
        reverse cur :: lines_go [] s'
      else lines_go (c :: cur) s'
  end.
Definition lines (s : list byte) : list (list byte) := lines_go [] s.

(** The length of the white space character of Unicode that a string starts with, and 0 if
    it starts with another. *)
Definition ws_len (s : list byte) : nat :=
  match s with
  | x09 :: _ | x0a :: _ | x0b :: _ | x0c :: _ | x0d :: _ | x20 :: _ => 1
  | xc2 :: x85 :: _ | xc2 :: xa0 :: _ => 2
  | xe1 :: x9a :: x80 :: _ => 3
  | xe2 :: x80 :: b :: _ =>
      if between x80 b x8a || bool_decide (b = xa8) || bool_decide (b = xa9) ||
         bool_decide (b = xaf) then 3 else 0
  | xe2 :: x81 :: x9f :: _ => 3
  | xe3 :: x80 :: x80 :: _ => 3
  | _ => 0
  end.

(** [split_whitespace]; the fuel is the length of the string. *)
Fixpoint split_ws_go (fuel : nat) (cur s : list byte) : list (list byte) :=
  let flush := match cur with [] => [] | _ => [reverse cur] end in
  match fuel with
  | O => flush
  | S fuel' =>
      match s with
      | [] => flush
      | c :: s' =>
          match ws_len s with
          | O => split_ws_go fuel' (c :: cur) s'
          | n => flush ++ split_ws_go fuel' [] (drop n s)
          end
      end
  end.
Definition split_whitespace (s : list byte) : list (list byte) := split_ws_go (S (length s)) [] s.

(** ** Modifiers *)

(** A syntax error. *)
Inductive merge_error := ParseError | IoError | DepthExceeded.

#[export] Instance merge_error_eq_dec : EqDecision merge_error.
Proof. solve_decision. Defined.

Record RuleModifiers := mkMods {
  rm_negate : bool;
  rm_perishable : bool;
  rm_sender_only : bool;
  rm_receiver_only : bool;
  rm_xattr_only : bool;
  rm_exclude_self : bool;
  rm_no_inherit : bool;
  rm_word_split : bool;
  rm_cvs_mode : bool;
  rm_abs_path : bool;
  rm_no_prefixes : bool;
  rm_no_prefixes_include : bool;
}.

Definition no_mods : RuleModifiers :=
  mkMods false false false false false false false false false false false false.

Definition mods_apply (m : RuleModifiers) (rule : FilterRule) : FilterRule :=
  let no_inherit := rm_no_inherit m || rm_cvs_mode m in
  let rule :=
    mkRule (fr_action rule) (fr_pattern rule) (fr_applies_to_sender rule)
      (fr_applies_to_receiver rule) (rm_perishable m) (rm_xattr_only m) (rm_negate m)
      (fr_exclude_only rule) no_inherit (rm_cvs_mode m) (rm_abs_path m) (rm_word_split m)
      (rm_no_prefixes m) (rm_no_prefixes_include m) in
  if rm_sender_only m && negb (rm_receiver_only m) then with_sides true false rule
  else if rm_receiver_only m && negb (rm_sender_only m) then with_sides false true rule
  else rule.

(** The modifiers with one more set. *)
Definition add_mod (m : RuleModifiers) (c : byte) : RuleModifiers :=
  mkMods (rm_negate m || bool_decide (c = x21)) (rm_perishable m || bool_decide (c = x70))
    (rm_sender_only m || bool_decide (c = x73)) (rm_receiver_only m || bool_decide (c = x72))
    (rm_xattr_only m || bool_decide (c = x78)) (rm_exclude_self m || bool_decide (c = x65))
    (rm_no_inherit m || bool_decide (c = x6e)) (rm_word_split m || bool_decide (c = x77))
    (rm_cvs_mode m || bool_decide (c = x43)) (rm_abs_path m || bool_decide (c = x2f))
    (rm_no_prefixes m || bool_decide (c = x2d) || bool_decide (c = x2b))
    (rm_no_prefixes_include m || bool_decide (c = x2b)).

Fixpoint modifiers_loop (is_merge prefix_specifies_side : bool) (m : RuleModifiers) (s : list byte)
    : result merge_error (RuleModifiers * list byte) :=
  match s with
  | [] => Ok (m, [])
  | ch :: s' =>
      let next := modifiers_loop is_merge prefix_specifies_side (add_mod m ch) s' in
      match ch with
      | x21 => if is_merge then Err ParseError else next
      | x70 => next
      | x73 | x72 => if prefix_specifies_side then Err ParseError else next
      | x78 => next
      | x65 | x6e | x77 => if negb is_merge then Err ParseError else next
      | x43 | x2f => next
      | x2d | x2b => if negb is_merge || rm_no_prefixes m then Err ParseError else next
      | x20 | x5f => Ok (m, s')
      | _ => Err ParseError
      end
  end.

Definition parse_modifiers (s : list byte) (is_merge prefix_specifies_side : bool)
    : result merge_error (RuleModifiers * list byte) :=
  modifiers_loop is_merge prefix_specifies_side no_mods s.

(** ** Rules *)

Inductive ShortFormAction :=
| SfInclude | SfExclude | SfProtect | SfRisk | SfMerge | SfDirMerge | SfHide | SfShow.

#[export] Instance ShortFormAction_eq_dec : EqDecision ShortFormAction.
Proof. solve_decision. Defined.

Definition to_rule (a : ShortFormAction) (pattern : list byte) : FilterRule :=
  match a with
  | SfInclude => rule_include pattern
  | SfExclude => rule_exclude pattern
  | SfProtect => rule_protect pattern
  | SfRisk => rule_risk pattern
  | SfMerge => rule_merge pattern
  | SfDirMerge => rule_dir_merge pattern
  | SfHide => rule_hide pattern
  | SfShow => rule_show pattern
  end.

Definition supports_mods (a : ShortFormAction) : bool := negb (bool_decide (a = SfMerge)).
Definition sf_is_merge (a : ShortFormAction) : bool :=
  bool_decide (a = SfMerge) || bool_decide (a = SfDirMerge).
Definition specifies_side (a : ShortFormAction) : bool :=
  match a with SfHide | SfShow | SfProtect | SfRisk => true | _ => false end.

Definition short_prefix (c : byte) : option ShortFormAction :=
  match c with
  | x2b => Some SfInclude
  | x2d => Some SfExclude
  | x50 => Some SfProtect
  | x52 => Some SfRisk
  | x2e => Some SfMerge
  | x3a => Some SfDirMerge
  | x48 => Some SfHide
  | x53 => Some SfShow
  | _ => None
  end.

Definition CVSIGNORE : list byte := bytes ".cvsignore".

Definition try_parse_short_form (line : list byte) : result merge_error (option FilterRule) :=
  match line with
  | [] => Ok None
  | prefix_char :: rest =>
      match short_prefix prefix_char with
      | None => Ok None
      | Some action =>
          let rest := default rest (strip_prefix_byte x2c rest) in
          match parse_modifiers rest (sf_is_merge action) (specifies_side action) with
          | Err e => Err e
          | Ok (mods, pattern) =>
              if decide (pattern = []) then
                if rm_cvs_mode mods && sf_is_merge action
                then Ok (Some (mods_apply mods (to_rule action CVSIGNORE)))
                else Ok None
              else
                let rule := to_rule action pattern in
                Ok (Some (if supports_mods action then mods_apply mods rule else rule))
          end
      end
  end.

Definition is_c_isspace (ch : byte) : bool :=
  match ch with x20 | x09 | x0a | x0b | x0c | x0d => true | _ => false end.

Definition KEYWORDS : list (list byte * ShortFormAction) :=
  [(bytes "include", SfInclude); (bytes "exclude", SfExclude); (bytes "protect", SfProtect);
   (bytes "risk", SfRisk); (bytes "merge", SfMerge); (bytes "dir-merge", SfDirMerge);
   (bytes "hide", SfHide); (bytes "show", SfShow)].

Fixpoint keyword_loop (keywords : list (list byte * ShortFormAction)) (line : list byte)
    : result merge_error (option FilterRule) :=
  match keywords with
  | [] => Ok None
  | (keyword, action) :: keywords' =>
      let klen := length keyword in
      if decide ((length line < klen)%nat ∨ take klen line ≠ keyword) then
        keyword_loop keywords' line
      else
        match drop klen line with
        | [] => Ok (Some (to_rule action []))
        | ch :: after =>
            if decide (ch = x2c) then
              match parse_modifiers after (sf_is_merge action) (specifies_side action) with
              | Err e => Err e
              | Ok (mods, pattern) =>
                  let rule := to_rule action pattern in
                  Ok (Some (if supports_mods action then mods_apply mods rule else rule))
              end
            else if bool_decide (ch = x5f) || is_c_isspace ch then Ok (Some (to_rule action after))
            else keyword_loop keywords' line
        end
  end.

Definition try_parse_long_form (line : list byte) : result merge_error (option FilterRule) :=
  keyword_loop KEYWORDS line.

Definition parse_rule_line (line : list byte) : result merge_error FilterRule :=
  if decide (line = bytes "!" ∨ line = bytes "clear") then Ok rule_clear
  else
    match try_parse_short_form line with
    | Err e => Err e
    | Ok (Some rule) => Ok rule
    | Ok None =>
        match try_parse_long_form line with
        | Err e => Err e
        | Ok (Some rule) => Ok rule
        | Ok None => Err ParseError
        end
    end.

(** ** Files *)

(** [collect] of a fallible map. *)
Fixpoint map_results {E A B} (f : A → result E B) (l : list A) : result E (list B) :=
  match l with
  | [] => Ok []
  | x :: l' =>
      match f x with
      | Err e => Err e
      | Ok y => match map_results f l' with Err e => Err e | Ok ys => Ok (y :: ys) end
      end
  end.

Definition is_rule_line (line : list byte) : bool :=
  negb (bool_decide (line = [])) && negb (starts_with x23 line) && negb (starts_with x3b line).

Definition parse_rules (content : list byte) : result merge_error (list FilterRule) :=
  map_results parse_rule_line (List.filter is_rule_line (lines content)).

Definition push_token (force_include cvs_ignore : bool) (token : list byte) : FilterRule :=
  if cvs_ignore && bool_decide (token = bytes "!") then rule_clear
  else if force_include then rule_include token
  else rule_exclude token.

Definition parse_rules_no_prefixes (content : list byte)
    (force_include cvs_ignore word_split : bool) : list FilterRule :=
  if word_split then map (push_token force_include cvs_ignore) (split_whitespace content)
  else map (push_token force_include cvs_ignore) (List.filter is_rule_line (lines content)).

Definition parse_rules_word_split (content : list byte) : result merge_error (list FilterRule) :=
  map_results parse_rule_line (split_whitespace content).

(** What reading a path as text gives. *)
Inductive file := FileText (content : list byte) | FileNotFound | FileDenied | FileFails.

Definition file_system : Type := list byte → file.

Definition read_rules (fs : file_system) (path : list byte) : result merge_error (list FilterRule) :=
  match fs path with
  | FileText content => parse_rules content
  | _ => Err IoError
  end.

(** [Path::parent]. *)
Definition path_parent (path : list byte) : option (list byte) :=
  match reverse (components path) with
  | [] => None
  | c :: rest => if decide (c = [SLASH]) then None else Some (default [] (last (push_all [] (reverse rest))))
  end.

Definition merge_path_of (base_dir : option (list byte)) (pattern : list byte) : list byte :=
  if starts_with SLASH pattern then pattern
  else match base_dir with Some base => path_push base pattern | None => pattern end.

(** The sides that a clear rule leaves a rule with, and whether one is left. *)
Definition clear_rule_sides (clears_sender clears_receiver : bool) (prior : FilterRule)
    : FilterRule * bool :=
  let sender := if clears_sender then false else fr_applies_to_sender prior in
  let receiver := if clears_receiver then false else fr_applies_to_receiver prior in
  (with_sides sender receiver prior, sender || receiver).

Definition slc_step (res : list FilterRule) (rule : FilterRule) : list FilterRule :=
  if decide (fr_action rule = Clear) then
    let clears_sender := fr_applies_to_sender rule in
    let clears_receiver := fr_applies_to_receiver rule in
    if negb clears_sender && negb clears_receiver then res
    else retain_mut (clear_rule_sides clears_sender clears_receiver) res
  else res ++ [rule].

Definition scope_local_clear (rules : list FilterRule) : list FilterRule :=
  foldl slc_step [] rules.

(** The loop over the rules of one file; [nested] reads a file that is merged. *)
Fixpoint expand_loop (nested : list byte → option (result merge_error (list FilterRule)))
    (base_dir : option (list byte)) (rules : list FilterRule)
    : option (result merge_error (list FilterRule)) :=
  match rules with
  | [] => Some (Ok [])
  | rule :: rules' =>
      let head :=
        if decide (fr_action rule = Merge) then
          match nested (merge_path_of base_dir (fr_pattern rule)) with
          | None => None
          | Some (Err e) => Some (Err e)
          | Some (Ok rs) => Some (Ok (scope_local_clear rs))
          end
        else Some (Ok [rule]) in
      match head with
      | None => None
      | Some (Err e) => Some (Err e)
      | Some (Ok rs) =>
          match expand_loop nested base_dir rules' with
          | Some (Ok rest) => Some (Ok (rs ++ rest))
          | other => other
          end
      end
  end.

(** [None] when the fuel runs out. *)
Fixpoint read_rules_recursive_impl (fuel : nat) (fs : file_system) (path : list byte)
    (max_depth current_depth : nat) : option (result merge_error (list FilterRule)) :=
  match fuel with
  | O => None
  | S fuel' =>
      if decide (max_depth < current_depth)%nat then Some (Err DepthExceeded)
      else
        match read_rules fs path with
        | Err e => Some (Err e)
        | Ok rules =>
            expand_loop (λ p, read_rules_recursive_impl fuel' fs p max_depth (S current_depth))
              (path_parent path) rules
        end
  end.

Definition read_rules_recursive (fs : file_system) (path : list byte) (max_depth : nat)
    : option (result merge_error (list FilterRule)) :=
  read_rules_recursive_impl (max_depth + 2) fs path max_depth 0.

(** The loop over rules that [expand_merge_rules] runs; [nested] is a recursive call. *)
Fixpoint expand_merge_loop (fs : file_system)
    (nested : list FilterRule → option (result merge_error (list FilterRule)))
    (max_depth current_depth : nat) (rules : list FilterRule)
    : option (result merge_error (list FilterRule)) :=
  match rules with
  | [] => Some (Ok [])
  | rule :: rules' =>
      let head :=
        match fr_action rule with
        | Merge =>
            match read_rules_recursive fs (fr_pattern rule) (max_depth - current_depth) with
            | Some (Ok rs) =>
                match nested rs with
                | Some (Ok rs') => Some (Ok (scope_local_clear rs'))
                | other => other
                end
            | other => other
            end
        | DirMerge => Some (Ok [])
        | _ => Some (Ok [rule])
        end in
      match head with
      | Some (Ok rs) =>
          match expand_merge_loop fs nested max_depth current_depth rules' with
          | Some (Ok rest) => Some (Ok (rs ++ rest))
          | other => other
          end
      | other => other
      end
  end.

Fixpoint expand_merge_rules (fuel : nat) (fs : file_system) (rules : list FilterRule)
    (max_depth current_depth : nat) : option (result merge_error (list FilterRule)) :=
  match fuel with
  | O => None
  | S fuel' =>
      if decide (max_depth < current_depth)%nat then Some (Err DepthExceeded)
      else
        expand_merge_loop fs (λ rs, expand_merge_rules fuel' fs rs max_depth (S current_depth))
          max_depth current_depth rules
  end.

Definition from_rules_with_merge_expansion (fs : file_system) (rules : list FilterRule)
    (max_depth : nat) : option (result merge_error FilterSetInner) :=
  match expand_merge_rules (max_depth + 2) fs rules max_depth 0 with
  | None => None
  | Some (Err e) => Some (Err e)
  | Some (Ok expanded) => Some (Ok (from_rules expanded))
  end.

(** ** The rules that are in force *)

Inductive side := OnSender | OnReceiver.

Definition on_side (sd : side) (r : FilterRule) : bool :=
  match sd with OnSender => fr_applies_to_sender r | OnReceiver => fr_applies_to_receiver r end.

(** A rule without its sides. *)
Definition sideless (r : FilterRule) : FilterRule := with_sides true true r.

Definition live_step (sd : side) (acc : list FilterRule) (rule : FilterRule) : list FilterRule :=
  if decide (fr_action rule = Clear) then if on_side sd rule then [] else acc
  else if on_side sd rule then acc ++ [sideless rule] else acc.

(** The rules that are in force on a side: those for it that no later clear rule for it
    takes away. *)
Definition live (sd : side) (rules : list FilterRule) : list FilterRule :=
  foldl (live_step sd) [] rules.

Definition select (sd : side) (rules : list FilterRule) : list FilterRule :=
  map sideless (List.filter (on_side sd) rules).

Definition is_clear (r : FilterRule) : Prop := fr_action r = Clear.

Lemma select_app sd l k : select sd (l ++ k) = select sd l ++ select sd k.
Proof. unfold select. by rewrite List.filter_app, map_app. Qed.

Lemma select_retain sd cs cv l :
  select sd (retain_mut (clear_rule_sides cs cv) l) =
  if match sd with OnSender => cs | OnReceiver => cv end then [] else select sd l.
Proof.
  unfold select. induction l as [|r l IH]; [by destruct sd, cs, cv|].
  destruct r as [a p [] []], sd, cs, cv; cbn in *; rewrite ?IH; done.
Qed.

Lemma select_slc_step sd res rule : select sd (slc_step res rule) = live_step sd (select sd res) rule.
Proof.
  unfold slc_step, live_step. case_decide as Hc.
  - destruct (negb _ && negb _) eqn:E.
    + destruct sd; cbn; by destruct (fr_applies_to_sender rule), (fr_applies_to_receiver rule).
    + by rewrite select_retain; destruct sd.
  - rewrite select_app. unfold select at 2. cbn. destruct (on_side sd rule); cbn; [done|].
    apply app_nil_r.
Qed.

Lemma select_scope_local_clear sd rules : select sd (scope_local_clear rules) = live sd rules.
Proof.
  unfold scope_local_clear, live. change (@nil FilterRule) with (select sd []) at 2.
  generalize (@nil FilterRule). induction rules as [|r rules IH]; intros acc; cbn [foldl]; [done|].
  by rewrite IH, select_slc_step.
Qed.

Lemma retain_clear_Forall (P : FilterRule → Prop) cs cv l :
  (∀ r s v, P r → P (with_sides s v r)) → Forall P l → Forall P (retain_mut (clear_rule_sides cs cv) l).
Proof.
  intros HP. induction 1 as [|r l Hr Hl IH]; [constructor|]. cbn. case_match; [constructor|]; auto.
Qed.

(** What holds of every rule of a file that is no clear rule, whatever its sides, holds of
    those that are left. *)
Lemma scope_local_clear_Forall (P : FilterRule → Prop) rules :
  (∀ r s v, P r → P (with_sides s v r)) →
  Forall (λ r, ¬ is_clear r → P r) rules → Forall P (scope_local_clear rules).
Proof.
  intros HP Hrs. unfold scope_local_clear. assert (H0 : Forall P []) by constructor.
  revert H0. generalize (@nil FilterRule). induction Hrs as [|r rules Hr Hrs IH]; intros acc Hacc; [done|].
  cbn [foldl]. apply IH. unfold slc_step. case_decide as Hc.
  - case_match; [done|]. by apply retain_clear_Forall.
  - apply Forall_app; split; [done|]. constructor; [auto|constructor].
Qed.

Lemma live_no_clear sd acc rules : Forall (λ r, ¬ is_clear r) rules →
  foldl (live_step sd) acc rules = acc ++ select sd rules.
Proof.
  intros H. revert acc. induction H as [|r rules Hr Hrs IH]; intros acc; [by rewrite app_nil_r|].
  cbn [foldl]. rewrite IH. unfold live_step. rewrite decide_False by done.
  unfold select. cbn. destruct (on_side sd r); [|done]. by rewrite <-app_assoc.
Qed.

Lemma scope_local_clear_no_clear rules : Forall (λ r, ¬ is_clear r) (scope_local_clear rules).
Proof. apply scope_local_clear_Forall; [by intros [] ?? |]. apply Forall_true. auto. Qed.

(** ** Reading ends *)

Lemma expand_loop_total nested base_dir rules :
  (∀ p, is_Some (nested p)) → is_Some (expand_loop nested base_dir rules).
Proof.
  intros Hn. induction rules as [|rule rules [r IH]]; [done|]. cbn [expand_loop]. rewrite IH.
  case_decide; [destruct (Hn (merge_path_of base_dir (fr_pattern rule))) as [[?|?] ->]|];
    try done; by destruct r.
Qed.

Lemma read_rules_impl_total fuel fs path max_depth current_depth :
  (max_depth + 2 ≤ fuel + current_depth)%nat → (current_depth ≤ S max_depth)%nat →
  is_Some (read_rules_recursive_impl fuel fs path max_depth current_depth).
Proof.
  revert path current_depth. induction fuel as [|fuel IH]; intros path cur Hf Hc; [lia|].
  cbn [read_rules_recursive_impl]. case_decide; [done|]. destruct (read_rules fs path); [|done].
  apply expand_loop_total. intros p. apply IH; lia.
Qed.

Lemma expand_merge_loop_total fs nested max_depth cur rules :
  (∀ rs, is_Some (nested rs)) → is_Some (expand_merge_loop fs nested max_depth cur rules).
Proof.
  intros Hn. induction rules as [|rule rules [r IH]]; [done|]. cbn [expand_merge_loop]. rewrite IH.
  destruct (fr_action rule); try (by destruct r).
  destruct (read_rules_impl_total (max_depth - cur + 2) fs (fr_pattern rule) (max_depth - cur) 0)
    as [[rs|e] E]; [lia..| |]; unfold read_rules_recursive; rewrite E; [|done].
  destruct (Hn rs) as [[?|?] ->]; [|done]. by destruct r.
Qed.

Lemma expand_merge_rules_total fuel fs rules max_depth current_depth :
  (max_depth + 2 ≤ fuel + current_depth)%nat → (current_depth ≤ S max_depth)%nat →
  is_Some (expand_merge_rules fuel fs rules max_depth current_depth).
Proof.
  revert rules current_depth. induction fuel as [|fuel IH]; intros rules cur Hf Hc; [lia|].
  cbn [expand_merge_rules]. case_decide; [done|]. apply expand_merge_loop_total.
  intros rs. apply IH; lia.
Qed.

(** ** What is left after the expansion *)

Definition is_plain (r : FilterRule) : Prop := fr_action r ≠ Merge ∧ fr_action r ≠ DirMerge.

Lemma is_plain_sides r s v : is_plain r → is_plain (with_sides s v r).
Proof. by destruct r. Qed.

Lemma expand_merge_loop_plain fs nested max_depth cur rules out :
  (∀ rs out', nested rs = Some (Ok out') → Forall is_plain out') →
  expand_merge_loop fs nested max_depth cur rules = Some (Ok out) → Forall is_plain out.
Proof.
  intros Hn. revert out. induction rules as [|rule rules IH]; intros out; cbn [expand_merge_loop].
  { intros [= <-]. constructor. }
  intros H.
  assert (∃ rs rest, out = rs ++ rest ∧ Forall is_plain rs ∧
          expand_merge_loop fs nested max_depth cur rules = Some (Ok rest))
    as (rs & rest & -> & Hrs & Hrest).
  { destruct (fr_action rule) eqn:Ha;
      [ | | | | |
      | destruct (expand_merge_loop fs nested max_depth cur rules) as [[rest|]|]; try done;
        injection H as <-; by exists [], rest ];
      try (destruct (expand_merge_loop fs nested max_depth cur rules) as [[rest|]|]; try done;
           injection H as <-; exists [rule], rest; split_and!; [done| |done]; apply Forall_singleton;
           unfold is_plain; by rewrite Ha).
    destruct (read_rules_recursive _ _ _) as [[rs|]|]; simplify_eq.
    destruct (nested rs) as [[rs'|]|] eqn:En; simplify_eq.
    destruct (expand_merge_loop fs nested max_depth cur rules) as [[rest|]|]; simplify_eq.
    eexists _, rest. split_and!; [done| |done]. apply scope_local_clear_Forall; [apply is_plain_sides|].
    eapply Forall_impl; [by eapply Hn|]. done. }
  apply Forall_app; eauto.
Qed.

Lemma expand_merge_rules_plain fuel fs rules max_depth cur out :
  expand_merge_rules fuel fs rules max_depth cur = Some (Ok out) → Forall is_plain out.
Proof.
  revert rules cur out. induction fuel as [|fuel IH]; intros rules cur out; [done|].
  cbn [expand_merge_rules]. case_decide; [done|]. apply expand_merge_loop_plain. eauto.
Qed.

(** ** One line *)

Definition prefix_of_action (a : ShortFormAction) : byte :=
  match a with
  | SfInclude => x2b | SfExclude => x2d | SfProtect => x50 | SfRisk => x52
  | SfMerge => x2e | SfDirMerge => x3a | SfHide => x48 | SfShow => x53
  end.

Definition is_separator (c : byte) : bool := bool_decide (c = x20) || bool_decide (c = x5f).

(** The modifiers a kind of rule may have. *)
Definition mod_allowed (a : ShortFormAction) (c : byte) : bool :=
  match c with
  | x70 | x78 | x43 | x2f => true
  | x21 => negb (sf_is_merge a)
  | x73 | x72 => negb (specifies_side a)
  | x65 | x6e | x77 | x2d | x2b => sf_is_merge a
  | _ => false
  end.

Definition literal_mods (ms : list byte) : list byte :=
  List.filter (λ c, bool_decide (c = x2d) || bool_decide (c = x2b)) ms.

(** Every modifier is allowed, and at most one says that lines are patterns. *)
Definition mods_valid (a : ShortFormAction) (ms : list byte) : bool :=
  forallb (mod_allowed a) ms && bool_decide (length (literal_mods ms) ≤ 1)%nat.

Definition mods_of (ms : list byte) : RuleModifiers := foldl add_mod no_mods ms.

(** The turns of the loop that go on. *)
Lemma modifiers_loop_turn a m c s : is_separator c = false →
  modifiers_loop (sf_is_merge a) (specifies_side a) m (c :: s) =
  if mod_allowed a c && negb (rm_no_prefixes m && (bool_decide (c = x2d) || bool_decide (c = x2b)))
  then modifiers_loop (sf_is_merge a) (specifies_side a) (add_mod m c) s
  else Err ParseError.
Proof.
  destruct c; cbn; try done; intros _; rewrite ?andb_false_r, ?andb_true_r; cbn [negb];
    destruct a; cbn; try done; by destruct (rm_no_prefixes m).
Qed.

Lemma no_prefixes_add m c :
  rm_no_prefixes (add_mod m c) =
  rm_no_prefixes m || (bool_decide (c = x2d) || bool_decide (c = x2b)).
Proof. cbn. by rewrite orb_assoc. Qed.

Lemma modifiers_loop_spec a m ms sep pat :
  Forall (λ c, is_separator c = false) ms → is_separator sep = true →
  modifiers_loop (sf_is_merge a) (specifies_side a) m (ms ++ sep :: pat) =
  if forallb (mod_allowed a) ms &&
     bool_decide (length (literal_mods ms) + Nat.b2n (rm_no_prefixes m) ≤ 1)%nat
  then Ok (foldl add_mod m ms, pat) else Err ParseError.
Proof.
  intros Hms Hsep. revert m. induction Hms as [|c ms Hc Hms IH]; intros m.
  - assert (sep = x20 ∨ sep = x5f) as [-> | ->]
      by (unfold is_separator in Hsep; apply orb_true_iff in Hsep as [?%bool_decide_eq_true|?%bool_decide_eq_true]; auto);
      cbn; by destruct (rm_no_prefixes m).
  - rewrite <-app_comm_cons, modifiers_loop_turn by done. rewrite IH, no_prefixes_add. cbn [forallb foldl].
    unfold literal_mods; cbn [List.filter]; fold (literal_mods ms).
    destruct (mod_allowed a c); cbn [andb]; [|done].
    destruct (bool_decide (c = x2d) || bool_decide (c = x2b)); cbn [length].
    + destruct (rm_no_prefixes m); cbn [andb negb orb Nat.b2n].
      * rewrite (bool_decide_false (_ ≤ 1)%nat) by lia. by rewrite andb_false_r.
      * by rewrite (Nat.add_1_r (length _)), Nat.add_0_r.
    + rewrite andb_false_r, orb_false_r. done.
Qed.

(** ** Properties *)

(** A clear rule of a merged file takes away only rules of that file: on each side, the
    rules in force after a list is followed by the rules of a merged file are those of the
    list, whatever the file clears, and then those the file leaves in force. *)
Theorem merged_clear_is_local (sd : side) (outer inner : list FilterRule) :
  live sd (outer ++ scope_local_clear inner) = live sd outer ++ live sd inner.
Proof.
  unfold live at 1. rewrite foldl_app. fold (live sd outer).
  rewrite live_no_clear by apply scope_local_clear_no_clear.
  by rewrite select_scope_local_clear.
Qed.

(** C34: Expanding the merge rules of a list ends on every file system, also if files merge
    each other in a cycle or nest without end, with the stated bound on the nesting; and
    when it succeeds no rule is left that names another file. *)
Theorem merge_expansion_ends (fs : file_system) (rules : list FilterRule) (max_depth : nat) :
  ∃ r, expand_merge_rules (max_depth + 2) fs rules max_depth 0 = Some r ∧
       ∀ out, r = Ok out → Forall is_plain out.
Proof.
  destruct (expand_merge_rules_total (max_depth + 2) fs rules max_depth 0) as [r E]; [lia..|].
  exists r. split; [done|]. intros out ->. by eapply expand_merge_rules_plain.
Qed.

(** A line that has the prefix of a kind of rule, modifiers, a separator and a pattern
    is read as that rule with those modifiers when each modifier may stand on such a rule
    and at most one of them makes the lines of the merged file patterns; any other
    modifier is an error.  The pattern is taken as it stands, with its white space. *)
Theorem rule_line_is_read (a : ShortFormAction) (ms : list byte) (sep : byte) (pattern : list byte) :
  Forall (λ c, is_separator c = false) ms → head ms ≠ Some x2c → is_separator sep = true →
  pattern ≠ [] →
  parse_rule_line (prefix_of_action a :: ms ++ sep :: pattern) =
  if mods_valid a ms then
    Ok (if supports_mods a then mods_apply (mods_of ms) (to_rule a pattern) else to_rule a pattern)
  else Err ParseError.
Proof.
  intros Hms Hcomma Hsep Hp. unfold parse_rule_line.
  rewrite (decide_False (P := _ ∨ _)) by (intros [H|H]; destruct a; by simplify_eq/=).
  unfold try_parse_short_form.
  assert (short_prefix (prefix_of_action a) = Some a) as -> by by destruct a.
  assert (strip_prefix_byte x2c (ms ++ sep :: pattern) = None) as ->.
  { destruct ms as [|c ms]; cbn; case_decide; subst; done. }
  cbn [default]. unfold parse_modifiers. rewrite modifiers_loop_spec by done.
  cbn [rm_no_prefixes no_mods Nat.b2n]. rewrite Nat.add_0_r. fold (mods_valid a ms).
  destruct (mods_valid a ms); [|done]. by rewrite decide_False by done.
Qed.

Lemma rule_line_is_read_witness :
  parse_rule_line (bytes "-ps  *.o ") =
    Ok (mods_apply (mods_of (bytes "ps")) (rule_exclude (bytes " *.o "))) ∧
  parse_rule_line (bytes "Hs x") = Err ParseError.
Proof.
  split.
  - apply (rule_line_is_read SfExclude (bytes "ps") x20 (bytes " *.o ")); [repeat constructor|done..].
  - apply (rule_line_is_read SfHide (bytes "s") x20 (bytes "x")); [repeat constructor|done..].
Defined.

(** A file that merges itself is rejected at the usual bound. *)
Lemma self_merge_rejected :
  let fs := λ p : list byte, if decide (p = bytes "r") then FileText (bytes "- a
. r
") else FileNotFound in
  from_rules_with_merge_expansion fs [rule_merge (bytes "r")] 10 = Some (Err DepthExceeded).
Proof. vm_compute. reflexivity. Qed.
