(* ===== verification/FilterChain.v ===== *)
(** * Filter rules of directories ([crates/filters/src/chain/])

    [FilterChain]: the rules of the command line and, on top of them, the rules that are read
    from files of the directories on the way down to the current one.  Entering a directory
    pushes scopes, leaving it pops them; a clear rule in a file hides the scopes above it
    that came from the files of the same name until the directory is left.  The file system
    is an argument.  Compiling a rule cannot fail ([FilterRule]), and so there is no
    [FilterChainError::Filter]. *)

From stdpp Require Import strings sorting.
From S2P Require Import Prelude Wildmatch Utf8 FilterRule FilterSet FilterParse.

(** ** Configuration and state *)

Record DirMergeConfig := mkConfig {
  dc_filename : list byte;
  dc_inherit : bool;
  dc_exclude_self : bool;
  dc_sender_only : bool;
  dc_receiver_only : bool;
  dc_anchor_root : bool;
  dc_perishable : bool;
  dc_cvs_mode : bool;
  dc_no_prefixes : bool;
  dc_no_prefixes_include : bool;
  dc_word_split : bool;
  dc_directive_order : nat;
}.

Definition config_new (filename : list byte) : DirMergeConfig :=
  mkConfig filename true false false false false false false false false false 0.

Definition is_sender_only (c : DirMergeConfig) : bool :=
  dc_sender_only c && negb (dc_receiver_only c).
Definition is_receiver_only (c : DirMergeConfig) : bool :=
  dc_receiver_only c && negb (dc_sender_only c).

Definition apply_modifiers (c : DirMergeConfig) (rule : FilterRule) : FilterRule :=
  let rule := if dc_anchor_root c then anchor_to_root rule else rule in
  let rule := if dc_perishable c then with_perishable true rule else rule in
  if dc_sender_only c && negb (dc_receiver_only c) then with_sides true false rule
  else if dc_receiver_only c && negb (dc_sender_only c) then with_sides false true rule
  else rule.

Record DirScope := mkScope {
  sc_depth : nat;
  sc_filter_set : FilterSetInner;
  sc_inherits : bool;
  sc_config_index : option nat;
  sc_directive_order : nat;
}.

Record ClearedScope := mkCleared {
  cl_depth : nat;
  cl_scope : DirScope;
}.

Record DirFilterGuard := mkGuard {
  gd_depth : nat;
  gd_pushed_count : nat;
}.

Record FilterChain := mkChain {
  ch_global : FilterSetInner;
  ch_merge_configs : list DirMergeConfig;
  ch_scopes : list DirScope;
  ch_cleared_scopes : list ClearedScope;
  ch_current_depth : nat;
  ch_delete_excluded : bool;
  ch_transfer_root : option (list byte);
}.

Definition chain_new (global : FilterSetInner) : FilterChain := mkChain global [] [] [] 0 false None.

Definition set_scopes (scopes : list DirScope) (c : FilterChain) : FilterChain :=
  mkChain (ch_global c) (ch_merge_configs c) scopes (ch_cleared_scopes c) (ch_current_depth c)
    (ch_delete_excluded c) (ch_transfer_root c).
Definition set_cleared (cleared : list ClearedScope) (c : FilterChain) : FilterChain :=
  mkChain (ch_global c) (ch_merge_configs c) (ch_scopes c) cleared (ch_current_depth c)
    (ch_delete_excluded c) (ch_transfer_root c).
Definition set_depth (depth : nat) (c : FilterChain) : FilterChain :=
  mkChain (ch_global c) (ch_merge_configs c) (ch_scopes c) (ch_cleared_scopes c) depth
    (ch_delete_excluded c) (ch_transfer_root c).

Definition add_merge_config (config : DirMergeConfig) (c : FilterChain) : FilterChain :=
  mkChain (ch_global c) (ch_merge_configs c ++ [config]) (ch_scopes c) (ch_cleared_scopes c)
    (ch_current_depth c) (ch_delete_excluded c) (ch_transfer_root c).

Definition has_per_dir_merge (c : FilterChain) : bool := negb (bool_decide (ch_merge_configs c = [])).

Definition with_delete_excluded (delete_excluded : bool) (c : FilterChain) : FilterChain :=
  mkChain (ch_global c) (ch_merge_configs c) (ch_scopes c) (ch_cleared_scopes c)
    (ch_current_depth c) delete_excluded (ch_transfer_root c).

Definition set_transfer_root (root : list byte) (c : FilterChain) : FilterChain :=
  mkChain (ch_global c) (ch_merge_configs c) (ch_scopes c) (ch_cleared_scopes c)
    (ch_current_depth c) (ch_delete_excluded c) (Some root).

Definition chain_is_empty (c : FilterChain) : bool :=
  set_is_empty (ch_global c) && bool_decide (length (ch_scopes c) = 0%nat) &&
  bool_decide (length (ch_merge_configs c) = 0%nat).

(** ** Paths of merge files *)

Definition DOTDOT : list byte := [x2e; x2e].

(** [components] that are names. *)
Definition is_normal (comp : list byte) : bool :=
  negb (bool_decide (comp = [SLASH]) || bool_decide (comp = DOT) || bool_decide (comp = DOTDOT)).

(** [Path::strip_prefix], on components. *)
Fixpoint strip_components (root path : list (list byte)) : option (list (list byte)) :=
  match root, path with
  | [], _ => Some path
  | r :: root', p :: path' => if decide (r = p) then strip_components root' path' else None
  | _ :: _, [] => None
  end.

(** Components that are not UTF-8 are left out. *)
Definition path_to_forward_slash (comps : list (list byte)) : list byte :=
  join_slash (List.filter (λ comp, is_normal comp && valid_utf8 comp) comps).

Definition merge_rel_dir (c : FilterChain) (directory : list byte) : option (list byte) :=
  match ch_transfer_root c with
  | None => None
  | Some root =>
      match strip_components (components root) (components directory) with
      | None => None
      | Some rel =>
          let joined := path_to_forward_slash rel in
          if decide (joined = []) then None else Some joined
      end
  end.

Definition reanchor_merge_rule (rel_dir : option (list byte)) (rule : FilterRule) : FilterRule :=
  match rel_dir with
  | None => rule
  | Some dir =>
      match strip_prefix_byte SLASH (fr_pattern rule) with
      | Some rest => with_pattern (SLASH :: dir ++ SLASH :: rest) rule
      | None => rule
      end
  end.

(** ** Rules of a merge file *)

Definition parse_cvs_ignore_tokens (content : list byte) : list FilterRule :=
  map rule_exclude (List.filter (λ t, negb (bool_decide (t = []))) (split_whitespace content)).

(** The parser that the flags of a configuration, or of a nested directive, choose. *)
Definition parse_content (no_prefixes no_prefixes_include cvs_mode word_split : bool)
    (content : list byte) : result merge_error (list FilterRule) :=
  if no_prefixes then Ok (parse_rules_no_prefixes content no_prefixes_include cvs_mode word_split)
  else if cvs_mode then Ok (parse_cvs_ignore_tokens content)
  else if word_split then parse_rules_word_split content
  else parse_rules content.

Definition is_transfer_action (r : FilterRule) : bool :=
  bool_decide (fr_action r = Include) || bool_decide (fr_action r = Exclude).

Definition apply_merge_implicit_sender_side (delete_excluded : bool) (rule : FilterRule) : FilterRule :=
  if negb delete_excluded then rule
  else if negb (is_transfer_action rule) then rule
  else if negb (fr_applies_to_sender rule && fr_applies_to_receiver rule) then rule
  else with_receiver false rule.

Record InlineDirMerge := mkInline {
  im_filename : list byte;
  im_cvs_mode : bool;
  im_no_inherit : bool;
  im_sender_only : bool;
  im_receiver_only : bool;
  im_no_prefixes : bool;
  im_no_prefixes_include : bool;
  im_abs_path : bool;
  im_word_split : bool;
}.

Definition apply_dir_merge_inherited_side (d : InlineDirMerge) (rule : FilterRule) : FilterRule :=
  if negb (im_sender_only d) && negb (im_receiver_only d) then rule
  else if negb (is_transfer_action rule) then rule
  else if negb (fr_applies_to_sender rule && fr_applies_to_receiver rule) then rule
  else if im_sender_only d then with_sides true false rule
  else with_sides false true rule.

Definition inline_of_rule (rule : FilterRule) : InlineDirMerge :=
  mkInline (fr_pattern rule) (fr_cvs_mode rule) (fr_no_inherit rule)
    (fr_applies_to_sender rule && negb (fr_applies_to_receiver rule))
    (fr_applies_to_receiver rule && negb (fr_applies_to_sender rule))
    (fr_no_prefixes rule) (fr_no_prefixes_include rule) (fr_abs_path rule) (fr_word_split rule).

Fixpoint split_dir_merge_rules (rules : list FilterRule) : list FilterRule * list InlineDirMerge :=
  match rules with
  | [] => ([], [])
  | rule :: rules' =>
      let '(keep, dir_merges) := split_dir_merge_rules rules' in
      if decide (fr_action rule = DirMerge) then (keep, inline_of_rule rule :: dir_merges)
      else (rule :: keep, dir_merges)
  end.

(** The directives of a file that is for one side are for that side as well. *)
Definition inherit_sides (config : DirMergeConfig) (d : InlineDirMerge) : InlineDirMerge :=
  if is_sender_only config then
    mkInline (im_filename d) (im_cvs_mode d) (im_no_inherit d) true (im_receiver_only d)
      (im_no_prefixes d) (im_no_prefixes_include d) (im_abs_path d) (im_word_split d)
  else if is_receiver_only config then
    mkInline (im_filename d) (im_cvs_mode d) (im_no_inherit d) (im_sender_only d) true
      (im_no_prefixes d) (im_no_prefixes_include d) (im_abs_path d) (im_word_split d)
  else d.

(** ** The stack of scopes *)

Definition pop_scopes_at_depth (depth : nat) (c : FilterChain) : FilterChain :=
  set_scopes (List.filter (λ s, negb (bool_decide (sc_depth s = depth))) (ch_scopes c)) c.

(** Scopes taken out, in order, and those that stay. *)
Definition clear_inherited_scopes (config_index depth : nat) (c : FilterChain) : FilterChain :=
  let hit := λ s, bool_decide (sc_config_index s = Some config_index) in
  set_cleared (ch_cleared_scopes c ++ map (mkCleared depth) (List.filter hit (ch_scopes c)))
    (set_scopes (List.filter (λ s, negb (hit s)) (ch_scopes c)) c).

Definition USIZE_MAX : N := 18446744073709551615.

Definition scope_key (s : DirScope) : nat * N :=
  (sc_depth s, match sc_config_index s with Some i => N.of_nat i | None => USIZE_MAX end).

Definition key_le (a b : DirScope) : Prop :=
  ((scope_key a).1 < (scope_key b).1)%nat ∨
  (scope_key a).1 = (scope_key b).1 ∧ ((scope_key a).2 ≤ (scope_key b).2)%N.

#[export] Instance key_le_dec : RelDecision key_le.
Proof. intros a b. unfold key_le. apply _. Defined.

Definition restore_cleared_scopes (depth : nat) (c : FilterChain) : FilterChain :=
  let hit := λ cl, bool_decide (cl_depth cl = depth) in
  if negb (existsb hit (ch_cleared_scopes c)) then c
  else
    set_cleared (List.filter (λ cl, negb (hit cl)) (ch_cleared_scopes c))
      (set_scopes
         (merge_sort key_le (ch_scopes c ++ map cl_scope (List.filter hit (ch_cleared_scopes c)))) c).

Definition leave_directory (guard : DirFilterGuard) (c : FilterChain) : FilterChain :=
  let c := restore_cleared_scopes (gd_depth guard) (pop_scopes_at_depth (gd_depth guard) c) in
  set_depth (ch_current_depth c - 1) c.

Definition push_scope (filter_set : FilterSetInner) (c : FilterChain) : DirFilterGuard * FilterChain :=
  let depth := S (ch_current_depth c) in
  let c := set_depth depth c in
  if set_is_empty filter_set then (mkGuard depth 0, c)
  else (mkGuard depth 1, set_scopes (ch_scopes c ++ [mkScope depth filter_set true None 0]) c).

(** ** Entering a directory *)

Inductive chain_error := ChainIo | ChainParse.

(** The clean-up on an error. *)
Definition fail_at {A} (depth : nat) (e : chain_error) (c : FilterChain)
    : FilterChain * result chain_error A :=
  let c := pop_scopes_at_depth depth c in
  (set_depth (ch_current_depth c - 1) c, Err e).

Definition position_of (filename : list byte) (configs : list DirMergeConfig) : option nat :=
  fst <$> list_find (λ c, dc_filename c = filename) configs.

Definition load_inline_dir_merge (fs : file_system) (directory : list byte) (depth : nat)
    (d : InlineDirMerge) (c : FilterChain) : FilterChain * result chain_error nat :=
  match fs (path_push directory (im_filename d)) with
  | FileNotFound | FileDenied => (c, Ok 0%nat)
  | FileFails => fail_at depth ChainIo c
  | FileText content =>
      match parse_content (im_no_prefixes d) (im_no_prefixes_include d) (im_cvs_mode d)
              (im_word_split d) content with
      | Err _ => fail_at depth ChainParse c
      | Ok rules =>
          if decide (rules = []) then (c, Ok 0%nat)
          else
            let rules := map (λ rule, apply_merge_implicit_sender_side (ch_delete_excluded c)
                                        (apply_dir_merge_inherited_side d rule)) rules in
            let filter_set := from_rules rules in
            if set_is_empty filter_set then (c, Ok 0%nat)
            else
              let config_index := position_of (im_filename d) (ch_merge_configs c) in
              let directive_order :=
                match config_index with
                | Some index =>
                    match ch_merge_configs c !! index with
                    | Some config => dc_directive_order config
                    | None => 0%nat
                    end
                | None => 0%nat
                end in
              (set_scopes
                 (ch_scopes c ++
                  [mkScope depth filter_set (negb (im_no_inherit d)) config_index directive_order]) c,
               Ok 1%nat)
      end
  end.

Definition config_of_inline (d : InlineDirMerge) : DirMergeConfig :=
  mkConfig (im_filename d) true false (im_sender_only d) (im_receiver_only d) (im_abs_path d) false
    (im_cvs_mode d) (im_no_prefixes d) (im_no_prefixes_include d) (im_word_split d) 0.

Definition register_inline (d : InlineDirMerge) (c : FilterChain) : FilterChain :=
  if negb (im_no_inherit d) &&
     negb (existsb (λ g, bool_decide (dc_filename g = im_filename d)) (ch_merge_configs c))
  then add_merge_config (config_of_inline d) c else c.

Fixpoint inline_loop (fs : file_system) (directory : list byte) (depth : nat)
    (ds : list InlineDirMerge) (pushed_count : nat) (c : FilterChain)
    : FilterChain * result chain_error nat :=
  match ds with
  | [] => (c, Ok pushed_count)
  | d :: ds' =>
      match load_inline_dir_merge fs directory depth d (register_inline d c) with
      | (c, Ok n) => inline_loop fs directory depth ds' (pushed_count + n) c
      | (c, Err e) => (c, Err e)
      end
  end.

(** What the rules of a file become before they are compiled. *)
Definition scope_rules (config : DirMergeConfig) (rel_dir_prefix : option (list byte))
    (delete_excluded : bool) (rules : list FilterRule) : list FilterRule :=
  let reanchor_dir := if dc_anchor_root config then None else rel_dir_prefix in
  map (λ rule, apply_merge_implicit_sender_side delete_excluded
                 (reanchor_merge_rule reanchor_dir (apply_modifiers config rule))) rules ++
  (if dc_exclude_self config then [rule_exclude (dc_filename config)] else []).

(** A turn of the loop over the configurations. *)
Definition enter_config (fs : file_system) (directory : list byte) (depth : nat)
    (rel_dir_prefix : option (list byte)) (config_index pushed_count : nat) (c : FilterChain)
    : FilterChain * result chain_error nat :=
  match ch_merge_configs c !! config_index with
  | None => (c, Ok pushed_count)
  | Some config =>
      match fs (path_push directory (dc_filename config)) with
      | FileNotFound | FileDenied => (c, Ok pushed_count)
      | FileFails => fail_at depth ChainIo c
      | FileText content =>
          match parse_content (dc_no_prefixes config) (dc_no_prefixes_include config)
                  (dc_cvs_mode config) (dc_word_split config) content with
          | Err _ => fail_at depth ChainParse c
          | Ok rules =>
              let '(rules, descriptors) := split_dir_merge_rules rules in
              let clears_inherited :=
                dc_inherit config && existsb (λ r, bool_decide (fr_action r = Clear)) rules in
              if bool_decide (rules = []) && bool_decide (length descriptors = 0%nat) &&
                 negb (dc_exclude_self config)
              then (c, Ok pushed_count)
              else
                let descriptors := map (inherit_sides config) descriptors in
                let filter_set :=
                  from_rules (scope_rules config rel_dir_prefix (ch_delete_excluded c) rules) in
                let c := if clears_inherited then clear_inherited_scopes config_index depth c else c in
                let '(c, pushed_count) :=
                  if set_is_empty filter_set then (c, pushed_count)
                  else
                    (set_scopes
                       (ch_scopes c ++
                        [mkScope depth filter_set (dc_inherit config) (Some config_index)
                           (dc_directive_order config)]) c, S pushed_count) in
                inline_loop fs directory depth descriptors pushed_count c
          end
      end
  end.

Fixpoint enter_loop (fs : file_system) (directory : list byte) (depth : nat)
    (rel_dir_prefix : option (list byte)) (indices : list nat) (pushed_count : nat) (c : FilterChain)
    : FilterChain * result chain_error nat :=
  match indices with
  | [] => (c, Ok pushed_count)
  | config_index :: indices' =>
      match enter_config fs directory depth rel_dir_prefix config_index pushed_count c with
      | (c, Ok n) => enter_loop fs directory depth rel_dir_prefix indices' n c
      | (c, Err e) => (c, Err e)
      end
  end.

Definition enter_directory (fs : file_system) (directory : list byte) (c : FilterChain)
    : FilterChain * result chain_error DirFilterGuard :=
  let depth := S (ch_current_depth c) in
  let c := set_depth depth c in
  let rel_dir_prefix := merge_rel_dir c directory in
  match enter_loop fs directory depth rel_dir_prefix (seq 0 (length (ch_merge_configs c))) 0 c with
  | (c, Ok pushed_count) => (c, Ok (mkGuard depth pushed_count))
  | (c, Err e) => (c, Err e)
  end.

(** ** Verdicts *)

Definition scope_applies_here (c : FilterChain) (scope : DirScope) : bool :=
  sc_inherits scope || bool_decide (sc_depth scope = ch_current_depth c).

Definition scope_matches (c : FilterChain) (path : list byte) (is_dir deletion : bool)
    (scope : DirScope) : bool :=
  scope_applies_here c scope && negb (set_is_empty (sc_filter_set scope)) &&
  (if deletion then has_deletion_rule_match (sc_filter_set scope) path is_dir
   else has_transfer_rule_match (sc_filter_set scope) path is_dir).

Definition best_step (c : FilterChain) (path : list byte) (is_dir deletion : bool)
    (best : option DirScope) (scope : DirScope) : option DirScope :=
  if negb (scope_matches c path is_dir deletion scope) then best
  else
    match best with
    | Some current =>
        if decide (sc_directive_order current ≤ sc_directive_order scope)%nat then best
        else Some scope
    | None => Some scope
    end.

Definition best_scope (c : FilterChain) (path : list byte) (is_dir deletion : bool)
    : option DirScope :=
  foldl (best_step c path is_dir deletion) None (reverse (ch_scopes c)).

(** [Option::is_none_or] on the order of the global rule. *)
Definition scope_first (scope : DirScope) (global_order : option nat) : bool :=
  match global_order with
  | None => true
  | Some o => bool_decide (sc_directive_order scope ≤ o)%nat
  end.

Definition chain_allows (c : FilterChain) (path : list byte) (is_dir : bool) : bool :=
  match best_scope c path is_dir false with
  | Some scope =>
      if scope_first scope (transfer_match_order (ch_global c) path is_dir)
      then allows_during_traversal (sc_filter_set scope) path is_dir
      else allows_during_traversal (ch_global c) path is_dir
  | None => allows_during_traversal (ch_global c) path is_dir
  end.

Definition chain_allows_deletion (c : FilterChain) (path : list byte) (is_dir : bool) : bool :=
  let by_global :=
    set_allows_deletion (ch_global c) path is_dir ||
    (ch_delete_excluded c && allows_deletion_when_excluded_removed (ch_global c) path is_dir) in
  match best_scope c path is_dir true with
  | Some scope =>
      if scope_first scope (deletion_match_order (ch_global c) path is_dir)
      then
        allows_deletion_during_traversal (sc_filter_set scope) path is_dir ||
        (ch_delete_excluded c &&
         allows_deletion_when_excluded_removed (sc_filter_set scope) path is_dir)
      else by_global
  | None => by_global
  end.

(** ** Entering and leaving *)

Definition key_lt (a b : DirScope) : Prop :=
  ((scope_key a).1 < (scope_key b).1)%nat ∨
  (scope_key a).1 = (scope_key b).1 ∧ ((scope_key a).2 < (scope_key b).2)%N.

(** Scopes are in the order of the walk, and nothing is from below the current directory. *)
Record chain_ok (c : FilterChain) : Prop := {
  ok_sorted : StronglySorted key_lt (ch_scopes c);
  ok_depths : Forall (λ s, sc_depth s ≤ ch_current_depth c)%nat (ch_scopes c);
  ok_cleared : Forall (λ cl, cl_depth cl ≤ ch_current_depth c)%nat (ch_cleared_scopes c);
}.

(** The rules of the file of a configuration in a directory, if it can be read. *)
Definition file_rules (fs : file_system) (directory : list byte) (config : DirMergeConfig)
    : option (list FilterRule) :=
  match fs (path_push directory (dc_filename config)) with
  | FileText content =>
      match parse_content (dc_no_prefixes config) (dc_no_prefixes_include config)
              (dc_cvs_mode config) (dc_word_split config) content with
      | Ok rules => Some rules
      | Err _ => None
      end
  | _ => None
  end.

(** No file of the directory has a rule with the action. *)
Definition without (a : FilterAction) (fs : file_system) (directory : list byte)
    (configs : list DirMergeConfig) : Prop :=
  ∀ config rules, config ∈ configs → file_rules fs directory config = Some rules →
    Forall (λ r, fr_action r ≠ a) rules.

Lemma filter_all {A} (f : A → bool) l : Forall (λ x, f x = true) l → List.filter f l = l.
Proof. induction 1 as [|x l Hx Hl IH]; cbn; [done|]. by rewrite Hx, IH. Qed.

Lemma filter_none {A} (f : A → bool) l : Forall (λ x, f x = false) l → List.filter f l = [].
Proof. induction 1 as [|x l Hx Hl IH]; cbn; [done|]. by rewrite Hx, IH. Qed.

Lemma filter_split {A} (f : A → bool) l :
  List.filter (λ x, negb (f x)) l ++ List.filter f l ≡ₚ l.
Proof.
  induction l as [|x l IH]; cbn; [done|]. destruct (f x); cbn; [|by rewrite IH].
  by rewrite <-Permutation_middle, IH.
Qed.

Lemma sorted_filter {A} (R : A → A → Prop) (f : A → bool) l :
  StronglySorted R l → StronglySorted R (List.filter f l).
Proof.
  induction 1 as [|x l Hl IH Hx]; cbn; [constructor|]. destruct (f x); [|done].
  constructor; [done|]. rewrite Forall_forall in Hx |- *. intros y Hy.
  apply Hx. apply list_elem_of_In in Hy. apply filter_In in Hy as [Hy _].
  by apply list_elem_of_In.
Qed.

Lemma sorted_app {A} (R : A → A → Prop) l k :
  StronglySorted R l → StronglySorted R k → (∀ x y, x ∈ l → y ∈ k → R x y) →
  StronglySorted R (l ++ k).
Proof.
  intros Hl Hk H. induction Hl as [|x l Hl IH Hx]; cbn; [done|]. constructor.
  - apply IH. set_solver.
  - apply Forall_app. split; [done|]. apply Forall_forall. set_solver.
Qed.

Lemma split_none rules : Forall (λ r, fr_action r ≠ DirMerge) rules →
  split_dir_merge_rules rules = (rules, []).
Proof.
  induction 1 as [|r rules Hr Hrs IH]; cbn; [done|]. rewrite IH. by rewrite decide_False.
Qed.

#[export] Instance key_le_total : Total key_le.
Proof. intros a b. unfold key_le. lia. Qed.
#[export] Instance key_le_trans : Transitive key_le.
Proof. intros a b d. unfold key_le. lia. Qed.

Lemma key_lt_le a b : key_lt a b → key_le a b.
Proof. unfold key_lt, key_le. lia. Qed.

Lemma sorted_lt_le l : StronglySorted key_lt l → StronglySorted key_le l.
Proof.
  induction 1 as [|x l Hl IH Hx]; constructor; [done|]. eapply Forall_impl; [done|]. apply key_lt_le.
Qed.

Lemma key_lt_inj l x y : StronglySorted key_lt l → x ∈ l → y ∈ l → key_le x y → key_le y x → x = y.
Proof.
  induction 1 as [|z l Hl IH Hz]; [set_solver|]. rewrite Forall_forall in Hz.
  intros [->|Hx]%elem_of_cons [->|Hy]%elem_of_cons H1 H2; auto.
  - specialize (Hz y Hy). unfold key_lt, key_le in *. lia.
  - specialize (Hz x Hx). unfold key_lt, key_le in *. lia.
Qed.

(** Scopes that are sorted in the order of the walk are determined by which they are. *)
Lemma key_sorted_unique l k : StronglySorted key_lt l → StronglySorted key_le k → k ≡ₚ l → k = l.
Proof.
  intros Hl Hk Hp. apply (StronglySorted_unique_strong key_le); [|done|by apply sorted_lt_le|done].
  intros x y Hx Hy. rewrite Hp in Hx. by apply (key_lt_inj l).
Qed.

Lemma chain_ext a b :
  ch_global a = ch_global b → ch_merge_configs a = ch_merge_configs b →
  ch_delete_excluded a = ch_delete_excluded b → ch_transfer_root a = ch_transfer_root b →
  ch_cleared_scopes a = ch_cleared_scopes b → ch_scopes a = ch_scopes b →
  ch_current_depth a = ch_current_depth b → a = b.
Proof. destruct a, b. cbn. by intros -> -> -> -> -> -> ->. Qed.

Section entering.
Context (fs : file_system) (directory : list byte) (c : FilterChain).
Context (Hok : chain_ok c) (Hnest : without DirMerge fs directory (ch_merge_configs c)).

Let d : nat := S (ch_current_depth c).

(** The chain in the loop, before the configuration with index [i]: some scopes of the
    chain are kept and the others set aside, and there are new scopes of earlier indices. *)
Record entering (i : nat) (c' : FilterChain) (kept removed new : list DirScope) : Prop := {
  en_chain : c' = set_cleared (ch_cleared_scopes c ++ map (mkCleared d) removed)
                    (set_scopes (kept ++ new) (set_depth d c));
  en_perm : kept ++ removed ≡ₚ ch_scopes c;
  en_kept : StronglySorted key_lt kept;
  en_new : Forall (λ s, sc_depth s = d ∧ ∃ j, sc_config_index s = Some j ∧ (j < i)%nat) new;
  en_sorted : StronglySorted key_lt new;
  en_clears : without Clear fs directory (ch_merge_configs c) → removed = [];
}.

Lemma entering_start : entering 0 (set_depth d c) (ch_scopes c) [] [].
Proof. split; cbn [map]; rewrite ?app_nil_r; [done|done|apply Hok|constructor|constructor|done]. Qed.

Lemma entering_next i c' kept removed new :
  entering i c' kept removed new → entering (S i) c' kept removed new.
Proof.
  intros [??? Hnew ??]. split; try done. eapply Forall_impl; [done|]. cbn.
  intros s (? & j & ? & ?). split; [done|]. exists j. split; [done|lia].
Qed.

Lemma entering_kept i c' kept removed new :
  entering i c' kept removed new → Forall (λ s, sc_depth s < d)%nat kept.
Proof.
  intros [_ Hp _ _ _ _]. pose proof (ok_depths c Hok) as H. rewrite <-Hp in H.
  apply Forall_app in H as [H _]. eapply Forall_impl; [done|]. unfold d. cbn. lia.
Qed.

Lemma entering_clear i c' kept removed new : ¬ without Clear fs directory (ch_merge_configs c) →
  entering i c' kept removed new →
  ∃ kept' removed', entering i (clear_inherited_scopes i d c') kept' removed' new.
Proof.
  intros Hcl [Hc Hp Hk Hnew Hs Hc0].
  set (hit := λ s, bool_decide (sc_config_index s = Some i)).
  exists (List.filter (λ s, negb (hit s)) kept), (removed ++ List.filter hit kept).
  assert (Hno : Forall (λ s, hit s = false) new).
  { eapply Forall_impl; [done|]. cbn. intros s (_ & j & Hj & ?). unfold hit. rewrite Hj.
    apply bool_decide_false. intros [= ->]. lia. }
  split; try done.
  - rewrite Hc. unfold clear_inherited_scopes. subst hit. cbn. rewrite !List.filter_app.
    rewrite (filter_none _ new) by done.
    rewrite (filter_all _ new) by (eapply Forall_impl; [done|]; cbn; by intros s ->).
    by rewrite app_nil_r, map_app, <-app_assoc.
  - rewrite <-Hp, (Permutation_app_comm removed), app_assoc. by rewrite filter_split.
  - by apply sorted_filter.
Qed.

Lemma entering_push i c' kept removed new scope :
  sc_depth scope = d → sc_config_index scope = Some i → entering i c' kept removed new →
  entering (S i) (set_scopes (ch_scopes c' ++ [scope]) c') kept removed (new ++ [scope]).
Proof.
  intros Hd Hi [Hc Hp Hk Hnew Hs Hc0]. split; try done.
  - rewrite Hc. cbn. by rewrite <-app_assoc.
  - apply Forall_app. split.
    + eapply Forall_impl; [done|]. cbn. intros s (? & j & ? & ?). split; [done|]. exists j. split; [done|lia].
    + apply Forall_singleton. split; [done|]. exists i. split; [done|lia].
  - apply sorted_app; [done|repeat constructor|]. rewrite Forall_forall in Hnew.
    intros x y Hx ->%list_elem_of_singleton. destruct (Hnew x Hx) as (Hxd & j & Hj & ?).
    right. unfold scope_key. rewrite Hxd, Hd, Hj, Hi. cbn. lia.
Qed.

(** The turn of an index: the loop goes on, or the chain fails in a state of the loop. *)
Lemma enter_config_entering rel i n c' kept removed new :
  entering i c' kept removed new →
  match enter_config fs directory d rel i n c' with
  | (c2, Ok _) => ∃ kept' removed' new', entering (S i) c2 kept' removed' new'
  | (c2, Err e) => (c2, Err e) = fail_at (A := nat) d e c'
  end.
Proof.
  intros H. unfold enter_config.
  assert (Hcfg : ch_merge_configs c' = ch_merge_configs c) by by rewrite (en_chain _ _ _ _ _ H).
  rewrite Hcfg. destruct (ch_merge_configs c !! i) as [config|] eqn:Ei;
    [|by eauto using entering_next].
  assert (Hin : config ∈ ch_merge_configs c) by by eapply list_elem_of_lookup_2.
  assert (Hn := Hnest config). unfold without, file_rules in Hn.
  destruct (fs _) as [content| | |] eqn:Ef; try by eauto using entering_next.
  destruct (parse_content _ _ _ _ _) as [rules|] eqn:Ep; [|done].
  rewrite split_none by eauto.
  destruct (bool_decide (rules = []) && _ && _); [by eauto using entering_next|]. cbn [map].
  assert (∃ k r, entering i
    (if dc_inherit config && existsb (λ r0, bool_decide (fr_action r0 = Clear)) rules
     then clear_inherited_scopes i d c' else c') k r new) as (k & r & H2).
  { destruct (dc_inherit config && _) eqn:Ec; [|by eauto].
    apply andb_true_iff in Ec as [_ Ec]. apply existsb_exists in Ec as (r0 & Hr0 & Hr1).
    apply bool_decide_eq_true in Hr1. apply (entering_clear i c' kept removed); [|done].
    intros Hw. assert (Hf : Forall (λ r, fr_action r ≠ Clear) rules).
    { apply (Hw config); [done|]. unfold file_rules. by rewrite Ef, Ep. }
    rewrite Forall_forall in Hf. apply (Hf r0); [by apply list_elem_of_In|done]. }
  destruct (set_is_empty _); cbn [inline_loop]; [by eauto using entering_next|].
  do 3 eexists. by apply entering_push.
Qed.

Lemma enter_loop_entering rel i len n c' kept removed new :
  entering i c' kept removed new →
  match enter_loop fs directory d rel (seq i len) n c' with
  | (c2, Ok _) => ∃ kept' removed' new', entering (i + len) c2 kept' removed' new'
  | (c2, Err e) =>
      ∃ j c3 kept' removed' new', entering j c3 kept' removed' new' ∧
        (c2, Err e) = fail_at (A := nat) d e c3
  end.
Proof.
  revert i n c' kept removed new. induction len as [|len IH]; intros i n c' kept removed new H;
    cbn [seq enter_loop].
  { rewrite Nat.add_0_r. eauto. }
  pose proof (enter_config_entering rel i n c' kept removed new H) as Hs.
  destruct (enter_config _ _ _ _ _ _ _) as [c2 [n2|e]].
  - destruct Hs as (k & r & w & H2). rewrite <-Nat.add_succ_comm. by eapply IH.
  - exists i, c', kept, removed, new. done.
Qed.

Lemma entering_new_after i c' kept removed new x y :
  entering i c' kept removed new → x ∈ kept → y ∈ new → key_lt x y.
Proof.
  intros H Hx Hy. pose proof (entering_kept _ _ _ _ _ H) as Hk. rewrite Forall_forall in Hk.
  pose proof (en_new _ _ _ _ _ H) as Hn. rewrite Forall_forall in Hn.
  left. unfold scope_key. cbn. specialize (Hk x Hx). destruct (Hn y Hy) as [Hd _]. lia.
Qed.

Lemma entering_ok i c' kept removed new : entering i c' kept removed new → chain_ok c'.
Proof.
  intros H. pose proof (entering_kept _ _ _ _ _ H) as Hk.
  assert (Hord := entering_new_after i c' kept removed new).
  destruct H as [-> Hp Hks Hn Hs ?]. split; cbn.
  - apply sorted_app; [done..|]. intros x y. apply Hord. by split.
  - apply Forall_app. split; [eapply Forall_impl; [done|]; cbn; lia|].
    eapply Forall_impl; [done|]. cbn. intros s [-> _]. done.
  - apply Forall_app. split.
    + eapply Forall_impl; [apply (ok_cleared c Hok)|]. unfold d. cbn. lia.
    + apply Forall_fmap, Forall_true. intros x. cbn. lia.
Qed.

Lemma pop_entering i c' kept removed new : entering i c' kept removed new →
  pop_scopes_at_depth d c' = set_cleared (ch_cleared_scopes c ++ map (mkCleared d) removed)
                               (set_scopes kept (set_depth d c)).
Proof.
  intros H. pose proof (entering_kept _ _ _ _ _ H) as Hk. destruct H as [-> _ _ Hn _ _].
  unfold pop_scopes_at_depth. cbn. rewrite List.filter_app.
  rewrite (filter_all _ kept), (filter_none _ new), app_nil_r; [done|..].
  - eapply Forall_impl; [done|]. cbn. intros s [-> _]. by rewrite bool_decide_true.
  - eapply Forall_impl; [done|]. cbn. intros s ?. rewrite bool_decide_false by lia. done.
Qed.

Lemma cleared_not_here : Forall (λ cl, bool_decide (cl_depth cl = d) = false) (ch_cleared_scopes c).
Proof.
  eapply Forall_impl; [apply (ok_cleared c Hok)|]. unfold d. cbn. intros cl ?.
  apply bool_decide_false. lia.
Qed.

Lemma leave_entering i c' kept removed new n : entering i c' kept removed new →
  leave_directory (mkGuard d n) c' = c.
Proof.
  intros H. unfold leave_directory. cbn [gd_depth]. rewrite (pop_entering i _ _ _ _ H).
  destruct H as [_ Hp Hk _ _ _]. pose proof cleared_not_here as Hcl.
  unfold restore_cleared_scopes. cbn [ch_cleared_scopes set_cleared].
  rewrite existsb_app, !List.filter_app, (filter_none _ _ Hcl).
  assert (Hall : Forall (λ cl, bool_decide (cl_depth cl = d) = true) (map (mkCleared d) removed)).
  { apply Forall_fmap, Forall_true. intros x. by apply bool_decide_true. }
  rewrite (filter_all _ _ Hall).
  destruct (existsb _ _ || existsb _ _) eqn:Ee; cbn [negb].
  - rewrite (filter_all (λ cl, negb _) (ch_cleared_scopes c))
      by (eapply Forall_impl; [done|]; cbn; by intros ? ->).
    rewrite (filter_none (λ cl, negb _) (map _ removed))
      by (eapply Forall_impl; [done|]; cbn; by intros ? ->).
    rewrite app_nil_r, app_nil_l, map_map. cbn [cl_scope]. rewrite map_id.
    apply chain_ext; [done..| |unfold d; cbn; lia]. cbn [ch_scopes set_scopes set_depth set_cleared].
    apply key_sorted_unique; [apply Hok|apply (StronglySorted_merge_sort key_le)|].
    by rewrite merge_sort_Permutation.
  - apply orb_false_iff in Ee as [_ Ee]. destruct removed as [|x removed].
    2:{ cbn in Ee. by rewrite bool_decide_true in Ee. }
    rewrite app_nil_r in Hp. apply chain_ext; [done..|by apply app_nil_r| |unfold d; cbn; lia].
    apply key_sorted_unique; [apply Hok|by apply sorted_lt_le|done].
Qed.

Lemma enter_directory_entering :
  match enter_directory fs directory c with
  | (c2, Ok g) => gd_depth g = d ∧ ∃ i kept removed new, entering i c2 kept removed new
  | (c2, Err e) =>
      ∃ j c3 kept removed new, entering j c3 kept removed new ∧ c2 = (fail_at (A := nat) d e c3).1
  end.
Proof.
  unfold enter_directory. fold d.
  pose proof (enter_loop_entering (merge_rel_dir (set_depth d c) directory) 0
                (length (ch_merge_configs c)) 0 _ _ _ _ entering_start) as H.
  cbn [ch_merge_configs set_depth]. destruct (enter_loop _ _ _ _ _ _ _) as [c2 [n|e]].
  - split; [done|]. destruct H as (k & r & w & H). eauto.
  - destruct H as (j & c3 & k & r & w & H & E). exists j, c3, k, r, w. split; [done|].
    by rewrite <-E.
Qed.

Lemma enter_leave c2 g : enter_directory fs directory c = (c2, Ok g) →
  chain_ok c2 ∧ ch_merge_configs c2 = ch_merge_configs c ∧ leave_directory g c2 = c.
Proof.
  intros E. pose proof enter_directory_entering as H. rewrite E in H.
  destruct g as [gd n]; cbn in H. destruct H as [-> (i & k & r & w & H)].
  split_and!; [by eapply entering_ok|by rewrite (en_chain _ _ _ _ _ H)|by eapply leave_entering].
Qed.

Lemma enter_fails c2 e : without Clear fs directory (ch_merge_configs c) →
  enter_directory fs directory c = (c2, Err e) → c2 = c.
Proof.
  intros Hcl E. pose proof enter_directory_entering as H. rewrite E in H.
  destruct H as (j & c3 & k & r & w & H & ->). unfold fail_at. rewrite (pop_entering j _ _ _ _ H).
  cbn [fst]. destruct H as [_ Hp Hk _ _ Hr]. rewrite (Hr Hcl) in *. rewrite app_nil_r in Hp.
  apply chain_ext; [done..|by apply app_nil_r| |unfold d; cbn; lia].
  apply key_sorted_unique; [apply Hok|by apply sorted_lt_le|done].
Qed.

End entering.

Lemma push_leave fset c g c2 : chain_ok c → push_scope fset c = (g, c2) →
  chain_ok c2 ∧ ch_merge_configs c2 = ch_merge_configs c ∧ leave_directory g c2 = c.
Proof.
  intros Hok Hpush. pose proof (cleared_not_here c Hok) as Hcl.
  assert (Hd : Forall (λ s, negb (bool_decide (sc_depth s = S (ch_current_depth c))) = true) (ch_scopes c)).
  { eapply Forall_impl; [apply (ok_depths c Hok)|]. cbn. intros s ?. by rewrite bool_decide_false by lia. }
  assert (Hex : existsb (λ cl, bool_decide (cl_depth cl = S (ch_current_depth c))) (ch_cleared_scopes c) = false).
  { apply not_true_is_false. intros (cl & H1 & H2)%existsb_exists. apply list_elem_of_In in H1.
    rewrite Forall_forall in Hcl. specialize (Hcl cl H1). congruence. }
  assert (Hup : Forall (λ cl, cl_depth cl ≤ S (ch_current_depth c))%nat (ch_cleared_scopes c)).
  { eapply Forall_impl; [apply (ok_cleared c Hok)|]. cbn. lia. }
  assert (Hup2 : Forall (λ s, sc_depth s ≤ S (ch_current_depth c))%nat (ch_scopes c)).
  { eapply Forall_impl; [apply (ok_depths c Hok)|]. cbn. lia. }
  unfold push_scope in Hpush. destruct (set_is_empty fset); injection Hpush as <- <-;
    (split_and!; [split; cbn; [ |by rewrite ?Forall_app, ?Forall_singleton|done]|done|]);
    try (unfold leave_directory, restore_cleared_scopes, pop_scopes_at_depth; cbn;
         rewrite Hex; cbn;
         apply chain_ext; [done..| |cbn; lia]; cbn; rewrite ?List.filter_app, (filter_all _ _ Hd);
         cbn; rewrite ?bool_decide_true by done; cbn; by rewrite ?app_nil_r).
  - apply Hok.
  - apply sorted_app; [apply Hok|repeat constructor|]. intros x y Hx ->%list_elem_of_singleton.
    left. unfold scope_key. cbn. pose proof (ok_depths c Hok) as H. rewrite Forall_forall in H.
    specialize (H x Hx). lia.
Qed.

(** A walk of a tree: directories are entered and left, and between the two there are walks
    of what is below; rules that came from elsewhere may be pushed in place of a directory. *)
Inductive walk (fs : file_system) : FilterChain → FilterChain → Prop :=
| walk_done c : walk fs c c
| walk_dir directory c c1 g c2 c3 :
    enter_directory fs directory c = (c1, Ok g) → walk fs c1 c2 →
    walk fs (leave_directory g c2) c3 → walk fs c c3
| walk_push fset c c1 g c2 c3 :
    push_scope fset c = (g, c1) → walk fs c1 c2 →
    walk fs (leave_directory g c2) c3 → walk fs c c3.

(** ** The chain as one list of rules *)

(** A stable sort by a number, and the least element that matches. *)
Section least.
Context {A : Type} (k : A → nat).

Fixpoint insert_by (x : A) (l : list A) : list A :=
  match l with
  | [] => [x]
  | y :: l' => if decide (k x ≤ k y)%nat then x :: l else y :: insert_by x l'
  end.

Definition sort_by (l : list A) : list A := foldr insert_by [] l.

Lemma insert_by_elem x l y : y ∈ insert_by x l ↔ y = x ∨ y ∈ l.
Proof. induction l as [|z l IH]; cbn; [set_solver|]. case_decide; set_solver. Qed.

Lemma insert_by_sorted x l : StronglySorted (λ x y, k x ≤ k y)%nat l →
  StronglySorted (λ x y, k x ≤ k y)%nat (insert_by x l).
Proof.
  induction 1 as [|y s Hs IH Hy]; cbn; [repeat constructor|]. case_decide.
  - constructor; [by constructor|]. constructor; [done|]. eapply Forall_impl; [done|]. cbn. lia.
  - constructor; [done|]. rewrite Forall_forall in Hy |- *.
    intros z [->|Hz]%insert_by_elem; [lia|auto].
Qed.

Lemma sort_by_sorted l : StronglySorted (λ x y, k x ≤ k y)%nat (sort_by l).
Proof. induction l as [|x l IH]; cbn; [constructor|]. by apply insert_by_sorted. Qed.

Lemma sort_by_elem l y : y ∈ sort_by l ↔ y ∈ l.
Proof. induction l as [|x l IH]; cbn; [done|]. rewrite insert_by_elem, IH. set_solver. Qed.

Context (m : A → bool).

Definition least_step (best : option A) (x : A) : option A :=
  if negb (m x) then best
  else
    match best with
    | Some y => if decide (k y ≤ k x)%nat then best else Some x
    | None => Some x
    end.

Lemma find_insert_by x l : StronglySorted (λ x y, k x ≤ k y)%nat l →
  List.find m (insert_by x l) =
  match List.find m l with
  | Some y => if m x && bool_decide (k x ≤ k y)%nat then Some x else Some y
  | None => if m x then Some x else None
  end.
Proof.
  induction 1 as [|y l Hl IH Hy]; cbn; [done|]. case_decide as Hk; cbn [List.find].
  - destruct (m y) eqn:Em; [by rewrite bool_decide_true, andb_true_r by done|].
    destruct (List.find m l) as [z|] eqn:Ef; [|done]. apply find_some in Ef as [Hz _].
    rewrite Forall_forall in Hy. specialize (Hy z (proj2 (list_elem_of_In _ _) Hz)).
    by rewrite bool_decide_true, andb_true_r by lia.
  - destruct (m y); [by rewrite bool_decide_false, andb_false_r by done|]. by rewrite IH.
Qed.

Lemma least_spec best l :
  foldl least_step best l =
  match List.find m (sort_by l) with
  | None => best
  | Some y => match best with Some x => if decide (k x ≤ k y)%nat then best else Some y | None => Some y end
  end.
Proof.
  revert best. induction l as [|x l IH]; intros best; [done|]. cbn [foldl sort_by foldr].
  fold (sort_by l). rewrite IH, find_insert_by by apply sort_by_sorted.
  unfold least_step. destruct (List.find m (sort_by l)) as [y|] eqn:Ef, best as [b|], (m x) eqn:Em;
    cbn [negb andb]; repeat (case_bool_decide || case_decide); try done; lia.
Qed.
End least.

(** The rule that decides a transfer in a walk, and its verdict. *)
Definition first_rule (path : list byte) (is_dir : bool) (rules : list CompiledRule)
    : option CompiledRule :=
  first_matching_rule rules path is_dir cr_applies_to_sender true false false.

Definition rule_verdict (rule : option CompiledRule) : bool :=
  match rule with Some rule => negb (bool_decide (cr_action rule = Exclude)) | None => true end.

(** The scopes in force, in the order of their directives, and those of one directive with
    the innermost first. *)
Definition layers (c : FilterChain) : list DirScope :=
  sort_by sc_directive_order
    (List.filter (λ s, scope_applies_here c s && negb (set_is_empty (sc_filter_set s)))
       (reverse (ch_scopes c))).

(** The rules of a scope, those that protect or risk behind the others. *)
Definition section (fs : FilterSetInner) : list CompiledRule := fs_include_exclude fs ++ fs_protect_risk fs.

(** The rules of the command line with the rules of each scope in the place of its
    directive. *)
Fixpoint one_list (ls : list DirScope) (globals : list CompiledRule) : list CompiledRule :=
  match ls with
  | [] => globals
  | s :: ls' =>
      List.filter (λ r, bool_decide (cr_order r < sc_directive_order s)%nat) globals ++
      section (sc_filter_set s) ++
      one_list ls' (List.filter (λ r, bool_decide (sc_directive_order s ≤ cr_order r)%nat) globals)
  end.

(** Sets are compiled from rules, which is the only way to make one. *)
Definition compiled (fs : FilterSetInner) : Prop := ∃ rules, fs = from_rules rules.

Lemma compiled_kinds fs : compiled fs →
  Forall (λ r, cr_action r = Include ∨ cr_action r = Exclude) (fs_include_exclude fs) ∧
  Forall (λ r, cr_action r ≠ Exclude) (fs_protect_risk fs).
Proof.
  intros [rules ->]. destruct (from_rules_partitioned rules) as [order [-> -> _ _ _]].
  rewrite !Forall_forall. setoid_rewrite list_elem_of_In. setoid_rewrite filter_In. unfold is_ie, is_pr. split.
  - intros r [_ [H|H]%orb_prop]; apply bool_decide_eq_true in H; auto.
  - intros r [_ [H|H]%orb_prop]; apply bool_decide_eq_true in H; by rewrite H.
Qed.

Lemma find_app {A} (f : A → bool) l k :
  List.find f (l ++ k) = match List.find f l with Some x => Some x | None => List.find f k end.
Proof. induction l as [|x l IH]; cbn; [done|]. by destruct (f x). Qed.

Lemma find_filter {A} (f p : A → bool) l :
  match List.find f l with Some x => p x = true | None => True end →
  List.find f (List.filter p l) = List.find f l.
Proof.
  induction l as [|x l IH]; cbn; [done|]. destruct (f x) eqn:Ef.
  - intros ->. cbn. by rewrite Ef.
  - intros H. destruct (p x); cbn; rewrite ?Ef; auto.
Qed.

Lemma find_filter_none {A} (f p : A → bool) l :
  (∀ x, In x l → f x = true → p x = false) → List.find f (List.filter p l) = None.
Proof.
  intros H. destruct (List.find f (List.filter p l)) as [x|] eqn:E; [|done].
  apply find_some in E as [E1 E2]. apply filter_In in E1 as [E1 E3]. by rewrite (H x) in E3.
Qed.

(** The first match of an ordered list has the least order. *)
Lemma find_least (f : CompiledRule → bool) l g x :
  StronglySorted (λ r s, cr_order r < cr_order s)%nat l →
  List.find f l = Some g → In x l → f x = true → (cr_order g ≤ cr_order x)%nat.
Proof.
  induction 1 as [|y l Hl IH Hy]; cbn; [done|]. rewrite Forall_forall in Hy.
  destruct (f y) eqn:Ef.
  - intros [= ->] [->|Hx] _; [done|]. specialize (Hy x (proj2 (list_elem_of_In _ _) Hx)). lia.
  - intros Hg [->|Hx] Hf; [congruence|auto].
Qed.

Lemma one_list_find (f : CompiledRule → bool) ls globals :
  StronglySorted (λ x y, sc_directive_order x ≤ sc_directive_order y)%nat ls →
  StronglySorted (λ r s, cr_order r < cr_order s)%nat globals →
  let own := λ s, List.find f (section (sc_filter_set s)) in
  List.find f (one_list ls globals) =
  match List.find (λ s, bool_decide (is_Some (own s))) ls with
  | Some s => if scope_first s (cr_order <$> List.find f globals) then own s else List.find f globals
  | None => List.find f globals
  end.
Proof.
  intros Hls. revert globals. induction Hls as [|s ls Hls IH Hs]; intros globals Hg own; [done|].
  cbn [one_list List.find]. rewrite !find_app, IH by by apply sorted_filter. fold own.
  rewrite Forall_forall in Hs. destruct (List.find f globals) as [r|] eqn:Er.
  2:{ rewrite !(find_filter _ _ globals), Er by by rewrite Er. cbn. fold (own s).
      by destruct (own s) eqn:Es; cbn; rewrite ?Es. }
  destruct (decide (cr_order r < sc_directive_order s)%nat) as [Hlt|Hge].
  - rewrite find_filter, Er by (rewrite Er; by apply bool_decide_true).
    assert (Hl : ∀ s', s' = s ∨ s' ∈ ls → scope_first s' (cr_order <$> Some r) = false).
    { cbn. intros s' [->|H']; apply bool_decide_false; [lia|]. specialize (Hs s' H'). lia. }
    case_bool_decide; [by rewrite Hl by auto|]. destruct (List.find _ ls) as [s'|] eqn:Ef; [|done].
    apply find_some in Ef as [Ef _]. by rewrite Hl by (right; by apply list_elem_of_In).
  - rewrite (find_filter_none f).
    2:{ intros x Hx Hf. apply bool_decide_false.
        pose proof (find_least f globals r x Hg Er Hx Hf). lia. }
    rewrite (find_filter f _ globals), Er by (rewrite Er; apply bool_decide_true; lia).
    fold (own s). destruct (own s) eqn:Es; cbn; [|done].
    rewrite bool_decide_true by lia. by rewrite Es.
Qed.

Lemma one_list_first path is_dir ls globals :
  StronglySorted (λ x y, sc_directive_order x ≤ sc_directive_order y)%nat ls →
  StronglySorted (λ r s, cr_order r < cr_order s)%nat globals →
  let own := λ s, first_rule path is_dir (section (sc_filter_set s)) in
  let g := first_rule path is_dir globals in
  first_rule path is_dir (one_list ls globals) =
  match List.find (λ s, bool_decide (is_Some (own s))) ls with
  | Some s => if scope_first s (cr_order <$> g) then own s else g
  | None => g
  end.
Proof. exact (one_list_find _ ls globals). Qed.

Lemma find_ext_in {A} (f g : A → bool) l : (∀ x, In x l → f x = g x) → List.find f l = List.find g l.
Proof. induction l as [|x l IH]; cbn; [done|]. intros H. rewrite <-(H x), IH by auto. done. Qed.

Lemma transfer_rule_match fs path is_dir :
  has_transfer_rule_match fs path is_dir = bool_decide (is_Some (first_rule path is_dir (section fs))).
Proof.
  unfold has_transfer_rule_match, has_matching_rule, first_rule, section, first_matching_rule. rewrite find_app.
  rewrite (bool_decide_false (TransferCtx = DeletionCtx)) by done.
  destruct (List.find _ (fs_include_exclude fs)); [done|]. by destruct (List.find _ (fs_protect_risk fs)).
Qed.

(** The scan of the stack finds the first of the layers that has a rule for the path. *)
Lemma best_scope_layers c path is_dir :
  best_scope c path is_dir false =
  List.find (λ s, bool_decide (is_Some (first_rule path is_dir (section (sc_filter_set s))))) (layers c).
Proof.
  unfold best_scope, layers.
  set (act := λ s, scope_applies_here c s && negb (set_is_empty (sc_filter_set s))).
  set (own := λ s, has_transfer_rule_match (sc_filter_set s) path is_dir).
  assert (E : ∀ best l, foldl (best_step c path is_dir false) best l =
                        foldl (least_step sc_directive_order own) best (List.filter act l)).
  { intros best l. revert best. induction l as [|s l IH]; intros best; [done|]. cbn [foldl List.filter].
    rewrite IH. unfold best_step, scope_matches. fold (act s) (own s).
    destruct (act s); cbn [andb negb foldl]; done. }
  rewrite E, least_spec. rewrite (find_ext_in own (λ s, bool_decide (is_Some (first_rule path is_dir (section (sc_filter_set s)))))).
  - by destruct (List.find _ _).
  - intros s _. apply transfer_rule_match.
Qed.

(** What a set says is what the first of its rules says. *)
Lemma section_verdict fs path is_dir : compiled fs →
  allows_during_traversal fs path is_dir = rule_verdict (first_rule path is_dir (section fs)).
Proof.
  intros Hc%compiled_kinds. rewrite !Forall_forall in Hc. destruct Hc as [Hi Hp].
  assert (allows_during_traversal fs path is_dir =
    match first_rule path is_dir (fs_include_exclude fs) with
    | Some r => bool_decide (cr_action r = Include) | None => true end) as ->.
  { by destruct (first_rule path is_dir (fs_include_exclude fs)) eqn:E; unfold allows_during_traversal,
      decision_with_traversal, first_rule in *; cbn; rewrite ?E. }
  unfold section, first_rule, first_matching_rule. rewrite find_app.
  destruct (List.find _ (fs_include_exclude fs)) as [r|] eqn:E; cbn [rule_verdict].
  - apply find_some in E as [E _]. apply list_elem_of_In in E. by destruct (Hi r E) as [-> | ->].
  - destruct (List.find _ (fs_protect_risk fs)) as [r|] eqn:E2; [|done]. cbn.
    apply find_some in E2 as [E2 _]. apply list_elem_of_In in E2. by rewrite bool_decide_false by by apply Hp.
Qed.

Lemma global_verdict fs path is_dir : compiled fs →
  allows_during_traversal fs path is_dir = rule_verdict (first_rule path is_dir (fs_include_exclude fs)).
Proof.
  intros Hc. rewrite section_verdict by done. unfold section, first_rule, first_matching_rule. rewrite find_app.
  destruct (List.find _ (fs_include_exclude fs)); [done|].
  destruct (List.find _ (fs_protect_risk fs)) as [r|] eqn:E2; [|done]. cbn.
  apply compiled_kinds in Hc as [_ Hp]. rewrite Forall_forall in Hp.
  apply find_some in E2 as [E2 _]. apply list_elem_of_In in E2. by rewrite bool_decide_false by by apply Hp.
Qed.

(** ** Properties *)

(** C13: A walk of a tree in which every directory that is entered is left again ends with
    the chain it began with, whatever the files of the directories say, clear rules
    included: neither does a rule of one directory reach a directory beside it nor is one
    of the directories above lost.  The files have no directives that name other files to
    be read in directories. *)
Theorem walk_restores (fs : file_system) (c c' : FilterChain) :
  chain_ok c → (∀ directory, without DirMerge fs directory (ch_merge_configs c)) →
  walk fs c c' → c' = c.
Proof.
  intros Hok Hnest Hw. induction Hw as [c|dir c c1 g c2 c3 E Hw1 IH1 Hw2 IH2|fset c c1 g c2 c3 E Hw1 IH1 Hw2 IH2];
    [done|..].
  - destruct (enter_leave fs dir c Hok (Hnest dir) c1 g E) as (Hok1 & Hcfg & Hl).
    rewrite <-Hcfg in Hnest. rewrite (IH1 Hok1 Hnest), Hl in IH2. rewrite Hcfg in Hnest. auto.
  - destruct (push_leave fset c g c1 Hok E) as (Hok1 & Hcfg & Hl).
    rewrite <-Hcfg in Hnest. rewrite (IH1 Hok1 Hnest), Hl in IH2. rewrite Hcfg in Hnest. auto.
Qed.

(** A directory that cannot be entered, because a file of it cannot be read or has an
    error, leaves the chain as it was, provided no file of the directory has a clear rule
    or a directive for other files. *)
Theorem failed_enter_restores (fs : file_system) (directory : list byte) (c c' : FilterChain)
    (e : chain_error) :
  chain_ok c → without DirMerge fs directory (ch_merge_configs c) →
  without Clear fs directory (ch_merge_configs c) →
  enter_directory fs directory c = (c', Err e) → c' = c.
Proof. intros Hok Hnest Hcl. by apply enter_fails. Qed.

(** C11: The verdict on transferring a path in a walk is that of one list of rules: the
    include and exclude rules of the command line, with the rules of each directory on the
    way in the place of the directive that had them read, inner directories before outer
    ones.  The first rule that matches and concerns the sender decides, and excludes the path
    if it is an exclude rule.  Rules of a directory that protect or risk are behind its other
    rules, and let the path through. *)
Theorem chain_is_one_list (c : FilterChain) (path : list byte) (is_dir : bool) :
  compiled (ch_global c) → Forall (λ s, compiled (sc_filter_set s)) (ch_scopes c) →
  chain_allows c path is_dir =
  rule_verdict (first_rule path is_dir (one_list (layers c) (fs_include_exclude (ch_global c)))).
Proof.
  intros Hg Hc. unfold chain_allows. rewrite best_scope_layers.
  destruct Hg as [rules Hg]. destruct (from_rules_partitioned rules) as [order [H1 _ _ H4 _]]. rewrite <-Hg in H1.
  assert (Hs : StronglySorted (λ r s, cr_order r < cr_order s)%nat (fs_include_exclude (ch_global c))).
  { rewrite H1. by apply sorted_filter. }
  rewrite one_list_first by (done || apply sort_by_sorted).
  assert (Hgl : compiled (ch_global c)) by by exists rules.
  change (transfer_match_order (ch_global c) path is_dir) with
    (cr_order <$> first_rule path is_dir (fs_include_exclude (ch_global c))).
  destruct (List.find _ (layers c)) as [s|] eqn:E; [|by apply global_verdict].
  destruct (scope_first _ _); [|by apply global_verdict]. apply section_verdict.
  rewrite Forall_forall in Hc. apply Hc. apply find_some in E as [E _]. apply list_elem_of_In, sort_by_elem in E.
  apply list_elem_of_In, filter_In in E as [E _]. by rewrite <-list_elem_of_In, elem_of_reverse in E.
Qed.

(** A tree with a file of rules at its top and one with a clear rule in a directory. *)
Definition example_fs (p : list byte) : file :=
  if decide (p = bytes "r/.f") then FileText (bytes "- y")
  else if decide (p = bytes "r/d/.f") then FileText (bytes "!
- x
")
  else if decide (p = bytes "r/e/.f") then FileText (bytes "what")
  else FileNotFound.

Definition example_chain : FilterChain :=
  add_merge_config (config_new (bytes ".f")) (chain_new (from_rules [rule_exclude (bytes "*.o")])).

Lemma example_chain_ok : chain_ok example_chain.
Proof. split; constructor. Qed.

Lemma example_no_directives directory :
  without DirMerge example_fs directory (ch_merge_configs example_chain).
Proof.
  intros config rules ->%list_elem_of_singleton. unfold file_rules, example_fs.
  repeat (destruct (decide (_ = _)); [vm_compute; intros [= <-]; repeat constructor; done|]). done.
Qed.

Lemma pair_snd {A B} (p : A * B) b : p.2 = b → p = (p.1, b).
Proof. by destruct p as [? ?]; cbn; intros ->. Qed.

Lemma walk_restores_witness :
  let c1 := (enter_directory example_fs (bytes "r") example_chain).1 in
  let c2 := (enter_directory example_fs (bytes "r/d") c1).1 in
  length (ch_cleared_scopes c2) = 1%nat ∧
  leave_directory (mkGuard 1 1) (leave_directory (mkGuard 2 1) c2) = example_chain.
Proof.
  intros c1 c2. split; [vm_compute; reflexivity|].
  apply (walk_restores example_fs); [apply example_chain_ok|apply example_no_directives|].
  apply (walk_dir _ (bytes "r") _ c1 (mkGuard 1 1) (leave_directory (mkGuard 2 1) c2));
    [apply pair_snd; vm_compute; reflexivity| |apply walk_done].
  apply (walk_dir _ (bytes "r/d") _ c2 (mkGuard 2 1) c2);
    [apply pair_snd; vm_compute; reflexivity|apply walk_done|apply walk_done].
Defined.

Lemma failed_enter_restores_witness :
  (enter_directory example_fs (bytes "r/e") example_chain).1 = example_chain.
Proof.
  apply (failed_enter_restores example_fs (bytes "r/e") example_chain _ ChainParse);
    [apply example_chain_ok|apply example_no_directives| |apply pair_snd; vm_compute; reflexivity].
  intros config rules ->%list_elem_of_singleton. vm_compute. discriminate.
Defined.

Lemma chain_is_one_list_witness :
  let c := add_merge_config (config_new (bytes ".f"))
             (chain_new (from_rules [rule_exclude (bytes "*.o")])) in
  let c := (push_scope (from_rules [rule_include (bytes "keep.o")]) c).2 in
  chain_allows c (bytes "keep.o") false =
  rule_verdict (first_rule (bytes "keep.o") false (one_list (layers c) (fs_include_exclude (ch_global c)))).
Proof.
  apply chain_is_one_list; [by exists [rule_exclude (bytes "*.o")]|].
  apply Forall_cons. split; [by exists [rule_include (bytes "keep.o")]|apply Forall_nil; exact I].
Defined.

(** A directive in a file of one directory that names another file stays in force after
    the directory is left: a directory beside it then has a file of that name read which it
    would not have read had the first directory not been visited. *)
Theorem nested_directive_outlives_directory :
  let fs := λ p : list byte,
    if decide (p = bytes "d/.a") then FileText (bytes ": .b")
    else if decide (p = bytes "e/.b") then FileText (bytes "- x") else FileNotFound in
  let c := add_merge_config (config_new (bytes ".a")) (chain_new (from_rules [])) in
  let at_e := λ c, chain_allows (enter_directory fs (bytes "e") c).1 (bytes "x") false in
  let after_d :=
    match enter_directory fs (bytes "d") c with
    | (c', Ok g) => leave_directory g c'
    | (c', Err _) => c'
    end in
  at_e c = true ∧ at_e after_d = false.
Proof. vm_compute. done. Qed.

(** A clear rule in a file that is read twice in a directory, once by its own configuration
    and once by a directive of another file, leaves rules of the directory behind. *)
Lemma reread_clear_leaks_scope :
  let fs := λ p : list byte,
    if decide (p = bytes "d/.a") then FileText (bytes ": .b")
    else if decide (p = bytes "d/.b") then FileText (bytes "!
- x") else FileNotFound in
  let c := add_merge_config (config_new (bytes ".b"))
             (add_merge_config (config_new (bytes ".a")) (chain_new (from_rules []))) in
  match enter_directory fs (bytes "d") c with
  | (c', Ok g) =>
      chain_allows c (bytes "x") false = true ∧
      chain_allows (leave_directory g c') (bytes "x") false = false
  | (_, Err _) => False
  end.
Proof. vm_compute. done. Qed.

(** An error in one file of a directory, after a clear rule in another, loses the rules of
    the directories above. *)
Lemma failed_enter_loses_rules :
  let fs := λ p : list byte,
    if decide (p = bytes "d/.a") then FileText (bytes "P x")
    else if decide (p = bytes "d/e/.a") then FileText (bytes "!")
    else if decide (p = bytes "d/e/.b") then FileText (bytes "what") else FileNotFound in
  let c := add_merge_config (config_new (bytes ".b"))
             (add_merge_config (config_new (bytes ".a")) (chain_new (from_rules []))) in
  let c1 := (enter_directory fs (bytes "d") c).1 in
  let c2 := (enter_directory fs (bytes "d/e") c1).1 in
  chain_allows_deletion c1 (bytes "x") false = false ∧
  ch_current_depth c2 = ch_current_depth c1 ∧
  chain_allows_deletion c2 (bytes "x") false = true.
Proof. vm_compute. done. Qed.
