(* ===== verification/Bandwidth.v ===== *)
(** * The bandwidth limiters ([crates/bandwidth/src/])

    [--bwlimit] is parsed into a rate and a burst, a daemon module may override both, and a
    limiter paces the transfer: it keeps the bytes that were written and not yet paid for by
    time, and sleeps when they are worth a tenth of a second.  A second limiter for
    asynchronous code keeps tokens instead. *)

From S2P Require Import Prelude Wildmatch FilterWire.
From stdpp Require Import strings.

Local Open Scope Z_scope.

(** ** The limiter ([limiter/core/], [limiter/mod.rs], [limiter/sleep.rs]) *)

Definition MICROS_PER_SECOND : Z := 1000000.
Definition MINIMUM_SLEEP_MICROS : Z := MICROS_PER_SECOND / 10.
Definition MIN_WRITE_MAX : Z := 512.
Definition u64_max : Z := 2 ^ 64 - 1.
Definition u128_max : Z := 2 ^ 128 - 1.

(** Durations and instants are counted in nanoseconds. *)
Definition duration_max : Z := u64_max * 10 ^ 9 + 999999999.
Definition MAX_SLEEP_DURATION : Z := (2 ^ 63 - 1) * 10 ^ 9 + 999999999.
Definition MAX_REPRESENTABLE_MICROSECONDS : Z := u64_max * MICROS_PER_SECOND + (MICROS_PER_SECOND - 1).

(** [saturating_add] and [saturating_mul] on [u128]. *)
Definition sat128 (x : Z) : Z := Z.min x u128_max.

(** [usize] has 64 bits. *)
Definition calculate_write_max (limit : Z) (burst : option Z) : Z :=
  let kib := if limit <? 1024 then 1 else limit / 1024 in
  let base_write_max := Z.max (sat128 (kib * 128)) MIN_WRITE_MAX in
  let write_max := Z.min base_write_max u64_max in
  let write_max := match burst with
                   | Some burst => Z.max (Z.max (Z.min burst u64_max) MIN_WRITE_MAX) 1
                   | None => write_max
                   end in
  Z.max write_max MIN_WRITE_MAX.

Record BandwidthLimiter := mkLimiter {
  limit_bytes : Z;
  write_max : Z;
  burst_bytes : option Z;
  total_written : Z;
  last_instant : option Z;
  simulated_elapsed_us : Z;
}.

Definition with_burst (limit : Z) (burst : option Z) : BandwidthLimiter :=
  mkLimiter limit (calculate_write_max limit burst) burst 0 None 0.
Definition limiter_new (limit : Z) : BandwidthLimiter := with_burst limit None.
Definition update_configuration (limit : Z) (burst : option Z) (l : BandwidthLimiter) : BandwidthLimiter :=
  mkLimiter limit (calculate_write_max limit burst) burst 0 None 0.
Definition update_limit (limit : Z) (l : BandwidthLimiter) : BandwidthLimiter :=
  update_configuration limit (burst_bytes l) l.
Definition limiter_reset (l : BandwidthLimiter) : BandwidthLimiter :=
  mkLimiter (limit_bytes l) (write_max l) (burst_bytes l) 0 None 0.

Definition recommended_read_size (l : BandwidthLimiter) (buffer_len : Z) : Z :=
  Z.min buffer_len (Z.max (write_max l) 1).

Definition clamp_debt_to_burst (l : BandwidthLimiter) (total : Z) : Z :=
  match burst_bytes l with Some burst => Z.min total burst | None => total end.

Definition duration_from_microseconds (us : Z) : Z :=
  if us =? 0 then 0
  else if MAX_REPRESENTABLE_MICROSECONDS <? us then duration_max
  else us / MICROS_PER_SECOND * 10 ^ 9 + us mod MICROS_PER_SECOND * 1000.

(** [as_micros] of the time between two instants, in 64 bits. *)
Definition micros_between (a b : Z) : Z := Z.min (Z.max 0 (b - a) / 1000) u64_max.

(** [sleep_for]: the durations that are slept one after the other. *)
Fixpoint sleep_for (fuel : nat) (remaining : Z) : list Z :=
  match fuel with
  | O => []
  | S fuel =>
      if remaining =? 0 then []
      else
        let chunk := Z.min remaining MAX_SLEEP_DURATION in
        if chunk =? 0 then [] else chunk :: sleep_for fuel (Z.max 0 (remaining - chunk))
  end.

Record LimiterSleep := mkSleep { requested : Z; actual : Z }.

(** The clock shows [start] on entry, and [stop] after the sleep if there is one. *)
Definition register (start stop bytes : Z) (l : BandwidthLimiter) : LimiterSleep * BandwidthLimiter :=
  if bytes =? 0 then (mkSleep 0 0, l)
  else
    let rate := limit_bytes l in
    let total := clamp_debt_to_burst l (sat128 (total_written l + bytes)) in
    let elapsed_us := match last_instant l with
                      | Some previous => sat128 (simulated_elapsed_us l + micros_between previous start)
                      | None => simulated_elapsed_us l
                      end in
    let total := if 0 <? elapsed_us
                 then let allowed := sat128 (elapsed_us * rate) / MICROS_PER_SECOND in
                      if total <=? allowed then 0 else total - allowed
                 else total in
    let total := clamp_debt_to_burst l total in
    let sleep_us := sat128 (total * MICROS_PER_SECOND) / rate in
    if sleep_us <? MINIMUM_SLEEP_MICROS
    then (mkSleep 0 0, mkLimiter rate (write_max l) (burst_bytes l) total (Some start) 0)
    else
      let elapsed_us := micros_between start stop in
      let simulated := if elapsed_us <? sleep_us then sleep_us - elapsed_us else 0 in
      let leftover := sat128 (Z.max 0 (sleep_us - elapsed_us) * rate) / MICROS_PER_SECOND in
      (mkSleep (duration_from_microseconds sleep_us) (elapsed_us * 1000),
       mkLimiter rate (write_max l) (burst_bytes l) (clamp_debt_to_burst l leftover) (Some stop) simulated).

(** ** The limiter of asynchronous code ([async_limiter.rs]) *)

Record AsyncRateLimiter := mkAsync {
  al_rate : Z;
  al_burst : Z;
  al_tokens : Z;
  al_last_replenish : Z;
}.

(** [None] is the panic of a rate of zero. *)
Definition async_new (now bytes_per_second : Z) : option AsyncRateLimiter :=
  if bytes_per_second =? 0 then None
  else Some (mkAsync bytes_per_second bytes_per_second bytes_per_second now).

Definition replenish (now : Z) (l : AsyncRateLimiter) : AsyncRateLimiter :=
  let elapsed_nanos := Z.max 0 (now - al_last_replenish l) in
  let earned := Z.min (wrap 128 (elapsed_nanos * al_rate l) / 10 ^ 9) u64_max in
  mkAsync (al_rate l) (al_burst l) (Z.min (Z.min (al_tokens l + earned) u64_max) (al_burst l)) now.

(** The nanoseconds to sleep, if any, and the limiter after the call; the clock shows [start]
    on entry and [stop] after the sleep. *)
Definition consume (start stop bytes : Z) (l : AsyncRateLimiter) : option Z * AsyncRateLimiter :=
  let l := replenish start l in
  if bytes =? 0 then (None, l)
  else if bytes <=? al_tokens l
  then (None, mkAsync (al_rate l) (al_burst l) (al_tokens l - bytes) (al_last_replenish l))
  else
    let deficit := bytes - al_tokens l in
    let l := mkAsync (al_rate l) (al_burst l) 0 (al_last_replenish l) in
    let sleep_nanos := wrap 64 (deficit * 10 ^ 9 / al_rate l) in
    (Some sleep_nanos, replenish stop l).

Definition async_reset (now : Z) (l : AsyncRateLimiter) : AsyncRateLimiter :=
  mkAsync (al_rate l) (al_burst l) (al_burst l) now.

Definition set_rate (now bytes_per_second : Z) (l : AsyncRateLimiter) : option AsyncRateLimiter :=
  if bytes_per_second =? 0 then None
  else
    let l := replenish now l in
    Some (mkAsync bytes_per_second bytes_per_second (Z.min (al_tokens l) bytes_per_second) (al_last_replenish l)).

(** ** Changes ([limiter/change.rs]) *)

Inductive LimiterChange := Unchanged | Enabled | Updated | Disabled.

#[export] Instance limiter_change_eq_dec : EqDecision LimiterChange.
Proof. solve_decision. Defined.

Definition priority (c : LimiterChange) : Z :=
  match c with Unchanged => 0 | Updated => 1 | Enabled => 2 | Disabled => 3 end.
Definition combine (c other : LimiterChange) : LimiterChange := if priority other <=? priority c then c else other.
(** [Iterator::max] keeps the last of equal ones. *)
Definition combine_all (changes : list LimiterChange) : LimiterChange :=
  match changes with
  | [] => Unchanged
  | c :: changes => foldl (λ m x, if priority m <=? priority x then x else m) c changes
  end.
Definition is_changed (c : LimiterChange) : bool := negb (bool_decide (c = Unchanged)).

Definition apply_effective_limit (limiter : option BandwidthLimiter) (limit : option Z) (limit_specified : bool)
    (burst : option Z) (burst_specified : bool) : option BandwidthLimiter * LimiterChange :=
  if negb limit_specified && negb burst_specified then (limiter, Unchanged)
  else if limit_specified then
    match limit with
    | Some limit =>
        match limiter with
        | Some existing =>
            let target_limit := Z.min (limit_bytes existing) limit in
            let current_burst := burst_bytes existing in
            let target_burst := if burst_specified then burst else current_burst in
            if negb (target_limit =? limit_bytes existing) || bool_decide (target_burst ≠ current_burst)
            then (Some (update_configuration target_limit target_burst existing), combine Unchanged Updated)
            else (limiter, Unchanged)
        | None =>
            (Some (with_burst limit (if burst_specified then burst else None)), combine Unchanged Enabled)
        end
    | None => (None, if is_some limiter then Disabled else Unchanged)
    end
  else
    match limiter with
    | Some existing =>
        if bool_decide (burst_bytes existing ≠ burst)
        then (Some (update_configuration (limit_bytes existing) burst existing), combine Unchanged Updated)
        else (limiter, Unchanged)
    | None => (limiter, Unchanged)
    end.

(** ** Components ([parse/components.rs]) *)

Record BandwidthLimitComponents := mkComponents {
  bc_rate : option Z;
  bc_burst : option Z;
  bc_limit_specified : bool;
  bc_burst_specified : bool;
}.

Definition components_new_internal (rate burst : option Z) (limit_specified burst_specified : bool)
    : BandwidthLimitComponents :=
  let has_rate := is_some rate in
  mkComponents rate (if has_rate then burst else None) (if has_rate then true else limit_specified)
    (if has_rate then burst_specified else false).
Definition components_new (rate burst : option Z) : BandwidthLimitComponents :=
  components_new_internal rate burst (is_some rate) (is_some burst).
Definition components_new_with_flags (rate burst : option Z) (limit_specified burst_specified : bool)
    : BandwidthLimitComponents :=
  let has_rate := is_some rate in
  let effective_burst := if burst_specified then burst else None in
  mkComponents rate effective_burst (if has_rate then true else limit_specified)
    (if has_rate then burst_specified else is_some effective_burst && burst_specified).
Definition components_unlimited : BandwidthLimitComponents := components_new_internal None None false false.

Definition to_limiter (c : BandwidthLimitComponents) : option BandwidthLimiter :=
  (λ rate, with_burst rate (bc_burst c)) <$> bc_rate c.
Definition apply_to_limiter (c : BandwidthLimitComponents) (limiter : option BandwidthLimiter)
    : option BandwidthLimiter * LimiterChange :=
  apply_effective_limit limiter (bc_rate c) (bc_limit_specified c) (bc_burst c) (bc_burst_specified c).

Definition constrained_by (c over : BandwidthLimitComponents) : BandwidthLimitComponents :=
  let limit_specified := bc_limit_specified c || bc_limit_specified over in
  let '(rate, burst, burst_specified) :=
    if bc_limit_specified over then
      match bc_rate over with
      | Some override_rate =>
          let rate := Some (match bc_rate c with Some existing => Z.min existing override_rate | None => override_rate end) in
          if bc_burst_specified over then (rate, bc_burst over, true)
          else if negb (is_some (bc_rate c)) then (rate, None, false)
          else (rate, bc_burst c, bc_burst_specified c)
      | None => (None, None, false)
      end
    else (bc_rate c, bc_burst c, bc_burst_specified c) in
  let '(burst, burst_specified) :=
    if bc_burst_specified over && negb (bc_limit_specified over) && is_some rate
    then (bc_burst over, true) else (burst, burst_specified) in
  components_new_internal rate burst limit_specified burst_specified.

(** ** Arguments ([size_arg.rs], [parse.rs]) *)

Inductive SizeArgError := SizeInvalid | SizeTooLarge.
Inductive BandwidthParseError := RateInvalid | RateTooSmall | RateTooLarge.
Record ParsedSize := mkParsed { ps_bytes : Z; ps_unit : Z }.

(** [checked_add] and [checked_mul] on [u128]. *)
Definition checked (x : Z) : result SizeArgError Z := if x <=? u128_max then Ok x else Err SizeTooLarge.

Fixpoint pow_loop (fuel : nat) (result_ factor exp : Z) : result SizeArgError Z :=
  match fuel with
  | O => Ok result_
  | S fuel =>
      if exp <=? 0 then Ok result_
      else
        result_ ← (if Z.land exp 1 =? 1 then checked (result_ * factor) else Ok result_);
        let exp := Z.shiftr exp 1 in
        factor ← (if 0 <? exp then checked (factor * factor) else Ok factor);
        pow_loop fuel result_ factor exp
  end.
(** The exponent has 32 bits and loses one in each round. *)
Definition pow_u128 (base exponent : Z) : result SizeArgError Z := pow_loop 33 1 base exponent.

Definition to_ascii_lowercase (b : byte) : byte := if is_ascii_uppercase b then zb (uz b + 32) else b.

Definition is_separator (b : byte) : bool := bool_decide (b = x2e) || bool_decide (b = x2c).

(** The length of the numeric part, and whether it has a digit. *)
Fixpoint scan_numeric (text : list byte) (decimal_seen : bool) : nat * bool :=
  match text with
  | [] => (0%nat, false)
  | b :: text =>
      if is_ascii_digit b then let '(n, _) := scan_numeric text decimal_seen in (S n, true)
      else if is_separator b && negb decimal_seen then let '(n, digits) := scan_numeric text true in (S n, digits)
      else (0%nat, false)
  end.

Fixpoint parse_decimal_loop (text : list byte) (integer fraction denominator : Z) (saw_decimal : bool)
    : result SizeArgError (Z * Z * Z) :=
  match text with
  | [] => Ok (integer, fraction, denominator)
  | b :: text =>
      if is_ascii_digit b then
        let digit := uz b - 48 in
        if saw_decimal then
          denominator ← checked (denominator * 10);
          fraction ← checked (fraction * 10);
          fraction ← checked (fraction + digit);
          parse_decimal_loop text integer fraction denominator saw_decimal
        else
          integer ← checked (integer * 10);
          integer ← checked (integer + digit);
          parse_decimal_loop text integer fraction denominator saw_decimal
      else if is_separator b then
        if saw_decimal then Err SizeInvalid else parse_decimal_loop text integer fraction denominator true
      else Err SizeInvalid
  end.
Definition parse_decimal (text : list byte) : result SizeArgError (Z * Z * Z) := parse_decimal_loop text 0 0 1 false.

Definition starts_adjust (text : list byte) : bool :=
  match text with b :: _ => bool_decide (b = x2b) || bool_decide (b = x2d) | [] => true end.

Definition suffix_reps (suffix : byte) : option Z :=
  let s := to_ascii_lowercase suffix in
  if decide (s = x62) then Some 0 else if decide (s = x6b) then Some 1 else if decide (s = x6d) then Some 2
  else if decide (s = x67) then Some 3 else if decide (s = x74) then Some 4 else if decide (s = x70) then Some 5
  else None.

(** The base and the unit that the text after the suffix gives, and what is left of it. *)
Definition suffix_base (suffix : byte) (rest : list byte) : result SizeArgError (Z * Z * list byte) :=
  let unit := if decide (to_ascii_lowercase suffix = x62) then 1 else 1024 in
  match rest with
  | [] => Ok (1024, unit, [])
  | b :: rest' =>
      if decide (to_ascii_lowercase b = x62) then Ok (1000, 1000, rest')
      else if decide (to_ascii_lowercase b = x69) then
        match rest' with
        | b' :: rest'' => if decide (to_ascii_lowercase b' = x62) then Ok (1024, unit, rest'') else Err SizeInvalid
        | [] => Err SizeInvalid
        end
      else if starts_adjust rest then Ok (1024, unit, rest)
      else Err SizeInvalid
  end.

Definition parse_size_arg (text : list byte) (def_suf : byte) : result SizeArgError ParsedSize :=
  let '(numeric_end, digits_seen) := scan_numeric text false in
  let numeric_part := take numeric_end text in
  let remainder := drop numeric_end text in
  if negb digits_seen then Err SizeInvalid
  else
    '(integer, fraction, denominator) ← parse_decimal numeric_part;
    '(suffix, rest) ← match remainder with
                      | b :: rest => if starts_adjust remainder then Ok (def_suf, remainder)
                                     else if uz b <? 128 then Ok (b, rest) else Err SizeInvalid
                      | [] => Ok (def_suf, [])
                      end;
    reps ← match suffix_reps suffix with Some r => Ok r | None => Err SizeInvalid end;
    '(base, unit, rest) ← suffix_base suffix rest;
    let '(adjust, rest) := if decide (rest = [x2b; x31]) then (1, [])
                           else if decide (rest = [x2d; x31]) then (-1, []) else (0, rest) in
    if negb (bool_decide (rest = [])) then Err SizeInvalid
    else
      scale ← pow_u128 base reps;
      numerator ← checked (integer * denominator);
      numerator ← checked (numerator + fraction);
      product ← checked (numerator * scale);
      let value := product / denominator in
      bytes ← (if adjust =? 1 then checked (value + 1)
               else if adjust =? -1 then (if value =? 0 then Err SizeTooLarge else Ok (value - 1)) else Ok value);
      Ok (mkParsed bytes unit).

Definition is_ascii_whitespace (b : byte) : bool :=
  bool_decide (b ∈ [x20; x09; x0a; x0c; x0d]).

Definition size_error (e : SizeArgError) : BandwidthParseError :=
  match e with SizeInvalid => RateInvalid | SizeTooLarge => RateTooLarge end.

Definition parse_bandwidth_argument (text : list byte) : result BandwidthParseError (option Z) :=
  if forallb is_ascii_whitespace text then Err RateInvalid
  else
    let '(negative, body) := match text with
                             | b :: body => if decide (b = x2b) then (false, body)
                                            else if decide (b = x2d) then (true, body) else (false, text)
                             | [] => (false, text)
                             end in
    if bool_decide (body = []) then Err RateInvalid
    else
      match parse_size_arg body x4b with
      | Err e => Err (size_error e)
      | Ok parsed =>
          if (negative : bool) then Err RateInvalid
          else
            let bytes := ps_bytes parsed in
            if bytes =? 0 then Ok None
            else if bytes <? 512 then Err RateTooSmall
            else if u128_max <? bytes + 512 then Err RateTooLarge
            else
              let kib := (bytes + 512) / 1024 in
              if u128_max <? kib * 1024 then Err RateTooLarge
              else if u64_max <? kib * 1024 then Err RateTooLarge
              else if kib * 1024 =? 0 then Err RateTooSmall
              else Ok (Some (kib * 1024))
      end.

(** [split_once(':')] *)
Fixpoint split_colon (text : list byte) : option (list byte * list byte) :=
  match text with
  | [] => None
  | b :: text => if decide (b = x3a) then Some ([], text)
                 else '(before, after) ← split_colon text; Some (b :: before, after)
  end.

Definition parse_bandwidth_limit (text : list byte) : result BandwidthParseError BandwidthLimitComponents :=
  if match head text, last text with
     | Some a, Some b => is_ascii_whitespace a || is_ascii_whitespace b
     | _, _ => false
     end
  then Err RateInvalid
  else
    match split_colon text with
    | Some (rate_text, burst_text) =>
        rate ← parse_bandwidth_argument rate_text;
        match rate with
        | None => Ok (components_new_internal None None true false)
        | Some _ =>
            burst ← parse_bandwidth_argument burst_text;
            Ok (components_new_internal rate burst true true)
        end
    | None =>
        rate ← parse_bandwidth_argument text;
        Ok (match rate with
            | Some rate => components_new (Some rate) None
            | None => components_new_internal None None true false
            end)
    end.

(** ** Examples from the tests of the parser *)

Lemma parse_examples :
  (λ s, parse_size_arg (bytes s) x62) <$> ["1KB"; "1KiB"; "1.5K"; "1,5K"; "1K-1"; "0-1"; "1e3"; "1P"]%string =
  [Ok (mkParsed 1000 1000); Ok (mkParsed 1024 1024); Ok (mkParsed 1536 1024); Ok (mkParsed 1536 1024);
   Ok (mkParsed 1023 1024); Err SizeTooLarge; Err SizeInvalid; Ok (mkParsed (1024 ^ 5) 1024)] ∧
  parse_bandwidth_argument (bytes "1MB") = Ok (Some 1000448) ∧
  parse_bandwidth_limit (bytes "8M:64K") = Ok (mkComponents (Some (8 * 1024 * 1024)) (Some 65536) true true).
Proof. vm_compute. done. Qed.

(** ** Pacing *)

(** A sequence of calls: the bytes, and what the clock shows before and after the sleep. *)
Fixpoint register_all (calls : list (Z * Z * Z)) (l : BandwidthLimiter) : BandwidthLimiter :=
  match calls with
  | [] => l
  | (bytes, start, stop) :: calls => register_all calls (register start stop bytes l).2
  end.

Definition bytes_of (calls : list (Z * Z * Z)) : Z := foldr (λ c n, c.1.1 + n) 0 calls.

(** The clock does not go backwards, a sleep lasts as long as was requested, and a write with
    what a tenth of a second allows is no more than the burst size, if there is one. *)
Fixpoint timely (calls : list (Z * Z * Z)) (l : BandwidthLimiter) : Prop :=
  match calls with
  | [] => True
  | (bytes, start, stop) :: calls =>
      0 < bytes ≤ 2 ^ 43 ∧ (∀ b, burst_bytes l = Some b → 10 * bytes + limit_bytes l ≤ 10 * b) ∧
      (∀ t, last_instant l = Some t → t ≤ start) ∧
      start + requested (register start stop bytes l).1 ≤ stop ∧
      timely calls (register start stop bytes l).2
  end.

(** A limiter between two calls: less than a tenth of a second is owed. *)
Record settled (l : BandwidthLimiter) : Prop := {
  se_rate : 0 < limit_bytes l ≤ u64_max;
  se_simulated : simulated_elapsed_us l = 0;
  se_debt : 0 ≤ 10 * total_written l < limit_bytes l;
}.

Lemma sat128_small x : x ≤ u128_max → sat128 x = x.
Proof. unfold sat128. lia. Qed.

(** Time pays for bytes. *)
Lemma credit e rate total d : 0 ≤ e ≤ u64_max → 0 < rate ≤ u64_max → 0 ≤ total → 1000 * e ≤ d →
  let t := if 0 <? e
           then (if total <=? sat128 (e * rate) / MICROS_PER_SECOND then 0
                 else total - sat128 (e * rate) / MICROS_PER_SECOND)
           else total in
  0 ≤ t ≤ total ∧ 10 ^ 9 * total ≤ 10 ^ 9 * t + rate * d.
Proof.
  intros He Hr Ht Hd. rewrite sat128_small by (unfold u64_max, u128_max in *; nia).
  set (allowed := e * rate / MICROS_PER_SECOND).
  assert (Ha : 0 ≤ allowed ∧ 10 ^ 9 * allowed ≤ rate * d).
  { pose proof (Z.mul_div_le (e * rate) MICROS_PER_SECOND ltac:(done)). fold allowed in H. unfold MICROS_PER_SECOND in *.
    split; [apply Z.div_pos; nia|nia]. }
  destruct (Z.ltb_spec 0 e); [|nia]. destruct (Z.leb_spec total allowed); lia.
Qed.

(** A sleep for the debt [t] that lasts long enough pays for it. *)
Lemma sleep_pays rate t start stop : 0 < rate ≤ u64_max → 0 ≤ t → 10 * t ≤ rate + 10 * 2 ^ 43 →
  let s := sat128 (t * MICROS_PER_SECOND) / rate in
  (s < MINIMUM_SLEEP_MICROS → 10 * t < rate) ∧
  (MINIMUM_SLEEP_MICROS ≤ s → start + duration_from_microseconds s ≤ stop →
   s ≤ micros_between start stop ∧ start ≤ stop ∧ 10 ^ 14 * t ≤ 100001 * rate * (stop - start)).
Proof.
  intros Hr Ht Hmax. rewrite sat128_small by (unfold u64_max, u128_max, MICROS_PER_SECOND in *; lia). cbn zeta.
  set (s := t * MICROS_PER_SECOND / rate).
  assert (Hs : rate * s ≤ t * MICROS_PER_SECOND < rate * (s + 1)).
  { pose proof (Z.mul_div_le (t * MICROS_PER_SECOND) rate ltac:(lia)).
    pose proof (Z.mul_succ_div_gt (t * MICROS_PER_SECOND) rate ltac:(lia)). fold s in H, H0. nia. }
  unfold MICROS_PER_SECOND in Hs. change MINIMUM_SLEEP_MICROS with 100000. split; [nia|]. intros Hmin.
  assert (Hsmax : s ≤ 100000 + 10 ^ 6 * 2 ^ 43) by nia. unfold duration_from_microseconds.
  rewrite (proj2 (Z.eqb_neq s 0)) by lia.
  rewrite (proj2 (Z.ltb_ge _ _)) by (unfold MAX_REPRESENTABLE_MICROSECONDS, MICROS_PER_SECOND, u64_max; lia).
  pose proof (Z.div_mod s MICROS_PER_SECOND ltac:(done)) as Hdm. unfold MICROS_PER_SECOND in *. intros Hstop.
  assert (Hge : start + 1000 * s ≤ stop) by lia. split; [|split; [lia|nia]].
  unfold micros_between. apply Z.min_glb; [|unfold u64_max; lia].
  apply Z.div_le_lower_bound; lia.
Qed.

Lemma clamp_small l x : (∀ b, burst_bytes l = Some b → x ≤ b) → clamp_debt_to_burst l x = x.
Proof. intros H. unfold clamp_debt_to_burst. destruct (burst_bytes l) as [b|]; [|done]. specialize (H b eq_refl). lia. Qed.

(** What a call leaves: the time on the clock, with one part in a hundred thousand for rounding,
    pays for what is no longer owed. *)
Lemma register_pays start stop bytes l : settled l → 0 < bytes ≤ 2 ^ 43 →
  (∀ b, burst_bytes l = Some b → 10 * bytes + limit_bytes l ≤ 10 * b) →
  (∀ t, last_instant l = Some t → t ≤ start) →
  start + requested (register start stop bytes l).1 ≤ stop →
  let l' := (register start stop bytes l).2 in
  settled l' ∧ limit_bytes l' = limit_bytes l ∧
  ∃ t, last_instant l' = Some t ∧ start ≤ t ∧
    10 ^ 14 * (total_written l + bytes) ≤
      10 ^ 14 * total_written l' + 100001 * limit_bytes l * (t - default start (last_instant l)).
Proof.
  intros [Hrate Hsim Hdebt] Hb Hburst Hmono. cbn zeta.
  assert (Hsmall : ∀ x, 0 ≤ x ≤ total_written l + bytes → clamp_debt_to_burst l x = x).
  { intros x Hx. apply clamp_small. intros b Eb. specialize (Hburst b Eb). lia. }
  unfold register. rewrite (proj2 (Z.eqb_neq bytes 0)) by lia. rewrite Hsim.
  rewrite (sat128_small (total_written l + bytes)) by (unfold u64_max, u128_max in *; lia).
  rewrite (Hsmall (total_written l + bytes)) by lia.
  set (e := match last_instant l with Some _ => _ | None => 0 end). set (d := start - default start (last_instant l)).
  assert (He : 0 ≤ e ≤ u64_max ∧ 1000 * e ≤ d ∧ 0 ≤ d).
  { unfold e, d. destruct (last_instant l) as [p|]; cbn [default]; [|unfold u64_max; lia]. specialize (Hmono p eq_refl).
    unfold micros_between. rewrite Z.max_r by lia. pose proof (Z.mul_div_le (start - p) 1000 ltac:(lia)).
    pose proof (Z.div_pos (start - p) 1000 ltac:(lia) ltac:(lia)). rewrite sat128_small by (unfold u64_max, u128_max; lia).
    unfold u64_max, id. lia. }
  destruct He as (He & Hd & Hd0).
  destruct (credit e (limit_bytes l) (total_written l + bytes) d He Hrate ltac:(lia) Hd) as [Ht Hpay].
  set (t := if 0 <? e then _ else _) in *. rewrite (Hsmall t) by lia.
  destruct (sleep_pays (limit_bytes l) t start stop Hrate ltac:(lia) ltac:(lia)) as [Hshort Hlong].
  set (s := sat128 (t * MICROS_PER_SECOND) / limit_bytes l) in *.
  destruct (Z.ltb_spec s MINIMUM_SLEEP_MICROS) as [Hs|Hs]; cbn.
  - intros _. split; [split; cbn; auto; lia|]. split; [done|]. exists start. split_and!; [done|lia|]. unfold d in *. nia.
  - intros Hstop. destruct (Hlong Hs Hstop) as (Hm & Hle & Hpay').
    rewrite (proj2 (Z.ltb_ge _ _)) by lia. rewrite Z.max_l, Z.mul_0_l by lia.
    change (sat128 0 / MICROS_PER_SECOND) with 0. rewrite (Hsmall 0) by lia. split; [split; cbn; auto; lia|]. split; [done|]. exists stop. split_and!; [done|lia|]. cbn. unfold d in *. nia.
Qed.

Lemma calls_pay calls l t0 : settled l → timely calls l → last_instant l = Some t0 →
  let l' := register_all calls l in
  settled l' ∧ limit_bytes l' = limit_bytes l ∧ ∃ t, last_instant l' = Some t ∧ t0 ≤ t ∧
    10 ^ 14 * (total_written l + bytes_of calls) ≤ 10 ^ 14 * total_written l' + 100001 * limit_bytes l * (t - t0).
Proof.
  cbn zeta. revert l t0. induction calls as [|[[bytes start] stop] calls IH]; intros l t0 Hs Ht Hlast.
  { cbn. split; [done|]. split; [done|]. exists t0. split_and!; [done|lia|]. lia. }
  destruct Ht as (Hb & Hburst & Hmono & Hslept & Ht). cbn [register_all].
  destruct (register_pays start stop bytes l Hs Hb Hburst Hmono Hslept) as (Hs1 & Hl1 & t1 & Ht1 & Hle1 & Hpay1).
  destruct (IH _ t1 Hs1 Ht Ht1) as (Hs2 & Hl2 & t2 & Ht2 & Hle2 & Hpay2).
  specialize (Hmono t0 Hlast). split; [done|]. split; [congruence|]. exists t2. split_and!; [done|lia|].
  rewrite Hlast in Hpay1. cbn [default] in Hpay1. unfold id in Hpay1. rewrite Hl1 in Hpay2.
  change (bytes_of ((bytes, start, stop) :: calls)) with (bytes + bytes_of calls). nia.
Qed.

(** ** Overrides *)

(** A limiter that was made and not used. *)
Lemma update_is_new limit burst l : update_configuration limit burst l = with_burst limit burst.
Proof. done. Qed.

Lemma with_burst_fields limit burst : limit_bytes (with_burst limit burst) = limit ∧ burst_bytes (with_burst limit burst) = burst.
Proof. done. Qed.

(** A rate that is accepted is a number of whole KiB, close to the number of bytes that the text
    gives. *)
Lemma parsed_rate text r : parse_bandwidth_argument text = Ok (Some r) →
  r mod 1024 = 0 ∧ 1024 ≤ r ≤ u64_max ∧
  ∃ body p, parse_size_arg body x4b = Ok p ∧ 512 ≤ ps_bytes p ∧ r - 512 ≤ ps_bytes p < r + 512.
Proof.
  unfold parse_bandwidth_argument. destruct (forallb _ _); [done|].
  destruct (match text with [] => _ | _ => _ end) as [negative body]. case_bool_decide; [done|].
  destruct (parse_size_arg body x4b) as [p|] eqn:Ep; [|done]. destruct negative; [done|].
  destruct (Z.eqb_spec (ps_bytes p) 0); [done|]. destruct (Z.ltb_spec (ps_bytes p) 512); [done|].
  destruct (Z.ltb_spec u128_max (ps_bytes p + 512)); [done|].
  pose proof (Z.div_mod (ps_bytes p + 512) 1024 ltac:(lia)) as Hdm.
  pose proof (Z.mod_pos_bound (ps_bytes p + 512) 1024 ltac:(lia)) as Hmb.
  set (kib := (ps_bytes p + 512) / 1024) in *.
  destruct (Z.ltb_spec u128_max (kib * 1024)); [done|]. destruct (Z.ltb_spec u64_max (kib * 1024)); [done|].
  destruct (Z.eqb_spec (kib * 1024) 0); [done|]. intros [= <-]. split; [apply Z.mod_mul; lia|]. split; [lia|].
  exists body, p. split; [done|]. lia.
Qed.

(** ** Sleeps that count twice *)

(** One call, in no time but for the sleep, which is exact. *)
Definition consume_exact (bytes : Z) (s : Z * AsyncRateLimiter) : Z * AsyncRateLimiter :=
  let '(now, l) := s in
  let stop := now + default 0 (consume now now bytes l).1 in
  (stop, (consume now stop bytes l).2).

Lemma consume_waits rate t : 0 < rate ≤ u64_max →
  consume_exact rate (t, mkAsync rate rate 0 t) = (t + 10 ^ 9, mkAsync rate rate rate (t + 10 ^ 9)).
Proof.
  intros Hr. unfold consume_exact, consume. rewrite (proj2 (Z.eqb_neq rate 0)) by lia.
  unfold replenish. cbn [al_rate al_burst al_tokens al_last_replenish].
  rewrite Z.sub_diag, Z.max_id, Z.mul_0_l. change (wrap 128 0) with 0. rewrite Z.div_0_l by done.
  rewrite (Z.min_l 0 u64_max) by (unfold u64_max; lia). rewrite (Z.min_l (0 + 0) u64_max) by (unfold u64_max; lia).
  rewrite (Z.min_l (0 + 0) rate) by lia. rewrite (proj2 (Z.leb_gt rate (0 + 0))) by lia. cbn [fst snd default].
  rewrite Z.add_0_r, Z.sub_0_r, (Z.mul_comm rate), Z.div_mul by lia. change (id (wrap 64 (10 ^ 9))) with (10 ^ 9).
  replace (t + 10 ^ 9 - t) with (10 ^ 9) by lia. rewrite (Z.max_r 0 (10 ^ 9)) by lia.
  rewrite (wrap_small 128) by (unfold in_u, u64_max in *; lia). rewrite (Z.mul_comm (10 ^ 9)), Z.div_mul by lia.
  repeat f_equal. lia.
Qed.

Lemma consume_free rate t : 0 < rate ≤ u64_max →
  consume_exact rate (t, mkAsync rate rate rate t) = (t, mkAsync rate rate 0 t).
Proof.
  intros Hr. unfold consume_exact, consume. rewrite (proj2 (Z.eqb_neq rate 0)) by lia.
  unfold replenish. cbn [al_rate al_burst al_tokens al_last_replenish].
  rewrite Z.sub_diag, Z.max_id, Z.mul_0_l. change (wrap 128 0) with 0. rewrite Z.div_0_l by done.
  rewrite (Z.min_l 0 u64_max) by (unfold u64_max; lia). rewrite Z.add_0_r, (Z.min_l rate u64_max), Z.min_id by lia.
  rewrite Z.leb_refl. cbn. rewrite Z.add_0_r, Z.sub_diag. done.
Qed.

(** A sleep that is cut short leaves its bytes as a debt, and counts them as paid as well: 1001
    bytes at a rate of 1000 in no time, and one byte is owed. *)
Lemma short_sleep_is_forgiven :
  let l := (register 0 0 1000 (limiter_new 1000)).2 in
  requested (register 0 0 1000 (limiter_new 1000)).1 = 10 ^ 9 ∧ total_written l = 1000 ∧
  total_written (register 0 0 1 l).2 = 1.
Proof. by vm_compute. Qed.

(** ** Properties *)

(** C18: The limiter keeps the rate: over any sequence of non-empty writes of at most 8 TiB each,
    on a clock that does not go backwards and with sleeps that last as long as requested, the
    bytes that were written never exceed what the rate allows for the time since the first
    write, plus a tenth of a second and one part in a hundred thousand; no product saturates.
    If there is a burst size, it has room for each write and what a tenth of a second allows,
    so that no debt is dropped. *)
Theorem rate_is_kept (limit bytes start stop : Z) (burst : option Z) (calls : list (Z * Z * Z)) :
  0 < limit ≤ u64_max → timely ((bytes, start, stop) :: calls) (with_burst limit burst) →
  ∃ now, last_instant (register_all ((bytes, start, stop) :: calls) (with_burst limit burst)) = Some now ∧ start ≤ now ∧
    10 ^ 14 * (bytes + bytes_of calls) ≤ limit * (100001 * (now - start) + 10 ^ 13).
Proof.
  intros Hr (Hb & Hburst & Hmono & Hslept & Ht). cbn [register_all].
  destruct (register_pays start stop bytes (with_burst limit burst)) as (Hs1 & Hl1 & t1 & Ht1 & Hle1 & Hpay1); [|done..|].
  { split; [done|done|]. cbn. lia. }
  destruct (calls_pay calls _ t1 Hs1 Ht Ht1) as (Hs2 & Hl2 & t2 & Ht2 & Hle2 & Hpay2).
  exists t2. split_and!; [done|lia|]. pose proof (se_debt _ Hs2) as Hd. rewrite Hl2 in Hd. rewrite Hl1 in Hd, Hpay2.
  cbn in Hd, Hpay1, Hpay2 |- *. nia.
Qed.

(** C19: A daemon's override means the same whether it is applied to the numbers or to the
    limiter: constraining the components and making a limiter of them gives the limiter that
    applying the override to the first limiter gives, and the change that is reported is
    none exactly when the limiter stays the same. *)
Theorem override_applies (c over : BandwidthLimitComponents) :
  (apply_to_limiter over (to_limiter c)).1 = to_limiter (constrained_by c over) ∧
  ((apply_to_limiter over (to_limiter c)).2 = Unchanged ↔ to_limiter (constrained_by c over) = to_limiter c).
Proof.
  destruct c as [[r|] b ls bs], over as [[r'|] b' [] []];
    unfold apply_to_limiter, apply_effective_limit, to_limiter, constrained_by, components_new_internal, combine; cbn;
    rewrite ?orb_true_r; try done; rewrite ?update_is_new.
  all: try destruct (Z.eqb_spec (Z.min r r') r) as [E|E]; try rewrite E; cbn [negb orb].
  all: try case_bool_decide as Hbd; cbn; try (split; [done|]).
  all: try (split; [done|]; intros [= ? ?]; congruence).
  all: try (by destruct Hbd). all: try (rewrite Hbd; by split).
  all: by split.
Qed.

(** C22: The asynchronous limiter lets through twice its rate: a sleep that pays for missing
    tokens also earns them, so with exact sleeps [2 * n] requests for a second's worth of bytes
    take [n] seconds. *)
Theorem async_rate_doubled (rate t : Z) (n : nat) : 0 < rate ≤ u64_max →
  Nat.iter (2 * n) (consume_exact rate) (t, mkAsync rate rate 0 t) =
    (t + Z.of_nat n * 10 ^ 9, mkAsync rate rate 0 (t + Z.of_nat n * 10 ^ 9)).
Proof.
  intros Hr. induction n as [|n IH]; [change (Z.of_nat 0) with 0; by rewrite Z.mul_0_l, Z.add_0_r|].
  replace (2 * S n)%nat with (S (S (2 * n))) by lia. cbn [Nat.iter nat_rect]. unfold Nat.iter in IH. rewrite IH.
  rewrite consume_waits, consume_free by done.
  replace (t + Z.of_nat n * 10 ^ 9 + 10 ^ 9) with (t + Z.of_nat (S n) * 10 ^ 9) by lia. done.
Qed.

Lemma rate_is_kept_witness :
  ∃ now, last_instant (register_all [(512, 0, 500000000); (100, 500000000, 500000000)] (with_burst 1024 (Some 1000))) = Some now ∧
    10 ^ 14 * 612 ≤ 1024 * (100001 * now + 10 ^ 13).
Proof.
  destruct (rate_is_kept 1024 512 0 500000000 (Some 1000) [(100, 500000000, 500000000)]) as (now & E & _ & H).
  - unfold u64_max. lia.
  - split; [lia|]. split; [by intros b [= <-]|]. split; [done|]. split; [by vm_compute|]. split; [lia|].
    assert (burst_bytes (register 0 500000000 512 (with_burst 1024 (Some 1000))).2 = Some 1000) as -> by (vm_compute; reflexivity).
    assert (limit_bytes (register 0 500000000 512 (with_burst 1024 (Some 1000))).2 = 1024) as -> by (vm_compute; reflexivity).
    assert (last_instant (register 0 500000000 512 (with_burst 1024 (Some 1000))).2 = Some 500000000) as -> by (vm_compute; reflexivity).
    split; [by intros b [= <-]|]. split; [|by vm_compute]. intros t [= <-]. lia.
  - exists now. split; [exact E|]. change (bytes_of _) with 100 in H. lia.
Defined.

(** A write as long as the burst size makes the limiter drop what was owed before. *)
Lemma burst_drops_debt :
  let l := (register 0 0 90 (with_burst 1000 (Some 1000))).2 in
  total_written l = 90 ∧ requested (register 0 10 1000 l).1 = 10 ^ 9.
Proof. by vm_compute. Qed.

Lemma async_rate_doubled_witness :
  Nat.iter (2 * 3) (consume_exact 4096) (0, mkAsync 4096 4096 0 0) =
    (0 + Z.of_nat 3 * 10 ^ 9, mkAsync 4096 4096 0 (0 + Z.of_nat 3 * 10 ^ 9)).
Proof. exact (async_rate_doubled 4096 0 3 (conj (eq_refl : 0 < 4096) (bool_decide_unpack (4096 ≤ u64_max) I))). Defined.
