(* ===== verification/Mplex.v ===== *)
(** * The multiplexed connection ([crates/protocol/src/envelope/], [multiplex/])

    File data and messages (errors, notices, statistics) share one connection: both are cut
    into frames with a header of four bytes.  This file has the header, sending and receiving
    frames, the buffering writer and the reader that hands out the data and passes messages
    to a handler.  The writer below is memory and takes what it is given; the reader below
    ends where its bytes end, and a call that asks for more than is left takes what there is
    and fails. *)

From S2P Require Import Prelude.

(** ** Message codes and headers *)

Inductive MessageCode :=
| MsgData | MsgErrorXfer | MsgInfo | MsgError | MsgWarning | MsgErrorSocket | MsgLog | MsgClient
| MsgErrorUtf8 | MsgRedo | MsgStats | MsgIoError | MsgIoTimeout | MsgNoOp | MsgErrorExit
| MsgSuccess | MsgDeleted | MsgNoSend.

#[export] Instance MessageCode_eq_dec : EqDecision MessageCode.
Proof. solve_decision. Defined.

Definition code_as_u8 (c : MessageCode) : Z :=
  match c with
  | MsgData => 0 | MsgErrorXfer => 1 | MsgInfo => 2 | MsgError => 3 | MsgWarning => 4
  | MsgErrorSocket => 5 | MsgLog => 6 | MsgClient => 7 | MsgErrorUtf8 => 8 | MsgRedo => 9
  | MsgStats => 10 | MsgIoError => 22 | MsgIoTimeout => 33 | MsgNoOp => 42 | MsgErrorExit => 86
  | MsgSuccess => 100 | MsgDeleted => 101 | MsgNoSend => 102
  end%Z.

Definition code_from_u8 (value : Z) : option MessageCode :=
  match value with
  | 0 => Some MsgData | 1 => Some MsgErrorXfer | 2 => Some MsgInfo | 3 => Some MsgError
  | 4 => Some MsgWarning | 5 => Some MsgErrorSocket | 6 => Some MsgLog | 7 => Some MsgClient
  | 8 => Some MsgErrorUtf8 | 9 => Some MsgRedo | 10 => Some MsgStats | 22 => Some MsgIoError
  | 33 => Some MsgIoTimeout | 42 => Some MsgNoOp | 86 => Some MsgErrorExit
  | 100 => Some MsgSuccess | 101 => Some MsgDeleted | 102 => Some MsgNoSend
  | _ => None
  end%Z.

Definition HEADER_LEN : nat := 4.
Definition MAX_PAYLOAD_LENGTH : Z := 16777215.
Definition MPLEX_BASE : Z := 7.
Definition PAYLOAD_MASK : Z := 16777215.

Inductive EnvelopeError := TruncatedHeader | InvalidTag | UnknownMessageCode | OversizedPayload.

Record MessageHeader := mkHeader {
  mh_code : MessageCode;
  mh_payload_len : Z;
}.

Definition header_new (code : MessageCode) (payload_len : Z) : result EnvelopeError MessageHeader :=
  if (MAX_PAYLOAD_LENGTH <? payload_len)%Z then Err OversizedPayload
  else Ok (mkHeader code payload_len).

Definition header_from_raw (raw : Z) : result EnvelopeError MessageHeader :=
  let tag := Z.shiftr raw 24 in
  if (tag <? MPLEX_BASE)%Z then Err InvalidTag
  else
    match code_from_u8 (tag - MPLEX_BASE) with
    | Some code => header_new code (Z.land raw PAYLOAD_MASK)
    | None => Err UnknownMessageCode
    end.

Definition header_decode (bytes : list byte) : result EnvelopeError MessageHeader :=
  if decide (length bytes < HEADER_LEN)%nat then Err TruncatedHeader
  else header_from_raw (le_val (take HEADER_LEN bytes)).

Definition header_encode_raw (h : MessageHeader) : Z :=
  Z.lor (Z.shiftl (MPLEX_BASE + code_as_u8 (mh_code h)) 24) (Z.land (mh_payload_len h) PAYLOAD_MASK).

Definition header_encode (h : MessageHeader) : list byte := le_bytes 4 (header_encode_raw h).

(** ** Frames *)

Definition map_envelope_error (e : EnvelopeError) : io_error := InvalidData.

Definition map_envelope_error_for_input (e : EnvelopeError) : io_error :=
  match e with OversizedPayload => InvalidInput | other => map_envelope_error other end.

Definition ensure_payload_length (len : nat) : result io_error Z :=
  if (MAX_PAYLOAD_LENGTH <? Z.of_nat len)%Z then Err InvalidInput else Ok (Z.of_nat len).

(** [MessageFrame::new] and [MessageFrame::header]: the header of a payload. *)
Definition frame_header (code : MessageCode) (payload : list byte) : result io_error MessageHeader :=
  match ensure_payload_length (length payload) with
  | Err e => Err e
  | Ok payload_len =>
      match header_new code payload_len with
      | Err e => Err (map_envelope_error_for_input e)
      | Ok h => Ok h
      end
  end.

(** What the writer below holds after [send_msg]. *)
Definition send_msg (out : list byte) (code : MessageCode) (payload : list byte)
    : result io_error (list byte) :=
  match frame_header code payload with
  | Err e => Err e
  | Ok h => Ok (out ++ header_encode h ++ payload)
  end.

(** [read_header], of the functions and of the reader. *)
Definition mplex_read_header : parser MessageHeader :=
  bytes ← read_exact HEADER_LEN;
  match header_decode bytes with
  | Ok h => mret h
  | Err e => fail (map_envelope_error e)
  end.

Definition recv_msg : parser (MessageCode * list byte) :=
  h ← mplex_read_header;
  payload ← read_exact (Z.to_nat (mh_payload_len h));
  mret (mh_code h, payload).

Definition decode_frame_parts (bytes : list byte)
    : result io_error (MessageHeader * list byte * list byte) :=
  if decide (length bytes < HEADER_LEN)%nat then Err UnexpectedEof
  else
    match header_decode (take HEADER_LEN bytes) with
    | Err e => Err (map_envelope_error e)
    | Ok h =>
        let frame_len := (HEADER_LEN + Z.to_nat (mh_payload_len h))%nat in
        if decide (length bytes < frame_len)%nat then Err UnexpectedEof
        else Ok (h, drop HEADER_LEN (take frame_len bytes), drop frame_len bytes)
    end.

(** [BorrowedMessageFrames]. *)
Record BorrowedMessageFrames := mkFrames {
  bf_remaining : list byte;
  bf_finished : bool;
}.

Definition frames_next (it : BorrowedMessageFrames)
    : option (result io_error (MessageCode * list byte)) * BorrowedMessageFrames :=
  if bf_finished it || bool_decide (bf_remaining it = []) then (None, mkFrames (bf_remaining it) true)
  else
    match decode_frame_parts (bf_remaining it) with
    | Ok (h, payload, remainder) =>
        (Some (Ok (mh_code h, payload)), mkFrames remainder (bf_finished it))
    | Err e => (Some (Err e), mkFrames (bf_remaining it) true)
    end.

(** ** The reader *)

Record MplexReader := mkMplexReader {
  mr_inner : list byte;
  mr_buffer : list byte;
  mr_pos : nat;
  (** what the handler was called with, if there is one *)
  mr_handler : option (list (MessageCode * list byte));
}.

Definition mplex_reader_new (inner : list byte) : MplexReader := mkMplexReader inner [] 0 None.

Definition set_message_handler (r : MplexReader) : MplexReader :=
  mkMplexReader (mr_inner r) (mr_buffer r) (mr_pos r) (Some []).

Definition reader_buffered (r : MplexReader) : nat := length (mr_buffer r) - mr_pos r.

Definition read_message (r : MplexReader) : MplexReader * result io_error bool :=
  match read_exact HEADER_LEN (mr_inner r) with
  | Err e => (mkMplexReader [] (mr_buffer r) (mr_pos r) (mr_handler r), Err e)
  | Ok (header_bytes, inner) =>
      match header_decode header_bytes with
      | Err e => (mkMplexReader inner (mr_buffer r) (mr_pos r) (mr_handler r), Err (map_envelope_error e))
      | Ok header =>
          let len := Z.to_nat (mh_payload_len header) in
          if decide (length inner < len)%nat then
            (mkMplexReader [] inner 0 (mr_handler r), Err UnexpectedEof)
          else
            let payload := take len inner in
            let inner := drop len inner in
            if decide (mh_code header = MsgData) then
              (mkMplexReader inner payload 0 (mr_handler r), Ok true)
            else
              (mkMplexReader inner payload 0
                 ((λ log, log ++ [(mh_code header, payload)]) <$> mr_handler r), Ok false)
      end
  end.

(** The loop of [read]; a turn takes the four bytes of a header at least. *)
Fixpoint read_loop (fuel : nat) (n : nat) (r : MplexReader)
    : option (MplexReader * result io_error (list byte)) :=
  match fuel with
  | O => None
  | S fuel' =>
      match read_message r with
      | (r, Err e) => Some (r, Err e)
      | (r, Ok is_data) =>
          if is_data && negb (bool_decide (mr_buffer r = [])) then
            let to_copy := min (length (mr_buffer r)) n in
            Some (mkMplexReader (mr_inner r) (mr_buffer r) to_copy (mr_handler r),
                  Ok (take to_copy (mr_buffer r)))
          else read_loop fuel' n r
      end
  end.

(** [read] into a buffer of [n] bytes. *)
Definition mplex_read (n : nat) (r : MplexReader) : option (MplexReader * result io_error (list byte)) :=
  if decide (mr_pos r < length (mr_buffer r))%nat then
    let available := (length (mr_buffer r) - mr_pos r)%nat in
    let to_copy := min available n in
    Some (mkMplexReader (mr_inner r) (mr_buffer r) (mr_pos r + to_copy) (mr_handler r),
          Ok (take to_copy (drop (mr_pos r) (mr_buffer r))))
  else read_loop (S (length (mr_inner r))) n r.

(** ** The writer *)

Record MplexWriter := mkMplexWriter {
  mw_out : list byte;
  mw_buffer : list byte;
  mw_buffer_size : nat;
  mw_max_frame_size : nat;
}.

Definition DEFAULT_BUFFER_SIZE : nat := Z.to_nat 32768.
Definition DEFAULT_MAX_FRAME_SIZE : nat := Z.to_nat 8192.

Definition writer_with_capacity (inner : list byte) (buffer_size : nat) : MplexWriter :=
  mkMplexWriter inner [] buffer_size DEFAULT_MAX_FRAME_SIZE.

Definition writer_new (inner : list byte) : MplexWriter := writer_with_capacity inner DEFAULT_BUFFER_SIZE.

(** [None] when it panics. *)
Definition writer_with_sizes (inner : list byte) (buffer_size max_frame_size : nat)
    : option MplexWriter :=
  if (MAX_PAYLOAD_LENGTH <? Z.of_nat max_frame_size)%Z then None
  else Some (mkMplexWriter inner [] buffer_size max_frame_size).

(** Methods of the writer: [None] when they do not end. *)
Definition wr (A : Type) : Type := MplexWriter → option (MplexWriter * result io_error A).

#[export] Instance wr_ret : MRet wr := λ A a w, Some (w, Ok a).
#[export] Instance wr_bind : MBind wr := λ A B f m w,
  match m w with
  | None => None
  | Some (w, Ok a) => f a w
  | Some (w, Err e) => Some (w, Err e)
  end.

Definition set_out (out : list byte) (w : MplexWriter) : MplexWriter :=
  mkMplexWriter out (mw_buffer w) (mw_buffer_size w) (mw_max_frame_size w).
Definition set_buffer (buffer : list byte) (w : MplexWriter) : MplexWriter :=
  mkMplexWriter (mw_out w) buffer (mw_buffer_size w) (mw_max_frame_size w).

Definition put_frame (code : MessageCode) (payload : list byte) : wr unit := λ w,
  match send_msg (mw_out w) code payload with
  | Ok out => Some (set_out out w, Ok tt)
  | Err e => Some (w, Err e)
  end.

(** The loop over chunks of [flush_buffer] and of [write_data]. *)
Fixpoint chunk_loop (fuel : nat) (data : list byte) : wr unit := λ w,
  match fuel with
  | O => None
  | S fuel' =>
      if decide (data = []) then Some (w, Ok tt)
      else
        (_ ← put_frame MsgData (take (mw_max_frame_size w) data);
         chunk_loop fuel' (drop (mw_max_frame_size w) data)) w
  end.

Definition flush_buffer : wr unit := λ w,
  if decide (mw_buffer w = []) then Some (w, Ok tt)
  else
    match chunk_loop (S (length (mw_buffer w))) (mw_buffer w) w with
    | Some (w, Ok _) => Some (set_buffer [] w, Ok tt)
    | other => other
    end.

Definition write_message (code : MessageCode) (payload : list byte) : wr unit :=
  _ ← flush_buffer; put_frame code payload.

Definition write_data (data : list byte) : wr unit :=
  _ ← flush_buffer; chunk_loop (S (length data)) data.

Definition put_raw (data : list byte) : wr unit := λ w, Some (set_out (mw_out w ++ data) w, Ok tt).

Definition write_raw (data : list byte) : wr unit := _ ← flush_buffer; put_raw data.

Definition write_keepalive : wr unit := write_message MsgData [].

(** [self.buffer.extend_from_slice(buf)]. *)
Definition buffer_bytes (buf : list byte) : wr nat := λ w,
  Some (set_buffer (mw_buffer w ++ buf) w, Ok (length buf)).

Definition mplex_write (buf : list byte) : wr nat := λ w,
  if decide (buf = []) then Some (w, Ok 0%nat)
  else
    (_ ← (if decide (mw_buffer_size w < length (mw_buffer w) + length buf)%nat then flush_buffer
          else mret tt);
     if decide (mw_buffer_size w < length buf)%nat then
       (_ ← write_data buf; mret (length buf))
     else buffer_bytes buf) w.

Definition mplex_flush : wr unit := flush_buffer.

(** ** Headers are unique *)

Lemma code_from_as_u8 c : code_from_u8 (code_as_u8 c) = Some c.
Proof. by destruct c. Qed.

Lemma code_as_u8_range c : (0 ≤ code_as_u8 c ≤ 102)%Z.
Proof. destruct c; cbn; lia. Qed.

Lemma land_mask z : Z.land z PAYLOAD_MASK = (z mod 2 ^ 24)%Z.
Proof. unfold PAYLOAD_MASK. change 16777215%Z with (Z.ones 24). by apply Z.land_ones. Qed.

Lemma header_encode_raw_eq h : (0 ≤ mh_payload_len h ≤ MAX_PAYLOAD_LENGTH)%Z →
  header_encode_raw h = ((MPLEX_BASE + code_as_u8 (mh_code h)) * 2 ^ 24 + mh_payload_len h)%Z.
Proof.
  unfold MAX_PAYLOAD_LENGTH. intros Hl. unfold header_encode_raw. rewrite land_mask, Z.mod_small by lia.
  rewrite Z.shiftl_mul_pow2 by lia. by rewrite lor_low by lia.
Qed.

Lemma header_from_raw_encode h : (0 ≤ mh_payload_len h ≤ MAX_PAYLOAD_LENGTH)%Z →
  header_from_raw (header_encode_raw h) = Ok h.
Proof.
  intros Hl. rewrite header_encode_raw_eq by done. unfold header_from_raw.
  pose proof (code_as_u8_range (mh_code h)). unfold MAX_PAYLOAD_LENGTH, MPLEX_BASE in *.
  rewrite Z.shiftr_div_pow2, Z.div_add_l, Z.div_small, Z.add_0_r by lia.
  rewrite (proj2 (Z.ltb_ge _ _)) by lia.
  replace (7 + code_as_u8 (mh_code h) - 7)%Z with (code_as_u8 (mh_code h)) by lia.
  rewrite code_from_as_u8, land_mask, Z.add_comm, Z.mod_add, Z.mod_small by lia.
  unfold header_new, MAX_PAYLOAD_LENGTH. rewrite (proj2 (Z.ltb_ge _ _)) by lia. by destruct h.
Qed.

Lemma header_roundtrip h : (0 ≤ mh_payload_len h ≤ MAX_PAYLOAD_LENGTH)%Z →
  header_decode (header_encode h) = Ok h.
Proof.
  intros Hl. unfold header_decode, header_encode. rewrite length_le_bytes.
  rewrite decide_False by (unfold HEADER_LEN; lia).
  rewrite take_ge by (rewrite length_le_bytes; unfold HEADER_LEN; lia).
  rewrite le_val_le_bytes. pose proof (code_as_u8_range (mh_code h)).
  rewrite Z.mod_small; [by apply header_from_raw_encode|].
  rewrite header_encode_raw_eq by done. unfold MAX_PAYLOAD_LENGTH, MPLEX_BASE in *. lia.
Qed.

Lemma length_header_encode h : length (header_encode h) = HEADER_LEN.
Proof. apply length_le_bytes. Qed.

(** ** Frames and what they carry *)

Definition frame : Type := MessageCode * list byte.

Definition frame_ok (f : frame) : Prop := (Z.of_nat (length f.2) ≤ MAX_PAYLOAD_LENGTH)%Z.

Definition wire_frame (f : frame) : list byte :=
  header_encode (mkHeader f.1 (Z.of_nat (length f.2))) ++ f.2.

Fixpoint wire_frames (fs : list frame) : list byte :=
  match fs with [] => [] | f :: fs' => wire_frame f ++ wire_frames fs' end.

(** What passes over the connection: bytes of the data, and messages between them. *)
Inductive item := DataByte (b : byte) | Message (code : MessageCode) (payload : list byte).

Definition data_items (data : list byte) : list item := map DataByte data.

Definition frame_items (f : frame) : list item :=
  if decide (f.1 = MsgData) then data_items f.2 else [Message f.1 f.2].

Definition frames_items (fs : list frame) : list item := fs ≫= frame_items.

Lemma wire_frames_app fs gs : wire_frames (fs ++ gs) = wire_frames fs ++ wire_frames gs.
Proof. induction fs as [|f fs IH]; cbn; [done|]. by rewrite IH, app_assoc. Qed.

Lemma frames_items_app fs gs : frames_items (fs ++ gs) = frames_items fs ++ frames_items gs.
Proof. apply bind_app. Qed.

Lemma data_items_app l k : data_items (l ++ k) = data_items l ++ data_items k.
Proof. apply map_app. Qed.

Lemma send_msg_ok out f : frame_ok f → send_msg out f.1 f.2 = Ok (out ++ wire_frame f).
Proof.
  unfold frame_ok. intros Hl. unfold send_msg, frame_header, ensure_payload_length, header_new.
  rewrite (proj2 (Z.ltb_ge _ _)) by done. by rewrite (proj2 (Z.ltb_ge _ _)) by done.
Qed.

Lemma send_msg_oversized out f : ¬ frame_ok f → send_msg out f.1 f.2 = Err InvalidInput.
Proof.
  unfold frame_ok. intros Hl. unfold send_msg, frame_header, ensure_payload_length.
  by rewrite (proj2 (Z.ltb_lt _ _)) by lia.
Qed.

Lemma frame_header_ok f : frame_ok f →
  (0 ≤ mh_payload_len (mkHeader f.1 (Z.of_nat (length f.2))) ≤ MAX_PAYLOAD_LENGTH)%Z.
Proof. unfold frame_ok. cbn. lia. Qed.

(** ** The writer *)

Definition writer_ok (w : MplexWriter) : Prop :=
  (0 < mw_max_frame_size w)%nat ∧ (Z.of_nat (mw_max_frame_size w) ≤ MAX_PAYLOAD_LENGTH)%Z.

(** The writer after some frames were sent, with a new buffer. *)
Definition after (w : MplexWriter) (fs : list frame) (buffer : list byte) : MplexWriter :=
  set_buffer buffer (set_out (mw_out w ++ wire_frames fs) w).

(** A method that ends with a value, sends some frames and leaves a buffer. *)
Definition sends {A} (m : wr A) (w : MplexWriter) (a : A) (fs : list frame) (buffer : list byte) : Prop :=
  m w = Some (after w fs buffer, Ok a) ∧ Forall frame_ok fs.

Lemma after_nil w : after w [] (mw_buffer w) = w.
Proof. destruct w. unfold after. cbn. by rewrite app_nil_r. Qed.

Lemma after_after w fs b gs c : after (after w fs b) gs c = after w (fs ++ gs) c.
Proof. unfold after. cbn. by rewrite wire_frames_app, app_assoc. Qed.

Lemma after_ok w fs b : writer_ok w → writer_ok (after w fs b).
Proof. done. Qed.

Lemma sends_ret {A} (a : A) w : sends (mret a) w a [] (mw_buffer w).
Proof. split; [|constructor]. by rewrite after_nil. Qed.

Lemma sends_bind {A B} (m : wr A) (f : A → wr B) w a fs b a' fs' b' :
  sends m w a fs b → sends (f a) (after w fs b) a' fs' b' → sends (m ≫= f) w a' (fs ++ fs') b'.
Proof.
  intros [H1 H2] [H3 H4]. split; [|by apply Forall_app].
  unfold mbind, wr_bind. by rewrite H1, H3, after_after.
Qed.

Lemma sends_put_frame f w : frame_ok f → sends (put_frame f.1 f.2) w () [f] (mw_buffer w).
Proof.
  intros Hf. split; [|by constructor]. unfold put_frame. rewrite send_msg_ok by done.
  unfold after. cbn. by rewrite app_nil_r.
Qed.

Lemma sends_chunk_loop fuel data w : writer_ok w → (length data < fuel)%nat →
  ∃ fs, sends (chunk_loop fuel data) w () fs (mw_buffer w) ∧ frames_items fs = data_items data.
Proof.
  intros [Hpos Hmax]. revert data w Hpos Hmax. induction fuel as [|fuel IH]; intros data w Hpos Hmax Hl; [lia|].
  cbn [chunk_loop]. unfold sends; cbn [chunk_loop]. case_decide as Hd.
  { exists []. subst data. by rewrite after_nil. }
  set (n := mw_max_frame_size w) in *.
  destruct (IH (drop n data) (after w [(MsgData, take n data)] (mw_buffer w))) as (fs & Hs & Hi);
    [done|done| |].
  { rewrite length_drop. destruct data; [done|cbn in *; lia]. }
  exists ((MsgData, take n data) :: fs). split.
  - apply (sends_bind _ _ _ () [(MsgData, take n data)] (mw_buffer w) () fs); [|done].
    apply (sends_put_frame (MsgData, take n data)). unfold frame_ok. cbn. rewrite length_take. lia.
  - change (frames_items ((MsgData, take n data) :: fs)) with (data_items (take n data) ++ frames_items fs).
    by rewrite Hi, <-data_items_app, take_drop.
Qed.

Lemma sends_flush_buffer w : writer_ok w →
  ∃ fs, sends flush_buffer w () fs [] ∧ frames_items fs = data_items (mw_buffer w).
Proof.
  intros Hw. unfold sends, flush_buffer. case_decide as Hb.
  { exists []. split; [|by rewrite Hb]. split; [|constructor]. by rewrite <-Hb, after_nil. }
  destruct (sends_chunk_loop (S (length (mw_buffer w))) (mw_buffer w) w) as (fs & [E Hf] & Hi); [done|lia|].
  exists fs. by rewrite E.
Qed.

(** The calls of a client. *)
Inductive wop :=
| OpWrite (buf : list byte)
| OpMessage (code : MessageCode) (payload : list byte)
| OpData (data : list byte)
| OpKeepalive
| OpFlush.

Definition run_op (op : wop) : wr unit :=
  match op with
  | OpWrite buf => _ ← mplex_write buf; mret ()
  | OpMessage code payload => write_message code payload
  | OpData data => write_data data
  | OpKeepalive => write_keepalive
  | OpFlush => mplex_flush
  end.

Fixpoint run_ops (ops : list wop) : wr unit :=
  match ops with [] => mret () | op :: ops' => _ ← run_op op; run_ops ops' end.

Definition op_items (op : wop) : list item :=
  match op with
  | OpWrite buf => data_items buf
  | OpMessage code payload => frame_items (code, payload)
  | OpData data => data_items data
  | OpKeepalive | OpFlush => []
  end.

Definition op_ok (op : wop) : Prop :=
  match op with OpMessage code payload => frame_ok (code, payload) | _ => True end.

(** A method that adds items to what the writer has sent or holds. *)
Definition adds {A} (m : wr A) (w : MplexWriter) (items : list item) : Prop :=
  ∃ a fs b, sends m w a fs b ∧ data_items (mw_buffer w) ++ items = frames_items fs ++ data_items b.

Lemma adds_bind {A B} (m : wr A) (f : A → wr B) w i j : writer_ok w → adds m w i →
  (∀ a w', writer_ok w' → adds (f a) w' j) → adds (m ≫= f) w (i ++ j).
Proof.
  intros Hw (a & fs & b & Hs & Hi) Hf.
  destruct (Hf a (after w fs b)) as (a' & fs' & b' & Hs' & Hi'); [done|].
  exists a', (fs ++ fs'), b'. split; [by eapply sends_bind|].
  rewrite app_assoc, Hi, <-app_assoc. change (mw_buffer (after w fs b)) with b in Hi'.
  by rewrite Hi', frames_items_app, app_assoc.
Qed.

Lemma adds_ret {A} (a : A) w : adds (mret a) w [].
Proof. exists a, [], (mw_buffer w). split; [apply sends_ret|]. by rewrite app_nil_r. Qed.

Lemma adds_flush w : writer_ok w → adds flush_buffer w [].
Proof.
  intros Hw. destruct (sends_flush_buffer w Hw) as (fs & Hs & Hi). exists (), fs, [].
  split; [done|]. by rewrite Hi.
Qed.

(** After a flush, frames are sent behind everything that was taken. *)
Lemma adds_after_flush {A} (m : wr A) w items : writer_ok w →
  (∀ w', writer_ok w' → mw_buffer w' = [] → adds m w' items) → adds (_ ← flush_buffer; m) w items.
Proof.
  intros Hw Hm. destruct (sends_flush_buffer w Hw) as (fs & Hs & Hi).
  destruct (Hm (after w fs [])) as (a & fs' & b & Hs' & Hi'); [done..|].
  exists a, (fs ++ fs'), b. split; [by eapply (sends_bind flush_buffer (λ _, m))|].
  change (items = frames_items fs' ++ data_items b) in Hi'.
  by rewrite Hi', frames_items_app, Hi, app_assoc.
Qed.

Lemma adds_frame f w : frame_ok f → mw_buffer w = [] → adds (put_frame f.1 f.2) w (frame_items f).
Proof.
  intros Hf Hb. exists (), [f], (mw_buffer w). split; [by apply sends_put_frame|].
  rewrite Hb. unfold frames_items. cbn. by rewrite !app_nil_r.
Qed.

Lemma adds_chunks data w : writer_ok w → mw_buffer w = [] →
  adds (chunk_loop (S (length data)) data) w (data_items data).
Proof.
  intros Hw Hb. destruct (sends_chunk_loop (S (length data)) data w) as (fs & Hs & Hi); [done|lia|].
  exists (), fs, (mw_buffer w). split; [done|]. by rewrite Hb, Hi, app_nil_r.
Qed.

Lemma adds_write_message f w : writer_ok w → frame_ok f → adds (write_message f.1 f.2) w (frame_items f).
Proof. intros Hw Hf. apply adds_after_flush; [done|]. intros. by apply adds_frame. Qed.

Lemma adds_write_data data w : writer_ok w → adds (write_data data) w (data_items data).
Proof. intros Hw. apply adds_after_flush; [done|]. intros. by apply adds_chunks. Qed.

Lemma adds_buffer_bytes buf w : adds (buffer_bytes buf) w (data_items buf).
Proof.
  exists (length buf), [], (mw_buffer w ++ buf). split; [|by rewrite data_items_app].
  split; [|constructor]. unfold buffer_bytes, after. cbn. by rewrite app_nil_r; destruct w.
Qed.

Lemma adds_mplex_write buf w : writer_ok w → adds (mplex_write buf) w (data_items buf).
Proof.
  intros Hw. unfold adds, sends, mplex_write. case_decide as Hb.
  { subst buf. apply (adds_ret 0%nat). }
  match goal with |- ∃ a fs b, (?m w = _ ∧ _) ∧ _ => change (adds m w (data_items buf)) end.
  apply (adds_bind _ _ w [] (data_items buf)); [done| |].
  - case_decide; [by apply adds_flush|apply adds_ret].
  - intros _ w' Hw'. case_decide; [|apply adds_buffer_bytes].
    rewrite <-(app_nil_r (data_items buf)). apply adds_bind; [done|by apply adds_write_data|].
    intros. apply adds_ret.
Qed.

Lemma adds_op op w : writer_ok w → op_ok op → adds (run_op op) w (op_items op).
Proof.
  intros Hw Ho. destruct op as [buf|code payload|data| |]; cbn [run_op op_items].
  - rewrite <-(app_nil_r (data_items buf)). apply adds_bind; [done|by apply adds_mplex_write|].
    intros. apply adds_ret.
  - by apply (adds_write_message (code, payload)).
  - by apply adds_write_data.
  - apply (adds_write_message (MsgData, [])); [done|]. unfold frame_ok, MAX_PAYLOAD_LENGTH. cbn. lia.
  - by apply adds_flush.
Qed.

Lemma adds_ops ops w : writer_ok w → Forall op_ok ops → adds (run_ops ops) w (ops ≫= op_items).
Proof.
  intros Hw Ho. revert w Hw. induction Ho as [|op ops Hop Hops IH]; intros w Hw; [apply adds_ret|].
  cbn [run_ops]. change ((op :: ops) ≫= op_items) with (op_items op ++ (ops ≫= op_items)).
  apply adds_bind; [done|by apply adds_op|]. intros _ w' Hw'. by apply IH.
Qed.

(** ** The reader *)

Definition msg_items (msgs : list frame) : list item := map (λ f, Message f.1 f.2) msgs.

Definition msgs_of (f : frame) : list frame := if decide (f.1 = MsgData) then [] else [f].

Lemma length_wire_frames fs : (length fs ≤ length (wire_frames fs))%nat.
Proof.
  induction fs as [|f fs IH]; cbn [wire_frames length]; [done|]. unfold wire_frame.
  rewrite !length_app, length_header_encode. unfold HEADER_LEN. lia.
Qed.

Lemma read_message_frame r f fs log : frame_ok f →
  mr_inner r = wire_frames (f :: fs) → mr_handler r = Some log →
  read_message r = (mkMplexReader (wire_frames fs) f.2 0 (Some (log ++ msgs_of f)),
                    Ok (bool_decide (f.1 = MsgData))).
Proof.
  intros Hf Hi Hh. unfold read_message. rewrite Hi. cbn [wire_frames]. unfold wire_frame.
  rewrite <-!app_assoc, read_exact_app by apply length_header_encode.
  rewrite header_roundtrip by by apply frame_header_ok. cbn [mh_payload_len mh_code].
  rewrite Nat2Z.id, length_app, decide_False by lia. rewrite take_app_length, drop_app_length, Hh.
  unfold msgs_of. case_decide as Hc.
  - by rewrite bool_decide_true, app_nil_r.
  - rewrite bool_decide_false by done. by destruct f.
Qed.

Lemma read_message_end r : mr_inner r = [] →
  read_message r = (mkMplexReader [] (mr_buffer r) (mr_pos r) (mr_handler r), Err UnexpectedEof).
Proof. intros Hi. unfold read_message. by rewrite Hi. Qed.

(** What a call gives: bytes of the data, after the messages in front of them; or the end,
    after the last messages. *)
Definition read_gives (n : nat) (res : option (MplexReader * result io_error (list byte)))
    (items : list item) (log : list frame) : Prop :=
  ∃ r' msgs, mr_handler r' = Some (log ++ msgs) ∧
    ((∃ bytes fs', res = Some (r', Ok bytes) ∧ bytes ≠ [] ∧ (length bytes ≤ n)%nat ∧
       mr_inner r' = wire_frames fs' ∧ Forall frame_ok fs' ∧
       items = msg_items msgs ++ data_items bytes ++
               data_items (drop (mr_pos r') (mr_buffer r')) ++ frames_items fs') ∨
     (res = Some (r', Err UnexpectedEof) ∧ items = msg_items msgs)).

Lemma read_loop_gives n fs fuel r log : (0 < n)%nat → Forall frame_ok fs → (length fs < fuel)%nat →
  mr_inner r = wire_frames fs → mr_handler r = Some log →
  read_gives n (read_loop fuel n r) (frames_items fs) log.
Proof.
  intros Hn Hfs. revert fuel r log. induction Hfs as [|f fs Hf Hfs IH]; intros fuel r log Hl Hi Hh;
    (destruct fuel as [|fuel]; [cbn in Hl; lia|]); cbn [read_loop].
  { rewrite read_message_end by done.
    exists (mkMplexReader [] (mr_buffer r) (mr_pos r) (mr_handler r)), [].
    rewrite app_nil_r. split; [done|]. by right. }
  rewrite (read_message_frame r f fs log) by done. cbn [mr_buffer mr_inner mr_handler length] in *.
  change (frames_items (f :: fs)) with (frame_items f ++ frames_items fs).
  destruct (bool_decide (f.1 = MsgData) && negb (bool_decide (f.2 = []))) eqn:E.
  - apply andb_true_iff in E as [Ec Eb]. apply bool_decide_eq_true in Ec.
    apply negb_true_iff, bool_decide_eq_false in Eb.
    exists (mkMplexReader (wire_frames fs) f.2 (min (length f.2) n) (Some (log ++ msgs_of f))), [].
    split; [unfold msgs_of; by rewrite decide_True by done|]. left.
    exists (take (min (length f.2) n) f.2), fs. split; [done|]. cbn [mr_inner mr_pos mr_buffer].
    split; [destruct f.2, n; [done..|lia|done]|]. split; [rewrite length_take; lia|].
    split; [done|]. split; [done|]. unfold frame_items. rewrite decide_True by done.
    cbn [msg_items map app]. by rewrite app_assoc, <-data_items_app, take_drop.
  - destruct (IH fuel (mkMplexReader (wire_frames fs) f.2 0 (Some (log ++ msgs_of f)))
                (log ++ msgs_of f)) as (r' & msgs & Hr & H); [lia|done|done|].
    exists r', (msgs_of f ++ msgs). split; [by rewrite app_assoc|].
    assert (Hit : frame_items f = msg_items (msgs_of f)).
    { unfold frame_items, msgs_of. case_decide as Hc; [|done]. rewrite bool_decide_true in E by done.
      apply negb_false_iff, bool_decide_eq_true in E. by rewrite E. }
    unfold msg_items. rewrite map_app. fold (msg_items (msgs_of f)) (msg_items msgs). rewrite Hit.
    destruct H as [(bytes & fs' & H1 & H2 & H3 & H4 & H5 & ->)|[H1 ->]].
    + left. exists bytes, fs'. by rewrite <-app_assoc.
    + by right.
Qed.

Lemma mplex_read_gives n fs r log : (0 < n)%nat → Forall frame_ok fs →
  mr_inner r = wire_frames fs → mr_handler r = Some log →
  read_gives n (mplex_read n r) (data_items (drop (mr_pos r) (mr_buffer r)) ++ frames_items fs) log.
Proof.
  intros Hn Hfs Hi Hh. unfold mplex_read. case_decide as Hp.
  - set (k := min (length (mr_buffer r) - mr_pos r) n).
    exists (mkMplexReader (mr_inner r) (mr_buffer r) (mr_pos r + k) (mr_handler r)), [].
    split; [by rewrite app_nil_r|]. left. exists (take k (drop (mr_pos r) (mr_buffer r))), fs.
    split; [done|]. split.
    { intros E%(f_equal length). rewrite length_take, length_drop in E. cbn in E. lia. }
    split; [rewrite length_take; lia|]. split; [done|]. split; [done|].
    cbn [mr_pos mr_buffer msg_items map app]. rewrite app_assoc, <-data_items_app.
    by rewrite <-drop_drop, take_drop.
  - rewrite drop_ge by lia. apply read_loop_gives; [done|done| |done|done].
    rewrite Hi. pose proof (length_wire_frames fs). lia.
Qed.

(** Reading until the end with buffers of any sizes, and what comes out: the messages the
    handler was called with and the bytes that were returned, in the order of the calls. *)
Fixpoint drain (fuel : nat) (size : nat → nat) (i : nat) (r : MplexReader) : list item :=
  match fuel with
  | O => []
  | S fuel' =>
      match mplex_read (size i) r with
      | None => []
      | Some (r', res) =>
          let seen := length (default [] (mr_handler r)) in
          msg_items (drop seen (default [] (mr_handler r'))) ++
          match res with
          | Ok bytes => data_items bytes ++ drain fuel' size (S i) r'
          | Err _ => []
          end
      end
  end.

Lemma drain_items fuel size i fs r log : (∀ j, 0 < size j)%nat → Forall frame_ok fs →
  mr_inner r = wire_frames fs → mr_handler r = Some log →
  let items := data_items (drop (mr_pos r) (mr_buffer r)) ++ frames_items fs in
  (length items < fuel)%nat → drain fuel size i r = items.
Proof.
  intros Hsz. revert i fs r log. induction fuel as [|fuel IH]; intros i fs r log Hfs Hi Hh items Hl; [lia|].
  cbn [drain]. destruct (mplex_read_gives (size i) fs r log) as (r' & msgs & Hr & H); [done..|].
  fold items in H.
  destruct H as [(bytes & fs' & -> & Hb & _ & Hi' & Hfs' & Hit)|[-> Hit]];
    rewrite Hh, Hr; cbn [from_option id]; rewrite drop_app_length; [|by rewrite app_nil_r].
  rewrite (IH (S i) fs' r' (log ++ msgs)); [by rewrite Hit|done..|].
  rewrite Hit in Hl. rewrite !length_app in Hl. rewrite length_app.
  assert (0 < length (data_items bytes))%nat by (destruct bytes; [done|cbn; lia]). lia.
Qed.

(** ** Properties *)

(** C25: The connection is transparent: whatever a client writes, sends as messages and
    flushes, in whatever pieces, every call succeeds, and a reader at the other end, with
    buffers of any sizes, gets the same bytes and its handler the same messages, in the same
    order among each other, and then the end of the stream. *)
Theorem mplex_transparent (ops : list wop) (w : MplexWriter) (size : nat → nat) :
  writer_ok w → mw_out w = [] → mw_buffer w = [] → Forall op_ok ops → (∀ i, 0 < size i)%nat →
  ∃ w', (_ ← run_ops ops; mplex_flush) w = Some (w', Ok ()) ∧
    let items := ops ≫= op_items in
    drain (S (length items)) size 0 (set_message_handler (mplex_reader_new (mw_out w'))) = items.
Proof.
  intros Hw Ho Hb Hops Hsz.
  destruct (adds_ops ops w Hw Hops) as ([] & fs & b & Hs & Hi).
  destruct (sends_flush_buffer (after w fs b)) as (fs' & Hs' & Hi'); [done|].
  pose proof (sends_bind _ (λ _, mplex_flush) _ _ _ _ _ _ _ Hs Hs') as [E Hall].
  eexists. split; [exact E|]. rewrite Hb in Hi. cbn [data_items map app] in Hi.
  intros items.
  assert (Hit : items = frames_items (fs ++ fs')).
  { unfold items. rewrite Hi, frames_items_app, Hi'. done. }
  rewrite (drain_items _ size 0 (fs ++ fs') _ []); [by rewrite Hit|done|done| |done|].
  - cbn. by rewrite Ho.
  - change (length (frames_items (fs ++ fs')) < S (length items))%nat. rewrite Hit. lia.
Qed.

Lemma mplex_transparent_witness :
  let ops := [OpWrite [x61; x62; x63]; OpMessage MsgInfo [x21]; OpWrite [x64]; OpKeepalive;
              OpData [x65; x66; x67; x68; x69]] in
  ∃ w', (_ ← run_ops ops; mplex_flush) (mkMplexWriter [] [] 4 2) = Some (w', Ok ()) ∧
    let items := ops ≫= op_items in
    drain (S (length items)) (λ _, 3%nat) 0 (set_message_handler (mplex_reader_new (mw_out w'))) = items.
Proof.
  apply mplex_transparent; [|done|done| |intros; lia].
  - split; cbn; [lia|unfold MAX_PAYLOAD_LENGTH; lia].
  - repeat constructor. unfold op_ok, frame_ok, MAX_PAYLOAD_LENGTH. cbn. lia.
Defined.

(** A message that is the last thing on the connection is handed out as data: the call
    that comes to the end reports the end, but the message stays in the reader's buffer, and
    the next call returns its text as if it were data of the file. *)
Theorem message_read_as_data (f : frame) (n : nat) :
  frame_ok f → f.1 ≠ MsgData → f.2 ≠ [] → 
  ∃ r, mplex_read n (mplex_reader_new (wire_frames [f])) = Some (r, Err UnexpectedEof) ∧
       ∃ r', mplex_read n r = Some (r', Ok (take n f.2)).
Proof.
  intros Hf Hc Hp. exists (mkMplexReader [] f.2 0 None).
  assert (E : read_message (mplex_reader_new (wire_frames [f])) = (mkMplexReader [] f.2 0 None, Ok false)).
  { unfold read_message. cbn [mr_inner mplex_reader_new wire_frames]. rewrite app_nil_r. unfold wire_frame.
    rewrite read_exact_app by apply length_header_encode.
    rewrite header_roundtrip by by apply frame_header_ok. cbn [mh_payload_len mh_code].
    rewrite Nat2Z.id, decide_False by lia. rewrite decide_False by done.
    by rewrite firstn_all, drop_ge by lia. }
  assert (Hl : (0 < length f.2)%nat) by (destruct f.2; [done|cbn; lia]).
  split.
  - unfold mplex_read. cbn [mr_pos mr_buffer mplex_reader_new length]. rewrite decide_False by lia.
    cbn [read_loop]. rewrite E. cbn [andb mr_inner mplex_reader_new].
    pose proof (length_wire_frames [f]) as Hw. cbn [length] in Hw.
    destruct (length (wire_frames [f])) as [|k]; [lia|]. cbn [read_loop].
    by rewrite read_message_end.
  - unfold mplex_read. cbn [mr_pos mr_buffer]. rewrite decide_True by lia.
    eexists. rewrite drop_0, Nat.sub_0_r. do 3 f_equal.
    destruct (Nat.min_spec (length f.2) n) as [[? ->]|[? ->]]; [|done].
    by rewrite firstn_all, take_ge by lia.
Qed.

Lemma message_read_as_data_witness :
  ∃ r, mplex_read 8 (mplex_reader_new (wire_frames [(MsgError, [x68; x69])])) =
         Some (r, Err UnexpectedEof) ∧
       ∃ r', mplex_read 8 r = Some (r', Ok [x68; x69]).
Proof.
  apply (message_read_as_data (MsgError, [x68; x69]) 8); [|done|done].
  unfold frame_ok, MAX_PAYLOAD_LENGTH. cbn. lia.
Defined.

(** A message that is too long for a frame is refused, after the data before it was sent. *)
Lemma oversized_message_refused f w : writer_ok w → ¬ frame_ok f →
  ∃ fs, write_message f.1 f.2 w = Some (after w fs [], Err InvalidInput) ∧
        frames_items fs = data_items (mw_buffer w).
Proof.
  intros Hw Hf. destruct (sends_flush_buffer w Hw) as (fs & [E Hfs] & Hi). exists fs. split; [|done].
  unfold write_message, mbind, wr_bind. rewrite E. unfold put_frame. by rewrite send_msg_oversized.
Qed.

(** With frames of no bytes a flush of buffered data does not end. *)
Lemma empty_frames_diverge fuel data w : data ≠ [] → mw_max_frame_size w = 0%nat →
  chunk_loop fuel data w = None.
Proof.
  intros Hd. revert w. induction fuel as [|fuel IH]; intros w Hw; [done|]. cbn [chunk_loop].
  rewrite decide_False by done. rewrite Hw, take_0, drop_0.
  destruct (sends_put_frame (MsgData, []) w) as [E _].
  { unfold frame_ok, MAX_PAYLOAD_LENGTH. cbn. lia. }
  unfold mbind, wr_bind. cbn [fst snd] in E. rewrite E. by apply IH.
Qed.
