(* ===== verification/Ndx.v ===== *)
(** * Indices of files on the wire ([crates/protocol/src/codec/ndx/])

    The two ends refer to files by their place in the file list.  Old protocols send four
    bytes; newer ones send the difference to the index sent before, with a state at each end
    that both must change in the same way.  Integers are [i32] and wrap around.
    The number of the protocol, which only the choice of the codec looks at, is left out of
    the codecs. *)

From S2P Require Import Prelude.

Local Open Scope Z_scope.

Definition NDX_DONE : Z := -1.
Definition NDX_FLIST_EOF : Z := -2.
Definition NDX_DONE_LEGACY_BYTES : list byte := [xff; xff; xff; xff].
Definition NDX_DONE_MODERN_BYTE : byte := x00.

(** ** The codec of old protocols *)

Definition legacy_write_ndx (ndx : Z) : list byte := le_bytes 4 ndx.
Definition legacy_write_ndx_done : list byte := le_bytes 4 NDX_DONE.
Definition legacy_read_ndx : parser Z := buf ← read_exact 4; mret (i32_from_le buf).

(** ** The codec of newer protocols *)

Record ModernNdxCodec := mkModern {
  nc_prev_positive : Z;
  nc_prev_negative : Z;
}.

Definition modern_new : ModernNdxCodec := mkModern (-1) 1.

Inductive NdxLead := LeadDone | LeadNegative | LeadPositive.

Definition classify_ndx_lead (lead : byte) : NdxLead :=
  if decide (lead = xff) then LeadNegative
  else if decide (lead = x00) then LeadDone
  else LeadPositive.

Definition decode_ndx_extended_full (tag b0 b1 b2 : byte) : Z :=
  let high := Z.land (uz tag) 127 in
  Z.lor (Z.lor (Z.lor (Z.shiftl high 24) (uz b0)) (Z.shiftl (uz b1) 8)) (Z.shiftl (uz b2) 16).

Definition decode_ndx_extended_diff (hi lo : byte) (prev_val : Z) : Z :=
  let diff := Z.lor (Z.shiftl (uz hi) 8) (uz lo) in
  swrap 32 (prev_val + diff).

Definition decode_ndx_short (diff_byte : byte) (prev_val : Z) : Z :=
  swrap 32 (prev_val + uz diff_byte).

Definition prev_val (c : ModernNdxCodec) (is_negative : bool) : Z :=
  if is_negative then nc_prev_negative c else nc_prev_positive c.

Definition commit_ndx (c : ModernNdxCodec) (is_negative : bool) (num : Z) : Z * ModernNdxCodec :=
  if is_negative then (swrap 32 (- num), mkModern (nc_prev_positive c) num)
  else (num, mkModern num (nc_prev_negative c)).

(** The bytes of a difference. *)
Definition encode_diff (diff ndx_positive : Z) : list byte :=
  if (0 <? diff) && (diff <? 254) then [zb diff]
  else if negb ((0 <=? diff) && (diff <=? 32767)) then
    [xfe; zb (Z.lor (wrap 8 (Z.shiftr ndx_positive 24)) 128); zb ndx_positive;
     zb (Z.shiftr ndx_positive 8); zb (Z.shiftr ndx_positive 16)]
  else [xfe; zb (Z.shiftr diff 8); zb diff].

Definition modern_write_ndx (c : ModernNdxCodec) (ndx : Z) : ModernNdxCodec * list byte :=
  if 0 <=? ndx then
    let diff := swrap 32 (ndx - nc_prev_positive c) in
    (mkModern ndx (nc_prev_negative c), encode_diff diff ndx)
  else if ndx =? NDX_DONE then (c, [x00])
  else
    let ndx_abs := swrap 32 (- ndx) in
    let diff := swrap 32 (ndx_abs - nc_prev_negative c) in
    (mkModern (nc_prev_positive c) ndx_abs, xff :: encode_diff diff ndx_abs).

Definition modern_write_ndx_done : list byte := [x00].

(** What follows the lead byte [b]. *)
Definition read_num (prev_val : Z) (b : byte) : parser Z :=
  if decide (b = xfe) then
    b ← read_u8;
    if decide (Z.land (uz b) 128 ≠ 0) then
      b0 ← read_u8; b1 ← read_u8; b2 ← read_u8;
      mret (decode_ndx_extended_full b b0 b1 b2)
    else
      lo ← read_u8; mret (decode_ndx_extended_diff b lo prev_val)
  else mret (decode_ndx_short b prev_val).

Definition modern_read_ndx (c : ModernNdxCodec) : parser (Z * ModernNdxCodec) :=
  b ← read_u8;
  match classify_ndx_lead b with
  | LeadDone => mret (NDX_DONE, c)
  | LeadNegative => b ← read_u8; num ← read_num (prev_val c true) b; mret (commit_ndx c true num)
  | LeadPositive => num ← read_num (prev_val c false) b; mret (commit_ndx c false num)
  end.

(** ** Either codec *)

Inductive NdxCodecEnum := Legacy | Modern (c : ModernNdxCodec).

Definition create_ndx_codec (protocol_version : Z) : NdxCodecEnum :=
  if protocol_version <? 30 then Legacy else Modern modern_new.

Definition write_ndx (c : NdxCodecEnum) (ndx : Z) : NdxCodecEnum * list byte :=
  match c with
  | Legacy => (Legacy, legacy_write_ndx ndx)
  | Modern m => let '(m, out) := modern_write_ndx m ndx in (Modern m, out)
  end.

Definition write_ndx_done (c : NdxCodecEnum) : list byte :=
  match c with Legacy => legacy_write_ndx_done | Modern _ => modern_write_ndx_done end.

Definition read_ndx (c : NdxCodecEnum) : parser (Z * NdxCodecEnum) :=
  match c with
  | Legacy => ndx ← legacy_read_ndx; mret (ndx, Legacy)
  | Modern m => '(ndx, m) ← modern_read_ndx m; mret (ndx, Modern m)
  end.

(** ** Reading from pieces *)

(** [read_ndx_from_carry_async]: decoding is tried on what has arrived, and again from the
    state before when more has.  The source is the pieces that its reads return; [None] when
    the fuel, one more than their number, runs out. *)
Fixpoint read_ndx_from_carry (fuel : nat) (c : NdxCodecEnum) (src : list (list byte)) (carry : list byte)
    : option (result io_error Z * NdxCodecEnum * list (list byte) * list byte) :=
  match fuel with
  | O => None
  | S fuel' =>
      let more :=
        match src with
        | [] => Some (Err UnexpectedEof, c, [], carry)
        | piece :: src' =>
            if decide (piece = []) then Some (Err UnexpectedEof, c, src', carry)
            else read_ndx_from_carry fuel' c src' (carry ++ piece)
        end in
      if decide (carry = []) then more
      else
        match read_ndx c carry with
        | Ok (ndx, c', rest) => Some (Ok ndx, c', src, rest)
        | Err UnexpectedEof => more
        | Err e => Some (Err e, c, src, carry)
        end
  end.

(** ** The last word of a transfer *)

Definition write_goodbye (protocol_version : Z) : list byte :=
  if protocol_version <? 30 then NDX_DONE_LEGACY_BYTES else [NDX_DONE_MODERN_BYTE].

Definition read_goodbye (protocol_version : Z) : parser unit :=
  if protocol_version <? 30 then
    buf ← read_exact 4;
    if decide (i32_from_le buf ≠ NDX_DONE) then fail InvalidData else mret ()
  else
    b ← read_u8;
    if decide (b ≠ NDX_DONE_MODERN_BYTE) then fail InvalidData else mret ().

(** ** A sequence of indices *)

Fixpoint write_all_ndx (c : NdxCodecEnum) (l : list Z) : NdxCodecEnum * list byte :=
  match l with
  | [] => (c, [])
  | ndx :: l' =>
      let '(c, out) := write_ndx c ndx in
      let '(c, out') := write_all_ndx c l' in
      (c, out ++ out')
  end.

Fixpoint read_n_ndx (n : nat) (c : NdxCodecEnum) : parser (list Z * NdxCodecEnum) :=
  match n with
  | O => mret ([], c)
  | S n' =>
      '(ndx, c) ← read_ndx c;
      '(l, c) ← read_n_ndx n' c;
      mret (ndx :: l, c)
  end.

(** Every index but the least [i32]. *)
Definition ndx_ok (ndx : Z) : Prop := - 2 ^ 31 < ndx < 2 ^ 31.

(** ** Numbers and their bytes *)

Lemma swrap_cong a b : cong (2 ^ 32) a b → swrap 32 a = swrap 32 b.
Proof. intros H. rewrite <-(swrap_mod 32 a), <-(swrap_mod 32 b) by lia. unfold cong in H. by rewrite H. Qed.

Lemma swrap_add_diff p n : in_i 32 n → swrap 32 (p + swrap 32 (n - p)) = n.
Proof.
  intros Hn. rewrite (swrap_cong _ n); [by apply swrap_small|].
  rewrite (cong_swrap 32 (n - p)) by lia. apply cong_of_eq. lia.
Qed.

Lemma lor_128 x : 0 ≤ x < 128 → Z.lor x 128 = 128 + x.
Proof. intros Hx. rewrite Z.lor_comm. change 128 with (1 * 2 ^ 7) at 1. rewrite lor_low by lia. lia. Qed.

Lemma land_127 x : Z.land x 127 = x mod 128.
Proof. change 127 with (Z.ones 7). by apply Z.land_ones. Qed.

Lemma land_128_low x : 0 ≤ x < 128 → Z.land x 128 = 0.
Proof. intros Hx. rewrite Z.land_comm. change 128 with (1 * 2 ^ 7). by apply land_low_disjoint. Qed.

Lemma land_128_high x : 0 ≤ x < 128 → Z.land (128 + x) 128 = 128.
Proof.
  intros Hx. rewrite <-lor_128 by done. rewrite Z.land_lor_distr_l, land_128_low by done. done.
Qed.

Lemma decode_full_bytes tag b0 b1 b2 :
  decode_ndx_extended_full tag b0 b1 b2 =
  (uz tag mod 128) * 2 ^ 24 + uz b2 * 2 ^ 16 + uz b1 * 2 ^ 8 + uz b0.
Proof.
  unfold decode_ndx_extended_full. rewrite land_127.
  pose proof (uz_range b0). pose proof (uz_range b1). pose proof (uz_range b2).
  rewrite <-!Z.lor_assoc, (Z.lor_comm (uz b0)), <-Z.lor_assoc.
  rewrite (Z.lor_comm (Z.shiftl (uz b1) 8)), <-Z.lor_assoc.
  rewrite (Z.lor_comm (uz b0)), !Z.shiftl_mul_pow2 by lia.
  rewrite (lor_low 8) by lia. rewrite (lor_low 16) by lia. rewrite (lor_low 24) by lia. lia.
Qed.

Lemma decode_diff_bytes hi lo p :
  decode_ndx_extended_diff hi lo p = swrap 32 (p + (uz hi * 2 ^ 8 + uz lo)).
Proof.
  unfold decode_ndx_extended_diff. pose proof (uz_range lo).
  rewrite Z.shiftl_mul_pow2, lor_low by lia. done.
Qed.

Lemma bind_read_u8 {A} (f : byte → parser A) x s : (read_u8 ≫= f) (x :: s) = f x s.
Proof. done. Qed.

(** A difference is read back as the index, whatever the one before. *)
Lemma read_num_encode p n s : 0 ≤ n < 2 ^ 31 →
  ∃ b rest, encode_diff (swrap 32 (n - p)) n = b :: rest ∧ b ≠ x00 ∧ b ≠ xff ∧
            read_num p b (rest ++ s) = Ok (n, s).
Proof.
  intros Hn. assert (Hi : in_i 32 n) by (unfold in_i; lia).
  pose proof (swrap_add_diff p n Hi) as Hd. unfold encode_diff.
  set (d := swrap 32 (n - p)) in *. destruct ((0 <? d) && (d <? 254)) eqn:E1.
  { apply andb_true_iff in E1 as [E1%Z.ltb_lt E2%Z.ltb_lt].
    assert (Hu : uz (zb d) = d) by (apply uz_zb_small; lia).
    exists (zb d), []. split; [done|]. split_and!; try (intros E; rewrite E in Hu; cbn in Hu; lia).
    unfold read_num. rewrite decide_False by (intros E; rewrite E in Hu; cbn in Hu; lia).
    unfold decode_ndx_short. by rewrite Hu, Hd. }
  destruct ((0 <=? d) && (d <=? 32767)) eqn:E2; cbn [negb].
  - apply andb_true_iff in E2 as [E2%Z.leb_le E3%Z.leb_le]. do 2 eexists. split; [done|].
    split_and!; [done|done|]. unfold read_num. rewrite decide_True by done.
    assert (Hh : uz (zb (Z.shiftr d 8)) = d / 256).
    { rewrite Z.shiftr_div_pow2 by lia. apply uz_zb_small. Z.to_euclidean_division_equations. lia. }
    cbn [app]. rewrite bind_read_u8, Hh, decide_False
      by (intros E; apply E; apply land_128_low; Z.to_euclidean_division_equations; lia).
    rewrite bind_read_u8, decode_diff_bytes, Hh, uz_zb.
    replace (d / 256 * 2 ^ 8 + d mod 256) with d by (Z.to_euclidean_division_equations; lia).
    by rewrite Hd.
  - do 2 eexists. split; [done|]. split_and!; [done|done|]. unfold read_num. rewrite decide_True by done.
    rewrite !Z.shiftr_div_pow2 by lia.
    assert (Hx : 0 ≤ n / 2 ^ 24 < 128) by (Z.to_euclidean_division_equations; lia).
    assert (Hh : uz (zb (Z.lor (wrap 8 (n / 2 ^ 24)) 128)) = 128 + n / 2 ^ 24).
    { rewrite wrap_small by (unfold in_u; lia). rewrite lor_128 by done. apply uz_zb_small. lia. }
    cbn [app]. rewrite bind_read_u8, Hh, decide_True by by rewrite land_128_high.
    rewrite !bind_read_u8, decode_full_bytes, Hh, !uz_zb. unfold mret, parser_ret. do 2 f_equal.
    Z.to_euclidean_division_equations. lia.
Qed.

Lemma modern_roundtrip m ndx s : ndx_ok ndx →
  modern_read_ndx m ((modern_write_ndx m ndx).2 ++ s) = Ok (ndx, (modern_write_ndx m ndx).1, s).
Proof.
  unfold ndx_ok. intros Hn. unfold modern_write_ndx, modern_read_ndx.
  destruct (0 <=? ndx) eqn:E0.
  - apply Z.leb_le in E0.
    destruct (read_num_encode (nc_prev_positive m) ndx s) as (b & rest & E & H0 & Hff & Hr); [lia|].
    cbn [fst snd]. rewrite E. cbn [app]. rewrite bind_read_u8. unfold classify_ndx_lead.
    rewrite decide_False, decide_False by done. by rewrite (parser_bind_ok _ _ _ _ _ Hr).
  - apply Z.leb_gt in E0. destruct (ndx =? NDX_DONE) eqn:E1.
    { apply Z.eqb_eq in E1. subst ndx. done. }
    apply Z.eqb_neq in E1. assert (Ha : swrap 32 (- ndx) = - ndx) by (apply swrap_small; unfold in_i; lia).
    rewrite Ha. cbn [fst snd].
    destruct (read_num_encode (nc_prev_negative m) (- ndx) s) as (b & rest & E & H0 & Hff & Hr); [lia|].
    rewrite E. cbn [app]. rewrite bind_read_u8. unfold classify_ndx_lead. rewrite decide_True by done.
    rewrite bind_read_u8, (parser_bind_ok _ _ _ _ _ Hr). unfold commit_ndx.
    rewrite Z.opp_involutive, swrap_small by (unfold in_i; lia). done.
Qed.

Lemma ndx_roundtrip c ndx s : ndx_ok ndx →
  read_ndx c ((write_ndx c ndx).2 ++ s) = Ok (ndx, (write_ndx c ndx).1, s).
Proof.
  intros Hn. destruct c as [|m]; cbn [write_ndx read_ndx].
  - unfold legacy_read_ndx, legacy_write_ndx. cbn [fst snd].
    assert (E : (buf ← read_exact 4; mret (i32_from_le buf)) (le_bytes 4 ndx ++ s) = Ok (ndx, s)).
    { rewrite (parser_bind_ok _ _ _ _ _ (read_exact_app 4 (le_bytes 4 ndx) s (length_le_bytes _ _))).
      unfold mret, parser_ret. rewrite i32_from_le_bytes; [done|]. unfold ndx_ok in Hn. unfold in_i. lia. }
    by rewrite (parser_bind_ok _ _ _ _ _ E).
  - pose proof (modern_roundtrip m ndx s Hn) as E.
    destruct (modern_write_ndx m ndx) as [m' out]. cbn [fst snd] in *.
    by rewrite (parser_bind_ok _ _ _ _ _ E).
Qed.

(** ** Pieces *)

(** A reader that looks at no more than it takes: with more bytes it returns the same, and
    the bytes it has not taken; only where bytes are missing it may return something else. *)
Definition streaming {A} (p : parser A) : Prop := ∀ x y,
  match p x with
  | Ok (a, r) => p (x ++ y) = Ok (a, r ++ y)
  | Err UnexpectedEof => True
  | Err e => p (x ++ y) = Err e
  end.

Lemma streaming_ret {A} (a : A) : streaming (mret a).
Proof. done. Qed.

Lemma streaming_read_u8 : streaming read_u8.
Proof. by intros [|b x] y. Qed.

Lemma streaming_read_exact n : streaming (read_exact n).
Proof.
  intros x y. unfold read_exact. case_decide as Hl; [|done].
  rewrite decide_True by (rewrite length_app; lia). by rewrite take_app_le, drop_app_le by lia.
Qed.

Lemma streaming_bind {A B} (p : parser A) (f : A → parser B) :
  streaming p → (∀ a, streaming (f a)) → streaming (p ≫= f).
Proof.
  intros Hp Hf x y. specialize (Hp x y). unfold mbind, parser_bind.
  destruct (p x) as [[a r]|[]]; rewrite ?Hp; try done. apply Hf.
Qed.

#[local] Hint Resolve streaming_ret streaming_read_u8 streaming_read_exact streaming_bind : core.

Lemma streaming_read_num p b : streaming (read_num p b).
Proof.
  unfold read_num. case_decide; [|auto]. apply streaming_bind; [auto|]. intros b'. case_decide; auto.
Qed.

Lemma streaming_read_ndx c : streaming (read_ndx c).
Proof.
  destruct c as [|m]; cbn [read_ndx].
  - apply streaming_bind; [unfold legacy_read_ndx; auto|auto].
  - apply streaming_bind; [|intros [ndx m']; auto]. unfold modern_read_ndx.
    apply streaming_bind; [auto|]. intros b.
    destruct (classify_ndx_lead b); [auto|..]; repeat (apply streaming_bind; [auto using streaming_read_num|]; intros ?); auto using streaming_read_num.
Qed.

(** ** Properties *)

(** Indices survive the wire: whatever sequence of indices one end writes, in every
    protocol and from every state of the codec, the other end reads the same sequence from
    the same state, takes exactly the bytes that were written, and both are then in the same
    state again. *)
Theorem ndx_stream_roundtrip (c : NdxCodecEnum) (l : list Z) (s : list byte) :
  Forall ndx_ok l →
  read_n_ndx (length l) c ((write_all_ndx c l).2 ++ s) = Ok (l, (write_all_ndx c l).1, s).
Proof.
  intros Hl. revert c. induction Hl as [|ndx l Hn Hl IH]; intros c; [done|].
  cbn [write_all_ndx read_n_ndx length]. pose proof (λ s, ndx_roundtrip c ndx s Hn) as E.
  destruct (write_ndx c ndx) as [c1 out]. specialize (IH c1).
  destruct (write_all_ndx c1 l) as [c2 out']. cbn [fst snd] in *.
  rewrite <-app_assoc, (parser_bind_ok _ _ _ _ _ (E _)).
  by rewrite (parser_bind_ok _ _ _ _ _ IH).
Qed.

Lemma ndx_stream_roundtrip_witness :
  let l := [0; 1; 1; 300; 2; 100000; -2; -101; -1; 2147483647] in
  read_n_ndx 10 (create_ndx_codec 31) ((write_all_ndx (create_ndx_codec 31) l).2 ++ [x2a]) =
  Ok (l, (write_all_ndx (create_ndx_codec 31) l).1, [x2a]).
Proof.
  intros l. apply (ndx_stream_roundtrip (create_ndx_codec 31) l [x2a]).
  unfold l, ndx_ok. repeat constructor; lia.
Defined.

(** It does not matter in which pieces the bytes of an index arrive: decoding that is
    tried on what is there and started over when more has come returns what decoding all the
    bytes at once returns, ends in the same state and loses no byte. *)
Theorem pieces_do_not_matter (c : NdxCodecEnum) (src : list (list byte)) (carry : list byte) :
  Forall (λ piece, piece ≠ []) src →
  match read_ndx c (carry ++ concat src) with
  | Ok (ndx, c', s) =>
      ∃ src' rest, read_ndx_from_carry (S (length src)) c src carry = Some (Ok ndx, c', src', rest) ∧
                   rest ++ concat src' = s
  | Err e => ∃ src' rest, read_ndx_from_carry (S (length src)) c src carry = Some (Err e, c, src', rest)
  end.
Proof.
  intros Hsrc. revert carry. induction Hsrc as [|piece src Hp Hsrc IH]; intros carry;
    pose proof (streaming_read_ndx c carry) as Hst.
  - rewrite app_nil_r. cbn [read_ndx_from_carry length]. case_decide as Hc.
    { subst carry. assert (read_ndx c [] = Err UnexpectedEof) as -> by by destruct c. eauto. }
    destruct (read_ndx c carry) as [[[ndx c'] s]|[]]; eauto. do 2 eexists. split; [done|]. by rewrite app_nil_r.
  - cbn [concat length]. specialize (Hst (piece ++ concat src)). specialize (IH (carry ++ piece)).
    rewrite <-app_assoc in IH. cbn [read_ndx_from_carry]. case_decide as Hc; [by rewrite decide_False by done|].
    destruct (read_ndx c carry) as [[[ndx c'] s]|[]]; [|by rewrite decide_False by done|rewrite Hst; eauto..].
    rewrite Hst. do 2 eexists. split; [done|]. done.
Qed.

Lemma pieces_do_not_matter_witness :
  ∃ src' rest,
    read_ndx_from_carry 5 (Modern modern_new) [[xfe]; [x81; x02]; [x03]; [x04; x2a]] [] =
      Some (Ok (decode_ndx_extended_full x81 x02 x03 x04),
            Modern (mkModern (decode_ndx_extended_full x81 x02 x03 x04) 1), src', rest) ∧
    rest ++ concat src' = [x2a].
Proof.
  apply (pieces_do_not_matter (Modern modern_new) [[xfe]; [x81; x02]; [x03]; [x04; x2a]] []).
  repeat constructor; done.
Defined.

(** The last word is read by the other end, and it is what the codec sends for it. *)
Lemma goodbye_roundtrip protocol s :
  read_goodbye protocol (write_goodbye protocol ++ s) = Ok ((), s) ∧
  write_goodbye protocol = write_ndx_done (create_ndx_codec protocol).
Proof. unfold read_goodbye, write_goodbye, create_ndx_codec. by destruct (protocol <? 30). Qed.
