(* ===== verification/Rolling.v ===== *)
(** * The rolling (weak) block checksum

    Model of [crates/checksums/src/rolling]: [RollingChecksum] and
    [RollingDigest] with every operation, the scalar accumulation loop, and the
    SSE2, AVX2 and NEON loops with their intrinsics as operations on lanes.
    The theorems: each vector loop computes exactly what the scalar loop does,
    rolling a window equals recomputing it, and the digest's wire form round
    trips. *)

From S2P Require Import Prelude.
Local Open Scope Z_scope.

(** ** Data *)

Record RollingChecksum := mkRolling {
  rc_s1 : Z;   (* u32 *)
  rc_s2 : Z;   (* u32 *)
  rc_len : Z;  (* usize *)
}.

Record RollingDigest := mkDigest {
  rd_s1 : Z;   (* u16 *)
  rd_s2 : Z;   (* u16 *)
  rd_len : Z;  (* usize *)
}.

Inductive RollingError :=
| EmptyWindow
| WindowTooLarge (len : Z)
| MismatchedSliceLength (outgoing incoming : Z).

#[export] Instance RollingDigest_eq_dec : EqDecision RollingDigest.
Proof. solve_decision. Defined.

(** Lengths as [usize]. *)
Definition ulen (l : list byte) : Z := Z.of_nat (length l).

(** ** The scalar loop *)

(** [((byte as i8) as i32) as u32]. *)
Definition sign_extend_byte (b : byte) : Z := wrap 32 (sz b).

(** One byte of the loop: [s1 += b; s2 += s1], both wrapping at 32 bits. *)
Definition accumulate_byte (st : Z * Z) (b : byte) : Z * Z :=
  let s1 := wrap 32 (st.1 + sign_extend_byte b) in
  (s1, wrap 32 (st.2 + s1)).

(** [chunks_exact(4)] unrolled, then the remainder. *)
Fixpoint accumulate_blocks4 (st : Z * Z) (chunk : list byte) : Z * Z :=
  match chunk with
  | b0 :: b1 :: b2 :: b3 :: rest =>
      let st := accumulate_byte st b0 in
      let st := accumulate_byte st b1 in
      let st := accumulate_byte st b2 in
      let st := accumulate_byte st b3 in
      accumulate_blocks4 st rest
  | remainder => foldl accumulate_byte st remainder
  end.

Definition accumulate_chunk_scalar_raw (s1 s2 len : Z) (chunk : list byte) : Z * Z * Z :=
  match chunk with
  | [] => (s1, s2, len)
  | _ => let '(s1', s2') := accumulate_blocks4 (s1, s2) chunk in
         (s1', s2', saturating_add usize_max len (ulen chunk))
  end.

(** ** Vector lanes

    A vector register is the list of its lanes.  32-bit lanes are kept as
    unsigned 32-bit integers, 16-bit lanes as signed integers. *)

Definition add_epi32 (a b : list Z) : list Z := zip_with (λ x y, wrap 32 (x + y)) a b.
Definition slli_epi32 (k : Z) (a : list Z) : list Z :=
  map (λ x, wrap 32 (Z.shiftl x k)) a.

(** Multiply 16-bit lanes and add adjacent pairs into 32-bit lanes. *)
Fixpoint madd_epi16 (a b : list Z) : list Z :=
  match a, b with
  | x0 :: x1 :: a', y0 :: y1 :: b' => wrap 32 (x0 * y0 + x1 * y1) :: madd_epi16 a' b'
  | _, _ => []
  end.

(** [_mm_shuffle_epi32]: lane [i] of the result is the lane named by bits
    [2i, 2i+1] of the immediate. *)
Definition shuffle_epi32 (imm : Z) (v : list Z) : list Z :=
  map (λ i, nth (Z.to_nat (Z.land (Z.shiftr imm (2 * i)) 3)) v 0) [0; 1; 2; 3].

(** [_mm_cvtsi32_si128]: the value in lane 0, zero elsewhere. *)
Definition cvtsi32_si128 (x : Z) : list Z := [wrap 32 x; 0; 0; 0].

(** [_mm_cmplt_epi8(block, 0)]: [0xFF] where the byte is negative. *)
Definition cmplt_epi8_zero (block : list byte) : list byte :=
  map (λ b, if sz b <? 0 then xff else x00) block.

(** [_mm_unpacklo_epi8] / [_mm_unpackhi_epi8] read back as 16-bit lanes: the
    byte of the first operand is the low half, that of the second the high. *)
Definition unpack_epi8 (lo hi : list byte) : list Z :=
  zip_with (λ l h, swrap 16 (uz l + 256 * uz h)) lo hi.
Definition unpacklo_epi8 (a b : list byte) : list Z := unpack_epi8 (take 8 a) (take 8 b).
Definition unpackhi_epi8 (a b : list byte) : list Z := unpack_epi8 (drop 8 a) (drop 8 b).

(** [_mm256_cvtepi8_epi16] and [vmovl_s8]: sign-extend bytes to 16-bit lanes. *)
Definition cvtepi8_epi16 (l : list byte) : list Z := map sz l.

(** ** The SSE2 loop *)

Definition SSE2_BLOCK_LEN : nat := 16.
Definition AVX2_BLOCK_LEN : nat := 32.

Definition fold_lane0_sse2 (v : list Z) : list Z :=
  let shuf := shuffle_epi32 14 v in
  let sum := add_epi32 v shuf in
  let shuf := shuffle_epi32 1 sum in
  add_epi32 sum shuf.

Definition extract_lane0 (v : list Z) : Z := nth 0 v 0.

Definition ones_epi16 (n : nat) : list Z := replicate n 1.

(** [_mm_set_epi16] takes the last lane first. *)
Definition high_weights_sse2 : list Z := rev [9; 10; 11; 12; 13; 14; 15; 16].
Definition low_weights_sse2 : list Z := rev [1; 2; 3; 4; 5; 6; 7; 8].

Definition sum_block_pairs_sse2 (high_signed low_signed ones : list Z) : list Z :=
  add_epi32 (madd_epi16 high_signed ones) (madd_epi16 low_signed ones).

Definition prefix_sum_pairs_sse2
    (high_signed low_signed high_weights low_weights : list Z) : list Z :=
  add_epi32 (madd_epi16 high_signed high_weights) (madd_epi16 low_signed low_weights).

(** One 16-byte iteration on the vector accumulators. *)
Definition sse2_iteration (ss1 ss2 : list Z) (block : list byte) : list Z * list Z :=
  let sign_mask := cmplt_epi8_zero block in
  let high_signed := unpacklo_epi8 block sign_mask in
  let low_signed := unpackhi_epi8 block sign_mask in
  let ss2 := add_epi32 ss2 (slli_epi32 4 ss1) in
  let sum_pairs := sum_block_pairs_sse2 high_signed low_signed (ones_epi16 8) in
  let prefix_pairs :=
    prefix_sum_pairs_sse2 high_signed low_signed high_weights_sse2 low_weights_sse2 in
  (add_epi32 ss1 (fold_lane0_sse2 sum_pairs),
   add_epi32 ss2 (fold_lane0_sse2 prefix_pairs)).

(** [while chunk.len() >= B]: [n] is a bound on the iterations, [len / B]. *)
Fixpoint simd_loop (iter : list Z → list Z → list byte → list Z * list Z) (B : nat)
    (n : nat) (ss1 ss2 : list Z) (len : Z) (chunk : list byte)
    : list Z * list Z * Z * list byte :=
  match n with
  | O => (ss1, ss2, len, chunk)
  | S n' =>
      if (length chunk <? B)%nat then (ss1, ss2, len, chunk)
      else
        let '(ss1', ss2') := iter ss1 ss2 (take B chunk) in
        simd_loop iter B n' ss1' ss2'
          (saturating_add usize_max len (Z.of_nat B)) (drop B chunk)
  end.

Definition simd_stripe (iter : list Z → list Z → list byte → list Z * list Z) (B : nat)
    (load : Z → list Z) (s1 s2 len : Z) (chunk : list byte) : Z * Z * Z * list byte :=
  if (B <=? length chunk)%nat then
    let '(ss1, ss2, len', rest) :=
      simd_loop iter B (length chunk / B) (load s1) (load s2) len chunk in
    (extract_lane0 ss1, extract_lane0 ss2, len', rest)
  else (s1, s2, len, chunk).

Definition accumulate_chunk_sse2 (s1 s2 len : Z) (chunk : list byte) : Z * Z * Z :=
  let '(s1, s2, len, chunk) :=
    simd_stripe sse2_iteration SSE2_BLOCK_LEN cvtsi32_si128 s1 s2 len chunk in
  match chunk with
  | [] => (s1, s2, len)
  | _ => accumulate_chunk_scalar_raw s1 s2 len chunk
  end.

(** ** The AVX2 loop *)

Definition first_half_weights_avx2 : list Z :=
  rev [17; 18; 19; 20; 21; 22; 23; 24; 25; 26; 27; 28; 29; 30; 31; 32].
Definition second_half_weights_avx2 : list Z :=
  rev [1; 2; 3; 4; 5; 6; 7; 8; 9; 10; 11; 12; 13; 14; 15; 16].

(** Add the two 128-bit halves of an eight-lane vector. *)
Definition collapse_avx2 (combined : list Z) : list Z :=
  add_epi32 (take 4 combined) (drop 4 combined).

Definition sum_block_pairs_avx2 (block : list byte) (ones : list Z) : list Z :=
  let lower_signed := cvtepi8_epi16 (take 16 block) in
  let upper_signed := cvtepi8_epi16 (drop 16 block) in
  collapse_avx2 (add_epi32 (madd_epi16 lower_signed ones) (madd_epi16 upper_signed ones)).

Definition prefix_sum_pairs_avx2
    (block : list byte) (first_half_weights second_half_weights : list Z) : list Z :=
  let lower_extended := cvtepi8_epi16 (take 16 block) in
  let upper_extended := cvtepi8_epi16 (drop 16 block) in
  collapse_avx2 (add_epi32 (madd_epi16 lower_extended first_half_weights)
                           (madd_epi16 upper_extended second_half_weights)).

Definition avx2_iteration (ss1 ss2 : list Z) (block : list byte) : list Z * list Z :=
  let ss2 := add_epi32 ss2 (slli_epi32 5 ss1) in
  let sum_pairs := sum_block_pairs_avx2 block (ones_epi16 16) in
  let prefix_pairs :=
    prefix_sum_pairs_avx2 block first_half_weights_avx2 second_half_weights_avx2 in
  (add_epi32 ss1 (fold_lane0_sse2 sum_pairs),
   add_epi32 ss2 (fold_lane0_sse2 prefix_pairs)).

Definition accumulate_chunk_avx2 (s1 s2 len : Z) (chunk : list byte) : Z * Z * Z :=
  let '(s1, s2, len, chunk) :=
    simd_stripe avx2_iteration AVX2_BLOCK_LEN cvtsi32_si128 s1 s2 len chunk in
  if (SSE2_BLOCK_LEN <=? length chunk)%nat then accumulate_chunk_sse2 s1 s2 len chunk
  else match chunk with
       | [] => (s1, s2, len)
       | _ => accumulate_chunk_scalar_raw s1 s2 len chunk
       end.

(** ** The NEON loop *)

Definition NEON_HIGH_WEIGHTS : list Z := [16; 15; 14; 13; 12; 11; 10; 9].
Definition NEON_LOW_WEIGHTS : list Z := [8; 7; 6; 5; 4; 3; 2; 1].

Definition vdupq_n_s32 (x : Z) : list Z := replicate 4 (wrap 32 x).
Definition vaddq_s16 (a b : list Z) : list Z := zip_with (λ x y, swrap 16 (x + y)) a b.
Definition vmulq_s16 (a b : list Z) : list Z := zip_with (λ x y, swrap 16 (x * y)) a b.

(** Pairwise widening add of 16-bit lanes into 32-bit lanes. *)
Fixpoint vpaddlq_s16 (a : list Z) : list Z :=
  match a with
  | x0 :: x1 :: a' => wrap 32 (x0 + x1) :: vpaddlq_s16 a'
  | _ => []
  end.

(** Pairwise add of 32-bit lanes of two vectors. *)
Fixpoint pair_sums (a : list Z) : list Z :=
  match a with
  | x0 :: x1 :: a' => wrap 32 (x0 + x1) :: pair_sums a'
  | _ => []
  end.
Definition vpaddq_s32 (a b : list Z) : list Z := pair_sums a ++ pair_sums b.

Definition fold_to_lane0_neon (v : list Z) : list Z :=
  let pairs := vpaddq_s32 v v in vpaddq_s32 pairs pairs.

Definition neon_iteration (ss1 ss2 : list Z) (block : list byte) : list Z * list Z :=
  let high := cvtepi8_epi16 (take 8 block) in
  let low := cvtepi8_epi16 (drop 8 block) in
  let ss2 := add_epi32 ss2 (slli_epi32 4 ss1) in
  let combined16 := vaddq_s16 high low in
  let sum32 := vpaddlq_s16 combined16 in
  let ss1' := add_epi32 ss1 (fold_to_lane0_neon sum32) in
  let weighted_high := vmulq_s16 high NEON_HIGH_WEIGHTS in
  let weighted_low := vmulq_s16 low NEON_LOW_WEIGHTS in
  let combined_w16 := vaddq_s16 weighted_high weighted_low in
  let weighted32 := vpaddlq_s16 combined_w16 in
  (ss1', add_epi32 ss2 (fold_to_lane0_neon weighted32)).

Definition accumulate_chunk_neon_impl (s1 s2 len : Z) (chunk : list byte) : Z * Z * Z :=
  let '(s1, s2, len, chunk) :=
    simd_stripe neon_iteration 16 vdupq_n_s32 s1 s2 len chunk in
  match chunk with
  | [] => (s1, s2, len)
  | _ => accumulate_chunk_scalar_raw s1 s2 len chunk
  end.

(** ** Dispatch *)

(** The CPU: an x86 with its permitted feature level, an aarch64 with NEON
    enabled or not, or another architecture. *)
Inductive arch :=
| X86 (avx2 sse2 : bool)
| AArch64 (neon : bool)
| OtherArch.

Definition x86_try_accumulate_chunk (avx2 sse2 : bool) (s1 s2 len : Z) (chunk : list byte)
    : option (Z * Z * Z) :=
  if (AVX2_BLOCK_LEN <=? length chunk)%nat && avx2
  then Some (accumulate_chunk_avx2 s1 s2 len chunk)
  else if (SSE2_BLOCK_LEN <=? length chunk)%nat && sse2
  then Some (accumulate_chunk_sse2 s1 s2 len chunk)
  else None.

Definition neon_accumulate_chunk (neon : bool) (s1 s2 len : Z) (chunk : list byte)
    : Z * Z * Z :=
  if neon then accumulate_chunk_neon_impl s1 s2 len chunk
  else accumulate_chunk_scalar_raw s1 s2 len chunk.

Definition accumulate_chunk_arch (cpu : arch) (s1 s2 len : Z) (chunk : list byte)
    : option (Z * Z * Z) :=
  match cpu with
  | X86 avx2 sse2 => x86_try_accumulate_chunk avx2 sse2 s1 s2 len chunk
  | AArch64 neon => Some (neon_accumulate_chunk neon s1 s2 len chunk)
  | OtherArch => None
  end.

Definition mask_result (r : Z * Z * Z) : Z * Z * Z :=
  let '(s1, s2, len) := r in (Z.land s1 65535, Z.land s2 65535, len).

Definition accumulate_chunk_dispatch (cpu : arch) (s1 s2 len : Z) (chunk : list byte)
    : Z * Z * Z :=
  match chunk with
  | [] => (s1, s2, len)
  | _ =>
      match accumulate_chunk_arch cpu s1 s2 len chunk with
      | Some accel => mask_result accel
      | None => mask_result (accumulate_chunk_scalar_raw s1 s2 len chunk)
      end
  end.

(** The CPU the program runs on is a parameter of everything below. *)
Class HasCpu := the_cpu : arch.

(** ** Digests *)

(** [RollingDigest::from_value]. *)
Definition digest_from_value (value len : Z) : RollingDigest :=
  mkDigest (wrap 16 value) (wrap 16 (Z.shiftr value 16)) len.

(** [RollingDigest::value]. *)
Definition digest_value (d : RollingDigest) : Z :=
  Z.lor (wrap 32 (Z.shiftl (rd_s2 d) 16)) (rd_s1 d).

Definition digest_to_le_bytes (d : RollingDigest) : list byte := le_bytes 4 (digest_value d).

Definition digest_from_le_bytes (bytes : list byte) (len : Z) : RollingDigest :=
  digest_from_value (le_val bytes) len.

(** [RollingDigest::from_le_slice]: the slice must hold exactly four bytes. *)
Definition digest_from_le_slice (bytes : list byte) (len : Z) : result Z RollingDigest :=
  if ulen bytes =? 4 then Ok (digest_from_le_bytes bytes len) else Err (ulen bytes).

(** [RollingDigest::read_le_from]. *)
Definition digest_read_le_from (len : Z) : parser RollingDigest :=
  bytes ← read_exact 4; mret (digest_from_le_bytes bytes len).

(** ** The checksum state *)

Definition rolling_new : RollingChecksum := mkRolling 0 0 0.

Definition rolling_from_digest (d : RollingDigest) : RollingChecksum :=
  mkRolling (rd_s1 d) (rd_s2 d) (rd_len d).

Definition rolling_reset (_ : RollingChecksum) : RollingChecksum := mkRolling 0 0 0.

Definition rolling_is_empty (c : RollingChecksum) : bool := rc_len c =? 0.

Definition rolling_value (c : RollingChecksum) : Z :=
  Z.lor (wrap 32 (Z.shiftl (rc_s2 c) 16)) (rc_s1 c).

Definition rolling_digest (c : RollingChecksum) : RollingDigest :=
  mkDigest (wrap 16 (rc_s1 c)) (wrap 16 (rc_s2 c)) (rc_len c).

Definition rolling_update_byte (c : RollingChecksum) (byte : byte) : RollingChecksum :=
  let b := sign_extend_byte byte in
  let s1 := Z.land (wrap 32 (rc_s1 c + b)) 65535 in
  let s2 := Z.land (wrap 32 (rc_s2 c + s1)) 65535 in
  mkRolling s1 s2 (saturating_add usize_max (rc_len c) 1).

Definition rolling_window_len_u32 (c : RollingChecksum) : result RollingError Z :=
  if rc_len c =? 0 then Err EmptyWindow
  else if rc_len c <=? u32_max then Ok (rc_len c)
  else Err (WindowTooLarge (rc_len c)).

Definition rolling_roll (c : RollingChecksum) (outgoing incoming : byte)
    : result RollingError RollingChecksum :=
  window_len ← rolling_window_len_u32 c;
  let out := sign_extend_byte outgoing in
  let inn := sign_extend_byte incoming in
  let new_s1 := Z.land (wrap 32 (wrap 32 (rc_s1 c - out) + inn)) 65535 in
  let new_s2 :=
    Z.land (wrap 32 (wrap 32 (rc_s2 c - wrap 32 (window_len * out)) + new_s1)) 65535 in
  Ok (mkRolling new_s1 new_s2 (rc_len c)).

(** The [?] in the loop returns with the state reached so far. *)
Fixpoint rolling_roll_many_scalar (c : RollingChecksum) (pairs : list (byte * byte))
    : RollingChecksum * result RollingError unit :=
  match pairs with
  | [] => (c, Ok tt)
  | (out, inn) :: rest =>
      match rolling_roll c out inn with
      | Ok c' => rolling_roll_many_scalar c' rest
      | Err e => (c, Err e)
      end
  end.

(** The accumulation loop of [roll_many] in [i128]: the sum of the outgoing
    bytes, the sum of the differences, and their sum weighted [count, ..., 1]. *)
Fixpoint roll_many_sums (weight : Z) (pairs : list (byte * byte)) : Z * Z * Z :=
  match pairs with
  | [] => (0, 0, 0)
  | (out_b, in_b) :: rest =>
      let '(sum_outgoing, sum_delta, weighted_delta) := roll_many_sums (weight - 1) rest in
      let delta := sz in_b - sz out_b in
      (sz out_b + sum_outgoing, delta + sum_delta, delta * weight + weighted_delta)
  end.

Definition rolling_roll_many (c : RollingChecksum) (outgoing incoming : list byte)
    : RollingChecksum * result RollingError unit :=
  if negb (ulen outgoing =? ulen incoming)
  then (c, Err (MismatchedSliceLength (ulen outgoing) (ulen incoming)))
  else
    match rolling_window_len_u32 c with
    | Err e => (c, Err e)
    | Ok window_len =>
        match outgoing with
        | [] => (c, Ok tt)
        | _ =>
            let count := ulen outgoing in
            if count <=? u32_max then
              let '(sum_outgoing, sum_delta, weighted_delta) :=
                roll_many_sums count (zip outgoing incoming) in
              let original_s1 := rc_s1 c in
              let new_s1 := Z.land (wrap 32 (original_s1 + wrap 32 sum_delta)) 65535 in
              let new_s2 :=
                Z.land
                  (wrap 32
                     (wrap 32
                        (wrap 32 (rc_s2 c - wrap 32 (window_len * wrap 32 sum_outgoing))
                         + wrap 32 (original_s1 * count))
                      + wrap 32 weighted_delta)) 65535 in
              (mkRolling new_s1 new_s2 (rc_len c), Ok tt)
            else rolling_roll_many_scalar c (zip outgoing incoming)
        end
    end.

Section Update.
Context `{HasCpu}.

Definition rolling_update (c : RollingChecksum) (chunk : list byte) : RollingChecksum :=
  let '(s1, s2, len) := accumulate_chunk_dispatch the_cpu (rc_s1 c) (rc_s2 c) (rc_len c) chunk in
  mkRolling s1 s2 len.

Definition rolling_update_from_block (c : RollingChecksum) (block : list byte) : RollingChecksum :=
  rolling_update (rolling_reset c) block.

(** [RollingDigest::from_bytes]. *)
Definition digest_from_bytes (bytes : list byte) : RollingDigest :=
  rolling_digest (rolling_update rolling_new bytes).

Definition VECTORED_STACK_CAPACITY : Z := 128.

(** [flush_vectored_scratch]: the checksum state as a record, the used part of
    the scratch array as a list. *)
Definition flush_vectored_scratch (c : RollingChecksum) (scratch : list byte)
    : RollingChecksum * list byte :=
  match scratch with
  | [] => (c, scratch)
  | _ => (rolling_update c scratch, [])
  end.

(** One buffer of the [update_vectored] loop. *)
Definition vectored_step (st : RollingChecksum * list byte) (chunk : list byte)
    : RollingChecksum * list byte :=
  match chunk with
  | [] => st
  | _ =>
      if VECTORED_STACK_CAPACITY <=? ulen chunk then
        let '(c, scratch) := flush_vectored_scratch st.1 st.2 in
        (rolling_update c chunk, scratch)
      else
        let '(c, scratch) :=
          if VECTORED_STACK_CAPACITY <? ulen st.2 + ulen chunk
          then flush_vectored_scratch st.1 st.2 else st in
        let scratch := scratch ++ chunk in
        if ulen scratch =? VECTORED_STACK_CAPACITY
        then flush_vectored_scratch c scratch else (c, scratch)
  end.

Definition rolling_update_vectored (c : RollingChecksum) (buffers : list (list byte))
    : RollingChecksum :=
  let '(c, scratch) := foldl vectored_step (c, []) buffers in
  (flush_vectored_scratch c scratch).1.

(** What successive [read] calls return: data, an interruption, or an error;
    after the last event the reader is at end of file. *)
Inductive read_event :=
| RData (bs : list byte)
| RInterrupted
| RFail (e : io_error).

Fixpoint update_reader_loop (c : RollingChecksum) (total : Z) (reader : list read_event)
    : RollingChecksum * result io_error Z :=
  match reader with
  | [] => (c, Ok total)
  | RData [] :: _ => (c, Ok total)
  | RData bs :: rest =>
      update_reader_loop (rolling_update c bs) (saturating_add u64_max total (ulen bs)) rest
  | RInterrupted :: rest => update_reader_loop c total rest
  | RFail e :: _ => (c, Err e)
  end.

Definition rolling_update_reader_with_buffer
    (c : RollingChecksum) (buffer_len : Z) (reader : list read_event)
    : RollingChecksum * result io_error Z :=
  if buffer_len =? 0 then (c, Err InvalidInput) else update_reader_loop c 0 reader.

End Update.

(** ** What the checksum means *)

(** The sum of the signed bytes, and the sum weighted by the distance to the
    end of the window: the two halves of the weak checksum before truncation. *)
Fixpoint bsum (l : list byte) : Z :=
  match l with [] => 0 | b :: l' => sz b + bsum l' end.

Fixpoint wsum (l : list byte) : Z :=
  match l with [] => 0 | b :: l' => ulen (b :: l') * sz b + wsum l' end.

(** The state that [update]ing a fresh checksum with [l] must reach. *)
Definition rolling_of (l : list byte) : RollingChecksum :=
  mkRolling (wrap 16 (bsum l)) (wrap 16 (wsum l)) (Z.min usize_max (ulen l)).

(** States with 16-bit sums and a [usize] length. *)
Definition rolling_wf (c : RollingChecksum) : Prop :=
  in_u 16 (rc_s1 c) ∧ in_u 16 (rc_s2 c) ∧ in_u 64 (rc_len c).

Lemma sz_range b : -128 ≤ sz b < 128.
Proof. apply (swrap_range 8). lia. Qed.

Lemma ulen_nonneg l : 0 ≤ ulen l.
Proof. unfold ulen. lia. Qed.

Lemma ulen_app l k : ulen (l ++ k) = ulen l + ulen k.
Proof. unfold ulen. rewrite length_app. lia. Qed.

Lemma ulen_cons b l : ulen (b :: l) = 1 + ulen l.
Proof. unfold ulen. simpl. lia. Qed.

Lemma bsum_app l k : bsum (l ++ k) = bsum l + bsum k.
Proof. induction l as [|b l IH]; simpl; lia. Qed.

Lemma wsum_app l k : wsum (l ++ k) = wsum l + ulen k * bsum l + wsum k.
Proof.
  induction l as [|b l IH]; [simpl; lia|].
  cbn [app wsum bsum]. rewrite IH, !ulen_cons, ulen_app. lia.
Qed.

Lemma sign_extend_cong b : cong (2 ^ 32) (sign_extend_byte b) (sz b).
Proof. by apply (cong_wrap 32 32). Qed.

(** Removing 32-bit truncations below a congruence modulo [2^32]. *)
Ltac unwrap32 :=
  repeat first [rewrite (cong_wrap 32 32) by lia | rewrite sign_extend_cong].

Lemma foldl_accumulate s1 s2 l :
  in_u 32 s1 → in_u 32 s2 →
  foldl accumulate_byte (s1, s2) l =
    (wrap 32 (s1 + bsum l), wrap 32 (s2 + ulen l * s1 + wsum l)).
Proof.
  revert s1 s2. induction l as [|b l IH]; intros s1 s2 H1 H2.
  - simpl. unfold ulen. simpl. rewrite !wrap_small; [do 2 f_equal; lia|..];
      unfold in_u in *; lia.
  - cbn [foldl]. unfold accumulate_byte at 2. cbn [fst snd].
    rewrite IH by (apply wrap_range; lia). cbn [bsum wsum]. rewrite ulen_cons.
    f_equal; apply cong_wrap_eq; unwrap32; apply cong_of_eq; lia.
Qed.

Lemma accumulate_blocks4_foldl st l : accumulate_blocks4 st l = foldl accumulate_byte st l.
Proof.
  revert st. induction l as [l IH] using (induction_ltof1 _ (@length byte)).
  unfold ltof in IH. intros st.
  destruct l as [|b0 [|b1 [|b2 [|b3 rest]]]]; try done.
  cbn [accumulate_blocks4 foldl]. apply IH. simpl. lia.
Qed.

Lemma saturating_add_assoc m a b c :
  0 ≤ a → 0 ≤ b → 0 ≤ c → saturating_add m (saturating_add m a b) c = saturating_add m a (b + c).
Proof. unfold saturating_add. lia. Qed.

Lemma accumulate_scalar_spec s1 s2 len l :
  in_u 32 s1 → in_u 32 s2 → in_u 64 len →
  accumulate_chunk_scalar_raw s1 s2 len l =
    (wrap 32 (s1 + bsum l), wrap 32 (s2 + ulen l * s1 + wsum l),
     saturating_add usize_max len (ulen l)).
Proof.
  intros H1 H2 H3. destruct l as [|b l].
  - simpl. unfold ulen, saturating_add, usize_max, in_u in *. simpl.
    rewrite !wrap_small by (unfold in_u; lia). repeat f_equal; lia.
  - unfold accumulate_chunk_scalar_raw.
    rewrite accumulate_blocks4_foldl, foldl_accumulate by done. done.
Qed.

(** ** Lanes *)

Definition lsum (v : list Z) : Z := foldr Z.add 0 v.
Definition dot (a b : list Z) : Z := lsum (zip_with Z.mul a b).

Lemma lsum_add_epi32 a b :
  length a = length b → cong (2 ^ 32) (lsum (add_epi32 a b)) (lsum a + lsum b).
Proof.
  revert b. induction a as [|x a IH]; intros [|y b] Hl; simplify_eq/=; [done|].
  unfold add_epi32 in *. cbn [zip_with lsum foldr]. unfold lsum in *.
  rewrite IH by done. unwrap32. apply cong_of_eq. lia.
Qed.

Lemma lsum_madd a b n :
  length a = (2 * n)%nat → length b = (2 * n)%nat →
  cong (2 ^ 32) (lsum (madd_epi16 a b)) (dot a b).
Proof.
  revert a b. induction n as [|n IH]; intros a b Ha Hb.
  - by destruct a, b.
  - destruct a as [|x0 [|x1 a]], b as [|y0 [|y1 b]]; simpl in Ha, Hb; try lia.
    unfold dot, lsum in *. cbn [madd_epi16 zip_with foldr].
    rewrite IH by lia. unwrap32. apply cong_of_eq. lia.
Qed.

Lemma length_madd a b n :
  length a = (2 * n)%nat → length b = (2 * n)%nat → length (madd_epi16 a b) = n.
Proof.
  revert a b. induction n as [|n IH]; intros a b Ha Hb.
  - by destruct a, b.
  - destruct a as [|x0 [|x1 a]], b as [|y0 [|y1 b]]; simpl in *; try lia.
    rewrite IH; lia.
Qed.

Lemma fold_lane0_sse2_spec v :
  length v = 4%nat → cong (2 ^ 32) (extract_lane0 (fold_lane0_sse2 v)) (lsum v).
Proof.
  intros Hv. destruct v as [|a [|b [|c [|d [|]]]]]; try done. clear Hv.
  unfold fold_lane0_sse2, extract_lane0, shuffle_epi32, add_epi32, lsum.
  cbv -[wrap Z.pow Z.add cong]. unwrap32. apply cong_of_eq. lia.
Qed.

Lemma fold_to_lane0_neon_spec v :
  length v = 4%nat → cong (2 ^ 32) (extract_lane0 (fold_to_lane0_neon v)) (lsum v).
Proof.
  intros Hv. destruct v as [|a [|b [|c [|d [|]]]]]; try done. clear Hv.
  unfold fold_to_lane0_neon, extract_lane0, vpaddq_s32, lsum.
  cbv -[wrap Z.pow Z.add cong]. unwrap32. apply cong_of_eq. lia.
Qed.

Lemma unpack_sign_mask block :
  unpack_epi8 block (cmplt_epi8_zero block) = cvtepi8_epi16 block.
Proof.
  unfold unpack_epi8, cmplt_epi8_zero, cvtepi8_epi16.
  induction block as [|b l IH]; [done|]. simpl. f_equal; [|done].
  apply Z.eqb_eq. revert b. apply byte_forall. vm_compute. reflexivity.
Qed.

(** The dot products of a full vector against the ones and the descending
    weights are the byte sum and the weighted sum. *)
Lemma dot_ones l : dot (cvtepi8_epi16 l) (ones_epi16 (length l)) = bsum l.
Proof.
  unfold dot, cvtepi8_epi16, ones_epi16, lsum.
  induction l as [|b l IH]; [done|]. simpl in *. lia.
Qed.

Fixpoint descending (n : nat) : list Z :=
  match n with O => [] | S n' => Z.of_nat (S n') :: descending n' end.

Lemma dot_descending l : dot (cvtepi8_epi16 l) (descending (length l)) = wsum l.
Proof.
  unfold dot, cvtepi8_epi16, lsum.
  induction l as [|b l IH]; [done|].
  cbn [length descending map zip_with foldr wsum] in *. unfold ulen. cbn [length].
  rewrite IH. lia.
Qed.

Lemma dot_app a b c d : length a = length c → dot (a ++ b) (c ++ d) = dot a c + dot b d.
Proof.
  intros Hl. unfold dot. rewrite zip_with_app by done. unfold lsum.
  rewrite foldr_app. generalize (foldr Z.add 0 (zip_with Z.mul b d)). intros z.
  induction (zip_with Z.mul a c) as [|x l IH]; simpl; [done|]. lia.
Qed.

(** The result every accumulation routine must produce. *)
Definition acc_spec (s1 s2 len : Z) (l : list byte) : Z * Z * Z :=
  (wrap 32 (s1 + bsum l), wrap 32 (s2 + ulen l * s1 + wsum l),
   saturating_add usize_max len (ulen l)).

Lemma acc_spec_nil s1 s2 len :
  in_u 32 s1 → in_u 32 s2 → in_u 64 len → acc_spec s1 s2 len [] = (s1, s2, len).
Proof.
  intros H1 H2 H3. unfold acc_spec, saturating_add, usize_max, ulen, in_u in *. simpl.
  rewrite !wrap_small by (unfold in_u; lia). repeat f_equal; lia.
Qed.

Lemma acc_spec_app s1 s2 len l k :
  0 ≤ len →
  acc_spec (wrap 32 (s1 + bsum l)) (wrap 32 (s2 + ulen l * s1 + wsum l))
    (saturating_add usize_max len (ulen l)) k
  = acc_spec s1 s2 len (l ++ k).
Proof.
  intros Hlen. unfold acc_spec. rewrite bsum_app, wsum_app, ulen_app.
  pose proof (ulen_nonneg l). pose proof (ulen_nonneg k).
  rewrite saturating_add_assoc by lia.
  f_equal; f_equal; apply cong_wrap_eq; unwrap32; apply cong_of_eq; lia.
Qed.

(** One vector iteration over a block of [B] bytes does what [B] scalar steps
    do, on lane 0. *)
Definition iteration_ok (iter : list Z → list Z → list byte → list Z * list Z) (B : nat) : Prop :=
  ∀ ss1 ss2 block, length ss1 = 4%nat → length ss2 = 4%nat → length block = B →
    let r := iter ss1 ss2 block in
    length r.1 = 4%nat ∧ length r.2 = 4%nat ∧
    extract_lane0 r.1 = wrap 32 (extract_lane0 ss1 + bsum block) ∧
    extract_lane0 r.2 = wrap 32 (extract_lane0 ss2 + ulen block * extract_lane0 ss1 + wsum block).

Lemma extract_add_epi32 a b : length a = 4%nat → length b = 4%nat →
  extract_lane0 (add_epi32 a b) = wrap 32 (extract_lane0 a + extract_lane0 b).
Proof. destruct a, b; done. Qed.

Lemma extract_slli k a : length a = 4%nat → 0 ≤ k →
  extract_lane0 (slli_epi32 k a) = wrap 32 (extract_lane0 a * 2 ^ k).
Proof. intros. destruct a; [done|]. simpl. by rewrite Z.shiftl_mul_pow2. Qed.

Lemma length_add_epi32 a b : length a = length b → length (add_epi32 a b) = length a.
Proof. intros H. unfold add_epi32. rewrite length_zip_with. lia. Qed.

Lemma length_slli k a : length (slli_epi32 k a) = length a.
Proof. apply length_map. Qed.

Lemma length_fold_lane0 v : length v = 4%nat → length (fold_lane0_sse2 v) = 4%nat.
Proof. intros Hv. by destruct v as [|a [|b [|c [|d [|]]]]]. Qed.

Lemma length_fold_neon v : length v = 4%nat → length (fold_to_lane0_neon v) = 4%nat.
Proof. intros Hv. by destruct v as [|a [|b [|c [|d [|]]]]]. Qed.

(** The shape all three iterations share: shift [ss1] into [ss2], then add the
    folded byte sums and weighted sums. *)
Lemma iteration_shape (k : Z) (sums prefixes : list Z) ss1 ss2 block :
  0 ≤ k → length ss1 = 4%nat → length ss2 = 4%nat →
  length sums = 4%nat → length prefixes = 4%nat → ulen block = 2 ^ k →
  cong (2 ^ 32) (extract_lane0 sums) (bsum block) →
  cong (2 ^ 32) (extract_lane0 prefixes) (wsum block) →
  let r := (add_epi32 ss1 sums, add_epi32 (add_epi32 ss2 (slli_epi32 k ss1)) prefixes) in
  length r.1 = 4%nat ∧ length r.2 = 4%nat ∧
  extract_lane0 r.1 = wrap 32 (extract_lane0 ss1 + bsum block) ∧
  extract_lane0 r.2 = wrap 32 (extract_lane0 ss2 + ulen block * extract_lane0 ss1 + wsum block).
Proof.
  intros Hk H1 H2 Hs Hp Hb Hcs Hcp r. subst r. cbn [fst snd].
  rewrite !length_add_epi32 by (rewrite ?length_add_epi32, ?length_slli; rewrite ?length_slli; lia).
  do 2 (split; [done|]).
  rewrite !extract_add_epi32, extract_slli
    by (rewrite ?length_add_epi32, ?length_slli; rewrite ?length_slli; lia).
  split; apply cong_wrap_eq; unwrap32; rewrite ?Hcs, ?Hcp; [done|].
  apply cong_of_eq. rewrite Hb. lia.
Qed.

(** Folding two halves of multiply-adds gives the dot product of the whole. *)
Lemma fold_two_halves a b c d :
  length a = 8%nat → length b = 8%nat → length c = 8%nat → length d = 8%nat →
  cong (2 ^ 32) (extract_lane0 (fold_lane0_sse2 (add_epi32 (madd_epi16 a c) (madd_epi16 b d))))
    (dot (a ++ b) (c ++ d)).
Proof.
  intros Ha Hb Hc Hd.
  assert (length (madd_epi16 a c) = 4%nat) by (apply length_madd; lia).
  assert (length (madd_epi16 b d) = 4%nat) by (apply length_madd; lia).
  rewrite fold_lane0_sse2_spec by (rewrite length_add_epi32; lia).
  rewrite lsum_add_epi32 by lia. rewrite !(lsum_madd _ _ 4) by lia.
  rewrite dot_app by lia. done.
Qed.

Lemma cvtepi8_app a b : cvtepi8_epi16 (a ++ b) = cvtepi8_epi16 a ++ cvtepi8_epi16 b.
Proof. apply map_app. Qed.

Lemma sse2_iteration_ok : iteration_ok sse2_iteration SSE2_BLOCK_LEN.
Proof.
  intros ss1 ss2 block H1 H2 Hb. unfold SSE2_BLOCK_LEN in Hb.
  assert (Ht : length (take 8 block) = 8%nat) by (rewrite length_take; lia).
  assert (Hd : length (drop 8 block) = 8%nat) by (rewrite length_drop; lia).
  unfold sse2_iteration, unpacklo_epi8, unpackhi_epi8.
  assert (Hm : ∀ l, take 8 (cmplt_epi8_zero l) = cmplt_epi8_zero (take 8 l)
                    ∧ drop 8 (cmplt_epi8_zero l) = cmplt_epi8_zero (drop 8 l)).
  { intros l. unfold cmplt_epi8_zero. by rewrite firstn_map, skipn_map. }
  rewrite (proj1 (Hm block)), (proj2 (Hm block)), !unpack_sign_mask.
  apply iteration_shape; try done.
  - apply length_fold_lane0. unfold sum_block_pairs_sse2. rewrite length_add_epi32;
      rewrite !(length_madd _ _ 4); unfold cvtepi8_epi16; rewrite ?length_map; done.
  - apply length_fold_lane0. unfold prefix_sum_pairs_sse2. rewrite length_add_epi32;
      rewrite !(length_madd _ _ 4); unfold cvtepi8_epi16; rewrite ?length_map; done.
  - unfold ulen. by rewrite Hb.
  - unfold sum_block_pairs_sse2. rewrite fold_two_halves
      by (unfold cvtepi8_epi16; rewrite ?length_map; done).
    rewrite <- cvtepi8_app, take_drop.
    change (ones_epi16 8 ++ ones_epi16 8) with (ones_epi16 16). rewrite <- Hb.
    by rewrite dot_ones.
  - unfold prefix_sum_pairs_sse2. rewrite fold_two_halves
      by (unfold cvtepi8_epi16; rewrite ?length_map; done).
    rewrite <- cvtepi8_app, take_drop.
    change (high_weights_sse2 ++ low_weights_sse2) with (descending 16). rewrite <- Hb.
    by rewrite dot_descending.
Qed.

(** An eight-lane vector collapsed to four lanes keeps its sum. *)
Lemma lsum_collapse v : length v = 8%nat → cong (2 ^ 32) (lsum (collapse_avx2 v)) (lsum v).
Proof.
  intros Hv. unfold collapse_avx2.
  rewrite lsum_add_epi32 by (rewrite length_take, length_drop; lia).
  apply cong_of_eq. rewrite <- (take_drop 4 v) at 3. unfold lsum.
  rewrite foldr_app. generalize (foldr Z.add 0 (drop 4 v)). intros z.
  induction (take 4 v) as [|x l IH]; simpl; lia.
Qed.

Lemma length_collapse v : length v = 8%nat → length (collapse_avx2 v) = 4%nat.
Proof.
  intros Hv. unfold collapse_avx2.
  rewrite length_add_epi32; rewrite length_take, ?length_drop; lia.
Qed.

Lemma fold_collapse_halves a b c d :
  length a = 16%nat → length b = 16%nat → length c = 16%nat → length d = 16%nat →
  let v := collapse_avx2 (add_epi32 (madd_epi16 a c) (madd_epi16 b d)) in
  length v = 4%nat ∧ cong (2 ^ 32) (extract_lane0 (fold_lane0_sse2 v)) (dot (a ++ b) (c ++ d)).
Proof.
  intros Ha Hb Hc Hd v. subst v.
  assert (length (madd_epi16 a c) = 8%nat) by (apply length_madd; lia).
  assert (length (madd_epi16 b d) = 8%nat) by (apply length_madd; lia).
  assert (length (add_epi32 (madd_epi16 a c) (madd_epi16 b d)) = 8%nat)
    by (rewrite length_add_epi32; lia).
  split; [by apply length_collapse|].
  rewrite fold_lane0_sse2_spec by (by apply length_collapse).
  rewrite lsum_collapse, lsum_add_epi32 by lia. rewrite !(lsum_madd _ _ 8) by lia.
  rewrite dot_app by lia. done.
Qed.

Lemma avx2_iteration_ok : iteration_ok avx2_iteration AVX2_BLOCK_LEN.
Proof.
  intros ss1 ss2 block H1 H2 Hb. unfold AVX2_BLOCK_LEN in Hb.
  assert (Ht : length (cvtepi8_epi16 (take 16 block)) = 16%nat)
    by (unfold cvtepi8_epi16; rewrite length_map, length_take; lia).
  assert (Hd : length (cvtepi8_epi16 (drop 16 block)) = 16%nat)
    by (unfold cvtepi8_epi16; rewrite length_map, length_drop; lia).
  destruct (fold_collapse_halves _ _ (ones_epi16 16) (ones_epi16 16) Ht Hd)
    as [Hl1 Hc1]; [done..|].
  destruct (fold_collapse_halves _ _ first_half_weights_avx2 second_half_weights_avx2 Ht Hd)
    as [Hl2 Hc2]; [done..|].
  rewrite <- cvtepi8_app, take_drop in Hc1, Hc2.
  apply iteration_shape; try done.
  - by apply length_fold_lane0.
  - by apply length_fold_lane0.
  - unfold ulen. by rewrite Hb.
  - unfold sum_block_pairs_avx2. rewrite Hc1.
    change (ones_epi16 16 ++ ones_epi16 16) with (ones_epi16 32). rewrite <- Hb.
    by rewrite dot_ones.
  - unfold prefix_sum_pairs_avx2. rewrite Hc2.
    change (first_half_weights_avx2 ++ second_half_weights_avx2) with (descending 32).
    rewrite <- Hb. by rewrite dot_descending.
Qed.

(** The 16-bit lanes of the NEON path never overflow. *)
Lemma neon_lane_sum a b : swrap 16 (sz a + sz b) = sz a + sz b.
Proof. pose proof (sz_range a). pose proof (sz_range b). apply swrap_small; [lia|]. unfold in_i; lia. Qed.

Lemma neon_lane_weighted a b p q : 0 ≤ p ≤ 16 → 0 ≤ q ≤ 16 →
  swrap 16 (swrap 16 (sz a * p) + swrap 16 (sz b * q)) = sz a * p + sz b * q.
Proof.
  intros. pose proof (sz_range a). pose proof (sz_range b).
  assert (-2048 ≤ sz a * p ≤ 2048) by nia. assert (-2048 ≤ sz b * q ≤ 2048) by nia.
  rewrite !swrap_small; unfold in_i; rewrite ?swrap_small; unfold in_i; lia.
Qed.

Lemma neon_iteration_ok : iteration_ok neon_iteration 16.
Proof.
  intros ss1 ss2 block H1 H2 Hb.
  do 16 (destruct block as [|? block]; [done|]). destruct block; [|done]. clear Hb.
  apply iteration_shape; try done; unfold neon_iteration; cbn [take drop];
    (etransitivity; [apply fold_to_lane0_neon_spec; done|]);
    cbn -[swrap wrap Z.pow sz Z.mul]; unwrap32;
    rewrite ?neon_lane_weighted, ?neon_lane_sum by lia;
    apply cong_of_eq; unfold ulen; cbn -[sz Z.mul]; lia.
Qed.

Section Loops.
Context (iter : list Z → list Z → list byte → list Z * list Z) (B : nat).
Hypothesis HB : (0 < B)%nat.
Hypothesis Hiter : iteration_ok iter B.

Lemma simd_loop_spec n ss1 ss2 len chunk :
  length ss1 = 4%nat → length ss2 = 4%nat →
  in_u 32 (extract_lane0 ss1) → in_u 32 (extract_lane0 ss2) → in_u 64 len →
  (length chunk / B = n)%nat →
  ∃ ss1' ss2' len' p rest, simd_loop iter B n ss1 ss2 len chunk = (ss1', ss2', len', rest) ∧
    chunk = p ++ rest ∧ (length rest < B)%nat ∧
    (extract_lane0 ss1', extract_lane0 ss2', len')
      = acc_spec (extract_lane0 ss1) (extract_lane0 ss2) len p.
Proof.
  revert ss1 ss2 len chunk. induction n as [|n IH]; intros ss1 ss2 len chunk H1 H2 R1 R2 R3 Hn.
  - exists ss1, ss2, len, [], chunk. rewrite acc_spec_nil by done.
    repeat split. apply Nat.div_small_iff in Hn; lia.
  - assert (Hle : (B <= length chunk)%nat)
      by (destruct (Nat.lt_ge_cases (length chunk) B) as [E|E];
          [rewrite Nat.div_small in Hn by lia; lia|lia]).
    cbn [simd_loop]. rewrite (proj2 (Nat.ltb_ge _ _)) by lia.
    assert (Hb : length (take B chunk) = B) by (rewrite length_take; lia).
    destruct (Hiter ss1 ss2 (take B chunk) H1 H2 Hb) as (L1 & L2 & E1 & E2).
    destruct (iter ss1 ss2 (take B chunk)) as [t1 t2]. cbn [fst snd] in *.
    destruct (IH t1 t2 (saturating_add usize_max len (Z.of_nat B)) (drop B chunk))
      as (ss1' & ss2' & len' & p & rest & Hrun & Hchunk & Hlt & Hacc); try done.
    { rewrite E1. apply wrap_range. lia. }
    { rewrite E2. apply wrap_range. lia. }
    { unfold in_u, saturating_add, usize_max in *. lia. }
    { rewrite length_drop. replace (length chunk) with ((length chunk - B) + 1 * B)%nat in Hn by lia.
      rewrite Nat.div_add in Hn by lia. lia. }
    exists ss1', ss2', len', (take B chunk ++ p), rest.
    split; [exact Hrun|]. rewrite <- app_assoc, <- Hchunk, take_drop.
    repeat split; [lia|]. rewrite Hacc, E1, E2.
    replace (Z.of_nat B) with (ulen (take B chunk)) by (unfold ulen; by rewrite Hb).
    apply acc_spec_app. unfold in_u in R3. lia.
Qed.

(** A stripe handles a prefix of the chunk and leaves less than a block. *)
Lemma simd_stripe_spec load s1 s2 len chunk :
  (∀ x, in_u 32 x → length (load x) = 4%nat ∧ extract_lane0 (load x) = x) →
  in_u 32 s1 → in_u 32 s2 → in_u 64 len →
  ∃ p rest, simd_stripe iter B load s1 s2 len chunk = (acc_spec s1 s2 len p, rest) ∧
    chunk = p ++ rest ∧ (length rest < B)%nat.
Proof.
  intros Hload R1 R2 R3. unfold simd_stripe.
  destruct (Nat.leb_spec B (length chunk)) as [Hle|Hlt].
  - destruct (Hload s1 R1) as [L1 E1], (Hload s2 R2) as [L2 E2].
    destruct (simd_loop_spec (length chunk / B) (load s1) (load s2) len chunk)
      as (ss1' & ss2' & len' & p & rest & -> & Hchunk & Hr & Hacc);
      rewrite ?E1, ?E2; try done.
    exists p, rest. rewrite E1, E2 in Hacc. rewrite Hacc. done.
  - exists [], chunk. by rewrite acc_spec_nil.
Qed.
End Loops.

Lemma load_cvtsi32 x : in_u 32 x →
  length (cvtsi32_si128 x) = 4%nat ∧ extract_lane0 (cvtsi32_si128 x) = x.
Proof. intros H. split; [done|]. cbn. try apply wrap_small; done. Qed.

Lemma load_vdupq x : in_u 32 x →
  length (vdupq_n_s32 x) = 4%nat ∧ extract_lane0 (vdupq_n_s32 x) = x.
Proof. intros H. split; [done|]. cbn. try apply wrap_small; done. Qed.

Lemma acc_spec_range s1 s2 len l a b c : in_u 64 len → acc_spec s1 s2 len l = (a, b, c) →
  in_u 32 a ∧ in_u 32 b ∧ in_u 64 c.
Proof.
  intros R [= <- <- <-]. split; [apply wrap_range; lia|]. split; [apply wrap_range; lia|].
  pose proof (ulen_nonneg l). unfold in_u, saturating_add, usize_max in *. lia.
Qed.

Lemma acc_spec_split s1 s2 len p k a b c : in_u 64 len → acc_spec s1 s2 len p = (a, b, c) →
  acc_spec a b c k = acc_spec s1 s2 len (p ++ k).
Proof. intros R [= <- <- <-]. apply acc_spec_app. unfold in_u in R. lia. Qed.

(** What remains after a stripe goes to a routine that meets [acc_spec]. *)
Lemma finish_stripe s1 s2 len p rest a b c r :
  in_u 64 len → acc_spec s1 s2 len p = (a, b, c) →
  (rest ≠ [] → r = acc_spec a b c rest) →
  match rest with [] => (a, b, c) | _ => r end = acc_spec s1 s2 len (p ++ rest).
Proof.
  intros R E Hr. destruct (acc_spec_range _ _ _ _ _ _ _ R E) as (Ra & Rb & Rc).
  rewrite <- (acc_spec_split _ _ _ _ _ _ _ _ R E). destruct rest.
  - by rewrite acc_spec_nil.
  - by apply Hr.
Qed.

Lemma accumulate_scalar_acc s1 s2 len l :
  in_u 32 s1 → in_u 32 s2 → in_u 64 len →
  accumulate_chunk_scalar_raw s1 s2 len l = acc_spec s1 s2 len l.
Proof. apply accumulate_scalar_spec. Qed.

Lemma accumulate_sse2_acc s1 s2 len l :
  in_u 32 s1 → in_u 32 s2 → in_u 64 len →
  accumulate_chunk_sse2 s1 s2 len l = acc_spec s1 s2 len l.
Proof.
  intros R1 R2 R3. unfold accumulate_chunk_sse2.
  destruct (simd_stripe_spec sse2_iteration SSE2_BLOCK_LEN ltac:(unfold SSE2_BLOCK_LEN; lia)
    sse2_iteration_ok cvtsi32_si128 s1 s2 len l load_cvtsi32) as (p & rest & -> & -> & _); try done.
  destruct (acc_spec s1 s2 len p) as [[a b] c] eqn:E.
  apply finish_stripe; [done..|]. intros _.
  destruct (acc_spec_range _ _ _ _ _ _ _ R3 E) as (Ra & Rb & Rc).
  by apply accumulate_scalar_acc.
Qed.

Lemma accumulate_neon_acc s1 s2 len l :
  in_u 32 s1 → in_u 32 s2 → in_u 64 len →
  accumulate_chunk_neon_impl s1 s2 len l = acc_spec s1 s2 len l.
Proof.
  intros R1 R2 R3. unfold accumulate_chunk_neon_impl.
  destruct (simd_stripe_spec neon_iteration 16 ltac:(lia) neon_iteration_ok
    vdupq_n_s32 s1 s2 len l load_vdupq) as (p & rest & -> & -> & _); try done.
  destruct (acc_spec s1 s2 len p) as [[a b] c] eqn:E.
  apply finish_stripe; [done..|]. intros _.
  destruct (acc_spec_range _ _ _ _ _ _ _ R3 E) as (Ra & Rb & Rc).
  by apply accumulate_scalar_acc.
Qed.

Lemma accumulate_avx2_acc s1 s2 len l :
  in_u 32 s1 → in_u 32 s2 → in_u 64 len →
  accumulate_chunk_avx2 s1 s2 len l = acc_spec s1 s2 len l.
Proof.
  intros R1 R2 R3. unfold accumulate_chunk_avx2.
  destruct (simd_stripe_spec avx2_iteration AVX2_BLOCK_LEN ltac:(unfold AVX2_BLOCK_LEN; lia)
    avx2_iteration_ok cvtsi32_si128 s1 s2 len l load_cvtsi32) as (p & rest & -> & -> & _); try done.
  destruct (acc_spec s1 s2 len p) as [[a b] c] eqn:E.
  destruct (acc_spec_range _ _ _ _ _ _ _ R3 E) as (Ra & Rb & Rc).
  case_match.
  - rewrite accumulate_sse2_acc by done. by apply acc_spec_split.
  - apply finish_stripe; [done..|]. intros _. by apply accumulate_scalar_acc.
Qed.

Lemma accumulate_arch_acc cpu s1 s2 len l :
  in_u 32 s1 → in_u 32 s2 → in_u 64 len →
  from_option id (accumulate_chunk_scalar_raw s1 s2 len l)
    (accumulate_chunk_arch cpu s1 s2 len l)
  = acc_spec s1 s2 len l.
Proof.
  intros R1 R2 R3. rewrite accumulate_scalar_acc by done.
  destruct cpu as [avx2 sse2|neon|]; cbn [accumulate_chunk_arch from_option id].
  - unfold x86_try_accumulate_chunk. repeat case_match; simpl; try done.
    + by apply accumulate_avx2_acc.
    + by apply accumulate_sse2_acc.
  - unfold neon_accumulate_chunk. destruct neon; simpl.
    + by apply accumulate_neon_acc.
    + by apply accumulate_scalar_acc.
  - done.
Qed.

(** C36: every vector routine the dispatcher can pick (AVX2, SSE2 and NEON, each
    with its scalar tail) computes exactly what the scalar loop computes, on
    every chunk and every starting state, so the checksum does not depend on
    the CPU. *)
Theorem simd_matches_scalar (cpu : arch) (s1 s2 len : Z) (chunk : list byte) :
  in_u 32 s1 → in_u 32 s2 → in_u 64 len →
  from_option id (accumulate_chunk_scalar_raw s1 s2 len chunk)
    (accumulate_chunk_arch cpu s1 s2 len chunk)
  = accumulate_chunk_scalar_raw s1 s2 len chunk.
Proof. intros R1 R2 R3. by rewrite accumulate_arch_acc, accumulate_scalar_acc. Qed.

Lemma simd_matches_scalar_witness :
  in_u 32 4294967295 ∧ in_u 32 7 ∧ in_u 64 3 ∧
  from_option id (accumulate_chunk_scalar_raw 4294967295 7 3 (replicate 70 xff))
    (accumulate_chunk_arch (X86 true true) 4294967295 7 3 (replicate 70 xff))
  = accumulate_chunk_scalar_raw 4294967295 7 3 (replicate 70 xff).
Proof.
  split; [unfold in_u; lia|]. split; [unfold in_u; lia|]. split; [unfold in_u; lia|].
  apply simd_matches_scalar; unfold in_u; lia.
Defined.

(** ** The checksum against its definition *)

Lemma sign_extend_cong16 b : cong (2 ^ 16) (sign_extend_byte b) (sz b).
Proof. apply (cong_weaken 16 32); [lia|]. apply sign_extend_cong. Qed.

Ltac unwrap16 :=
  repeat first [rewrite (cong_wrap 16 32) by lia | rewrite (cong_wrap 16 16) by lia
               | rewrite sign_extend_cong16].

Lemma in_u_16_32 z : in_u 16 z → in_u 32 z.
Proof. unfold in_u. lia. Qed.

Lemma rolling_of_wf l : rolling_wf (rolling_of l).
Proof.
  pose proof (ulen_nonneg l). repeat split; simpl; try (apply wrap_range; lia);
    unfold usize_max; lia.
Qed.

Lemma dispatch_spec cpu s1 s2 len l :
  in_u 16 s1 → in_u 16 s2 → in_u 64 len →
  accumulate_chunk_dispatch cpu s1 s2 len l =
    (wrap 16 (s1 + bsum l), wrap 16 (s2 + ulen l * s1 + wsum l),
     saturating_add usize_max len (ulen l)).
Proof.
  intros R1 R2 R3. destruct l as [|b l].
  - cbn. unfold ulen. simpl. rewrite Z.add_0_r, Z.mul_0_l, !Z.add_0_r, !wrap_small by done.
    unfold saturating_add, in_u, usize_max in *. f_equal. lia.
  - unfold accumulate_chunk_dispatch.
    transitivity (mask_result (acc_spec s1 s2 len (b :: l))).
    + rewrite <- (accumulate_arch_acc cpu) by auto using in_u_16_32. by case_match.
    + unfold mask_result, acc_spec. rewrite !land_65535.
      f_equal; f_equal; apply cong_wrap_eq; by unwrap16.
Qed.

Section UpdateTheorems.
Context `{HasCpu}.

Lemma rolling_update_spec c l : rolling_wf c →
  rolling_update c l =
    mkRolling (wrap 16 (rc_s1 c + bsum l)) (wrap 16 (rc_s2 c + ulen l * rc_s1 c + wsum l))
      (saturating_add usize_max (rc_len c) (ulen l)).
Proof. intros (R1 & R2 & R3). unfold rolling_update. by rewrite dispatch_spec. Qed.

Lemma rolling_update_wf c l : rolling_wf c → rolling_wf (rolling_update c l).
Proof.
  intros Hc. rewrite rolling_update_spec by done. destruct Hc as (_ & _ & R3).
  pose proof (ulen_nonneg l).
  repeat split; simpl; try (apply wrap_range; lia); unfold in_u, saturating_add, usize_max in *; lia.
Qed.

Lemma rolling_update_of p l : rolling_update (rolling_of p) l = rolling_of (p ++ l).
Proof.
  rewrite rolling_update_spec by apply rolling_of_wf. unfold rolling_of. cbn [rc_s1 rc_s2 rc_len].
  rewrite bsum_app, wsum_app, ulen_app. f_equal.
  - apply cong_wrap_eq. by unwrap16.
  - apply cong_wrap_eq. unwrap16. apply cong_of_eq. lia.
  - pose proof (ulen_nonneg l). unfold saturating_add. lia.
Qed.

Lemma rolling_new_of : rolling_new = rolling_of [].
Proof. done. Qed.

Lemma update_chunks_from p chunks :
  foldl rolling_update (rolling_of p) chunks = rolling_of (p ++ concat chunks).
Proof.
  revert p. induction chunks as [|c cs IH]; intros p; cbn [foldl concat].
  - by rewrite app_nil_r.
  - by rewrite rolling_update_of, IH, <- app_assoc.
Qed.

(** Updating a fresh checksum with the chunks of a stream, split in any
    way, on any CPU, leaves the state the definition of the checksum gives for
    the whole stream. *)
Lemma update_chunks_correct (chunks : list (list byte)) :
  foldl rolling_update rolling_new chunks = rolling_of (concat chunks).
Proof. rewrite rolling_new_of. apply (update_chunks_from []). Qed.

Lemma rolling_update_byte_spec c b : rolling_wf c →
  rolling_update_byte c b = rolling_update c [b].
Proof.
  intros Hc. rewrite rolling_update_spec by done. unfold rolling_update_byte.
  rewrite !land_65535. unfold ulen. cbn -[wrap sz]. f_equal; apply cong_wrap_eq; unwrap16;
    apply cong_of_eq; unfold ulen; cbn -[sz]; lia.
Qed.

Lemma flush_spec c scratch : rolling_wf c →
  flush_vectored_scratch c scratch = (rolling_update c scratch, []).
Proof.
  intros Hc. destruct scratch; [|done]. unfold flush_vectored_scratch, rolling_update.
  cbn. by destruct c.
Qed.

(** The bytes a vectored state has seen: those in the sums, then the scratch. *)
Definition vectored_inv (seen : list byte) (st : RollingChecksum * list byte) : Prop :=
  ∃ p, st.1 = rolling_of p ∧ seen = p ++ st.2 ∧ ulen st.2 < VECTORED_STACK_CAPACITY.

Lemma flush_inv seen p scratch : seen = p ++ scratch →
  flush_vectored_scratch (rolling_of p) scratch = (rolling_of seen, []).
Proof. intros ->. by rewrite flush_spec, rolling_update_of by apply rolling_of_wf. Qed.

Lemma vectored_step_inv seen st chunk :
  vectored_inv seen st → vectored_inv (seen ++ chunk) (vectored_step st chunk).
Proof.
  intros (p & Hst & Hseen & Hlt). destruct st as [c scratch]. cbn [fst snd] in *. subst c.
  unfold vectored_step. destruct chunk as [|b chunk]; [rewrite app_nil_r; by exists p|].
  set (k := b :: chunk) in *. cbn [fst snd].
  destruct (Z.leb_spec VECTORED_STACK_CAPACITY (ulen k)) as [Hle|Hk].
  - rewrite (flush_inv seen) by done. exists (seen ++ k). cbn [fst snd].
    rewrite rolling_update_of, app_nil_r. done.
  - destruct (Z.ltb_spec VECTORED_STACK_CAPACITY (ulen scratch + ulen k)) as [Hgt|Hle'].
    + rewrite (flush_inv seen) by done. cbn [app].
      rewrite (proj2 (Z.eqb_neq _ _)) by lia. exists seen. done.
    + destruct (Z.eqb_spec (ulen (scratch ++ k)) VECTORED_STACK_CAPACITY) as [Heq|Hne].
      * rewrite (flush_inv (seen ++ k)) by (subst seen; by rewrite app_assoc).
        exists (seen ++ k). cbn [fst snd]. by rewrite app_nil_r.
      * rewrite ulen_app in Hne. exists p. cbn [fst snd]. rewrite ulen_app.
        subst seen. rewrite app_assoc. repeat split. lia.
Qed.

(** the vectored update, which coalesces small buffers in a 128-byte stack
    array, is the plain update of the concatenated buffers, and the scratch
    array never holds more than its capacity. *)
Theorem update_vectored_correct (p : list byte) (buffers : list (list byte)) :
  rolling_update_vectored (rolling_of p) buffers = rolling_of (p ++ concat buffers)
  ∧ ulen (foldl vectored_step (rolling_of p, []) buffers).2 < VECTORED_STACK_CAPACITY.
Proof.
  assert (Hinv : vectored_inv (p ++ concat buffers)
                   (foldl vectored_step (rolling_of p, []) buffers)).
  { assert (Hg : ∀ seen st, vectored_inv seen st →
      vectored_inv (seen ++ concat buffers) (foldl vectored_step st buffers)).
    { induction buffers as [|b bs IH]; intros seen st Hi; cbn [foldl concat].
      - by rewrite app_nil_r.
      - rewrite app_assoc. apply IH. by apply vectored_step_inv. }
    apply Hg. exists p. by rewrite app_nil_r. }
  unfold rolling_update_vectored.
  destruct (foldl vectored_step (rolling_of p, []) buffers) as [c scratch].
  destruct Hinv as (q & Hc & Hseen & Hlt). cbn [fst snd] in *. subst c.
  rewrite (flush_inv (p ++ concat buffers)) by done. done.
Qed.

(** The data a reader delivers before it ends or fails, and how it ends. *)
Fixpoint reader_data (reader : list read_event) : list byte :=
  match reader with
  | [] | RData [] :: _ | RFail _ :: _ => []
  | RData bs :: rest => bs ++ reader_data rest
  | RInterrupted :: rest => reader_data rest
  end.

Fixpoint reader_failure (reader : list read_event) : option io_error :=
  match reader with
  | [] | RData [] :: _ => None
  | RFail e :: _ => Some e
  | _ :: rest => reader_failure rest
  end.

Lemma update_reader_loop_spec p total reader : 0 ≤ total →
  total + ulen (reader_data reader) ≤ u64_max →
  update_reader_loop (rolling_of p) total reader =
    (rolling_of (p ++ reader_data reader),
     match reader_failure reader with
     | None => Ok (total + ulen (reader_data reader)) | Some e => Err e end).
Proof.
  revert p total. induction reader as [|ev rest IH]; intros p total H0 Hmax;
    cbn [update_reader_loop reader_data reader_failure] in *.
  - rewrite app_nil_r. unfold ulen. simpl. by rewrite Z.add_0_r.
  - destruct ev as [[|b bs]| |e].
    + rewrite app_nil_r. unfold ulen. simpl. by rewrite Z.add_0_r.
    + rewrite rolling_update_of. rewrite ulen_app in Hmax.
      pose proof (ulen_nonneg (b :: bs)). pose proof (ulen_nonneg (reader_data rest)).
      unfold saturating_add. rewrite Z.min_r by lia. rewrite IH by lia.
      rewrite ulen_app, <- app_assoc. f_equal. case_match; [done|]. f_equal. lia.
    + by apply IH.
    + by rewrite app_nil_r.
Qed.

(** checksumming a reader retries interrupted reads, stops at the end of
    the stream or at the first error, and leaves the checksum of exactly the
    bytes delivered until then; on success it returns how many there were. *)
Theorem update_reader_correct (p : list byte) (buffer_len : Z) (reader : list read_event) :
  0 < buffer_len → ulen (reader_data reader) ≤ u64_max →
  rolling_update_reader_with_buffer (rolling_of p) buffer_len reader =
    (rolling_of (p ++ reader_data reader),
     match reader_failure reader with
     | None => Ok (ulen (reader_data reader)) | Some e => Err e end).
Proof.
  intros Hb Hmax. unfold rolling_update_reader_with_buffer.
  rewrite (proj2 (Z.eqb_neq _ _)) by lia. by apply update_reader_loop_spec.
Qed.
End UpdateTheorems.

Lemma update_reader_correct_witness :
  let H := OtherArch : HasCpu in
  0 < 4 ∧ ulen (reader_data [RData [x61; x62]; RInterrupted; RData [xff]]) ≤ u64_max ∧
  rolling_update_reader_with_buffer (rolling_of [x10]) 4
    [RData [x61; x62]; RInterrupted; RData [xff]]
  = (rolling_of [x10; x61; x62; xff], Ok 3).
Proof.
  split; [lia|]. split; [vm_compute; congruence|].
  apply (@update_reader_correct OtherArch [x10] 4 [RData [x61; x62]; RInterrupted; RData [xff]]);
    [lia|vm_compute; congruence].
Defined.

(** ** Rolling *)

(** The window length a roll uses: one that fits [u32] and is not zero. *)
Definition rollable (len : Z) : Prop := 0 < len ≤ u32_max.

Lemma window_len_ok c : rollable (rc_len c) → rolling_window_len_u32 c = Ok (rc_len c).
Proof.
  intros [? ?]. unfold rolling_window_len_u32.
  rewrite (proj2 (Z.eqb_neq _ _)), (proj2 (Z.leb_le _ _)) by lia. done.
Qed.

Lemma rolling_roll_spec c out inn : rollable (rc_len c) →
  rolling_roll c out inn = Ok (mkRolling (wrap 16 (rc_s1 c + (sz inn - sz out)))
    (wrap 16 (rc_s2 c - rc_len c * sz out + rc_s1 c + (sz inn - sz out))) (rc_len c)).
Proof.
  intros Hl. unfold rolling_roll. rewrite window_len_ok by done. cbn [mbind result_bind].
  rewrite !land_65535. do 2 f_equal; apply cong_wrap_eq; unwrap16; apply cong_of_eq; lia.
Qed.

Lemma roll_of x w y : rollable (ulen (x :: w)) →
  rolling_roll (rolling_of (x :: w)) x y = Ok (rolling_of (w ++ [y])).
Proof.
  intros [H0 H1]. assert (Hmin : Z.min usize_max (ulen (x :: w)) = ulen (x :: w))
    by (unfold usize_max, u32_max in *; lia).
  rewrite rolling_roll_spec; unfold rolling_of; cbn [rc_len rc_s1 rc_s2]; rewrite Hmin; [|done].
  rewrite bsum_app, wsum_app, ulen_app. rewrite !ulen_cons in *. cbn [bsum wsum].
  rewrite !ulen_cons. f_equal. f_equal.
  - apply cong_wrap_eq; unwrap16; apply cong_of_eq. lia.
  - apply cong_wrap_eq; unwrap16; apply cong_of_eq. unfold ulen; simpl. lia.
  - unfold ulen, usize_max, u32_max in *. simpl in *. lia.
Qed.

(** C32: rolling the checksum of a window forward by one byte gives the checksum
    of the shifted window, for every window length [roll] accepts. *)
Theorem roll_correct (x : byte) (w : list byte) (y : byte) :
  0 < ulen (x :: w) ≤ u32_max →
  rolling_roll (rolling_of (x :: w)) x y = Ok (rolling_of (w ++ [y])).
Proof. apply roll_of. Qed.

Lemma roll_correct_witness :
  0 < ulen [xff; x02; x80] ≤ u32_max ∧
  rolling_roll (rolling_of [xff; x02; x80]) xff x7f = Ok (rolling_of [x02; x80; x7f]).
Proof.
  split; [vm_compute; done|]. apply (roll_correct xff [x02; x80] x7f). vm_compute; done.
Defined.

Lemma roll_many_scalar_spec c pairs k so sd wd :
  rolling_wf c → rollable (rc_len c) →
  k = Z.of_nat (length pairs) → roll_many_sums k pairs = (so, sd, wd) →
  rolling_roll_many_scalar c pairs =
    (mkRolling (wrap 16 (rc_s1 c + sd))
       (wrap 16 (rc_s2 c - rc_len c * so + rc_s1 c * k + wd)) (rc_len c), Ok tt).
Proof.
  revert c k so sd wd. induction pairs as [|[out inn] rest IH]; intros c k so sd wd Hwf Hl Hk Hs;
    cbn [rolling_roll_many_scalar roll_many_sums] in *.
  - simplify_eq. simpl. destruct Hwf as (? & ? & ?).
    rewrite Z.add_0_r, !Z.mul_0_r, Z.sub_0_r, !Z.add_0_r, !wrap_small by done. by destruct c.
  - destruct (roll_many_sums (k - 1) rest) as [[so' sd'] wd'] eqn:E. simplify_eq.
    rewrite rolling_roll_spec by done.
    erewrite IH; [|..|exact E]; cbn [rc_s1 rc_s2 rc_len]; [|..|done|cbn [length]; lia].
    + f_equal. f_equal; apply cong_wrap_eq; unwrap16; apply cong_of_eq; cbn [length]; lia.
    + destruct Hwf as (_ & _ & R). repeat split; cbn [rc_s1 rc_s2 rc_len];
        solve [apply wrap_range; lia | apply R].
Qed.

Lemma roll_many_eq (c : RollingChecksum) (outgoing incoming : list byte) :
  rolling_wf c → length outgoing = length incoming → outgoing ≠ [] →
  rolling_roll_many c outgoing incoming = rolling_roll_many_scalar c (zip outgoing incoming).
Proof.
  intros Hwf Hlen Hne. unfold rolling_roll_many.
  assert (Hu : ulen outgoing = ulen incoming) by (unfold ulen; by rewrite Hlen).
  rewrite Hu, Z.eqb_refl. cbn [negb].
  destruct (rolling_window_len_u32 c) as [wl|e] eqn:Ew.
  - assert (Hr : rollable (rc_len c) ∧ wl = rc_len c).
    { unfold rolling_window_len_u32 in Ew. destruct (Z.eqb_spec (rc_len c) 0); [done|].
      destruct (Z.leb_spec (rc_len c) u32_max); [|done]. simplify_eq.
      destruct Hwf as (_ & _ & R). unfold rollable, in_u in *. lia. }
    destruct Hr as [Hr ->]. destruct outgoing as [|o os]; [done|]. rewrite <- Hu.
    destruct (ulen (o :: os) <=? u32_max); [|done].
    destruct (roll_many_sums (ulen (o :: os)) (zip (o :: os) incoming)) as [[so sd] wd] eqn:E.
    erewrite roll_many_scalar_spec; [|done|done| |exact E].
    + rewrite !land_65535. f_equal. f_equal; apply cong_wrap_eq; unwrap16; done.
    + unfold ulen. rewrite length_zip_with. f_equal. lia.
  - destruct outgoing as [|o os], incoming as [|i inc]; try done.
    simpl. unfold rolling_roll. by rewrite Ew.
Qed.

(** the batched [roll_many], which sums all differences in wide integers
    and folds them in once, always agrees with rolling byte by byte, errors
    and the state left behind included. *)
Theorem roll_many_equals_scalar (c : RollingChecksum) (outgoing incoming : list byte) :
  rolling_wf c → length outgoing = length incoming → outgoing ≠ [] →
  rolling_roll_many c outgoing incoming = rolling_roll_many_scalar c (zip outgoing incoming).
Proof. apply roll_many_eq. Qed.

Lemma roll_many_equals_scalar_witness :
  rolling_wf (rolling_of [x01; xfe; x33]) ∧ length [x01; xfe] = length [x90; x0a] ∧
  [x01; xfe] ≠ [] ∧
  rolling_roll_many (rolling_of [x01; xfe; x33]) [x01; xfe] [x90; x0a]
  = rolling_roll_many_scalar (rolling_of [x01; xfe; x33]) (zip [x01; xfe] [x90; x0a]).
Proof.
  split; [apply rolling_of_wf|]. split; [done|]. split; [done|].
  apply roll_many_equals_scalar; [apply rolling_of_wf|done|done].
Defined.

Lemma roll_many_scalar_windows window incoming : rollable (ulen window) →
  rolling_roll_many_scalar (rolling_of window)
    (zip (take (length incoming) (window ++ incoming)) incoming)
  = (rolling_of (drop (length incoming) (window ++ incoming)), Ok tt).
Proof.
  revert window. induction incoming as [|y ys IH]; intros window Hr.
  - rewrite app_nil_r. done.
  - destruct window as [|x w]; [destruct Hr; unfold ulen in *; simpl in *; lia|].
    cbn [length app take drop zip zip_with rolling_roll_many_scalar].
    rewrite roll_of by done.
    replace (w ++ y :: ys) with ((w ++ [y]) ++ ys) by (by rewrite <- app_assoc).
    apply IH. unfold rollable in *. rewrite ulen_app, ulen_cons in *.
    unfold ulen in *. simpl in *. lia.
Qed.

(** Rolling a window over the bytes that follow it, in one batch, gives the
    checksum of the window at its new position, however far it moves. *)
Lemma roll_many_correct (window incoming : list byte) :
  0 < ulen window ≤ u32_max →
  rolling_roll_many (rolling_of window)
    (take (length incoming) (window ++ incoming)) incoming
  = (rolling_of (drop (length incoming) (window ++ incoming)), Ok tt).
Proof.
  intros Hr. destruct incoming as [|y ys].
  - rewrite app_nil_r. unfold rolling_roll_many. simpl.
    rewrite window_len_ok; [done|]. unfold rollable, rolling_of in *. simpl.
    unfold usize_max, u32_max in *. lia.
  - rewrite <- roll_many_scalar_windows by done.
    set (inc := y :: ys) in *. assert (Hne : length inc ≠ 0%nat) by done.
    assert (Hl : length (take (length inc) (window ++ inc)) = length inc)
      by (rewrite length_take, length_app; lia).
    assert (take (length inc) (window ++ inc) ≠ []) by (intros E; by rewrite E in Hl).
    apply roll_many_eq; [apply rolling_of_wf|done|done].
Qed.

Lemma roll_many_correct_witness :
  0 < ulen [x05; xc0; x11] ≤ u32_max ∧
  rolling_roll_many (rolling_of [x05; xc0; x11]) [x05; xc0; x11; x42] [x42; x43; x44; x45]
  = (rolling_of [x43; x44; x45], Ok tt).
Proof.
  split; [vm_compute; done|].
  apply (roll_many_correct [x05; xc0; x11] [x42; x43; x44; x45]). vm_compute; done.
Defined.

(** The error branches of the rolling operations: mismatched slices, an
    empty window and a window beyond [u32] are refused, in that order, and the
    state is left as it was. *)
Lemma roll_many_errors (c : RollingChecksum) (outgoing incoming : list byte) :
  rolling_wf c →
  (length outgoing ≠ length incoming →
     rolling_roll_many c outgoing incoming
     = (c, Err (MismatchedSliceLength (ulen outgoing) (ulen incoming)))) ∧
  (length outgoing = length incoming → rc_len c = 0 →
     rolling_roll_many c outgoing incoming = (c, Err EmptyWindow)) ∧
  (length outgoing = length incoming → u32_max < rc_len c →
     rolling_roll_many c outgoing incoming = (c, Err (WindowTooLarge (rc_len c)))).
Proof.
  intros Hwf. unfold rolling_roll_many, ulen, rolling_window_len_u32. split_and!.
  - intros Hne. rewrite (proj2 (Z.eqb_neq _ _)) by lia. done.
  - intros -> ->. by rewrite Z.eqb_refl.
  - intros -> Hl. rewrite Z.eqb_refl. cbn [negb].
    rewrite (proj2 (Z.eqb_neq _ _)), (proj2 (Z.leb_gt _ _)) by (unfold u32_max in *; lia). done.
Qed.

Lemma roll_many_errors_witness :
  rolling_wf (mkRolling 1 2 0) ∧
  rolling_roll_many (mkRolling 1 2 0) [x01] [x02] = (mkRolling 1 2 0, Err EmptyWindow).
Proof.
  assert (H : rolling_wf (mkRolling 1 2 0)) by (repeat split; simpl; lia).
  split; [exact H|].
  apply (proj1 (proj2 (roll_many_errors (mkRolling 1 2 0) [x01] [x02] H))); done.
Defined.

(** ** Digests *)

Lemma lor_disjoint_16 a b : in_u 16 a → in_u 16 b → Z.lor (wrap 32 (Z.shiftl b 16)) a = b * 2 ^ 16 + a.
Proof.
  unfold in_u. intros Ha Hb. rewrite Z.shiftl_mul_pow2 by lia.
  rewrite wrap_small by (unfold in_u; lia).
  apply lor_low; lia.
Qed.

Lemma rolling_value_range c : rolling_wf c →
  rolling_value c = rc_s2 c * 2 ^ 16 + rc_s1 c ∧ in_u 32 (rolling_value c).
Proof.
  intros (R1 & R2 & _). unfold rolling_value. rewrite lor_disjoint_16 by done.
  split; [done|]. unfold in_u in *. lia.
Qed.

Lemma digest_value_of c : rolling_wf c → digest_value (rolling_digest c) = rolling_value c.
Proof.
  intros (R1 & R2 & _). unfold rolling_digest, digest_value, rolling_value. simpl.
  by rewrite !(wrap_small 16).
Qed.

Lemma digest_from_value_of c : rolling_wf c →
  digest_from_value (rolling_value c) (rc_len c) = rolling_digest c.
Proof.
  intros Hc. destruct (rolling_value_range c Hc) as [-> _]. destruct Hc as (R1 & R2 & _).
  unfold digest_from_value, rolling_digest. f_equal.
  - apply cong_wrap_eq. unfold cong. rewrite Z.add_comm, Z.mod_add by lia. done.
  - f_equal. rewrite Z.shiftr_div_pow2 by lia. unfold in_u in *.
    rewrite Z.div_add_l by lia. rewrite Z.div_small by lia. lia.
Qed.

(** A checksum state survives the wire: its digest encodes to four
    little-endian bytes that decode, from a slice or from a reader, to the same
    digest, and the checksum rebuilt from it is the original state. *)
Lemma digest_wire_roundtrip (c : RollingChecksum) (rest : list byte) :
  rolling_wf c →
  digest_from_le_slice (digest_to_le_bytes (rolling_digest c)) (rc_len c)
    = Ok (rolling_digest c) ∧
  digest_read_le_from (rc_len c) (digest_to_le_bytes (rolling_digest c) ++ rest)
    = Ok (rolling_digest c, rest) ∧
  rolling_from_digest (rolling_digest c) = c.
Proof.
  intros Hc. destruct (rolling_value_range c Hc) as [_ Hr].
  assert (Hd : digest_from_le_bytes (digest_to_le_bytes (rolling_digest c)) (rc_len c)
               = rolling_digest c).
  { unfold digest_from_le_bytes, digest_to_le_bytes.
    rewrite digest_value_of by done. rewrite le_val_le_bytes.
    rewrite <- (digest_from_value_of c) by done. f_equal. by apply Z.mod_small. }
  assert (Hl : length (digest_to_le_bytes (rolling_digest c)) = 4%nat) by apply length_le_bytes.
  split_and!.
  - unfold digest_from_le_slice, ulen. rewrite Hl. simpl. by rewrite Hd.
  - unfold digest_read_le_from. erewrite parser_bind_ok by (by apply read_exact_app).
    by rewrite Hd.
  - destruct Hc as (R1 & R2 & _). unfold rolling_from_digest, rolling_digest. simpl.
    rewrite !wrap_small by done. by destruct c.
Qed.

Lemma digest_wire_roundtrip_witness :
  rolling_wf (rolling_of [x80; x7f]) ∧
  digest_from_le_slice (digest_to_le_bytes (rolling_digest (rolling_of [x80; x7f]))) 2
    = Ok (rolling_digest (rolling_of [x80; x7f])).
Proof.
  split; [apply rolling_of_wf|].
  apply (proj1 (digest_wire_roundtrip (rolling_of [x80; x7f]) [] (rolling_of_wf _))).
Defined.
