(* ===== verification/Varint.v ===== *)
(** * Variable-length integers ([crates/protocol/src/varint/])

    The integer encodings of the wire protocol: [encode.rs] (writers, as the
    bytes they append to the output), [decode.rs] (readers, as parsers) and
    [table.rs].  The theorems show that each reader inverts its writer on its
    whole domain and leaves the rest of the stream untouched, that the slice
    decoder agrees with the stream decoder on every input, and that the bounded
    readers only return values in their range. *)

From S2P Require Import Prelude.

Local Open Scope Z_scope.

(** ** Tables and arrays *)

Definition INT_BYTE_EXTRA : list nat :=
  [0; 0; 0; 0; 0; 0; 0; 0; 0; 0; 0; 0; 0; 0; 0; 0;
   0; 0; 0; 0; 0; 0; 0; 0; 0; 0; 0; 0; 0; 0; 0; 0;
   1; 1; 1; 1; 1; 1; 1; 1; 1; 1; 1; 1; 1; 1; 1; 1;
   2; 2; 2; 2; 2; 2; 2; 2; 3; 3; 3; 3; 4; 4; 5; 6]%nat.

Definition MAX_EXTRA_BYTES : nat := 4.

(** [INT_BYTE_EXTRA[(b / 4) as usize]]. *)
Definition extra_bytes (b : byte) : nat := nth (Z.to_nat (uz b / 4)) INT_BYTE_EXTRA 0%nat.

(** [!x] on [u8]. *)
Definition not_u8 (x : Z) : Z := 255 - x.

(** ** Writers *)

Fixpoint encode_trim (bytes : list byte) (count : nat) : nat :=
  match count with
  | O => O
  | S c => if (1 <? count)%nat && (uz (nth count bytes x00) =? 0)
           then encode_trim bytes c else count
  end.

Definition encode_bytes (value : Z) : nat * list byte :=
  let bytes := copy_at 1 (le_bytes 4 value) (replicate 5 x00) in
  let count := encode_trim bytes 4 in
  let shift := 7 - Z.of_nat (count - 1) in
  let bit := Z.shiftl 1 shift in
  let current := uz (nth count bytes x00) in
  if bit <=? current then (S count, <[0%nat := zb (not_u8 (bit - 1))]> bytes)
  else if (1 <? count)%nat then
    let double_bit := Z.shiftl bit 1 in
    let mask := not_u8 (double_bit - 1) in
    (count, <[0%nat := zb (Z.lor current mask)]> bytes)
  else (count, <[0%nat := nth 1 bytes x00]> bytes).

Definition write_varint (value : Z) : list byte :=
  let '(len, bytes) := encode_bytes value in take len bytes.

Definition encode_varint_to_vec (value : Z) (out : list byte) : list byte :=
  let '(len, bytes) := encode_bytes value in out ++ take len bytes.

Definition VSTRING_MAX_LEN : Z := 32767.

Definition write_vstring (bytes : list byte) : result io_error (list byte) :=
  let len := Z.of_nat (length bytes) in
  if VSTRING_MAX_LEN <? len then Err InvalidInput
  else
    let prefix := if 127 <? len then [zb (len / 256 + 128); zb (Z.land len 255)] else [zb len] in
    Ok (prefix ++ (if 0 <? len then bytes else [])).

Fixpoint varlong_trim (min_bytes : nat) (bytes : list byte) (cnt : nat) : nat :=
  match cnt with
  | O => O
  | S c => if (min_bytes <? cnt)%nat && (uz (nth c bytes x00) =? 0)
           then varlong_trim min_bytes bytes c else cnt
  end.

(** [None] where the source panics: the byte index underflows when everything
    is trimmed, the shift reaches the width of [u8], or the slice ends past the
    eight bytes. *)
Definition write_varlong (value : Z) (min_bytes : nat) : option (list byte) :=
  let bytes := le_bytes 8 value in
  let cnt := varlong_trim min_bytes bytes 8 in
  if (cnt =? 0)%nat || (7 + min_bytes <? cnt)%nat || (8 <=? 7 + min_bytes - cnt)%nat then None
  else
    let bit := Z.shiftl 1 (7 + Z.of_nat min_bytes - Z.of_nat cnt) in
    let top := uz (nth (cnt - 1) bytes x00) in
    let '(cnt', leading) :=
      if bit <=? top then (S cnt, not_u8 (bit - 1))
      else if (min_bytes <? cnt)%nat then (cnt, Z.lor top (not_u8 (bit * 2 - 1)))
      else (cnt, top) in
    Some (zb leading :: take (cnt' - 1) bytes).

Definition write_longint (value : Z) : list byte :=
  if (0 <=? value) && (value <=? 2147483647) then le_bytes 4 value
  else le_bytes 4 4294967295 ++ le_bytes 8 value.

Definition write_varlong30 (value : Z) (min_bytes : nat) : option (list byte) :=
  write_varlong value min_bytes.

Definition write_int (value : Z) : list byte := le_bytes 4 value.

Definition write_varint30_int (value protocol_version : Z) : list byte :=
  if protocol_version <? 30 then write_int value else write_varint value.

(** ** Readers *)

Definition decode_bytes (bytes : list byte) : result io_error (Z * nat) :=
  match bytes with
  | [] => Err UnexpectedEof
  | first :: tail =>
      let extra := extra_bytes first in
      if (MAX_EXTRA_BYTES <? extra)%nat then Err InvalidData
      else if (length bytes <? 1 + extra)%nat then Err UnexpectedEof
      else
        let buf := replicate 5 x00 in
        let buf :=
          if (0 <? extra)%nat then
            let buf := copy_at 0 (take extra tail) buf in
            let bit := Z.shiftl 1 (8 - Z.of_nat extra) in
            <[extra := zb (Z.land (uz first) (bit - 1))]> buf
          else <[0%nat := first]> buf in
        Ok (i32_from_le (take 4 buf), S extra)
  end.

Definition read_varint : parser Z :=
  first ← read_u8;
  let extra := extra_bytes first in
  if (MAX_EXTRA_BYTES <? extra)%nat then fail InvalidData
  else
    let buf := replicate 5 x00 in
    buf ← (if (0 <? extra)%nat then
             data ← read_exact extra;
             let bit := Z.shiftl 1 (8 - Z.of_nat extra) in
             mret (<[extra := zb (Z.land (uz first) (bit - 1))]> (copy_at 0 data buf))
           else mret (<[0%nat := first]> buf));
    mret (i32_from_le (take 4 buf)).

Definition read_varint_bounded (lo hi : Z) : parser Z :=
  v ← read_varint;
  if (v <? lo) || (hi <? v) then fail ProtocolViolation else mret v.

Definition read_varint_size (max : Z) : parser Z :=
  v ← read_varint;
  if (v <? 0) || (max <? v) then fail ProtocolViolation else mret v.

Definition read_varlong (min_bytes : nat) : parser Z :=
  if (min_bytes =? 0)%nat || (8 <? min_bytes)%nat then fail InvalidData
  else
    initial ← read_exact min_bytes;
    let leading := nth 0 initial x00 in
    let result := copy_at 0 (drop 1 initial) (replicate 9 x00) in
    let extra := extra_bytes leading in
    result ← (if (0 <? extra)%nat then
                if (9 <? min_bytes + extra)%nat then fail InvalidData
                else
                  let bit := Z.shiftl 1 (8 - Z.of_nat extra) in
                  data ← read_exact extra;
                  mret (<[(min_bytes + extra - 1)%nat := zb (Z.land (uz leading) (bit - 1))]>
                          (copy_at (min_bytes - 1) data result))
              else mret (<[(min_bytes - 1)%nat := leading]> result));
    mret (i64_from_le (take 8 result)).

Definition read_longint : parser Z :=
  buf ← read_exact 4;
  let first := i32_from_le buf in
  if first =? -1 then buf64 ← read_exact 8; mret (i64_from_le buf64)
  else mret first.

Definition read_varlong30 (min_bytes : nat) : parser Z := read_varlong min_bytes.

Definition read_int : parser Z := buf ← read_exact 4; mret (i32_from_le buf).

Definition read_varint30_int (protocol_version : Z) : parser Z :=
  if protocol_version <? 30 then read_int else read_varint.

Definition decode_varint (bytes : list byte) : result io_error (Z * list byte) :=
  match decode_bytes bytes with
  | Ok (value, consumed) => Ok (value, drop consumed bytes)
  | Err e => Err e
  end.

(** ** Shared lemmas *)

Lemma copy_at_fill d0 data K : (length d0 + length data ≤ K)%nat →
  copy_at (length d0) data (d0 ++ replicate (K - length d0) x00)
  = (d0 ++ data) ++ replicate (K - length (d0 ++ data)) x00.
Proof.
  intros Hk. unfold copy_at. rewrite take_app_length, <- app_assoc. do 2 f_equal.
  rewrite drop_app_ge by lia. rewrite drop_replicate, length_app. f_equal. lia.
Qed.

Lemma copy_at_zero data K : (length data ≤ K)%nat →
  copy_at 0 data (replicate K x00) = data ++ replicate (K - length data) x00.
Proof. intros Hk. pose proof (copy_at_fill [] data K) as H. rewrite Nat.sub_0_r in H. by apply H. Qed.

Lemma insert_fill (data : list byte) v K : (length data < K)%nat →
  <[length data := v]> (data ++ replicate (K - length data) x00)
  = data ++ v :: replicate (K - S (length data)) x00.
Proof.
  intros Hk. rewrite insert_app_r_alt by lia. rewrite Nat.sub_diag.
  replace (K - length data)%nat with (S (K - S (length data))) by lia. done.
Qed.

(** What the tag byte holds beside the number of extra bytes. *)
Definition tag_value (first : byte) : byte :=
  if (0 <? extra_bytes first)%nat
  then zb (Z.land (uz first) (Z.shiftl 1 (8 - Z.of_nat (extra_bytes first)) - 1)) else first.

Lemma read_varint_tag first data rest :
  extra_bytes first = length data → (length data ≤ 4)%nat →
  read_varint (first :: data ++ rest)
  = Ok (i32_from_le (take 4 (data ++ tag_value first :: replicate (4 - length data) x00)), rest).
Proof.
  intros He Hd. unfold read_varint. erewrite parser_bind_ok by done. unfold tag_value.
  rewrite He. unfold MAX_EXTRA_BYTES. rewrite (proj2 (Nat.ltb_ge _ _)) by lia.
  destruct data as [|d data]; [done|]. cbn [length Nat.ltb Nat.leb]. set (ds := d :: data) in *.
  erewrite parser_bind_ok
    by (erewrite parser_bind_ok by (by apply read_exact_app); reflexivity).
  rewrite copy_at_zero by lia. change (S (length data)) with (length ds).
  rewrite insert_fill by lia. done.
Qed.

Lemma read_varlong_tag min first d0 data rest :
  extra_bytes first = length data → min = S (length d0) → (length d0 + length data ≤ 8)%nat →
  (length d0 ≤ 7)%nat →
  read_varlong min (first :: d0 ++ data ++ rest)
  = Ok (i64_from_le (take 8 ((d0 ++ data) ++ tag_value first
          :: replicate (8 - length (d0 ++ data)) x00)), rest).
Proof.
  intros He -> Hd Hd0. unfold read_varlong, tag_value.
  rewrite He. rewrite (proj2 (Nat.ltb_ge 8 (S (length d0)))) by lia. cbn [Nat.eqb orb].
  erewrite parser_bind_ok
    by (rewrite app_comm_cons; apply read_exact_app; reflexivity).
  cbn [nth drop]. rewrite drop_0, He. rewrite copy_at_zero by lia.
  replace (S (length d0) - 1)%nat with (length d0) by lia.
  destruct (Nat.ltb_spec 0 (length data)) as [Hpos|Hz].
  - rewrite (proj2 (Nat.ltb_ge 9 _)) by lia.
    erewrite parser_bind_ok
      by (erewrite parser_bind_ok by (by apply read_exact_app); reflexivity).
    rewrite copy_at_fill by lia.
    replace (S (length d0) + length data - 1)%nat with (length (d0 ++ data))
      by (rewrite length_app; lia).
    rewrite insert_fill by (rewrite length_app; lia).
    replace (9 - S (length (d0 ++ data)))%nat with (8 - length (d0 ++ data))%nat by lia. done.
  - destruct data; [|simpl in *; lia]. erewrite parser_bind_ok by reflexivity.
    rewrite insert_fill by lia. rewrite app_nil_r. cbn [app].
    replace (9 - S (length d0))%nat with (8 - length d0)%nat by lia. done.
Qed.

(** The three kinds of tag byte a writer emits over a top byte [c], [n] bytes
    past the minimum. *)
Definition tag_full (n : nat) : byte := zb (not_u8 (Z.shiftl 1 (7 - Z.of_nat n) - 1)).
Definition tag_or (n : nat) (c : byte) : byte :=
  zb (Z.lor (uz c) (not_u8 (Z.shiftl 1 (7 - Z.of_nat n) * 2 - 1))).

Lemma tag_full_ok n : (n ≤ 5)%nat →
  extra_bytes (tag_full n) = S n ∧ tag_value (tag_full n) = x00.
Proof.
  intros Hn. do 6 (destruct n as [|n]; [by vm_compute|]). lia.
Qed.

Lemma tag_or_ok n c : (1 ≤ n ≤ 6)%nat → uz c < Z.shiftl 1 (7 - Z.of_nat n) →
  extra_bytes (tag_or n c) = n ∧ tag_value (tag_or n c) = c.
Proof.
  intros Hn Hc.
  assert (Hall : ∀ k, In k [1; 2; 3; 4; 5; 6]%nat → ∀ c,
    (Z.shiftl 1 (7 - Z.of_nat k) <=? uz c)
    || ((extra_bytes (tag_or k c) =? k)%nat && bool_decide (tag_value (tag_or k c) = c)) = true).
  { intros k Hk. apply byte_forall.
    simpl in Hk. repeat (destruct Hk as [<-|Hk]; [by vm_compute|]). done. }
  assert (Hin : In n [1; 2; 3; 4; 5; 6]%nat) by (simpl; lia).
  specialize (Hall n Hin c). rewrite (proj2 (Z.leb_gt _ _)) in Hall by done.
  cbn [orb] in Hall. apply andb_prop in Hall as [H1 H2].
  apply Nat.eqb_eq in H1. by apply bool_decide_eq_true in H2.
Qed.

Lemma tag_plain_ok c : uz c < 128 → extra_bytes c = 0%nat ∧ tag_value c = c.
Proof.
  intros Hc.
  assert (Hall : ∀ c, (128 <=? uz c)
    || ((extra_bytes c =? 0)%nat && bool_decide (tag_value c = c)) = true)
    by (apply byte_forall; by vm_compute).
  specialize (Hall c). rewrite (proj2 (Z.leb_gt _ _)) in Hall by done.
  cbn [orb] in Hall. apply andb_prop in Hall as [H1 H2].
  apply Nat.eqb_eq in H1. by apply bool_decide_eq_true in H2.
Qed.

(** Trimming stops at the last significant byte or at the minimum. *)
Lemma varlong_trim_spec min bytes cnt : (1 ≤ min ≤ cnt)%nat → (cnt ≤ length bytes)%nat →
  let n := varlong_trim min bytes cnt in
  (min ≤ n ≤ cnt)%nat ∧ take cnt bytes = take n bytes ++ replicate (cnt - n) x00 ∧
  (n = min ∨ bytes !! (n - 1)%nat ≠ Some x00).
Proof.
  revert min. induction cnt as [|c IH]; intros min Hm Hl; [lia|]. cbn [varlong_trim].
  destruct (Nat.ltb_spec min (S c)) as [Hlt|Hge]; cbn [andb].
  - destruct (Z.eqb_spec (uz (nth c bytes x00)) 0) as [Hz|Hnz].
    + destruct (IH min) as (Hr & Ht & Hlast); [lia|lia|]. split; [lia|]. split; [|done].
      assert (Hb : bytes !! c = Some x00).
      { destruct (lookup_lt_is_Some_2 bytes c) as [b Hb]; [lia|].
        rewrite (nth_lookup_Some _ _ _ _ Hb) in Hz. rewrite Hb. f_equal. by apply uz_inj. }
      rewrite (take_S_r _ _ _ Hb), Ht, <- app_assoc.
      f_equal. replace (S c - varlong_trim min bytes c)%nat
        with (S (c - varlong_trim min bytes c)) by lia. by rewrite replicate_S_end.
    + split; [lia|]. rewrite Nat.sub_diag, app_nil_r. split; [done|]. right.
      replace (S c - 1)%nat with c by lia. intros Hb. apply Hnz.
      by rewrite (nth_lookup_Some _ _ _ _ Hb).
  - split; [lia|]. rewrite Nat.sub_diag, app_nil_r. split; [done|]. left. lia.
Qed.

(** Putting the pieces back together gives the bytes of the value. *)
Lemma rebuild_full (bytes : list byte) n N K : length bytes = N → (n ≤ N)%nat → (N ≤ S K)%nat →
  bytes = take n bytes ++ replicate (N - n) x00 →
  take N (take n bytes ++ x00 :: replicate (K - n) x00) = bytes.
Proof.
  intros Hl Hn HK Hb. rewrite take_app. rewrite length_take_le by lia.
  rewrite (take_ge (take n bytes)) by (rewrite length_take; lia).
  change (x00 :: replicate (K - n) x00) with (replicate (S (K - n)) x00).
  rewrite take_replicate. rewrite Hb at 2. do 2 f_equal. lia.
Qed.

Lemma rebuild_top (bytes : list byte) n c N K : length bytes = N → (1 ≤ n ≤ N)%nat → (N ≤ S K)%nat →
  bytes = take n bytes ++ replicate (N - n) x00 → bytes !! (n - 1)%nat = Some c →
  take N (take (n - 1) bytes ++ c :: replicate (K - (n - 1)) x00) = bytes.
Proof.
  intros Hl Hn HK Hb Hc. replace (take (n - 1) bytes ++ c :: replicate (K - (n - 1)) x00)
    with (take n bytes ++ replicate (K - (n - 1)) x00).
  - rewrite take_app. rewrite length_take_le by lia.
    rewrite (take_ge (take n bytes)) by (rewrite length_take; lia).
    rewrite take_replicate. rewrite Hb at 2. do 2 f_equal. lia.
  - rewrite cons_middle, app_assoc. f_equal. rewrite <- take_S_r by done. f_equal. lia.
Qed.

(** The common form of both writers' output: [n] significant bytes out of a
    minimum of [min], tagged. *)
Definition tagged (bytes : list byte) (min n : nat) : list byte :=
  let c := nth (n - 1) bytes x00 in
  if Z.shiftl 1 (7 - Z.of_nat (n - min)) <=? uz c then tag_full (n - min) :: take n bytes
  else if (min <? n)%nat then tag_or (n - min) c :: take (n - 1) bytes
  else c :: take (n - 1) bytes.

Lemma tagged_parts bytes min n N K :
  length bytes = N → (1 ≤ min ≤ n)%nat → (n ≤ N)%nat → (N ≤ S K)%nat →
  bytes = take n bytes ++ replicate (N - n) x00 →
  (n - min ≤ 6)%nat → ((n - min = 6)%nat → uz (nth (n - 1) bytes x00) < 2) →
  ∃ first d, tagged bytes min n = first :: d ∧ length d = (min - 1 + extra_bytes first)%nat ∧
    (length d ≤ n)%nat ∧
    take N (d ++ tag_value first :: replicate (K - length d) x00) = bytes.
Proof.
  intros Hl Hm Hn HK Hb Hk6 Hk. unfold tagged.
  destruct (lookup_lt_is_Some_2 bytes (n - 1)%nat) as [c Hc]; [lia|].
  rewrite (nth_lookup_Some _ _ _ _ Hc) in *.
  destruct (Z.leb_spec (Z.shiftl 1 (7 - Z.of_nat (n - min))) (uz c)) as [Hge|Hlt].
  - assert (n - min ≤ 5)%nat.
    { destruct (decide (n - min = 6)%nat) as [E|]; [|lia]. rewrite E in Hge.
      specialize (Hk E). change (2 ≤ uz c) in Hge. lia. }
    destruct (tag_full_ok (n - min)) as [He Ht]; [lia|].
    exists (tag_full (n - min)), (take n bytes). rewrite He, Ht, length_take_le by lia.
    split_and!; [done|lia|lia|by apply rebuild_full].
  - assert (Hd : length (take (n - 1) bytes) = (n - 1)%nat) by (rewrite length_take; lia).
    destruct (Nat.ltb_spec min n) as [Hmn|Hmn].
    + destruct (tag_or_ok (n - min) c) as [He Ht]; [lia|done|].
      exists (tag_or (n - min) c), (take (n - 1) bytes). rewrite He, Ht, Hd.
      split_and!; [done|lia|lia|apply rebuild_top; solve [done|lia]].
    + replace (n - min)%nat with 0%nat in Hlt by lia. change (uz c < 128) in Hlt.
      destruct (tag_plain_ok c) as [He Ht]; [done|].
      exists c, (take (n - 1) bytes). rewrite He, Ht, Hd.
      split_and!; [done|lia|lia|apply rebuild_top; solve [done|lia]].
Qed.

Lemma encode_trim_eq x le cnt : encode_trim (x :: le) cnt = varlong_trim 1 le cnt.
Proof. induction cnt as [|c IH]; [done|]. cbn [encode_trim varlong_trim nth]. by rewrite IH. Qed.

Lemma write_varint_tagged v :
  write_varint v = tagged (le_bytes 4 v) 1 (varlong_trim 1 (le_bytes 4 v) 4).
Proof.
  unfold write_varint, encode_bytes.
  change (copy_at 1 (le_bytes 4 v) (replicate 5 x00)) with (x00 :: le_bytes 4 v).
  rewrite encode_trim_eq.
  assert (Hl : length (le_bytes 4 v) = 4%nat) by apply length_le_bytes.
  destruct (varlong_trim_spec 1 (le_bytes 4 v) 4) as (Hn & _); [lia|lia|].
  set (n := varlong_trim 1 (le_bytes 4 v) 4) in *. clearbody n. unfold tagged.
  generalize dependent (le_bytes 4 v). intros bytes Hl.
  destruct n as [|n]; [lia|]. cbn [nth]. replace (S n - 1)%nat with n by lia.
  unfold tag_full, tag_or. destruct (_ <=? _); [done|].
  destruct (Nat.ltb_spec 1 (S n)) as [Hlt|Hge].
  - rewrite (Z.shiftl_mul_pow2 _ 1) by lia. done.
  - replace n with 0%nat by lia. done.
Qed.

Lemma write_varlong_tagged v min : (1 ≤ min ≤ 8)%nat →
  write_varlong v min = Some (tagged (le_bytes 8 v) min (varlong_trim min (le_bytes 8 v) 8)).
Proof.
  intros Hm. unfold write_varlong.
  assert (Hl : length (le_bytes 8 v) = 8%nat) by apply length_le_bytes.
  destruct (varlong_trim_spec min (le_bytes 8 v) 8) as (Hn & _); [lia|lia|].
  set (n := varlong_trim min (le_bytes 8 v) 8) in *. clearbody n. unfold tagged.
  generalize dependent (le_bytes 8 v). intros bytes Hl.
  rewrite (proj2 (Nat.eqb_neq n 0)), (proj2 (Nat.ltb_ge (7 + min) n)),
    (proj2 (Nat.leb_gt 8 (7 + min - n))) by lia. cbn [orb].
  replace (7 + Z.of_nat min - Z.of_nat n) with (7 - Z.of_nat (n - min)) by lia.
  destruct (_ <=? _).
  - cbn. by rewrite Nat.sub_0_r.
  - destruct (min <? n)%nat; [done|]. by rewrite zb_uz.
Qed.

Lemma read_varint_write v rest : in_i 32 v →
  read_varint (write_varint v ++ rest) = Ok (v, rest) ∧ (1 ≤ length (write_varint v) ≤ 5)%nat.
Proof.
  intros Hv. rewrite write_varint_tagged.
  assert (Hl : length (le_bytes 4 v) = 4%nat) by apply length_le_bytes.
  destruct (varlong_trim_spec 1 (le_bytes 4 v) 4) as (Hn & Ht & _); [lia|lia|].
  rewrite take_ge in Ht by lia.
  destruct (tagged_parts (le_bytes 4 v) 1 (varlong_trim 1 (le_bytes 4 v) 4) 4 4)
    as (first & d & -> & Hd & Hdn & Hb); [lia..|done|lia|lia|].
  cbn [app length]. split; [|lia]. rewrite read_varint_tag by lia.
  rewrite Hb. by rewrite i32_from_le_bytes.
Qed.

(** Every 32-bit integer survives the variable-length encoding: reading
    back what was written gives the value and exactly the bytes after it, and
    the encoding takes one to five bytes. *)
Theorem varint_roundtrip (v : Z) (rest : list byte) : in_i 32 v →
  read_varint (write_varint v ++ rest) = Ok (v, rest) ∧ (1 ≤ length (write_varint v) ≤ 5)%nat.
Proof. apply read_varint_write. Qed.

Lemma varint_roundtrip_witness :
  in_i 32 (-129) ∧ read_varint (write_varint (-129) ++ [x61]) = Ok (-129, [x61]).
Proof.
  split; [unfold in_i; lia|].
  apply (proj1 (varint_roundtrip (-129) [x61] ltac:(unfold in_i; lia))).
Defined.

Lemma le_val_ge bytes i c : bytes !! i = Some c → uz c * 256 ^ Z.of_nat i ≤ le_val bytes.
Proof.
  revert i. induction bytes as [|b bytes IH]; intros [|i] Hi; try done; cbn [le_val].
  - injection Hi as ->. pose proof (le_val_nonneg bytes). lia.
  - apply IH in Hi. pose proof (uz_range b).
    rewrite Nat2Z.inj_succ, Z.pow_succ_r by lia. lia.
Qed.

(** How far past the minimum a value reaches: the tag byte has room for six
    extra bytes. *)
Lemma varlong_reach v min : in_i 64 v → (1 ≤ min ≤ 8)%nat →
  ((3 ≤ min)%nat ∨ 0 ≤ v < 2 ^ (8 * (Z.of_nat min + 5) + 1)) →
  let n := varlong_trim min (le_bytes 8 v) 8 in
  (n - min ≤ 6)%nat ∧ ((n - min = 6)%nat → uz (nth (n - 1) (le_bytes 8 v) x00) < 2).
Proof.
  intros Hi Hm Hv n.
  assert (Hl : length (le_bytes 8 v) = 8%nat) by apply length_le_bytes.
  destruct (varlong_trim_spec min (le_bytes 8 v) 8) as (Hn & _ & Hlast); [lia|lia|].
  fold n in Hn, Hlast. destruct Hv as [?|Hv]; [lia|].
  destruct (lookup_lt_is_Some_2 (le_bytes 8 v) (n - 1)%nat) as [c Hc]; [lia|].
  rewrite (nth_lookup_Some _ _ _ _ Hc). rewrite Hc in Hlast.
  pose proof (le_val_ge _ _ _ Hc) as Hge. rewrite le_val_le_bytes in Hge.
  rewrite Z.mod_small in Hge by (unfold in_i in Hi; change (256 ^ Z.of_nat 8) with (2 ^ 64); lia).
  pose proof (uz_range c).
  assert (Hpos : n ≠ min → 1 ≤ uz c).
  { intros. destruct Hlast as [?|Hlast]; [done|].
    destruct (decide (uz c = 0)) as [E|]; [|lia]. destruct Hlast. f_equal. by apply uz_inj. }
  destruct (decide (3 ≤ min)%nat); [lia|].
  assert (Hmin : min = 1%nat ∨ min = 2%nat) by lia.
  destruct (decide (n ≤ 6 + min)%nat) as [Hle|Hgt].
  - split; [lia|]. intros E. destruct Hmin as [-> | ->].
    + replace n with 7%nat in Hge by lia. change (256 ^ Z.of_nat (7 - 1)) with (2 ^ 48) in Hge.
      change (2 ^ (8 * (Z.of_nat 1 + 5) + 1)) with (2 ^ 48 * 2) in Hv. lia.
    + replace n with 8%nat in Hge by lia. change (256 ^ Z.of_nat (8 - 1)) with (2 ^ 56) in Hge.
      change (2 ^ (8 * (Z.of_nat 2 + 5) + 1)) with (2 ^ 56 * 2) in Hv. lia.
  - assert (min = 1%nat ∧ n = 8%nat) as [-> E] by lia. rewrite E in Hge, Hpos.
    specialize (Hpos ltac:(lia)). change (256 ^ Z.of_nat (8 - 1)) with (2 ^ 49 * 2 ^ 7) in Hge.
    change (2 ^ (8 * (Z.of_nat 1 + 5) + 1)) with (2 ^ 49) in Hv. lia.
Qed.

Lemma read_varlong_write v min rest : in_i 64 v → (1 ≤ min ≤ 8)%nat →
  ((3 ≤ min)%nat ∨ 0 ≤ v < 2 ^ (8 * (Z.of_nat min + 5) + 1)) →
  ∃ out, write_varlong v min = Some out ∧ (min ≤ length out ≤ 9)%nat ∧
    read_varlong min (out ++ rest) = Ok (v, rest).
Proof.
  intros Hi Hm Hv. rewrite write_varlong_tagged by done.
  assert (Hl : length (le_bytes 8 v) = 8%nat) by apply length_le_bytes.
  destruct (varlong_trim_spec min (le_bytes 8 v) 8) as (Hn & Ht & _); [lia|lia|].
  rewrite take_ge in Ht by lia.
  destruct (varlong_reach v min Hi Hm Hv) as [H6 H7].
  destruct (tagged_parts (le_bytes 8 v) min (varlong_trim min (le_bytes 8 v) 8) 8 8)
    as (first & d & -> & Hd & Hdn & Hb); [lia..|done|done|done|].
  eexists. split; [done|]. cbn [app length]. split; [lia|].
  rewrite <- (take_drop (min - 1) d). rewrite <- app_assoc.
  rewrite read_varlong_tag by (rewrite ?length_take, ?length_drop; lia).
  rewrite take_drop, Hb. by rewrite i64_from_le_bytes.
Qed.

(** every 64-bit integer survives the varlong encoding with a minimum of
    three to eight bytes, and with a minimum of one or two bytes every
    non-negative value below [2 ^ (8 * (min + 5) + 1)] does. *)
Theorem varlong_roundtrip (v : Z) (min : nat) (rest : list byte) :
  in_i 64 v → (1 ≤ min ≤ 8)%nat →
  ((3 ≤ min)%nat ∨ 0 ≤ v < 2 ^ (8 * (Z.of_nat min + 5) + 1)) →
  ∃ out, write_varlong v min = Some out ∧ (min ≤ length out ≤ 9)%nat ∧
    read_varlong min (out ++ rest) = Ok (v, rest).
Proof. apply read_varlong_write. Qed.

Lemma varlong_roundtrip_witness :
  in_i 64 (-1) ∧ ∃ out, write_varlong (-1) 3 = Some out ∧ (3 ≤ length out ≤ 9)%nat ∧
    read_varlong 3 (out ++ [x07]) = Ok (-1, [x07]).
Proof.
  split; [unfold in_i; lia|].
  apply (varlong_roundtrip (-1) 3 [x07]); [unfold in_i; lia|lia|left; lia].
Defined.

(** The bound is tight: with a one-byte minimum the writer emits a tag whose
    extra-byte count the reader's table cannot express. *)
Lemma varlong_min_one_not_inverse :
  write_varlong (2 ^ 49) 1 = Some [xfe; x00; x00; x00; x00; x00; x00; x02] ∧
  read_varlong 1 [xfe; x00; x00; x00; x00; x00; x00; x02] = Ok (2 ^ 49, [x02]).
Proof. split; vm_compute; reflexivity. Qed.

Lemma read_varint_cons first s :
  read_varint (first :: s) =
    if (MAX_EXTRA_BYTES <? extra_bytes first)%nat then Err InvalidData
    else if (length s <? extra_bytes first)%nat then Err UnexpectedEof
    else Ok (i32_from_le (take 4 (take (extra_bytes first) s ++ tag_value first
               :: replicate (4 - extra_bytes first) x00)), drop (extra_bytes first) s).
Proof.
  destruct (Nat.ltb_spec MAX_EXTRA_BYTES (extra_bytes first)) as [Hgt|Hle].
  - unfold read_varint. erewrite parser_bind_ok by done.
    by rewrite (proj2 (Nat.ltb_lt _ _)).
  - destruct (Nat.ltb_spec (length s) (extra_bytes first)) as [Hs|Hs].
    + unfold read_varint. erewrite parser_bind_ok by done.
      rewrite (proj2 (Nat.ltb_ge _ _)) by done. rewrite (proj2 (Nat.ltb_lt 0 _)) by lia.
      apply parser_bind_err, parser_bind_err. by apply read_exact_short.
    + unfold MAX_EXTRA_BYTES in Hle.
      rewrite <- (take_drop (extra_bytes first) s) at 1.
      rewrite read_varint_tag; rewrite length_take_le by lia; done.
Qed.

(** The slice decoder and the stream decoder are the same function: same
    value, same remaining bytes and same error on every input. *)
Lemma decode_varint_agrees (bytes : list byte) : decode_varint bytes = read_varint bytes.
Proof.
  destruct bytes as [|first s]; [done|]. rewrite read_varint_cons.
  unfold decode_varint, decode_bytes. destruct (_ <? _)%nat eqn:E; [done|].
  apply Nat.ltb_ge in E. unfold MAX_EXTRA_BYTES in E.
  change (length (first :: s) <? 1 + extra_bytes first)%nat
    with (length s <? extra_bytes first)%nat.
  destruct (Nat.ltb_spec (length s) (extra_bytes first)) as [|Hs]; [done|].
  cbn [drop]. do 2 f_equal. unfold tag_value.
  destruct (Nat.ltb_spec 0 (extra_bytes first)) as [Hp|Hz].
  - rewrite copy_at_zero by (rewrite length_take; lia).
    assert (Hl : length (take (extra_bytes first) s) = extra_bytes first)
      by (rewrite length_take; lia).
    rewrite <- Hl at 1. rewrite insert_fill by lia. rewrite Hl. done.
  - replace (extra_bytes first) with 0%nat by lia. done.
Qed.

(** Which tag bytes the varint reader refuses, and what it takes. *)
Lemma read_varint_range s v rest : read_varint s = Ok (v, rest) → in_i 32 v.
Proof.
  destruct s as [|first s]; [done|]. rewrite read_varint_cons.
  destruct (_ <? _)%nat; [done|]. destruct (_ <? _)%nat; [done|]. intros [= <- _].
  apply swrap_range. lia.
Qed.

Lemma read_varint_bounded_spec lo hi s :
  read_varint_bounded lo hi s =
    match read_varint s with
    | Ok (v, rest) => if decide (lo ≤ v ≤ hi) then Ok (v, rest) else Err ProtocolViolation
    | Err e => Err e
    end.
Proof.
  unfold read_varint_bounded. destruct (read_varint s) as [[v rest]|e] eqn:E.
  - erewrite parser_bind_ok by done. destruct (_ || _) eqn:Hb.
    + rewrite decide_False; [done|]. intros [??]. apply orb_prop in Hb as [Hb|Hb]; bool_to_prop; lia.
    + rewrite decide_True by (bool_to_prop; lia). done.
  - by erewrite parser_bind_err.
Qed.

(** The checked readers never let an out-of-range wire value through: a
    size is returned only when it is between zero and the limit, and every
    other decodable value is reported as a protocol violation. *)
Lemma read_varint_size_checked (max : Z) (v : Z) (rest : list byte) :
  in_i 32 v →
  read_varint_size max (write_varint v ++ rest) =
    if decide (0 ≤ v ≤ max) then Ok (v, rest) else Err ProtocolViolation.
Proof.
  intros Hv. change (read_varint_size max) with (read_varint_bounded 0 max).
  rewrite read_varint_bounded_spec, (proj1 (read_varint_write v rest Hv)). done.
Qed.

Lemma read_varint_size_checked_witness :
  in_i 32 (-5) ∧ read_varint_size 100 (write_varint (-5) ++ []) = Err ProtocolViolation.
Proof.
  split; [unfold in_i; lia|].
  apply (read_varint_size_checked 100 (-5) []). unfold in_i; lia.
Defined.

Lemma read_int_write v rest : in_i 32 v → read_int (write_int v ++ rest) = Ok (v, rest).
Proof.
  intros Hv. unfold read_int, write_int.
  erewrite parser_bind_ok by (apply read_exact_app, length_le_bytes).
  by rewrite i32_from_le_bytes.
Qed.

Lemma read_longint_write v rest : in_i 64 v → read_longint (write_longint v ++ rest) = Ok (v, rest).
Proof.
  intros Hv. unfold write_longint, read_longint.
  destruct ((0 <=? v) && (v <=? 2147483647)) eqn:Hs.
  - bool_to_prop. erewrite parser_bind_ok by (apply read_exact_app, length_le_bytes).
    rewrite i32_from_le_bytes by (unfold in_i; lia).
    by rewrite (proj2 (Z.eqb_neq _ _)) by lia.
  - rewrite <- app_assoc. erewrite parser_bind_ok by (apply read_exact_app, length_le_bytes).
    change (i32_from_le (le_bytes 4 4294967295)) with (-1). cbn [Z.eqb Pos.eqb].
    erewrite parser_bind_ok by (apply read_exact_app, length_le_bytes).
    by rewrite i64_from_le_bytes.
Qed.

(** The fixed and legacy encodings round trip too, and the versioned
    integer does at every protocol version, on either side of the switch at
    protocol 30. *)
Lemma legacy_integer_roundtrip (v w : Z) (version : Z) (rest : list byte) :
  in_i 32 v → in_i 64 w →
  read_int (write_int v ++ rest) = Ok (v, rest) ∧
  read_longint (write_longint w ++ rest) = Ok (w, rest) ∧
  read_varint30_int version (write_varint30_int v version ++ rest) = Ok (v, rest).
Proof.
  intros Hv Hw. split_and!; [by apply read_int_write|by apply read_longint_write|].
  unfold read_varint30_int, write_varint30_int. destruct (version <? 30).
  - by apply read_int_write.
  - by apply read_varint_write.
Qed.

Lemma legacy_integer_roundtrip_witness :
  in_i 32 (-7) ∧ in_i 64 (2 ^ 40) ∧
  read_longint (write_longint (2 ^ 40) ++ [x01]) = Ok (2 ^ 40, [x01]).
Proof.
  split; [unfold in_i; lia|]. split; [unfold in_i; lia|].
  apply (proj1 (proj2 (legacy_integer_roundtrip (-7) (2 ^ 40) 29 [x01]
    ltac:(unfold in_i; lia) ltac:(unfold in_i; lia)))).
Defined.

#[export] Hint Resolve read_int_write read_longint_write : wire.
