(* ===== verification/WireDelta.v ===== *)
(** * Delta and signature wire formats ([crates/protocol/src/wire/])

    The token stream of [delta/token.rs] (the format rsync peers exchange), the
    opcode format of [delta/internal.rs], and the block list of [signature.rs].
    A writer is the bytes it writes; a reader is a [parser].  [reads p bs a] says
    that the parser takes exactly the bytes [bs] and returns [a]; the lemmas of
    the hint database [wire] compose it along binds, so that each round trip
    follows the structure of its writer. *)

From S2P Require Import Prelude Varint.

Local Open Scope Z_scope.

(** ** Data *)

Definition TOKEN_CHUNK_SIZE : nat := 32 * 1024.

Inductive DeltaOp :=
| WLiteral (data : list byte)
| WCopy (block_index length : Z).

#[export] Instance DeltaOp_eq_dec : EqDecision DeltaOp.
Proof. solve_decision. Defined.

Record WireBlock := mkWireBlock {
  wb_index : Z;
  wb_rolling_sum : Z;
  wb_strong_sum : list byte;
}.

(** ** The token stream *)

Definition wire_write_int (value : Z) : list byte := le_bytes 4 value.

Definition wire_read_int : parser Z := buf ← read_exact 4; mret (i32_from_le buf).

(** [while offset < data.len()]; [fuel] is the length of the data. *)
Fixpoint literal_chunks (fuel : nat) (data : list byte) : list byte :=
  match fuel with
  | O => []
  | S fuel' =>
      match data with
      | [] => []
      | _ =>
          let chunk_len := (length data `min` TOKEN_CHUNK_SIZE)%nat in
          wire_write_int (swrap 32 (Z.of_nat chunk_len)) ++ take chunk_len data
            ++ literal_chunks fuel' (drop chunk_len data)
      end
  end.

Definition write_token_literal (data : list byte) : list byte := literal_chunks (length data) data.

(** The [i32] arithmetic of a build without overflow checks. *)
Definition write_token_block_match (block_index : Z) : list byte :=
  let token := swrap 32 (- swrap 32 (swrap 32 block_index + 1)) in
  wire_write_int token.

Definition write_token_end : list byte := wire_write_int 0.

Definition write_whole_file_delta (data : list byte) : list byte :=
  write_token_literal data ++ write_token_end.

Definition write_op_token (op : DeltaOp) : list byte :=
  match op with
  | WLiteral data => write_token_literal data
  | WCopy block_index _ => write_token_block_match block_index
  end.

Definition write_token_stream (ops : list DeltaOp) : list byte :=
  concat (map write_op_token ops) ++ write_token_end.

Definition read_token : parser (option Z) :=
  token ← wire_read_int; mret (if token =? 0 then None else Some token).

Definition check_literal_token_len (len : Z) : result io_error unit :=
  if swrap 32 (Z.of_nat TOKEN_CHUNK_SIZE) <? len then Err ProtocolViolation else Ok tt.

(** ** The opcode format *)

Definition write_delta_op (op : DeltaOp) : list byte :=
  match op with
  | WLiteral data => [x00] ++ write_varint (swrap 32 (Z.of_nat (length data))) ++ data
  | WCopy block_index len => [x01] ++ write_varint (swrap 32 block_index) ++ write_varint (swrap 32 len)
  end.

Definition read_delta_op : parser DeltaOp :=
  opcode ← read_u8;
  if uz opcode =? 0 then
    raw_length ← read_varint;
    if raw_length <? 0 then fail InvalidData
    else data ← read_exact (Z.to_nat raw_length); mret (WLiteral data)
  else if uz opcode =? 1 then
    block_index ← read_varint;
    len ← read_varint;
    mret (WCopy (wrap 32 block_index) (wrap 32 len))
  else fail InvalidData.

Definition write_delta (ops : list DeltaOp) : list byte :=
  write_varint (swrap 32 (Z.of_nat (length ops))) ++ concat (map write_delta_op ops).

Fixpoint read_ops (count : nat) : parser (list DeltaOp) :=
  match count with
  | O => mret []
  | S count' => op ← read_delta_op; ops ← read_ops count'; mret (op :: ops)
  end.

Definition read_delta : parser (list DeltaOp) :=
  raw_count ← read_varint;
  if raw_count <? 0 then fail InvalidData else read_ops (Z.to_nat raw_count).

(** ** Signatures *)

Fixpoint write_blocks (strong_sum_length : Z) (blocks : list WireBlock) : result io_error (list byte) :=
  match blocks with
  | [] => Ok []
  | block :: blocks' =>
      if negb (Z.of_nat (length (wb_strong_sum block)) =? strong_sum_length) then Err InvalidInput
      else
        match write_blocks strong_sum_length blocks' with
        | Ok bytes => Ok (le_bytes 4 (wb_rolling_sum block) ++ wb_strong_sum block ++ bytes)
        | Err e => Err e
        end
  end.

(** The bytes written; what was written before an error is not kept. *)
Definition write_signature (block_count block_length strong_sum_length : Z) (blocks : list WireBlock)
    : result io_error (list byte) :=
  match write_blocks strong_sum_length blocks with
  | Ok bytes =>
      Ok (write_varint (swrap 32 block_count) ++ write_varint (swrap 32 block_length)
            ++ write_varint (swrap 32 strong_sum_length) ++ bytes)
  | Err e => Err e
  end.

Fixpoint read_blocks (n : nat) (index strong_sum_length : Z) : parser (list WireBlock) :=
  match n with
  | O => mret []
  | S n' =>
      rolling_sum_bytes ← read_exact 4;
      strong_sum ← read_exact (Z.to_nat strong_sum_length);
      blocks ← read_blocks n' (index + 1) strong_sum_length;
      mret (mkWireBlock index (le_val rolling_sum_bytes) strong_sum :: blocks)
  end.

(** Block length, block count, checksum length, blocks. *)
Definition read_signature : parser (Z * Z * Z * list WireBlock) :=
  block_count ← read_varint;
  block_length ← read_varint;
  strong_sum_length ← read_varint;
  let block_count := wrap 32 block_count in
  let block_length := wrap 32 block_length in
  let strong_sum_length := wrap 8 strong_sum_length in
  blocks ← read_blocks (Z.to_nat block_count) 0 strong_sum_length;
  mret (block_length, block_count, strong_sum_length, blocks).

(** ** Exact reading *)

Definition reads {A} (p : parser A) (bs : list byte) (a : A) : Prop :=
  ∀ rest, p (bs ++ rest) = Ok (a, rest).

Lemma reads_ret {A} (a : A) : reads (mret a) [] a.
Proof. done. Qed.

Lemma reads_bind {A B} (p : parser A) (f : A → parser B) bs bs' a b :
  reads p bs a → reads (f a) bs' b → reads (p ≫= f) (bs ++ bs') b.
Proof. intros Hp Hf rest. rewrite <- app_assoc. by rewrite (parser_bind_ok _ _ _ _ _ (Hp _)). Qed.

(** The last step of a reader takes nothing more. *)
Lemma reads_last {A B} (p : parser A) (f : A → parser B) bs a b :
  reads p bs a → reads (f a) [] b → reads (p ≫= f) bs b.
Proof. intros Hp Hf. rewrite <- (app_nil_r bs). by eapply reads_bind. Qed.

Lemma reads_exact bs : reads (read_exact (length bs)) bs bs.
Proof. intros rest. by apply read_exact_app. Qed.

Lemma reads_exact_len bs n : length bs = n → reads (read_exact n) bs bs.
Proof. intros <-. apply reads_exact. Qed.

Lemma reads_u8 b : reads read_u8 [b] b.
Proof. done. Qed.

Lemma reads_varint v : in_i 32 v → reads read_varint (write_varint v) v.
Proof. intros Hv rest. by apply read_varint_write. Qed.

Lemma reads_int v : in_i 32 v → reads wire_read_int (wire_write_int v) v.
Proof.
  intros Hv. apply reads_last with (le_bytes 4 v); [apply reads_exact_len, length_le_bytes|].
  rewrite i32_from_le_bytes by done. apply reads_ret.
Qed.

#[export] Hint Resolve reads_ret reads_exact reads_u8 reads_varint reads_int : wire.

(** A [u32] sent as an [i32] and cast back. *)
Lemma u32_i32_u32 z : in_u 32 z → in_i 32 (swrap 32 z) ∧ wrap 32 (swrap 32 z) = z.
Proof.
  intros Hz. split; [by apply swrap_range|].
  rewrite <- (wrap_small 32 z Hz) at 2. apply cong_wrap_eq, cong_swrap. lia.
Qed.

(** ** Round trips *)

Definition op_fits (op : DeltaOp) : Prop :=
  match op with
  | WLiteral data => Z.of_nat (length data) ≤ i32_max
  | WCopy block_index len => in_u 32 block_index ∧ in_u 32 len
  end.

Lemma small_i32 z : 0 ≤ z ≤ i32_max → swrap 32 z = z ∧ in_i 32 z.
Proof.
  intros Hz. assert (in_i 32 z) by (unfold in_i, i32_max in *; lia).
  by rewrite swrap_small by (done || lia).
Qed.

Lemma reads_delta_op op : op_fits op → reads read_delta_op (write_delta_op op) op.
Proof.
  destruct op as [data|i len]; intros Hop; unfold write_delta_op, read_delta_op;
    (eapply reads_bind; [apply reads_u8|]).
  - cbn [op_fits] in Hop. destruct (small_i32 (Z.of_nat (length data))) as [-> Hi]; [lia|].
    change (uz x00 =? 0) with true. cbv iota. eapply reads_bind; [by apply reads_varint|].
    rewrite (proj2 (Z.ltb_ge _ _)), Nat2Z.id by lia. eapply reads_last; auto with wire.
  - destruct Hop as [Hi Hl]. destruct (u32_i32_u32 _ Hi) as [Hi1 Hi2], (u32_i32_u32 _ Hl) as [Hl1 Hl2].
    change (uz x01 =? 0) with false. change (uz x01 =? 1) with true. cbv iota.
    eapply reads_bind; [by apply reads_varint|]. eapply reads_last; [by apply reads_varint|].
    rewrite Hi2, Hl2. apply reads_ret.
Qed.

Lemma reads_ops ops : Forall op_fits ops →
  reads (read_ops (length ops)) (concat (map write_delta_op ops)) ops.
Proof.
  induction 1 as [|op ops Hop Hops IH]; [apply reads_ret|]. cbn [length map concat read_ops].
  eapply reads_bind; [by apply reads_delta_op|]. eapply reads_last; [done|]. apply reads_ret.
Qed.

(** A delta written in the opcode format reads back as the same operations,
    leaving what follows it, for literals and counts that fit the format. *)
Theorem wire_delta_roundtrip (ops : list DeltaOp) (rest : list byte) :
  Forall op_fits ops → Z.of_nat (length ops) ≤ i32_max →
  read_delta (write_delta ops ++ rest) = Ok (ops, rest).
Proof.
  intros Hops Hlen. revert rest. change (reads read_delta (write_delta ops) ops).
  destruct (small_i32 (Z.of_nat (length ops))) as [Hw Hi]; [lia|].
  unfold read_delta, write_delta. rewrite Hw. eapply reads_bind; [by apply reads_varint|].
  rewrite (proj2 (Z.ltb_ge _ _)), Nat2Z.id by lia. by apply reads_ops.
Qed.

Lemma wire_delta_roundtrip_witness :
  read_delta (write_delta [WLiteral [x61; x62]; WCopy 4294967295 700] ++ [x07])
  = Ok ([WLiteral [x61; x62]; WCopy 4294967295 700], [x07]).
Proof.
  apply (wire_delta_roundtrip [WLiteral [x61; x62]; WCopy 4294967295 700] [x07]).
  - apply Forall_cons; split; [simpl; unfold i32_max; lia|].
    apply Forall_cons; split; [split; unfold in_u; lia|done].
  - unfold i32_max. simpl. lia.
Defined.

Lemma write_blocks_reads len blocks index : 0 ≤ len →
  Forall (λ b, in_u 32 (wb_rolling_sum b)) blocks →
  (∀ k b, blocks !! k = Some b → wb_index b = index + Z.of_nat k) →
  (∃ bytes, write_blocks len blocks = Ok bytes ∧ reads (read_blocks (length blocks) index len) bytes blocks ∧
     Forall (λ b, Z.of_nat (length (wb_strong_sum b)) = len) blocks) ∨
  (write_blocks len blocks = Err InvalidInput ∧
     Exists (λ b, Z.of_nat (length (wb_strong_sum b)) ≠ len) blocks).
Proof.
  intros Hlen Hr. revert index. induction Hr as [|b blocks Hb Hr IH]; intros index Hix.
  { left. exists []. split_and!; [done|apply reads_ret|done]. }
  cbn [write_blocks length read_blocks].
  destruct (Z.eqb_spec (Z.of_nat (length (wb_strong_sum b))) len) as [Hs|Hs]; cbn [negb].
  - destruct (IH (index + 1)) as [(bytes & -> & Hreads & Hall)|[-> Hex]].
    { intros k c Hk. rewrite (Hix (S k) c Hk). lia. }
    + left. eexists. split_and!; [done| |by constructor].
      eapply reads_bind; [apply reads_exact_len, length_le_bytes|].
      eapply reads_bind; [apply reads_exact_len; lia|]. eapply reads_last; [done|].
      rewrite le_val_le_bytes. change (256 ^ Z.of_nat 4) with (2 ^ 32).
      rewrite Z.mod_small by done. pose proof (Hix 0%nat b eq_refl) as Hi. rewrite Z.add_0_r in Hi.
      rewrite <- Hi. destruct b. apply reads_ret.
    + right. split; [done|]. by apply Exists_cons_tl.
  - right. split; [done|]. by apply Exists_cons_hd.
Qed.

(** a signature header and its blocks read back as they were written, and a
    block whose strong sum has the wrong length is refused by the writer. *)
Theorem wire_signature_roundtrip (block_length strong_sum_length : Z) (blocks : list WireBlock)
    (rest : list byte) :
  in_u 32 block_length → in_u 8 strong_sum_length → Z.of_nat (length blocks) ≤ u32_max →
  Forall (λ b, in_u 32 (wb_rolling_sum b)) blocks →
  (∀ k b, blocks !! k = Some b → wb_index b = Z.of_nat k) →
  match write_signature (Z.of_nat (length blocks)) block_length strong_sum_length blocks with
  | Ok bytes =>
      read_signature (bytes ++ rest)
      = Ok ((block_length, Z.of_nat (length blocks), strong_sum_length, blocks), rest)
  | Err e => e = InvalidInput ∧ Exists (λ b, Z.of_nat (length (wb_strong_sum b)) ≠ strong_sum_length) blocks
  end.
Proof.
  intros Hbl Hss Hn Hr Hix. unfold write_signature.
  destruct (write_blocks_reads strong_sum_length blocks 0) as [(bytes & -> & Hreads & _)|[-> Hex]];
    [unfold in_u in Hss; lia|done|done| |done].
  revert rest. match goal with |- ∀ rest, ?p (?bs ++ rest) = Ok (?a, rest) => change (reads p bs a) end.
  assert (in_u 32 (Z.of_nat (length blocks))) as Hc by (unfold in_u, u32_max in *; lia).
  destruct (u32_i32_u32 _ Hc) as [Hc1 Hc2], (u32_i32_u32 _ Hbl) as [Hb1 Hb2].
  assert (0 ≤ strong_sum_length ≤ i32_max) as Hs by (unfold in_u, i32_max in *; lia).
  destruct (small_i32 _ Hs) as [Hs1 Hs2].
  unfold read_signature. rewrite Hs1.
  do 3 (eapply reads_bind; [by apply reads_varint|]).
  rewrite Hc2, Hb2, (wrap_small 8), Nat2Z.id by done.
  eapply reads_last; [done|]. apply reads_ret.
Qed.

Definition demo_wire_blocks : list WireBlock :=
  [mkWireBlock 0 4000000000 [x01; x02]; mkWireBlock 1 7 [x03; x04]].

Lemma wire_signature_roundtrip_witness :
  ∃ bytes, write_signature 2 700 2 demo_wire_blocks = Ok bytes ∧
    read_signature (bytes ++ [x09]) = Ok ((700, 2, 2, demo_wire_blocks), [x09]).
Proof.
  eexists. split; [vm_compute; reflexivity|].
  apply (wire_signature_roundtrip 700 2 demo_wire_blocks [x09]); [unfold in_u; lia..| | |].
  - unfold u32_max. simpl. lia.
  - apply Forall_cons; split; [unfold in_u; simpl; lia|].
    apply Forall_cons; split; [unfold in_u; simpl; lia|done].
  - intros [|[|k]] b Hk; simpl in Hk; simplify_eq; done.
Defined.
