(* ===== verification/Strong.v ===== *)
(** * Strong checksums ([crates/checksums/src/strong/], [crates/signature/src/algorithm.rs])

    The seeding wrappers around the hash crates ([md4.rs], [md5.rs], [sha1.rs],
    [xxhash.rs]) and [SignatureAlgorithm]: the truncated digest of a block, of a
    block that wraps around a ring buffer (two slices, streamed), and of a batch
    of blocks.  The hash functions come from third-party crates: they are the
    class [HashCrates], with their documented streaming behaviour and digest
    widths as [HashCratesLaws].  The theorems show that the three ways of hashing
    agree, for every algorithm and every way of seeding. *)

From S2P Require Import Prelude.

Local Open Scope Z_scope.

(** ** The hash crates *)

(** A streaming hasher: [new], [update], [finalize]. *)
Record hash_backend := mkBackend {
  hb_state : Type;
  hb_new : hb_state;
  hb_update : hb_state → list byte → hb_state;
  hb_finish : hb_state → list byte;
}.

Class HashCrates := {
  md4_crate : hash_backend;
  md5_crate : hash_backend;
  sha1_crate : hash_backend;
  xxh64_crate : Z → hash_backend;
  xxh64_oneshot : Z → list byte → list byte;
  xxh3_crate : Z → hash_backend;
  xxh3_oneshot : Z → list byte → list byte;
  xxh3_128_crate : Z → hash_backend;
  xxh3_128_oneshot : Z → list byte → list byte;
  (** The multi-lane batch routines of [simd_batch]. *)
  md4_digest_batch : list (list byte) → list (list byte);
  md5_digest_batch : list (list byte) → list (list byte);
}.

(** Hashing in pieces is hashing the concatenation; digests have [n] bytes. *)
Definition backend_ok (b : hash_backend) (n : nat) : Prop :=
  (∀ chunks, hb_finish b (foldl (hb_update b) (hb_new b) chunks)
             = hb_finish b (hb_update b (hb_new b) (concat chunks))) ∧
  (∀ s, length (hb_finish b s) = n).

(** [StrongDigest::digest] of a hasher without a seed. *)
Definition backend_digest (b : hash_backend) (data : list byte) : list byte :=
  hb_finish b (hb_update b (hb_new b) data).

Class HashCratesLaws `{HashCrates} : Prop := {
  md4_ok : backend_ok md4_crate 16;
  md5_ok : backend_ok md5_crate 16;
  sha1_ok : backend_ok sha1_crate 20;
  xxh64_ok : ∀ seed, backend_ok (xxh64_crate seed) 8;
  xxh3_ok : ∀ seed, backend_ok (xxh3_crate seed) 8;
  xxh3_128_ok : ∀ seed, backend_ok (xxh3_128_crate seed) 16;
  xxh64_oneshot_ok : ∀ seed data, xxh64_oneshot seed data = backend_digest (xxh64_crate seed) data;
  xxh3_oneshot_ok : ∀ seed data, xxh3_oneshot seed data = backend_digest (xxh3_crate seed) data;
  xxh3_128_oneshot_ok : ∀ seed data,
    xxh3_128_oneshot seed data = backend_digest (xxh3_128_crate seed) data;
  md4_batch_ok : ∀ blocks, md4_digest_batch blocks = map (backend_digest md4_crate) blocks;
  md5_batch_ok : ∀ blocks, md5_digest_batch blocks = map (backend_digest md5_crate) blocks;
}.

(** ** Digests and algorithms *)

Definition DIGEST_MAX_LEN : nat := 20.

(** [DigestBuf]: the bytes in use. *)
Definition digestbuf_from_slice (src : list byte) (len : nat) : list byte :=
  take (len `min` length src `min` DIGEST_MAX_LEN)%nat src.

Record Md5Seed := mkMd5Seed { seed_value : option Z; seed_proper_order : bool }.

Inductive SignatureAlgorithm :=
| Md4
| Md4Seeded (seed : Z)
| Md5 (seed_config : Md5Seed)
| Sha1
| Xxh64 (seed : Z)
| Xxh3 (seed : Z)
| Xxh3_128 (seed : Z).

Definition digest_len (a : SignatureAlgorithm) : nat :=
  match a with
  | Md4 | Md4Seeded _ | Md5 _ => 16%nat
  | Sha1 => 20%nat
  | Xxh64 _ | Xxh3 _ => 8%nat
  | Xxh3_128 _ => 16%nat
  end.

Section Algorithms.
Context `{HashCrates}.

Definition md4_digest_with_seed (seed : Z) (data : list byte) : list byte :=
  let hasher := hb_update md4_crate (hb_new md4_crate) data in
  let hasher := if negb (seed =? 0) then hb_update md4_crate hasher (le_bytes 4 seed) else hasher in
  hb_finish md4_crate hasher.

(** [Md5]: the inner hasher and the seed to append. *)
Record md5_hasher := mkMd5 { md5_inner : hb_state md5_crate; md5_pending_seed : option Z }.

Definition md5_with_seed (seed : Md5Seed) : md5_hasher :=
  match seed_value seed with
  | Some value =>
      if negb (value =? 0) then
        if seed_proper_order seed
        then mkMd5 (hb_update md5_crate (hb_new md5_crate) (le_bytes 4 value)) None
        else mkMd5 (hb_new md5_crate) (Some value)
      else mkMd5 (hb_new md5_crate) None
  | None => mkMd5 (hb_new md5_crate) None
  end.

Definition md5_update (h : md5_hasher) (data : list byte) : md5_hasher :=
  mkMd5 (hb_update md5_crate (md5_inner h) data) (md5_pending_seed h).

Definition md5_finalize (h : md5_hasher) : list byte :=
  let h := match md5_pending_seed h with Some seed => md5_update h (le_bytes 4 seed) | None => h end in
  hb_finish md5_crate (md5_inner h).

Definition md5_digest_with_seed (seed : Md5Seed) (data : list byte) : list byte :=
  md5_finalize (md5_update (md5_with_seed seed) data).

Definition compute_truncated (a : SignatureAlgorithm) (data : list byte) (len : nat) : list byte :=
  let effective_len := (len `min` digest_len a `min` DIGEST_MAX_LEN)%nat in
  match a with
  | Md4 => digestbuf_from_slice (backend_digest md4_crate data) effective_len
  | Md4Seeded seed => digestbuf_from_slice (md4_digest_with_seed seed data) effective_len
  | Md5 seed_config => digestbuf_from_slice (md5_digest_with_seed seed_config data) effective_len
  | Sha1 => digestbuf_from_slice (backend_digest sha1_crate data) effective_len
  | Xxh64 seed => digestbuf_from_slice (xxh64_oneshot seed data) effective_len
  | Xxh3 seed => digestbuf_from_slice (xxh3_oneshot seed data) effective_len
  | Xxh3_128 seed => digestbuf_from_slice (xxh3_128_oneshot seed data) effective_len
  end.

Definition compute_truncated_batch (a : SignatureAlgorithm) (blocks : list (list byte)) (len : nat)
    : list (list byte) :=
  let effective_len := (len `min` digest_len a `min` DIGEST_MAX_LEN)%nat in
  match a with
  | Md4 => map (λ d, digestbuf_from_slice d effective_len) (md4_digest_batch blocks)
  | Md5 (mkMd5Seed None _) => map (λ d, digestbuf_from_slice d effective_len) (md5_digest_batch blocks)
  | _ => map (λ data, compute_truncated a data len) blocks
  end.

(** [h.update(a); h.update(b); h.finalize()]. *)
Definition two_slices (b : hash_backend) (x y : list byte) : list byte :=
  hb_finish b (hb_update b (hb_update b (hb_new b) x) y).

Definition compute_truncated_slices (a : SignatureAlgorithm) (x y : list byte) (len : nat)
    : list byte :=
  match y with
  | [] => compute_truncated a x len
  | _ =>
      let effective_len := (len `min` digest_len a `min` DIGEST_MAX_LEN)%nat in
      match a with
      | Md4 => digestbuf_from_slice (two_slices md4_crate x y) effective_len
      | Md4Seeded seed =>
          let h := hb_update md4_crate (hb_update md4_crate (hb_new md4_crate) x) y in
          let h := if negb (seed =? 0) then hb_update md4_crate h (le_bytes 4 seed) else h in
          digestbuf_from_slice (hb_finish md4_crate h) effective_len
      | Md5 seed_config =>
          digestbuf_from_slice
            (md5_finalize (md5_update (md5_update (md5_with_seed seed_config) x) y)) effective_len
      | Sha1 => digestbuf_from_slice (two_slices sha1_crate x y) effective_len
      | Xxh64 seed => digestbuf_from_slice (two_slices (xxh64_crate seed) x y) effective_len
      | Xxh3 seed => digestbuf_from_slice (two_slices (xxh3_crate seed) x y) effective_len
      | Xxh3_128 seed => digestbuf_from_slice (two_slices (xxh3_128_crate seed) x y) effective_len
      end
  end.

(** ** Agreement *)

Section Laws.
Context `{!HashCratesLaws}.

Lemma backend_chunks b n c1 c2 : backend_ok b n → concat c1 = concat c2 →
  hb_finish b (foldl (hb_update b) (hb_new b) c1) = hb_finish b (foldl (hb_update b) (hb_new b) c2).
Proof. intros [Hs _] E. by rewrite !Hs, E. Qed.

Lemma two_slices_ok b n x y : backend_ok b n → two_slices b x y = backend_digest b (x ++ y).
Proof.
  intros Hb. apply (backend_chunks b n [x; y] [x ++ y] Hb). cbn [concat]. by rewrite ?app_nil_r, ?app_assoc.
Qed.

Lemma md4_seeded_slices seed x y :
  (let h := hb_update md4_crate (hb_update md4_crate (hb_new md4_crate) x) y in
   let h := if negb (seed =? 0) then hb_update md4_crate h (le_bytes 4 seed) else h in
   hb_finish md4_crate h) = md4_digest_with_seed seed (x ++ y).
Proof.
  unfold md4_digest_with_seed. destruct (negb _); cbv zeta.
  - apply (backend_chunks md4_crate 16 [x; y; le_bytes 4 seed] [x ++ y; le_bytes 4 seed] md4_ok).
    cbn [concat]. by rewrite ?app_nil_r, ?app_assoc.
  - apply (backend_chunks md4_crate 16 [x; y] [x ++ y] md4_ok). cbn [concat]. by rewrite ?app_nil_r, ?app_assoc.
Qed.

Lemma md5_slices seed x y :
  md5_finalize (md5_update (md5_update (md5_with_seed seed) x) y) = md5_digest_with_seed seed (x ++ y).
Proof.
  unfold md5_digest_with_seed, md5_with_seed.
  destruct seed as [[value|] proper]; cbn [seed_value seed_proper_order];
    [destruct (negb _); [destruct proper|]|]; unfold md5_finalize, md5_update; cbn [md5_pending_seed md5_inner].
  - apply (backend_chunks md5_crate 16 [le_bytes 4 value; x; y] [le_bytes 4 value; x ++ y] md5_ok).
    cbn [concat]. by rewrite ?app_nil_r, ?app_assoc.
  - apply (backend_chunks md5_crate 16 [x; y; le_bytes 4 value] [x ++ y; le_bytes 4 value] md5_ok).
    cbn [concat]. by rewrite ?app_nil_r, ?app_assoc.
  - apply (backend_chunks md5_crate 16 [x; y] [x ++ y] md5_ok). cbn [concat]. by rewrite ?app_nil_r, ?app_assoc.
  - apply (backend_chunks md5_crate 16 [x; y] [x ++ y] md5_ok). cbn [concat]. by rewrite ?app_nil_r, ?app_assoc.
Qed.

Lemma compute_slices_eq a x y len :
  compute_truncated_slices a x y len = compute_truncated a (x ++ y) len.
Proof.
  unfold compute_truncated_slices. destruct y as [|b y]; [by rewrite app_nil_r|].
  destruct a; cbn [compute_truncated]; f_equal.
  - by apply (two_slices_ok _ 16), md4_ok.
  - apply md4_seeded_slices.
  - apply md5_slices.
  - by apply (two_slices_ok _ 20), sha1_ok.
  - rewrite xxh64_oneshot_ok. by apply (two_slices_ok _ 8), xxh64_ok.
  - rewrite xxh3_oneshot_ok. by apply (two_slices_ok _ 8), xxh3_ok.
  - rewrite xxh3_128_oneshot_ok. by apply (two_slices_ok _ 16), xxh3_128_ok.
Qed.

Lemma compute_batch_eq a blocks len :
  compute_truncated_batch a blocks len = map (λ data, compute_truncated a data len) blocks.
Proof.
  destruct a as [| |[[v|] p]| | | |]; try done; cbn [compute_truncated_batch compute_truncated].
  - by rewrite md4_batch_ok, map_map.
  - rewrite md5_batch_ok, map_map. done.
Qed.

Lemma compute_truncated_length a data len :
  length (compute_truncated a data len) = (len `min` digest_len a)%nat.
Proof.
  assert (Hlen : length (compute_truncated a data len)
    = (len `min` digest_len a `min` DIGEST_MAX_LEN `min` digest_len a `min` DIGEST_MAX_LEN)%nat).
  { destruct a; cbn [compute_truncated]; unfold digestbuf_from_slice; rewrite length_take;
      unfold backend_digest, md4_digest_with_seed, md5_digest_with_seed, md5_finalize;
      rewrite ?xxh64_oneshot_ok, ?xxh3_oneshot_ok, ?xxh3_128_oneshot_ok; unfold backend_digest;
      rewrite ?(proj2 md4_ok), ?(proj2 md5_ok), ?(proj2 sha1_ok), ?(proj2 (xxh64_ok _)),
        ?(proj2 (xxh3_ok _)), ?(proj2 (xxh3_128_ok _)); unfold digest_len, DIGEST_MAX_LEN; lia. }
  rewrite Hlen. destruct a; unfold digest_len, DIGEST_MAX_LEN; lia.
Qed.

(** for every algorithm and seed, the digest streamed over the two halves of
    a wrapped window equals the digest of the window, a batch digests each
    block as on its own, and a digest has the requested length up to the width
    of the algorithm. *)
Theorem strong_digests_agree (a : SignatureAlgorithm) (x y : list byte)
    (blocks : list (list byte)) (len : nat) :
  compute_truncated_slices a x y len = compute_truncated a (x ++ y) len ∧
  compute_truncated_batch a blocks len = map (λ data, compute_truncated a data len) blocks ∧
  length (compute_truncated a x len) = (len `min` digest_len a)%nat.
Proof. split_and!; [apply compute_slices_eq|apply compute_batch_eq|apply compute_truncated_length]. Qed.
End Laws.
End Algorithms.

(** ** A concrete instance *)

(** A toy hash of [n] bytes: the running sum of the data, little-endian. *)
Definition toy_backend (n : nat) (seed : Z) : hash_backend :=
  {| hb_state := Z; hb_new := seed;
     hb_update s data := foldl (λ acc b, acc * 31 + uz b + 1) s data;
     hb_finish s := le_bytes n s |}.

Definition toy_crates : HashCrates :=
  {| md4_crate := toy_backend 16 1; md5_crate := toy_backend 16 2; sha1_crate := toy_backend 20 3;
     xxh64_crate := toy_backend 8; xxh64_oneshot s := backend_digest (toy_backend 8 s);
     xxh3_crate := toy_backend 8; xxh3_oneshot s := backend_digest (toy_backend 8 s);
     xxh3_128_crate := toy_backend 16; xxh3_128_oneshot s := backend_digest (toy_backend 16 s);
     md4_digest_batch := map (backend_digest (toy_backend 16 1));
     md5_digest_batch := map (backend_digest (toy_backend 16 2)) |}.

Lemma toy_backend_ok n seed : backend_ok (toy_backend n seed) n.
Proof.
  split; [|intros s; apply length_le_bytes]. intros chunks. simpl. f_equal. generalize seed.
  induction chunks as [|c cs IH]; intros s; [done|]. simpl. by rewrite IH, foldl_app.
Qed.

Lemma toy_crates_ok : @HashCratesLaws toy_crates.
Proof. split; try done; intros; apply toy_backend_ok. Qed.

Lemma strong_digests_agree_witness :
  @compute_truncated_slices toy_crates (Md5 (mkMd5Seed (Some 7) false)) [x01; x02] [x03] 5
  = @compute_truncated toy_crates (Md5 (mkMd5Seed (Some 7) false)) [x01; x02; x03] 5.
Proof.
  apply (proj1 (@strong_digests_agree toy_crates toy_crates_ok (Md5 (mkMd5Seed (Some 7) false))
    [x01; x02] [x03] [] 5)).
Defined.
