(* ===== verification/Signature.v ===== *)
(** * Signatures ([crates/signature/src/])

    Block sizing ([layout.rs], [block_size.rs]) and signature generation
    ([generation.rs], [block.rs], [file.rs]).  The theorems show that the bitwise
    square-root search computes the largest multiple of eight below the square
    root, that a layout always describes the file it was computed for and its
    strong-sum length is a valid one, and that the batched generator yields
    exactly one block per layout block, holding the checksums of that part of
    the file, or the right error when the file is shorter or longer. *)

From S2P Require Import Prelude Rolling Strong.

Local Open Scope Z_scope.

(** ** Layout *)

Definition BLOCK_SIZE : Z := 700.
Definition MAX_BLOCK_SIZE : Z := 2 ^ 17.
Definition OLD_MAX_BLOCK_SIZE : Z := 2 ^ 29.
Definition BLOCKSUM_BIAS : Z := 10.
Definition SUM_LENGTH : Z := 16.

Record SignatureLayoutParams := mkParams {
  lp_file_length : Z;
  lp_forced_block_length : option Z;
  lp_protocol : Z;
  lp_checksum_length : Z;
  lp_transfer_digest_length : Z;
}.

Record SignatureLayout := mkLayout {
  sl_block_length : Z;
  sl_remainder : Z;
  sl_block_count : Z;
  sl_strong_sum_length : Z;
}.

Inductive SignatureLayoutError :=
| FileTooLarge (length : Z)
| BlockCountOverflow (block_length blocks : Z).

Definition layout_file_size (l : SignatureLayout) : Z :=
  if sl_block_count l =? 0 then 0
  else if sl_remainder l =? 0 then sl_block_count l * sl_block_length l
  else (sl_block_count l - 1) * sl_block_length l + sl_remainder l.

Definition max_block_for (protocol : Z) : Z :=
  if protocol <? 30 then OLD_MAX_BLOCK_SIZE else MAX_BLOCK_SIZE.

(** [while l >> 2 != 0 { c <<= 1; l >>= 2; }]; a [u64] has at most 31 turns. *)
Fixpoint sqrt_bound (fuel : nat) (c l : Z) : Z :=
  match fuel with
  | O => c
  | S f => if negb (Z.shiftr l 2 =? 0) then sqrt_bound f (Z.shiftl c 1) (Z.shiftr l 2) else c
  end.

(** [while current >= 8 { ... current >>= 1; }]. *)
Fixpoint sqrt_search (fuel : nat) (file_length block_length current : Z) : Z :=
  match fuel with
  | O => block_length
  | S f =>
      if 8 <=? current then
        let candidate := Z.lor block_length current in
        let block_length :=
          if file_length <? candidate * candidate then Z.ldiff candidate current else candidate in
        sqrt_search f file_length block_length (Z.shiftr current 1)
      else block_length
  end.

Definition derive_block_length (file_length protocol : Z) : Z :=
  if file_length <=? BLOCK_SIZE * BLOCK_SIZE then BLOCK_SIZE
  else
    let max_block_length := max_block_for protocol in
    let c := sqrt_bound 32 1 file_length in
    if max_block_length <=? c then max_block_length
    else
      let block_length := sqrt_search 64 file_length 0 c in
      wrap 32 (Z.max block_length BLOCK_SIZE).

(** [while l >> 1 != 0 { l >>= 1; bias += 2; }]. *)
Fixpoint bias_up (fuel : nat) (l bias : Z) : Z :=
  match fuel with
  | O => bias
  | S f => if negb (Z.shiftr l 1 =? 0) then bias_up f (Z.shiftr l 1) (bias + 2) else bias
  end.

(** [while current >> 1 != 0 && bias > 0 { current >>= 1; bias -= 1; }]. *)
Fixpoint bias_down (fuel : nat) (current bias : Z) : Z :=
  match fuel with
  | O => bias
  | S f =>
      if negb (Z.shiftr current 1 =? 0) && (0 <? bias)
      then bias_down f (Z.shiftr current 1) (bias - 1) else bias
  end.

Definition derive_strong_sum_length
    (file_length block_length protocol checksum_length transfer_digest_length : Z) : Z :=
  if protocol <? 27 then checksum_length
  else
    let max_s2length := Z.min SUM_LENGTH transfer_digest_length in
    if checksum_length =? SUM_LENGTH then max_s2length
    else
      let bias := bias_up 64 file_length BLOCKSUM_BIAS in
      let bias := bias_down 32 block_length bias in
      let strong_len := Z.quot (bias + 1 - 32 + 7) 8 in
      let strong_len := if strong_len <? checksum_length then checksum_length else strong_len in
      if max_s2length <? strong_len then max_s2length else strong_len.

Definition calculate_signature_layout (params : SignatureLayoutParams)
    : result SignatureLayoutError SignatureLayout :=
  if i64_max <? lp_file_length params then Err (FileTooLarge (lp_file_length params))
  else
    let block_length :=
      match lp_forced_block_length params with
      | Some length => length
      | None => derive_block_length (lp_file_length params) (lp_protocol params)
      end in
    let max_block := max_block_for (lp_protocol params) in
    let block_length := if max_block <? block_length then max_block else block_length in
    let block_count := lp_file_length params / block_length in
    let remainder := wrap 32 (lp_file_length params mod block_length) in
    let block_count :=
      if negb (remainder =? 0) then saturating_add u64_max block_count 1 else block_count in
    if i32_max <? block_count then Err (BlockCountOverflow block_length block_count)
    else
      Ok (mkLayout block_length remainder block_count
            (derive_strong_sum_length (lp_file_length params) block_length (lp_protocol params)
               (lp_checksum_length params) (lp_transfer_digest_length params))).

(** ** [block_size.rs] *)

Definition calculate_checksum_count (file_size block_length : Z) : Z :=
  if file_size =? 0 then 0
  else
    let full_blocks := file_size / block_length in
    if file_size mod block_length =? 0 then full_blocks else full_blocks + 1.

Definition derive_block_length_sqrt (file_size protocol_version : Z) : Z :=
  if file_size <=? BLOCK_SIZE * BLOCK_SIZE then BLOCK_SIZE
  else
    let max_block_length := max_block_for protocol_version in
    let c := sqrt_bound 32 1 file_size in
    if max_block_length <=? c then max_block_length
    else wrap 32 (Z.max (sqrt_search 64 file_size 0 c) BLOCK_SIZE).

Definition calculate_block_length (file_size protocol_version : Z) (user_block_size : option Z) : Z :=
  let block_length :=
    match user_block_size with
    | Some user_size => user_size
    | None => derive_block_length_sqrt file_size protocol_version
    end in
  Z.min block_length (max_block_for protocol_version).

(** ** Signatures *)

Record SignatureBlock := mkBlock {
  sb_index : nat;
  sb_rolling : RollingDigest;
  sb_strong : list byte;
}.

Record FileSignature := mkSignature {
  fs_layout : SignatureLayout;
  fs_blocks : list SignatureBlock;
  fs_total_bytes : Z;
}.

Inductive SignatureError :=
| SigIo (e : io_error)
| DigestLengthMismatch (algorithm : SignatureAlgorithm) (requested : nat)
| TrailingData (bytes : Z)
| TooManyBlocks (blocks : Z).

Definition BATCH_SIZE : nat := 16.

Section Generation.
Context `{HasCpu} `{HashCrates}.

(** The blocks of one batch, read in order: the lengths follow the layout. *)
Fixpoint read_batch (layout : SignatureLayout) (expected : nat) (index count : nat)
    (total : Z) (reader : list byte) : result io_error (list (list byte) * Z * list byte) :=
  match count with
  | O => Ok ([], total, reader)
  | S count' =>
      let is_last := (index + 1 =? expected)%nat in
      let target_len :=
        Z.to_nat (if is_last && negb (sl_remainder layout =? 0)
                  then sl_remainder layout else sl_block_length layout) in
      match read_exact target_len reader with
      | Err e => Err e
      | Ok (chunk, reader') =>
          match read_batch layout expected (S index) count'
                  (saturating_add u64_max total (Z.of_nat target_len)) reader' with
          | Err e => Err e
          | Ok (chunks, total', reader'') => Ok (chunk :: chunks, total', reader'')
          end
      end
  end.

(** [while index < expected_blocks_usize]; [fuel] is the number of blocks left. *)
Fixpoint generate_loop (fuel : nat) (layout : SignatureLayout) (algorithm : SignatureAlgorithm)
    (expected batch_capacity strong_len index : nat) (blocks : list SignatureBlock)
    (total : Z) (reader : list byte)
    : result io_error (list SignatureBlock * Z * list byte) :=
  match fuel with
  | O => Ok (blocks, total, reader)
  | S fuel' =>
      if (index <? expected)%nat then
        let batch_end := ((index + batch_capacity) `min` expected)%nat in
        let batch_count := (batch_end - index)%nat in
        match read_batch layout expected index batch_count total reader with
        | Err e => Err e
        | Ok (chunks, total', reader') =>
            let batch_rolling := map digest_from_bytes chunks in
            let strong_digests := compute_truncated_batch algorithm chunks strong_len in
            let new_blocks :=
              zip_with (λ i rs, mkBlock i rs.1 rs.2) (seq index batch_count)
                (zip batch_rolling strong_digests) in
            generate_loop fuel' layout algorithm expected batch_capacity strong_len batch_end
              (blocks ++ new_blocks) total' reader'
        end
      else Ok (blocks, total, reader)
  end.

Definition generate_file_signature (reader : list byte) (layout : SignatureLayout)
    (algorithm : SignatureAlgorithm) : result SignatureError FileSignature :=
  let strong_len := Z.to_nat (sl_strong_sum_length layout) in
  if (digest_len algorithm <? strong_len)%nat
  then Err (DigestLengthMismatch algorithm strong_len)
  else if usize_max <? sl_block_count layout then Err (TooManyBlocks (sl_block_count layout))
  else
    let expected := Z.to_nat (sl_block_count layout) in
    let batch_capacity := Nat.max (Nat.min BATCH_SIZE expected) 1 in
    match generate_loop expected layout algorithm expected batch_capacity strong_len 0 [] 0 reader with
    | Err e => Err (SigIo e)
    | Ok (blocks, total, reader') =>
        match reader' with
        | [] => Ok (mkSignature layout blocks total)
        | _ => Err (TrailingData 1)
        end
    end.
End Generation.

(** ** The square-root search *)

Lemma shiftr_pow2_zero l k : 0 ≤ l → 0 ≤ k → (Z.shiftr l k =? 0) = (l <? 2 ^ k).
Proof.
  intros Hl Hk. rewrite Z.shiftr_div_pow2 by lia.
  destruct (Z.ltb_spec l (2 ^ k)).
  - apply Z.eqb_eq, Z.div_small. lia.
  - apply Z.eqb_neq. pose proof (Z.div_le_mono (2 ^ k) l (2 ^ k)). rewrite Z.div_same in * by lia. lia.
Qed.

(** [sqrt_bound] finds the power of two below the square root. *)
Lemma sqrt_bound_spec fuel i n : 0 < n → 0 ≤ i → 4 ^ i ≤ n → n < 4 ^ (i + Z.of_nat fuel + 1) →
  ∃ k, 0 ≤ k ∧ sqrt_bound fuel (2 ^ i) (Z.shiftr n (2 * i)) = 2 ^ k ∧ 4 ^ k ≤ n < 4 ^ (k + 1).
Proof.
  revert i. induction fuel as [|f IH]; intros i Hn Hi Hle Hlt; cbn [sqrt_bound].
  - exists i. rewrite Z.add_0_r in Hlt. done.
  - assert (H4 : ∀ j, 0 ≤ j → 4 ^ j = 2 ^ (2 * j)) by (intros; by rewrite Z.pow_mul_r).
    rewrite Z.shiftr_shiftr by lia. rewrite shiftr_pow2_zero by lia.
    replace (2 * i + 2) with (2 * (i + 1)) by lia.
    rewrite <- (H4 (i + 1)) by lia.
    destruct (Z.ltb_spec n (4 ^ (i + 1))) as [Hs|Hs]; cbn [negb].
    + exists i. done.
    + rewrite Z.shiftl_mul_pow2 by lia. rewrite <- Z.pow_add_r by lia.
      apply IH; try lia. replace (i + 1 + Z.of_nat f + 1) with (i + Z.of_nat (S f) + 1) by lia. done.
Qed.

Lemma ldiff_undo b c : Z.land b c = 0 → Z.ldiff (Z.lor b c) c = b.
Proof.
  intros Hd. apply Z.bits_inj'; intros n Hn. rewrite Z.ldiff_spec, Z.lor_spec.
  assert (Hb : Z.testbit (Z.land b c) n = false) by (rewrite Hd; apply Z.bits_0).
  rewrite Z.land_spec in Hb. by destruct (Z.testbit b n), (Z.testbit c n).
Qed.

(** One bit of the search. *)
Lemma sqrt_search_spec fuel n m k : 0 ≤ m → 0 ≤ n → 2 ≤ k → k < Z.of_nat fuel + 2 →
  (m * 2 ^ (k + 1)) ^ 2 ≤ n < ((m + 1) * 2 ^ (k + 1)) ^ 2 →
  ∃ q, 0 ≤ q ∧ sqrt_search fuel n (m * 2 ^ (k + 1)) (2 ^ k) = q * 8 ∧
    (q * 8) ^ 2 ≤ n < ((q + 1) * 8) ^ 2.
Proof.
  revert m k. induction fuel as [|f IH]; intros m k Hm Hn Hk Hf Hb; [lia|]. cbn [sqrt_search].
  destruct (Z.eq_dec k 2) as [->|Hk2].
  - change (8 <=? 2 ^ 2) with false. exists m. done.
  - assert (H8 : 2 ^ 3 ≤ 2 ^ k) by (apply Z.pow_le_mono_r; lia).
    rewrite (proj2 (Z.leb_le 8 (2 ^ k))) by (change 8 with (2 ^ 3); lia).
    assert (Hpk : 0 < 2 ^ k) by lia. assert (Hk1 : 2 ^ (k + 1) = 2 * 2 ^ k) by (rewrite Z.pow_add_r by lia; lia).
    rewrite lor_low by lia.
    assert (Hs : Z.shiftr (2 ^ k) 1 = 2 ^ (k - 1))
      by (rewrite Z.shiftr_div_pow2 by lia; rewrite <- Z.pow_sub_r by lia; done).
    rewrite Hs. destruct (Z.ltb_spec n ((m * 2 ^ (k + 1) + 2 ^ k) * (m * 2 ^ (k + 1) + 2 ^ k))) as [Hlt|Hge].
    + replace (Z.ldiff (m * 2 ^ (k + 1) + 2 ^ k) (2 ^ k)) with ((2 * m) * 2 ^ (k - 1 + 1)).
      * apply IH; try lia. replace (k - 1 + 1) with k by lia. rewrite Hk1 in *.
        split; [replace (2 * m * 2 ^ k) with (m * (2 * 2 ^ k)) by lia; lia|].
        replace ((2 * m + 1) * 2 ^ k) with (m * (2 * 2 ^ k) + 2 ^ k) by lia.
        rewrite Z.pow_2_r. lia.
      * rewrite <- lor_low by lia. rewrite ldiff_undo by (apply land_low_disjoint; lia).
        replace (k - 1 + 1) with k by lia. lia.
    + replace (m * 2 ^ (k + 1) + 2 ^ k) with ((2 * m + 1) * 2 ^ (k - 1 + 1))
        by (replace (k - 1 + 1) with k by lia; lia).
      apply IH; try lia. replace (k - 1 + 1) with k by lia. rewrite Hk1 in *.
      split; [replace ((2 * m + 1) * 2 ^ k) with (m * (2 * 2 ^ k) + 2 ^ k) by lia; rewrite Z.pow_2_r; lia|].
      replace ((2 * m + 1 + 1) * 2 ^ k) with ((m + 1) * (2 * 2 ^ k)) by lia. lia.
Qed.

(** The search against the square root. *)
Lemma sqrt_search_sqrt q n : 0 ≤ q → (q * 8) ^ 2 ≤ n < ((q + 1) * 8) ^ 2 → q * 8 = 8 * (Z.sqrt n / 8).
Proof.
  intros Hq [H1 H2]. assert (Hn : 0 ≤ n) by (pose proof (Z.pow_nonneg (q * 8) 2); lia).
  pose proof (Z.sqrt_spec n Hn) as [Ha Hb]. rewrite Z.pow_2_r in *.
  assert (q * 8 ≤ Z.sqrt n) by nia. assert (Z.sqrt n < (q + 1) * 8) by nia.
  assert (Z.sqrt n / 8 = q); [|lia]. symmetry. apply (Z.div_unique _ _ _ (Z.sqrt n - q * 8)); lia.
Qed.

Lemma derive_block_length_spec n protocol : 490000 < n < 2 ^ 64 →
  derive_block_length n protocol =
    if max_block_for protocol <=? 2 ^ (Z.log2 n / 2) then max_block_for protocol
    else Z.max BLOCK_SIZE (8 * (Z.sqrt n / 8)).
Proof.
  intros Hn. unfold derive_block_length, BLOCK_SIZE.
  rewrite (proj2 (Z.leb_gt n (700 * 700))) by lia.
  destruct (sqrt_bound_spec 32 0 n) as (k & Hk & Hc & Hle & Hlt); [lia|lia|lia|
    change (4 ^ (0 + Z.of_nat 32 + 1)) with (2 ^ 66); lia|].
  rewrite Z.mul_0_r, Z.shiftr_0_r in Hc. change (2 ^ 0) with 1 in Hc. rewrite Hc.
  assert (H4 : ∀ j, 0 ≤ j → 4 ^ j = 2 ^ (2 * j)) by (intros; by rewrite Z.pow_mul_r).
  rewrite !H4 in Hle, Hlt by lia.
  assert (Hlog : Z.log2 n / 2 = k).
  { assert (2 * k ≤ Z.log2 n) by (apply Z.log2_le_pow2; lia).
    assert (Z.log2 n < 2 * (k + 1)) by (apply Z.log2_lt_pow2; lia).
    symmetry. apply (Z.div_unique _ _ _ (Z.log2 n - 2 * k)); lia. }
  rewrite Hlog. destruct (Z.leb_spec (max_block_for protocol) (2 ^ k)) as [|Hmax]; [done|].
  assert (Hk32 : k < 32).
  { destruct (Z.lt_ge_cases k 32); [done|]. pose proof (Z.pow_le_mono_r 2 64 (2 * k)). lia. }
  assert (Hk2 : 2 ≤ k).
  { destruct (Z.le_gt_cases 2 k); [done|]. pose proof (Z.pow_le_mono_r 2 (2 * (k + 1)) 4). lia. }
  destruct (sqrt_search_spec 64 n 0 k) as (q & Hq & Hs & Hb); try lia.
  { split; [simpl; lia|]. rewrite Z.mul_1_l, <- Z.pow_mul_r by lia.
    replace ((k + 1) * 2) with (2 * (k + 1)) by lia. done. }
  rewrite Z.mul_0_l in Hs. rewrite Hs, (sqrt_search_sqrt q n) by done.
  rewrite Z.max_comm. apply wrap_small. unfold in_u.
  assert (Z.sqrt n < 2 ^ 32).
  { assert (Z.sqrt n ≤ Z.sqrt (2 ^ 64 - 1)) by (apply Z.sqrt_le_mono; lia).
    assert (Z.sqrt (2 ^ 64 - 1) = 2 ^ 32 - 1) by reflexivity. lia. }
  pose proof (Z.mul_div_le (Z.sqrt n) 8). pose proof (Z.sqrt_nonneg n).
  pose proof (Z.div_pos (Z.sqrt n) 8). lia.
Qed.

(** The block length of a large file is its square root rounded down to a
    multiple of eight, between the default and the protocol's maximum; small
    files use the default. *)
Theorem block_length_is_sqrt (n protocol : Z) : 0 ≤ n < 2 ^ 64 →
  derive_block_length n protocol =
    if n <=? 490000 then 700
    else if max_block_for protocol <=? 2 ^ (Z.log2 n / 2) then max_block_for protocol
    else Z.max 700 (8 * (Z.sqrt n / 8)).
Proof.
  intros Hn. destruct (Z.leb_spec n 490000).
  - unfold derive_block_length, BLOCK_SIZE. by rewrite (proj2 (Z.leb_le _ _)) by lia.
  - apply derive_block_length_spec. lia.
Qed.

Lemma block_length_is_sqrt_witness :
  0 ≤ 10485760 < 2 ^ 64 ∧ derive_block_length 10485760 31 = 3232.
Proof.
  split; [lia|]. rewrite (block_length_is_sqrt 10485760 31) by lia. vm_compute. reflexivity.
Defined.

(** ** Layouts *)

Lemma max_block_range protocol : 700 ≤ max_block_for protocol ≤ 2 ^ 29.
Proof. unfold max_block_for, OLD_MAX_BLOCK_SIZE, MAX_BLOCK_SIZE. destruct (_ <? _); lia. Qed.

Lemma derive_block_length_pos n protocol : 0 ≤ n < 2 ^ 64 → 700 ≤ derive_block_length n protocol.
Proof.
  intros Hn. destruct (Z.le_gt_cases n 490000).
  - unfold derive_block_length, BLOCK_SIZE. rewrite (proj2 (Z.leb_le _ _)) by lia. lia.
  - rewrite derive_block_length_spec by lia. pose proof (max_block_range protocol).
    unfold BLOCK_SIZE. destruct (_ <=? _); lia.
Qed.

Lemma bias_down_range fuel current bias : 0 ≤ bias → 0 ≤ bias_down fuel current bias ≤ bias.
Proof.
  revert current bias. induction fuel as [|f IH]; intros current bias Hb; cbn [bias_down]; [lia|].
  destruct (_ && _) eqn:E; [|lia]. bool_to_prop. specialize (IH (Z.shiftr current 1) (bias - 1)). lia.
Qed.

Lemma bias_up_ge fuel l bias : bias ≤ bias_up fuel l bias.
Proof.
  revert l bias. induction fuel as [|f IH]; intros l bias; cbn [bias_up]; [lia|].
  destruct (negb _); [|lia]. specialize (IH (Z.shiftr l 1) (bias + 2)). lia.
Qed.

(** The strong-sum length of modern protocols, whatever the bias. *)
Lemma strong_sum_range n bl protocol csum digest : 27 ≤ protocol → 1 ≤ csum ≤ 16 → 1 ≤ digest →
  let s := derive_strong_sum_length n bl protocol csum digest in
  1 ≤ s ≤ Z.min 16 digest ∧ Z.min csum (Z.min 16 digest) ≤ s.
Proof.
  intros Hp Hc Hd. unfold derive_strong_sum_length, SUM_LENGTH.
  rewrite (proj2 (Z.ltb_ge _ _)) by lia. destruct (Z.eqb_spec csum 16); [lia|].
  set (strong := Z.quot _ 8). destruct (Z.ltb_spec strong csum), (Z.ltb_spec (Z.min 16 digest) csum),
    (Z.ltb_spec (Z.min 16 digest) strong); lia.
Qed.

(** Parameters as the callers build them: a [u64] length, a non-zero [u32]
    override, a checksum length of 2 or 16 and a non-zero digest length. *)
Definition params_wf (p : SignatureLayoutParams) : Prop :=
  in_u 64 (lp_file_length p) ∧
  match lp_forced_block_length p with Some b => 0 < b < 2 ^ 32 | None => True end ∧
  27 ≤ lp_protocol p ∧ 1 ≤ lp_checksum_length p ≤ 16 ∧ 1 ≤ lp_transfer_digest_length p ≤ 255.

(** A layout that describes a file of [n] bytes. *)
Record layout_of (l : SignatureLayout) (n : Z) : Prop := {
  lo_block_length : 0 < sl_block_length l ≤ 2 ^ 29;
  lo_remainder : 0 ≤ sl_remainder l < sl_block_length l;
  lo_count : 0 ≤ sl_block_count l ≤ i32_max;
  lo_strong : 1 ≤ sl_strong_sum_length l ≤ 16;
  lo_remainder_eq : sl_remainder l = n mod sl_block_length l;
  lo_count_eq : sl_block_count l = (n + sl_block_length l - 1) / sl_block_length l;
}.

Lemma ceil_div n b : 0 ≤ n → 0 < b →
  (n + b - 1) / b = n / b + (if n mod b =? 0 then 0 else 1).
Proof.
  intros Hn Hb. pose proof (Z.div_mod n b ltac:(lia)) as Hdm. pose proof (Z.mod_pos_bound n b Hb).
  symmetry. destruct (Z.eqb_spec (n mod b) 0) as [E|E].
  - apply (Z.div_unique _ _ _ (b - 1)); lia.
  - apply (Z.div_unique _ _ _ (n mod b - 1)); lia.
Qed.

Lemma layout_file_size_of l n : layout_of l n → 0 ≤ n → layout_file_size l = n.
Proof.
  intros [Hb Hr Hc _ Hre Hce] Hn. unfold layout_file_size.
  rewrite ceil_div in Hce by lia. rewrite <- Hre in Hce.
  pose proof (Z.div_mod n (sl_block_length l) ltac:(lia)) as Hdm. rewrite <- Hre in Hdm.
  destruct (Z.eqb_spec (sl_remainder l) 0) as [E|E];
    destruct (Z.eqb_spec (sl_block_count l) 0) as [E0|E0]; nia.
Qed.

Lemma calculate_layout_of p : params_wf p →
  match calculate_signature_layout p with
  | Ok l => layout_of l (lp_file_length p) ∧
      sl_strong_sum_length l ≤ lp_transfer_digest_length p ∧ sl_block_length l ≤ max_block_for (lp_protocol p)
  | Err (FileTooLarge n) => n = lp_file_length p ∧ i64_max < n
  | Err (BlockCountOverflow b c) =>
      i32_max < c ∧ 0 < b ∧ c = (lp_file_length p + b - 1) / b
  end.
Proof.
  intros (Hlen & Hforced & Hp & Hc & Hd). unfold in_u in Hlen. unfold calculate_signature_layout.
  destruct (Z.ltb_spec i64_max (lp_file_length p)) as [|Hi]; [done|].
  set (b0 := match lp_forced_block_length p with Some l => l | None => _ end).
  pose proof (max_block_range (lp_protocol p)) as Hm.
  assert (Hb0 : 0 < b0).
  { unfold b0. destruct (lp_forced_block_length p); [lia|].
    pose proof (derive_block_length_pos (lp_file_length p) (lp_protocol p)). lia. }
  set (b := if max_block_for (lp_protocol p) <? b0 then max_block_for (lp_protocol p) else b0).
  assert (Hb : 0 < b ≤ max_block_for (lp_protocol p))
    by (unfold b; destruct (Z.ltb_spec (max_block_for (lp_protocol p)) b0); lia).
  pose proof (Z.mod_pos_bound (lp_file_length p) b ltac:(lia)) as Hr.
  rewrite (wrap_small 32) by (unfold in_u; lia).
  set (count := if negb (lp_file_length p mod b =? 0) then _ else _).
  assert (Hdle : 0 ≤ lp_file_length p / b ≤ lp_file_length p)
    by (split; [apply Z.div_pos; lia|apply Z.div_le_upper_bound; nia]).
  assert (Hcount : count = (lp_file_length p + b - 1) / b).
  { unfold count. rewrite ceil_div by lia. destruct (lp_file_length p mod b =? 0); cbn [negb]; [lia|].
    unfold saturating_add, u64_max, i64_max in *. lia. }
  destruct (Z.ltb_spec i32_max count) as [|Hcnt]; [split_and!; [done|lia|done]|].
  pose proof (strong_sum_range (lp_file_length p) b (lp_protocol p) (lp_checksum_length p)
    (lp_transfer_digest_length p) ltac:(lia) ltac:(lia) ltac:(lia)) as [Hs _].
  split; [|simpl; lia]. split; simpl; try done; try lia.
  rewrite Hcount in *. split; [apply Z.div_pos|]; lia.
Qed.

(** a computed layout describes its file exactly (block count, remainder and
    total size), stays within the protocol's limits, and has a strong-sum length
    between one byte and the negotiated digest width, so none of the internal
    conversions can fail; it is refused only for a file beyond [i64] or more
    than [i32::MAX] blocks. *)
Theorem layout_describes_file (p : SignatureLayoutParams) : params_wf p →
  match calculate_signature_layout p with
  | Ok l => layout_file_size l = lp_file_length p ∧ layout_of l (lp_file_length p) ∧
      sl_strong_sum_length l ≤ lp_transfer_digest_length p ∧
      sl_block_length l ≤ max_block_for (lp_protocol p)
  | Err (FileTooLarge n) => n = lp_file_length p ∧ i64_max < n
  | Err (BlockCountOverflow b c) =>
      i32_max < c ∧ 0 < b ∧ c = (lp_file_length p + b - 1) / b
  end.
Proof.
  intros Hp. pose proof (calculate_layout_of p Hp) as H.
  destruct (calculate_signature_layout p) as [l|[|]]; try done.
  destruct H as (Hl & Hs & Hm). split_and!; try done. apply layout_file_size_of; [done|].
  destruct Hp as [[? _] _]. done.
Qed.

Lemma layout_describes_file_witness :
  params_wf (mkParams 1000000 None 31 2 8) ∧
  match calculate_signature_layout (mkParams 1000000 None 31 2 8) with
  | Ok l => layout_file_size l = 1000000 ∧ layout_of l 1000000 ∧
      sl_strong_sum_length l ≤ 8 ∧ sl_block_length l ≤ max_block_for 31
  | Err (FileTooLarge n) => n = 1000000 ∧ i64_max < n
  | Err (BlockCountOverflow b c) => i32_max < c ∧ 0 < b ∧ c = (1000000 + b - 1) / b
  end.
Proof.
  assert (H : params_wf (mkParams 1000000 None 31 2 8)) by (repeat split; simpl; lia).
  split; [exact H|]. exact (layout_describes_file _ H).
Defined.

(** The two copies of the sizing heuristic agree. *)
Lemma block_size_copies_agree n protocol :
  derive_block_length_sqrt n protocol = derive_block_length n protocol.
Proof. done. Qed.

Lemma checksum_count_ceil n b : 0 ≤ n → 0 < b → calculate_checksum_count n b = (n + b - 1) / b.
Proof.
  intros Hn Hb. unfold calculate_checksum_count. rewrite ceil_div by lia.
  destruct (Z.eqb_spec n 0) as [->|]; [by rewrite Z.div_0_l, Z.mod_0_l by lia|].
  destruct (_ =? 0); lia.
Qed.

(** An explicit block size below the documented minimum is returned as it is. *)
Lemma user_block_size_not_raised : calculate_block_length 1024 31 (Some 10) = 10.
Proof. reflexivity. Qed.

(** ** Generation *)

Lemma zip_with_maps {A B C D} (g : A → B → C → D) (a : A → B) (b : A → C) l :
  zip_with (λ i rs, g i rs.1 rs.2) l (zip (map a l) (map b l)) = map (λ i, g i (a i) (b i)) l.
Proof. induction l as [|x l IH]; [done|]. cbn. by f_equal. Qed.

Section GenerationTheorems.
Context `{HasCpu} `{HashCratesLaws}.
Context (layout : SignatureLayout) (n : nat).
Hypothesis Hlayout : layout_of layout (Z.of_nat n).
Hypothesis Hn : Z.of_nat n ≤ u64_max.

Let B := Z.to_nat (sl_block_length layout).
Let expected := Z.to_nat (sl_block_count layout).

(** The part of the file block [i] covers. *)
Definition layout_chunk (l : SignatureLayout) (data : list byte) (i : nat) : list byte :=
  take (Z.to_nat (sl_block_length l)) (drop (i * Z.to_nat (sl_block_length l)) data).

Definition layout_block (algorithm : SignatureAlgorithm) (data : list byte) (i : nat)
    : SignatureBlock :=
  mkBlock i (digest_from_bytes (layout_chunk layout data i))
    (compute_truncated algorithm (layout_chunk layout data i)
       (Z.to_nat (sl_strong_sum_length layout))).

Lemma block_pos : (0 < B)%nat.
Proof. destruct Hlayout as [? ? ? ? ? ?]. unfold B. lia. Qed.

Lemma expected_bounds : (expected * B < n + B)%nat ∧ (n ≤ expected * B)%nat.
Proof.
  destruct Hlayout as [Hb Hr Hc _ Hre Hce]. unfold B, expected.
  rewrite ceil_div in Hce by lia. rewrite <- Hre in Hce.
  pose proof (Z.div_mod (Z.of_nat n) (sl_block_length layout) ltac:(lia)) as Hdm.
  rewrite <- Hre in Hdm. destruct (Z.eqb_spec (sl_remainder layout) 0); nia.
Qed.

(** Where block [i] starts. *)
Let pos (i : nat) : nat := ((i * B) `min` n)%nat.

Lemma target_len index : (index < expected)%nat →
  Z.to_nat (if (index + 1 =? expected)%nat && negb (sl_remainder layout =? 0)
            then sl_remainder layout else sl_block_length layout)
  = (pos (S index) - pos index)%nat.
Proof.
  intros Hi. destruct expected_bounds as [He1 He2].
  destruct Hlayout as [Hb Hr Hc _ Hre Hce].
  rewrite ceil_div in Hce by lia. rewrite <- Hre in Hce.
  pose proof (Z.div_mod (Z.of_nat n) (sl_block_length layout) ltac:(lia)) as Hdm.
  rewrite <- Hre in Hdm. unfold pos.
  assert (HB : Z.of_nat B = sl_block_length layout) by (unfold B; lia).
  assert (HE : Z.of_nat expected = sl_block_count layout) by (unfold expected; lia).
  assert (Hle : (S index * B ≤ expected * B)%nat) by (apply Nat.mul_le_mono_r; lia).
  destruct (Nat.eqb_spec (index + 1) expected) as [E|E]; cbn [andb].
  - destruct (Z.eqb_spec (sl_remainder layout) 0); cbn [negb]; fold B; nia.
  - assert (Hle' : (S (S index) * B ≤ expected * B)%nat) by (apply Nat.mul_le_mono_r; lia).
    fold B. lia.
Qed.

Lemma pos_expected : pos expected = n.
Proof. destruct expected_bounds. unfold pos. lia. Qed.

Lemma pos_mono i j : (i ≤ j)%nat → (pos i ≤ pos j)%nat.
Proof. intros Hij. unfold pos. assert (i * B ≤ j * B)%nat by (apply Nat.mul_le_mono_r; lia). lia. Qed.

Section Data.
Context (data : list byte).

Let part (i : nat) : list byte := take (pos (S i) - pos i) (drop (pos i) data).

Lemma read_batch_spec index count :
  (index + count ≤ expected)%nat → (pos index ≤ length data)%nat →
  read_batch layout expected index count (Z.of_nat (pos index)) (drop (pos index) data) =
    if decide (pos (index + count) ≤ length data)%nat
    then Ok (map part (seq index count), Z.of_nat (pos (index + count)),
             drop (pos (index + count)) data)
    else Err UnexpectedEof.
Proof.
  revert index. induction count as [|count IH]; intros index Hi Hp; cbn [read_batch].
  - rewrite Nat.add_0_r. by rewrite decide_True.
  - rewrite target_len by lia. pose proof (pos_mono index (S index) ltac:(lia)).
    pose proof (pos_mono (S index) (index + S count) ltac:(lia)).
    unfold read_exact. rewrite length_drop.
    destruct (decide (pos (S index) - pos index ≤ length data - pos index)%nat) as [Hd|Hd].
    + rewrite drop_drop. replace (pos index + (pos (S index) - pos index))%nat with (pos (S index)) by lia.
      assert (Hs : saturating_add u64_max (Z.of_nat (pos index)) (Z.of_nat (pos (S index) - pos index))
                   = Z.of_nat (pos (S index))).
      { unfold saturating_add. assert (pos (S index) ≤ n)%nat by (unfold pos; lia). lia. }
      rewrite Hs, IH by lia. replace (S index + count)%nat with (index + S count)%nat by lia.
      destruct (decide _); done.
    + rewrite decide_False by lia. done.
Qed.

Lemma read_batch_blocks algorithm strong_len index count :
  let chunks := map part (seq index count) in
  zip_with (λ i rs, mkBlock i rs.1 rs.2) (seq index count)
    (zip (map digest_from_bytes chunks) (compute_truncated_batch algorithm chunks strong_len))
  = map (λ i, mkBlock i (digest_from_bytes (part i)) (compute_truncated algorithm (part i) strong_len))
      (seq index count).
Proof. cbv zeta. rewrite compute_batch_eq, !map_map. apply zip_with_maps. Qed.

Lemma generate_loop_spec fuel algorithm capacity strong_len index blocks :
  (1 ≤ capacity)%nat → (expected - index ≤ fuel)%nat → (index ≤ expected)%nat →
  (pos index ≤ length data)%nat →
  generate_loop fuel layout algorithm expected capacity strong_len index blocks
    (Z.of_nat (pos index)) (drop (pos index) data) =
    if decide (n ≤ length data)%nat
    then Ok (blocks ++ map (λ i, mkBlock i (digest_from_bytes (part i))
                                  (compute_truncated algorithm (part i) strong_len))
                        (seq index (expected - index)), Z.of_nat n, drop n data)
    else Err UnexpectedEof.
Proof.
  intros Hcap. revert index blocks. induction fuel as [|fuel IH]; intros index blocks Hf Hi Hp;
    cbn [generate_loop].
  - assert (index = expected) as -> by lia. rewrite pos_expected in *.
    by rewrite decide_True, Nat.sub_diag, app_nil_r.
  - destruct (Nat.ltb_spec index expected) as [Hlt|Hge].
    + set (batch_end := ((index + capacity) `min` expected)%nat).
      rewrite read_batch_spec by lia.
      replace (index + (batch_end - index))%nat with batch_end by lia.
      destruct (decide (pos batch_end ≤ length data)%nat) as [Hd|Hd].
      * rewrite read_batch_blocks, IH by lia. destruct (decide _); [|done].
        replace (expected - index)%nat with ((batch_end - index) + (expected - batch_end))%nat by lia.
        rewrite seq_app, map_app, app_assoc.
        by replace (index + (batch_end - index))%nat with batch_end by lia.
      * pose proof (pos_mono batch_end expected ltac:(lia)). rewrite pos_expected in *.
        by rewrite decide_False by lia.
    + assert (index = expected) as -> by lia. rewrite pos_expected in *.
      by rewrite decide_True, Nat.sub_diag, app_nil_r.
Qed.

Lemma part_chunk i : length data = n → (i < expected)%nat → part i = layout_chunk layout data i.
Proof.
  intros Hd Hi. unfold part, layout_chunk. fold B.
  pose proof expected_bounds as [He1 He2].
  assert (Hle : (S i * B ≤ expected * B)%nat) by (apply Nat.mul_le_mono_r; lia).
  assert (Hpi : pos i = (i * B)%nat) by (unfold pos; lia). rewrite Hpi.
  destruct (Nat.le_gt_cases (S i * B) n) as [Hs|Hs].
  - f_equal. unfold pos. lia.
  - rewrite !take_ge; [done|..]; rewrite length_drop; unfold pos; lia.
Qed.
End Data.

Lemma generate_spec data algorithm :
  sl_strong_sum_length layout ≤ Z.of_nat (digest_len algorithm) →
  generate_file_signature data layout algorithm =
    if decide (length data = n)
    then Ok (mkSignature layout (map (layout_block algorithm data) (seq 0 expected)) (Z.of_nat n))
    else if decide (length data < n)%nat then Err (SigIo UnexpectedEof) else Err (TrailingData 1).
Proof.
  intros Hs. unfold generate_file_signature.
  rewrite (proj2 (Nat.ltb_ge _ _)) by lia.
  destruct Hlayout as [_ _ Hc Hst _ _].
  rewrite (proj2 (Z.ltb_ge _ _)) by (unfold usize_max, i32_max in *; lia). fold expected.
  pose proof (generate_loop_spec data expected algorithm (Nat.max (Nat.min BATCH_SIZE expected) 1)
    (Z.to_nat (sl_strong_sum_length layout)) 0 []) as Hg.
  change (pos 0) with 0%nat in Hg. rewrite drop_0, Nat.sub_0_r in Hg. change (Z.of_nat 0) with 0 in Hg. cbn [app] in Hg.
  rewrite Hg by lia. destruct (decide (n ≤ length data)%nat) as [Hle|Hgt].
  - destruct (decide (length data = n)) as [E|E].
    + rewrite drop_ge by lia. do 2 f_equal. apply map_ext_in. intros i Hin.
      apply in_seq in Hin. rewrite part_chunk by lia. done.
    + rewrite decide_False by lia. destruct (drop n data) eqn:Ed; [|done].
      apply (f_equal length) in Ed. rewrite length_drop in Ed. simpl in Ed. lia.
  - rewrite decide_False, decide_True by lia. done.
Qed.
End GenerationTheorems.

(** C37: reading a file through its layout yields one block per layout block, in
    order, each holding the rolling and strong checksum of exactly that part of
    the file, whatever the batching; a shorter file is an end-of-file error and
    a longer one a trailing-data error. *)
Theorem signature_describes_file `{HasCpu} `{HashCratesLaws}
    (layout : SignatureLayout) (n : nat) (data : list byte) (algorithm : SignatureAlgorithm) :
  layout_of layout (Z.of_nat n) → Z.of_nat n ≤ u64_max →
  sl_strong_sum_length layout ≤ Z.of_nat (digest_len algorithm) →
  generate_file_signature data layout algorithm =
    if decide (length data = n)
    then Ok (mkSignature layout
               (map (layout_block layout algorithm data) (seq 0 (Z.to_nat (sl_block_count layout))))
               (Z.of_nat n))
    else if decide (length data < n)%nat then Err (SigIo UnexpectedEof) else Err (TrailingData 1).
Proof. intros. by apply generate_spec. Qed.

Lemma signature_describes_file_witness :
  let cpu : HasCpu := OtherArch in let crates := toy_crates in
  let data := [x61; x62; x63; x64; x65] in
  layout_of (mkLayout 2 1 3 2) (Z.of_nat 5) ∧
  generate_file_signature data (mkLayout 2 1 3 2) Md4 =
    Ok (mkSignature (mkLayout 2 1 3 2)
          (map (layout_block (mkLayout 2 1 3 2) Md4 data) (seq 0 3)) 5).
Proof.
  intros cpu crates data.
  assert (Hl : layout_of (mkLayout 2 1 3 2) (Z.of_nat 5))
    by (split; simpl; unfold i32_max; try lia; reflexivity).
  split; [exact Hl|].
  exact (@signature_describes_file OtherArch toy_crates toy_crates_ok (mkLayout 2 1 3 2) 5 data Md4
    Hl ltac:(unfold u64_max; lia) ltac:(simpl; lia)).
Defined.
