(* ===== verification/SigParallel.v ===== *)
(** * Parallel signature generation ([crates/signature/src/parallel.rs])

    The whole-file, windowed and automatic generators, which read the blocks
    first and hash them in chunks on a thread pool.  The pool (rayon) is a
    parameter with the law its documentation states: collecting an indexed
    parallel iterator keeps the order.  The theorem: on every layout with at
    least one block, every generator returns exactly what the sequential one
    returns, errors included; the last lemma shows where they differ. *)

From S2P Require Import Prelude Rolling Strong Signature.
Local Open Scope Z_scope.

(** The thread pool. *)
Class Rayon := {
  current_num_threads : nat;
  par_flat_map : ∀ {A B : Type}, (nat → A → list B) → list A → list B;
}.

Class RayonLaws `{Rayon} : Prop := {
  par_flat_map_ordered : ∀ {A B} (f : nat → A → list B) l, par_flat_map f l = concat (imap f l);
}.

(** [par_chunks(n)]; [fuel] is the length of the list. *)
Fixpoint par_chunks {A} (fuel n : nat) (l : list A) : list (list A) :=
  match fuel with
  | O => []
  | S fuel' => match l with [] => [] | _ => take n l :: par_chunks fuel' n (drop n l) end
  end.

Definition WINDOW_BYTE_BUDGET : Z := 64 * 1024 * 1024.
Definition PARALLEL_THRESHOLD_BYTES : Z := 256 * 1024.

Section Parallel.
Context `{HasCpu} `{HashCrates} `{Rayon}.

(** The closure of [flat_map_iter]: the blocks of one chunk. *)
Definition chunk_signature (algorithm : SignatureAlgorithm) (strong_len base_index chunk_idx : nat)
    (chunk : list (list byte)) : list SignatureBlock :=
  let base_index := (base_index + chunk_idx * BATCH_SIZE)%nat in
  let rolling_digests := map digest_from_bytes chunk in
  let strong_digests := compute_truncated_batch algorithm chunk strong_len in
  imap (λ i rs, mkBlock (base_index + i) rs.1 rs.2) (zip rolling_digests strong_digests).

Definition hash_blocks (algorithm : SignatureAlgorithm) (strong_len base_index : nat)
    (block_data : list (list byte)) : list SignatureBlock :=
  par_flat_map (chunk_signature algorithm strong_len base_index)
    (par_chunks (length block_data) BATCH_SIZE block_data).

Definition generate_file_signature_parallel (reader : list byte) (layout : SignatureLayout)
    (algorithm : SignatureAlgorithm) : result SignatureError FileSignature :=
  let strong_len := Z.to_nat (sl_strong_sum_length layout) in
  if (digest_len algorithm <? strong_len)%nat
  then Err (DigestLengthMismatch algorithm strong_len)
  else if usize_max <? sl_block_count layout then Err (TooManyBlocks (sl_block_count layout))
  else
    let expected := Z.to_nat (sl_block_count layout) in
    if (expected =? 0)%nat then Ok (mkSignature layout [] 0)
    else
      match read_batch layout expected 0 expected 0 reader with
      | Err e => Err (SigIo e)
      | Ok (block_data, total, reader') =>
          match reader' with
          | _ :: _ => Err (TrailingData 1)
          | [] => Ok (mkSignature layout (hash_blocks algorithm strong_len 0 block_data) total)
          end
      end.

(** [while base_index < expected_blocks_usize]; [fuel] is the number of blocks. *)
Fixpoint window_loop (fuel : nat) (layout : SignatureLayout) (algorithm : SignatureAlgorithm)
    (expected window_blocks strong_len base_index : nat) (blocks : list SignatureBlock) (total : Z)
    (reader : list byte) : result io_error (list SignatureBlock * Z * list byte) :=
  match fuel with
  | O => Ok (blocks, total, reader)
  | S fuel' =>
      if (base_index <? expected)%nat then
        let window_end := ((base_index + window_blocks) `min` expected)%nat in
        match read_batch layout expected base_index (window_end - base_index) total reader with
        | Err e => Err e
        | Ok (window_data, total', reader') =>
            window_loop fuel' layout algorithm expected window_blocks strong_len window_end
              (blocks ++ hash_blocks algorithm strong_len base_index window_data) total' reader'
        end
      else Ok (blocks, total, reader)
  end.

Definition window_blocks_for (block_len : Z) (expected : nat) : nat :=
  let threads := (current_num_threads `max` 1)%nat in
  let budget_blocks := (Z.to_nat (WINDOW_BYTE_BUDGET / Z.max block_len 1) `max` BATCH_SIZE)%nat in
  ((threads * BATCH_SIZE) `max` BATCH_SIZE `min` budget_blocks `min` expected)%nat.

Definition generate_file_signature_windowed (reader : list byte) (layout : SignatureLayout)
    (algorithm : SignatureAlgorithm) : result SignatureError FileSignature :=
  let strong_len := Z.to_nat (sl_strong_sum_length layout) in
  if (digest_len algorithm <? strong_len)%nat
  then Err (DigestLengthMismatch algorithm strong_len)
  else if usize_max <? sl_block_count layout then Err (TooManyBlocks (sl_block_count layout))
  else
    let expected := Z.to_nat (sl_block_count layout) in
    if (expected =? 0)%nat then Ok (mkSignature layout [] 0)
    else
      let window_blocks := window_blocks_for (sl_block_length layout) expected in
      match window_loop expected layout algorithm expected window_blocks strong_len 0 [] 0 reader with
      | Err e => Err (SigIo e)
      | Ok (blocks, total, reader') =>
          match reader' with
          | _ :: _ => Err (TrailingData 1)
          | [] => Ok (mkSignature layout blocks total)
          end
      end.

Definition generate_file_signature_auto (reader : list byte) (layout : SignatureLayout)
    (algorithm : SignatureAlgorithm) : result SignatureError FileSignature :=
  let block_len := sl_block_length layout in
  let file_size :=
    if negb (sl_remainder layout =? 0)
    then saturating_add u64_max
           (Z.min u64_max (Z.max 0 (sl_block_count layout - 1) * block_len)) (sl_remainder layout)
    else Z.min u64_max (sl_block_count layout * block_len) in
  if PARALLEL_THRESHOLD_BYTES <=? file_size
  then generate_file_signature_parallel reader layout algorithm
  else generate_file_signature reader layout algorithm.
End Parallel.

(** ** Reading in pieces *)

Lemma read_batch_app layout expected a b : ∀ index total reader,
  read_batch layout expected index (a + b) total reader =
    match read_batch layout expected index a total reader with
    | Err e => Err e
    | Ok (c1, t1, r1) =>
        match read_batch layout expected (index + a) b t1 r1 with
        | Err e => Err e
        | Ok (c2, t2, r2) => Ok (c1 ++ c2, t2, r2)
        end
    end.
Proof.
  induction a as [|a IH]; intros index total reader; cbn [Nat.add read_batch].
  - rewrite Nat.add_0_r. by destruct (read_batch _ _ _ b _ _) as [[[? ?] ?]|].
  - set (n := Z.to_nat _). destruct (read_exact n reader) as [[c r]|e]; [|done].
    rewrite IH, Nat.add_succ_r. destruct (read_batch _ _ (S index) a _ r) as [[[c1 t1] r1]|e]; [|done].
    cbn [Nat.add]. by destruct (read_batch _ _ (S (index + a)) b t1 r1) as [[[c2 t2] r2]|e].
Qed.

Lemma read_batch_length layout expected count : ∀ index total reader chunks t r,
  read_batch layout expected index count total reader = Ok (chunks, t, r) → length chunks = count.
Proof.
  induction count as [|count IH]; intros index total reader chunks t r; cbn [read_batch].
  - by intros [= <- _ _].
  - destruct (read_exact _ reader) as [[c r1]|]; [|done].
    destruct (read_batch _ _ (S index) count _ r1) as [[[cs t'] r']|] eqn:E; [|done].
    intros [= <- _ _]. apply IH in E. simpl. by rewrite E.
Qed.

Section Proofs.
Context `{HasCpu} `{HashCratesLaws} `{RayonLaws}.
Context (algorithm : SignatureAlgorithm) (strong_len : nat).

(** The blocks of consecutive chunks of a file. *)
Definition blocks_at (base : nat) (chunks : list (list byte)) : list SignatureBlock :=
  imap (λ i c, mkBlock (base + i) (digest_from_bytes c) (compute_truncated algorithm c strong_len)) chunks.

Lemma blocks_at_app base c1 c2 :
  blocks_at base (c1 ++ c2) = blocks_at base c1 ++ blocks_at (base + length c1) c2.
Proof.
  unfold blocks_at. rewrite imap_app. f_equal. apply imap_ext. intros i c _. simpl. f_equal. lia.
Qed.

Lemma batch_blocks_at base chunks :
  zip_with (λ i rs, mkBlock i rs.1 rs.2) (seq base (length chunks))
    (zip (map digest_from_bytes chunks) (compute_truncated_batch algorithm chunks strong_len))
  = blocks_at base chunks.
Proof.
  rewrite compute_batch_eq. revert base. induction chunks as [|c chunks IH]; intros base; [done|].
  unfold blocks_at in *. cbn [length seq map zip zip_with imap fst snd]. rewrite Nat.add_0_r. f_equal.
  rewrite IH. apply imap_ext. intros i x _. simpl. f_equal. lia.
Qed.

Lemma chunk_signature_at base idx chunk :
  chunk_signature algorithm strong_len base idx chunk = blocks_at (base + idx * BATCH_SIZE) chunk.
Proof.
  unfold chunk_signature, blocks_at. rewrite compute_batch_eq, zip_with_fmap_r, zip_with_fmap_l.
  assert (E : ∀ l : list (list byte), zip_with (λ x y, (digest_from_bytes x,
    compute_truncated algorithm y strong_len)) l l
    = (λ c, (digest_from_bytes c, compute_truncated algorithm c strong_len)) <$> l).
  { induction l as [|x l IH]; [done|]. cbn. by f_equal. }
  rewrite E, imap_fmap. done.
Qed.

Lemma chunked_blocks_at fuel base chunks : (length chunks ≤ fuel)%nat →
  concat (imap (chunk_signature algorithm strong_len base) (par_chunks fuel BATCH_SIZE chunks))
  = blocks_at base chunks.
Proof.
  revert base chunks. induction fuel as [|fuel IH]; intros base chunks Hf.
  { by destruct chunks; [|simpl in Hf; lia]. }
  cbn [par_chunks]. destruct chunks as [|c chunks]; [done|]. cbn [imap concat].
  rewrite chunk_signature_at, Nat.mul_0_l, Nat.add_0_r.
  rewrite <- (take_drop BATCH_SIZE (c :: chunks)) at 3. rewrite blocks_at_app. f_equal.
  destruct (Nat.le_gt_cases (length (c :: chunks)) BATCH_SIZE) as [Hle|Hgt].
  - rewrite (drop_ge _ BATCH_SIZE) by done. by destruct fuel.
  - rewrite length_take, Nat.min_l by lia. rewrite <- (IH (base + BATCH_SIZE)%nat).
    + f_equal. apply imap_ext. intros i x _. unfold compose. rewrite !chunk_signature_at.
      f_equal. nia.
    + rewrite length_drop. unfold BATCH_SIZE in *. simpl in *. lia.
Qed.

Lemma hash_blocks_at base chunks : hash_blocks algorithm strong_len base chunks = blocks_at base chunks.
Proof. unfold hash_blocks. rewrite par_flat_map_ordered. by apply chunked_blocks_at. Qed.

(** Reading everything first, then hashing: the common meaning of the loops. *)
Definition read_then_hash (layout : SignatureLayout) (expected index : nat) (blocks : list SignatureBlock)
    (total : Z) (reader : list byte) : result io_error (list SignatureBlock * Z * list byte) :=
  match read_batch layout expected index (expected - index) total reader with
  | Err e => Err e
  | Ok (chunks, total', reader') => Ok (blocks ++ blocks_at index chunks, total', reader')
  end.

(** One turn of either loop followed by the rest. *)
Lemma read_then_hash_step layout expected index next blocks total reader :
  (index ≤ next ≤ expected)%nat →
  read_then_hash layout expected index blocks total reader =
    match read_batch layout expected index (next - index) total reader with
    | Err e => Err e
    | Ok (chunks, t, r) => read_then_hash layout expected next (blocks ++ blocks_at index chunks) t r
    end.
Proof.
  intros Hn. unfold read_then_hash.
  replace (expected - index)%nat with ((next - index) + (expected - next))%nat by lia.
  rewrite read_batch_app.
  destruct (read_batch layout expected index (next - index) total reader) as [[[c t] r]|e] eqn:E; [|done].
  apply read_batch_length in E. replace (index + (next - index))%nat with next by lia.
  destruct (read_batch layout expected next (expected - next) t r) as [[[c2 t2] r2]|e]; [|done].
  rewrite blocks_at_app, app_assoc, E. by replace (index + (next - index))%nat with next by lia.
Qed.

Lemma read_then_hash_done layout expected index blocks total reader : (expected ≤ index)%nat →
  read_then_hash layout expected index blocks total reader = Ok (blocks, total, reader).
Proof.
  intros Hi. unfold read_then_hash. replace (expected - index)%nat with 0%nat by lia.
  cbn. by rewrite app_nil_r.
Qed.

Lemma generate_loop_reads fuel layout expected capacity : (1 ≤ capacity)%nat →
  ∀ index blocks total reader, (expected - index ≤ fuel)%nat →
  generate_loop fuel layout algorithm expected capacity strong_len index blocks total reader
  = read_then_hash layout expected index blocks total reader.
Proof.
  intros Hc. induction fuel as [|fuel IH]; intros index blocks total reader Hf; cbn [generate_loop].
  - by rewrite read_then_hash_done by lia.
  - destruct (Nat.ltb_spec index expected); [|by rewrite read_then_hash_done].
    set (next := ((index + capacity) `min` expected)%nat).
    rewrite (read_then_hash_step layout expected index next) by lia.
    destruct (read_batch _ _ _ _ _ _) as [[[c t] r]|e] eqn:E; [|done].
    apply read_batch_length in E. rewrite <- E, batch_blocks_at. apply IH. lia.
Qed.

Lemma window_loop_reads fuel layout expected window : (1 ≤ window)%nat →
  ∀ index blocks total reader, (expected - index ≤ fuel)%nat →
  window_loop fuel layout algorithm expected window strong_len index blocks total reader
  = read_then_hash layout expected index blocks total reader.
Proof.
  intros Hc. induction fuel as [|fuel IH]; intros index blocks total reader Hf; cbn [window_loop].
  - by rewrite read_then_hash_done by lia.
  - destruct (Nat.ltb_spec index expected); [|by rewrite read_then_hash_done].
    set (next := ((index + window) `min` expected)%nat).
    rewrite (read_then_hash_step layout expected index next) by lia.
    destruct (read_batch _ _ _ _ _ _) as [[[c t] r]|e]; [|done]. rewrite hash_blocks_at. apply IH. lia.
Qed.
End Proofs.

(** For every layout with at least one block, every reader and algorithm and
    every pool size, the whole-file, the windowed and the automatic parallel
    generators return exactly what the sequential generator returns: the same
    blocks in the same order, the same total, the same error. *)
Theorem parallel_signatures_agree `{HasCpu} `{HashCratesLaws} `{RayonLaws}
    (reader : list byte) (layout : SignatureLayout) (algorithm : SignatureAlgorithm) :
  0 < sl_block_count layout →
  generate_file_signature_parallel reader layout algorithm = generate_file_signature reader layout algorithm ∧
  generate_file_signature_windowed reader layout algorithm = generate_file_signature reader layout algorithm ∧
  generate_file_signature_auto reader layout algorithm = generate_file_signature reader layout algorithm.
Proof.
  intros Hc.
  assert (Hp : generate_file_signature_parallel reader layout algorithm
    = generate_file_signature reader layout algorithm).
  { unfold generate_file_signature_parallel, generate_file_signature.
    destruct (_ <? _)%nat; [done|]. destruct (_ <? _); [done|].
    rewrite (proj2 (Nat.eqb_neq _ _)) by lia. rewrite generate_loop_reads by lia.
    unfold read_then_hash. rewrite Nat.sub_0_r.
    destruct (read_batch _ _ _ _ _ _) as [[[c t] r]|e]; [|done].
    destruct r; [|done]. by rewrite hash_blocks_at. }
  split; [done|]. split.
  - unfold generate_file_signature_windowed, generate_file_signature.
    destruct (_ <? _)%nat; [done|]. destruct (_ <? _); [done|].
    rewrite (proj2 (Nat.eqb_neq _ _)) by lia. rewrite generate_loop_reads by lia.
    rewrite window_loop_reads by (unfold window_blocks_for, BATCH_SIZE; lia).
    destruct (read_then_hash _ _ _ _ _ _ _ _) as [[[c t] r]|e]; [|done]. by destruct r.
  - unfold generate_file_signature_auto. by destruct (_ <=? _).
Qed.

#[local] Instance one_thread : Rayon := {|
  current_num_threads := 4;
  par_flat_map := λ A B f l, concat (imap f l);
|}.

#[local] Instance one_thread_ok : RayonLaws.
Proof. split. done. Qed.

Lemma parallel_signatures_agree_witness :
  let cpu : HasCpu := OtherArch in let crates := toy_crates in
  0 < sl_block_count (mkLayout 2 1 3 2) ∧
  generate_file_signature_parallel [x61; x62; x63; x64; x65] (mkLayout 2 1 3 2) Md4
  = generate_file_signature [x61; x62; x63; x64; x65] (mkLayout 2 1 3 2) Md4.
Proof.
  intros cpu crates. split; [reflexivity|].
  exact (proj1 (@parallel_signatures_agree OtherArch toy_crates toy_crates_ok one_thread one_thread_ok
    [x61; x62; x63; x64; x65] (mkLayout 2 1 3 2) Md4 ltac:(reflexivity))).
Defined.

(** On the layout of an empty file the parallel generators return before they
    look for trailing data, where the sequential one reports it. *)
Lemma empty_layout_differs `{HasCpu} `{HashCrates} `{Rayon} (byte : byte) :
  generate_file_signature_windowed [byte] (mkLayout 700 0 0 2) Md4 = Ok (mkSignature (mkLayout 700 0 0 2) [] 0) ∧
  generate_file_signature [byte] (mkLayout 700 0 0 2) Md4 = Err (TrailingData 1).
Proof. split; reflexivity. Qed.
