(* ===== verification/Pipeline.v ===== *)
(** * The double-buffered reader and pipelined checksums
    ([crates/checksums/src/pipelined/], [crates/signature/src/pipelined_gen.rs])

    The reader and its I/O thread are a transition system: the main thread calls
    [next_block], the I/O thread fills buffers, and the two exchange them over a
    data channel of capacity one and a recycle channel.  The theorems hold for
    every interleaving: the results of the calls depend only on the input (and
    are those of the synchronous reader when no read fails), a call never
    deadlocks, two buffers are enough, and dropping the reader stops the thread.
    The pipelined signature generator is then the sequential one. *)

From S2P Require Import Prelude Rolling Strong Signature SigParallel.

(** ** Data *)

Record PipelineConfig := mkPipeline {
  pc_block_size : nat;
  pc_min_file_size : Z;
  pc_enabled : bool;
}.

Definition pipeline_default : PipelineConfig := mkPipeline (64 * 1024) (256 * 1024) true.

Inductive IoMessage :=
| MBlock (data : list byte)
| MEof
| MError (e : io_error).

(** [db_threaded]: the receiver, the recycle sender and the thread handle are
    present.  They are set together. *)
Record DoubleBufferedReader := mkDbr {
  db_config : PipelineConfig;
  db_threaded : bool;
  db_current : option (list byte);
  db_prefetched : option (list byte);
  db_eof : bool;
  db_direct : option (list read_event);
  db_synchronous : bool;
  db_sync_buffer : option (list byte);
}.

(** ** Reading *)

(** The bytes the [while total_read < buffer.len()] loop reads into a buffer of
    [want] bytes.  A read returns no more than the room left, and leaves the rest
    to the next one. *)
Fixpoint read_fill (reader : list read_event) (want : nat)
    : result io_error (list byte) * list read_event :=
  if want =? 0 then (Ok [], reader)
  else
    match reader with
    | [] => (Ok [], [])
    | RData [] :: rest => (Ok [], rest)
    | RData bs :: rest =>
        if length bs <=? want then
          match read_fill rest (want - length bs) with
          | (Ok more, rest') => (Ok (bs ++ more), rest')
          | (Err e, rest') => (Err e, rest')
          end
        else (Ok (take want bs), RData (drop want bs) :: rest)
    | RInterrupted :: rest => read_fill rest want
    | RFail e :: rest => (Err e, rest)
    end.

(** The count, the buffer and the reader afterwards.  Every caller drops the
    buffer when the read fails, so its partial contents are not tracked then. *)
Definition read_exact_or_eof (reader : list read_event) (buffer : list byte)
    : result io_error nat * list byte * list read_event :=
  match read_fill reader (length buffer) with
  | (Ok data, rest) => (Ok (length data), data ++ drop (length data) buffer, rest)
  | (Err e, rest) => (Err e, buffer, rest)
  end.

(** [if buffer.len() < block_size { buffer.resize(block_size, 0); }]. *)
Definition restore_capacity (block_size : nat) (buffer : list byte) : list byte :=
  if length buffer <? block_size then buffer ++ replicate (block_size - length buffer) x00 else buffer.

(** ** The main thread *)

Definition set_eof (d : DoubleBufferedReader) : DoubleBufferedReader :=
  mkDbr (db_config d) (db_threaded d) (db_current d) (db_prefetched d) true (db_direct d)
    (db_synchronous d) (db_sync_buffer d).

Definition next_block_sync (d : DoubleBufferedReader)
    : DoubleBufferedReader * result io_error (option (list byte)) :=
  match db_direct d with
  | Some reader =>
      let block_size := pc_block_size (db_config d) in
      let buffer :=
        match db_current d with
        | Some b => b
        | None => match db_sync_buffer d with Some b => b | None => replicate block_size x00 end
        end in
      let sync_buffer := match db_current d with Some _ => db_sync_buffer d | None => None end in
      let buffer := restore_capacity block_size buffer in
      let '(r, filled, reader') := read_exact_or_eof reader (take block_size buffer) in
      let buffer := filled ++ drop block_size buffer in
      match r with
      | Err e =>
          (mkDbr (db_config d) (db_threaded d) None (db_prefetched d) (db_eof d) (Some reader')
             (db_synchronous d) sync_buffer, Err e)
      | Ok n =>
          if n =? 0 then
            (mkDbr (db_config d) (db_threaded d) None (db_prefetched d) true (Some reader')
               (db_synchronous d) (Some buffer), Ok None)
          else
            let block := take n buffer in
            (mkDbr (db_config d) (db_threaded d) (Some block) (db_prefetched d) (db_eof d) (Some reader')
               (db_synchronous d) sync_buffer, Ok (Some block))
      end
  | None => (set_eof d, Ok None)
  end.

(** [next_block] up to its [recv]: the buffer it recycles, and either its result
    or the block it holds while it waits. *)
Definition next_block_start (d : DoubleBufferedReader)
    : list (list byte) * DoubleBufferedReader * (result io_error (option (list byte)) + list byte) :=
  if db_eof d then ([], d, inl (Ok None))
  else if db_synchronous d then
    let '(d, r) := next_block_sync d in ([], d, inl r)
  else
    let recycled :=
      match db_prefetched d with Some old_buf => if db_threaded d then [old_buf] else [] | None => [] end in
    match db_current d with
    | None =>
        (recycled,
         mkDbr (db_config d) (db_threaded d) None None true (db_direct d) (db_synchronous d) (db_sync_buffer d),
         inl (Ok None))
    | Some current =>
        if db_threaded d then
          (recycled,
           mkDbr (db_config d) (db_threaded d) None None (db_eof d) (db_direct d) (db_synchronous d)
             (db_sync_buffer d), inr current)
        else
          (recycled,
           mkDbr (db_config d) (db_threaded d) None (Some current) (db_eof d) (db_direct d)
             (db_synchronous d) (db_sync_buffer d), inl (Ok (Some current)))
    end.

(** [next_block] from its [recv] on; [None] is a disconnected channel. *)
Definition next_block_recv (d : DoubleBufferedReader) (current : list byte) (msg : option IoMessage)
    : DoubleBufferedReader * result io_error (option (list byte)) :=
  let build cur eof pre :=
    mkDbr (db_config d) (db_threaded d) cur pre eof (db_direct d) (db_synchronous d) (db_sync_buffer d) in
  match msg with
  | Some (MBlock data) => (build (Some data) (db_eof d) (Some current), Ok (Some current))
  | Some MEof => (build None true (Some current), Ok (Some current))
  | Some (MError e) => (build (db_current d) true (db_prefetched d), Err e)
  | None => (build None true (Some current), Ok (Some current))
  end.

(** ** The system *)

Inductive main_state :=
| MIdle (d : DoubleBufferedReader)
| MWait (current : list byte) (d : DoubleBufferedReader)
| MDropped.

(** The I/O thread: not spawned, at [recycle_rx.recv()], with a buffer, at
    [sender.send()], or finished. *)
Inductive io_state :=
| IoNone
| IoRecv (reader : list read_event)
| IoRead (buffer : list byte) (reader : list read_event)
| IoSend (msg : IoMessage) (reader : list read_event)
| IoExit.

(** [pp_open]: the main thread's channel ends exist. *)
Record pipe := mkPipe {
  pp_main : main_state;
  pp_data : list IoMessage;
  pp_recycle : list (list byte);
  pp_io : io_state;
  pp_open : bool;
}.

(** The constructor. *)
Definition with_size_hint (reader : list read_event) (config : PipelineConfig) (size_hint : option Z) : pipe :=
  let should_pipeline :=
    pc_enabled config && match size_hint with None => true | Some size => (pc_min_file_size config <=? size)%Z end in
  let block_size := pc_block_size config in
  let alone d := mkPipe (MIdle d) [] [] IoNone true in
  if negb should_pipeline then
    alone (mkDbr config false None None false (Some reader) true (Some (replicate block_size x00)))
  else
    let '(first_read, buf_a, reader') := read_exact_or_eof reader (replicate block_size x00) in
    match first_read with
    | Ok n =>
        if n =? 0 then alone (mkDbr config false None None true None false None)
        else
          mkPipe (MIdle (mkDbr config true (Some (take n buf_a)) None false None false None))
            [] [replicate block_size x00] (IoRecv reader') true
    | Err _ => alone (mkDbr config false None None true (Some reader') true None)
    end.

(** One iteration of the I/O thread once it has a buffer. *)
Definition io_read (block_size : nat) (buffer : list byte) (reader : list read_event)
    : IoMessage * list read_event :=
  let buffer := restore_capacity block_size buffer in
  let '(r, filled, reader') := read_exact_or_eof reader buffer in
  match r with
  | Ok n => if n =? 0 then (MEof, reader') else (MBlock (take n filled), reader')
  | Err e => (MError e, reader')
  end.

Definition io_sent (msg : IoMessage) (reader : list read_event) : io_state :=
  match msg with MBlock _ => IoRecv reader | MEof | MError _ => IoExit end.

Inductive label := Tau | Ret (r : result io_error (option (list byte))).

Section System.
Context (block_size : nat).

(** The I/O thread, with the main thread's channel ends [opened] or dropped. *)
Inductive io_step (opened : bool)
    : list IoMessage → list (list byte) → io_state → list IoMessage → list (list byte) → io_state → Prop :=
| io_recv data buffer rec reader :
    io_step opened data (buffer :: rec) (IoRecv reader) data rec (IoRead buffer reader)
| io_reads data rec buffer reader msg reader' :
    io_read block_size buffer reader = (msg, reader') →
    io_step opened data rec (IoRead buffer reader) data rec (IoSend msg reader')
| io_send data rec msg reader :
    opened = true → length data < 1 →
    io_step opened data rec (IoSend msg reader) (data ++ [msg]) rec (io_sent msg reader)
| io_send_closed data rec msg reader :
    opened = false → io_step opened data rec (IoSend msg reader) data rec IoExit
| io_recv_closed data reader :
    opened = false → io_step opened data [] (IoRecv reader) data [] IoExit.

Inductive step : pipe → label → pipe → Prop :=
| st_return d data rec io recycled d' r :
    next_block_start d = (recycled, d', inl r) →
    step (mkPipe (MIdle d) data rec io true) (Ret r) (mkPipe (MIdle d') data (rec ++ recycled) io true)
| st_wait d data rec io recycled d' current :
    next_block_start d = (recycled, d', inr current) →
    step (mkPipe (MIdle d) data rec io true) Tau
      (mkPipe (MWait current d') data (rec ++ recycled) io true)
| st_recv current d msg data rec io d' r :
    next_block_recv d current (Some msg) = (d', r) →
    step (mkPipe (MWait current d) (msg :: data) rec io true) (Ret r) (mkPipe (MIdle d') data rec io true)
| st_disconnected current d rec d' r :
    next_block_recv d current None = (d', r) →
    step (mkPipe (MWait current d) [] rec IoExit true) (Ret r) (mkPipe (MIdle d') [] rec IoExit true)
| st_drop d data rec io :
    step (mkPipe (MIdle d) data rec io true) Tau (mkPipe MDropped [] rec io false)
| st_io m data rec io data' rec' io' opened :
    io_step opened data rec io data' rec' io' →
    step (mkPipe m data rec io opened) Tau (mkPipe m data' rec' io' opened).

(** An execution, with the results its [next_block] calls returned. *)
Inductive executes : pipe → list (result io_error (option (list byte))) → pipe → Prop :=
| ex_nil s : executes s [] s
| ex_tau s s' s'' rs : step s Tau s' → executes s' rs s'' → executes s rs s''
| ex_ret s s' s'' r rs : step s (Ret r) s' → executes s' rs s'' → executes s (r :: rs) s''.
End System.

(** ** What the threads read *)

Definition reader_size (reader : list read_event) : nat :=
  foldr (λ e acc, S (match e with RData bs => length bs | _ => 0 end) + acc) 0 reader.

Lemma read_fill_size reader : ∀ want data rest,
  0 < want → read_fill reader want = (Ok data, rest) →
  length data ≤ want ∧ reader_size rest + length data ≤ reader_size reader.
Proof.
  induction reader as [|ev reader IH]; intros want data rest Hw; cbn [read_fill];
    rewrite (proj2 (Nat.eqb_neq want 0)) by lia.
  - intros [= <- <-]. simpl. lia.
  - destruct ev as [[|b bs]| |e]; [intros [= <- <-]; simpl; lia| |intros Hr; apply IH in Hr; [simpl; lia|done]|done].
    destruct (Nat.leb_spec (length (b :: bs)) want) as [Hle|Hgt].
    + destruct (read_fill reader (want - length (b :: bs))) as [[more|e] rest'] eqn:E; [|done].
      intros [= <- <-]. change (b :: bs ++ more) with ((b :: bs) ++ more). rewrite length_app.
      cbn [reader_size foldr]. fold (reader_size reader).
      destruct (Nat.eq_dec (want - length (b :: bs)) 0) as [Hz|Hnz].
      * rewrite Hz in E. destruct reader; injection E as <- <-; cbn [length] in *; lia.
      * apply IH in E; lia.
    + intros [= <- <-]. cbn [reader_size foldr]. fold (reader_size reader).
      rewrite length_drop, length_take. lia.
Qed.

Lemma read_fill_fail_size reader : ∀ want e rest,
  read_fill reader want = (Err e, rest) → reader_size rest < reader_size reader.
Proof.
  induction reader as [|ev reader IH]; intros want e rest; cbn [read_fill]; destruct (want =? 0); try done.
  destruct ev as [[|b bs]| |e']; [done| |intros Hr%IH; simpl; lia|intros [= _ <-]; simpl; lia].
  destruct (_ <=? _); [|done].
  destruct (read_fill reader _) as [[more|e''] rest'] eqn:E; [done|]. intros [= _ <-].
  apply IH in E. simpl. lia.
Qed.

(** The messages of the I/O thread, in order. *)
Fixpoint stream (fuel block_size : nat) (reader : list read_event) : list IoMessage :=
  match fuel with
  | O => []
  | S fuel' =>
      match read_fill reader block_size with
      | (Ok [], _) => [MEof]
      | (Ok data, rest) => MBlock data :: stream fuel' block_size rest
      | (Err e, _) => [MError e]
      end
  end.

Definition messages (block_size : nat) (reader : list read_event) : list IoMessage :=
  stream (S (reader_size reader)) block_size reader.

(** The results of the synchronous reader, before it answers [None] forever. *)
Fixpoint sync_stream (fuel block_size : nat) (reader : list read_event)
    : list (result io_error (option (list byte))) :=
  match fuel with
  | O => []
  | S fuel' =>
      match read_fill reader block_size with
      | (Ok [], _) => []
      | (Ok data, rest) => Ok (Some data) :: sync_stream fuel' block_size rest
      | (Err e, rest) => Err e :: sync_stream fuel' block_size rest
      end
  end.

Definition sync_results (block_size : nat) (reader : list read_event)
    : list (result io_error (option (list byte))) :=
  sync_stream (S (reader_size reader)) block_size reader.

Section Streams.
Context (bs : nat) (Hbs : 0 < bs).

Lemma stream_fuel f1 : ∀ f2 reader, reader_size reader < f1 → reader_size reader < f2 →
  stream f1 bs reader = stream f2 bs reader.
Proof.
  induction f1 as [|f1 IH]; intros [|f2] reader H1 H2; [lia..|]. cbn [stream].
  destruct (read_fill reader bs) as [[[|b d]|e] rest] eqn:E; [done| |done].
  apply read_fill_size in E as [_ E]; [|done]. f_equal. apply IH; simpl in E; lia.
Qed.

Lemma messages_unfold reader :
  messages bs reader =
    match read_fill reader bs with
    | (Ok [], _) => [MEof]
    | (Ok data, rest) => MBlock data :: messages bs rest
    | (Err e, _) => [MError e]
    end.
Proof.
  unfold messages at 1. cbn [stream].
  destruct (read_fill reader bs) as [[[|b d]|e] rest] eqn:E; [done| |done].
  apply read_fill_size in E as [_ E]; [|done]. f_equal. apply stream_fuel; simpl in E; lia.
Qed.

Lemma sync_stream_fuel f1 : ∀ f2 reader, reader_size reader < f1 → reader_size reader < f2 →
  sync_stream f1 bs reader = sync_stream f2 bs reader.
Proof.
  induction f1 as [|f1 IH]; intros [|f2] reader H1 H2; [lia..|]. cbn [sync_stream].
  destruct (read_fill reader bs) as [[[|b d]|e] rest] eqn:E; [done| |].
  - apply read_fill_size in E as [_ E]; [|done]. f_equal. apply IH; simpl in E; lia.
  - apply read_fill_fail_size in E. f_equal. apply IH; lia.
Qed.

Lemma sync_results_unfold reader :
  sync_results bs reader =
    match read_fill reader bs with
    | (Ok [], _) => []
    | (Ok data, rest) => Ok (Some data) :: sync_results bs rest
    | (Err e, rest) => Err e :: sync_results bs rest
    end.
Proof.
  unfold sync_results at 1. cbn [sync_stream].
  destruct (read_fill reader bs) as [[[|b d]|e] rest] eqn:E; [done| |].
  - apply read_fill_size in E as [_ E]; [|done]. f_equal. apply sync_stream_fuel; simpl in E; lia.
  - apply read_fill_fail_size in E. f_equal. apply sync_stream_fuel; lia.
Qed.

Lemma restore_capacity_length b : length b ≤ bs → length (restore_capacity bs b) = bs.
Proof.
  intros Hb. unfold restore_capacity. destruct (Nat.ltb_spec (length b) bs); [|lia].
  rewrite length_app, length_replicate. lia.
Qed.

Lemma read_exact_or_eof_spec reader buffer : length buffer = bs →
  read_exact_or_eof reader buffer =
    match read_fill reader bs with
    | (Ok data, rest) => (Ok (length data), data ++ drop (length data) buffer, rest)
    | (Err e, rest) => (Err e, buffer, rest)
    end.
Proof. intros Hb. unfold read_exact_or_eof. by rewrite Hb. Qed.

Lemma io_read_spec buffer reader : length buffer ≤ bs →
  io_read bs buffer reader =
    match read_fill reader bs with
    | (Ok [], rest) => (MEof, rest)
    | (Ok data, rest) => (MBlock data, rest)
    | (Err e, rest) => (MError e, rest)
    end.
Proof.
  intros Hb. unfold io_read. rewrite read_exact_or_eof_spec by (by apply restore_capacity_length).
  destruct (read_fill reader bs) as [[[|b d]|e] rest]; [done| |done].
  rewrite (proj2 (Nat.eqb_neq _ _)) by done. by rewrite take_app_length.
Qed.
End Streams.

(** ** The invariant *)

Definition main_buffers (m : main_state) : list (list byte) :=
  match m with
  | MIdle d => option_list (db_current d) ++ option_list (db_prefetched d)
  | MWait c d => c :: option_list (db_current d) ++ option_list (db_prefetched d)
  | MDropped => []
  end.

Definition msg_buffers (m : IoMessage) : list (list byte) :=
  match m with MBlock b => [b] | MEof | MError _ => [] end.

Definition io_buffers (io : io_state) : list (list byte) :=
  match io with
  | IoRead b _ => [b]
  | IoSend m _ => msg_buffers m
  | IoNone | IoRecv _ | IoExit => []
  end.

(** Every buffer of the pipeline, wherever it is. *)
Definition all_buffers (s : pipe) : list (list byte) :=
  main_buffers (pp_main s) ++ concat (map msg_buffers (pp_data s)) ++ pp_recycle s ++ io_buffers (pp_io s).

Definition is_block (m : IoMessage) : Prop := match m with MBlock _ => True | _ => False end.

Lemma buffers_length m data rec io o :
  length (all_buffers (mkPipe m data rec io o)) =
  length (main_buffers m) + length (concat (map msg_buffers data)) + length rec + length (io_buffers io).
Proof. unfold all_buffers. cbn [pp_main pp_data pp_recycle pp_io]. rewrite !length_app. lia. Qed.

Section Invariant.
Context (bs : nat) (Hbs : 0 < bs).

(** Where the thread is, and how many buffers exist then. *)
Definition thread_ok (s : pipe) (eof : bool) : Prop :=
  length (pp_data s) ≤ 1 ∧
  match pp_io s with
  | IoNone => False
  | IoRecv _ | IoRead _ _ | IoSend (MBlock _) _ =>
      eof = false ∧ Forall is_block (pp_data s) ∧ length (all_buffers s) = 2
  | IoSend _ _ => eof = false ∧ Forall is_block (pp_data s) ∧ length (all_buffers s) = 1
  | IoExit =>
      length (all_buffers s) ≤ 1 ∧
      if eof then pp_data s = [] else ∃ m, pp_data s = [m] ∧ ¬ is_block m
  end.

Definition sync_ok (d : DoubleBufferedReader) : Prop :=
  db_eof d = true ∨
  (db_synchronous d = true ∧
   (∀ b, db_current d = Some b → length b ≤ bs) ∧ (∀ b, db_sync_buffer d = Some b → length b ≤ bs)).

Definition main_ok (s : pipe) : Prop :=
  match pp_main s with
  | MDropped => pp_open s = false ∧ pp_data s = [] ∧ length (all_buffers s) ≤ 2
  | MIdle d =>
      pp_open s = true ∧ pc_block_size (db_config d) = bs ∧
      if db_threaded d
      then db_synchronous d = false ∧ thread_ok s (db_eof d) ∧
           (db_eof d = false → is_Some (db_current d))
      else pp_io s = IoNone ∧ pp_data s = [] ∧ pp_recycle s = [] ∧ db_prefetched d = None ∧ sync_ok d
  | MWait c d =>
      pp_open s = true ∧ pc_block_size (db_config d) = bs ∧ db_threaded d = true ∧
      db_synchronous d = false ∧ db_eof d = false ∧ db_current d = None ∧ db_prefetched d = None ∧
      thread_ok s false
  end.

Definition small (b : list byte) : Prop := length b ≤ bs.

Definition pipe_ok (s : pipe) : Prop := main_ok s ∧ Forall small (all_buffers s).

(** The parts of [next_block]. *)
Lemma start_eof d : db_eof d = true → next_block_start d = ([], d, inl (Ok None)).
Proof. intros He. unfold next_block_start. by rewrite He. Qed.

Lemma start_threaded d c : db_threaded d = true → db_synchronous d = false → db_eof d = false →
  db_current d = Some c →
  next_block_start d =
    (option_list (db_prefetched d),
     mkDbr (db_config d) true None None false (db_direct d) false (db_sync_buffer d), inr c).
Proof.
  intros Ht Hs He Hc. unfold next_block_start. rewrite He, Hs, Hc, Ht. by destruct (db_prefetched d).
Qed.

Lemma start_sync d : db_eof d = false → db_synchronous d = true →
  next_block_start d = let '(d', r) := next_block_sync d in ([], d', inl r).
Proof. intros He Hs. unfold next_block_start. by rewrite He, Hs. Qed.

Lemma sync_spec d : pc_block_size (db_config d) = bs → sync_ok d → db_eof d = false →
  let '(d', r) := next_block_sync d in
  db_config d' = db_config d ∧ db_threaded d' = db_threaded d ∧ db_synchronous d' = true ∧
  db_prefetched d' = db_prefetched d ∧ Forall small (option_list (db_current d')) ∧ sync_ok d' ∧
  match db_direct d with
  | None => r = Ok None ∧ db_eof d' = true
  | Some reader =>
      match read_fill reader bs with
      | (Ok [], _) => r = Ok None ∧ db_eof d' = true
      | (Ok data, rest) => r = Ok (Some data) ∧ db_eof d' = false ∧ db_direct d' = Some rest
      | (Err e, rest) => r = Err e ∧ db_eof d' = false ∧ db_direct d' = Some rest
      end
  end.
Proof.
  intros Hb [He|(Hs & Hc & Hsb)] Hf; [congruence|]. unfold next_block_sync.
  destruct (db_direct d) as [reader|] eqn:Hd.
  2:{ cbn. split_and!; try done; [|by left]. destruct (db_current d) as [b|]; [|constructor].
      constructor; [by apply Hc|constructor]. }
  rewrite Hb. set (buf := restore_capacity bs _).
  assert (Hbuf : length buf = bs).
  { apply restore_capacity_length; [done|]. destruct (db_current d) as [b|]; [by apply Hc|].
    destruct (db_sync_buffer d) as [b|]; [by apply Hsb|]. by rewrite length_replicate. }
  rewrite (take_ge buf bs), (drop_ge buf bs) by lia. rewrite read_exact_or_eof_spec with (bs := bs) by done.
  assert (Hsb' : ∀ b, match db_current d with Some _ => db_sync_buffer d | None => None end = Some b →
    length b ≤ bs) by (intros b; destruct (db_current d); [apply Hsb|done]).
  destruct (read_fill reader bs) as [[[|b data]|e] rest] eqn:E; cbn [length Nat.eqb].
  - cbn. split_and!; try done. by left.
  - apply read_fill_size in E as [E _]; [|done]. rewrite app_nil_r.
    change (S (length data)) with (length (b :: data)). rewrite take_app_length. cbn.
    split_and!; try done; [by repeat constructor|]. right. cbn. split_and!; [done| |done].
    intros x [= <-]. done.
  - cbn. split_and!; try done. right. cbn. by split_and!.
Qed.

Lemma buffers_small m data rec io o : Forall small (all_buffers (mkPipe m data rec io o)) ↔
  Forall small (main_buffers m) ∧ Forall small (concat (map msg_buffers data)) ∧ Forall small rec ∧
  Forall small (io_buffers io).
Proof. unfold all_buffers. cbn [pp_main pp_data pp_recycle pp_io]. by rewrite !Forall_app. Qed.

Lemma length_msg_app data m :
  length (concat (map msg_buffers (data ++ [m]))) = length (concat (map msg_buffers data)) + length (msg_buffers m).
Proof. rewrite map_app, concat_app, length_app. cbn. by rewrite app_nil_r. Qed.

(** A step of the I/O thread keeps its part of the invariant. *)
Lemma io_step_small o m data rec io data' rec' io' :
  io_step bs o data rec io data' rec' io' →
  Forall small (all_buffers (mkPipe m data rec io o)) →
  Forall small (all_buffers (mkPipe m data' rec' io' o)) ∧
  length (all_buffers (mkPipe m data' rec' io' o)) ≤ length (all_buffers (mkPipe m data rec io o)).
Proof.
  intros Hst. rewrite !buffers_small, !buffers_length. intros (Hm & Hd & Hr & Hi).
  inversion Hst as [? b ? rd|? ? b rd msg rd' Hrd|? ? msg rd Ho Hl|? ? msg rd Ho|? rd Ho]; subst;
    cbn [io_buffers length] in *.
  - apply Forall_cons in Hr as [Hb Hr]. split_and!; try done; [by repeat constructor|lia].
  - apply Forall_cons in Hi as [Hb _]. rewrite io_read_spec with (bs := bs) in Hrd by done.
    assert (Hmsg : Forall small (msg_buffers msg) ∧ length (msg_buffers msg) ≤ 1).
    { destruct (read_fill rd bs) as [[[|x d]|e] rest] eqn:E; injection Hrd as <- <-; cbn;
        [by split; [constructor|lia]| |by split; [constructor|lia]].
      apply read_fill_size in E as [E _]; [|done]. split; [by repeat constructor|done]. }
    destruct Hmsg. split_and!; try done. lia.
  - assert (Hs : io_buffers (io_sent msg rd) = []) by (by destruct msg). rewrite Hs, length_msg_app.
    rewrite map_app, concat_app, Forall_app. cbn. rewrite app_nil_r. split_and!; try done. lia.
  - split_and!; try done. lia.
  - split_and!; try done.
Qed.

Lemma io_step_thread m data rec io data' rec' io' eof :
  io_step bs true data rec io data' rec' io' →
  Forall small (all_buffers (mkPipe m data rec io true)) → thread_ok (mkPipe m data rec io true) eof →
  thread_ok (mkPipe m data' rec' io' true) eof.
Proof.
  intros Hst Hsm [Hd Hio]. rewrite buffers_small in Hsm. destruct Hsm as (_ & _ & _ & Hi).
  unfold thread_ok in *. rewrite !buffers_length in *. cbn [pp_data pp_io] in *.
  inversion Hst as [? b ? rd|? ? b rd msg rd' Hrd|? ? msg rd Ho Hl|? ? msg rd Ho|? rd Ho]; subst; try done;
    cbn [io_buffers length] in *.
  - destruct Hio as (? & ? & ?). split_and!; [done..|lia].
  - destruct Hio as (? & ? & ?). split; [done|]. apply Forall_cons in Hi as [Hb _].
    rewrite io_read_spec with (bs := bs) in Hrd by done.
    destruct (read_fill rd bs) as [[[|x d]|e] rest]; injection Hrd as <- <-; cbn [msg_buffers length];
      split_and!; try done; lia.
  - destruct data as [|? ?]; [|simpl in Hl; lia]. cbn [app length map concat] in *.
    rewrite app_nil_r. split; [done|]. destruct msg; destruct Hio as (-> & _ & Hc); cbn [io_sent io_buffers msg_buffers length] in *.
    + split_and!; [done|by repeat constructor|lia].
    + split; [lia|]. eexists. split; [done|]. by intros [].
    + split; [lia|]. eexists. split; [done|]. by intros [].
Qed.

(** ** Results do not depend on the schedule *)

(** What the I/O thread will still send. *)
Definition io_pending (io : io_state) : list IoMessage :=
  match io with
  | IoRecv reader | IoRead _ reader => messages bs reader
  | IoSend (MBlock b) reader => MBlock b :: messages bs reader
  | IoSend m _ => [m]
  | IoNone | IoExit => []
  end.

(** The results of the calls when [c] is the current block and [ms] is to come. *)
Fixpoint deliver (c : list byte) (ms : list IoMessage) : list (result io_error (option (list byte))) :=
  match ms with
  | MBlock b :: ms' => Ok (Some c) :: deliver b ms'
  | MError e :: _ => [Err e]
  | MEof :: _ | [] => [Ok (Some c)]
  end.

(** The results still to come, before [None] forever. *)
Definition outcome (s : pipe) : list (result io_error (option (list byte))) :=
  match pp_main s with
  | MIdle d =>
      if db_eof d then []
      else if db_synchronous d then
        match db_direct d with Some reader => sync_results bs reader | None => [] end
      else
        match db_current d with
        | Some c => deliver c (pp_data s ++ io_pending (pp_io s))
        | None => []
        end
  | MWait c d => deliver c (pp_data s ++ io_pending (pp_io s))
  | MDropped => []
  end.

Lemma io_step_outcome o data rec io data' rec' io' :
  o = true → io_step bs o data rec io data' rec' io' →
  Forall small (io_buffers io) →
  data' ++ io_pending io' = data ++ io_pending io.
Proof.
  intros Ho Hst Hi. inversion Hst as [? b ? rd|? ? b rd msg rd' Hrd|? ? msg rd _ Hl|? ? msg rd Hc|? rd Hc];
    subst; try done; cbn [io_buffers io_pending] in *.
  - apply Forall_cons in Hi as [Hb _]. rewrite io_read_spec with (bs := bs) in Hrd by done. f_equal.
    rewrite (messages_unfold bs Hbs rd).
    by destruct (read_fill rd bs) as [[[|x d]|e] rest]; injection Hrd as <- <-.
  - rewrite <- app_assoc. by destruct msg.
Qed.

(** What one label says about the results to come. *)
Definition label_ok (l : label) (before after : list (result io_error (option (list byte)))) : Prop :=
  match l with
  | Tau => after = before
  | Ret r => before = r :: after ∨ (before = [] ∧ r = Ok None ∧ after = [])
  end.

Lemma thread_ok_count s s' eof : thread_ok s eof → pp_data s' = pp_data s → pp_io s' = pp_io s →
  length (all_buffers s') = length (all_buffers s) → thread_ok s' eof.
Proof. unfold thread_ok. by intros ? -> -> ->. Qed.

Lemma return_ok d data rec io recycled d' r :
  next_block_start d = (recycled, d', inl r) → pipe_ok (mkPipe (MIdle d) data rec io true) →
  pipe_ok (mkPipe (MIdle d') data (rec ++ recycled) io true) ∧
  label_ok (Ret r) (outcome (mkPipe (MIdle d) data rec io true))
    (outcome (mkPipe (MIdle d') data (rec ++ recycled) io true)).
Proof.
  intros Hst [Hm Hsm]. pose proof Hm as (_ & Hb & Hm'). cbn [pp_main] in *.
  destruct (db_eof d) eqn:He.
  { rewrite start_eof in Hst by done. injection Hst as <- <- <-. rewrite app_nil_r. split; [done|].
    right. unfold outcome. cbn. by rewrite He. }
  destruct (db_threaded d) eqn:Ht.
  { destruct Hm' as (Hsy & _ & Hc). destruct (Hc eq_refl) as [c Hcur].
    by rewrite (start_threaded d c Ht Hsy He Hcur) in Hst. }
  cbn [pp_io pp_data pp_recycle] in Hm'. destruct Hm' as (-> & -> & -> & Hpre & Hsync).
  destruct Hsync as [?|Hsync]; [congruence|]. pose proof Hsync as (Hsy & _).
  rewrite start_sync in Hst by done. pose proof (sync_spec d Hb (or_intror Hsync) He) as Hs.
  destruct (next_block_sync d) as [d1 r1]. injection Hst as <- <- <-.
  destruct Hs as (Hc1 & Ht1 & Hy1 & Hp1 & Hcs & Hok1 & Hr). split.
  - split.
    + unfold main_ok. cbn. rewrite Ht1, Ht, Hc1, Hp1. by split_and!.
    + apply buffers_small. cbn. rewrite Hp1, Hpre, app_nil_r. by split_and!.
  - unfold outcome. cbn [pp_main]. rewrite He, Hsy, Hy1. destruct (db_direct d) as [rd|].
    + rewrite (sync_results_unfold bs Hbs rd). destruct (read_fill rd bs) as [[[|x dt]|e] rest].
      * destruct Hr as [-> ->]. by right.
      * destruct Hr as (-> & -> & ->). by left.
      * destruct Hr as (-> & -> & ->). by left.
    + destruct Hr as [-> ->]. by right.
Qed.

Lemma wait_ok d data rec io recycled d' c :
  next_block_start d = (recycled, d', inr c) → pipe_ok (mkPipe (MIdle d) data rec io true) →
  pipe_ok (mkPipe (MWait c d') data (rec ++ recycled) io true) ∧
  outcome (mkPipe (MWait c d') data (rec ++ recycled) io true) = outcome (mkPipe (MIdle d) data rec io true).
Proof.
  intros Hst [Hm Hsm]. pose proof Hm as (_ & Hb & Hm'). cbn [pp_main] in *.
  destruct (db_eof d) eqn:He; [by rewrite start_eof in Hst|].
  destruct (db_threaded d) eqn:Ht.
  2:{ destruct Hm' as (_ & _ & _ & _ & [?|(Hsy & _)]); [congruence|].
      rewrite start_sync in Hst by done. by destruct (next_block_sync d). }
  destruct Hm' as (Hsy & Hth & Hc). destruct (Hc eq_refl) as [c0 Hcur].
  rewrite (start_threaded d c0 Ht Hsy He Hcur) in Hst. injection Hst as <- <- <-.
  rewrite buffers_small in Hsm. cbn [main_buffers] in Hsm. rewrite Hcur, Forall_app in Hsm.
  destruct Hsm as ([Hs1 Hs2] & Hs3 & Hs4 & Hs5). split; [split|].
  - unfold main_ok. cbn [pp_main]. split_and!; [done..|]. eapply thread_ok_count; [exact Hth|done|done|].
    rewrite !buffers_length. cbn [main_buffers]. rewrite Hcur, !length_app. cbn [option_list length]. simpl. lia.
  - apply buffers_small. cbn. rewrite Forall_app. by split_and!.
  - unfold outcome. cbn. by rewrite He, Hsy, Hcur.
Qed.

Lemma recv_ok c d msg data rec io d' r :
  next_block_recv d c (Some msg) = (d', r) → pipe_ok (mkPipe (MWait c d) (msg :: data) rec io true) →
  pipe_ok (mkPipe (MIdle d') data rec io true) ∧
  outcome (mkPipe (MWait c d) (msg :: data) rec io true) = r :: outcome (mkPipe (MIdle d') data rec io true).
Proof.
  intros Hr [Hm Hsm]. destruct Hm as (_ & Hb & Ht & Hsy & He & Hcur & Hpre & Hlen & Hth).
  rewrite buffers_small in Hsm. destruct Hsm as (Hs1 & Hs2 & Hs3 & Hs4).
  cbn [pp_data pp_io length] in *. assert (data = []) as -> by (destruct data; [done|simpl in Hlen; lia]).
  rewrite buffers_length in Hth. cbn [main_buffers] in Hs1, Hth. rewrite Hcur, Hpre in Hs1, Hth.
  cbn [map concat] in Hs2. rewrite app_nil_r in Hs2.
  assert (Hc : small c) by (by apply Forall_cons in Hs1 as [? _]).
  destruct msg as [b| |e]; cbn [next_block_recv] in Hr; injection Hr as <- <-.
  - split; [split|].
    + unfold main_ok. cbn [pp_main db_threaded db_config db_eof db_current]. rewrite Ht, He.
      split_and!; [done..| |by eexists]. split; [simpl; lia|]. rewrite buffers_length. cbn in Hth |- *.
      destruct io as [|?|? ?|[?| |?] ?|]; try done.
      all: try (destruct Hth as (? & _ & ?); split_and!; [done|constructor|simpl in *; lia]).
      destruct Hth as (_ & m & [= <-] & Hm). by destruct Hm.
    + apply buffers_small. cbn. split_and!; [|constructor|done..]. cbn in Hs2.
      apply Forall_cons in Hs2 as [? _]. by repeat constructor.
    + unfold outcome. cbn. by rewrite He, Hsy.
  - assert (io = IoExit ∧ length rec = 0) as [-> Hrec].
    { destruct io as [|?|? ?|[?| |?] ?|]; try done; try (by destruct Hth as (_ & Hf & _); inversion Hf).
      destruct Hth as [Hl _]. split; [done|]. simpl in Hl. lia. }
    split; [split|].
    + unfold main_ok. cbn [pp_main pp_open db_config db_threaded db_synchronous db_eof db_current].
      rewrite Ht. split_and!; [done..| |done]. split; [simpl; lia|]. cbn [pp_io]. split; [|done].
      rewrite buffers_length. simpl. lia.
    + apply buffers_small. cbn. by split_and!; [repeat constructor|constructor|..].
    + unfold outcome. cbn. done.
  - assert (io = IoExit ∧ length rec = 0) as [-> Hrec].
    { destruct io as [|?|? ?|[?| |?] ?|]; try done; try (by destruct Hth as (_ & Hf & _); inversion Hf).
      destruct Hth as [Hl _]. split; [done|]. simpl in Hl. lia. }
    split; [split|].
    + unfold main_ok. cbn [pp_main pp_open db_config db_threaded db_synchronous db_eof db_current].
      rewrite Ht. split_and!; [done..| |done]. split; [simpl; lia|]. cbn [pp_io]. split; [|done].
      rewrite buffers_length. cbn [main_buffers db_current db_prefetched]. rewrite Hcur, Hpre. simpl. lia.
    + apply buffers_small. cbn. rewrite Hcur, Hpre. by split_and!; [constructor|constructor|..].
    + unfold outcome. cbn. done.
Qed.

(** Every step keeps the invariant and the results to come. *)
Lemma step_ok s l s' : step bs s l s' → pipe_ok s →
  pipe_ok s' ∧ (pp_main s' ≠ MDropped → label_ok l (outcome s) (outcome s')).
Proof.
  intros Hst Hok. destruct Hst as [d data rec io recycled d' r Hn|d data rec io recycled d' c Hn
    |c d msg data rec io d' r Hn|c d rec d' r Hn|d data rec io|m data rec io data' rec' io' o Hio].
  - destruct (return_ok d data rec io recycled d' r Hn Hok). by split.
  - destruct (wait_ok d data rec io recycled d' c Hn Hok). by split.
  - destruct (recv_ok c d msg data rec io d' r Hn Hok). split; [done|]. intros _. by left.
  - destruct Hok as [(_ & _ & _ & _ & _ & _ & _ & _ & Hth) _]. cbn in Hth. by destruct Hth as (_ & m & ? & _).
  - split; [|done]. destruct Hok as [(_ & _ & Hm) Hsm]. rewrite buffers_small in Hsm.
    destruct Hsm as (_ & _ & Hr & Hi). split.
    + unfold main_ok. cbn [pp_main pp_open pp_data]. split_and!; [done..|]. rewrite buffers_length. cbn.
      destruct (db_threaded d); cbn [pp_main pp_data pp_recycle pp_io] in *.
      * destruct Hm as (_ & [_ Hth] & _). rewrite buffers_length in Hth. cbn [pp_io] in Hth.
        destruct io as [|?|? ?|[?| |?] ?|]; cbn in *; try done; lia.
      * destruct Hm as (-> & _ & -> & _). simpl. lia.
    + apply buffers_small. by split_and!; [constructor|constructor|..].
  - destruct Hok as [Hm Hsm]. destruct (io_step_small o m data rec io data' rec' io' Hio Hsm) as [Hsm' Hle].
    assert (Hmain : main_ok (mkPipe m data' rec' io' o)).
    { unfold main_ok in *. cbn [pp_main pp_open] in *. destruct m as [d|c d|].
      - destruct Hm as (-> & Hb & Hm). destruct (db_threaded d).
        + destruct Hm as (? & ? & ?). split_and!; try done. by eapply io_step_thread.
        + cbn [pp_io] in Hm. destruct Hm as (-> & _). by inversion Hio.
      - destruct Hm as (-> & ? & ? & ? & ? & ? & ? & ?). split_and!; try done. by eapply io_step_thread.
      - destruct Hm as (-> & ? & ?). split_and!; [done| |lia]. cbn in *. subst data.
        inversion Hio; done. }
    split; [by split|]. intros Hnd. cbn [label_ok].
    assert (o = true) as -> by (unfold main_ok in Hm; cbn in Hm; destruct m; [apply Hm..|done]).
    apply buffers_small in Hsm as (_ & _ & _ & Hi).
    pose proof (io_step_outcome true data rec io data' rec' io' eq_refl Hio Hi) as Ho.
    unfold outcome. cbn [pp_main pp_data pp_io]. by rewrite Ho.
Qed.
End Invariant.

(** ** Reachable states *)

Definition reachable (config : PipelineConfig) (reader : list read_event) (hint : option Z) (s : pipe) : Prop :=
  ∃ rs, executes (pc_block_size config) (with_size_hint reader config hint) rs s.

Definition pipelines (config : PipelineConfig) (hint : option Z) : bool :=
  pc_enabled config && match hint with None => true | Some size => (pc_min_file_size config <=? size)%Z end.

(** The results the calls of [next_block] return, in order, before [None]. *)
Definition expected_results (config : PipelineConfig) (reader : list read_event) (hint : option Z)
    : list (result io_error (option (list byte))) :=
  let bs := pc_block_size config in
  if pipelines config hint then
    match read_fill reader bs with
    | (Ok [], _) | (Err _, _) => []
    | (Ok c, rest) => deliver c (messages bs rest)
    end
  else sync_results bs reader.

Section Reachable.
Context (config : PipelineConfig) (reader : list read_event) (hint : option Z).
Local Notation bs := (pc_block_size config).
Context (Hbs : 0 < bs).

Lemma initial_ok : pipe_ok bs (with_size_hint reader config hint) ∧
  outcome bs (with_size_hint reader config hint) = expected_results config reader hint.
Proof.
  unfold with_size_hint, expected_results, pipelines.
  set (p := pc_enabled config && _). destruct p; cbn [negb].
  - rewrite read_exact_or_eof_spec with (bs := bs) by apply length_replicate.
    destruct (read_fill reader bs) as [[[|b c]|e] rest] eqn:E; cbn [length Nat.eqb].
    + split; [|done]. split; [|constructor]. unfold main_ok. cbn. split_and!; try done. by left.
    + apply read_fill_size in E as [E _]; [|done].
      change (S (length c)) with (length (b :: c)). rewrite take_app_length. split; [|done].
      assert (Hr : small bs (replicate bs x00)) by (unfold small; by rewrite length_replicate).
      split; [|apply buffers_small; cbn; split_and!; repeat constructor; done].
      unfold main_ok. cbn [pp_main pp_open db_config db_threaded db_synchronous db_eof db_current].
      split_and!; [done..| |by eexists]. split; [simpl; lia|]. by cbn.
    + split; [|done]. split; [|constructor]. unfold main_ok. cbn. split_and!; try done. by left.
  - split; [|done]. split; [|constructor]. unfold main_ok. cbn [pp_main pp_open db_config db_threaded].
    split_and!; try done. right. cbn. split_and!; [done|done|]. intros ? [= <-]. by rewrite length_replicate.
Qed.

Lemma executes_ok s rs s' : executes bs s rs s' → pipe_ok bs s →
  pipe_ok bs s' ∧ (pp_main s = MDropped → rs = []) ∧
  (∀ k r, rs !! k = Some r → r = nth k (outcome bs s) (Ok None)).
Proof.
  induction 1 as [s|s s1 s2 rs Hst Hex IH|s s1 s2 r rs Hst Hex IH]; intros Hok; [done|..].
  - destruct (step_ok bs Hbs s Tau s1 Hst Hok) as [Hok1 Hl]. destruct (IH Hok1) as (Hok2 & Hd & Hp).
    split; [done|]. destruct (pp_main s1) eqn:Em.
    1,2: split; [intros Hm; inversion Hst; subst; cbn in *; congruence|]; by rewrite <- (Hl ltac:(done)).
    by rewrite (Hd eq_refl).
  - destruct (step_ok bs Hbs s (Ret r) s1 Hst Hok) as [Hok1 Hl]. destruct (IH Hok1) as (Hok2 & Hd & Hp).
    split; [done|]. split; [intros Hm; inversion Hst; subst; done|].
    specialize (Hl ltac:(inversion Hst; by subst)). intros [|k] r0 Hk; cbn [lookup list_lookup] in Hk.
    + injection Hk as <-. by destruct Hl as [-> |(-> & -> & _)].
    + rewrite (Hp k r0 Hk). destruct Hl as [-> |(-> & _ & ->)]; [done|]. by destruct k.
Qed.

Lemma reachable_ok s : reachable config reader hint s → pipe_ok bs s.
Proof. intros [rs Hex]. by eapply executes_ok; [|apply initial_ok]. Qed.
End Reachable.

(** C38: the results of [next_block] depend only on the configuration and the
    input. In every interleaving of the caller and the I/O thread, the k-th call
    returns the k-th expected result, and [None] from then on. *)
Theorem pipeline_deterministic (config : PipelineConfig) (reader : list read_event) (hint : option Z)
    (rs : list (result io_error (option (list byte)))) (s : pipe) :
  0 < pc_block_size config →
  executes (pc_block_size config) (with_size_hint reader config hint) rs s →
  ∀ k r, rs !! k = Some r → r = nth k (expected_results config reader hint) (Ok None).
Proof.
  intros Hbs Hex k r Hk. destruct (initial_ok config reader hint Hbs) as [Hok Ho].
  destruct (executes_ok config Hbs _ _ _ Hex Hok) as (_ & _ & Hp). rewrite <- Ho. by apply Hp.
Qed.

Definition demo_config : PipelineConfig := mkPipeline 2 0 true.

Lemma pipeline_deterministic_witness :
  Ok (Some [x61; x62]) = nth 0 (expected_results demo_config [RData [x61; x62; x63]] None) (Ok None).
Proof.
  eapply (pipeline_deterministic demo_config [RData [x61; x62; x63]] None [Ok (Some [x61; x62])] _
    ltac:(simpl; lia)); [|reflexivity].
  eapply ex_tau; [eapply st_wait; reflexivity|].
  eapply ex_tau; [eapply st_io, io_recv|].
  eapply ex_tau; [eapply st_io, io_reads; reflexivity|].
  eapply ex_tau; [eapply st_io, io_send; [reflexivity|simpl; lia]|].
  eapply ex_ret; [eapply st_recv; reflexivity|]. apply ex_nil.
Defined.

(** *** Liveness *)

(** Bounds the steps the I/O thread can take on its own. *)
Definition io_measure (s : pipe) : nat :=
  4 * length (pp_recycle s) +
  match pp_io s with IoNone | IoExit => 0 | IoRecv _ => 1 | IoSend _ _ => 2 | IoRead _ _ => 3 end.

Definition waiting (s : pipe) : Prop := match pp_main s with MWait _ _ => True | _ => False end.
Definition dropped (s : pipe) : Prop := match pp_main s with MDropped => True | _ => False end.
Definition io_finished (s : pipe) : Prop := match pp_io s with IoNone | IoExit => True | _ => False end.

Lemma io_step_measure bs o m data rec io data' rec' io' :
  io_step bs o data rec io data' rec' io' →
  io_measure (mkPipe m data' rec' io' o) < io_measure (mkPipe m data rec io o).
Proof.
  intros Hst. unfold io_measure. inversion Hst as [| |? ? msg ? ? ?| |]; subst; cbn [pp_recycle pp_io length]; try lia.
  destruct msg; simpl; lia.
Qed.

Lemma waiting_progress bs s : pipe_ok bs s → waiting s → ∃ l s', step bs s l s'.
Proof.
  intros [Hm _] Hw. destruct s as [[d|c d|] data rec io o]; try done.
  unfold main_ok in Hm. cbn [pp_main pp_open] in Hm.
  destruct Hm as (-> & _ & _ & _ & _ & Hcur & Hpre & Hlen & Hth). cbn [pp_io pp_data] in Hth.
  destruct data as [|msg data].
  2:{ destruct (next_block_recv d c (Some msg)) as [d' r] eqn:E. eexists _, _. by eapply st_recv. }
  rewrite buffers_length in Hth. cbn [main_buffers] in Hth. rewrite Hcur, Hpre in Hth.
  destruct io as [|rd|b rd|msg rd|]; try done.
  - destruct rec as [|b rec]; [destruct Hth as (_ & _ & Hth); simpl in Hth; lia|].
    eexists _, _. eapply st_io, io_recv.
  - destruct (io_read bs b rd) as [msg rd'] eqn:E. eexists _, _. by eapply st_io, io_reads.
  - eexists _, _. eapply st_io, io_send; [done|simpl; lia].
  - by destruct Hth as (_ & m & ? & _).
Qed.

Lemma dropped_progress bs s : pipe_ok bs s → dropped s → io_finished s ∨ ∃ s', step bs s Tau s'.
Proof.
  intros [Hm _] Hw. destruct s as [[d|c d|] data rec io o]; try done.
  unfold main_ok in Hm. cbn [pp_main pp_open] in Hm. destruct Hm as (-> & _).
  destruct io as [|rd|b rd|msg rd|]; [by left| | | |by left]; right.
  - destruct rec as [|b rec]; eexists; eapply st_io; [by apply io_recv_closed|apply io_recv].
  - destruct (io_read bs b rd) as [msg rd'] eqn:E. eexists. by eapply st_io, io_reads.
  - eexists. by eapply st_io, io_send_closed.
Qed.

(** C39: the pipeline neither deadlocks nor hangs. In every reachable state, a
    waiting [next_block] call can go on, and a dropped reader's thread has
    finished or can go on; and every internal step in those states uses up a
    bounded budget, so the call returns and the thread is joined. *)
Theorem pipeline_live (config : PipelineConfig) (reader : list read_event) (hint : option Z) (s : pipe) :
  0 < pc_block_size config → reachable config reader hint s →
  (waiting s → ∃ l s', step (pc_block_size config) s l s') ∧
  (dropped s → io_finished s ∨ ∃ s', step (pc_block_size config) s Tau s') ∧
  (waiting s ∨ dropped s → ∀ s', step (pc_block_size config) s Tau s' → io_measure s' < io_measure s).
Proof.
  intros Hbs Hr. pose proof (reachable_ok config reader hint Hbs s Hr) as Hok.
  split; [by apply waiting_progress|]. split; [by apply dropped_progress|].
  intros Hw s' Hst. inversion Hst; subst; try by destruct Hw. by eapply io_step_measure.
Qed.

Lemma demo_reachable : ∃ s, reachable demo_config [RData [x61; x62; x63]] None s ∧ waiting s.
Proof.
  eexists. split; [|]. { exists []. eapply ex_tau; [eapply st_wait; reflexivity|]. apply ex_nil. }
  exact I.
Qed.

Lemma pipeline_live_witness :
  ∃ s l s', reachable demo_config [RData [x61; x62; x63]] None s ∧ waiting s ∧ step 2 s l s'.
Proof.
  destruct demo_reachable as (s & Hr & Hw).
  destruct (pipeline_live demo_config [RData [x61; x62; x63]] None s ltac:(simpl; lia) Hr) as (Hp & _).
  destruct (Hp Hw) as (l & s' & Hs). exists s, l, s'. split; [exact Hr|]. split; [exact Hw|exact Hs].
Defined.

(** two buffers are enough. In every reachable state at most two buffers
    exist, none is longer than the block size, and at most one message is in the
    data channel. *)
Theorem pipeline_two_buffers (config : PipelineConfig) (reader : list read_event) (hint : option Z) (s : pipe) :
  0 < pc_block_size config → reachable config reader hint s →
  length (all_buffers s) ≤ 2 ∧ Forall (λ b, length b ≤ pc_block_size config) (all_buffers s) ∧
  length (pp_data s) ≤ 1.
Proof.
  intros Hbs Hr. destruct (reachable_ok config reader hint Hbs s Hr) as [Hm Hsm].
  split; [|split; [exact Hsm|]]; destruct s as [m data rec io o]; unfold main_ok in Hm; cbn [pp_main] in Hm.
  - destruct m as [d|c d|]; [|destruct Hm as (_ & _ & _ & _ & _ & _ & _ & _ & Hth)|by destruct Hm as (_ & _ & ?)].
    + destruct Hm as (_ & _ & Hm). destruct (db_threaded d).
      * destruct Hm as (_ & [_ Hth] & _). cbn [pp_io] in Hth. destruct io as [|?|? ?|[?| |?] ?|]; try done; lia.
      * cbn [pp_io pp_data pp_recycle] in Hm. destruct Hm as (-> & -> & -> & Hp & _).
        rewrite buffers_length. cbn. rewrite Hp, app_nil_r. destruct (db_current d); simpl; lia.
    + cbn [pp_io] in Hth. destruct io as [|?|? ?|[?| |?] ?|]; try done; lia.
  - cbn. destruct m as [d|c d|].
    + destruct Hm as (_ & _ & Hm). destruct (db_threaded d); [by destruct Hm as (_ & [? _] & _)|].
      cbn in Hm. destruct Hm as (_ & -> & _). simpl. lia.
    + by destruct Hm as (_ & _ & _ & _ & _ & _ & _ & ? & _).
    + cbn in Hm. destruct Hm as (_ & -> & _). simpl. lia.
Qed.

Lemma pipeline_two_buffers_witness :
  ∃ s, reachable demo_config [RData [x61; x62; x63]] None s ∧ length (all_buffers s) ≤ 2.
Proof.
  destruct demo_reachable as (s & Hr & Hw). exists s. split; [exact Hr|].
  exact (proj1 (pipeline_two_buffers demo_config [RData [x61; x62; x63]] None s ltac:(simpl; lia) Hr)).
Defined.

(** *** Readers that do not fail *)

(** Reads deliver data or are interrupted; the end of the list is the end of
    the file. *)
Definition clean_reader (reader : list read_event) : Prop :=
  Forall (λ e, e = RInterrupted ∨ ∃ b bs, e = RData (b :: bs)) reader.

Lemma read_fill_clean reader : ∀ want, clean_reader reader →
  ∃ rest, read_fill reader want = (Ok (take want (reader_data reader)), rest) ∧ clean_reader rest ∧
    reader_data rest = drop want (reader_data reader).
Proof.
  induction reader as [|ev reader IH]; intros want Hc; cbn [read_fill].
  { destruct (want =? 0); exists []; cbn; rewrite take_nil, drop_nil; split_and!; done || constructor. }
  destruct (Nat.eqb_spec want 0) as [-> |Hw]; [exists (ev :: reader); by rewrite drop_0|].
  apply Forall_cons in Hc as [[-> |(b & bs & ->)] Hc]; [by apply IH|].
  change (reader_data (RData (b :: bs) :: reader)) with ((b :: bs) ++ reader_data reader).
  destruct (Nat.leb_spec (length (b :: bs)) want) as [Hle|Hgt].
  - destruct (IH (want - length (b :: bs)) Hc) as (rest & -> & Hcr & Hd). exists rest.
    rewrite take_app, drop_app, (take_ge (b :: bs)), (drop_ge (b :: bs)) by done. done.
  - exists (RData (drop want (b :: bs)) :: reader).
    rewrite take_app_le, drop_app_le by lia. destruct (drop want (b :: bs)) as [|x l] eqn:E.
    { apply (f_equal length) in E. rewrite length_drop in E. simpl in *. lia. }
    split_and!; [done| |done]. constructor; [right; by eexists _, _|done].
Qed.

(** The blocks of a file. *)
Definition file_blocks (bs : nat) (data : list byte) : list (list byte) := par_chunks (length data) bs data.

Lemma par_chunks_fuel {A} n f1 f2 (l : list A) : 0 < n → length l ≤ f1 → length l ≤ f2 →
  par_chunks f1 n l = par_chunks f2 n l.
Proof.
  intros Hn. revert f2 l. induction f1 as [|f1 IH]; intros f2 l H1 H2.
  { destruct l; [|simpl in H1; lia]. by destruct f2. }
  destruct f2 as [|f2]; [destruct l; [done|simpl in H2; lia]|]. cbn [par_chunks].
  destruct l as [|x l]; [done|]. f_equal. apply IH; rewrite length_drop; simpl in *; lia.
Qed.

Lemma file_blocks_unfold bs data : 0 < bs → data ≠ [] →
  file_blocks bs data = take bs data :: file_blocks bs (drop bs data).
Proof.
  intros Hb Hd. destruct data as [|x data]; [done|]. unfold file_blocks. cbn [length par_chunks]. f_equal.
  apply par_chunks_fuel; [done|rewrite length_drop; simpl; lia|lia].
Qed.

Section Clean.
Context (bs : nat) (Hbs : 0 < bs).

Lemma sync_results_clean n : ∀ reader, reader_size reader < n → clean_reader reader →
  sync_results bs reader = map (λ b, Ok (Some b)) (file_blocks bs (reader_data reader)).
Proof.
  induction n as [|n IH]; intros reader Hn Hc; [lia|]. rewrite sync_results_unfold by done.
  destruct (read_fill_clean reader bs Hc) as (rest & Hr & Hcr & Hd). rewrite Hr.
  destruct (take bs (reader_data reader)) as [|x l] eqn:E.
  - destruct (reader_data reader); [done|]. by destruct bs; [lia|].
  - rewrite file_blocks_unfold by (done || by intros E'; rewrite E', take_nil in E). rewrite E. cbn [map].
    rewrite <- Hd. f_equal. apply IH; [|done]. apply read_fill_size in Hr as [_ Hr]; [|done]. simpl in Hr. lia.
Qed.

Lemma deliver_clean n : ∀ c reader, reader_size reader < n → clean_reader reader →
  deliver c (messages bs reader)
  = Ok (Some c) :: map (λ b, Ok (Some b)) (file_blocks bs (reader_data reader)).
Proof.
  induction n as [|n IH]; intros c reader Hn Hc; [lia|]. rewrite messages_unfold by done.
  destruct (read_fill_clean reader bs Hc) as (rest & Hr & Hcr & Hd). rewrite Hr.
  destruct (take bs (reader_data reader)) as [|x l] eqn:E.
  - destruct (reader_data reader); [done|]. by destruct bs; [lia|].
  - rewrite file_blocks_unfold by (done || by intros E'; rewrite E', take_nil in E). rewrite E.
    cbn [deliver map]. f_equal. rewrite <- Hd. apply IH; [|done].
    apply read_fill_size in Hr as [_ Hr]; [|done]. simpl in Hr. lia.
Qed.
End Clean.

Lemma expected_clean config reader hint : 0 < pc_block_size config → clean_reader reader →
  expected_results config reader hint
  = map (λ b, Ok (Some b)) (file_blocks (pc_block_size config) (reader_data reader)).
Proof.
  intros Hbs Hc. unfold expected_results. destruct (pipelines config hint).
  - destruct (read_fill_clean reader (pc_block_size config) Hc) as (rest & Hr & Hcr & Hd). rewrite Hr.
    destruct (take _ (reader_data reader)) as [|x l] eqn:E.
    + destruct (reader_data reader); [done|]. by destruct (pc_block_size config); [lia|].
    + rewrite file_blocks_unfold by (done || by intros E'; rewrite E', take_nil in E). rewrite E, <- Hd.
      eapply deliver_clean; [done|apply Nat.lt_succ_diag_r|done].
  - eapply sync_results_clean; [done|apply Nat.lt_succ_diag_r|done].
Qed.

(** when no read fails, pipelining changes nothing: with or without the
    thread, whatever the configuration, the size hint, the splitting of reads and
    the schedule, the calls return the file's blocks in order and then [None]. *)
Theorem pipeline_delivers_file (config : PipelineConfig) (reader : list read_event) (hint : option Z)
    (rs : list (result io_error (option (list byte)))) (s : pipe) :
  0 < pc_block_size config → clean_reader reader →
  executes (pc_block_size config) (with_size_hint reader config hint) rs s →
  ∀ k r, rs !! k = Some r →
    r = Ok (file_blocks (pc_block_size config) (reader_data reader) !! k).
Proof.
  intros Hbs Hc Hex k r Hk. destruct (initial_ok config reader hint Hbs) as [Hok Ho].
  destruct (executes_ok config Hbs _ _ _ Hex Hok) as (_ & _ & Hp). rewrite (Hp k r Hk), Ho.
  rewrite expected_clean by done. rewrite nth_lookup, list_lookup_fmap.
  by destruct (file_blocks _ _ !! k).
Qed.

Lemma pipeline_delivers_file_witness :
  ∃ s, executes 2 (with_size_hint [RData [x61; x62; x63]] demo_config (Some 5%Z)) [Ok (Some [x61; x62])] s ∧
    Ok (Some [x61; x62]) = Ok (E := io_error) (file_blocks 2 [x61; x62; x63] !! 0).
Proof.
  assert (Hex : ∃ s, executes 2 (with_size_hint [RData [x61; x62; x63]] demo_config (Some 5%Z))
    [Ok (Some [x61; x62])] s).
  { eexists. eapply ex_tau; [eapply st_wait; reflexivity|].
    eapply ex_tau; [eapply st_io, io_recv|].
    eapply ex_tau; [eapply st_io, io_reads; reflexivity|].
    eapply ex_tau; [eapply st_io, io_send; [reflexivity|simpl; lia]|].
    eapply ex_ret; [eapply st_recv; reflexivity|]. apply ex_nil. }
  destruct Hex as [s Hex]. exists s. split; [exact Hex|].
  refine (pipeline_delivers_file demo_config [RData [x61; x62; x63]] (Some 5%Z) _ s ltac:(simpl; lia) _
    Hex 0 _ eq_refl). constructor; [right; eexists _, _; reflexivity|constructor].
Defined.

(** *** Where the pipeline falls short of its description *)

(** The thread never reads while the caller works on a block. In every
    reachable state in which the caller holds a block that [next_block] returned,
    the I/O thread has no step: both buffers are with the main thread, or the
    thread has finished. The two-buffer design gives no overlap of reading and
    hashing. *)
Theorem pipeline_no_overlap (config : PipelineConfig) (reader : list read_event) (hint : option Z)
    (s : pipe) (d : DoubleBufferedReader) (block : list byte) :
  0 < pc_block_size config → reachable config reader hint s →
  pp_main s = MIdle d → db_prefetched d = Some block →
  ¬ ∃ data' rec' io', io_step (pc_block_size config) (pp_open s) (pp_data s) (pp_recycle s) (pp_io s)
      data' rec' io'.
Proof.
  intros Hbs Hr Hmain Hpre (data' & rec' & io' & Hst).
  destruct (reachable_ok config reader hint Hbs s Hr) as [Hm _].
  destruct s as [m data rec io o]. cbn [pp_main pp_open pp_data pp_recycle pp_io] in *. subst m.
  destruct Hm as (Ho & _ & Hm). cbn [pp_open] in Ho. subst o.
  destruct (db_threaded d); [|destruct Hm as (_ & _ & _ & Hp & _); congruence].
  destruct Hm as (_ & [_ Hth] & Hcur). rewrite buffers_length in Hth. cbn [main_buffers pp_io pp_data] in Hth.
  rewrite Hpre in Hth. destruct (db_eof d).
  - inversion Hst; subst; try done; try (by destruct Hth as (? & _)). destruct msg; by destruct Hth as (? & _).
  - destruct (Hcur eq_refl) as [c Hc]. rewrite Hc in Hth.
    inversion Hst as [? b ? rd|? ? b rd msg rd' Hrd|? ? msg rd _ Hl|? ? msg rd Hc'|? rd Hc']; subst; try done.
    + destruct Hth as (_ & _ & Hth). simpl in Hth. lia.
    + destruct Hth as (_ & _ & Hth). simpl in Hth. lia.
    + destruct msg; destruct Hth as (_ & _ & Hth); simpl in Hth; lia.
Qed.

Lemma demo_holding : ∃ s d, reachable demo_config [RData [x61; x62; x63; x64; x65]] None s ∧
  pp_main s = MIdle d ∧ db_prefetched d = Some [x61; x62] ∧ db_eof d = false.
Proof.
  eexists _, _. split.
  { exists [Ok (Some [x61; x62])]. eapply ex_tau; [eapply st_wait; reflexivity|].
    eapply ex_tau; [eapply st_io, io_recv|].
    eapply ex_tau; [eapply st_io, io_reads; reflexivity|].
    eapply ex_tau; [eapply st_io, io_send; [reflexivity|simpl; lia]|].
    eapply ex_ret; [eapply st_recv; reflexivity|]. apply ex_nil. }
  split_and!; reflexivity.
Qed.

Lemma pipeline_no_overlap_witness :
  ∃ s, reachable demo_config [RData [x61; x62; x63; x64; x65]] None s ∧
    ¬ ∃ data' rec' io', io_step 2 (pp_open s) (pp_data s) (pp_recycle s) (pp_io s) data' rec' io'.
Proof.
  destruct demo_holding as (s & d & Hr & Hm & Hp & _). exists s. split; [exact Hr|].
  exact (pipeline_no_overlap demo_config [RData [x61; x62; x63; x64; x65]] None s d [x61; x62]
    ltac:(simpl; lia) Hr Hm Hp).
Defined.

(** An error of the very first read is lost in pipelined mode. Every call
    then returns end of file, in every interleaving, where the synchronous reader
    returns the error. *)
Theorem pipeline_loses_first_error (config : PipelineConfig) (e : io_error) (rest : list read_event)
    (rs : list (result io_error (option (list byte)))) (s : pipe) :
  0 < pc_block_size config → pc_enabled config = true →
  executes (pc_block_size config) (with_size_hint (RFail e :: rest) config None) rs s →
  (∀ k r, rs !! k = Some r → r = Ok None) ∧
  nth 0 (expected_results (mkPipeline (pc_block_size config) (pc_min_file_size config) false)
           (RFail e :: rest) None) (Ok None) = Err e.
Proof.
  intros Hbs Hen Hex. assert (Hw : pc_block_size config =? 0 = false) by (apply Nat.eqb_neq; lia). split.
  - intros k r Hk. destruct (initial_ok config (RFail e :: rest) None Hbs) as [Hok Ho].
    destruct (executes_ok config Hbs _ _ _ Hex Hok) as (_ & _ & Hp). rewrite (Hp k r Hk), Ho.
    unfold expected_results, pipelines. rewrite Hen. cbn [andb read_fill]. rewrite Hw. by destruct k.
  - unfold expected_results, pipelines. cbn [pc_enabled andb pc_block_size].
    rewrite sync_results_unfold by done. cbn [read_fill]. by rewrite Hw.
Qed.

Lemma pipeline_loses_first_error_witness :
  ∃ s, executes 2 (with_size_hint [RFail OtherError; RData [x61]] demo_config None) [Ok None] s ∧
    nth 0 (expected_results (mkPipeline 2 0 false) [RFail OtherError; RData [x61]] None) (Ok None)
    = Err OtherError.
Proof.
  assert (Hex : ∃ s, executes 2 (with_size_hint [RFail OtherError; RData [x61]] demo_config None) [Ok None] s).
  { eexists. eapply ex_ret; [eapply st_return; reflexivity|]. apply ex_nil. }
  destruct Hex as [s Hex]. exists s. split; [exact Hex|].
  exact (proj2 (pipeline_loses_first_error demo_config OtherError [RData [x61]] [Ok None] s
    ltac:(simpl; lia) eq_refl Hex)).
Defined.

(** ** Clients *)

Section Clients.
Context `{HasCpu} `{HashCrates}.

Record BlockChecksums := mkChecksums { bc_rolling : RollingDigest; bc_strong : list byte; bc_len : nat }.

Definition block_checksums (digest : list byte → list byte) (block : list byte) : BlockChecksums :=
  mkChecksums (digest_from_bytes block) (digest block) (length block).

(** The loop over [next_block]: [results] are what the calls return, [None] when
    they are used up. *)
Fixpoint compute_checksums_pipelined (digest : list byte → list byte)
    (results : list (result io_error (option (list byte)))) : result io_error (list BlockChecksums) :=
  match results with
  | [] | Ok None :: _ => Ok []
  | Err e :: _ => Err e
  | Ok (Some block) :: rest =>
      match compute_checksums_pipelined digest rest with
      | Ok out => Ok (block_checksums digest block :: out)
      | Err e => Err e
      end
  end.

(** [PipelinedChecksumIterator::next_block_checksums]. *)
Definition next_block_checksums (digest : list byte → list byte)
    (r : result io_error (option (list byte))) : result io_error (option BlockChecksums) :=
  match r with
  | Err e => Err e
  | Ok (Some block) => Ok (Some (block_checksums digest block))
  | Ok None => Ok None
  end.

(** The state of the loop of [generate_signature_pipelined]. *)
Record sig_state := mkSig {
  ss_blocks : list SignatureBlock;
  ss_total : Z;
  ss_index : nat;
  ss_batch : list (list byte);
  ss_rolling : list RollingDigest;
  ss_start : nat;
}.

(** The body of the loop for one chunk. *)
Definition pipelined_chunk (layout : SignatureLayout) (algorithm : SignatureAlgorithm)
    (expected strong_len : nat) (chunk : list byte) (st : sig_state) : result SignatureError sig_state :=
  if expected <=? ss_index st then Err (TrailingData (Z.of_nat (length chunk)))
  else
    let is_last := ss_index st + 1 =? expected in
    let expected_len :=
      Z.to_nat (if is_last && negb (sl_remainder layout =? 0)%Z
                then sl_remainder layout else sl_block_length layout) in
    if negb (length chunk =? expected_len) then
      if length chunk <? expected_len then Err (SigIo UnexpectedEof)
      else Err (TrailingData (Z.of_nat (length chunk - expected_len)))
    else
      let total := saturating_add u64_max (ss_total st) (Z.of_nat (length chunk)) in
      let rolling := ss_rolling st ++ [digest_from_bytes chunk] in
      let batch := ss_batch st ++ [chunk] in
      let index := S (ss_index st) in
      if (BATCH_SIZE <=? length batch) || (index =? expected) then
        let strong_digests := compute_truncated_batch algorithm batch strong_len in
        let new_blocks :=
          imap (λ i strong, mkBlock (ss_start st + i) (nth i rolling (mkDigest 0 0 0)) strong) strong_digests in
        Ok (mkSig (ss_blocks st ++ new_blocks) total index [] [] index)
      else Ok (mkSig (ss_blocks st) total index batch rolling (ss_start st)).

Fixpoint pipelined_loop (layout : SignatureLayout) (algorithm : SignatureAlgorithm)
    (expected strong_len : nat) (results : list (result io_error (option (list byte)))) (st : sig_state)
    : result SignatureError sig_state :=
  match results with
  | [] | Ok None :: _ => Ok st
  | Err e :: _ => Err (SigIo e)
  | Ok (Some chunk) :: rest =>
      match pipelined_chunk layout algorithm expected strong_len chunk st with
      | Err e => Err e
      | Ok st => pipelined_loop layout algorithm expected strong_len rest st
      end
  end.

(** The configuration the generator gives its reader. *)
Definition signature_pipeline (layout : SignatureLayout) (config : PipelineConfig) : PipelineConfig :=
  mkPipeline (Z.to_nat (sl_block_length layout)) (pc_min_file_size config) (pc_enabled config).

(** [next] gives the results of the reader's calls. *)
Definition generate_signature_pipelined
    (next : PipelineConfig → option Z → list (result io_error (option (list byte))))
    (layout : SignatureLayout) (algorithm : SignatureAlgorithm) (config : PipelineConfig)
    : result SignatureError FileSignature :=
  let strong_len := Z.to_nat (sl_strong_sum_length layout) in
  if digest_len algorithm <? strong_len then Err (DigestLengthMismatch algorithm strong_len)
  else if (usize_max <? sl_block_count layout)%Z then Err (TooManyBlocks (sl_block_count layout))
  else
    let expected := Z.to_nat (sl_block_count layout) in
    let results := next (signature_pipeline layout config) (Some (layout_file_size layout)) in
    match pipelined_loop layout algorithm expected strong_len results (mkSig [] 0 0 [] [] 0) with
    | Err e => Err e
    | Ok st =>
        if ss_index st <? expected then Err (SigIo UnexpectedEof)
        else Ok (mkSignature layout (ss_blocks st) (ss_total st))
    end.
End Clients.

Section PipelinedSignature.
Context `{HasCpu} `{HashCratesLaws}.
Context (layout : SignatureLayout) (algorithm : SignatureAlgorithm) (n : nat) (data : list byte).
Context (Hlayout : layout_of layout (Z.of_nat n)) (Hdata : (Z.of_nat (length data) ≤ u64_max)%Z).
Local Notation bl := (Z.to_nat (sl_block_length layout)).
Local Notation expected := (Z.to_nat (sl_block_count layout)).
Local Notation strong_len := (Z.to_nat (sl_strong_sum_length layout)).

Definition block_pos_at (i : nat) : nat := (i * bl) `min` n.

Lemma expected_cover : expected * bl < n + bl ∧ n ≤ expected * bl ∧ 0 < bl.
Proof. destruct (expected_bounds layout n Hlayout). destruct Hlayout. lia. Qed.

Lemma block_pos_lt i : i < expected → block_pos_at i = i * bl.
Proof.
  intros Hi. destruct expected_cover as (H1' & _ & _). unfold block_pos_at.
  assert (S i * bl ≤ expected * bl) by (apply Nat.mul_le_mono_r; lia). simpl in *. lia.
Qed.

(** The chunks processed so far, and what the state holds of them. *)
Definition processed (i : nat) : list (list byte) := map (layout_chunk layout data) (seq 0 i).

Definition sig_inv (st : sig_state) : Prop :=
  ss_index st ≤ expected ∧ block_pos_at (ss_index st) ≤ length data ∧
  ss_start st + length (ss_batch st) = ss_index st ∧
  ss_blocks st ++ blocks_at algorithm strong_len (ss_start st) (ss_batch st)
  = blocks_at algorithm strong_len 0 (processed (ss_index st)) ∧
  ss_rolling st = map digest_from_bytes (ss_batch st) ∧
  (ss_index st = expected → ss_batch st = []) ∧
  ss_total st = Z.of_nat (block_pos_at (ss_index st)).

Lemma new_blocks_at start batch :
  imap (λ i strong, mkBlock (start + i) (nth i (map digest_from_bytes batch) (mkDigest 0 0 0)) strong)
    (compute_truncated_batch algorithm batch strong_len)
  = blocks_at algorithm strong_len start batch.
Proof.
  rewrite compute_batch_eq. unfold blocks_at. change (map (λ data0, _) batch)
    with ((λ data0, compute_truncated algorithm data0 strong_len) <$> batch).
  rewrite imap_fmap. apply imap_ext. intros i c Hc. unfold compose. f_equal.
  rewrite nth_lookup, list_lookup_fmap, Hc. done.
Qed.

(** One good chunk. *)
Lemma pipelined_chunk_good st : sig_inv st → ss_index st < expected →
  length (layout_chunk layout data (ss_index st)) = block_pos_at (S (ss_index st)) - block_pos_at (ss_index st) →
  ∃ st', pipelined_chunk layout algorithm expected strong_len (layout_chunk layout data (ss_index st)) st = Ok st' ∧
    sig_inv st' ∧ ss_index st' = S (ss_index st).
Proof.
  intros (Hi & Hp & Hst & Hb & Hr & He & Ht) Hlt Hlen. set (i := ss_index st) in *.
  set (c := layout_chunk layout data i) in *.
  assert (Hmono : block_pos_at i ≤ block_pos_at (S i)) by (unfold block_pos_at; simpl; lia).
  assert (Hfit : block_pos_at (S i) ≤ length data).
  { rewrite (block_pos_lt i Hlt) in Hlen, Hmono, Hp. unfold c, layout_chunk in Hlen.
    rewrite length_take, length_drop in Hlen. lia. }
  unfold pipelined_chunk. fold i. rewrite (proj2 (Nat.leb_gt _ _)) by done.
  rewrite (target_len layout n Hlayout i Hlt). fold (block_pos_at (S i)) (block_pos_at i).
  rewrite Hlen, Nat.eqb_refl. cbn [negb].
  assert (Htot : saturating_add u64_max (ss_total st) (Z.of_nat (block_pos_at (S i) - block_pos_at i))
    = Z.of_nat (block_pos_at (S i))) by (rewrite Ht; unfold saturating_add; lia).
  assert (Hproc : ss_blocks st ++ blocks_at algorithm strong_len (ss_start st) (ss_batch st ++ [c])
    = blocks_at algorithm strong_len 0 (processed (S i))).
  { rewrite blocks_at_app, app_assoc, Hb. unfold processed.
    rewrite seq_S, map_app, blocks_at_app, length_map, length_seq. cbn [map Nat.add].
    do 2 f_equal. lia. }
  rewrite Hr. change [digest_from_bytes c] with (map digest_from_bytes [c]). rewrite <- map_app.
  destruct ((BATCH_SIZE <=? _) || (S i =? expected)) eqn:Eb.
  - eexists. split; [done|]. split; [|done]. unfold sig_inv. cbn [ss_index ss_start ss_batch ss_blocks ss_rolling ss_total].
    rewrite new_blocks_at, Hproc. change (blocks_at _ _ _ []) with (@nil SignatureBlock). rewrite app_nil_r.
    cbn [length map]. split_and!; try done; lia.
  - eexists. split; [done|]. split; [|done]. unfold sig_inv. cbn [ss_index ss_start ss_batch ss_blocks ss_rolling ss_total].
    apply orb_false_elim in Eb as [_ Eb]. apply Nat.eqb_neq in Eb. rewrite Hproc, length_app. cbn [length].
    split_and!; try done; lia.
Qed.

(** The loop, by what the file holds compared with the layout. *)
Lemma pipelined_loop_spec fuel : ∀ st, sig_inv st → length data - block_pos_at (ss_index st) < fuel →
  let r := pipelined_loop layout algorithm expected strong_len
    (map (λ b, Ok (Some b)) (file_blocks bl (drop (block_pos_at (ss_index st)) data))) st in
  (length data = n → ∃ st', r = Ok st' ∧ sig_inv st' ∧ ss_index st' = expected) ∧
  (length data < n → r = Err (SigIo UnexpectedEof) ∨ ∃ st', r = Ok st' ∧ ss_index st' < expected) ∧
  (n < length data → ∃ k, (0 < k)%Z ∧ r = Err (TrailingData k)).
Proof.
  destruct expected_cover as (Hc1 & Hc2 & Hbl).
  induction fuel as [|fuel IH]; intros st Hinv Hf; [lia|]. pose proof Hinv as (Hi & Hp & _).
  set (i := ss_index st) in *. set (rest := drop (block_pos_at i) data).
  assert (Hrl : length rest = length data - block_pos_at i) by apply length_drop.
  destruct (decide (rest = [])) as [Hnil|Hne].
  { rewrite Hnil in *. simpl in Hrl. cbn. split_and!.
    - intros Hd. exists st. split_and!; [done|done|]. unfold block_pos_at in *. fold i. nia.
    - intros Hd. right. exists st. split; [done|]. fold i. unfold block_pos_at in *.
      destruct (Nat.eq_dec i expected) as [E|]; [|lia]. rewrite E in *. lia.
    - intros Hd. unfold block_pos_at in *. lia. }
  assert (0 < length rest) by (destruct rest; [done|simpl; lia]).
  rewrite file_blocks_unfold by done. cbn [map pipelined_loop].
  destruct (decide (i < expected)) as [Hlt|Hge].
  2:{ assert (Ei : i = expected) by lia. unfold pipelined_chunk. fold i. rewrite (proj2 (Nat.leb_le _ _)) by lia.
      assert (Hpi : block_pos_at i = n) by (unfold block_pos_at; rewrite Ei; lia). rewrite Hpi in *.
      split_and!; [lia|lia|]. intros _. eexists. split; [|done]. rewrite length_take. lia. }
  assert (Hpi := block_pos_lt i Hlt).
  assert (Hchunk : take bl rest = layout_chunk layout data i)
    by (unfold rest, layout_chunk; by rewrite Hpi).
  assert (HSi : block_pos_at (S i) = (i * bl + bl) `min` n) by (unfold block_pos_at; f_equal; lia).
  assert (Hlc : length (layout_chunk layout data i) = bl `min` length rest) by (rewrite <- Hchunk; apply length_take).
  destruct (Nat.eq_dec (length (layout_chunk layout data i)) (block_pos_at (S i) - block_pos_at i)) as [Hg|Hbad].
  - rewrite Hchunk. destruct (pipelined_chunk_good st Hinv Hlt Hg) as (st' & Hgood & Hinv' & Hi').
    fold i in Hgood. rewrite Hgood.
    assert (Hdrop : drop bl rest = drop (block_pos_at (S i)) data).
    { unfold rest. rewrite drop_drop. destruct (Nat.le_gt_cases bl (length rest)) as [Hle|Hgt].
      - f_equal. lia.
      - rewrite !drop_ge; [done|..]; lia. }
    rewrite Hdrop. fold i in Hi'. rewrite <- Hi'. apply IH; [done|]. rewrite Hi'. lia.
  - unfold pipelined_chunk. fold i. rewrite (proj2 (Nat.leb_gt _ _)) by done.
    rewrite (target_len layout n Hlayout i Hlt). fold (block_pos_at (S i)) (block_pos_at i).
    rewrite Hchunk, (proj2 (Nat.eqb_neq _ _)) by done. cbn [negb].
    destruct (Nat.ltb_spec (length (layout_chunk layout data i)) (block_pos_at (S i) - block_pos_at i)).
    + split_and!; [lia| |lia]. intros _. by left.
    + split_and!; [lia|lia|]. intros _. eexists. split; [|done]. lia.
Qed.
End PipelinedSignature.

Lemma blocks_at_layout `{HasCpu} `{HashCrates} layout algorithm data k :
  blocks_at algorithm (Z.to_nat (sl_strong_sum_length layout)) 0 (processed layout data k)
  = map (layout_block layout algorithm data) (seq 0 k).
Proof.
  induction k as [|k IH]; [done|]. unfold processed in *.
  rewrite seq_S, !map_app, blocks_at_app, IH, length_map, length_seq. f_equal.
  unfold blocks_at. cbn [map imap Nat.add]. by rewrite Nat.add_0_r.
Qed.

(** the pipelined generator is the sequential one. For any reader that does
    not fail and any configuration, it returns the same signature or the same
    error; only the byte count of a trailing-data error may differ. *)
Theorem pipelined_signature_agrees `{HasCpu} `{HashCratesLaws} (layout : SignatureLayout) (n : nat)
    (algorithm : SignatureAlgorithm) (config : PipelineConfig) (reader : list read_event) :
  layout_of layout (Z.of_nat n) → (Z.of_nat n ≤ u64_max)%Z →
  (Z.of_nat (length (reader_data reader)) ≤ u64_max)%Z → clean_reader reader →
  let pipelined :=
    generate_signature_pipelined (λ c h, expected_results c reader h) layout algorithm config in
  match generate_file_signature (reader_data reader) layout algorithm with
  | Err (TrailingData _) => ∃ k, (0 < k)%Z ∧ pipelined = Err (TrailingData k)
  | r => pipelined = r
  end.
Proof.
  intros Hl Hn Hd Hc. set (data := reader_data reader). cbv zeta.
  unfold generate_signature_pipelined.
  destruct (Nat.ltb_spec (digest_len algorithm) (Z.to_nat (sl_strong_sum_length layout))) as [Hs|Hs].
  { unfold generate_file_signature. by rewrite (proj2 (Nat.ltb_lt _ _)). }
  assert (Hcount : (usize_max <? sl_block_count layout)%Z = false).
  { destruct Hl. unfold usize_max, i32_max in *. lia. }
  rewrite Hcount, expected_clean by (try done; simpl; destruct Hl; lia). fold data.
  rewrite (Signature.generate_spec layout n Hl Hn data algorithm) by lia.
  destruct (pipelined_loop_spec layout algorithm n data Hl Hd (S (length data)) (mkSig [] 0 0 [] [] 0))
    as (H1' & H2' & H3').
  { unfold sig_inv. cbn. split_and!; try done; lia. }
  { lia. }
  change (block_pos_at layout n (ss_index (mkSig [] 0 0 [] [] 0))) with 0 in *. rewrite drop_0 in *.
  cbn [signature_pipeline pc_block_size] in *.
  destruct (decide (length data = n)) as [E|E]; [|destruct (decide (length data < n)) as [Elt|Egt]].
  - destruct (H1' E) as (st & -> & Hinv & Hi). rewrite Hi, Nat.ltb_irrefl.
    destruct Hinv as (_ & _ & _ & Hb & _ & Hbatch & Ht). rewrite Hi in *. rewrite (Hbatch eq_refl) in Hb.
    change (blocks_at _ _ _ []) with (@nil SignatureBlock) in Hb. rewrite app_nil_r in Hb.
    rewrite Hb, Ht, blocks_at_layout. unfold block_pos_at. do 2 f_equal.
    destruct (expected_bounds layout n Hl). lia.
  - destruct (H2' Elt) as [-> |(st & -> & Hi)]; [done|]. by rewrite (proj2 (Nat.ltb_lt _ _)).
  - destruct (H3' ltac:(lia)) as (k & Hk & ->). by exists k.
Qed.

Lemma pipelined_signature_agrees_witness :
  let cpu : HasCpu := OtherArch in let crates := toy_crates in
  generate_signature_pipelined
    (λ c h, expected_results c [RData [x61; x62; x63]; RInterrupted; RData [x64; x65]] h)
    (mkLayout 2 1 3 2) Md4 pipeline_default
  = generate_file_signature [x61; x62; x63; x64; x65] (mkLayout 2 1 3 2) Md4.
Proof.
  intros cpu crates.
  assert (Hl : layout_of (mkLayout 2 1 3 2) (Z.of_nat 5))
    by (split; simpl; unfold i32_max; try lia; reflexivity).
  assert (Hc : clean_reader [RData [x61; x62; x63]; RInterrupted; RData [x64; x65]])
    by (repeat (apply Forall_cons; split); eauto; constructor).
  exact (@pipelined_signature_agrees OtherArch toy_crates toy_crates_ok (mkLayout 2 1 3 2) 5 Md4 pipeline_default
    [RData [x61; x62; x63]; RInterrupted; RData [x64; x65]] Hl ltac:(vm_compute; discriminate)
    ltac:(vm_compute; discriminate) Hc).
Defined.

(** The checksums of a pipelined read are those of the file's blocks. *)
Lemma compute_checksums_clean `{HasCpu} digest config reader hint :
  0 < pc_block_size config → clean_reader reader →
  compute_checksums_pipelined digest (expected_results config reader hint)
  = Ok (map (block_checksums digest) (file_blocks (pc_block_size config) (reader_data reader))).
Proof.
  intros Hbs Hc. rewrite expected_clean by done.
  induction (file_blocks _ _) as [|b l IH]; [done|]. cbn [map compute_checksums_pipelined]. by rewrite IH.
Qed.
