(* ===== verification/MapFile.v ===== *)
(** * Basis file access ([crates/transfer/src/map_file/])

    The [MapStrategy] trait and its implementations: the sliding window of
    [buffered.rs], the memory map of [mmap.rs] and the adaptive choice of
    [adaptive.rs].  The trait is a class of operations; what it promises its
    clients is the class [MapStrategyLaws]: a request for a range of at most
    [limit] bytes returns that range of the file, or the end-of-file error when
    it is not inside the file, whatever was requested before.  The three
    strategies are instances.  The window shifts the bytes it can reuse and reads
    the rest, so its invariant is that its valid part is the file's.

    The file is its contents, which do not change while it is mapped; the
    positioned read and the seek followed by a read are the same read here. *)

From S2P Require Import Prelude.

(** ** The trait *)

(** [map_ptr] returns the bytes and the mapper afterwards. *)
Class MapStrategy (S : Type) := {
  map_ptr : S → nat → nat → result io_error (list byte) * S;
  window_size : S → nat;
  file_size : S → nat;
  buffered_file : S → option (list byte);
}.

(** What a request stands for. *)
Definition slice_request (file : list byte) (offset len : nat) : result io_error (list byte) :=
  if decide (len = 0) then Ok []
  else if decide (offset + len ≤ length file) then Ok (take len (drop offset file))
  else Err UnexpectedEof.

Class MapStrategyLaws (S : Type) `{MapStrategy S} := {
  map_inv : list byte → nat → S → Prop;
  map_ptr_spec : ∀ file limit s offset len, map_inv file limit s → len ≤ limit →
    ∃ s', map_ptr s offset len = (slice_request file offset len, s') ∧ map_inv file limit s';
  file_size_spec : ∀ file limit s, map_inv file limit s → file_size s = length file;
  buffered_file_spec : ∀ file limit s f, map_inv file limit s → buffered_file s = Some f → f = file;
  map_fits : ∀ file limit s, map_inv file limit s → (Z.of_nat (length file) < u64_max)%Z;
}.

(** ** The sliding window *)

Definition MAX_MAP_SIZE : nat := 256 * 1024.
Definition ALIGN_BOUNDARY : nat := 1024.

(** [offset & !(ALIGN_BOUNDARY - 1)] on a [u64]. *)
Definition align_down (offset : nat) : nat :=
  Z.to_nat (Z.land (Z.of_nat offset) (Z.lxor u64_max (Z.of_nat ALIGN_BOUNDARY - 1))).

(** [offset + len > bound], computed with a saturating addition. *)
Definition ends_past (offset len bound : nat) : bool :=
  (Z.of_nat bound <? saturating_add u64_max (Z.of_nat offset) (Z.of_nat len))%Z.

Record BufferedMap := mkBuffered {
  bm_file : list byte;
  bm_size : nat;
  bm_buffer : list byte;
  bm_window_start : nat;
  bm_window_len : nat;
  bm_max_window : nat;
}.

Definition from_file_with_window (file : list byte) (window_size : nat) : BufferedMap :=
  mkBuffered file (length file) [] 0 0 window_size.

Definition from_file (file : list byte) : BufferedMap := from_file_with_window file MAX_MAP_SIZE.

Definition is_in_window (m : BufferedMap) (offset len : nat) : bool :=
  (bm_window_start m <=? offset) && negb (ends_past offset len (bm_window_start m + bm_window_len m)).

(** [Vec::resize] to a length that is no smaller. *)
Definition grow (buffer : list byte) (target : nat) : list byte :=
  buffer ++ replicate (target - length buffer) x00.

Definition with_buffer (m : BufferedMap) (buffer : list byte) : BufferedMap :=
  mkBuffered (bm_file m) (bm_size m) buffer (bm_window_start m) (bm_window_len m) (bm_max_window m).

(** The bytes kept from the old window are moved to the front of the buffer;
    returned are where to read from and how many bytes are kept. *)
Definition reuse_overlap (m : BufferedMap) (aligned_start window_size : nat)
    : result io_error (nat * nat) * list byte :=
  let old_end := bm_window_start m + bm_window_len m in
  let buffer := grow (bm_buffer m) (max window_size (length (bm_buffer m))) in
  if (0 <? bm_window_len m) && (bm_window_start m <=? aligned_start) && (aligned_start <? old_end)
     && (old_end <=? aligned_start + window_size) then
    let reuse_len := old_end - aligned_start in
    let src_offset := aligned_start - bm_window_start m in
    let src_end := src_offset + reuse_len in
    if (length buffer <? src_end) || (length buffer <? reuse_len) then (Err InvalidData, buffer)
    else (Ok (old_end, reuse_len), take reuse_len (drop src_offset buffer) ++ drop reuse_len buffer)
  else (Ok (aligned_start, 0), buffer).

(** [read_exact] of [n] bytes at a position. *)
Definition read_at (file : list byte) (start n : nat) : result io_error (list byte) :=
  if decide (start + n ≤ length file) then Ok (take n (drop start file)) else Err UnexpectedEof.

Definition load_window (m : BufferedMap) (offset min_len : nat) : result io_error unit * BufferedMap :=
  let aligned_start := align_down offset in
  let remaining := bm_size m - aligned_start in
  let window_size := min (bm_max_window m) remaining in
  let offset_in_window := offset - aligned_start in
  let required_size := offset_in_window + min_len in
  if window_size <? required_size then (Err UnexpectedEof, m)
  else
    match reuse_overlap m aligned_start window_size with
    | (Err e, buffer) => (Err e, with_buffer m buffer)
    | (Ok (read_start, read_offset), buffer) =>
        let read_size := window_size - read_offset in
        let filled :=
          if 0 <? read_size then
            match read_at (bm_file m) read_start read_size with
            | Ok data => Ok (copy_at read_offset data buffer)
            | Err e => Err e
            end
          else Ok buffer in
        match filled with
        | Err e => (Err e, with_buffer m buffer)
        | Ok buffer =>
            let remaining_from_start := bm_size m - aligned_start in
            (Ok tt,
             mkBuffered (bm_file m) (bm_size m) buffer aligned_start
               (min window_size remaining_from_start) (bm_max_window m))
        end
    end.

Definition buffered_map_ptr (m : BufferedMap) (offset len : nat)
    : result io_error (list byte) * BufferedMap :=
  if len =? 0 then (Ok [], m)
  else if ends_past offset len (bm_size m) then (Err UnexpectedEof, m)
  else
    let '(loaded, m) := if is_in_window m offset len then (Ok tt, m) else load_window m offset len in
    match loaded with
    | Err e => (Err e, m)
    | Ok _ =>
        let start := offset - bm_window_start m in
        if start + len <=? length (bm_buffer m)
        then (Ok (take len (drop start (bm_buffer m))), m)
        else (Err InvalidData, m)
    end.

#[export] Instance BufferedMap_strategy : MapStrategy BufferedMap := {|
  map_ptr := buffered_map_ptr;
  window_size := bm_max_window;
  file_size := bm_size;
  buffered_file m := Some (bm_file m);
|}.

(** ** The memory map *)

Record MmapStrategy := mkMmap { mm_slice : list byte }.

Definition mmap_map_ptr (m : MmapStrategy) (offset len : nat) : result io_error (list byte) * MmapStrategy :=
  if len =? 0 then (Ok [], m)
  else if ends_past offset len (length (mm_slice m)) then (Err UnexpectedEof, m)
  else (Ok (take len (drop offset (mm_slice m))), m).

#[export] Instance MmapStrategy_strategy : MapStrategy MmapStrategy := {|
  map_ptr := mmap_map_ptr;
  window_size m := length (mm_slice m);
  file_size m := length (mm_slice m);
  buffered_file _ := None;
|}.

(** ** The adaptive choice *)

Definition MMAP_THRESHOLD : nat := 1024 * 1024.

Inductive AdaptiveMapStrategy :=
| Buffered (b : BufferedMap)
| Mmap (m : MmapStrategy).

Definition adaptive_open_with_threshold (file : list byte) (threshold : nat) : AdaptiveMapStrategy :=
  if threshold <=? length file then Mmap (mkMmap file) else Buffered (from_file file).

Definition adaptive_open (file : list byte) : AdaptiveMapStrategy :=
  adaptive_open_with_threshold file MMAP_THRESHOLD.

Definition adaptive_open_buffered (file : list byte) : AdaptiveMapStrategy := Buffered (from_file file).

#[export] Instance AdaptiveMapStrategy_strategy : MapStrategy AdaptiveMapStrategy := {|
  map_ptr s offset len :=
    match s with
    | Buffered b => let '(r, b) := map_ptr b offset len in (r, Buffered b)
    | Mmap m => let '(r, m) := map_ptr m offset len in (r, Mmap m)
    end;
  window_size s := match s with Buffered b => window_size b | Mmap m => window_size m end;
  file_size s := match s with Buffered b => file_size b | Mmap m => file_size m end;
  buffered_file s := match s with Buffered b => buffered_file b | Mmap _ => None end;
|}.

(** ** The window holds the file's bytes *)

Lemma align_down_spec offset : (Z.of_nat offset ≤ u64_max)%Z →
  align_down offset ≤ offset ∧ offset < align_down offset + ALIGN_BOUNDARY.
Proof.
  intros Ho. unfold align_down, ALIGN_BOUNDARY, u64_max in *.
  assert (Z.land (Z.of_nat offset) (Z.lxor (2 ^ 64 - 1) (Z.of_nat 1024 - 1))
          = Z.ldiff (Z.of_nat offset) (Z.ones 10)) as ->.
  { apply Z.bits_inj'; intros n Hn. rewrite Z.land_spec, Z.lxor_spec, Z.ldiff_spec.
    change (2 ^ 64 - 1)%Z with (Z.ones 64). change (Z.of_nat 1024 - 1)%Z with (Z.ones 10).
    destruct (Z.lt_ge_cases n 64).
    - rewrite (Z.ones_spec_low 64) by lia. by rewrite xorb_true_l.
    - by rewrite (testbit_above 64 (Z.of_nat offset)) by lia. }
  rewrite Z.ldiff_ones_r, Z.shiftl_mul_pow2, Z.shiftr_div_pow2 by lia.
  pose proof (Z.div_mod (Z.of_nat offset) (2 ^ 10) ltac:(lia)).
  pose proof (Z.mod_pos_bound (Z.of_nat offset) (2 ^ 10) ltac:(lia)). lia.
Qed.

Lemma ends_past_spec offset len bound : (Z.of_nat bound < u64_max)%Z →
  ends_past offset len bound = bool_decide (bound < offset + len).
Proof.
  intros Hb. unfold ends_past, saturating_add. apply eq_bool_prop_intro.
  rewrite bool_decide_spec. unfold Is_true. destruct (Z.ltb_spec (Z.of_nat bound)
    (Z.min u64_max (Z.of_nat offset + Z.of_nat len))); split; (done || lia).
Qed.

(** The invariant: the valid part of the buffer is the file's part at the window;
    [limit] is the longest range that fits the window at any alignment. *)
Record buffered_ok (file : list byte) (limit : nat) (m : BufferedMap) : Prop := {
  bo_file : bm_file m = file;
  bo_size : bm_size m = length file;
  bo_fits : (Z.of_nat (length file) < u64_max)%Z;
  bo_window : bm_window_start m + bm_window_len m ≤ length file;
  bo_buffer : bm_window_len m ≤ length (bm_buffer m);
  bo_data : take (bm_window_len m) (bm_buffer m)
            = take (bm_window_len m) (drop (bm_window_start m) file);
  bo_limit : limit + ALIGN_BOUNDARY ≤ bm_max_window m + 1;
}.

Lemma length_grow buffer n : length (grow buffer n) = max n (length buffer).
Proof. unfold grow. rewrite length_app, length_replicate. lia. Qed.

Lemma take_grow buffer n k : k ≤ length buffer → take k (grow buffer n) = take k buffer.
Proof. intros Hk. unfold grow. by rewrite take_app_le. Qed.

Lemma take_take_le (l : list byte) k n : k ≤ n → take k (take n l) = take k l.
Proof. intros Hk. rewrite take_take. f_equal. lia. Qed.

(** A part of a prefix that two lists share. *)
Lemma take_drop_shared (l l' : list byte) n k d : take n l = take n l' → d + k ≤ n →
  take k (drop d l) = take k (drop d l').
Proof.
  intros E Hk. rewrite !take_drop_commute. f_equal.
  rewrite <- (take_take_le l (d + k) n), <- (take_take_le l' (d + k) n) by lia. by rewrite E.
Qed.

Lemma reuse_overlap_spec file limit m a w : buffered_ok file limit m → a + w ≤ length file →
  ∃ ro buffer, reuse_overlap m a w = (Ok (a + ro, ro), buffer) ∧ ro ≤ w ∧ w ≤ length buffer ∧
    take ro buffer = take ro (drop a file).
Proof.
  intros [Hf Hs Hfit Hw Hb Hd Hl] Ha. unfold reuse_overlap. case_match eqn:E.
  - apply andb_prop in E as [E Hend]. apply andb_prop in E as [E Hlt]. apply andb_prop in E as [E0 Hge].
    apply Nat.ltb_lt in E0, Hlt. apply Nat.leb_le in Hge, Hend.
    set (reuse := bm_window_start m + bm_window_len m - a).
    set (src := a - bm_window_start m). rewrite !length_grow.
    rewrite (proj2 (Nat.ltb_ge _ _)), (proj2 (Nat.ltb_ge _ _)) by lia. cbn [orb].
    eexists reuse, _. split; [do 3 f_equal; lia|]. split; [lia|].
    assert (length (take reuse (drop src (grow (bm_buffer m) (max w (length (bm_buffer m)))))) = reuse) as Hr.
    { rewrite length_take, length_drop, length_grow. lia. }
    split; [rewrite length_app, Hr, length_drop, length_grow; lia|].
    rewrite take_app_le, take_take_le by lia.
    replace (drop a file) with (drop src (drop (bm_window_start m) file))
      by (rewrite drop_drop; f_equal; lia).
    apply (take_drop_shared _ _ (bm_window_len m)); [|lia]. by rewrite take_grow.
  - exists 0, (grow (bm_buffer m) (max w (length (bm_buffer m)))). rewrite Nat.add_0_r.
    split_and!; [done|lia|rewrite length_grow; lia|done].
Qed.

Lemma load_window_spec file limit m offset len : buffered_ok file limit m →
  0 < len → offset - align_down offset + len ≤ bm_max_window m → offset + len ≤ length file →
  ∃ m', load_window m offset len = (Ok tt, m') ∧ buffered_ok file limit m' ∧ bm_max_window m' = bm_max_window m ∧
    bm_window_start m' ≤ offset ∧ offset + len ≤ bm_window_start m' + bm_window_len m'.
Proof.
  intros Hok Hlen Hfits Hin. destruct (Hok) as [Hf Hs Hfit Hw Hb Hd Hl]. unfold load_window.
  destruct (align_down_spec offset) as [Ha Ha']; [lia|]. set (a := align_down offset) in *.
  unfold ALIGN_BOUNDARY in *. set (w := min (bm_max_window m) (bm_size m - a)).
  rewrite (proj2 (Nat.ltb_ge _ _)) by lia. assert (a + w ≤ length file) as Haw by lia.
  destruct (reuse_overlap_spec file limit m a w Hok) as (ro & buffer & -> & Hro & Hlb & Ht); [done|].
  assert (∃ buffer', (if 0 <? w - ro
            then match read_at (bm_file m) (a + ro) (w - ro) with
                 | Ok data => Ok (copy_at ro data buffer) | Err e => Err e end
            else Ok buffer) = Ok buffer' ∧ w ≤ length buffer' ∧
          take w buffer' = take w (drop a file)) as (buffer' & -> & Hlb' & Ht').
  { destruct (Nat.ltb_spec 0 (w - ro)).
    - unfold read_at. rewrite Hf, decide_True by lia. eexists. split; [done|].
      assert (length (take (w - ro) (drop (a + ro) file)) = w - ro) as Hd'
        by (rewrite length_take, length_drop; lia).
      unfold copy_at. rewrite Hd'. split.
      + rewrite !length_app, Hd', length_take, length_drop. lia.
      + rewrite Ht, app_assoc, take_app_le
          by (rewrite length_app, Hd', length_take, length_drop; lia).
        rewrite <- drop_drop, take_take_drop. rewrite take_ge; [f_equal; lia|].
        rewrite length_take, length_drop. lia.
    - exists buffer. replace w with ro by lia. split_and!; [done|lia|done]. }
  eexists. split; [done|]. split; [|cbn [bm_window_start bm_window_len bm_max_window]; lia].
  constructor; cbn [bm_file bm_size bm_buffer bm_window_start bm_window_len bm_max_window];
    [done|done|done|lia|lia| |unfold ALIGN_BOUNDARY; lia].
  replace (min w (bm_size m - a)) with w by lia. done.
Qed.

(** A range that the window has or can be moved to is returned; another is refused, and the
    window stays. *)
Lemma buffered_map_ptr_cases file limit m offset len : buffered_ok file limit m →
  ∃ res m', buffered_map_ptr m offset len = (res, m') ∧ buffered_ok file limit m' ∧
    bm_max_window m' = bm_max_window m ∧
    (res = slice_request file offset len ∨
     bm_max_window m < offset - align_down offset + len ∧ offset + len ≤ length file ∧ 0 < len ∧
     res = Err UnexpectedEof).
Proof.
  intros Hok. unfold buffered_map_ptr, slice_request.
  destruct (Nat.eqb_spec len 0) as [->|Hne]; [rewrite decide_True by done; exists (Ok []), m; auto|].
  rewrite decide_False by done. destruct (Hok) as [Hf Hs Hfit Hw Hb Hd Hl].
  rewrite ends_past_spec, Hs by (rewrite Hs; lia). case_bool_decide.
  { rewrite decide_False by lia. exists (Err UnexpectedEof), m. auto. }
  rewrite decide_True by lia.
  destruct (decide (is_in_window m offset len = false ∧ bm_max_window m < offset - align_down offset + len))
    as [[-> Hbig]|Hfits].
  { unfold load_window. rewrite (proj2 (Nat.ltb_lt _ _)) by lia. exists (Err UnexpectedEof), m.
    split_and!; [done..|]. right. split_and!; (done || lia). }
  assert (∃ m', (if is_in_window m offset len then (Ok tt, m) else load_window m offset len) = (Ok tt, m') ∧
    buffered_ok file limit m' ∧ bm_max_window m' = bm_max_window m ∧ bm_window_start m' ≤ offset ∧
    offset + len ≤ bm_window_start m' + bm_window_len m') as (m' & -> & Hok' & Hmax & Hge & Hle).
  { destruct (is_in_window m offset len) eqn:E; [|apply load_window_spec; (done || lia || (apply Nat.nlt_ge; tauto))].
    exists m. unfold is_in_window in E. rewrite ends_past_spec in E by lia.
    apply andb_prop in E as [E1 E2]. apply Nat.leb_le in E1. apply negb_true_iff, bool_decide_eq_false in E2.
    split_and!; (done || lia). }
  destruct (Hok') as [_ _ _ Hw' Hb' Hd' _]. rewrite (proj2 (Nat.leb_le _ _)) by lia.
  eexists _, m'. split; [done|]. split; [done|]. split; [done|]. left. f_equal.
  replace (drop offset file) with (drop (offset - bm_window_start m') (drop (bm_window_start m') file))
    by (rewrite drop_drop; f_equal; lia).
  apply (take_drop_shared _ _ (bm_window_len m')); [done|lia].
Qed.

Lemma buffered_map_ptr_spec file limit m offset len : buffered_ok file limit m → len ≤ limit →
  ∃ m', buffered_map_ptr m offset len = (slice_request file offset len, m') ∧ buffered_ok file limit m'.
Proof.
  intros Hok Hlen. destruct (buffered_map_ptr_cases file limit m offset len Hok) as (res & m' & -> & Hok' & _ & Hres).
  exists m'. split; [|done]. destruct Hres as [->|(Hbig & Hin & H0 & _)]; [done|]. exfalso. destruct Hok.
  pose proof (align_down_spec offset ltac:(lia)). unfold ALIGN_BOUNDARY in *. lia.
Qed.

(** ** The strategies keep the promise *)

#[export] Instance BufferedMap_laws : MapStrategyLaws BufferedMap.
Proof.
  refine {| map_inv := buffered_ok |}.
  - apply buffered_map_ptr_spec.
  - by intros file limit m [].
  - intros file limit m f [] [= <-]. done.
  - by intros file limit m [].
Defined.

Definition mmap_ok (file : list byte) (limit : nat) (m : MmapStrategy) : Prop :=
  mm_slice m = file ∧ (Z.of_nat (length file) < u64_max)%Z.

Lemma mmap_map_ptr_spec file limit m offset len : mmap_ok file limit m →
  mmap_map_ptr m offset len = (slice_request file offset len, m).
Proof.
  intros [<- Hfit]. unfold mmap_map_ptr, slice_request.
  destruct (Nat.eqb_spec len 0); [by rewrite decide_True|]. rewrite decide_False by done.
  rewrite ends_past_spec by done. case_bool_decide; [by rewrite decide_False by lia|].
  by rewrite decide_True by lia.
Qed.

#[export] Instance MmapStrategy_laws : MapStrategyLaws MmapStrategy.
Proof.
  refine {| map_inv := mmap_ok |}.
  - intros file limit m offset len Hm _. exists m. split; [by apply (mmap_map_ptr_spec _ limit)|done].
  - by intros file limit m [<- _].
  - done.
  - by intros file limit m [].
Defined.

#[export] Instance AdaptiveMapStrategy_laws : MapStrategyLaws AdaptiveMapStrategy.
Proof.
  refine {| map_inv := λ file limit s,
    match s with Buffered b => map_inv file limit b | Mmap m => map_inv file limit m end |}.
  - intros file limit [b|m] offset len Hs Hlen; cbn [map_ptr AdaptiveMapStrategy_strategy].
    + destruct (map_ptr_spec file limit b offset len Hs Hlen) as (b' & -> & Hb'). by exists (Buffered b').
    + destruct (map_ptr_spec file limit m offset len Hs Hlen) as (m' & -> & Hm'). by exists (Mmap m').
  - intros file limit [b|m] Hs; by apply (file_size_spec file limit) in Hs.
  - intros file limit [b|m] f Hs Hf; [|done]. by apply (buffered_file_spec file limit b f Hs).
  - intros file limit [b|m] Hs; by apply (map_fits file limit) in Hs.
Defined.

(** The longest range every window alignment can hold. *)
Definition map_limit : nat := MAX_MAP_SIZE + 1 - ALIGN_BOUNDARY.

Lemma map_limit_eq : map_limit + ALIGN_BOUNDARY = MAX_MAP_SIZE + 1.
Proof. apply Nat.sub_add, Nat.leb_le. vm_compute. reflexivity. Qed.

Lemma from_file_ok file : (Z.of_nat (length file) < u64_max)%Z → map_inv file map_limit (from_file file).
Proof.
  intros Hf. constructor; cbn [from_file from_file_with_window bm_file bm_size bm_buffer bm_window_start
    bm_window_len bm_max_window]; [done|done|done|lia|lia|done|]. rewrite map_limit_eq. lia.
Qed.

(** The results of a sequence of requests. *)
Fixpoint requests `{MapStrategy M} (s : M) (rs : list (nat * nat)) : list (result io_error (list byte)) :=
  match rs with
  | [] => []
  | (offset, len) :: rs' => let '(r, s) := map_ptr s offset len in r :: requests s rs'
  end.

(** The window of the default size can be moved to hold the range. *)
Definition window_fits (offset len : nat) : Prop := offset - align_down offset + len ≤ MAX_MAP_SIZE.

(** An answer to a request: what was asked for, or a refusal of a range that does not fit. *)
Definition answers (file : list byte) (r : nat * nat) (res : result io_error (list byte)) : Prop :=
  res = slice_request file r.1 r.2 ∨ (¬ window_fits r.1 r.2 ∧ res = Err UnexpectedEof).

Lemma buffered_answers file limit m rs : buffered_ok file limit m → bm_max_window m = MAX_MAP_SIZE →
  Forall2 (answers file) rs (requests m rs).
Proof.
  revert m. induction rs as [|[offset len] rs IH]; intros m Hok Hmax; [constructor|]. cbn [requests].
  change (map_ptr m offset len) with (buffered_map_ptr m offset len).
  destruct (buffered_map_ptr_cases file limit m offset len Hok) as (res & m' & -> & Hok' & Hmax' & Hres).
  constructor; [|apply IH; congruence]. unfold answers, window_fits. cbn [fst snd]. rewrite <-Hmax.
  destruct Hres as [->|(Hbig & _ & _ & ->)]; [by left|right]. split; [lia|done].
Qed.

Lemma adaptive_buffered m rs : requests (Buffered m) rs = requests m rs.
Proof.
  revert m. induction rs as [|[offset len] rs IH]; intros m; [done|]. cbn [requests].
  change (map_ptr (Buffered m) offset len) with (let '(r, b) := map_ptr m offset len in (r, Buffered b)).
  destruct (map_ptr m offset len) as [r m']. by rewrite IH.
Qed.

(** C29: whatever ranges of whatever length are requested and in whatever order, the memory
    map returns exactly the requested bytes of the file, and the end-of-file error for a
    range that is not inside it; the sliding window and both adaptive mappers do the same,
    except that they may refuse a range that the window cannot be moved to hold (longer than
    256 KiB less its distance to the alignment boundary below it) with the end-of-file
    error.  They never return other bytes, and a refusal does not affect later requests. *)
Theorem map_strategies_agree (file : list byte) (rs : list (nat * nat)) :
  (Z.of_nat (length file) < u64_max)%Z →
  requests (mkMmap file) rs = map (λ r, slice_request file r.1 r.2) rs ∧
  Forall2 (answers file) rs (requests (from_file file) rs) ∧
  Forall2 (answers file) rs (requests (adaptive_open file) rs) ∧
  Forall2 (answers file) rs (requests (adaptive_open_buffered file) rs).
Proof.
  intros Hf. pose proof (from_file_ok file Hf) as Hok.
  assert (Hb : Forall2 (answers file) rs (requests (from_file file) rs)) by by apply (buffered_answers file map_limit).
  assert (Hm : ∀ l, requests (mkMmap file) l = map (λ r, slice_request file r.1 r.2) l).
  { induction l as [|[offset len] l IH]; [done|]. cbn [requests map fst snd].
    change (map_ptr (mkMmap file) offset len) with (mmap_map_ptr (mkMmap file) offset len).
    by rewrite (mmap_map_ptr_spec file 0), IH. }
  assert (Ha : ∀ l, requests (Mmap (mkMmap file)) l = requests (mkMmap file) l).
  { induction l as [|[offset len] l IH]; [done|]. cbn [requests].
    change (map_ptr (Mmap (mkMmap file)) offset len) with
      (let '(r, m) := mmap_map_ptr (mkMmap file) offset len in (r, Mmap m)).
    change (map_ptr (mkMmap file) offset len) with (mmap_map_ptr (mkMmap file) offset len).
    by rewrite (mmap_map_ptr_spec file 0), IH. }
  split_and!; [apply Hm|done| |unfold adaptive_open_buffered; by rewrite adaptive_buffered].
  unfold adaptive_open, adaptive_open_with_threshold. destruct (_ <=? _); [|by rewrite adaptive_buffered].
  rewrite Ha, Hm. apply Forall2_fmap_r, Forall_Forall2_diag, Forall_true. by left.
Qed.

Lemma map_strategies_agree_witness :
  Forall2 (answers [x01; x02; x03; x04]) [(1, 2); (0, 4); (3, 2)]
    (requests (from_file [x01; x02; x03; x04]) [(1, 2); (0, 4); (3, 2)]).
Proof.
  apply (map_strategies_agree [x01; x02; x03; x04] [(1, 2); (0, 4); (3, 2)]).
  unfold u64_max. simpl. lia.
Defined.

(** A range inside the file that does not fit a freshly opened window is
    refused as if it were past the end of the file, where the memory map returns
    it.  Block lengths above the window size occur before protocol 30. *)
Theorem buffered_map_refuses (file : list byte) (offset len : nat) :
  (Z.of_nat (length file) < u64_max)%Z → offset + len ≤ length file →
  MAX_MAP_SIZE < offset - align_down offset + len → 0 < len →
  requests (from_file file) [(offset, len)] = [Err UnexpectedEof] ∧
  requests (mkMmap file) [(offset, len)] = [Ok (take len (drop offset file))].
Proof.
  intros Hf Hin Hbig Hlen. split.
  - cbn [requests map_ptr BufferedMap_strategy]. unfold buffered_map_ptr.
    rewrite (proj2 (Nat.eqb_neq _ _)) by lia. cbn [from_file from_file_with_window bm_size].
    rewrite ends_past_spec, bool_decide_eq_false_2 by lia.
    unfold is_in_window. cbn [bm_window_start bm_window_len from_file from_file_with_window].
    rewrite ends_past_spec, bool_decide_eq_true_2, andb_false_r by (unfold u64_max; lia).
    unfold load_window. cbn [from_file from_file_with_window bm_size bm_max_window].
    by rewrite (proj2 (Nat.ltb_lt _ _)) by lia.
  - cbn [requests map_ptr MmapStrategy_strategy].
    rewrite (mmap_map_ptr_spec file 0) by done. unfold slice_request.
    by rewrite decide_False, decide_True by lia.
Qed.

Lemma buffered_map_refuses_witness :
  requests (from_file (replicate (S MAX_MAP_SIZE) x00)) [(0, S MAX_MAP_SIZE)] = [Err UnexpectedEof].
Proof.
  apply (buffered_map_refuses (replicate (S MAX_MAP_SIZE) x00) 0 (S MAX_MAP_SIZE));
    rewrite ?length_replicate; [|lia|lia|lia].
  apply Z.ltb_lt. vm_compute. reflexivity.
Defined.
