(* ===== verification/Sparse.v ===== *)
(** * Sparse output ([crates/transfer/src/delta_apply/sparse.rs],
      [crates/transfer/src/constants.rs], [crates/fast_io/src/punch_hole.rs])

    [SparseWriteState] turns runs of zeros into seeks, and records the runs that
    lie over old contents so that they are punched at the end.  An output file is
    its contents and its position.  The theorem is that the bytes read back are
    those of plain writes, for a fresh file and for one that is updated in place,
    however the data is cut into writes.

    [fallocate] is a system call: the class [Fallocate] has it, with the
    documented effect as its law. *)

From S2P Require Import Prelude.

(** ** Files *)

Record file := mkFile { f_data : list byte; f_pos : nat }.

Definition pad_to (n : nat) (data : list byte) : list byte := data ++ replicate (n - length data) x00.

(** [write_all] at the position; a gap after the end reads back as zeros. *)
Definition file_write (f : file) (bs : list byte) : file :=
  match bs with
  | [] => f
  | _ => mkFile (copy_at (f_pos f) bs (pad_to (f_pos f) (f_data f))) (f_pos f + length bs)
  end.

(** [seek] to a position; the system's file offset is an [i64]. *)
Definition file_seek (f : file) (pos : nat) : result io_error file :=
  if (i64_max <? Z.of_nat pos)%Z then Err InvalidInput else Ok (mkFile (f_data f) pos).

Definition file_set_len (f : file) (n : nat) : file := mkFile (take n (pad_to n (f_data f))) (f_pos f).

Definition sat_add (a b : nat) : nat := Z.to_nat (saturating_add u64_max (Z.of_nat a) (Z.of_nat b)).

(** ** Counting zeros *)

(** [iter().take_while(|b| b == 0).count()]. *)
Fixpoint zero_run (bytes : list byte) : nat :=
  match bytes with
  | b :: bytes' => if decide (b = x00) then S (zero_run bytes') else 0
  | [] => 0
  end.

(** [iter().position(|b| b != 0)]. *)
Fixpoint position_nonzero (bytes : list byte) : option nat :=
  match bytes with
  | b :: bytes' => if decide (b = x00) then S <$> position_nonzero bytes' else Some 0
  | [] => None
  end.

(** The loops over sixteen-byte chunks; [fuel] is the number of bytes. *)
Fixpoint leading_loop (fuel offset : nat) (bytes : list byte) : nat :=
  match fuel with
  | O => offset + zero_run bytes
  | S fuel' =>
      if 16 <=? length bytes then
        let chunk := take 16 bytes in
        if (le_val chunk =? 0)%Z then leading_loop fuel' (offset + 16) (drop 16 bytes)
        else offset + default 16 (position_nonzero chunk)
      else offset + zero_run bytes
  end.

Definition leading_zero_count (bytes : list byte) : nat := leading_loop (length bytes) 0 bytes.

Fixpoint trailing_loop (fuel offset : nat) (bytes : list byte) : nat :=
  match fuel with
  | O => offset + zero_run (reverse bytes)
  | S fuel' =>
      if 16 <=? length bytes then
        let chunk := drop (length bytes - 16) bytes in
        if (le_val chunk =? 0)%Z then trailing_loop fuel' (offset + 16) (take (length bytes - 16) bytes)
        else offset + zero_run (reverse chunk)
      else offset + zero_run (reverse bytes)
  end.

Definition trailing_zero_count (bytes : list byte) : nat := trailing_loop (length bytes) 0 bytes.

(** ** The writer *)

Definition SPARSE_WRITE_SIZE : nat := 1024.

Record SparseWriteState := mkSparse {
  sw_pending_zeros : nat;
  sw_preallocated_len : nat;
  sw_holes : list (nat * nat);
  sw_stream_offset : nat;
  sw_offset_primed : bool;
}.

Definition sparse_new : SparseWriteState := mkSparse 0 0 [] 0 false.

Definition ensure_offset (s : SparseWriteState) (f : file) : SparseWriteState :=
  if sw_offset_primed s then s
  else mkSparse (sw_pending_zeros s) (sw_preallocated_len s) (sw_holes s) (f_pos f) true.

Definition set_preallocated_len (s : SparseWriteState) (len : nat) : SparseWriteState :=
  mkSparse (sw_pending_zeros s) len (sw_holes s) (sw_stream_offset s) (sw_offset_primed s).

Definition with_pending (s : SparseWriteState) (pending : nat) : SparseWriteState :=
  mkSparse pending (sw_preallocated_len s) (sw_holes s) (sw_stream_offset s) (sw_offset_primed s).

Definition accumulate (s : SparseWriteState) (count : nat) : SparseWriteState :=
  with_pending s (sat_add (sw_pending_zeros s) count).

Definition take_holes (s : SparseWriteState) : list (nat * nat) * SparseWriteState :=
  (sw_holes s,
   mkSparse (sw_pending_zeros s) (sw_preallocated_len s) [] (sw_stream_offset s) (sw_offset_primed s)).

(** [while remaining > 0]; a [u64] takes at most three steps of [i64::MAX]. *)
Fixpoint seek_over (fuel remaining : nat) (f : file) : result io_error file :=
  match fuel with
  | O => Ok f
  | S fuel' =>
      if 0 <? remaining then
        let step := Z.to_nat (Z.min (Z.of_nat remaining) i64_max) in
        match file_seek f (f_pos f + step) with
        | Ok f => seek_over fuel' (remaining - step) f
        | Err e => Err e
        end
      else Ok f
  end.

(** The callers stop at an error, so no state is returned with one. *)
Definition sparse_flush (s : SparseWriteState) (f : file) : result io_error (SparseWriteState * file) :=
  if sw_pending_zeros s =? 0 then Ok (s, f)
  else
    let s := ensure_offset s f in
    let start := sw_stream_offset s in
    let holes :=
      if start <? sw_preallocated_len s then sw_holes s ++ [(start, sw_pending_zeros s)] else sw_holes s in
    match seek_over 3 (sw_pending_zeros s) f with
    | Ok f =>
        Ok (mkSparse 0 (sw_preallocated_len s) holes (sat_add start (sw_pending_zeros s)) true, f)
    | Err e => Err e
    end.

(** [while offset < data.len()]; [fuel] is the length of the data. *)
Fixpoint sparse_loop (fuel offset : nat) (data : list byte) (s : SparseWriteState) (f : file)
    : result io_error (SparseWriteState * file) :=
  match fuel with
  | O => Ok (s, f)
  | S fuel' =>
      if offset <? length data then
        let stop := min (offset + SPARSE_WRITE_SIZE) (length data) in
        let chunk := take (stop - offset) (drop offset data) in
        let leading_zeros := leading_zero_count chunk in
        let s := accumulate s leading_zeros in
        if leading_zeros =? length chunk then sparse_loop fuel' stop data s f
        else
          let tail := drop leading_zeros chunk in
          let trailing_zeros := trailing_zero_count tail in
          let data_start := offset + leading_zeros in
          let data_end := stop - trailing_zeros in
          let flushed :=
            if data_start <? data_end then
              match sparse_flush s f with
              | Ok (s, f) =>
                  let piece := take (data_end - data_start) (drop data_start data) in
                  Ok (mkSparse (sw_pending_zeros s) (sw_preallocated_len s) (sw_holes s)
                        (sat_add (sw_stream_offset s) (length piece)) (sw_offset_primed s),
                      file_write f piece)
              | Err e => Err e
              end
            else Ok (s, f) in
          match flushed with
          | Ok (s, f) => sparse_loop fuel' stop data (with_pending s trailing_zeros) f
          | Err e => Err e
          end
      else Ok (s, f)
  end.

Definition sparse_write (s : SparseWriteState) (f : file) (data : list byte)
    : result io_error (SparseWriteState * file) :=
  match data with
  | [] => Ok (s, f)
  | _ => sparse_loop (length data) 0 data (ensure_offset s f) f
  end.

(** The logical end, and the state and file after the last flush. *)
Definition sparse_finish (s : SparseWriteState) (f : file)
    : result io_error (nat * SparseWriteState * file) :=
  let s := ensure_offset s f in
  let logical_end := sat_add (sw_stream_offset s) (sw_pending_zeros s) in
  match sparse_flush s f with
  | Ok (s, f) => Ok (logical_end, s, f)
  | Err e => Err e
  end.

(** ** Hole punching *)

(** The contents with a range inside them zeroed. *)
Definition zero_range (data : list byte) (pos len : nat) : list byte :=
  copy_at pos (replicate len x00) data.

(** [PUNCH_HOLE | KEEP_SIZE] and [ZERO_RANGE]. *)
Inductive FallocateFlags := PUNCH_HOLE_KEEP_SIZE | ZERO_RANGE.

(** The system call: the contents afterwards when it succeeds.  It never does on platforms
    other than Linux, where [punch_hole] does not try it. *)
Class Fallocate := { fallocate : FallocateFlags → list byte → nat → nat → option (list byte) }.

Class FallocateLaws `{Fallocate} : Prop := {
  fallocate_zeroes : ∀ flags data pos len data', pos + len ≤ length data →
    fallocate flags data pos len = Some data' → data' = zero_range data pos len;
}.

Definition ZERO_WRITE_BUFFER_SIZE : nat := 32 * 1024.

(** [while len > 0]; [fuel] is the number of zeros to write. *)
Fixpoint write_zeros_loop (fuel len : nat) (f : file) : file :=
  match fuel with
  | O => f
  | S fuel' =>
      if 0 <? len then
        let chunk := min len ZERO_WRITE_BUFFER_SIZE in
        write_zeros_loop fuel' (len - chunk) (file_write f (replicate chunk x00))
      else f
  end.

Definition write_zeros_fallback (f : file) (pos len : nat) : result io_error file :=
  match file_seek f pos with
  | Ok f => Ok (write_zeros_loop len len f)
  | Err e => Err e
  end.

Section Punch.
Context `{Fallocate}.

Definition punch_hole (f : file) (pos len : nat) : result io_error file :=
  if len =? 0 then Ok f
  else
    let tiers :=
      if (Z.of_nat pos <=? i64_max)%Z && (Z.of_nat len <=? i64_max)%Z then
        match fallocate PUNCH_HOLE_KEEP_SIZE (f_data f) pos len with
        | Some data => Some data
        | None => fallocate ZERO_RANGE (f_data f) pos len
        end
      else None in
    match tiers with
    | Some data => Ok (mkFile data (f_pos f))
    | None => write_zeros_fallback f pos len
    end.

Fixpoint punch_holes (f : file) (holes : list (nat * nat)) : result io_error file :=
  match holes with
  | [] => Ok f
  | (pos, len) :: holes' =>
      match punch_hole f pos len with
      | Ok f => punch_holes f holes'
      | Err e => Err e
      end
  end.

(** The end of a sparse file: finish, truncate, punch. *)
Definition sparse_end (s : SparseWriteState) (f : file) : result io_error (nat * file) :=
  match sparse_finish s f with
  | Err e => Err e
  | Ok (final_pos, s, f) =>
      let '(holes, _) := take_holes s in
      match punch_holes (file_set_len f final_pos) holes with
      | Ok f => Ok (final_pos, f)
      | Err e => Err e
      end
  end.
End Punch.

(** ** Zero counts *)

Lemma uz_zero b : uz b = 0%Z ↔ b = x00.
Proof.
  split; [|by intros ->]. intros Hb. apply uz_inj. rewrite Hb. done.
Qed.

Lemma le_val_zero l : le_val l = 0%Z ↔ Forall (λ b, b = x00) l.
Proof.
  induction l as [|b l IH]; cbn [le_val]; [done|]. rewrite Forall_cons, <- IH, <- uz_zero.
  pose proof (uz_range b). pose proof (le_val_nonneg l). lia.
Qed.

Lemma zero_run_split l : ∃ l', l = replicate (zero_run l) x00 ++ l' ∧ ∀ b l'', l' = b :: l'' → b ≠ x00.
Proof.
  induction l as [|b l (l' & E & Hl')]; [by exists []|]. cbn [zero_run]. case_decide as Hb.
  - exists l'. split; [|done]. subst b. cbn [replicate app]. by rewrite <- E.
  - exists (b :: l). split; [done|]. by intros ? ? [= <- _].
Qed.

Lemma zero_run_app k l : zero_run (replicate k x00 ++ l) = k + zero_run l.
Proof. induction k as [|k IH]; [done|]. cbn [replicate app zero_run]. by rewrite decide_True, IH. Qed.

Lemma all_zero l : Forall (λ b, b = x00) l → l = replicate (length l) x00.
Proof. induction 1 as [|b l -> Hl IH]; [done|]. cbn [length replicate]. by rewrite <- IH. Qed.

Lemma position_nonzero_run l : le_val l ≠ 0%Z → default 16 (position_nonzero l) = zero_run l.
Proof.
  rewrite le_val_zero. intros Hl.
  assert (position_nonzero l = Some (zero_run l)) as ->; [|done].
  induction l as [|b l IH]; [by destruct Hl|]. cbn [position_nonzero zero_run]. case_decide as Hb; [|done].
  rewrite IH; [done|]. intros Hz. apply Hl. by constructor.
Qed.

Lemma zero_run_prefix l k : le_val (take k l) ≠ 0%Z → zero_run (take k l) = zero_run l.
Proof.
  rewrite le_val_zero. intros Hl. revert l Hl. induction k as [|k IH]; intros l Hl; [by destruct Hl; rewrite take_0|].
  destruct l as [|b l]; [done|]. cbn [take zero_run] in *. case_decide as Hb; [|done].
  rewrite IH; [done|]. intros Hz. apply Hl. by constructor.
Qed.

Lemma leading_zero_count_spec l : leading_zero_count l = zero_run l.
Proof.
  unfold leading_zero_count. assert (∀ fuel o l, leading_loop fuel o l = o + zero_run l) as H; [|apply H].
  clear l. induction fuel as [|fuel IH]; intros o l; cbn [leading_loop]; [done|].
  destruct (Nat.leb_spec 16 (length l)) as [Hl|]; [|done].
  destruct (Z.eqb_spec (le_val (take 16 l)) 0) as [Hz|Hz].
  - rewrite IH. rewrite <- (take_drop 16 l) at 2. apply le_val_zero, all_zero in Hz.
    rewrite Hz, zero_run_app, length_take. lia.
  - by rewrite position_nonzero_run, zero_run_prefix.
Qed.

Lemma trailing_zero_count_spec l : trailing_zero_count l = zero_run (reverse l).
Proof.
  unfold trailing_zero_count.
  assert (∀ fuel o l, trailing_loop fuel o l = o + zero_run (reverse l)) as H; [|apply H].
  clear l. induction fuel as [|fuel IH]; intros o l; cbn [trailing_loop]; [done|].
  destruct (Nat.leb_spec 16 (length l)) as [Hl|]; [|done]. set (n := length l - 16).
  assert (reverse l = reverse (drop n l) ++ reverse (take n l)) as Hr
    by (rewrite <- reverse_app, take_drop; done).
  destruct (Z.eqb_spec (le_val (drop n l)) 0) as [Hz|Hz].
  - rewrite IH, Hr. apply le_val_zero, all_zero in Hz.
    rewrite Hz, reverse_replicate, zero_run_app, length_drop. lia.
  - f_equal. pose proof (zero_run_prefix (reverse l) 16) as Hp. rewrite Hr in Hp.
    rewrite take_app_le, take_ge in Hp by (rewrite ?length_reverse, length_drop; lia).
    rewrite Hr. apply Hp. rewrite le_val_zero. rewrite le_val_zero in Hz.
    by rewrite Forall_reverse.
Qed.

(** A window is zeros, then data that starts and ends with a byte that is not
    zero, then zeros. *)
Lemma window_split chunk : zero_run chunk ≠ length chunk →
  ∃ mid, mid ≠ [] ∧ chunk = replicate (zero_run chunk) x00 ++ mid
    ++ replicate (zero_run (reverse (drop (zero_run chunk) chunk))) x00.
Proof.
  intros Hne. destruct (zero_run_split chunk) as (tail & E & Htail). set (z := zero_run chunk) in *.
  assert (drop z chunk = tail) as Ed by (rewrite E, drop_app_length'; [done|by rewrite length_replicate]).
  rewrite Ed. destruct (zero_run_split (reverse tail)) as (rmid & Er & Hrmid).
  exists (reverse rmid). assert (tail = reverse rmid ++ replicate (zero_run (reverse tail)) x00) as Et.
  { rewrite <- (reverse_involutive tail) at 1. rewrite Er at 1. by rewrite reverse_app, reverse_replicate. }
  split; [|by rewrite E at 1; rewrite Et at 1]. intros Hnil. rewrite Hnil in Et.
  destruct (zero_run (reverse tail)) as [|k]; cbn [app replicate] in Et.
  - apply Hne. rewrite E, Et, app_nil_r, length_replicate. done.
  - by apply (Htail _ _ Et).
Qed.

(** ** The invariant *)

Definition in_hole (h : nat * nat) (i : nat) : Prop := h.1 ≤ i < h.1 + h.2.
Definition covered (holes : list (nat * nat)) (i : nat) : Prop := Exists (λ h, in_hole h i) holes.

Lemma sat_add_small a b : (Z.of_nat (a + b) ≤ i64_max)%Z → sat_add a b = a + b.
Proof. unfold sat_add, saturating_add, i64_max, u64_max. lia. Qed.

(** The writes so far stand for the contents [w] of a file that held [pre].  The
    bytes before the position are there, or they are zeros still to be punched or
    past the end; the bytes after it are the old ones. *)
Record sparse_inv (pre w : list byte) (s : SparseWriteState) (f : file) : Prop := {
  si_primed : sw_offset_primed s = true;
  si_prealloc : sw_preallocated_len s = length pre;
  si_offset : sw_stream_offset s = f_pos f;
  si_len : f_pos f + sw_pending_zeros s = length w;
  si_pending : drop (f_pos f) w = replicate (sw_pending_zeros s) x00;
  si_tail : drop (f_pos f) (f_data f) = drop (f_pos f) pre;
  si_holes : Forall (λ h, h.1 + h.2 ≤ f_pos f ∧ ∀ i, in_hole h i → w !! i = Some x00) (sw_holes s);
  si_data : ∀ i, i < f_pos f → f_data f !! i = w !! i ∨
    (w !! i = Some x00 ∧ (covered (sw_holes s) i ∨ length (f_data f) ≤ i));
}.

Lemma accumulate_inv pre w s f z : sparse_inv pre w s f → (Z.of_nat (length w + z) ≤ i64_max)%Z →
  sparse_inv pre (w ++ replicate z x00) (accumulate s z) f.
Proof.
  intros [Hpr Hpl Hof Hl Hpe Ht Hh Hd] Hz. unfold accumulate, with_pending.
  rewrite sat_add_small by lia. constructor; cbn [sw_offset_primed sw_preallocated_len sw_stream_offset
    sw_pending_zeros sw_holes]; [done|done|done|..].
  - rewrite length_app, length_replicate. lia.
  - rewrite drop_app_le, Hpe, <- replicate_add by lia. done.
  - done.
  - eapply Forall_impl; [exact Hh|]. intros h [Hle Hi]. split; [done|]. intros i Hin.
    by apply lookup_app_l_Some, Hi.
  - intros i Hi. rewrite lookup_app_l by lia. by apply Hd.
Qed.

Lemma seek_over_spec n f : (Z.of_nat (f_pos f + n) ≤ i64_max)%Z →
  seek_over 3 n f = Ok (mkFile (f_data f) (f_pos f + n)).
Proof.
  intros Hn. cbn [seek_over]. destruct (Nat.ltb_spec 0 n) as [Hp|Hp].
  - replace (Z.to_nat (Z.min (Z.of_nat n) i64_max)) with n by (unfold i64_max in *; lia).
    unfold file_seek at 1. rewrite (proj2 (Z.ltb_ge _ _)) by lia. rewrite Nat.sub_diag. done.
  - replace n with 0 by lia. rewrite Nat.add_0_r. by destruct f.
Qed.

Lemma sparse_flush_inv pre w s f : sparse_inv pre w s f → (Z.of_nat (length w) ≤ i64_max)%Z →
  ∃ s' f', sparse_flush s f = Ok (s', f') ∧ sparse_inv pre w s' f' ∧ sw_pending_zeros s' = 0.
Proof.
  intros Hinv Hw. destruct (Hinv) as [Hpr Hpl Hof Hl Hpe Ht Hh Hd]. unfold sparse_flush.
  destruct (Nat.eqb_spec (sw_pending_zeros s) 0) as [Hz|Hz]; [by exists s, f|].
  unfold ensure_offset. rewrite Hpr. rewrite seek_over_spec, sat_add_small by lia.
  eexists _, _. split; [done|]. split; [|done]. set (p := f_pos f) in *. set (z := sw_pending_zeros s) in *.
  assert (∀ i, p ≤ i < p + z → w !! i = Some x00) as Hzero.
  { intros i Hi. replace i with (p + (i - p)) by lia. rewrite <- lookup_drop, Hpe.
    apply lookup_replicate_2. lia. }
  assert (p < length pre ∨ length (f_data f) ≤ p) as Hstale.
  { destruct (Nat.lt_ge_cases p (length pre)) as [?|Hge]; [by left|right].
    rewrite (drop_ge pre) in Ht by lia. apply (f_equal length) in Ht. rewrite length_drop in Ht. simpl in Ht. lia. }
  rewrite Hpl, Hof.
  constructor; cbn [sw_offset_primed sw_preallocated_len sw_stream_offset sw_pending_zeros sw_holes f_pos f_data];
    [done|done|done|lia|..].
  - by rewrite drop_ge by lia.
  - by rewrite <- !drop_drop, Ht.
  - assert (Forall (λ h, h.1 + h.2 ≤ p + z ∧ ∀ i, in_hole h i → w !! i = Some x00) (sw_holes s)).
    { eapply Forall_impl; [exact Hh|]. intros h [? ?]. split; [lia|done]. }
    case_match; [|done]. apply Forall_app. split; [done|]. apply Forall_singleton. by split.
  - intros i Hi. destruct (Nat.lt_ge_cases i p) as [Hlt|Hge].
    + destruct (Hd i Hlt) as [?|[? [?|?]]]; [by left|right..]; (split; [done|]); [left|by right].
      case_match; [|done]. apply Exists_app. by left.
    + right. split; [by apply Hzero|]. destruct Hstale; [left|right; lia].
      rewrite (proj2 (Nat.ltb_lt _ _)) by done. apply Exists_app. right. apply Exists_cons_hd. done.
Qed.

Lemma file_write_inv pre w s f bs : sparse_inv pre w s f → sw_pending_zeros s = 0 →
  (Z.of_nat (length w + length bs) ≤ i64_max)%Z →
  sparse_inv pre (w ++ bs)
    (mkSparse (sw_pending_zeros s) (sw_preallocated_len s) (sw_holes s)
       (sat_add (sw_stream_offset s) (length bs)) (sw_offset_primed s)) (file_write f bs).
Proof.
  intros [Hpr Hpl Hof Hl Hpe Ht Hh Hd] Hz Hw. rewrite Hz in *. rewrite Nat.add_0_r in Hl.
  assert (file_write f bs = mkFile (copy_at (f_pos f) bs (pad_to (f_pos f) (f_data f))) (f_pos f + length bs)
          ∨ bs = []) as [-> | ->] by (destruct bs; [by right|by left]).
  2: { cbn [file_write length]. rewrite app_nil_r, sat_add_small, Nat.add_0_r by lia.
       constructor; cbn [sw_pending_zeros]; (done || lia). }
  rewrite sat_add_small by lia. set (p := f_pos f) in *.
  assert (length (take p (pad_to p (f_data f))) = p) as Htp
    by (unfold pad_to; rewrite length_take, length_app, length_replicate; lia).
  constructor; cbn [sw_offset_primed sw_preallocated_len sw_stream_offset sw_pending_zeros sw_holes f_pos f_data];
    [done|done|lia|rewrite length_app; lia|..].
  - rewrite drop_ge; [done|]. rewrite length_app. lia.
  - unfold copy_at. rewrite app_assoc, drop_app_length' by (rewrite length_app; lia).
    unfold pad_to. rewrite drop_app, (drop_ge (replicate _ _)), app_nil_r
      by (rewrite length_replicate; lia). by rewrite <- !drop_drop, Ht.
  - eapply Forall_impl; [exact Hh|]. intros h [? Hi]. split; [lia|]. intros i Hin.
    by apply lookup_app_l_Some, Hi.
  - intros i Hi. unfold copy_at. destruct (Nat.lt_ge_cases i p) as [Hlt|Hge].
    + rewrite !lookup_app_l, lookup_take_lt by lia. unfold pad_to.
      destruct (Nat.lt_ge_cases i (length (f_data f))) as [Hin|Hout].
      * rewrite lookup_app_l by done. destruct (Hd i Hlt) as [->|[Hw0 [Hc|?]]]; [by left| |lia].
        right. split; [done|by left].
      * left. rewrite lookup_app_r, lookup_replicate_2 by lia.
        destruct (Hd i Hlt) as [E|[-> _]]; [|done]. rewrite lookup_ge_None_2 in E by done.
        symmetry in E. apply lookup_ge_None in E. lia.
    + left. rewrite (lookup_app_r w), lookup_app_r by lia. rewrite Htp, Hl.
      rewrite lookup_app_l by lia. done.
Qed.

Lemma flush_write_inv pre w s f bs : sparse_inv pre w s f → (Z.of_nat (length w + length bs) ≤ i64_max)%Z →
  ∃ s' f' , sparse_flush s f = Ok (s', f') ∧ sw_pending_zeros s' = 0 ∧
    sparse_inv pre (w ++ bs)
      (mkSparse (sw_pending_zeros s') (sw_preallocated_len s') (sw_holes s')
         (sat_add (sw_stream_offset s') (length bs)) (sw_offset_primed s')) (file_write f' bs).
Proof.
  intros Hinv Hb. destruct (sparse_flush_inv pre w s f Hinv) as (s' & f' & -> & Hinv' & Hp); [lia|].
  exists s', f'. split_and!; [done|done|]. by apply file_write_inv.
Qed.

Lemma with_pending_inv pre w s f t : sparse_inv pre w s f → sw_pending_zeros s = 0 →
  (Z.of_nat (length w + t) ≤ i64_max)%Z →
  sparse_inv pre (w ++ replicate t x00) (with_pending s t) f.
Proof.
  intros Hinv Hp Ht. replace (with_pending s t) with (accumulate s t); [by apply accumulate_inv|].
  unfold accumulate. by rewrite Hp, sat_add_small by lia.
Qed.

Lemma sparse_loop_inv pre w data fuel : (Z.of_nat (length w + length data) ≤ i64_max)%Z →
  ∀ offset s f, sparse_inv pre (w ++ take offset data) s f → length data - offset ≤ fuel →
  ∃ s' f', sparse_loop fuel offset data s f = Ok (s', f') ∧ sparse_inv pre (w ++ data) s' f'.
Proof.
  intros Hbound. induction fuel as [|fuel IH]; intros offset s f Hinv Hf; cbn [sparse_loop].
  { exists s, f. by rewrite take_ge in Hinv by lia. }
  destruct (Nat.ltb_spec offset (length data)) as [Hlt|Hge];
    [|by rewrite take_ge in Hinv by lia; exists s, f].
  set (stop := min (offset + SPARSE_WRITE_SIZE) (length data)).
  assert (offset < stop ≤ length data) as Hstop by (unfold stop, SPARSE_WRITE_SIZE; lia).
  set (chunk := take (stop - offset) (drop offset data)).
  assert (length chunk = stop - offset) as Hlc by (unfold chunk; rewrite length_take, length_drop; lia).
  assert (take stop data = take offset data ++ chunk) as Etake
    by (unfold chunk; rewrite take_take_drop; f_equal; lia).
  assert (length (w ++ take offset data) + (stop - offset) ≤ length w + length data) as Hlen
    by (rewrite length_app, length_take; lia).
  rewrite leading_zero_count_spec, trailing_zero_count_spec.
  destruct (Nat.eqb_spec (zero_run chunk) (length chunk)) as [Hz|Hz].
  - apply IH; [|lia]. rewrite Etake, app_assoc.
    destruct (zero_run_split chunk) as (l' & E & _).
    assert (l' = []) as -> by (apply (f_equal length) in E; rewrite length_app, length_replicate, <- Hz in E;
      destruct l'; [done|simpl in E; lia]).
    rewrite app_nil_r in E. rewrite E at 1. apply accumulate_inv; [done|lia].
  - destruct (window_split chunk Hz) as (mid & Hmid & E). set (z := zero_run chunk) in *.
    set (t := zero_run (reverse (drop z chunk))) in *.
    assert (z + length mid + t = stop - offset) as Hzt
      by (rewrite <- Hlc; rewrite E at 1; rewrite !length_app, !length_replicate; lia).
    assert (0 < length mid) by (destruct mid; [done|simpl; lia]).
    rewrite (proj2 (Nat.ltb_lt _ _)) by lia.
    assert (take (stop - t - (offset + z)) (drop (offset + z) data) = mid) as Epiece.
    { rewrite <- drop_drop, <- (take_drop (stop - offset) (drop offset data)). fold chunk. rewrite E.
      rewrite <- !app_assoc, drop_app_length' by (by rewrite length_replicate).
      rewrite take_app_length'; [done|lia]. }
    rewrite Epiece.
    destruct (flush_write_inv pre (w ++ take offset data ++ replicate z x00) (accumulate s z) f mid)
      as (s' & f' & -> & Hp & Hinv'); [rewrite app_assoc; apply accumulate_inv; [done|lia]| |].
    { rewrite app_assoc, length_app, length_replicate. lia. }
    apply IH; [|lia]. rewrite Etake, E, !app_assoc. apply with_pending_inv; [by rewrite <- !app_assoc in *|done|].
    rewrite <- !app_assoc, app_assoc, !length_app, length_replicate in *. lia.
Qed.

Lemma sparse_write_inv pre w s f data : sparse_inv pre w s f →
  (Z.of_nat (length w + length data) ≤ i64_max)%Z →
  ∃ s' f', sparse_write s f data = Ok (s', f') ∧ sparse_inv pre (w ++ data) s' f'.
Proof.
  intros Hinv Hb. unfold sparse_write. destruct data as [|b data]; [exists s, f; by rewrite app_nil_r|].
  unfold ensure_offset. rewrite (si_primed _ _ _ _ Hinv).
  apply sparse_loop_inv; [done| |lia]. by rewrite take_0, app_nil_r.
Qed.

(** Before the first write. *)
Lemma sparse_start pre pos : pos ≤ length pre →
  sparse_inv pre (take pos pre) (ensure_offset (set_preallocated_len sparse_new (length pre)) (mkFile pre pos))
    (mkFile pre pos).
Proof.
  intros Hp. constructor; cbn [ensure_offset set_preallocated_len sparse_new sw_offset_primed
    sw_preallocated_len sw_stream_offset sw_pending_zeros sw_holes f_pos f_data]; [done|done|done|..].
  - rewrite length_take. lia.
  - rewrite drop_ge; [done|]. rewrite length_take. lia.
  - done.
  - done.
  - intros i Hi. left. by rewrite lookup_take_lt.
Qed.

(** ** Punching *)

(** [d'] is [d] with zeros at [len] bytes from [pos]. *)
Definition zeroed (d d' : list byte) (pos len : nat) : Prop :=
  length d' = length d ∧ ∀ i, d' !! i = if decide (pos ≤ i < pos + len) then Some x00 else d !! i.

Lemma zero_range_zeroed d pos len : pos + len ≤ length d → zeroed d (zero_range d pos len) pos len.
Proof.
  intros Hp. unfold zero_range, copy_at. rewrite length_replicate. split.
  - rewrite !length_app, length_take, length_drop, length_replicate. lia.
  - assert (length (take pos d) = pos) as Ht by (rewrite length_take; lia).
    intros i. destruct (Nat.lt_ge_cases i pos) as [Hlt|Hge].
    + by rewrite lookup_app_l, lookup_take_lt, decide_False by lia.
    + rewrite lookup_app_r, Ht by lia. destruct (Nat.lt_ge_cases i (pos + len)).
      * rewrite lookup_app_l, lookup_replicate_2, decide_True by (rewrite ?length_replicate; lia). done.
      * rewrite lookup_app_r, lookup_drop, length_replicate, decide_False
          by (rewrite ?length_replicate; lia). f_equal. lia.
Qed.

Lemma zeroed_trans d d' d'' pos a b : zeroed d d' pos a → zeroed d' d'' (pos + a) b →
  zeroed d d'' pos (a + b).
Proof.
  intros [Hl Hd] [Hl' Hd']. split; [congruence|]. intros i. rewrite Hd', Hd.
  repeat case_decide; (done || lia).
Qed.

Lemma write_zeros_spec fuel len f : len ≤ fuel → f_pos f + len ≤ length (f_data f) →
  zeroed (f_data f) (f_data (write_zeros_loop fuel len f)) (f_pos f) len.
Proof.
  revert len f. induction fuel as [|fuel IH]; intros len f Hf Hin; cbn [write_zeros_loop].
  { split; [done|]. intros i. by rewrite decide_False by lia. }
  destruct (Nat.ltb_spec 0 len) as [Hp|Hp]; [|split; [done|]; intros i; by rewrite decide_False by lia].
  assert (0 < ZERO_WRITE_BUFFER_SIZE) by (unfold ZERO_WRITE_BUFFER_SIZE; lia).
  set (chunk := min len ZERO_WRITE_BUFFER_SIZE).
  assert (file_write f (replicate chunk x00)
          = mkFile (zero_range (f_data f) (f_pos f) chunk) (f_pos f + chunk)) as ->.
  { destruct chunk as [|k] eqn:Ek; [lia|]. unfold zero_range, pad_to. cbn [file_write replicate].
    rewrite <- replicate_S, length_replicate. f_equal. f_equal. unfold pad_to.
    replace (f_pos f - length (f_data f)) with 0 by lia. by rewrite app_nil_r. }
  pose proof (zero_range_zeroed (f_data f) (f_pos f) chunk ltac:(lia)) as Hz.
  replace len with (chunk + (len - chunk)) at 2 by lia. eapply zeroed_trans; [exact Hz|].
  apply (IH (len - chunk) (mkFile (zero_range (f_data f) (f_pos f) chunk) (f_pos f + chunk))); [lia|].
  cbn [f_pos f_data]. rewrite (proj1 Hz). lia.
Qed.

Section PunchProofs.
Context `{FallocateLaws}.

Lemma punch_hole_spec f pos len : pos + len ≤ length (f_data f) → (Z.of_nat (length (f_data f)) ≤ i64_max)%Z →
  ∃ f', punch_hole f pos len = Ok f' ∧ zeroed (f_data f) (f_data f') pos len.
Proof.
  intros Hin Hb. unfold punch_hole. destruct (Nat.eqb_spec len 0) as [->|Hl].
  { exists f. split; [done|]. split; [done|]. intros i. by rewrite decide_False by lia. }
  rewrite (proj2 (Z.leb_le _ _)), (proj2 (Z.leb_le _ _)) by lia. cbn [andb].
  destruct (match fallocate _ _ _ _ with Some _ => _ | None => _ end) as [d|] eqn:E.
  - eexists. split; [done|]. cbn [f_data]. assert (∃ flags, fallocate flags (f_data f) pos len = Some d) as [flags E'].
    { destruct (fallocate PUNCH_HOLE_KEEP_SIZE (f_data f) pos len) eqn:E1; simplify_eq; eauto. }
    rewrite (fallocate_zeroes _ _ _ _ _ Hin E'). by apply zero_range_zeroed.
  - unfold write_zeros_fallback, file_seek. rewrite (proj2 (Z.ltb_ge _ _)) by lia.
    eexists. split; [done|]. apply (write_zeros_spec len len (mkFile (f_data f) pos)); [done|done].
Qed.

(** Punching the recorded holes leaves the contents the writes stand for. *)
Lemma punch_holes_spec w holes f : (Z.of_nat (length w) ≤ i64_max)%Z → length (f_data f) = length w →
  Forall (λ h, h.1 + h.2 ≤ length w ∧ ∀ i, in_hole h i → w !! i = Some x00) holes →
  (∀ i, f_data f !! i = w !! i ∨ (w !! i = Some x00 ∧ covered holes i)) →
  ∃ f', punch_holes f holes = Ok f' ∧ f_data f' = w.
Proof.
  intros Hb Hl Hh. revert f Hl. induction Hh as [|[pos len] holes [Hle Hz] Hh IH]; intros f Hl Hd;
    cbn [punch_holes].
  - exists f. split; [done|]. apply list_eq. intros i.
    destruct (Hd i) as [?|[_ Hc]]; [done|]. by apply Exists_nil in Hc.
  - cbn [fst snd] in *. destruct (punch_hole_spec f pos len) as (f' & -> & Hlen & Hzd); [lia..|].
    apply IH; [congruence|]. intros i. rewrite Hzd. case_decide as Hi.
    + left. symmetry. by apply Hz.
    + destruct (Hd i) as [?|[? Hc]]; [by left|]. right. split; [done|].
      apply Exists_cons in Hc as [Hc|Hc]; [|done]. unfold in_hole in Hc. simpl in Hc. lia.
Qed.

Lemma sparse_end_spec pre w s f : sparse_inv pre w s f → (Z.of_nat (length w) ≤ i64_max)%Z →
  ∃ f', sparse_end s f = Ok (length w, f') ∧ f_data f' = w.
Proof.
  intros Hinv Hb. unfold sparse_end, sparse_finish, ensure_offset. rewrite (si_primed _ _ _ _ Hinv).
  rewrite (si_offset _ _ _ _ Hinv), sat_add_small, (si_len _ _ _ _ Hinv) by (rewrite (si_len _ _ _ _ Hinv); lia).
  destruct (sparse_flush_inv pre w s f Hinv Hb) as (s' & f1 & -> & [_ _ _ Hl _ _ Hh Hd] & Hp).
  rewrite Hp, Nat.add_0_r in Hl. cbn [take_holes]. set (n := length w) in *.
  assert (length (take n (pad_to n (f_data f1))) = n) as Hlen
    by (unfold pad_to; rewrite length_take, length_app, length_replicate; lia).
  destruct (punch_holes_spec w (sw_holes s') (file_set_len f1 n)) as (f' & -> & Hf');
    [done|done|by rewrite Hl in Hh| |by exists f'].
  intros i. cbn [file_set_len f_data]. destruct (Nat.lt_ge_cases i n) as [Hi|Hi].
  - rewrite lookup_take_lt by done. unfold pad_to.
    destruct (Nat.lt_ge_cases i (length (f_data f1))) as [Hin|Hout].
    + rewrite lookup_app_l by done. destruct (Hd i) as [?|[? [?|?]]]; [lia|by left|by right|lia].
    + left. rewrite lookup_app_r, lookup_replicate_2 by lia.
      destruct (Hd i) as [E|[-> _]]; [lia| |done]. rewrite lookup_ge_None_2 in E by done.
      symmetry in E. apply lookup_ge_None in E. lia.
  - left. rewrite !lookup_ge_None_2 by lia. done.
Qed.
End PunchProofs.

(** ** Correctness *)

(** The invariant also holds before the position is first asked for. *)
Definition sparse_ok (pre w : list byte) (s : SparseWriteState) (f : file) : Prop :=
  sparse_inv pre w (ensure_offset s f) f.

Lemma ensure_offset_twice s f : ensure_offset (ensure_offset s f) f = ensure_offset s f.
Proof. unfold ensure_offset. by destruct (sw_offset_primed s) eqn:E; [rewrite E|]. Qed.

Lemma sparse_inv_ok pre w s f : sparse_inv pre w s f → sparse_ok pre w s f.
Proof. intros Hinv. unfold sparse_ok, ensure_offset. by rewrite (si_primed _ _ _ _ Hinv). Qed.

Lemma sparse_write_ok pre w s f data : sparse_ok pre w s f → (Z.of_nat (length w + length data) ≤ i64_max)%Z →
  ∃ s' f', sparse_write s f data = Ok (s', f') ∧ sparse_ok pre (w ++ data) s' f'.
Proof.
  intros Hok Hb. destruct data as [|b data]; [exists s, f; by rewrite app_nil_r|].
  destruct (sparse_write_inv pre w (ensure_offset s f) f (b :: data)) as (s' & f' & E & Hinv); [done|done|].
  exists s', f'. split; [|by apply sparse_inv_ok]. unfold sparse_write in *. by rewrite ensure_offset_twice in E.
Qed.

Lemma sparse_end_ok `{FallocateLaws} pre w s f : sparse_ok pre w s f → (Z.of_nat (length w) ≤ i64_max)%Z →
  ∃ f', sparse_end s f = Ok (length w, f') ∧ f_data f' = w.
Proof.
  intros Hok Hb. destruct (sparse_end_spec pre w _ f Hok Hb) as (f' & E & Hf'). exists f'. split; [|done].
  unfold sparse_end, sparse_finish in *. by rewrite ensure_offset_twice in E.
Qed.

Fixpoint sparse_writes (s : SparseWriteState) (f : file) (chunks : list (list byte))
    : result io_error (SparseWriteState * file) :=
  match chunks with
  | [] => Ok (s, f)
  | chunk :: chunks' =>
      match sparse_write s f chunk with
      | Ok (s, f) => sparse_writes s f chunks'
      | Err e => Err e
      end
  end.

(** A sparse update of a file with contents [pre] from position [pos] on. *)
Definition sparse_update `{Fallocate} (pre : list byte) (pos : nat) (chunks : list (list byte))
    : result io_error (nat * file) :=
  match sparse_writes (set_preallocated_len sparse_new (length pre)) (mkFile pre pos) chunks with
  | Ok (s, f) => sparse_end s f
  | Err e => Err e
  end.

Lemma sparse_writes_ok pre w s f chunks : sparse_ok pre w s f →
  (Z.of_nat (length w + length (concat chunks)) ≤ i64_max)%Z →
  ∃ s' f', sparse_writes s f chunks = Ok (s', f') ∧ sparse_ok pre (w ++ concat chunks) s' f'.
Proof.
  revert w s f. induction chunks as [|c chunks IH]; intros w s f Hok Hb; cbn [sparse_writes concat] in *.
  { exists s, f. by rewrite app_nil_r. }
  rewrite length_app in Hb. destruct (sparse_write_ok pre w s f c Hok) as (s' & f' & -> & Hok'); [lia|].
  rewrite app_assoc. apply IH; [done|]. rewrite length_app. lia.
Qed.

(** C28: writing through the sparse state machine, truncating and punching leaves
    exactly the bytes of plain writes: what was before the start position, then
    the data, however it is cut into writes and whatever the file held, and the
    reported end is its length. *)
Theorem sparse_writes_file `{FallocateLaws} (pre : list byte) (pos : nat) (chunks : list (list byte)) :
  pos ≤ length pre → (Z.of_nat (pos + length (concat chunks)) ≤ i64_max)%Z →
  ∃ f, sparse_update pre pos chunks = Ok (pos + length (concat chunks), f) ∧
    f_data f = take pos pre ++ concat chunks.
Proof.
  intros Hpos Hb. unfold sparse_update. assert (length (take pos pre) = pos) as Hl by (rewrite length_take; lia).
  destruct (sparse_writes_ok pre (take pos pre) (set_preallocated_len sparse_new (length pre)) (mkFile pre pos) chunks)
    as (s & f & -> & Hok); [by apply sparse_start|lia|].
  destruct (sparse_end_ok _ _ s f Hok) as (f' & -> & Hf'); [rewrite length_app; lia|].
  exists f'. by rewrite length_app, Hl.
Qed.

(** No [fallocate] tier: zeros are written. *)
#[local] Instance no_fallocate : Fallocate := {| fallocate _ _ _ _ := None |}.

#[local] Instance no_fallocate_ok : FallocateLaws.
Proof. by constructor. Defined.

Lemma sparse_writes_file_witness :
  ∃ f, sparse_update [x61; x62; x63; x64; x65; x66] 1 [[x00; x00]; [x07; x00]]
       = Ok (1 + length (concat [[x00; x00]; [x07; x00]]), f) ∧
    f_data f = [x61; x00; x00; x07; x00].
Proof.
  apply (sparse_writes_file [x61; x62; x63; x64; x65; x66] 1 [[x00; x00]; [x07; x00]]).
  - simpl. lia.
  - unfold i64_max. simpl. lia.
Defined.
