(* ===== verification/KernelCopy.v ===== *)
(** * Copies made by the kernel ([crates/fast_io/src/copy_basis_range.rs],
      [clone_file_range.rs])

    The receiver has the kernel copy a range of the basis into the output where it can: by
    sharing the blocks of the file system ([FICLONERANGE]), or by [copy_file_range] on Linux
    and by positioned reads and writes on Windows.  The system calls are the class
    [KernelCalls], with their documented effects as laws; what the crate makes of them, with
    its loops over short counts and its fallbacks, is modelled, and [clone_effect] and
    [copy_effect] say what a caller can rely on. *)

From S2P Require Import Prelude Sparse.

(** ** The system calls *)

Inductive Platform := Linux | Windows | OtherPlatform.

(** The error codes that are told apart. *)
Inductive errno := EOPNOTSUPP | EXDEV | EINVAL | ENOSYS | ETXTBSY | EPERM | ERROR_HANDLE_EOF | OtherErrno.

#[export] Instance Platform_eq_dec : EqDecision Platform.
Proof. solve_decision. Defined.
#[export] Instance errno_eq_dec : EqDecision errno.
Proof. solve_decision. Defined.

(** Whether two files share a device, the probe of [copy_file_range] on the null device, and
    the calls that copy; a file that is written is its contents before and after. *)
Class KernelCalls := {
  platform : Platform;
  files_same_device : option bool;
  null_device_opens : bool;
  probe_call : result errno nat;
  ioctl_ficlonerange : ∀ (basis : list byte) (src_offset : nat) (dest : list byte) (dest_offset len : nat),
    result errno unit * list byte;
  copy_file_range : ∀ (basis : list byte) (src_off : nat) (dest : list byte) (dst_off len : nat),
    result errno nat * list byte;
  read_file : ∀ (basis : list byte) (offset_lo offset_hi : Z) (len : nat), result errno (list byte);
  write_file : ∀ (dest : list byte) (offset_lo offset_hi : Z) (bytes : list byte), result errno nat * list byte;
}.

(** [bytes] put into the contents at [off]. *)
Definition put_at (dest : list byte) (off : nat) (bytes : list byte) : list byte :=
  f_data (file_write (mkFile dest off) bytes).

(** The position in the two halves of an [OVERLAPPED]. *)
Definition overlapped (lo hi : Z) : nat := Z.to_nat (lo + hi * 2 ^ 32).

Class KernelCallsLaws `{KernelCalls} : Prop := {
  ficlonerange_ok : ∀ basis off dest dest_off len u dest', off + len ≤ length basis →
    ioctl_ficlonerange basis off dest dest_off len = (Ok u, dest') →
    dest' = put_at dest dest_off (take len (drop off basis));
  ficlonerange_err : ∀ basis off dest dest_off len e dest',
    ioctl_ficlonerange basis off dest dest_off len = (Err e, dest') → dest' = dest;
  copy_file_range_ok : ∀ basis off dest dest_off len n dest',
    copy_file_range basis off dest dest_off len = (Ok n, dest') →
    n ≤ len ∧ n ≤ length basis - off ∧ dest' = put_at dest dest_off (take n (drop off basis));
  copy_file_range_err : ∀ basis off dest dest_off len e dest',
    copy_file_range basis off dest dest_off len = (Err e, dest') → dest' = dest;
  read_file_ok : ∀ basis lo hi len data, read_file basis lo hi len = Ok data →
    length data ≤ len ∧ data = take (length data) (drop (overlapped lo hi) basis);
  write_file_ok : ∀ dest lo hi bytes n dest', write_file dest lo hi bytes = (Ok n, dest') →
    n ≤ length bytes ∧ dest' = put_at dest (overlapped lo hi) (take n bytes);
  write_file_err : ∀ dest lo hi bytes e dest', write_file dest lo hi bytes = (Err e, dest') → dest' = dest;
}.

(** ** The crate *)

Section Copies.
Context `{KernelCalls}.

(** The errors that mean that the range cannot be shared. *)
Definition cannot_reflink (e : errno) : bool :=
  match e with EOPNOTSUPP | EXDEV | EINVAL | ENOSYS | ETXTBSY | EPERM => true | _ => false end.

Definition try_clone_file_range (basis : list byte) (basis_offset : nat) (dst : list byte)
    (dst_offset len : nat) : result io_error bool * list byte :=
  match platform with
  | Linux =>
      if len =? 0 then (Ok false, dst)
      else
        match ioctl_ficlonerange basis basis_offset dst dst_offset len with
        | (Ok _, dst) => (Ok true, dst)
        | (Err e, dst) => (if cannot_reflink e then Ok false else Err OtherError, dst)
        end
  | _ => (Ok false, dst)
  end.

Definition probe : bool :=
  if negb null_device_opens then false
  else match probe_call with Ok _ => true | Err e => negb (bool_decide (e = ENOSYS)) end.

(** The result of [probe] is kept for the life of the process. *)
Definition copy_file_range_supported : bool :=
  match platform with Linux => probe | Windows => true | OtherPlatform => false end.

(** [while total < len] on Linux; the kernel moves both offsets on. *)
Fixpoint linux_copy_loop (fuel total len : nat) (basis : list byte) (src_off : nat) (dest : list byte)
    (dst_off : nat) : result io_error nat * list byte :=
  match fuel with
  | O => (Ok total, dest)
  | S fuel' =>
      if total <? len then
        let chunk := Z.to_nat (Z.min (Z.of_nat (len - total)) i64_max) in
        match copy_file_range basis src_off dest dst_off chunk with
        | (Err _, dest) => (if total =? 0 then Ok 0 else Err OtherError, dest)
        | (Ok O, dest) => (Ok total, dest)
        | (Ok n, dest) => linux_copy_loop fuel' (total + n) len basis (src_off + n) dest (dst_off + n)
        end
      else (Ok total, dest)
  end.

Definition linux_copy_basis_range (basis : list byte) (basis_off : nat) (dest : list byte)
    (dest_off len : nat) : result io_error nat * list byte :=
  if len =? 0 then (Ok 0, dest)
  else if negb copy_file_range_supported then (Ok 0, dest)
  else if (i64_max <? Z.of_nat basis_off)%Z then (Err InvalidInput, dest)
  else if (i64_max <? Z.of_nat dest_off)%Z then (Err InvalidInput, dest)
  else linux_copy_loop len 0 len basis basis_off dest dest_off.

Definition COPY_BUF_SIZE : nat := 256 * 1024.

(** The low and the high 32 bits. *)
Definition offset_parts (off : nat) : Z * Z :=
  (wrap 32 (Z.of_nat off), wrap 32 (Z.shiftr (Z.of_nat off) 32)).

(** [while total_written < n]: the bytes are written, or the copy ends with a result. *)
Fixpoint windows_write_loop (fuel total total_written : nat) (data dest : list byte) (dst_pos : nat)
    : option (result io_error nat) * list byte :=
  match fuel with
  | O => (None, dest)
  | S fuel' =>
      if total_written <? length data then
        let '(lo, hi) := offset_parts (dst_pos + total_written) in
        match write_file dest lo hi (drop total_written data) with
        | (Err _, dest) => (Some (if (total =? 0) && (total_written =? 0) then Ok 0 else Err OtherError), dest)
        | (Ok O, dest) => (Some (Err OtherError), dest)
        | (Ok n, dest) => windows_write_loop fuel' total (total_written + n) data dest dst_pos
        end
      else (None, dest)
  end.

Fixpoint windows_copy_loop (fuel total len : nat) (basis : list byte) (src_pos : nat) (dest : list byte)
    (dst_pos : nat) : result io_error nat * list byte :=
  match fuel with
  | O => (Ok total, dest)
  | S fuel' =>
      if total <? len then
        let chunk := min (len - total) COPY_BUF_SIZE in
        let '(lo, hi) := offset_parts src_pos in
        match read_file basis lo hi chunk with
        | Err e =>
            (if bool_decide (e = ERROR_HANDLE_EOF) then Ok total
             else if total =? 0 then Ok 0 else Err OtherError, dest)
        | Ok data =>
            if length data =? 0 then (Ok total, dest)
            else
              match windows_write_loop (length data) total 0 data dest dst_pos with
              | (Some r, dest) => (r, dest)
              | (None, dest) =>
                  let n := length data in
                  windows_copy_loop fuel' (total + n) len basis (src_pos + n) dest (dst_pos + n)
              end
        end
      else (Ok total, dest)
  end.

Definition windows_copy_basis_range (basis : list byte) (basis_off : nat) (dest : list byte)
    (dest_off len : nat) : result io_error nat * list byte :=
  if len =? 0 then (Ok 0, dest) else windows_copy_loop len 0 len basis basis_off dest dest_off.

Definition copy_basis_range (basis : list byte) (basis_off : nat) (dest : list byte) (dest_off len : nat)
    : result io_error nat * list byte :=
  match platform with
  | Linux => linux_copy_basis_range basis basis_off dest dest_off len
  | Windows => windows_copy_basis_range basis basis_off dest dest_off len
  | OtherPlatform => (Ok 0, dest)
  end.
End Copies.

(** ** Writing at a position *)

Lemma file_write_end w data :
  file_write (mkFile w (length w)) data = mkFile (w ++ data) (length (w ++ data)).
Proof.
  destruct data as [|b data]; cbn [file_write]; [by rewrite app_nil_r|]. cbn [f_pos f_data].
  unfold pad_to, copy_at. rewrite Nat.sub_diag, app_nil_r, take_ge, (drop_ge w), app_nil_r, length_app by lia. done.
Qed.

Lemma put_at_end w bytes : put_at w (length w) bytes = w ++ bytes.
Proof. unfold put_at. by rewrite file_write_end. Qed.

Lemma put_at_nil dest off : put_at dest off [] = dest.
Proof. done. Qed.

Lemma put_at_eq dest off bytes : bytes ≠ [] → put_at dest off bytes = copy_at off bytes (pad_to off dest).
Proof. by destruct bytes. Qed.

(** Writes one after the other are one write. *)
Lemma put_at_app dest off a b : put_at (put_at dest off a) (off + length a) b = put_at dest off (a ++ b).
Proof.
  destruct (decide (a = [])) as [->|Ha]; [by rewrite put_at_nil, Nat.add_0_r|].
  destruct (decide (b = [])) as [->|Hb]; [by rewrite put_at_nil, app_nil_r|].
  rewrite !put_at_eq; [|by destruct a|done|done]. set (d := pad_to off dest).
  assert (Hd : off ≤ length d) by (unfold d, pad_to; rewrite length_app, length_replicate; lia).
  assert (Ht : length (take off d) = off) by (rewrite length_take; lia).
  assert (pad_to (off + length a) (copy_at off a d) = copy_at off a d) as ->.
  { unfold pad_to. replace (off + length a - length (copy_at off a d)) with 0; [apply app_nil_r|].
    unfold copy_at. rewrite !length_app, Ht. lia. }
  unfold copy_at. set (h := take off d ++ a).
  assert (Hh : length h = off + length a) by (unfold h; rewrite length_app; lia).
  replace (take off d ++ a ++ drop (off + length a) d) with (h ++ drop (length h) d)
    by (unfold h at 1; by rewrite <-app_assoc, Hh).
  rewrite <-Hh, take_app_length, drop_app_ge, drop_drop by lia. unfold h at 1. rewrite <-!app_assoc, length_app.
  do 4 f_equal. lia.
Qed.

(** ** What a caller can rely on *)

Section Effects.
Context `{KernelCallsLaws}.

(** A range is shared as a whole or not at all. *)
Lemma clone_effect basis off dest dest_off len shared dest' : off + len ≤ length basis →
  try_clone_file_range basis off dest dest_off len = (Ok shared, dest') →
  dest' = if shared : bool then put_at dest dest_off (take len (drop off basis)) else dest.
Proof.
  intros Hin. unfold try_clone_file_range. destruct platform; [|by intros [= <- <-]..].
  destruct (len =? 0); [by intros [= <- <-]|].
  destruct (ioctl_ficlonerange basis off dest dest_off len) as [[u|e] d] eqn:E.
  - intros [= <- <-]. by eapply ficlonerange_ok.
  - apply ficlonerange_err in E as ->. by destruct (cannot_reflink e); intros [= <- <-].
Qed.

(** One more step of a copy. *)
Lemma copied_more basis off dest dest_off total n :
  total ≤ length basis - off → n ≤ length basis - (off + total) →
  put_at (put_at dest dest_off (take total (drop off basis))) (dest_off + total) (take n (drop (off + total) basis)) =
  put_at dest dest_off (take (total + n) (drop off basis)).
Proof.
  intros H1 H2. replace (dest_off + total) with (dest_off + length (take total (drop off basis)))
    by (rewrite length_take, length_drop; lia).
  by rewrite put_at_app, take_add_app, drop_drop.
Qed.

Lemma linux_copy_effect fuel total len basis off dest dest_off r dest' : total ≤ len → total ≤ length basis - off →
  linux_copy_loop fuel total len basis (off + total) (put_at dest dest_off (take total (drop off basis))) (dest_off + total)
    = (Ok r, dest') →
  r ≤ len ∧ dest' = put_at dest dest_off (take r (drop off basis)).
Proof.
  revert total. induction fuel as [|fuel IH]; intros total Hl Hb; cbn [linux_copy_loop]; [by intros [= <- <-]|].
  destruct (Nat.ltb_spec total len) as [Hlt|]; [|by intros [= <- <-]].
  destruct (copy_file_range _ _ _ _ _) as [[n|e] d] eqn:E.
  - apply copy_file_range_ok in E as (Hn1 & Hn2 & ->). rewrite copied_more by lia.
    destruct n as [|n]; [rewrite Nat.add_0_r; by intros [= <- <-]|].
    rewrite <-(Nat.add_assoc off), <-(Nat.add_assoc dest_off). apply IH; lia.
  - apply copy_file_range_err in E as ->. destruct (Nat.eqb_spec total 0) as [->|]; [|done].
    intros [= <- <-]. by split; [lia|].
Qed.

Lemma overlapped_parts off : (Z.of_nat off < 2 ^ 64)%Z →
  overlapped (offset_parts off).1 (offset_parts off).2 = off.
Proof.
  intros Ho. unfold overlapped, offset_parts, wrap. cbn [fst snd]. rewrite Z.shiftr_div_pow2 by lia.
  rewrite (Z.mod_small (Z.of_nat off / 2 ^ 32)).
  - pose proof (Z.div_mod (Z.of_nat off) (2 ^ 32) ltac:(lia)). lia.
  - split; [apply Z.div_pos; lia|]. apply Z.div_lt_upper_bound; lia.
Qed.

Lemma windows_write_effect fuel total written data dest pos out dest' :
  (Z.of_nat (pos + length data) ≤ 2 ^ 64)%Z → written ≤ length data → length data ≤ written + fuel →
  windows_write_loop fuel total written data (put_at dest pos (take written data)) pos = (out, dest') →
  match out with
  | None => dest' = put_at dest pos data
  | Some (Ok r) => r = 0 ∧ total = 0 ∧ dest' = dest
  | Some (Err _) => True
  end.
Proof.
  intros Hp. revert written. induction fuel as [|fuel IH]; intros written Hw Hf; cbn [windows_write_loop].
  { intros [= <- <-]. by rewrite take_ge by lia. }
  destruct (Nat.ltb_spec written (length data)) as [Hlt|]; [|intros [= <- <-]; by rewrite take_ge by lia].
  destruct (offset_parts (pos + written)) as [lo hi] eqn:Eo.
  assert (Ho : overlapped lo hi = pos + written) by (rewrite <-(overlapped_parts (pos + written)), Eo by lia; done).
  destruct (write_file _ lo hi _) as [[n|e] d] eqn:E.
  - apply write_file_ok in E as [Hn ->]. rewrite length_drop in Hn. rewrite Ho.
    replace (pos + written) with (pos + length (take written data)) by (rewrite length_take; lia).
    rewrite put_at_app, <-take_add_app. destruct n as [|n]; [by intros [= <- <-]|]. apply IH; lia.
  - apply write_file_err in E as ->. destruct (Nat.eqb_spec total 0), (Nat.eqb_spec written 0) as [->|]; cbn [andb];
      by intros [= <- <-].
Qed.

Lemma windows_copy_effect fuel total len basis off dest dest_off r dest' :
  (Z.of_nat (off + len) ≤ 2 ^ 64)%Z → (Z.of_nat (dest_off + len) ≤ 2 ^ 64)%Z →
  total ≤ len → total ≤ length basis - off →
  windows_copy_loop fuel total len basis (off + total) (put_at dest dest_off (take total (drop off basis))) (dest_off + total)
    = (Ok r, dest') →
  r ≤ len ∧ dest' = put_at dest dest_off (take r (drop off basis)).
Proof.
  intros Ho Hd. revert total. induction fuel as [|fuel IH]; intros total Hl Hb; cbn [windows_copy_loop]; [by intros [= <- <-]|].
  destruct (Nat.ltb_spec total len) as [Hlt|]; [|by intros [= <- <-]].
  destruct (offset_parts (off + total)) as [lo hi] eqn:Eo.
  assert (Hpos : overlapped lo hi = off + total) by (rewrite <-(overlapped_parts (off + total)), Eo by lia; done).
  destruct (read_file basis lo hi _) as [data|e] eqn:E.
  2:{ destruct (bool_decide (e = ERROR_HANDLE_EOF)); [by intros [= <- <-]|].
      destruct (Nat.eqb_spec total 0) as [->|]; [|done]. intros [= <- <-]. by split; [lia|]. }
  apply read_file_ok in E as [Hlen Hdata]. rewrite Hpos in Hdata.
  assert (Hav : length data ≤ length basis - (off + total)).
  { rewrite Hdata at 1. rewrite length_take, length_drop. lia. }
  destruct (Nat.eqb_spec (length data) 0); [by intros [= <- <-]|].
  destruct (windows_write_loop (length data) total 0 data _ _) as [[out|] d] eqn:Ew.
  - intros [= -> ->]. apply (windows_write_effect _ _ 0) in Ew; [|lia..]. destruct Ew as (-> & -> & ->).
    by split; [lia|].
  - apply (windows_write_effect _ _ 0) in Ew; [|lia..]. subst d. rewrite Hdata at 3.
    rewrite copied_more by lia. rewrite <-(Nat.add_assoc off), <-(Nat.add_assoc dest_off). apply IH; lia.
Qed.

(** A copy that returns a count has copied that many bytes from the front of the range. *)
Lemma copy_effect basis off dest dest_off len n dest' :
  (Z.of_nat (off + len) ≤ 2 ^ 64)%Z → (Z.of_nat (dest_off + len) ≤ 2 ^ 64)%Z → off ≤ length basis →
  copy_basis_range basis off dest dest_off len = (Ok n, dest') →
  n ≤ len ∧ dest' = put_at dest dest_off (take n (drop off basis)).
Proof.
  intros Ho Hd Hoff. assert (Hnone : ∀ r : result io_error nat, (Ok 0, dest) = (r, dest') → r = Ok n →
    n ≤ len ∧ dest' = put_at dest dest_off (take n (drop off basis))).
  { intros r [= <- <-] [= <-]. by split; [lia|]. }
  unfold copy_basis_range, linux_copy_basis_range, windows_copy_basis_range. destruct platform; [..|by eauto].
  - destruct (len =? 0); [by eauto|]. destruct (negb _); [by eauto|]. do 2 (destruct (_ <? _)%Z; [done|]).
    intros E. apply (linux_copy_effect len 0 len basis off dest dest_off n dest'); [lia|lia|].
    by rewrite !Nat.add_0_r.
  - destruct (len =? 0); [by eauto|].
    intros E. apply (windows_copy_effect len 0 len basis off dest dest_off n dest'); [done|done|lia|lia|].
    by rewrite !Nat.add_0_r.
Qed.
End Effects.

(** The kernel does not fail on this basis: a range that it cannot share or copy is declined
    before anything is written, and a copy that it has begun is not broken off by an error.
    The offsets are those of a file that the system can address. *)
Definition kernel_reliable `{KernelCalls} (basis : list byte) : Prop :=
  ∀ off dest dest_off len e dest', off + len ≤ length basis → (Z.of_nat (dest_off + len) ≤ i64_max)%Z →
    try_clone_file_range basis off dest dest_off len ≠ (Err e, dest') ∧
    copy_basis_range basis off dest dest_off len ≠ (Err e, dest').

(** ** Two systems *)

(** A system without such calls. *)
#[export] Instance portable_kernel : KernelCalls := {|
  platform := OtherPlatform;
  files_same_device := None;
  null_device_opens := false;
  probe_call := Err ENOSYS;
  ioctl_ficlonerange _ _ dest _ _ := (Err EOPNOTSUPP, dest);
  copy_file_range _ _ dest _ _ := (Err ENOSYS, dest);
  read_file _ _ _ _ := Err OtherErrno;
  write_file dest _ _ _ := (Err OtherErrno, dest);
|}.

#[export] Instance portable_kernel_ok : KernelCallsLaws.
Proof. by constructor; intros; simplify_eq/=. Defined.

Lemma portable_kernel_reliable basis : @kernel_reliable portable_kernel basis.
Proof. intros off dest dest_off len e dest' _ _. by split. Qed.

(** A Linux system that cannot share blocks and copies at most four bytes in a call. *)
#[local] Instance slow_linux : KernelCalls := {|
  platform := Linux;
  files_same_device := Some true;
  null_device_opens := true;
  probe_call := Ok 0;
  ioctl_ficlonerange _ _ dest _ _ := (Err EOPNOTSUPP, dest);
  copy_file_range basis off dest dest_off len :=
    let n := min (min len 4) (length basis - off) in (Ok n, put_at dest dest_off (take n (drop off basis)));
  read_file _ _ _ _ := Err OtherErrno;
  write_file dest _ _ _ := (Err OtherErrno, dest);
|}.

#[local] Instance slow_linux_ok : KernelCallsLaws.
Proof.
  constructor; intros; simplify_eq/=; try done. split_and!; [lia|lia|done].
Defined.

Lemma slow_linux_copies :
  copy_basis_range [x01; x02; x03; x04; x05; x06; x07; x08; x09; x0a] 1 [x0f] 1 9 =
    (Ok 9, [x0f; x02; x03; x04; x05; x06; x07; x08; x09; x0a]).
Proof. vm_compute. reflexivity. Qed.
