(* ===== verification/RingBuffer.v ===== *)
(** * The sliding window ([crates/matching/src/ring_buffer.rs])

    The byte ring buffer the delta generator slides over the input.  The abstract
    state is the queue of bytes it holds; the theorems show that every operation
    of the circular representation refines the corresponding operation of a
    bounded queue, and that the slices handed to the checksums are its contents. *)

From S2P Require Import Prelude.

Record RingBuffer := mkRing {
  rb_buffer : list byte;
  rb_head : nat;
  rb_len : nat;
}.

(** [with_capacity]; the assertion that the capacity is not zero is the caller's. *)
Definition ring_with_capacity (capacity : nat) : RingBuffer :=
  mkRing (replicate capacity x00) 0 0.

Definition ring_capacity (r : RingBuffer) : nat := length (rb_buffer r).
Definition ring_is_empty (r : RingBuffer) : bool := rb_len r =? 0.
Definition ring_is_full (r : RingBuffer) : bool := rb_len r =? length (rb_buffer r).

Definition ring_push_back (r : RingBuffer) (byte : byte) : RingBuffer * option Byte.byte :=
  let cap := length (rb_buffer r) in
  if rb_len r <? cap then
    let pos := (rb_head r + rb_len r) mod cap in
    (mkRing (<[pos := byte]> (rb_buffer r)) (rb_head r) (rb_len r + 1), None)
  else
    let outgoing := nth (rb_head r) (rb_buffer r) x00 in
    (mkRing (<[rb_head r := byte]> (rb_buffer r)) ((rb_head r + 1) mod cap) (rb_len r),
     Some outgoing).

Definition ring_pop_front (r : RingBuffer) : RingBuffer * option byte :=
  if rb_len r =? 0 then (r, None)
  else
    (mkRing (rb_buffer r) ((rb_head r + 1) mod length (rb_buffer r)) (rb_len r - 1),
     Some (nth (rb_head r) (rb_buffer r) x00)).

Definition ring_clear (r : RingBuffer) : RingBuffer := mkRing (rb_buffer r) 0 0.

(** [as_slice] returns the contents and may rotate the backing store. *)
Definition ring_as_slice (r : RingBuffer) : RingBuffer * list byte :=
  if rb_len r =? 0 then (r, [])
  else if rb_head r =? 0 then (r, take (rb_len r) (rb_buffer r))
  else
    let end_ := rb_head r + rb_len r in
    if end_ <=? length (rb_buffer r) then (r, take (rb_len r) (drop (rb_head r) (rb_buffer r)))
    else
      let buffer := drop (rb_head r) (rb_buffer r) ++ take (rb_head r) (rb_buffer r) in
      (mkRing buffer 0 (rb_len r), take (rb_len r) buffer).

Definition ring_try_as_slice (r : RingBuffer) : option (list byte) :=
  if rb_len r =? 0 then Some []
  else
    let end_ := rb_head r + rb_len r in
    if end_ <=? length (rb_buffer r) then Some (take (rb_len r) (drop (rb_head r) (rb_buffer r)))
    else None.

Definition ring_as_slices (r : RingBuffer) : list byte * list byte :=
  if rb_len r =? 0 then ([], [])
  else
    let end_ := rb_head r + rb_len r in
    if end_ <=? length (rb_buffer r)
    then (take (rb_len r) (drop (rb_head r) (rb_buffer r)), [])
    else
      let first_len := length (rb_buffer r) - rb_head r in
      let second_len := rb_len r - first_len in
      (drop (rb_head r) (rb_buffer r), take second_len (rb_buffer r)).

Definition ring_extend_from_slice (r : RingBuffer) (src : list byte) : RingBuffer * nat :=
  let cap := length (rb_buffer r) in
  let remaining := cap - rb_len r in
  let n := length src `min` remaining in
  if n =? 0 then (r, 0)
  else
    let write_pos := (rb_head r + rb_len r) mod cap in
    let to_end := cap - write_pos in
    let buffer :=
      if n <=? to_end then copy_at write_pos (take n src) (rb_buffer r)
      else copy_at 0 (take (n - to_end) (drop to_end src))
             (copy_at write_pos (take to_end src) (rb_buffer r)) in
    (mkRing buffer (rb_head r) (rb_len r + n), n).

(** [copy_to_slice], [None] when the assertion on the destination fails. *)
Definition ring_copy_to_slice (r : RingBuffer) (dest : list byte) : option (list byte) :=
  if length dest <? rb_len r then None
  else
    let '(first, second) := ring_as_slices r in
    let dest := copy_at 0 first dest in
    Some (match second with [] => dest | _ => copy_at (length first) second dest end).

(** ** The queue it implements *)

Definition ring_wf (r : RingBuffer) : Prop :=
  0 < length (rb_buffer r) ∧ rb_head r < length (rb_buffer r) ∧ rb_len r ≤ length (rb_buffer r).

Definition ring_contents (r : RingBuffer) : list byte :=
  take (rb_len r) (drop (rb_head r) (rb_buffer r) ++ take (rb_head r) (rb_buffer r)).

(** A queue of at most [cap] bytes that evicts its oldest byte when full. *)
Definition queue_push (cap : nat) (q : list byte) (b : byte) : list byte * option byte :=
  if length q <? cap then (q ++ [b], None)
  else match q with x :: q' => (q' ++ [b], Some x) | [] => ([], None) end.

Definition queue_pop (q : list byte) : list byte * option byte :=
  match q with x :: q' => (q', Some x) | [] => ([], None) end.

Definition queue_extend (cap : nat) (q src : list byte) : list byte * nat :=
  let n := length src `min` (cap - length q) in (q ++ take n src, n).

(** ** Lemmas *)

Section Ring.
Context (r : RingBuffer) (Hwf : ring_wf r).

(** Where the byte at logical position [i] is stored. *)
Lemma mod_wrap head i cap : head < cap → i ≤ cap →
  (head + i) mod cap = if decide (head + i < cap) then head + i else head + i - cap.
Proof.
  intros Hh Hi. case_decide; [by apply Nat.mod_small|].
  replace (head + i) with ((head + i - cap) + 1 * cap) at 1 by lia.
  rewrite Nat.Div0.mod_add. apply Nat.mod_small. lia.
Qed.

Lemma ring_contents_length : length (ring_contents r) = rb_len r.
Proof.
  destruct Hwf as (H1 & H2 & H3). unfold ring_contents.
  rewrite length_take, length_app, length_drop, length_take. lia.
Qed.

Lemma ring_contents_lookup i : i < rb_len r →
  ring_contents r !! i = rb_buffer r !! ((rb_head r + i) mod length (rb_buffer r)).
Proof.
  destruct Hwf as (H1 & H2 & H3). intros Hi. unfold ring_contents.
  rewrite lookup_take_lt by done. rewrite mod_wrap by lia. case_decide.
  - rewrite lookup_app_l by (rewrite length_drop; lia). by rewrite lookup_drop.
  - rewrite lookup_app_r by (rewrite length_drop; lia).
    rewrite lookup_take_lt by (rewrite length_drop; lia). rewrite length_drop. f_equal. lia.
Qed.

Lemma nth_head d : 0 < rb_len r → ring_contents r !! 0 = Some (nth (rb_head r) (rb_buffer r) d).
Proof.
  destruct Hwf as (H1 & H2 & H3). intros Hl. rewrite ring_contents_lookup by done.
  rewrite Nat.add_0_r, Nat.mod_small by done.
  destruct (lookup_lt_is_Some_2 (rb_buffer r) (rb_head r)) as [b Hb]; [done|].
  by rewrite Hb, (nth_lookup_Some _ _ _ _ Hb).
Qed.
End Ring.

Lemma ring_contents_eq r q : ring_wf r → length q = rb_len r →
  (∀ i, i < rb_len r → q !! i = rb_buffer r !! ((rb_head r + i) mod length (rb_buffer r))) →
  ring_contents r = q.
Proof.
  intros Hwf Hlen Hq. apply list_eq. intros i. destruct (Nat.lt_ge_cases i (rb_len r)).
  - rewrite ring_contents_lookup by done. by rewrite Hq.
  - rewrite !lookup_ge_None_2; [done|lia|by rewrite ring_contents_length].
Qed.

Lemma ring_contents_alt r q : ring_wf r → ring_contents r = q →
  length q = rb_len r ∧
  ∀ i, i < rb_len r → q !! i = rb_buffer r !! ((rb_head r + i) mod length (rb_buffer r)).
Proof.
  intros Hwf <-. split; [by apply ring_contents_length|]. intros. by apply ring_contents_lookup.
Qed.

Lemma ring_with_capacity_spec cap : 0 < cap →
  ring_wf (ring_with_capacity cap) ∧ ring_contents (ring_with_capacity cap) = [].
Proof. intros Hc. split; [|done]. unfold ring_wf. simpl. rewrite length_replicate. lia. Qed.

(** Positions of distinct bytes are distinct. *)
Lemma mod_wrap_ne head i j cap : head < cap → i < cap → j < cap → i ≠ j →
  (head + i) mod cap ≠ (head + j) mod cap.
Proof. intros. rewrite !mod_wrap by lia. repeat case_decide; lia. Qed.

Lemma mod_wrap_lt i cap : 0 < cap → i mod cap < cap.
Proof. intros. apply Nat.mod_upper_bound. lia. Qed.

Lemma mod_wrap_shift head i cap : ((head + 1) mod cap + i) mod cap = (head + S i) mod cap.
Proof. rewrite Nat.Div0.add_mod_idemp_l. f_equal. lia. Qed.

Lemma ring_push_spec r b q : ring_wf r → ring_contents r = q →
  let '(r', out) := ring_push_back r b in
  ring_wf r' ∧ ring_capacity r' = ring_capacity r ∧
  (ring_contents r', out) = queue_push (ring_capacity r) q b.
Proof.
  intros Hwf Hq. destruct (ring_contents_alt _ _ Hwf Hq) as [Hlen Hlk].
  unfold ring_push_back, queue_push, ring_capacity. rewrite Hlen.
  destruct Hwf as (H1 & H2 & H3). destruct (Nat.ltb_spec (rb_len r) (length (rb_buffer r))) as [Hlt|Hge].
  - split_and!; [|simpl; by rewrite length_insert|].
    { unfold ring_wf. simpl. rewrite length_insert. lia. }
    f_equal. apply ring_contents_eq; unfold ring_wf; simpl; rewrite ?length_insert, ?length_app; simpl; [lia|lia|].
    intros i Hi. destruct (Nat.eq_dec i (rb_len r)) as [->|Hne].
    + rewrite list_lookup_insert_eq by (apply mod_wrap_lt; lia).
      rewrite lookup_app_r by lia. by rewrite Hlen, Nat.sub_diag.
    + rewrite list_lookup_insert_ne by (apply mod_wrap_ne; lia).
      rewrite lookup_app_l by lia. apply Hlk. lia.
  - destruct q as [|x q]; [simpl in *; lia|]. simpl in Hlen.
    assert (Hx : nth (rb_head r) (rb_buffer r) x00 = x).
    { pose proof (nth_head r (conj H1 (conj H2 H3)) x00 ltac:(lia)) as Hn. rewrite Hq in Hn.
      simpl in Hn. by simplify_eq. }
    rewrite Hx. split_and!; [|simpl; by rewrite length_insert|].
    { unfold ring_wf. simpl. rewrite length_insert. split_and!; [lia|apply mod_wrap_lt; lia|lia]. }
    f_equal. apply ring_contents_eq; unfold ring_wf; simpl; rewrite ?length_insert, ?length_app; simpl.
    { split_and!; [lia|apply mod_wrap_lt; lia|lia]. }
    { lia. }
    intros i Hi. rewrite mod_wrap_shift. destruct (Nat.eq_dec (S i) (rb_len r)) as [Heq|Hne].
    + replace (rb_head r + S i) with (rb_head r + 1 * length (rb_buffer r)) by lia.
      rewrite Nat.Div0.mod_add, Nat.mod_small by done.
      rewrite list_lookup_insert_eq by lia. rewrite lookup_app_r by lia.
      by replace (i - length q) with 0 by lia.
    + rewrite list_lookup_insert_ne.
      2:{ rewrite <- (Nat.mod_small (rb_head r) (length (rb_buffer r))) at 1 by lia.
          rewrite <- (Nat.add_0_r (rb_head r)) at 1. apply mod_wrap_ne; lia. }
      rewrite lookup_app_l by lia. apply (Hlk (S i)). lia.
Qed.

Lemma ring_pop_spec r q : ring_wf r → ring_contents r = q →
  let '(r', out) := ring_pop_front r in
  ring_wf r' ∧ ring_capacity r' = ring_capacity r ∧ (ring_contents r', out) = queue_pop q.
Proof.
  intros Hwf Hq. destruct (ring_contents_alt _ _ Hwf Hq) as [Hlen Hlk]. pose proof Hwf as (H1 & H2 & H3).
  unfold ring_pop_front. destruct (Nat.eqb_spec (rb_len r) 0) as [Hz|Hnz].
  - destruct q; [|simpl in *; lia]. by rewrite Hq.
  - destruct q as [|x q]; [simpl in *; lia|]. simpl in Hlen.
    pose proof (nth_head r Hwf x00 ltac:(lia)) as Hn. rewrite Hq in Hn. simpl in Hn. simplify_eq.
    assert (Hwf' : ring_wf (mkRing (rb_buffer r) ((rb_head r + 1) mod length (rb_buffer r)) (rb_len r - 1))).
    { unfold ring_wf. simpl. split_and!; [lia|apply mod_wrap_lt; lia|lia]. }
    split_and!; [done|done|]. unfold queue_pop. f_equal. apply ring_contents_eq; [done|simpl; lia|].
    simpl. intros i Hi. rewrite mod_wrap_shift. apply (Hlk (S i)). lia.
Qed.

Lemma ring_slices_spec r q : ring_wf r → ring_contents r = q →
  let '(a, b) := ring_as_slices r in a ++ b = q.
Proof.
  intros (H1 & H2 & H3) <-. unfold ring_as_slices, ring_contents.
  destruct (Nat.eqb_spec (rb_len r) 0) as [->|Hnz]; [done|].
  destruct (Nat.leb_spec (rb_head r + rb_len r) (length (rb_buffer r))) as [Hle|Hgt].
  - rewrite app_nil_r, take_app. rewrite length_drop.
    replace (rb_len r - (length (rb_buffer r) - rb_head r)) with 0 by lia.
    by rewrite take_0, app_nil_r.
  - rewrite take_app, (take_ge (drop _ _)) by (rewrite length_drop; lia).
    rewrite length_drop, take_take. do 2 f_equal. lia.
Qed.

Lemma ring_try_as_slice_spec r q : ring_wf r → ring_contents r = q →
  match ring_try_as_slice r with
  | Some s => s = q
  | None => length (rb_buffer r) < rb_head r + rb_len r
  end.
Proof.
  intros Hwf Hq. pose proof (ring_slices_spec r q Hwf Hq) as Hs. unfold ring_as_slices in Hs.
  unfold ring_try_as_slice. destruct (rb_len r =? 0); [done|].
  destruct (Nat.leb_spec (rb_head r + rb_len r) (length (rb_buffer r))) as [Hle|Hgt]; [|done].
  by rewrite app_nil_r in Hs.
Qed.

Lemma ring_as_slice_spec r q : ring_wf r → ring_contents r = q →
  let '(r', s) := ring_as_slice r in
  ring_wf r' ∧ ring_capacity r' = ring_capacity r ∧ ring_contents r' = q ∧ s = q.
Proof.
  intros Hwf Hq. pose proof (ring_try_as_slice_spec r q Hwf Hq) as Hs.
  unfold ring_try_as_slice in Hs. unfold ring_as_slice.
  destruct (rb_len r =? 0); [done|]. destruct (Nat.eqb_spec (rb_head r) 0) as [Hz|Hz].
  - destruct Hwf as (H1 & H2 & H3). rewrite Hz in Hs. rewrite (proj2 (Nat.leb_le _ _)) in Hs by lia. done.
  - destruct (rb_head r + rb_len r <=? length (rb_buffer r)); [done|].
    destruct Hwf as (H1 & H2 & H3).
    assert (Hl : length (drop (rb_head r) (rb_buffer r) ++ take (rb_head r) (rb_buffer r))
                 = length (rb_buffer r)) by (rewrite length_app, length_drop, length_take; lia).
    unfold ring_wf, ring_capacity, ring_contents in *. simpl. rewrite Hl.
    rewrite app_nil_r. split_and!; [lia..|done|done].
Qed.

Lemma ring_extend_spec r src q : ring_wf r → ring_contents r = q →
  let '(r', n) := ring_extend_from_slice r src in
  ring_wf r' ∧ ring_capacity r' = ring_capacity r ∧
  (ring_contents r', n) = queue_extend (ring_capacity r) q src.
Proof.
  intros Hwf Hq. destruct (ring_contents_alt _ _ Hwf Hq) as [Hlen Hlk]. pose proof Hwf as (H1 & H2 & H3).
  unfold ring_extend_from_slice, queue_extend, ring_capacity. rewrite Hlen.
  set (cap := length (rb_buffer r)) in *. set (n := length src `min` (cap - rb_len r)).
  destruct (Nat.eqb_spec n 0) as [Hz|Hnz]; [rewrite Hz, take_0, app_nil_r; by subst q|].
  set (wp := (rb_head r + rb_len r) mod cap). assert (Hwp : wp < cap) by (apply mod_wrap_lt; lia).
  set (buffer := if n <=? cap - wp then _ else _).
  assert (Hb : length buffer = cap ∧ ∀ j, j < cap → buffer !! j =
    if decide (wp ≤ j < wp + n) then src !! (j - wp)
    else if decide (j + cap < wp + n) then src !! (j + cap - wp) else rb_buffer r !! j).
  { unfold buffer. destruct (Nat.leb_spec n (cap - wp)) as [Hle|Hgt].
    - assert (Hc : wp + length (take n src) ≤ length (rb_buffer r)) by (rewrite length_take; lia).
      rewrite length_copy_at by done. split; [done|]. intros j Hj. rewrite lookup_copy_at by done.
      rewrite length_take_le by lia. case_decide; [by rewrite lookup_take_lt by lia|].
      by rewrite decide_False by lia.
    - assert (Hc : wp + length (take (cap - wp) src) ≤ length (rb_buffer r)) by (rewrite length_take; lia).
      assert (Hc2 : 0 + length (take (n - (cap - wp)) (drop (cap - wp) src))
                    ≤ length (copy_at wp (take (cap - wp) src) (rb_buffer r)))
        by (rewrite length_copy_at by done; rewrite length_take, length_drop; lia).
      rewrite length_copy_at, length_copy_at by done. split; [done|]. intros j Hj.
      rewrite lookup_copy_at by done. rewrite (length_take_le (drop _ _)) by (rewrite length_drop; lia).
      destruct (decide (0 ≤ j < 0 + (n - (cap - wp)))) as [Hd|Hd].
      + rewrite decide_False, decide_True by lia. rewrite lookup_take_lt by lia.
        rewrite lookup_drop. f_equal. lia.
      + rewrite lookup_copy_at by done. rewrite length_take_le by lia.
        destruct (decide (wp ≤ j < wp + (cap - wp))).
        * rewrite decide_True by lia. by rewrite lookup_take_lt by lia.
        * rewrite !decide_False by lia. done. }
  destruct Hb as [Hbl Hblk]. clearbody buffer.
  assert (Hwf' : ring_wf (mkRing buffer (rb_head r) (rb_len r + n))) by (unfold ring_wf; simpl; lia).
  split_and!; [done|done|]. f_equal. apply ring_contents_eq; [done|rewrite length_app, length_take; simpl; lia|].
  simpl. rewrite Hbl. intros i Hi. rewrite Hblk by (apply mod_wrap_lt; lia).
  assert (Hi2 : (rb_head r + i) mod cap = if decide (rb_head r + i < cap) then rb_head r + i else rb_head r + i - cap)
    by (apply mod_wrap; lia).
  assert (Hw2 : wp = if decide (rb_head r + rb_len r < cap) then rb_head r + rb_len r else rb_head r + rb_len r - cap)
    by (apply mod_wrap; lia).
  destruct (Nat.lt_ge_cases i (rb_len r)) as [Hlt|Hge].
  - rewrite lookup_app_l by lia. rewrite (Hlk i) by done.
    rewrite !decide_False; [done|rewrite Hi2; repeat case_decide; lia..].
  - rewrite lookup_app_r by lia. rewrite lookup_take_lt by lia. rewrite Hlen.
    destruct (decide (wp ≤ (rb_head r + i) mod cap < wp + n)) as [Hd|Hd].
    + f_equal. rewrite Hi2 in *. repeat case_decide; lia.
    + rewrite decide_True by (rewrite Hi2 in *; repeat case_decide; lia).
      f_equal. rewrite Hi2 in *. repeat case_decide; lia.
Qed.

Lemma ring_copy_spec r q dest : ring_wf r → ring_contents r = q →
  ring_copy_to_slice r dest =
    if decide (length q ≤ length dest) then Some (q ++ drop (length q) dest) else None.
Proof.
  intros Hwf Hq. pose proof (ring_slices_spec r q Hwf Hq) as Hs.
  destruct (ring_contents_alt _ _ Hwf Hq) as [Hlen _]. unfold ring_copy_to_slice. rewrite Hlen.
  destruct (Nat.ltb_spec (length dest) (rb_len r)) as [Hlt|Hge]; [by rewrite decide_False by lia|].
  rewrite decide_True by lia. destruct (ring_as_slices r) as [a b]. clear Hq. subst q.
  rewrite length_app in Hlen. f_equal. destruct b as [|x b].
  - rewrite app_nil_r. simpl in Hlen. unfold copy_at. rewrite take_0. simpl. do 2 f_equal. lia.
  - unfold copy_at at 2. rewrite take_0. cbn [app Nat.add]. unfold copy_at.
    rewrite take_app_length, drop_app_ge by lia. rewrite drop_drop, <- app_assoc. do 3 f_equal. lia.
Qed.

(** ** Refinement *)

Inductive ring_op :=
| OpPush (b : byte) | OpPop | OpExtend (src : list byte) | OpClear | OpSlice | OpSlices
| OpCopy (dest : list byte).

Inductive ring_obs :=
| ObsByte (b : option byte) | ObsCount (n : nat) | ObsNone | ObsBytes (l : list byte)
| ObsCopy (l : option (list byte)).

Definition ring_step (r : RingBuffer) (op : ring_op) : RingBuffer * ring_obs :=
  match op with
  | OpPush b => let '(r', o) := ring_push_back r b in (r', ObsByte o)
  | OpPop => let '(r', o) := ring_pop_front r in (r', ObsByte o)
  | OpExtend src => let '(r', n) := ring_extend_from_slice r src in (r', ObsCount n)
  | OpClear => (ring_clear r, ObsNone)
  | OpSlice => let '(r', s) := ring_as_slice r in (r', ObsBytes s)
  | OpSlices => let '(a, b) := ring_as_slices r in (r, ObsBytes (a ++ b))
  | OpCopy dest => (r, ObsCopy (ring_copy_to_slice r dest))
  end.

Definition queue_step (cap : nat) (q : list byte) (op : ring_op) : list byte * ring_obs :=
  match op with
  | OpPush b => let '(q', o) := queue_push cap q b in (q', ObsByte o)
  | OpPop => let '(q', o) := queue_pop q in (q', ObsByte o)
  | OpExtend src => let '(q', n) := queue_extend cap q src in (q', ObsCount n)
  | OpClear => ([], ObsNone)
  | OpSlice | OpSlices => (q, ObsBytes q)
  | OpCopy dest =>
      (q, ObsCopy (if decide (length q ≤ length dest) then Some (q ++ drop (length q) dest) else None))
  end.

Fixpoint run {S} (step : S → ring_op → S * ring_obs) (s : S) (ops : list ring_op)
    : S * list ring_obs :=
  match ops with
  | [] => (s, [])
  | op :: ops' => let '(s', o) := step s op in let '(s'', os) := run step s' ops' in (s'', o :: os)
  end.

Lemma ring_step_refines r op : ring_wf r →
  let '(r', o) := ring_step r op in
  ring_wf r' ∧ ring_capacity r' = ring_capacity r ∧
  (ring_contents r', o) = queue_step (ring_capacity r) (ring_contents r) op.
Proof.
  intros Hwf. destruct op; cbn [ring_step queue_step].
  - pose proof (ring_push_spec r b _ Hwf eq_refl) as H. destruct (ring_push_back r b).
    destruct H as (? & ? & <-). done.
  - pose proof (ring_pop_spec r _ Hwf eq_refl) as H. destruct (ring_pop_front r).
    destruct H as (? & ? & <-). done.
  - pose proof (ring_extend_spec r src _ Hwf eq_refl) as H. destruct (ring_extend_from_slice r src).
    destruct H as (? & ? & <-). done.
  - destruct Hwf as (? & ? & ?). unfold ring_wf. simpl. split_and!; try done; lia.
  - pose proof (ring_as_slice_spec r _ Hwf eq_refl) as H. destruct (ring_as_slice r).
    destruct H as (? & ? & -> & ->). done.
  - pose proof (ring_slices_spec r _ Hwf eq_refl) as H. destruct (ring_as_slices r). by rewrite H.
  - by rewrite (ring_copy_spec r _ dest Hwf eq_refl).
Qed.

(** The ring buffer is a bounded queue: any sequence of pushes, pops, bulk
    fills, clears and reads on a fresh ring of some capacity observes exactly
    what the same sequence observes on a list that evicts its oldest byte when
    full, however often the contents wrap around. *)
Theorem ring_refines_queue (cap : nat) (ops : list ring_op) : 0 < cap →
  (run ring_step (ring_with_capacity cap) ops).2 = (run (queue_step cap) [] ops).2.
Proof.
  intros Hcap. destruct (ring_with_capacity_spec cap Hcap) as [Hwf Hc].
  assert (Hgen : ∀ r, ring_wf r → ring_capacity r = cap →
    (run ring_step r ops).2 = (run (queue_step cap) (ring_contents r) ops).2).
  { clear. induction ops as [|op ops IH]; intros r Hwf Hcap; [done|]. cbn [run].
    pose proof (ring_step_refines r op Hwf) as H. destruct (ring_step r op) as [r' o].
    destruct H as (Hwf' & Hcap' & H). rewrite Hcap in *. rewrite <- H.
    specialize (IH r' Hwf' ltac:(lia)). destruct (run ring_step r' ops) as [r'' os].
    destruct (run (queue_step cap) (ring_contents r') ops) as [q'' os']. simpl in *. by rewrite IH. }
  rewrite (Hgen _ Hwf); [by rewrite Hc|]. unfold ring_capacity. simpl. apply length_replicate.
Qed.

Lemma ring_refines_queue_witness :
  0 < 3 ∧
  (run ring_step (ring_with_capacity 3)
     [OpExtend [x01; x02; x03; x04]; OpPush x05; OpPop; OpPush x06; OpPush x07; OpSlices; OpSlice]).2
  = [ObsCount 3; ObsByte (Some x01); ObsByte (Some x02); ObsByte None; ObsByte (Some x03);
     ObsBytes [x05; x06; x07]; ObsBytes [x05; x06; x07]].
Proof.
  split; [lia|].
  exact (ring_refines_queue 3 [OpExtend [x01; x02; x03; x04]; OpPush x05; OpPop; OpPush x06;
    OpPush x07; OpSlices; OpSlice] ltac:(lia)).
Defined.
