(* ===== verification/Lookup.v ===== *)
(** * The tables behind the signature index ([crates/matching/src/index/])

    [CompactLookup] ([compact_lookup.rs]): chained buckets addressed by the high
    half of the rolling sum; [BitHash] ([bithash.rs]): a one-sided bit filter;
    [MatchedBlocks] ([matched_blocks.rs]): a bit set of block indices.  The
    theorems show that a lookup enumerates exactly the entries inserted under the
    key, in insertion order, that the filter never rejects an inserted sum, and
    that the bit set is a set of block indices. *)

From S2P Require Import Prelude.

Local Open Scope Z_scope.

(** [u64::BITS - (x - 1).leading_zeros()]: the smallest [k] with [x <= 2 ^ k]. *)
Definition ceil_log2 (x : Z) : Z := if x <=? 1 then 0 else Z.log2 (x - 1) + 1.

(** ** Chained buckets *)

Definition MAX_LOG2_BUCKETS : Z := 16.
Definition MIN_LOG2_BUCKETS : Z := 4.
Definition CHAIN_END : Z := u32_max.

Record ChainEntry := mkEntry { ce_sum1 : Z; ce_block_index : nat; ce_next : Z }.
Record BucketSlot := mkSlot { bs_head : Z; bs_tail : Z }.

Record CompactLookup := mkLookup {
  cl_buckets : list BucketSlot;
  cl_entries : list ChainEntry;
  cl_mask : Z;
}.

Definition EMPTY_SLOT : BucketSlot := mkSlot CHAIN_END CHAIN_END.

Definition bucket_for (rsum : Z) : Z := wrap 16 (Z.shiftr rsum 16).

Definition log2_buckets_for (n_entries : nat) : Z :=
  let target := Z.min u64_max (Z.of_nat n_entries * 2) in
  let raw := if target <=? 1 then MIN_LOG2_BUCKETS else ceil_log2 target in
  Z.max MIN_LOG2_BUCKETS (Z.min MAX_LOG2_BUCKETS raw).

Definition lookup_with_capacity (n_entries : nat) : CompactLookup :=
  let n_buckets := Z.shiftl 1 (log2_buckets_for n_entries) in
  mkLookup (replicate (Z.to_nat n_buckets) EMPTY_SLOT) [] (wrap 16 (n_buckets - 1)).

Definition bucket_index (t : CompactLookup) (sum2 : Z) : nat := Z.to_nat (Z.land sum2 (cl_mask t)).

Definition default_slot : BucketSlot := EMPTY_SLOT.

Definition lookup_insert (t : CompactLookup) (sum1 sum2 : Z) (block_index : nat) : CompactLookup :=
  let bucket := bucket_index t sum2 in
  let entry_idx := wrap 32 (Z.of_nat (length (cl_entries t))) in
  let entries := cl_entries t ++ [mkEntry sum1 block_index CHAIN_END] in
  let slot := nth bucket (cl_buckets t) default_slot in
  if bs_head slot =? CHAIN_END
  then mkLookup (<[bucket := mkSlot entry_idx entry_idx]> (cl_buckets t)) entries (cl_mask t)
  else
    mkLookup (<[bucket := mkSlot (bs_head slot) entry_idx]> (cl_buckets t))
      (alter (λ e, mkEntry (ce_sum1 e) (ce_block_index e) entry_idx) (Z.to_nat (bs_tail slot)) entries)
      (cl_mask t).

(** The iterator of [find_all], run to the end; a chain visits each entry once,
    so the number of entries is enough fuel. *)
Fixpoint lookup_walk (fuel : nat) (entries : list ChainEntry) (sum1 next : Z) : list nat :=
  match fuel with
  | O => []
  | S fuel' =>
      if next =? CHAIN_END then []
      else
        match entries !! Z.to_nat next with
        | Some entry =>
            if ce_sum1 entry =? sum1
            then ce_block_index entry :: lookup_walk fuel' entries sum1 (ce_next entry)
            else lookup_walk fuel' entries sum1 (ce_next entry)
        | None => []
        end
  end.

Definition lookup_find_all (t : CompactLookup) (sum1 sum2 : Z) : list nat :=
  let bucket := bucket_index t sum2 in
  lookup_walk (S (length (cl_entries t))) (cl_entries t) sum1
    (bs_head (nth bucket (cl_buckets t) default_slot)).

Definition lookup_clear (t : CompactLookup) : CompactLookup :=
  mkLookup (map (λ _, EMPTY_SLOT) (cl_buckets t)) [] (cl_mask t).

(** ** The bit filter *)

Definition BITHASH_BITS : Z := 3.
Definition MIN_LOG2_BITS : Z := 7.
Definition MAX_LOG2_BITS : Z := 28.

Record BitHash := mkBitHash { bh_bits : list Z; bh_mask : Z }.

Definition log2_bits_for (n_blocks : nat) : Z :=
  let target_bits := Z.min u64_max (Z.of_nat n_blocks * Z.shiftl 1 (BITHASH_BITS + 2)) in
  let log2 := if target_bits <=? 1 then MIN_LOG2_BITS
              else Z.max (ceil_log2 target_bits) MIN_LOG2_BITS in
  Z.min log2 MAX_LOG2_BITS.

Definition bithash_with_block_count (n_blocks : nat) : BitHash :=
  let total_bits := Z.shiftl 1 (log2_bits_for n_blocks) in
  mkBitHash (replicate (Z.to_nat (total_bits / 64)) 0) (Z.land (total_bits - 1) u32_max).

Definition bithash_locate (h : BitHash) (rsum : Z) : nat * Z :=
  let masked := Z.land rsum (bh_mask h) in
  (Z.to_nat (Z.shiftr masked 6), Z.land masked 63).

Definition bithash_insert (h : BitHash) (rsum : Z) : BitHash :=
  let '(word_index, bit_index) := bithash_locate h rsum in
  mkBitHash (alter (λ w, Z.lor w (wrap 64 (Z.shiftl 1 bit_index))) word_index (bh_bits h)) (bh_mask h).

Definition bithash_contains (h : BitHash) (rsum : Z) : bool :=
  let '(word_index, bit_index) := bithash_locate h rsum in
  Z.land (Z.shiftr (nth word_index (bh_bits h) 0) bit_index) 1 =? 1.

Definition bithash_clear (h : BitHash) : BitHash := mkBitHash (map (λ _, 0) (bh_bits h)) (bh_mask h).

(** ** The bit set *)

Record MatchedBlocks := mkMatched { mb_bits : list Z; mb_block_count : nat }.

Definition BITS_PER_WORD : nat := 64.

Definition div_ceil (a b : nat) : nat := ((a + b - 1) / b)%nat.

Definition matched_with_block_count (block_count : nat) : MatchedBlocks :=
  mkMatched (replicate (div_ceil block_count BITS_PER_WORD) 0) block_count.

(** Setting and testing bit [idx] of an array of 64-bit words. *)
Definition set_bit (bits : list Z) (idx : nat) : list Z :=
  alter (λ w, Z.lor w (wrap 64 (Z.shiftl 1 (Z.of_nat (idx mod BITS_PER_WORD)))))
    (idx / BITS_PER_WORD)%nat bits.

Definition test_bit (bits : list Z) (idx : nat) : bool :=
  negb (Z.land (nth (idx / BITS_PER_WORD) bits 0)
          (wrap 64 (Z.shiftl 1 (Z.of_nat (idx mod BITS_PER_WORD)))) =? 0).

Definition mark_matched (m : MatchedBlocks) (idx : nat) : MatchedBlocks :=
  if (mb_block_count m <=? idx)%nat then m
  else mkMatched (set_bit (mb_bits m) idx) (mb_block_count m).

Definition is_matched (m : MatchedBlocks) (idx : nat) : bool :=
  if (mb_block_count m <=? idx)%nat then false else test_bit (mb_bits m) idx.

Definition matched_clear (m : MatchedBlocks) : MatchedBlocks :=
  mkMatched (map (λ _, 0) (mb_bits m)) (mb_block_count m).

(** ** Bits *)

Lemma nth_alter {A} (f : A → A) i j (l : list A) d :
  nth j (alter f i l) d = if decide (i = j ∧ (i < length l)%nat) then f (nth i l d) else nth j l d.
Proof.
  rewrite !nth_lookup. destruct (decide (i = j)) as [->|Hne].
  - rewrite list_lookup_alter_eq. destruct (l !! j) as [x|] eqn:E; simpl.
    + by rewrite decide_True by (split; [done|by eapply lookup_lt_Some]).
    + rewrite decide_False; [done|]. intros [_ Hl]. apply lookup_ge_None_1 in E. lia.
  - rewrite list_lookup_alter_ne by done. by rewrite decide_False by tauto.
Qed.

Lemma testbit_pow2 k n : 0 ≤ k → 0 ≤ n → Z.testbit (2 ^ k) n = bool_decide (k = n).
Proof.
  intros Hk Hn. destruct (decide (k = n)) as [->|Hne].
  - rewrite Z.pow2_bits_true by lia. by rewrite bool_decide_true.
  - rewrite Z.pow2_bits_false by lia. by rewrite bool_decide_false.
Qed.

Lemma land_pow2_testbit w k : 0 ≤ k → negb (Z.land w (2 ^ k) =? 0) = Z.testbit w k.
Proof.
  intros Hk. destruct (Z.eqb_spec (Z.land w (2 ^ k)) 0) as [E|E]; simpl.
  - apply (f_equal (λ z, Z.testbit z k)) in E. rewrite Z.land_spec, Z.bits_0 in E.
    rewrite testbit_pow2, bool_decide_true, andb_true_r in E by lia. done.
  - destruct (Z.testbit w k) eqn:Ht; [done|]. destruct E. apply Z.bits_inj'; intros n Hn.
    rewrite Z.land_spec, Z.bits_0, testbit_pow2 by lia.
    case_bool_decide; [subst; by rewrite Ht|apply andb_false_r].
Qed.

Lemma shiftr_land_1 w k : 0 ≤ k → (Z.land (Z.shiftr w k) 1 =? 1) = Z.testbit w k.
Proof.
  intros Hk. rewrite (Z.land_ones _ 1) by lia. change (2 ^ 1) with 2.
  rewrite <- Z.bit0_mod, Z.shiftr_spec by lia. rewrite Z.add_0_l. by destruct (Z.testbit w k).
Qed.

Lemma bit_mask k : 0 ≤ k < 64 → wrap 64 (Z.shiftl 1 k) = 2 ^ k.
Proof.
  intros Hk. rewrite Z.shiftl_mul_pow2, Z.mul_1_l by lia. apply wrap_small. split; [lia|].
  apply Z.pow_lt_mono_r; lia.
Qed.

Lemma mod_word i : 0 ≤ Z.of_nat (i mod BITS_PER_WORD) < 64.
Proof. pose proof (Nat.mod_upper_bound i BITS_PER_WORD). unfold BITS_PER_WORD in *. lia. Qed.

Lemma test_bit_testbit bits i :
  test_bit bits i = Z.testbit (nth (i / BITS_PER_WORD) bits 0) (Z.of_nat (i mod BITS_PER_WORD)).
Proof.
  unfold test_bit. pose proof (mod_word i). rewrite bit_mask by done. apply land_pow2_testbit. lia.
Qed.

Lemma test_set_bit bits i j : (i / BITS_PER_WORD < length bits)%nat →
  test_bit (set_bit bits i) j = bool_decide (i = j) || test_bit bits j.
Proof.
  intros Hl. rewrite !test_bit_testbit. unfold set_bit. rewrite nth_alter.
  pose proof (mod_word i). pose proof (mod_word j).
  pose proof (Nat.div_mod_eq i BITS_PER_WORD). pose proof (Nat.div_mod_eq j BITS_PER_WORD).
  case_decide as Hd.
  - destruct Hd as [Hd _]. rewrite Z.lor_spec, bit_mask, testbit_pow2 by lia.
    rewrite <- Hd. rewrite orb_comm. f_equal. apply bool_decide_ext.
    split; [intros E; rewrite Hd in *; lia|by intros ->].
  - rewrite bool_decide_false; [done|]. intros ->. by destruct Hd.
Qed.

Lemma length_set_bit bits i : length (set_bit bits i) = length bits.
Proof. apply length_alter. Qed.

Lemma test_bit_zero n i : test_bit (replicate n 0) i = false.
Proof.
  rewrite test_bit_testbit. rewrite nth_lookup.
  destruct (replicate n 0 !! (i / BITS_PER_WORD)%nat) as [x|] eqn:E; simpl; [|apply Z.bits_0].
  apply lookup_replicate in E as [-> _]. apply Z.bits_0.
Qed.

Lemma word_of_block i n : (i < n)%nat → (i / BITS_PER_WORD < div_ceil n BITS_PER_WORD)%nat.
Proof.
  intros Hi. unfold div_ceil, BITS_PER_WORD.
  apply Nat.Div0.div_lt_upper_bound. pose proof (Nat.div_mod_eq (n + 64 - 1) 64).
  pose proof (Nat.mod_upper_bound (n + 64 - 1) 64). lia.
Qed.

(** ** The bit set *)

Definition matched_wf (m : MatchedBlocks) : Prop :=
  length (mb_bits m) = div_ceil (mb_block_count m) BITS_PER_WORD.

Lemma mark_matched_spec m i j : matched_wf m →
  is_matched (mark_matched m i) j
  = bool_decide (i = j ∧ (i < mb_block_count m)%nat) || is_matched m j.
Proof.
  intros Hwf. unfold is_matched, mark_matched.
  destruct (Nat.leb_spec (mb_block_count m) i) as [Hge|Hlt]; [by rewrite bool_decide_false by lia|].
  cbn [mb_block_count mb_bits]. destruct (Nat.leb_spec (mb_block_count m) j) as [Hj|Hj].
  - by rewrite bool_decide_false by lia.
  - rewrite test_set_bit by (rewrite Hwf; by apply word_of_block).
    f_equal. apply bool_decide_ext. split; [by intros ->|by intros [-> _]].
Qed.

Lemma mark_matched_wf m i : matched_wf m → matched_wf (mark_matched m i).
Proof.
  intros Hwf. unfold mark_matched. destruct (_ <=? _)%nat; [done|].
  unfold matched_wf in *. simpl. by rewrite length_set_bit.
Qed.

(** [MatchedBlocks] is the set of the marked indices below the block count:
    after any sequence of marks, an index tests as matched exactly when it was
    marked and names a block. *)
Theorem matched_blocks_is_set (n : nat) (marks : list nat) (idx : nat) :
  is_matched (foldl mark_matched (matched_with_block_count n) marks) idx = true
  ↔ idx ∈ marks ∧ (idx < n)%nat.
Proof.
  assert (Hgen : ∀ m, matched_wf m → mb_block_count m = n →
    is_matched (foldl mark_matched m marks) idx = true
    ↔ (idx ∈ marks ∧ (idx < n)%nat) ∨ is_matched m idx = true).
  { induction marks as [|i marks IH]; intros m Hwf Hn; cbn [foldl]; [set_solver|].
    rewrite IH; [|by apply mark_matched_wf|by unfold mark_matched; destruct (_ <=? _)%nat].
    rewrite mark_matched_spec by done. rewrite orb_true_iff, bool_decide_eq_true, Hn. set_solver. }
  rewrite Hgen; [|unfold matched_wf; simpl; apply length_replicate|done].
  unfold is_matched, matched_with_block_count. simpl.
  destruct (_ <=? _)%nat; [|rewrite test_bit_zero]; intuition congruence.
Qed.

(** ** The bit filter *)

Definition bithash_wf (h : BitHash) : Prop :=
  ∃ k, 6 ≤ k ≤ 28 ∧ bh_mask h = 2 ^ k - 1 ∧ length (bh_bits h) = Z.to_nat (2 ^ (k - 6)).

Lemma bithash_new_wf n : bithash_wf (bithash_with_block_count n).
Proof.
  unfold bithash_with_block_count. set (k := log2_bits_for n).
  assert (Hk : 7 ≤ k ≤ 28).
  { unfold k, log2_bits_for, MIN_LOG2_BITS, MAX_LOG2_BITS. destruct (_ <=? 1); lia. }
  exists k. cbn [bh_mask bh_bits]. rewrite Z.shiftl_mul_pow2, Z.mul_1_l by lia.
  assert (2 ^ k ≤ 2 ^ 28) by (apply Z.pow_le_mono_r; lia). assert (0 < 2 ^ k) by lia.
  split; [lia|]. split.
  - change u32_max with (Z.ones 32). rewrite Z.land_ones by lia. apply Z.mod_small. lia.
  - rewrite length_replicate. f_equal. change 64 with (2 ^ 6). by rewrite <- Z.pow_sub_r by lia.
Qed.

Lemma bithash_locate_lt h rsum : bithash_wf h →
  ((bithash_locate h rsum).1 < length (bh_bits h))%nat ∧ 0 ≤ (bithash_locate h rsum).2 < 64.
Proof.
  intros (k & Hk & Hm & Hl). unfold bithash_locate. cbn [fst snd]. rewrite Hl, Hm.
  replace (2 ^ k - 1) with (Z.ones k) by (rewrite Z.ones_equiv; lia). rewrite Z.land_ones by lia.
  pose proof (Z.mod_pos_bound rsum (2 ^ k)) as Hb.
  change 63 with (Z.ones 6). rewrite Z.land_ones by lia. split.
  - apply Z2Nat.inj_lt; [apply Z.shiftr_nonneg; lia|lia|].
    rewrite Z.shiftr_div_pow2 by lia. apply Z.div_lt_upper_bound; [lia|].
    rewrite <- Z.pow_add_r by lia. replace (6 + (k - 6)) with k by lia. lia.
  - apply Z.mod_pos_bound. lia.
Qed.

Lemma bithash_contains_testbit h rsum : bithash_wf h →
  bithash_contains h rsum
  = Z.testbit (nth (bithash_locate h rsum).1 (bh_bits h) 0) (bithash_locate h rsum).2.
Proof.
  intros Hwf. destruct (bithash_locate_lt h rsum Hwf) as [_ Hb]. unfold bithash_contains.
  destruct (bithash_locate h rsum) as [w b]. simpl in *. apply shiftr_land_1. lia.
Qed.

Lemma bithash_insert_wf h rsum : bithash_wf h → bithash_wf (bithash_insert h rsum).
Proof.
  intros (k & Hk & Hm & Hl). exists k. unfold bithash_insert.
  destruct (bithash_locate h rsum). simpl. by rewrite length_alter.
Qed.

Lemma bithash_insert_contains h rsum rsum' : bithash_wf h →
  bithash_contains (bithash_insert h rsum) rsum' = true
  ↔ bithash_locate h rsum = bithash_locate h rsum' ∨ bithash_contains h rsum' = true.
Proof.
  intros Hwf. rewrite bithash_contains_testbit by (by apply bithash_insert_wf).
  rewrite bithash_contains_testbit by done.
  destruct (bithash_locate_lt h rsum Hwf) as [Hw Hb], (bithash_locate_lt h rsum' Hwf) as [Hw' Hb'].
  assert (Hmask : ∀ r, bithash_locate (bithash_insert h rsum) r = bithash_locate h r).
  { intros r. unfold bithash_insert. by destruct (bithash_locate h rsum). }
  rewrite Hmask. unfold bithash_insert.
  destruct (bithash_locate h rsum) as [w b], (bithash_locate h rsum') as [w' b']. simpl in *.
  rewrite nth_alter. case_decide as Hd.
  - destruct Hd as [-> _]. rewrite Z.lor_spec, bit_mask, testbit_pow2 by lia.
    rewrite orb_true_iff, bool_decide_eq_true. split; [intros [? | ->]; auto|].
    intros [[= ->]|?]; auto.
  - split; [auto|]. intros [[= -> ->]|?]; [by destruct Hd|done].
Qed.

Definition bithash_of (h : BitHash) (sums : list Z) : BitHash := foldl bithash_insert h sums.

Lemma bithash_of_wf h sums : bithash_wf h → bithash_wf (bithash_of h sums).
Proof. revert h. induction sums as [|s sums IH]; intros h Hwf; [done|]. apply IH, bithash_insert_wf, Hwf. Qed.

Lemma bithash_of_contains h sums rsum : bithash_wf h →
  rsum ∈ sums ∨ bithash_contains h rsum = true → bithash_contains (bithash_of h sums) rsum = true.
Proof.
  revert h. induction sums as [|s sums IH]; intros h Hwf Hin; [set_solver|].
  apply IH; [by apply bithash_insert_wf|]. rewrite bithash_insert_contains by done. set_solver.
Qed.

(** the bit filter is one-sided: it never rejects a rolling sum that was
    inserted, whatever the number of blocks it was sized for. *)
Theorem bithash_no_false_negatives (n : nat) (sums : list Z) (rsum : Z) :
  rsum ∈ sums →
  bithash_contains (foldl bithash_insert (bithash_with_block_count n) sums) rsum = true.
Proof. intros Hin. apply (bithash_of_contains (bithash_with_block_count n)); [apply bithash_new_wf|by left]. Qed.

Lemma bithash_no_false_negatives_witness :
  305419896 ∈ [1; 305419896; 77] ∧
  bithash_contains (foldl bithash_insert (bithash_with_block_count 3) [1; 305419896; 77]) 305419896 = true.
Proof. split; [set_solver|]. apply bithash_no_false_negatives. set_solver. Defined.

(** ** Chained buckets *)

(** An inserted key: [(sum1, sum2, block_index)]. *)
Definition lookup_key : Type := Z * Z * nat.

Section Chains.
Context (mask : Z).

Definition bucket_of (k : lookup_key) : nat := Z.to_nat (Z.land k.1.2 mask).

(** [next] starts a chain through the entries at positions [ps] holding [ks]. *)
Fixpoint chain (entries : list ChainEntry) (next : Z) (ps : list nat) (ks : list lookup_key) : Prop :=
  match ps, ks with
  | [], [] => next = CHAIN_END
  | p :: ps', k :: ks' =>
      next = Z.of_nat p ∧ next ≠ CHAIN_END ∧
      ∃ e, entries !! p = Some e ∧ ce_sum1 e = k.1.1 ∧ ce_block_index e = k.2 ∧
           chain entries (ce_next e) ps' ks'
  | _, _ => False
  end.

(** The chain of bucket [b] holds the keys of [b], in insertion order. *)
Definition bucket_inv (t : CompactLookup) (keys : list lookup_key) (b : nat) : Prop :=
  ∃ ps, NoDup ps ∧
    (∀ p, p ∈ ps → ∃ k, keys !! p = Some k ∧ bucket_of k = b) ∧
    chain (cl_entries t) (bs_head (nth b (cl_buckets t) default_slot)) ps
      (filter (λ k, bucket_of k = b) keys) ∧
    (∀ p, last ps = Some p → bs_tail (nth b (cl_buckets t) default_slot) = Z.of_nat p).

Definition lookup_inv (t : CompactLookup) (keys : list lookup_key) : Prop :=
  cl_mask t = mask ∧ length (cl_entries t) = length keys ∧
  (∀ k, bucket_of k < length (cl_buckets t))%nat ∧ ∀ b, bucket_inv t keys b.

Lemma chain_app_entries entries e next ps ks :
  chain entries next ps ks → chain (entries ++ [e]) next ps ks.
Proof.
  revert next ks. induction ps as [|p ps IH]; intros next [|k ks]; try done.
  intros (Hn & Hne & e' & He & H1 & H2 & H3). split_and!; [done..|].
  exists e'. split_and!; [by apply lookup_app_l_Some|done|done|by apply IH].
Qed.

Lemma chain_alter entries f p next ps ks : p ∉ ps →
  chain entries next ps ks → chain (alter f p entries) next ps ks.
Proof.
  revert next ks. induction ps as [|q ps IH]; intros next [|k ks] Hp; try done.
  intros (Hn & Hne & e' & He & H1 & H2 & H3). split_and!; [done..|].
  exists e'. split_and!; [rewrite list_lookup_alter_ne by set_solver; done|done|done|].
  apply IH; [set_solver|done].
Qed.

Lemma chain_length entries next ps ks : chain entries next ps ks → length ps = length ks.
Proof.
  revert next ks. induction ps as [|p ps IH]; intros next [|k ks]; try done.
  intros (_ & _ & e' & _ & _ & _ & H3). simpl. f_equal. by eapply IH.
Qed.

(** Linking a new last entry. *)
Lemma chain_snoc entries next ps ks p q k e : p ∉ ps →
  chain entries next (ps ++ [p]) ks → NoDup ps → q ∉ ps → q ≠ p →
  entries !! q = Some e → ce_sum1 e = k.1.1 → ce_block_index e = k.2 → ce_next e = CHAIN_END →
  Z.of_nat q ≠ CHAIN_END →
  chain (alter (λ e, mkEntry (ce_sum1 e) (ce_block_index e) (Z.of_nat q)) p entries)
    next ((ps ++ [p]) ++ [q]) (ks ++ [k]).
Proof.
  intros Hp Hc Hnd Hq Hqp He H1 H2 H3 Hqe. revert next ks Hc.
  induction ps as [|r ps IH]; intros next ks Hc.
  - destruct ks as [|k0 [|? ?]]; [done| |by destruct Hc as (_ & _ & ? & _ & _ & _ & ?)].
    destruct Hc as (Hn & Hne & e0 & He0 & H01 & H02 & H03). cbn [app chain].
    do 2 (split; [done|]). eexists. rewrite list_lookup_alter_eq, He0.
    do 3 (split; [done|]). cbn [ce_next]. do 2 (split; [done|]). exists e.
    rewrite list_lookup_alter_ne by done. done.
  - destruct ks as [|k0 ks]; [done|]. destruct Hc as (Hn & Hne & e0 & He0 & H01 & H02 & H03).
    apply NoDup_cons in Hnd as [Hr Hnd]. cbn [app chain]. do 2 (split; [done|]).
    exists e0. rewrite list_lookup_alter_ne by set_solver. do 3 (split; [done|]).
    apply IH; [set_solver|done|set_solver|done].
Qed.

Lemma filter_snoc_bucket keys k b :
  filter (λ k, bucket_of k = b) (keys ++ [k])
  = filter (λ k, bucket_of k = b) keys ++ (if decide (bucket_of k = b) then [k] else []).
Proof. by rewrite filter_app. Qed.

Lemma bucket_positions (keys : list lookup_key) (b : nat) (ps : list nat) (p : nat) :
  (∀ p, p ∈ ps → ∃ k, keys !! p = Some k ∧ bucket_of k = b) →
  p ∈ ps → (p < length keys)%nat.
Proof. intros Hb Hp. destruct (Hb p Hp) as (k & Hk & _). by eapply lookup_lt_Some. Qed.

(** A bucket other than the one inserted into keeps its chain. *)
Lemma bucket_inv_other t keys k b b' (slot : BucketSlot) entries :
  bucket_inv t keys b' → b' ≠ b → bucket_of k = b →
  (entries = cl_entries t ++ [mkEntry k.1.1 k.2 CHAIN_END] ∨
   ∃ p x, keys !! p = Some x ∧ bucket_of x = b ∧ length (cl_entries t) = length keys ∧
     entries = alter (λ e, mkEntry (ce_sum1 e) (ce_block_index e) (Z.of_nat (length keys))) p
                 (cl_entries t ++ [mkEntry k.1.1 k.2 CHAIN_END])) →
  bucket_inv (mkLookup (<[b := slot]> (cl_buckets t)) entries (cl_mask t)) (keys ++ [k]) b'.
Proof.
  intros (ps & Hnd & Hps & Hc & Hl) Hb Hk He. exists ps. split_and!; [done| | |].
  - intros p Hp. destruct (Hps p Hp) as (k' & Hk' & Hb'). exists k'. split; [|done].
    by apply lookup_app_l_Some.
  - rewrite filter_snoc_bucket, decide_False, app_nil_r by congruence. cbn [cl_entries cl_buckets].
    rewrite nth_lookup, list_lookup_insert_ne, <- nth_lookup by done.
    destruct He as [-> |(p & x & Hx & Hxb & _ & ->)]; [by apply chain_app_entries|].
    apply chain_alter; [|by apply chain_app_entries].
    intros Hp. destruct (Hps p Hp) as (k' & Hk' & Hb'). rewrite Hx in Hk'. simplify_eq.
  - cbn [cl_buckets]. by rewrite nth_lookup, list_lookup_insert_ne, <- nth_lookup by done.
Qed.

Lemma lookup_insert_inv t keys sum1 sum2 block :
  lookup_inv t keys → Z.of_nat (length keys) < u32_max →
  lookup_inv (lookup_insert t sum1 sum2 block) (keys ++ [(sum1, sum2, block)]).
Proof.
  intros (Hm & Hlen & Hbk & Hb) Hn. set (k := (sum1, sum2, block) : lookup_key).
  assert (Hidx : bucket_index t sum2 = bucket_of k) by (unfold bucket_index, bucket_of; by rewrite Hm).
  unfold lookup_insert. rewrite Hidx, Hlen. set (b := bucket_of k) in *.
  assert (Hw : wrap 32 (Z.of_nat (length keys)) = Z.of_nat (length keys)).
  { apply wrap_small. unfold in_u, u32_max in *. lia. }
  rewrite Hw. pose proof (Hbk k) as Hbk'. fold b in Hbk'.
  assert (Hlast : (cl_entries t ++ [mkEntry sum1 block CHAIN_END]) !! length keys
                  = Some (mkEntry sum1 block CHAIN_END)).
  { rewrite <- Hlen. by apply list_lookup_middle. }
  assert (Hend : Z.of_nat (length keys) ≠ CHAIN_END) by (unfold CHAIN_END; lia).
  destruct (Hb b) as (ps & Hnd & Hps & Hc & Htl).
  assert (Hfresh : length keys ∉ ps).
  { intros Hp. pose proof (bucket_positions keys b ps _ Hps Hp). lia. }
  assert (Hps' : ∀ p, p ∈ ps ++ [length keys] → ∃ k', (keys ++ [k]) !! p = Some k' ∧ bucket_of k' = b).
  { intros p Hp. apply elem_of_app in Hp as [Hp|Hp].
    - destruct (Hps p Hp) as (k' & Hk' & ?). exists k'. split; [by apply lookup_app_l_Some|done].
    - apply list_elem_of_singleton in Hp as ->. exists k. split; [by apply list_lookup_middle|done]. }
  assert (Hnd' : NoDup (ps ++ [length keys])).
  { apply NoDup_app. split_and!; [done|set_solver|apply NoDup_singleton]. }
  destruct (Z.eqb_spec (bs_head (nth b (cl_buckets t) default_slot)) CHAIN_END) as [Hempty|Hne].
  - assert (ps = [] ∧ filter (λ k, bucket_of k = b) keys = []) as [-> Hf].
    { destruct ps as [|p ps]; destruct (filter _ keys); try done.
      by destruct Hc as (_ & Hcn & _). }
    split; [done|]. split; [simpl; rewrite !length_app; simpl; lia|].
    split; [intros k'; simpl; rewrite length_insert; apply Hbk|]. intros b'.
    destruct (decide (b' = b)) as [->|Hbb]; [|apply (bucket_inv_other t keys k b); auto].
    exists ([] ++ [length keys]). split_and!; [done|done| |].
    + rewrite filter_snoc_bucket, Hf, decide_True by done. cbn [cl_entries cl_buckets app chain].
      rewrite nth_lookup, list_lookup_insert_eq by done. simpl. split_and!; [done..|].
      eexists. by split_and!.
    + intros p [= <-]. cbn [cl_buckets]. by rewrite nth_lookup, list_lookup_insert_eq by done.
  - destruct (last ps) as [p|] eqn:Hlp.
    2:{ apply last_None in Hlp as ->. destruct (filter _ keys); by destruct Hne. }
    specialize (Htl p eq_refl). rewrite Htl, Nat2Z.id.
    apply last_Some in Hlp as [ps0 ->].
    assert (Hpk : ∃ x, keys !! p = Some x ∧ bucket_of x = b) by (apply Hps; set_solver).
    destruct Hpk as (x & Hx & Hxb).
    split; [done|]. split; [simpl; rewrite length_alter, !length_app; simpl; lia|].
    split; [intros k'; simpl; rewrite length_insert; apply Hbk|]. intros b'.
    destruct (decide (b' = b)) as [->|Hbb].
    2:{ apply (bucket_inv_other t keys k b); auto. right. exists p, x. by split_and!. }
    exists ((ps0 ++ [p]) ++ [length keys]). split_and!; [done|done| |].
    + rewrite filter_snoc_bucket, decide_True by done. cbn [cl_entries cl_buckets].
      rewrite nth_lookup, list_lookup_insert_eq by done. cbn [default bs_head].
      apply NoDup_app in Hnd as (Hnd0 & Hd & _).
      eapply chain_snoc; try done; [set_solver|by apply chain_app_entries|set_solver|set_solver].
    + intros q Hq. rewrite last_snoc in Hq. simplify_eq. cbn [cl_buckets].
      by rewrite nth_lookup, list_lookup_insert_eq by done.
Qed.

Lemma lookup_walk_chain fuel entries sum1 next ps ks :
  chain entries next ps ks → (length ps < fuel)%nat →
  lookup_walk fuel entries sum1 next = map snd (filter (λ k, k.1.1 = sum1) ks).
Proof.
  revert next ps ks. induction fuel as [|fuel IH]; intros next ps ks Hc Hf; [lia|].
  cbn [lookup_walk]. destruct ps as [|p ps], ks as [|k ks]; try done; simpl in Hf.
  - simpl in Hc. by rewrite Hc.
  - destruct Hc as (-> & Hne & e & He & H1 & H2 & H3).
    rewrite (proj2 (Z.eqb_neq _ _)) by done. rewrite Nat2Z.id, He, H1, H2.
    rewrite filter_cons. rewrite (IH _ ps ks) by (done || lia).
    destruct (Z.eqb_spec k.1.1 sum1); [by rewrite decide_True|by rewrite decide_False].
Qed.

Lemma lookup_find_all_inv t keys sum1 sum2 : lookup_inv t keys →
  lookup_find_all t sum1 sum2
  = map snd (filter (λ k, k.1.1 = sum1 ∧ Z.to_nat (Z.land k.1.2 mask) = Z.to_nat (Z.land sum2 mask)) keys).
Proof.
  intros (Hm & Hlen & Hbk & Hb). unfold lookup_find_all, bucket_index. rewrite Hm.
  set (b := Z.to_nat (Z.land sum2 mask)).
  destruct (Hb b) as (ps & Hnd & Hps & Hc & _).
  rewrite (lookup_walk_chain _ _ _ _ _ _ Hc).
  - by rewrite list_filter_filter.
  - rewrite Hlen. apply Nat.lt_succ_r. rewrite <- (length_seq (length keys) 0).
    apply submseteq_length, NoDup_submseteq; [done|]. intros p Hp.
    apply elem_of_seq. pose proof (bucket_positions keys b ps p Hps Hp). lia.
Qed.
End Chains.

Lemma log2_buckets_range n : 4 ≤ log2_buckets_for n ≤ 16.
Proof. unfold log2_buckets_for, MIN_LOG2_BUCKETS, MAX_LOG2_BUCKETS. lia. Qed.

(** The bucket mask of a table sized for [n] entries. *)
Definition bucket_mask (n : nat) : Z := 2 ^ log2_buckets_for n - 1.

Lemma lookup_with_capacity_mask n : cl_mask (lookup_with_capacity n) = bucket_mask n.
Proof.
  unfold lookup_with_capacity, bucket_mask. cbn [cl_mask]. pose proof (log2_buckets_range n).
  rewrite Z.shiftl_mul_pow2, Z.mul_1_l by lia. apply wrap_small. unfold in_u.
  assert (2 ^ log2_buckets_for n ≤ 2 ^ 16) by (apply Z.pow_le_mono_r; lia).
  assert (0 < 2 ^ log2_buckets_for n) by lia. lia.
Qed.

Lemma lookup_empty_inv m buckets : (∀ k, bucket_of m k < length buckets)%nat →
  Forall (λ s, s = EMPTY_SLOT) buckets → lookup_inv m (mkLookup buckets [] m) [].
Proof.
  intros Hb He. split_and!; try done. intros b. exists []. split_and!; [apply NoDup_nil_2|set_solver| |done].
  cbn. rewrite nth_lookup. destruct (buckets !! b) as [s|] eqn:E; [|done].
  eapply Forall_lookup_1 in He; [|done]. by rewrite He.
Qed.

Lemma bucket_of_lt n k : (bucket_of (bucket_mask n) k < Z.to_nat (2 ^ log2_buckets_for n))%nat.
Proof.
  unfold bucket_of, bucket_mask. pose proof (log2_buckets_range n).
  replace (2 ^ log2_buckets_for n - 1) with (Z.ones (log2_buckets_for n)) by (rewrite Z.ones_equiv; lia).
  rewrite Z.land_ones by lia. pose proof (Z.mod_pos_bound k.1.2 (2 ^ log2_buckets_for n)). lia.
Qed.

Lemma lookup_new_inv n : lookup_inv (bucket_mask n) (lookup_with_capacity n) [].
Proof.
  pose proof (lookup_with_capacity_mask n) as Hm. pose proof (log2_buckets_range n).
  unfold lookup_with_capacity in *. cbn [cl_mask] in Hm. rewrite Hm.
  apply lookup_empty_inv; [|by apply Forall_replicate].
  intros k. rewrite length_replicate, Z.shiftl_mul_pow2, Z.mul_1_l by lia. apply bucket_of_lt.
Qed.

Lemma lookup_inserts_inv m t keys0 keys :
  lookup_inv m t keys0 → Z.of_nat (length keys0 + length keys) ≤ u32_max →
  lookup_inv m (foldl (λ t k, lookup_insert t k.1.1 k.1.2 k.2) t keys) (keys0 ++ keys).
Proof.
  revert t keys0. induction keys as [|k keys IH]; intros t keys0 Hi Hl; cbn [foldl].
  - by rewrite app_nil_r.
  - simpl in Hl. rewrite cons_middle, app_assoc. apply IH; [|rewrite length_app; simpl; lia].
    destruct k as [[s1 s2] b]. apply lookup_insert_inv; [done|lia].
Qed.

(** the chained lookup table returns, for a key, exactly the block indices
    inserted with that low half whose high half falls in the same bucket, in
    insertion order: chains are never mixed up, lost or revisited. *)
Theorem lookup_finds_inserted (n : nat) (keys : list (Z * Z * nat)) (sum1 sum2 : Z) :
  Z.of_nat (length keys) ≤ u32_max →
  lookup_find_all
    (foldl (λ t k, lookup_insert t k.1.1 k.1.2 k.2) (lookup_with_capacity n) keys) sum1 sum2
  = map snd (filter (λ k, k.1.1 = sum1 ∧
      Z.to_nat (Z.land k.1.2 (bucket_mask n)) = Z.to_nat (Z.land sum2 (bucket_mask n))) keys).
Proof.
  intros Hl. apply lookup_find_all_inv. apply (lookup_inserts_inv _ _ [] keys); [|done].
  apply lookup_new_inv.
Qed.

Lemma lookup_finds_inserted_witness :
  lookup_find_all
    (foldl (λ t k, lookup_insert t k.1.1 k.1.2 k.2) (lookup_with_capacity 4)
       [(10, 20, 0%nat); (11, 20, 1%nat); (10, 36, 2%nat); (10, 21, 3%nat)]) 10 20
  = [0; 2]%nat.
Proof.
  exact (lookup_finds_inserted 4 [(10, 20, 0%nat); (11, 20, 1%nat); (10, 36, 2%nat); (10, 21, 3%nat)]
    10 20 ltac:(vm_compute; congruence)).
Defined.
