(* ===== verification/DirTree.v ===== *)
(** * The tree of directories ([crates/protocol/src/flist/dir_tree.rs])

    With incremental recursion the sender queues one list for every directory and sends them
    depth first.  The tree is an array of nodes with links to the first child, the next
    sibling and the parent; node 0 is a root that is never returned.  The theorems say that
    the links always describe a tree ([tree_ok]), and that the calls of [next_directory]
    return its nodes in preorder, each once. *)

From S2P Require Import Prelude Wildmatch.

Local Open Scope nat_scope.

(** ** Nodes *)

Record DirNode := mkNode {
  dn_dir_ndx : Z;
  dn_path : list byte;
  first_child : option nat;
  next_sibling : option nat;
  dn_parent : option nat;
  dn_sent : bool;
}.

Record DirectoryTree := mkTree {
  dt_nodes : list DirNode;
  dt_cursor : option nat;
  dt_depth : nat;
}.

Inductive DirTreeError := OutOfBoundsParent (parent_idx node_count : nat).

Definition ROOT : nat := 0.

Definition tree_new : DirectoryTree :=
  mkTree [mkNode (2 ^ 64 - 1) [] None None None true] None 0.

Definition set_first_child (c : nat) (n : DirNode) : DirNode :=
  mkNode (dn_dir_ndx n) (dn_path n) (Some c) (next_sibling n) (dn_parent n) (dn_sent n).
Definition set_next_sibling (s : nat) (n : DirNode) : DirNode :=
  mkNode (dn_dir_ndx n) (dn_path n) (first_child n) (Some s) (dn_parent n) (dn_sent n).
Definition set_sent (n : DirNode) : DirNode :=
  mkNode (dn_dir_ndx n) (dn_path n) (first_child n) (next_sibling n) (dn_parent n) true.

(** The walk to the end of a chain of siblings.  [None] is an index out of bounds, and a chain
    that does not end within as many steps as there are nodes, which is a cycle. *)
Fixpoint last_sibling (fuel : nat) (nodes : list DirNode) (sibling : nat) : option nat :=
  match fuel with
  | O => None
  | S fuel =>
      n ← nodes !! sibling;
      match next_sibling n with
      | Some next => last_sibling fuel nodes next
      | None => Some sibling
      end
  end.

(** [None] is a panic, here and below. *)
Definition add_directory (dir_ndx : Z) (path : list byte) (parent_node_idx : option nat)
    (t : DirectoryTree) : option (nat * DirectoryTree) :=
  let actual_parent := default ROOT parent_node_idx in
  let node_idx := length (dt_nodes t) in
  let nodes := dt_nodes t ++ [mkNode dir_ndx path None None (Some actual_parent) false] in
  p ← nodes !! actual_parent;
  nodes ← match first_child p with
          | None => Some (alter (set_first_child node_idx) actual_parent nodes)
          | Some c => sibling ← last_sibling (length nodes) nodes c;
                      Some (alter (set_next_sibling node_idx) sibling nodes)
          end;
  let cursor := match dt_cursor t with None => Some node_idx | Some c => Some c end in
  Some (node_idx, mkTree nodes cursor (dt_depth t)).

Definition try_add_directory (dir_ndx : Z) (path : list byte) (parent_node_idx : option nat)
    (t : DirectoryTree) : option (result DirTreeError nat * DirectoryTree) :=
  let out_of_bounds :=
    match parent_node_idx with Some idx => length (dt_nodes t) <=? idx | None => false end in
  if out_of_bounds then
    Some (Err (OutOfBoundsParent (default 0 parent_node_idx) (length (dt_nodes t))), t)
  else
    '(idx, t) ← add_directory dir_ndx path parent_node_idx t;
    Some (Ok idx, t).

(** The loop that looks for the next sibling of the node or of one of its ancestors. *)
Fixpoint backtrack (fuel : nat) (nodes : list DirNode) (current depth : nat)
    : option (option nat * nat) :=
  match fuel with
  | O => None
  | S fuel =>
      n ← nodes !! current;
      match next_sibling n with
      | Some sibling => Some (Some sibling, depth)
      | None =>
          match dn_parent n with
          | Some parent => backtrack fuel nodes parent (depth - 1)
          | None => Some (None, depth)
          end
      end
  end.

Definition next_directory (t : DirectoryTree) : option (option (Z * list byte) * DirectoryTree) :=
  match dt_cursor t with
  | None => Some (None, t)
  | Some cursor =>
      n ← dt_nodes t !! cursor;
      let nodes := alter set_sent cursor (dt_nodes t) in
      '(cursor', depth) ← match first_child n with
                          | Some child => Some (Some child, S (dt_depth t))
                          | None => backtrack (length nodes) nodes cursor (dt_depth t)
                          end;
      Some (Some (dn_dir_ndx n, dn_path n), mkTree nodes cursor' depth)
  end.

(** All the calls until there is nothing left. *)
Fixpoint drain (fuel : nat) (t : DirectoryTree) : option (list (Z * list byte) * DirectoryTree) :=
  match fuel with
  | O => None
  | S fuel =>
      '(next, t) ← next_directory t;
      match next with
      | None => Some ([], t)
      | Some d => '(rest, t) ← drain fuel t; Some (d :: rest, t)
      end
  end.

(** ** The tree that the parents describe *)

(** The nodes from [k] on whose parent is [p]; [ps] are the parents of all nodes. *)
Definition kids_from (ps : list (option nat)) (p k : nat) : list nat :=
  List.filter (λ i, bool_decide (ps !! i = Some (Some p))) (seq k (length ps - k)).

Definition kids (ps : list (option nat)) (p : nat) : list nat := kids_from ps p 0.

(** A node with all below it, in preorder; the depth is at most the number of nodes. *)
Fixpoint subtree_fuel (fuel : nat) (ps : list (option nat)) (i : nat) : list nat :=
  match fuel with
  | O => []
  | S fuel => i :: flat_map (subtree_fuel fuel ps) (kids ps i)
  end.
Definition subtree (ps : list (option nat)) (i : nat) : list nat := subtree_fuel (length ps) ps i.

(** What comes after a node and all below it. *)
Fixpoint after_fuel (fuel : nat) (ps : list (option nat)) (i : nat) : list nat :=
  match fuel, ps !! i with
  | S fuel, Some (Some p) => flat_map (subtree ps) (kids_from ps p (S i)) ++ after_fuel fuel ps p
  | _, _ => []
  end.
Definition after (ps : list (option nat)) (i : nat) : list nat := after_fuel (S i) ps i.

Definition parents (t : DirectoryTree) : list (option nat) := dn_parent <$> dt_nodes t.

(** What the calls will return. *)
Definition remaining (t : DirectoryTree) : list nat :=
  match dt_cursor t with
  | Some c => subtree (parents t) c ++ after (parents t) c
  | None => []
  end.

(** Parents come before their children, and only node 0 has none. *)
Definition ordered (ps : list (option nat)) : Prop :=
  ps !! 0 = Some None ∧ ∀ i o, 0 < i → ps !! i = Some o → ∃ p, o = Some p ∧ p < i.

Record nodes_ok (nodes : list DirNode) : Prop := {
  ok_ordered : ordered (dn_parent <$> nodes);
  ok_child : ∀ i n, nodes !! i = Some n → first_child n = head (kids (dn_parent <$> nodes) i);
  ok_sibling : ∀ i n, nodes !! i = Some n →
    next_sibling n = p ← dn_parent n; head (kids_from (dn_parent <$> nodes) p (S i));
}.

(** The cursor is a node; before the first call it is the first child of the root. *)
Record tree_ok (t : DirectoryTree) : Prop := {
  ok_nodes : nodes_ok (dt_nodes t);
  ok_cursor : ∀ c, dt_cursor t = Some c → 0 < c < length (dt_nodes t);
}.

(** ** Lists of children *)

Lemma elem_of_kids_from ps p k i : i ∈ kids_from ps p k ↔ k ≤ i ∧ ps !! i = Some (Some p).
Proof.
  unfold kids_from. rewrite list_elem_of_In, filter_In, in_seq, bool_decide_eq_true.
  split; [naive_solver lia|]. intros [Hk Hi]. split; [|done]. apply lookup_lt_Some in Hi. lia.
Qed.

Lemma kids_from_step ps p k : k < length ps →
  kids_from ps p k =
    (if bool_decide (ps !! k = Some (Some p)) then [k] else []) ++ kids_from ps p (S k).
Proof.
  intros Hk. unfold kids_from. replace (length ps - k) with (S (length ps - S k)) by lia.
  cbn [seq List.filter]. by case_bool_decide.
Qed.

Lemma kids_from_end ps p k : length ps ≤ k → kids_from ps p k = [].
Proof. intros Hk. unfold kids_from. by replace (length ps - k) with 0 by lia. Qed.

Lemma kids_from_cons ps p k i l : kids_from ps p k = i :: l →
  l = kids_from ps p (S i) ∧ k ≤ i ∧ ps !! i = Some (Some p).
Proof.
  intros E. assert (Hi : i ∈ kids_from ps p k) by (rewrite E; left).
  apply elem_of_kids_from in Hi as [Hki Hi]. split; [|done].
  remember (length ps - k) as n eqn:Hn. revert k Hn Hki E. induction n as [|n IH]; intros k Hn Hki E.
  - by rewrite kids_from_end in E by lia.
  - rewrite kids_from_step in E by lia. case_bool_decide as Hk; cbn [app] in E.
    + by injection E as -> ->.
    + assert (k ≠ i) by congruence. apply (IH (S k)); [lia..|done].
Qed.

Lemma kids_from_snoc ps q p k : k ≤ length ps →
  kids_from (ps ++ [Some q]) p k = kids_from ps p k ++ (if bool_decide (p = q) then [length ps] else []).
Proof.
  intros Hk. unfold kids_from. rewrite length_app. cbn [length].
  replace (length ps + 1 - k) with ((length ps - k) + 1) by lia.
  rewrite seq_app, List.filter_app. f_equal.
  - apply filter_ext_in. intros i Hi%in_seq. by rewrite lookup_app_l by lia.
  - replace (k + (length ps - k)) with (length ps) by lia. cbn [seq List.filter].
    rewrite list_lookup_middle by done.
    rewrite (bool_decide_ext (Some (Some q) = Some (Some p)) (p = q)) by naive_solver.
    by case_bool_decide.
Qed.

(** ** Preorder *)

Section preorder.
Context (ps : list (option nat)) (Hps : ordered ps).

Lemma kid_after i j : j ∈ kids ps i → i < j < length ps.
Proof.
  intros [_ Hj]%elem_of_kids_from. pose proof (lookup_lt_Some _ _ _ Hj) as Hlt. split; [|done].
  destruct Hps as [H0 Hs]. destruct (decide (j = 0)) as [->|]; [congruence|].
  destruct (Hs j (Some i)) as (p & [= ->] & ?); [lia|done|done].
Qed.

Lemma flat_map_ext_elem {A B} (f g : A → list B) l : (∀ x, x ∈ l → f x = g x) → flat_map f l = flat_map g l.
Proof.
  induction l as [|x l IH]; intros H; [done|]. cbn. rewrite H by left. f_equal. apply IH. intros y Hy. apply H. by right.
Qed.

Lemma subtree_fuel_enough f g i : i < length ps → length ps - i ≤ f → length ps - i ≤ g →
  subtree_fuel f ps i = subtree_fuel g ps i.
Proof using Hps.
  revert g i. induction f as [|f IH]; intros g i Hi Hf Hg; [lia|]. destruct g as [|g]; [lia|].
  cbn [subtree_fuel]. f_equal. apply flat_map_ext_elem. intros j Hj%kid_after. apply IH; lia.
Qed.

Lemma subtree_eq i : i < length ps → subtree ps i = i :: flat_map (subtree ps) (kids ps i).
Proof using Hps.
  intros Hi. unfold subtree at 1. rewrite (subtree_fuel_enough _ (S (length ps))) by lia.
  cbn [subtree_fuel]. done.
Qed.

Lemma after_fuel_enough f g i : i < f → i < g → after_fuel f ps i = after_fuel g ps i.
Proof using Hps.
  revert g i. induction f as [|f IH]; intros g i Hf Hg; [lia|]. destruct g as [|g]; [lia|].
  cbn [after_fuel]. destruct (ps !! i) as [[p|]|] eqn:E; [|done..]. f_equal.
  assert (i ∈ kids ps p) as Hi%kid_after by (apply elem_of_kids_from; split; [lia|done]). apply IH; lia.
Qed.

Lemma after_eq i p : ps !! i = Some (Some p) →
  after ps i = flat_map (subtree ps) (kids_from ps p (S i)) ++ after ps p.
Proof using Hps.
  intros E. unfold after at 1. cbn [after_fuel]. rewrite E. f_equal.
  assert (i ∈ kids ps p) as Hi%kid_after by (apply elem_of_kids_from; split; [lia|done]). apply after_fuel_enough; lia.
Qed.

Lemma after_root : after ps 0 = [].
Proof using Hps. unfold after. cbn [after_fuel]. by rewrite (proj1 Hps). Qed.

Lemma subtree_kids_closed i p j : i < length ps → p ∈ subtree ps i → j ∈ kids ps p → j ∈ subtree ps i.
Proof using Hps.
  intros Hi. remember (length ps - i) as n eqn:Hn. revert i Hi Hn.
  induction n as [n IH] using lt_wf_ind. intros i Hi ->.
  rewrite subtree_eq by done. intros [->|Hp]%elem_of_cons Hj; right; apply list_elem_of_In, in_flat_map.
  - exists j. split; [by apply list_elem_of_In|]. apply list_elem_of_In. apply kid_after in Hj.
    rewrite subtree_eq by lia. left.
  - apply list_elem_of_In, in_flat_map in Hp as (k & Hk%list_elem_of_In & Hp%list_elem_of_In).
    exists k. split; [by apply list_elem_of_In|]. apply list_elem_of_In. pose proof (kid_after _ _ Hk).
    eapply IH; [|..|reflexivity|done|done]; lia.
Qed.

Lemma root_reaches i : i < length ps → i ∈ subtree ps 0.
Proof using Hps.
  induction i as [i IH] using lt_wf_ind. intros Hi. assert (H0 : 0 < length ps) by lia.
  destruct (decide (i = 0)) as [->|Hne]; [rewrite subtree_eq by done; left|].
  destruct (lookup_lt_is_Some_2 ps i Hi) as [o Ho].
  destruct (proj2 Hps i o) as (p & -> & Hp); [lia|done|].
  apply (subtree_kids_closed 0 p i H0); [by apply IH; [|lia]|].
  apply elem_of_kids_from. split; [lia|done].
Qed.

(** The chain of ancestors of a node goes through every node that has it below. *)
Lemma subtree_above i j : i < length ps → j ∈ subtree ps i →
  j = i ∨ ∃ p, ps !! j = Some (Some p) ∧ p ∈ subtree ps i.
Proof using Hps.
  intros Hi. remember (length ps - i) as n eqn:Hn. revert i Hi Hn.
  induction n as [n IH] using lt_wf_ind. intros i Hi ->.
  rewrite subtree_eq by done. intros [->|Hp]%elem_of_cons; [by left|right].
  apply list_elem_of_In, in_flat_map in Hp as (k & Hk%list_elem_of_In & Hp%list_elem_of_In).
  pose proof (kid_after _ _ Hk) as Hlt.
  destruct (IH (length ps - k) ltac:(lia) k ltac:(lia) eq_refl Hp) as [->|(p & Hj & Hpk)].
  - apply elem_of_kids_from in Hk as [_ Hk]. exists i. split; [done|left].
  - exists p. split; [done|]. right. apply list_elem_of_In, in_flat_map. exists k. by split; apply list_elem_of_In.
Qed.

Lemma subtree_ge i j : i < length ps → j ∈ subtree ps i → i ≤ j.
Proof using Hps.
  intros Hi. induction j as [j IH] using lt_wf_ind. intros Hj.
  destruct (subtree_above i j Hi Hj) as [->|(p & Hp & Hin)]; [done|].
  assert (j ∈ kids ps p) as Hlt%kid_after by (apply elem_of_kids_from; split; [lia|done]).
  specialize (IH p ltac:(lia) Hin). lia.
Qed.

Lemma subtrees_disjoint p a b j : a ∈ kids ps p → b ∈ kids ps p → j ∈ subtree ps a → j ∈ subtree ps b → a = b.
Proof using Hps.
  intros Ha Hb. pose proof (kid_after _ _ Ha). pose proof (kid_after _ _ Hb).
  induction j as [j IH] using lt_wf_ind. intros Hja Hjb.
  apply elem_of_kids_from in Ha as [_ Ha], Hb as [_ Hb].
  destruct (subtree_above a j ltac:(lia) Hja) as [Ea|(q & Hq & Hqa)],
    (subtree_above b j ltac:(lia) Hjb) as [Eb|(r & Hr & Hrb)]; [congruence|..].
  - subst j. assert (r = p) by congruence. subst r. apply subtree_ge in Hrb; lia.
  - subst j. assert (q = p) by congruence. subst q. apply subtree_ge in Hqa; lia.
  - assert (r = q) by congruence. subst r.
    assert (j ∈ kids ps q) as Hlt%kid_after by (apply elem_of_kids_from; split; [lia|done]).
    by apply (IH q); [lia|..].
Qed.

Lemma kids_from_NoDup p k : NoDup (kids_from ps p k).
Proof. unfold kids_from. apply NoDup_ListNoDup, List.NoDup_filter, NoDup_ListNoDup, NoDup_seq. Qed.

Lemma NoDup_flat_map {A B} (f : A → list B) l : NoDup l → (∀ x, x ∈ l → NoDup (f x)) →
  (∀ x y b, x ∈ l → y ∈ l → b ∈ f x → b ∈ f y → x = y) → NoDup (flat_map f l).
Proof.
  induction 1 as [|x l Hx Hl IH]; intros Hf Hd; cbn; [constructor|].
  apply NoDup_app. split; [apply Hf; left|split].
  - intros b Hb Hin. apply list_elem_of_In, in_flat_map in Hin as (y & Hy%list_elem_of_In & Hby%list_elem_of_In).
    assert (x = y) as -> by (eapply Hd; [left|by right|done..]). done.
  - apply IH; [intros y Hy; apply Hf; by right|]. intros y z b Hy Hz. apply Hd; by right.
Qed.

Lemma subtree_NoDup i : i < length ps → NoDup (subtree ps i).
Proof using Hps.
  intros Hi. remember (length ps - i) as n eqn:Hn. revert i Hi Hn.
  induction n as [n IH] using lt_wf_ind. intros i Hi ->. rewrite subtree_eq by done. constructor.
  - intros Hin. apply list_elem_of_In, in_flat_map in Hin as (k & Hk%list_elem_of_In & Hin%list_elem_of_In).
    apply kid_after in Hk. apply subtree_ge in Hin; lia.
  - apply NoDup_flat_map; [apply kids_from_NoDup|..].
    + intros k Hk%kid_after. eapply IH; [|..|reflexivity]; lia.
    + intros a b j Ha Hb. by apply (subtrees_disjoint i).
Qed.

Lemma subtree_lt i j : i < length ps → j ∈ subtree ps i → j < length ps.
Proof using Hps.
  intros Hi Hj. destruct (subtree_above i j Hi Hj) as [->|(p & Hp & _)]; [done|]. by eapply lookup_lt_Some.
Qed.

(** In preorder the parent of a node comes before it. *)
Lemma flat_map_split {A B} (f : A → list B) l l1 b l2 : flat_map f l = l1 ++ b :: l2 →
  ∃ k1 a k2 m1 m2, l = k1 ++ a :: k2 ∧ f a = m1 ++ b :: m2 ∧ l1 = flat_map f k1 ++ m1.
Proof.
  revert l1. induction l as [|a l IH]; intros l1 E; [by destruct l1|]. cbn in E.
  apply app_eq_inv in E as [(k & E1 & E2)|(k & E1 & E2)].
  - destruct k as [|b' k]; cbn in E2.
    + destruct (IH [] (eq_sym E2)) as (k1 & a' & k2 & m1 & m2 & -> & Ea & E'). exists (a :: k1), a', k2, m1, m2.
      rewrite app_nil_r in E1. subst l1. split; [done|]. split; [done|]. cbn. rewrite <-app_assoc, <-E'. by rewrite app_nil_r.
    + injection E2 as <- E2. by exists [], a, l, l1, k.
  - subst l1. destruct (IH _ E2) as (k1 & a' & k2 & m1 & m2 & -> & Ea & ->). exists (a :: k1), a', k2, m1, m2.
    split; [done|]. split; [done|]. cbn. by rewrite app_assoc.
Qed.

Lemma parent_before i j l1 l2 : i < length ps → subtree ps i = l1 ++ j :: l2 → j ≠ i →
  ∃ p, ps !! j = Some (Some p) ∧ p ∈ l1.
Proof using Hps.
  intros Hi. remember (length ps - i) as n eqn:Hn. revert i l1 l2 Hi Hn.
  induction n as [n IH] using lt_wf_ind. intros i l1 l2 Hi -> E Hne.
  rewrite subtree_eq in E by done. destruct l1 as [|i' l1]; [by injection E|]. injection E as <- E.
  apply flat_map_split in E as (k1 & c & k2 & m1 & m2 & Ek & Ec & ->).
  assert (Hc : c ∈ kids ps i) by (rewrite Ek; apply elem_of_app; right; left).
  pose proof (kid_after _ _ Hc) as Hlt. destruct (decide (j = c)) as [->|Hjc].
  - apply elem_of_kids_from in Hc as [_ Hc]. exists i. split; [done|left].
  - destruct (IH (length ps - c) ltac:(lia) c m1 m2 ltac:(lia) eq_refl Ec Hjc) as (p & Hp & Hin).
    exists p. split; [done|]. right. apply elem_of_app. by right.
Qed.

(** Every node is met once. *)
Lemma preorder_complete : subtree ps 0 ≡ₚ seq 0 (length ps).
Proof using Hps.
  assert (H0 : 0 < length ps) by (eapply lookup_lt_Some, (proj1 Hps)).
  apply NoDup_Permutation; [by apply subtree_NoDup|apply NoDup_seq|].
  intros i. rewrite elem_of_seq. split; [intros Hi%subtree_lt; [lia|done]|intros Hi; apply root_reaches; lia].
Qed.

End preorder.

(** ** The operations *)

Lemma parents_alter f i (nodes : list DirNode) : (∀ n, dn_parent (f n) = dn_parent n) →
  dn_parent <$> alter f i nodes = dn_parent <$> nodes.
Proof.
  intros Hf. apply list_eq. intros j. rewrite !list_lookup_fmap, list_lookup_alter.
  case_decide as E; [|done]. subst j. destruct (nodes !! _) as [n|]; [|done]. apply (f_equal Some), Hf.
Qed.

Lemma kids_head_last ps p k i : head (kids_from ps p k) = Some i →
  kids_from ps p k = i :: kids_from ps p (S i) ∧ k ≤ i < length ps.
Proof.
  destruct (kids_from ps p k) as [|j l] eqn:E; [done|]. intros [= ->].
  apply kids_from_cons in E as (-> & ? & Hi). apply lookup_lt_Some in Hi. done.
Qed.

(** The chain of siblings from a child on ends at the last child. *)
Lemma last_sibling_spec nodes more p k i fuel : nodes_ok nodes →
  head (kids_from (dn_parent <$> nodes) p k) = Some i → length nodes - i ≤ fuel →
  ∃ s n, last_sibling fuel (nodes ++ more) i = Some s ∧ nodes !! s = Some n ∧ dn_parent n = Some p ∧
    kids_from (dn_parent <$> nodes) p (S s) = [].
Proof.
  intros Hok. revert k i. induction fuel as [|fuel IH]; intros k i Hi Hf;
    pose proof (kids_head_last _ _ _ _ Hi) as [E [Hk Hlt]]; rewrite length_fmap in Hlt; [lia|].
  cbn [last_sibling]. destruct (lookup_lt_is_Some_2 nodes i Hlt) as [n Hn].
  rewrite (lookup_app_l_Some _ _ _ _ Hn). cbn.
  assert (Hp : dn_parent n = Some p).
  { apply kids_from_cons in E as (_ & _ & E). rewrite list_lookup_fmap, Hn in E. by injection E. }
  rewrite (ok_sibling _ Hok i n Hn), Hp. cbn.
  destruct (kids_from _ p (S i)) as [|j l] eqn:E'; cbn [head].
  - by exists i, n.
  - apply (IH (S i)); [by rewrite E'|].
    apply kids_from_cons in E' as (_ & Hij & _). lia.
Qed.

(** What is below the new node does not change. *)
Lemma kids_new ps : ordered ps → kids_from ps (length ps) 0 = [].
Proof.
  intros Hps. destruct (kids_from ps (length ps) 0) as [|j l] eqn:E; [done|].
  assert (j ∈ kids ps (length ps)) as Hj%(kid_after _ Hps) by (unfold kids; rewrite E; left). lia.
Qed.

Lemma ordered_snoc ps p : ordered ps → p < length ps → ordered (ps ++ [Some p]).
Proof.
  intros [H0 Hs] Hp. split; [by rewrite lookup_app_l by lia|].
  intros i o Hi Ho. destruct (decide (i < length ps)).
  - rewrite lookup_app_l in Ho by done. by apply (Hs i).
  - assert (i = length ps) as ->.
    { apply lookup_lt_Some in Ho. rewrite length_app in Ho. cbn in Ho. lia. }
    rewrite list_lookup_middle in Ho by done. injection Ho as <-. by exists p.
Qed.

(** The nodes after a node with parent [p] has been appended and [f] has linked it from node
    [j]: from its parent when it is the first child, and otherwise from the last child. *)
Section link.
Context (nodes : list DirNode) (new : DirNode) (p j : nat) (f : DirNode → DirNode).

Notation ps := (dn_parent <$> nodes).
Notation nodes' := (alter f j (nodes ++ [new])).

Definition links (m : DirNode) : Prop :=
  (kids ps p = [] ∧ j = p ∧ f m = set_first_child (length nodes) m) ∨
  (kids ps p ≠ [] ∧ dn_parent m = Some p ∧ kids_from ps p (S j) = [] ∧
   f m = set_next_sibling (length nodes) m).

Context (Hok : nodes_ok nodes) (Hp : p < length nodes) (m : DirNode) (Hm : nodes !! j = Some m).
Context (Hnp : dn_parent new = Some p) (Hnc : first_child new = None) (Hns : next_sibling new = None).
Context (Hf : ∀ n, dn_parent (f n) = dn_parent n) (Hlinks : links m).

Lemma linked_parents : dn_parent <$> nodes' = ps ++ [Some p].
Proof using Hf Hnp. rewrite parents_alter by done. by rewrite fmap_app, list_fmap_singleton, Hnp. Qed.

Lemma linked_lookup i n' : nodes' !! i = Some n' →
  (i = length nodes ∧ n' = new) ∨
  ∃ n, nodes !! i = Some n ∧ i < length nodes ∧ ((i = j ∧ n = m ∧ n' = f m) ∨ (i ≠ j ∧ n' = n)).
Proof using Hm Hp.
  pose proof (lookup_lt_Some _ _ _ Hm) as Hj. rewrite list_lookup_alter. case_decide as E.
  - subst i. rewrite lookup_app_l, Hm by done. cbn. intros [= <-]. right. exists m. naive_solver.
  - intros [Hi|[Hi Hl]]%lookup_app_Some.
    + right. exists n'. pose proof (lookup_lt_Some _ _ _ Hi). naive_solver.
    + left. pose proof (lookup_lt_Some _ _ _ Hl) as Hlt. cbn in Hlt.
      replace (i - length nodes) with 0 in Hl by lia. injection Hl as <-. split; [lia|done].
Qed.

Lemma kids_linked q k : k ≤ length nodes →
  kids_from (ps ++ [Some p]) q k = kids_from ps q k ++ (if bool_decide (q = p) then [length nodes] else []).
Proof. intros Hk. rewrite kids_from_snoc by (by rewrite length_fmap). by rewrite length_fmap. Qed.

Lemma linked_child i n' : nodes' !! i = Some n' → first_child n' = head (kids (ps ++ [Some p]) i).
Proof using All.
  intros Hi. unfold kids. pose proof (ok_ordered _ Hok) as Hord.
  destruct (linked_lookup i n' Hi) as [[-> ->]|(n & Hn & Hlt & Hcase)]; rewrite kids_linked by lia.
  - pose proof (kids_new _ Hord) as E. rewrite length_fmap in E. rewrite E, bool_decide_false by lia. done.
  - pose proof (ok_child _ Hok i n Hn) as Hc. fold (kids ps i).
    destruct Hcase as [(-> & -> & ->)|(Hij & ->)], Hlinks as [(Ek & E & Ef)|(Ek & Hpm & _ & Ef)].
    + rewrite <-E in Ek |- *. rewrite Ek, Ef, bool_decide_true by done. done.
    + rewrite Ef. cbn [first_child set_next_sibling]. rewrite Hc.
      case_bool_decide as E; [|by rewrite app_nil_r]. rewrite E. by destruct (kids ps p).
    + rewrite bool_decide_false by congruence. by rewrite app_nil_r.
    + rewrite Hc. case_bool_decide as E; [|by rewrite app_nil_r]. rewrite E. by destruct (kids ps p).
Qed.

Lemma parent_lookup i n : nodes !! i = Some n → ps !! i = Some (dn_parent n).
Proof. intros Hn. by rewrite list_lookup_fmap, Hn. Qed.

(** Only the last child has no later sibling. *)
Lemma last_kid i : ps !! i = Some (Some p) → kids_from ps p (S i) = [] → kids_from ps p (S j) = [] →
  ps !! j = Some (Some p) → i = j.
Proof.
  intros Hi Ei Ej Hj. destruct (Nat.lt_trichotomy i j) as [Hlt|[?|Hlt]]; [|done|].
  - assert (j ∈ kids_from ps p (S i)) as Hin by (by apply elem_of_kids_from). rewrite Ei in Hin. by apply elem_of_nil in Hin.
  - assert (i ∈ kids_from ps p (S j)) as Hin by (by apply elem_of_kids_from). rewrite Ej in Hin. by apply elem_of_nil in Hin.
Qed.

Lemma linked_sibling i n' : nodes' !! i = Some n' →
  next_sibling n' = q ← dn_parent n'; head (kids_from (ps ++ [Some p]) q (S i)).
Proof using All.
  intros Hi. pose proof (ok_ordered _ Hok) as Hord.
  destruct (linked_lookup i n' Hi) as [[-> ->]|(n & Hn & Hlt & Hcase)].
  { rewrite Hnp, Hns. cbn. rewrite kids_from_end; [done|]. rewrite length_app, length_fmap. cbn. lia. }
  pose proof (ok_sibling _ Hok i n Hn) as Hs. pose proof (parent_lookup _ _ Hn) as Hpi.
  assert (Epar : dn_parent n' = dn_parent n) by (destruct Hcase as [(_ & -> & ->)|(_ & ->)]; [apply Hf|done]).
  rewrite Epar. destruct (dn_parent n) as [q|] eqn:Hq; cbn [mbind option_bind] in *.
  - rewrite kids_linked by lia. destruct Hcase as [(-> & -> & ->)|(Hij & ->)].
    + destruct Hlinks as [(Ek & E & Ef)|(Ek & Hpm & Ej & Ef)]; rewrite Ef.
      * cbn [next_sibling set_first_child]. rewrite Hs. case_bool_decide as E'; [|by rewrite app_nil_r]. subst q.
        assert (p ∈ kids ps p) as Hin by (apply elem_of_kids_from; split; [lia|by rewrite <-E at 1]).
        rewrite Ek in Hin. by apply elem_of_nil in Hin.
      * assert (q = p) as -> by congruence. rewrite Ej, bool_decide_true by done. done.
    + rewrite Hs. case_bool_decide as E; [subst q|by rewrite app_nil_r].
      destruct (kids_from ps p (S i)) as [|x l] eqn:Ex; [|done]. exfalso.
      assert (i ∈ kids ps p) as Hin by (apply elem_of_kids_from; split; [lia|done]).
      destruct Hlinks as [(Ek & _)|(Ek & Hpm & Ej & _)]; [rewrite Ek in Hin; by apply elem_of_nil in Hin|].
      apply Hij, last_kid; [done..|]. by rewrite (parent_lookup _ _ Hm), Hpm.
  - destruct Hcase as [(-> & -> & ->)|(_ & ->)]; [|done].
    destruct Hlinks as [(_ & _ & ->)|(_ & Hpm & _)]; [done|congruence].
Qed.

Lemma linked_ok : nodes_ok nodes'.
Proof using All.
  split; rewrite ?linked_parents; [|apply linked_child|apply linked_sibling].
  apply ordered_snoc; [apply Hok|by rewrite length_fmap].
Qed.

End link.

(** What the caller gave for each node. *)
Definition label (n : DirNode) : Z * list byte := (dn_dir_ndx n, dn_path n).
Definition labels (t : DirectoryTree) : list (Z * list byte) := label <$> dt_nodes t.

(** No call of [next_directory] so far. *)
Definition at_start (t : DirectoryTree) : Prop := dt_cursor t = head (kids (parents t) 0).

Lemma labels_alter f i (nodes : list DirNode) : (∀ n, label (f n) = label n) →
  label <$> alter f i nodes = label <$> nodes.
Proof.
  intros Hf. apply list_eq. intros j. rewrite !list_lookup_fmap, list_lookup_alter.
  case_decide as E; [|done]. subst j. destruct (nodes !! _) as [n|]; [|done]. apply (f_equal Some), Hf.
Qed.

Lemma tree_new_ok : tree_ok tree_new ∧ at_start tree_new.
Proof.
  split; [|done]. split; [|done]. split; [split; [done|]|..].
  - intros [|i] o Hi Ho; [lia|done].
  - by intros [|i] n [= <-].
  - by intros [|i] n [= <-].
Qed.

Lemma at_start_snoc t nodes' cursor' depth p : tree_ok t → at_start t → p < length (dt_nodes t) →
  dn_parent <$> nodes' = parents t ++ [Some p] →
  cursor' = match dt_cursor t with None => Some (length (dt_nodes t)) | Some c => Some c end →
  at_start (mkTree nodes' cursor' depth).
Proof.
  unfold at_start, kids. intros Hok Hc Hp Eps ->. unfold parents at 1. cbn [dt_nodes dt_cursor]. rewrite Eps.
  assert (Hlen : length (parents t) = length (dt_nodes t)) by (unfold parents; by rewrite length_fmap).
  rewrite kids_from_snoc by lia. rewrite Hc, Hlen.
  destruct (kids_from (parents t) 0 0) as [|c l] eqn:E; [|done]. cbn [head app].
  destruct (decide (p = 0)) as [->|Hne]; [by rewrite bool_decide_true|].
  assert (H1 : 1 ∈ kids_from (parents t) 0 0); [|rewrite E in H1; by apply elem_of_nil in H1].
  apply elem_of_kids_from. split; [lia|].
  destruct (lookup_lt_is_Some_2 (parents t) 1) as [o Ho]; [unfold parents; rewrite length_fmap; lia|].
  destruct (proj2 (ok_ordered _ (ok_nodes _ Hok)) 1 o) as (q & -> & Hq); [lia|done|].
  rewrite Ho. do 2 f_equal. lia.
Qed.

(** Appending a directory below a known one keeps the tree, and adds it as the last child. *)
Lemma add_directory_ok dir_ndx path po t : tree_ok t → default ROOT po < length (dt_nodes t) →
  ∃ t', add_directory dir_ndx path po t = Some (length (dt_nodes t), t') ∧ tree_ok t' ∧
    parents t' = parents t ++ [Some (default ROOT po)] ∧ labels t' = labels t ++ [(dir_ndx, path)] ∧
    length (dt_nodes t') = S (length (dt_nodes t)) ∧ (at_start t → at_start t').
Proof.
  intros Hok Hp. unfold add_directory. set (p := default ROOT po) in *.
  set (new := mkNode dir_ndx path None None (Some p) false). set (nodes := dt_nodes t) in *.
  destruct (lookup_lt_is_Some_2 nodes p Hp) as [n Hn]. rewrite (lookup_app_l_Some _ _ _ _ Hn). cbn [mbind option_bind].
  pose proof (ok_child _ (ok_nodes _ Hok) p n Hn) as Hc. fold nodes in Hc.
  assert (∃ f j m, nodes !! j = Some m ∧ links nodes p j f m ∧
    (∀ n, dn_parent (f n) = dn_parent n) ∧ (∀ n, label (f n) = label n) ∧
    match first_child n with
    | None => Some (alter (set_first_child (length nodes)) p (nodes ++ [new]))
    | Some c => sibling ← last_sibling (length (nodes ++ [new])) (nodes ++ [new]) c;
                Some (alter (set_next_sibling (length nodes)) sibling (nodes ++ [new]))
    end = Some (alter f j (nodes ++ [new]))) as (f & j & m & Hm & Hl & Hf & Hlab & ->).
  { destruct (first_child n) as [c|] eqn:Ec.
    - destruct (last_sibling_spec nodes [new] p 0 c (length (nodes ++ [new]))) as (s & m & -> & Hm & Hpm & Es);
        [apply Hok|done|rewrite length_app; lia|]. cbn.
      exists (set_next_sibling (length nodes)), s, m. split_and!; try done. right.
      split_and!; try done. intros E. by rewrite E in Hc.
    - exists (set_first_child (length nodes)), p, n. split_and!; try done. left. split_and!; try done.
      unfold kids in *. by destruct (kids_from _ p 0). }
  cbn [mbind option_bind]. eexists. split; [done|].
  assert (Eps : dn_parent <$> alter f j (nodes ++ [new]) = parents t ++ [Some p]) by (by apply linked_parents).
  assert (Hlen : length (alter f j (nodes ++ [new])) = S (length nodes)) by (rewrite length_alter, length_app; cbn; lia).
  split_and!; [|done| |done|].
  - split; cbn [dt_nodes dt_cursor]; [by eapply linked_ok; [apply Hok|..]|].
    rewrite Hlen. pose proof (ok_cursor _ Hok) as Hcur. fold nodes in Hcur. intros c.
    destruct (dt_cursor t) as [c'|]; intros [= <-]; [specialize (Hcur c' eq_refl)|]; lia.
  - unfold labels. cbn [dt_nodes]. by rewrite labels_alter, fmap_app, list_fmap_singleton.
  - intros Hfr. by apply (at_start_snoc t _ _ _ p).
Qed.

Lemma backtrack_ok nodes fuel i d : nodes_ok nodes → i < length nodes → i < fuel →
  ∃ c d', backtrack fuel nodes i d = Some (c, d') ∧
    after (dn_parent <$> nodes) i =
      match c with Some c => subtree (dn_parent <$> nodes) c ++ after (dn_parent <$> nodes) c | None => [] end ∧
    (∀ c', c = Some c' → 0 < c' < length nodes).
Proof.
  intros Hok. pose proof (ok_ordered _ Hok) as Hord. revert i d. induction fuel as [|fuel IH]; intros i d Hi Hf; [lia|].
  cbn [backtrack]. destruct (lookup_lt_is_Some_2 nodes i Hi) as [n Hn]. rewrite Hn. cbn [mbind option_bind].
  rewrite (ok_sibling _ Hok i n Hn). pose proof (parent_lookup nodes i n Hn) as Hpi.
  destruct (dn_parent n) as [p|] eqn:Ep; cbn [mbind option_bind].
  - pose proof (after_eq _ Hord i p Hpi) as Ea.
    destruct (kids_from _ p (S i)) as [|s l] eqn:E; cbn [head flat_map app] in *; rewrite Ea.
    + destruct (proj2 Hord i (Some p)) as (p' & [= <-] & Hp); [|done|apply IH; lia].
      destruct (decide (i = 0)) as [->|]; [|lia]. rewrite (proj1 Hord) in Hpi. done.
    + apply kids_from_cons in E as (-> & Hs & Hps). exists (Some s), d. split; [done|]. split.
      * by rewrite (after_eq _ Hord s p Hps), app_assoc.
      * intros c' [= <-]. apply lookup_lt_Some in Hps. rewrite length_fmap in Hps. lia.
  - exists None, d. split; [done|]. split; [|done].
    assert (i = 0) as ->; [|by apply after_root]. destruct (decide (i = 0)) as [|Hne]; [done|].
    destruct (proj2 Hord i None) as (p & E & _); [lia|done|done].
Qed.

Lemma nodes_ok_sent nodes i : nodes_ok nodes → nodes_ok (alter set_sent i nodes).
Proof.
  intros Hok. assert (Eps : dn_parent <$> alter set_sent i nodes = dn_parent <$> nodes) by (by apply parents_alter).
  assert (Hold : ∀ k n', alter set_sent i nodes !! k = Some n' → ∃ n, nodes !! k = Some n ∧
    first_child n' = first_child n ∧ next_sibling n' = next_sibling n ∧ dn_parent n' = dn_parent n).
  { intros k n'. rewrite list_lookup_alter. case_decide as E; [|naive_solver]. subst k.
    destruct (nodes !! i) as [n|]; [|done]. intros [= <-]. by exists n. }
  split; rewrite Eps; [apply Hok|..]; intros k n' (n & Hn & E1 & E2 & E3)%Hold.
  - rewrite E1. by apply Hok.
  - rewrite E2, E3. by apply Hok.
Qed.

(** A call returns the next node in preorder. *)
Lemma next_directory_ok t : tree_ok t →
  ∃ o t', next_directory t = Some (o, t') ∧ tree_ok t' ∧ parents t' = parents t ∧ labels t' = labels t ∧
    match remaining t with
    | [] => o = None
    | i :: l => o = labels t !! i ∧ is_Some o ∧ remaining t' = l
    end.
Proof.
  intros Hok. unfold next_directory, remaining. destruct (dt_cursor t) as [c|] eqn:Ec; [|by exists None, t].
  destruct (ok_cursor _ Hok c Ec) as [H0 Hc]. set (nodes := dt_nodes t) in *.
  destruct (lookup_lt_is_Some_2 nodes c Hc) as [n Hn]. rewrite Hn. cbn [mbind option_bind].
  pose proof (ok_nodes _ Hok) as Hnok. fold nodes in Hnok. pose proof (ok_ordered _ Hnok) as Hord.
  assert (∃ c' d', match first_child n with
      | Some child => Some (Some child, S (dt_depth t))
      | None => backtrack (length (alter set_sent c nodes)) (alter set_sent c nodes) c (dt_depth t)
      end = Some (c', d') ∧ flat_map (subtree (parents t)) (kids (parents t) c) ++ after (parents t) c =
        match c' with Some c => subtree (parents t) c ++ after (parents t) c | None => [] end ∧
      (∀ k, c' = Some k → 0 < k < length nodes)) as (c' & d' & -> & Erest & Hc').
  { rewrite (ok_child _ Hnok c n Hn). fold nodes in Hn. unfold parents. fold nodes.
    destruct (kids _ c) as [|k l] eqn:Ek; cbn [head flat_map app].
    - rewrite length_alter. destruct (backtrack_ok (alter set_sent c nodes) (length nodes) c (dt_depth t))
        as (c' & d' & -> & Ea & Hc'); [by apply nodes_ok_sent|by rewrite length_alter|done|].
      rewrite length_alter in Hc'. rewrite parents_alter in Ea by done. by exists c', d'.
    - apply kids_from_cons in Ek as (-> & _ & Hk). exists (Some k), (S (dt_depth t)). split; [done|]. split.
      + by rewrite (after_eq _ Hord k c Hk), app_assoc.
      + intros j [= <-]. assert (k ∈ kids (dn_parent <$> nodes) c) as Hlt%(kid_after _ Hord)
          by (apply elem_of_kids_from; split; [lia|done]). rewrite length_fmap in Hlt. lia. }
  cbn [mbind option_bind]. eexists _, _. split; [done|].
  assert (Eps : parents (mkTree (alter set_sent c nodes) c' d') = parents t) by (by apply parents_alter).
  split_and!; [|done|by apply labels_alter|].
  - split; cbn [dt_nodes dt_cursor]; [by apply nodes_ok_sent|]. by rewrite length_alter.
  - rewrite subtree_eq by (try apply Hord; unfold parents; by rewrite length_fmap). cbn [app].
    unfold labels. rewrite list_lookup_fmap. fold nodes. rewrite Hn. split; [done|]. split; [done|].
    rewrite Eps. by rewrite Erest.
Qed.

Lemma drain_ok fuel t : tree_ok t → length (remaining t) < fuel →
  ∃ t', drain fuel t = Some (omap (λ i, labels t !! i) (remaining t), t') ∧
    length (omap (λ i, labels t !! i) (remaining t)) = length (remaining t).
Proof.
  revert t. induction fuel as [|fuel IH]; intros t Hok Hf; [lia|]. cbn [drain].
  destruct (next_directory_ok t Hok) as (o & t1 & -> & Hok1 & _ & El & Hrem). cbn [mbind option_bind].
  destruct (remaining t) as [|i l]; [subst o; by exists t1|]. destruct Hrem as (-> & [d Hd] & Hr). cbn in Hf.
  destruct (IH t1 Hok1) as (t' & E & Hlen); [rewrite Hr; lia|]. rewrite Hr, El in E, Hlen.
  exists t'. cbn. rewrite Hd, E. cbn. by rewrite Hlen.
Qed.

Lemma remaining_at_start t : tree_ok t → at_start t → subtree (parents t) 0 = 0 :: remaining t.
Proof.
  intros Hok Hfr. pose proof (ok_ordered _ (ok_nodes _ Hok)) as Hord. fold (parents t) in Hord.
  rewrite (subtree_eq _ Hord) by (eapply lookup_lt_Some, (proj1 Hord)). f_equal. unfold remaining. rewrite Hfr.
  destruct (kids (parents t) 0) as [|c l] eqn:E; [done|]. cbn [head flat_map].
  apply kids_from_cons in E as (-> & _ & Hc). f_equal.
  rewrite (after_eq _ Hord c 0 Hc), (after_root _ Hord). by rewrite app_nil_r.
Qed.

(** ** Properties *)

(** Directories added one after the other, each with its index, path and parent. *)
Fixpoint add_all (adds : list (Z * list byte * option nat)) (t : DirectoryTree) : option DirectoryTree :=
  match adds with
  | [] => Some t
  | (dir_ndx, path, parent) :: adds => '(_, t) ← add_directory dir_ndx path parent t; add_all adds t
  end.

(** The parents of the nodes, the root first. *)
Definition parents_of (adds : list (Z * list byte * option nat)) : list (option nat) :=
  None :: ((λ a, Some (default ROOT a.2)) <$> adds).

Lemma add_all_ok adds t : tree_ok t → at_start t →
  (∀ k a, adds !! k = Some a → default ROOT a.2 < length (dt_nodes t) + k) →
  ∃ t', add_all adds t = Some t' ∧ tree_ok t' ∧ at_start t' ∧
    parents t' = parents t ++ ((λ a, Some (default ROOT a.2)) <$> adds) ∧ labels t' = labels t ++ adds.*1.
Proof.
  revert t. induction adds as [|[[dir_ndx path] parent] adds IH]; intros t Hok Hfr Hp.
  { exists t. by rewrite !app_nil_r. }
  destruct (add_directory_ok dir_ndx path parent t) as (t1 & E & Hok1 & Ep1 & El1 & Hlen & Hfr1); [done|..].
  { specialize (Hp 0 _ eq_refl). cbn in Hp. lia. }
  cbn [add_all]. rewrite E. cbn [mbind option_bind].
  destruct (IH t1) as (t' & -> & Hok' & Hfr' & Ep & El); [done|by apply Hfr1|..].
  { intros k a Ha. specialize (Hp (S k) a Ha). lia. }
  exists t'. split_and!; [done..| |].
  - by rewrite Ep, Ep1, <-app_assoc.
  - by rewrite El, El1, <-app_assoc.
Qed.

(** C17: The links of the tree are followed depth first: after any directories have been added,
    each below one that was added before it, the calls of [next_directory] return them in the
    preorder of the tree that their parents describe, children in the order in which they
    were added; each directory is returned once, and then the calls return nothing. *)
Theorem traversal_is_preorder (adds : list (Z * list byte * option nat)) :
  (∀ k a, adds !! k = Some a → default ROOT a.2 ≤ k) →
  ∃ t t' order, add_all adds tree_new = Some t ∧
    drain (S (length adds)) t = Some (omap (λ i, adds.*1 !! (i - 1)) order, t') ∧
    length (omap (λ i, adds.*1 !! (i - 1)) order) = length adds ∧
    subtree (parents_of adds) 0 = 0 :: order ∧ order ≡ₚ seq 1 (length adds).
Proof.
  intros Hp. destruct tree_new_ok as [Hok Hfr].
  destruct (add_all_ok adds tree_new Hok Hfr) as (t & E & Hok' & Hfr' & Eps & El).
  { intros k a Ha. specialize (Hp k a Ha). cbn. lia. }
  change (parents t = parents_of adds) in Eps. change (labels t = (2 ^ 64 - 1, [])%Z :: adds.*1) in El.
  pose proof (remaining_at_start t Hok' Hfr') as Er.
  pose proof (preorder_complete (parents t) (ok_ordered _ (ok_nodes _ Hok'))) as Hperm.
  rewrite Er in Hperm. assert (Hlen : length (parents t) = S (length adds)).
  { rewrite Eps. unfold parents_of. cbn. by rewrite length_fmap. }
  rewrite Hlen in Hperm. cbn [seq] in Hperm. apply Permutation_cons_inv in Hperm.
  assert (Hr : length (remaining t) = length adds) by (by rewrite Hperm, length_seq).
  destruct (drain_ok (S (length adds)) t Hok' ltac:(lia)) as (t' & Ed & Hl).
  assert (Eo : omap (λ i, labels t !! i) (remaining t) = omap (λ i, adds.*1 !! (i - 1)) (remaining t)).
  { apply list_omap_ext, Forall2_same_length_lookup_2; [done|]. intros k i j Hi Hj. assert (i = j) as -> by congruence.
    assert (1 ≤ j) as Hj1 by (apply list_elem_of_lookup_2 in Hj; rewrite Hperm, elem_of_seq in Hj; lia).
    rewrite El. by destruct j as [|j]; [lia|cbn; rewrite Nat.sub_0_r]. }
  rewrite Eo in Ed, Hl. exists t, t', (remaining t). split_and!; [done..|lia| |done]. by rewrite <-Eps.
Qed.

Definition demo_adds : list (Z * list byte * option nat) :=
  [(10%Z, [x61], None); (11%Z, [x62], None); (12%Z, [x63], Some 1); (13%Z, [x64], Some 2); (14%Z, [x65], Some 1)].

Lemma traversal_is_preorder_witness :
  (∃ t t' order, add_all demo_adds tree_new = Some t ∧
    drain 6 t = Some (omap (λ i, demo_adds.*1 !! (i - 1)) order, t') ∧
    length (omap (λ i, demo_adds.*1 !! (i - 1)) order) = 5 ∧
    subtree (parents_of demo_adds) 0 = 0 :: order ∧ order ≡ₚ seq 1 5) ∧
  subtree (parents_of demo_adds) 0 = [0; 1; 3; 5; 2; 4].
Proof.
  split; [|done]. apply (traversal_is_preorder demo_adds).
  intros k a Ha. do 5 (destruct k as [|k]; [injection Ha as <-; cbn; unfold ROOT; lia|]). done.
Defined.

(** Only [try_add_directory] refuses every unknown parent: the node itself is in the table when
    [add_directory] looks for its parent, so an index that is one past the end makes the node
    its own parent and first child, and the traversal returns it forever. *)
Lemma own_parent_never_ends (dir_ndx : Z) (path : list byte) :
  ∃ t, add_directory dir_ndx path (Some 1) tree_new = Some (1, t) ∧
    (∀ fuel, drain fuel t = None) ∧
    try_add_directory dir_ndx path (Some 1) tree_new = Some (Err (OutOfBoundsParent 1 1), tree_new).
Proof.
  eexists. split; [done|]. split; [|done].
  assert (H : ∀ fuel root sent depth, drain fuel
    (mkTree [root; mkNode dir_ndx path (Some 1) None (Some 1) sent] (Some 1) depth) = None); [|intros fuel; apply H].
  induction fuel as [|fuel IH]; intros root sent depth; [done|]. cbn [drain].
  unfold next_directory, set_sent. cbn. unfold set_sent. cbn. by rewrite IH.
Qed.

(** A directory is refused exactly when its parent is not known, and otherwise added. *)
Lemma try_add_directory_total dir_ndx path po t : tree_ok t →
  (length (dt_nodes t) ≤ default ROOT po →
    try_add_directory dir_ndx path po t = Some (Err (OutOfBoundsParent (default ROOT po) (length (dt_nodes t))), t)) ∧
  (default ROOT po < length (dt_nodes t) → ∃ t', tree_ok t' ∧
    try_add_directory dir_ndx path po t = Some (Ok (length (dt_nodes t)), t')).
Proof.
  intros Hok. assert (Hpos : 0 < length (dt_nodes t)).
  { pose proof (proj1 (ok_ordered _ (ok_nodes _ Hok))) as H. apply lookup_lt_Some in H. by rewrite length_fmap in H. }
  unfold try_add_directory. split; intros H.
  - destruct po as [p|]; cbn in *; [|unfold ROOT in H; lia]. by rewrite (proj2 (Nat.leb_le _ _)).
  - destruct (add_directory_ok dir_ndx path po t Hok H) as (t' & E & Hok' & _). exists t'. split; [done|].
    destruct po as [p|]; cbn in *; [rewrite (proj2 (Nat.leb_gt _ _)) by done|]; by rewrite E.
Qed.
