(* ===== verification/FlistEntry.v ===== *)
(** * Entries of the file list ([crates/protocol/src/flist/entry/], [name_cmp.rs])

    An entry is a name with the metadata that the transfer needs.  Paths are their bytes, as
    on Unix.  The flags and the optional fields are bit sets beside the values, as in the
    source; the attributes that the sender keeps with an entry are a list of names and
    values. *)

From S2P Require Import Prelude Wildmatch Utf8 FilterWire.

Local Open Scope Z_scope.

(** ** Kinds of files *)

Inductive FileType := Regular | Directory | Symlink | BlockDevice | CharDevice | Fifo | Socket.

#[export] Instance FileType_eq_dec : EqDecision FileType.
Proof. solve_decision. Defined.

Definition S_IFMT : Z := 0xf000.

Definition type_from_mode (mode : Z) : option FileType :=
  let bits := Z.land mode S_IFMT in
  if bits =? 0x8000 then Some Regular
  else if bits =? 0x4000 then Some Directory
  else if bits =? 0xa000 then Some Symlink
  else if bits =? 0x6000 then Some BlockDevice
  else if bits =? 0x2000 then Some CharDevice
  else if bits =? 0x1000 then Some Fifo
  else if bits =? 0xc000 then Some Socket
  else None.

Definition to_mode_bits (t : FileType) : Z :=
  match t with
  | Regular => 0x8000 | Directory => 0x4000 | Symlink => 0xa000
  | BlockDevice => 0x6000 | CharDevice => 0x2000 | Fifo => 0x1000 | Socket => 0xc000
  end.

(** ** The entry *)

Definition PRESENT_UID : Z := 1.
Definition PRESENT_GID : Z := 2.
Definition PRESENT_CONTENT_DIR : Z := 4.
Definition PRESENT_TOP_DIR : Z := 8.
Definition PRESENT_HLINKED : Z := 16.
Definition PRESENT_HLINK_FIRST : Z := 32.

Definition EXTRAS_PRESENT_RDEV : Z := 1.
Definition EXTRAS_PRESENT_HARDLINK_IDX : Z := 2.
Definition EXTRAS_PRESENT_ACL_NDX : Z := 4.
Definition EXTRAS_PRESENT_DEF_ACL_NDX : Z := 8.
Definition EXTRAS_PRESENT_XATTR_NDX : Z := 16.
Definition EXTRAS_PRESENT_HARDLINK_DEV : Z := 32.

Record FileEntryExtras := mkExtras {
  ex_link_target : option (list byte);
  ex_user_name : option (list byte);
  ex_group_name : option (list byte);
  ex_atime : Z;
  ex_crtime : Z;
  ex_hardlink_dev : Z;
  ex_hardlink_ino : Z;
  ex_checksum : option (list byte);
  ex_xattr_list : option (list (list byte * list byte));
  ex_atime_nsec : Z;
  ex_rdev_major : Z;
  ex_rdev_minor : Z;
  ex_hardlink_idx : Z;
  ex_acl_ndx : Z;
  ex_def_acl_ndx : Z;
  ex_xattr_ndx : Z;
  ex_present : Z;
}.

Definition extras_default : FileEntryExtras :=
  mkExtras None None None 0 0 0 0 None None 0 0 0 0 0 0 0 0.

Record FileEntry := mkEntry {
  fe_name : list byte;
  fe_dirname : list byte;
  fe_size : Z;
  fe_mtime : Z;
  fe_extras : option FileEntryExtras;
  fe_uid : Z;
  fe_gid : Z;
  fe_mtime_nsec : Z;
  fe_mode : Z;
  fe_present : Z;
}.

#[export] Instance FileEntryExtras_eq_dec : EqDecision FileEntryExtras.
Proof. solve_decision. Defined.
#[export] Instance FileEntry_eq_dec : EqDecision FileEntry.
Proof. solve_decision. Defined.

(** [PathBuf::to_str] fails on a path that is not UTF-8; [name] is then the empty string. *)
Definition entry_name (e : FileEntry) : list byte := if valid_utf8 (fe_name e) then fe_name e else [].
Definition name_bytes (e : FileEntry) : list byte := fe_name e.

Definition is_dir (e : FileEntry) : bool := Z.land (fe_mode e) S_IFMT =? 0x4000.
Definition is_file (e : FileEntry) : bool := Z.land (fe_mode e) S_IFMT =? 0x8000.
Definition is_symlink (e : FileEntry) : bool := Z.land (fe_mode e) S_IFMT =? 0xa000.
Definition is_device (e : FileEntry) : bool :=
  let type_bits := Z.land (fe_mode e) S_IFMT in (type_bits =? 0x6000) || (type_bits =? 0x2000).
Definition is_special (e : FileEntry) : bool :=
  let type_bits := Z.land (fe_mode e) S_IFMT in (type_bits =? 0xc000) || (type_bits =? 0x1000).
Definition is_active (e : FileEntry) : bool := negb (bool_decide (fe_name e = [])).

Definition has_flag (flags bit : Z) : bool := negb (Z.land flags bit =? 0).
Definition put_flag (flags bit : Z) (on : bool) : Z :=
  if on then Z.lor flags bit else Z.land flags (wrap 8 (Z.lnot bit)).

Definition with_present (present : Z) (e : FileEntry) : FileEntry :=
  mkEntry (fe_name e) (fe_dirname e) (fe_size e) (fe_mtime e) (fe_extras e) (fe_uid e) (fe_gid e)
    (fe_mtime_nsec e) (fe_mode e) present.
Definition with_extras (x : FileEntryExtras) (e : FileEntry) : FileEntry :=
  mkEntry (fe_name e) (fe_dirname e) (fe_size e) (fe_mtime e) (Some x) (fe_uid e) (fe_gid e)
    (fe_mtime_nsec e) (fe_mode e) (fe_present e).

Definition top_dir (e : FileEntry) : bool := has_flag (fe_present e) PRESENT_TOP_DIR.
Definition content_dir (e : FileEntry) : bool := has_flag (fe_present e) PRESENT_CONTENT_DIR.
Definition hlinked (e : FileEntry) : bool := has_flag (fe_present e) PRESENT_HLINKED.
Definition hlink_first (e : FileEntry) : bool := has_flag (fe_present e) PRESENT_HLINK_FIRST.
Definition set_top_dir (on : bool) (e : FileEntry) : FileEntry :=
  with_present (put_flag (fe_present e) PRESENT_TOP_DIR on) e.
Definition set_content_dir (on : bool) (e : FileEntry) : FileEntry :=
  with_present (put_flag (fe_present e) PRESENT_CONTENT_DIR on) e.
Definition set_hlinked (on : bool) (e : FileEntry) : FileEntry :=
  with_present (put_flag (fe_present e) PRESENT_HLINKED on) e.
Definition set_hlink_first (on : bool) (e : FileEntry) : FileEntry :=
  with_present (put_flag (fe_present e) PRESENT_HLINK_FIRST on) e.

Definition extras_mut (e : FileEntry) : FileEntryExtras := default extras_default (fe_extras e).

Definition hardlink_idx (e : FileEntry) : option Z :=
  x ← fe_extras e;
  if has_flag (ex_present x) EXTRAS_PRESENT_HARDLINK_IDX then Some (ex_hardlink_idx x) else None.

Definition set_hardlink_idx (idx : Z) (e : FileEntry) : FileEntry :=
  let x := extras_mut e in
  with_extras
    (mkExtras (ex_link_target x) (ex_user_name x) (ex_group_name x) (ex_atime x) (ex_crtime x)
       (ex_hardlink_dev x) (ex_hardlink_ino x) (ex_checksum x) (ex_xattr_list x)
       (ex_atime_nsec x) (ex_rdev_major x) (ex_rdev_minor x) idx (ex_acl_ndx x)
       (ex_def_acl_ndx x) (ex_xattr_ndx x)
       (Z.lor (ex_present x) EXTRAS_PRESENT_HARDLINK_IDX)) e.

Definition hardlink_dev (e : FileEntry) : option Z :=
  x ← fe_extras e;
  if has_flag (ex_present x) EXTRAS_PRESENT_HARDLINK_DEV then Some (ex_hardlink_dev x) else None.
Definition hardlink_ino (e : FileEntry) : option Z :=
  x ← fe_extras e;
  if has_flag (ex_present x) EXTRAS_PRESENT_HARDLINK_DEV then Some (ex_hardlink_ino x) else None.

Definition uid (e : FileEntry) : option Z :=
  if has_flag (fe_present e) PRESENT_UID then Some (fe_uid e) else None.
Definition gid (e : FileEntry) : option Z :=
  if has_flag (fe_present e) PRESENT_GID then Some (fe_gid e) else None.
Definition set_uid (id : Z) (e : FileEntry) : FileEntry :=
  mkEntry (fe_name e) (fe_dirname e) (fe_size e) (fe_mtime e) (fe_extras e) id (fe_gid e)
    (fe_mtime_nsec e) (fe_mode e) (Z.lor (fe_present e) PRESENT_UID).
Definition set_gid (id : Z) (e : FileEntry) : FileEntry :=
  mkEntry (fe_name e) (fe_dirname e) (fe_size e) (fe_mtime e) (fe_extras e) (fe_uid e) id
    (fe_mtime_nsec e) (fe_mode e) (Z.lor (fe_present e) PRESENT_GID).

Definition link_target (e : FileEntry) : option (list byte) := x ← fe_extras e; ex_link_target x.
Definition user_name (e : FileEntry) : option (list byte) := x ← fe_extras e; ex_user_name x.
Definition group_name (e : FileEntry) : option (list byte) := x ← fe_extras e; ex_group_name x.
Definition checksum (e : FileEntry) : option (list byte) := x ← fe_extras e; ex_checksum x.
Definition rdev_major (e : FileEntry) : option Z :=
  x ← fe_extras e;
  if has_flag (ex_present x) EXTRAS_PRESENT_RDEV then Some (ex_rdev_major x) else None.
Definition rdev_minor (e : FileEntry) : option Z :=
  x ← fe_extras e;
  if has_flag (ex_present x) EXTRAS_PRESENT_RDEV then Some (ex_rdev_minor x) else None.
Definition atime (e : FileEntry) : Z := from_option ex_atime 0 (fe_extras e).
Definition atime_nsec (e : FileEntry) : Z := from_option ex_atime_nsec 0 (fe_extras e).
Definition crtime (e : FileEntry) : Z := from_option ex_crtime 0 (fe_extras e).

Definition ex_texts (target user group sum : option (list byte)) (x : FileEntryExtras) : FileEntryExtras :=
  mkExtras target user group (ex_atime x) (ex_crtime x) (ex_hardlink_dev x) (ex_hardlink_ino x) sum
    (ex_xattr_list x) (ex_atime_nsec x) (ex_rdev_major x) (ex_rdev_minor x) (ex_hardlink_idx x)
    (ex_acl_ndx x) (ex_def_acl_ndx x) (ex_xattr_ndx x) (ex_present x).
Definition ex_times (at_ ct at_nsec : Z) (x : FileEntryExtras) : FileEntryExtras :=
  mkExtras (ex_link_target x) (ex_user_name x) (ex_group_name x) at_ ct (ex_hardlink_dev x)
    (ex_hardlink_ino x) (ex_checksum x) (ex_xattr_list x) at_nsec (ex_rdev_major x)
    (ex_rdev_minor x) (ex_hardlink_idx x) (ex_acl_ndx x) (ex_def_acl_ndx x) (ex_xattr_ndx x)
    (ex_present x).
Definition ex_devices (dev ino major minor present : Z) (x : FileEntryExtras) : FileEntryExtras :=
  mkExtras (ex_link_target x) (ex_user_name x) (ex_group_name x) (ex_atime x) (ex_crtime x) dev ino
    (ex_checksum x) (ex_xattr_list x) (ex_atime_nsec x) major minor (ex_hardlink_idx x)
    (ex_acl_ndx x) (ex_def_acl_ndx x) (ex_xattr_ndx x) present.

Definition set_link_target (target : list byte) (e : FileEntry) : FileEntry :=
  let x := extras_mut e in
  with_extras (ex_texts (Some target) (ex_user_name x) (ex_group_name x) (ex_checksum x) x) e.
Definition set_user_name (name : list byte) (e : FileEntry) : FileEntry :=
  let x := extras_mut e in
  with_extras (ex_texts (ex_link_target x) (Some name) (ex_group_name x) (ex_checksum x) x) e.
Definition set_group_name (name : list byte) (e : FileEntry) : FileEntry :=
  let x := extras_mut e in
  with_extras (ex_texts (ex_link_target x) (ex_user_name x) (Some name) (ex_checksum x) x) e.
Definition set_checksum (sum : list byte) (e : FileEntry) : FileEntry :=
  let x := extras_mut e in
  with_extras (ex_texts (ex_link_target x) (ex_user_name x) (ex_group_name x) (Some sum) x) e.
Definition set_atime (secs : Z) (e : FileEntry) : FileEntry :=
  let x := extras_mut e in with_extras (ex_times secs (ex_crtime x) (ex_atime_nsec x) x) e.
Definition set_atime_nsec (nsec : Z) (e : FileEntry) : FileEntry :=
  let x := extras_mut e in with_extras (ex_times (ex_atime x) (ex_crtime x) nsec x) e.
Definition set_crtime (secs : Z) (e : FileEntry) : FileEntry :=
  let x := extras_mut e in with_extras (ex_times (ex_atime x) secs (ex_atime_nsec x) x) e.
Definition set_rdev (major minor : Z) (e : FileEntry) : FileEntry :=
  let x := extras_mut e in
  with_extras (ex_devices (ex_hardlink_dev x) (ex_hardlink_ino x) major minor
                 (Z.lor (ex_present x) EXTRAS_PRESENT_RDEV) x) e.
Definition set_hardlink_dev (dev : Z) (e : FileEntry) : FileEntry :=
  let x := extras_mut e in
  with_extras (ex_devices dev (ex_hardlink_ino x) (ex_rdev_major x) (ex_rdev_minor x)
                 (Z.lor (ex_present x) EXTRAS_PRESENT_HARDLINK_DEV) x) e.
Definition set_hardlink_ino (ino : Z) (e : FileEntry) : FileEntry :=
  let x := extras_mut e in
  with_extras (ex_devices (ex_hardlink_dev x) ino (ex_rdev_major x) (ex_rdev_minor x)
                 (Z.lor (ex_present x) EXTRAS_PRESENT_HARDLINK_DEV) x) e.
Definition set_dirname (dirname : list byte) (e : FileEntry) : FileEntry :=
  mkEntry (fe_name e) dirname (fe_size e) (fe_mtime e) (fe_extras e) (fe_uid e) (fe_gid e)
    (fe_mtime_nsec e) (fe_mode e) (fe_present e).

Definition reclaim_heap_data (e : FileEntry) : FileEntry := mkEntry [] [] 0 0 None 0 0 0 0 0.
Definition tombstone (e : FileEntry) : FileEntry := reclaim_heap_data e.

(** ** Bits *)

Lemma has_flag_lor a b m : has_flag (Z.lor a b) m = has_flag a m || has_flag b m.
Proof.
  unfold has_flag. rewrite Z.land_lor_distr_l, <-negb_andb. f_equal.
  apply eq_bool_prop_intro. rewrite andb_True, !Is_true_true, !Z.eqb_eq. apply Z.lor_eq_0_iff.
Qed.
