(* ===== verification/FlistSort.v ===== *)
(** * Order of the file list ([crates/protocol/src/flist/sort.rs], [dual.rs], [name_cmp.rs])

    Both ends sort the list and then refer to files by their place in it, so both must reach
    the same order.  The comparison, the sort of the receiver with its in-place permutation,
    and the sort of the sender that keeps a second array in step are translated here; the
    comparison is shown to be an order on the components of the paths.

    The standard library's stable sort is the insertion sort [sort_by]; of the unstable sort,
    whose result on equal elements is not specified, only its contract is used.  [None] stands
    for a panic or a loop that does not end. *)

From stdpp Require Import sorting strings.
From S2P Require Import Prelude Wildmatch Lookup FlistEntry.

Local Open Scope Z_scope.

(** ** Orderings and slices of the standard library *)

Section cmp.
Context {A : Type} (cmp : A → A → comparison).

(** [Ord::cmp] of slices. *)
Fixpoint lex_cmp (l k : list A) : comparison :=
  match l, k with
  | [], [] => Eq
  | [], _ :: _ => Lt
  | _ :: _, [] => Gt
  | x :: l, y :: k => match cmp x y with Eq => lex_cmp l k | c => c end
  end.

Fixpoint insert_by (x : A) (l : list A) : list A :=
  match l with
  | [] => [x]
  | y :: l' => match cmp x y with Gt => y :: insert_by x l' | _ => x :: l end
  end.

(** [slice::sort_by]: stable. *)
Definition sort_by (l : list A) : list A := foldr insert_by [] l.

Definition cmp_le (x y : A) : Prop := cmp x y ≠ Gt.

(** What the sorts of the standard library require of a comparison. *)
Record total_on (l : list A) : Prop := {
  total_opp : ∀ x y, x ∈ l → y ∈ l → cmp y x = CompOpp (cmp x y);
  total_trans : ∀ x y z, x ∈ l → y ∈ l → z ∈ l → cmp_le x y → cmp_le y z → cmp_le x z;
}.
End cmp.

(** The contract of [slice::sort_unstable_by]. *)
Definition sorts (sort : ∀ A : Type, (A → A → comparison) → list A → list A) : Prop :=
  ∀ (A : Type) (cmp : A → A → comparison) (l : list A), total_on cmp l →
  sort A cmp l ≡ₚ l ∧ StronglySorted (cmp_le cmp) (sort A cmp l).

(** [slice::swap] *)
Definition swap {A} (l : list A) (i j : nat) : option (list A) :=
  x ← l !! i; y ← l !! j; Some (<[j := x]> (<[i := y]> l)).

Definition byte_cmp (a b : byte) : comparison := uz a ?= uz b.
Notation bytes_cmp := (lex_cmp byte_cmp).

Fixpoint memrchr (c : byte) (s : list byte) : option nat :=
  match s with
  | [] => None
  | b :: s' =>
      match memrchr c s' with
      | Some p => Some (S p)
      | None => if decide (b = c) then Some 0%nat else None
      end
  end.

(** ** The comparison *)

Record SortKey := mkKey {
  sk_index : Z;
  sk_is_dir : bool;
  sk_last_slash : Z;
}.

Definition key_new (index : nat) (entry : FileEntry) : SortKey :=
  mkKey (wrap 32 (Z.of_nat index)) (is_dir entry)
    (match memrchr SLASH (name_bytes entry) with
     | Some p => wrap 32 (Z.of_nat p)
     | None => u32_max
     end).

Definition has_slash_at_or_after (k : SortKey) (pos : nat) : bool :=
  negb (sk_last_slash k =? u32_max) && (Z.of_nat pos <=? sk_last_slash k).

(** The byte at [i], with the implicit slash of a directory. *)
Definition char_at (s : list byte) (dir : bool) (i : nat) : byte :=
  match s !! i with
  | Some b => b
  | None => if (i =? length s)%nat && dir then SLASH else x00
  end.

Definition name_done (s : list byte) (dir : bool) (i : nat) : bool :=
  (length s <? i)%nat || ((i =? length s)%nat && negb dir).

(** The bytes are equal before [i]. *)
Fixpoint cmp_loop (fuel : nat) (a : list byte) (ka : SortKey) (b : list byte) (kb : SortKey)
    (i : nat) : option comparison :=
  match fuel with
  | 0%nat => None
  | S fuel' =>
      let ch_a := char_at a (sk_is_dir ka) i in
      let ch_b := char_at b (sk_is_dir kb) i in
      match name_done a (sk_is_dir ka) i, name_done b (sk_is_dir kb) i with
      | true, true => Some Eq
      | true, false => Some Lt
      | false, true => Some Gt
      | false, false =>
          if decide (ch_a = ch_b) then cmp_loop fuel' a ka b kb (S i)
          else
            match has_slash_at_or_after ka i || sk_is_dir ka,
                  has_slash_at_or_after kb i || sk_is_dir kb with
            | true, false => Some Gt
            | false, true => Some Lt
            | _, _ => Some (byte_cmp ch_a ch_b)
            end
      end
  end.

(** The name [.] comes first. *)
Definition dot_first (a b : list byte) (rest : comparison) : comparison :=
  match bool_decide (a = [x2e]), bool_decide (b = [x2e]) with
  | true, true => Eq
  | true, false => Lt
  | false, true => Gt
  | false, false => rest
  end.

(** The loop ends after at most one round more than the shorter name has bytes
    ([cmp_loop_eff]). *)
Definition compare_with_keys (a : list byte) (ka : SortKey) (b : list byte) (kb : SortKey)
    : comparison :=
  dot_first a b (default Eq (cmp_loop (length a + 3) a ka b kb 0)).

Definition compare_with_keys_pre29 (a b : list byte) : comparison := dot_first a b (bytes_cmp a b).

Definition compare_file_entries (a b : FileEntry) : comparison :=
  compare_with_keys (name_bytes a) (key_new 0 a) (name_bytes b) (key_new 0 b).

(** ** The receiver's sort *)

Definition key_index (k : SortKey) : nat := Z.to_nat (sk_index k).

Definition name_at (file_list : list FileEntry) (i : nat) : list byte :=
  from_option name_bytes [] (file_list !! i).

(** One cycle of the permutation, from position [i], now at [j]. *)
Fixpoint chase {A} (fuel : nat) (keys : list SortKey) (i j : nat) (file_list : list A)
    (placed : list Z) : option (list A * list Z) :=
  match fuel with
  | 0%nat => None
  | S fuel' =>
      k ← keys !! j;
      let target := key_index k in
      let placed := set_bit placed j in
      if (target =? i)%nat then Some (file_list, placed)
      else
        file_list ← swap file_list j target;
        chase fuel' keys i target file_list placed
  end.

Fixpoint place_from {A} (positions : list nat) (keys : list SortKey) (file_list : list A)
    (placed : list Z) : option (list A) :=
  match positions with
  | [] => Some file_list
  | i :: positions =>
      k ← keys !! i;
      if test_bit placed i || (key_index k =? i)%nat
      then place_from positions keys file_list (set_bit placed i)
      else
        '(file_list, placed) ← chase (S (length keys)) keys i i file_list placed;
        place_from positions keys file_list placed
  end.

Section sort_params.
Context (sort_unstable_by : ∀ A : Type, (A → A → comparison) → list A → list A).

Definition sort_with {A} (use_qsort : bool) (cmp : A → A → comparison) (l : list A) : list A :=
  if use_qsort then sort_unstable_by A cmp l else sort_by cmp l.

Definition sort_file_list (file_list : list FileEntry) (use_qsort protocol_pre29 : bool)
    : option (list FileEntry) :=
  let n := length file_list in
  if (n <=? 1)%nat then Some file_list
  else
    let keys := imap key_new file_list in
    let name k := name_at file_list (key_index k) in
    let keys :=
      if protocol_pre29
      then sort_with use_qsort (λ a b, compare_with_keys_pre29 (name a) (name b)) keys
      else sort_with use_qsort (λ a b, compare_with_keys (name a) a (name b) b) keys in
    place_from (seq 0 n) keys file_list (replicate (div_ceil n 64) 0).

(** ** The sender's sort *)

(** [dest_perm] is the inverse of the list of sources. *)
Fixpoint fill_dest (new_pos : nat) (source_indices : list nat) (dest_perm : list nat)
    : option (list nat) :=
  match source_indices with
  | [] => Some dest_perm
  | old_pos :: rest =>
      if (old_pos <? length dest_perm)%nat
      then fill_dest (S new_pos) rest (<[old_pos := new_pos]> dest_perm)
      else None
  end.

Fixpoint settle {A B} (fuel : nat) (i : nat) (slice_a : list A) (slice_b : list B)
    (dest_perm : list nat) : option (list A * list B * list nat) :=
  match fuel with
  | 0%nat => None
  | S fuel' =>
      j ← dest_perm !! i;
      if (j =? i)%nat then Some (slice_a, slice_b, dest_perm)
      else
        slice_a ← swap slice_a i j;
        slice_b ← swap slice_b i j;
        dest_perm ← swap dest_perm i j;
        settle fuel' i slice_a slice_b dest_perm
  end.

Fixpoint settle_all {A B} (positions : list nat) (slice_a : list A) (slice_b : list B)
    (dest_perm : list nat) : option (list A * list B) :=
  match positions with
  | [] => Some (slice_a, slice_b)
  | i :: positions =>
      '(slice_a, slice_b, dest_perm) ← settle (S (length dest_perm)) i slice_a slice_b dest_perm;
      settle_all positions slice_a slice_b dest_perm
  end.

Definition apply_permutation_in_place {A B} (slice_a : list A) (slice_b : list B)
    (source_indices : list nat) : option (list A * list B) :=
  let n := length slice_a in
  if (n =? 0)%nat then Some (slice_a, slice_b)
  else
    dest_perm ← fill_dest 0 source_indices (replicate n 0%nat);
    settle_all (seq 0 n) slice_a slice_b dest_perm.

Definition sort_with_parallel {P} (legacy : list FileEntry) (parallel : list P) (use_qsort : bool)
    : option (list FileEntry * list P) :=
  let n := length legacy in
  if (n =? 0)%nat then Some (legacy, parallel)
  else
    let cmp a b :=
      match legacy !! a, legacy !! b with
      | Some a, Some b => compare_file_entries a b
      | _, _ => Eq
      end in
    let indices := sort_with use_qsort cmp (seq 0 n) in
    apply_permutation_in_place legacy parallel indices.
End sort_params.

(** ** The simple comparison of names *)

Definition basename_bytes (e : FileEntry) : list byte :=
  let name := fe_name e in
  let dir := fe_dirname e in
  if decide (dir = []) then name
  else if decide (take (length dir) name = dir ∧ name !! length dir = Some SLASH)
  then drop (length dir + 1) name
  else
    match memrchr SLASH name with
    | Some pos => drop (pos + 1) name
    | None => name
    end.

Definition f_name_cmp_components (dir_a base_a dir_b base_b : list byte) : comparison :=
  match bytes_cmp dir_a dir_b with
  | Eq => bytes_cmp base_a base_b
  | c => c
  end.

Definition f_name_cmp (a b : FileEntry) : comparison :=
  match bytes_cmp (fe_dirname a) (fe_dirname b) with
  | Eq => bytes_cmp (basename_bytes a) (basename_bytes b)
  | c => c
  end.

Definition strip_trailing_slash (s : list byte) : list byte :=
  if decide (last s = Some SLASH) then take (length s - 1) s else s.

Definition name_cmp_eq (a b : FileEntry) : bool :=
  bool_decide (fe_dirname a = fe_dirname b) &&
  bool_decide (strip_trailing_slash (basename_bytes a) = strip_trailing_slash (basename_bytes b)).

(** ** Orders *)

Class CmpOrder {A} (cmp : A → A → comparison) : Prop := {
  cmp_eq : ∀ x y, cmp x y = Eq → x = y;
  cmp_opp : ∀ x y, cmp y x = CompOpp (cmp x y);
  cmp_lt_trans : ∀ x y z, cmp x y = Lt → cmp y z = Lt → cmp x z = Lt;
}.
Arguments cmp_eq {A} cmp {_} _ _ _.
Arguments cmp_opp {A} cmp {_} _ _.
Arguments cmp_lt_trans {A} cmp {_} _ _ _ _ _.

Lemma cmp_refl `{CmpOrder A cmp} x : cmp x x = Eq.
Proof. pose proof (cmp_opp cmp x x). by destruct (cmp x x). Qed.

Lemma cmp_le_cases `{CmpOrder A cmp} x y : cmp_le cmp x y → cmp x y = Lt ∨ x = y.
Proof.
  unfold cmp_le. destruct (cmp x y) eqn:E; [|by left|done]. intros _. right. by apply (cmp_eq cmp) in E.
Qed.

Lemma cmp_le_trans `{CmpOrder A cmp} x y z : cmp_le cmp x y → cmp_le cmp y z → cmp_le cmp x z.
Proof.
  intros [?| ->]%cmp_le_cases H2; [|done].
  destruct (cmp_le_cases _ _ H2) as [?|<-]; unfold cmp_le;
    [rewrite (cmp_lt_trans cmp x y z) by done|]; congruence.
Qed.

Lemma cmp_le_antisym `{CmpOrder A cmp} x y : cmp_le cmp x y → cmp_le cmp y x → x = y.
Proof.
  unfold cmp_le. rewrite (cmp_opp cmp x y). destruct (cmp x y) eqn:E; [|done..].
  intros _ _. by apply (cmp_eq cmp) in E.
Qed.

#[export] Instance byte_cmp_order : CmpOrder byte_cmp.
Proof.
  split; unfold byte_cmp; intros.
  - by apply uz_inj, Z.compare_eq.
  - apply Z.compare_antisym.
  - rewrite Z.compare_lt_iff in *. lia.
Qed.

#[export] Instance lex_cmp_order `{CmpOrder A cmp} : CmpOrder (lex_cmp cmp).
Proof.
  split.
  - induction x as [|x l IH]; intros [|y k]; cbn [lex_cmp]; try done.
    destruct (cmp x y) eqn:E; [|done..]. intros Hl. apply (cmp_eq cmp) in E as <-. by rewrite (IH k).
  - induction x as [|x l IH]; intros [|y k]; cbn [lex_cmp]; try done.
    rewrite (cmp_opp cmp x y). by destruct (cmp x y) eqn:E; cbn [CompOpp].
  - induction x as [|x l IH]; intros [|y k] [|z m]; cbn [lex_cmp]; try done.
    destruct (cmp x y) eqn:Exy; [|intros _|done].
    + apply (cmp_eq cmp) in Exy as ->. destruct (cmp y z); [apply IH|done..].
    + destruct (cmp y z) eqn:Eyz; [|intros _|done].
      * apply (cmp_eq cmp) in Eyz as <-. by rewrite Exy.
      * by rewrite (cmp_lt_trans cmp x y z).
Qed.

(** Keys that are compared by their first component first. *)
Definition pair_cmp {A B} (f : A → A → comparison) (g : B → B → comparison) (x y : A * B)
    : comparison :=
  match f x.1 y.1 with Eq => g x.2 y.2 | c => c end.

#[export] Instance pair_cmp_order `{CmpOrder A f} `{CmpOrder B g} : CmpOrder (pair_cmp f g).
Proof.
  split; unfold pair_cmp.
  - intros [a b] [a' b']; cbn. destruct (f a a') eqn:E; [|done..].
    intros Hg. apply (cmp_eq f) in E as <-. by apply (cmp_eq g) in Hg as <-.
  - intros [a b] [a' b']; cbn. rewrite (cmp_opp f a a').
    destruct (f a a'); cbn [CompOpp]; [apply (cmp_opp g)|done..].
  - intros [a b] [a' b'] [a2 b2]; cbn.
    destruct (f a a') eqn:E1; [|intros _|done].
    + apply (cmp_eq f) in E1 as ->. destruct (f a' a2); [apply (cmp_lt_trans g)|done..].
    + destruct (f a' a2) eqn:E2; [|intros _|done].
      * apply (cmp_eq f) in E2 as <-. by rewrite E1.
      * by rewrite (cmp_lt_trans f a a' a2).
Qed.

#[export] Instance bool_cmp_order : CmpOrder Bool.compare.
Proof.
  split; [by intros [] []|by intros [] []|by intros [] [] []].
Qed.

(** ** What the comparison means *)

(** The components of a path, each with the slash after it. *)
Fixpoint segments (s : list byte) : list (list byte) :=
  match s with
  | [] => []
  | b :: s' =>
      if decide (b = SLASH) then [b] :: segments s'
      else
        match segments s' with
        | [] => [[b]]
        | seg :: rest => (b :: seg) :: rest
        end
  end.

Definition is_dir_seg (s : list byte) : bool := bool_decide (last s = Some SLASH).

(** Files before directories, then byte by byte. *)
Definition seg_key (s : list byte) : bool * list byte := (is_dir_seg s, s).
Definition seg_cmp (s t : list byte) : comparison :=
  pair_cmp Bool.compare bytes_cmp (seg_key s) (seg_key t).

(** A directory ends in a slash, whether or not its name does. *)
Definition effective_name (s : list byte) (dir : bool) : list byte := s ++ if dir then [SLASH] else [].

Definition order_key (e : FileEntry) : bool * list (list byte) :=
  if decide (fe_name e = [x2e]) then (false, [])
  else (true, segments (effective_name (fe_name e) (is_dir e))).

(** The order of the list from protocol 29 on: the name [.] first, then by the components. *)
Definition entry_order (a b : FileEntry) : comparison :=
  pair_cmp Bool.compare (lex_cmp seg_cmp) (order_key a) (order_key b).

#[export] Instance seg_cmp_order : CmpOrder seg_cmp.
Proof.
  split; unfold seg_cmp; intros.
  - by assert (seg_key x = seg_key y) as [= _ ->]
      by (by apply (cmp_eq (pair_cmp Bool.compare bytes_cmp))).
  - apply (cmp_opp (pair_cmp Bool.compare bytes_cmp)).
  - by apply (cmp_lt_trans (pair_cmp Bool.compare bytes_cmp) _ (seg_key y)).
Qed.

(** The comparison of two effective names, byte by byte. *)
Fixpoint eff_cmp (u v : list byte) : comparison :=
  match u, v with
  | [], [] => Eq
  | [], _ :: _ => Lt
  | _ :: _, [] => Gt
  | a :: u', b :: v' =>
      if decide (a = b) then eff_cmp u' v'
      else
        match bool_decide (SLASH ∈ u), bool_decide (SLASH ∈ v) with
        | true, false => Gt
        | false, true => Lt
        | _, _ => byte_cmp a b
        end
  end.

Lemma segments_nil s : segments s = [] → s = [].
Proof.
  destruct s as [|b s]; [done|]. cbn [segments].
  destruct (decide (b = SLASH)); [done|]. by destruct (segments s).
Qed.

(** The first component ends in a slash exactly if there is one. *)
Lemma segments_head b s : ∃ seg rest, segments (b :: s) = (b :: seg) :: rest ∧
  is_dir_seg (b :: seg) = bool_decide (SLASH ∈ b :: s).
Proof.
  revert b. induction s as [|c s IH]; intros b.
  - cbn [segments]. destruct (decide (b = SLASH)) as [->|Hb].
    + exists [], []. split; [done|]. by rewrite bool_decide_true by set_solver.
    + exists [], []. split; [done|]. unfold is_dir_seg. cbn [last].
      apply bool_decide_ext. rewrite list_elem_of_singleton. naive_solver.
  - destruct (IH c) as (seg & rest & E & Hd). remember (c :: s) as s'. cbn [segments].
    destruct (decide (b = SLASH)) as [->|Hb].
    + exists [], (segments s'). split; [done|]. by rewrite bool_decide_true by set_solver.
    + rewrite E. exists (c :: seg), rest. split; [done|].
      transitivity (is_dir_seg (c :: seg)); [done|]. rewrite Hd.
      apply bool_decide_ext. set_solver.
Qed.

Lemma seg_cmp_cons a s t : s ≠ [] → t ≠ [] → seg_cmp (a :: s) (a :: t) = seg_cmp s t.
Proof.
  intros Hs Ht. unfold seg_cmp, pair_cmp. cbn [seg_key fst snd lex_cmp].
  rewrite (cmp_refl (cmp := byte_cmp)).
  destruct s as [|x s]; [done|]. by destruct t as [|y t].
Qed.

Lemma seg_cmp_diff a s b t : a ≠ b → seg_cmp (a :: s) (b :: t) =
  match is_dir_seg (a :: s), is_dir_seg (b :: t) with
  | true, false => Gt | false, true => Lt | _, _ => byte_cmp a b
  end.
Proof.
  intros Hab. unfold seg_cmp, pair_cmp. cbn [seg_key fst snd lex_cmp].
  assert (byte_cmp a b ≠ Eq) by (by intros ?%(cmp_eq byte_cmp)).
  destruct (is_dir_seg (a :: s)), (is_dir_seg (b :: t)); cbn; by destruct (byte_cmp a b).
Qed.

Lemma lex_cmp_head `{CmpOrder A cmp} x l k : lex_cmp cmp (x :: l) (x :: k) = lex_cmp cmp l k.
Proof. cbn [lex_cmp]. by rewrite cmp_refl. Qed.

Lemma seg_cmp_singleton a s : s ≠ [] → seg_cmp [a] (a :: s) = Lt ∨ a = SLASH.
Proof.
  intros Hs. destruct (decide (a = SLASH)) as [|Ha]; [by right|left].
  unfold seg_cmp, pair_cmp. cbn [seg_key fst snd].
  replace (is_dir_seg [a]) with false
    by (unfold is_dir_seg; rewrite bool_decide_false; [done|]; cbn [last]; congruence).
  destruct (is_dir_seg (a :: s)); [done|]. cbn [Bool.compare].
  rewrite lex_cmp_head. by destruct s.
Qed.

(** Comparing byte by byte with the look ahead is comparing the components. *)
Lemma eff_cmp_segments u v : eff_cmp u v = lex_cmp seg_cmp (segments u) (segments v).
Proof.
  revert v. induction u as [|a u IH]; intros [|b v].
  - done.
  - destruct (segments_head b v) as (s & r & -> & _). done.
  - destruct (segments_head a u) as (s & r & -> & _). done.
  - cbn [eff_cmp]. destruct (decide (a = b)) as [<-|Hab].
    + rewrite IH. cbn [segments]. destruct (decide (a = SLASH)) as [->|Ha].
      { by rewrite lex_cmp_head. }
      destruct u as [|c u], v as [|d v].
      * cbn [segments lex_cmp]. by rewrite (cmp_refl (cmp := seg_cmp)).
      * destruct (segments_head d v) as (s & r & -> & _). cbn [segments lex_cmp].
        by destruct (seg_cmp_singleton a (d :: s)) as [->|?].
      * destruct (segments_head c u) as (s & r & -> & _). cbn [segments lex_cmp].
        rewrite (cmp_opp seg_cmp [a]). by destruct (seg_cmp_singleton a (c :: s)) as [->|?].
      * destruct (segments_head d v) as (s & r & -> & _), (segments_head c u) as (s' & r' & -> & _).
        cbn [lex_cmp]. by rewrite seg_cmp_cons by done.
    + destruct (segments_head a u) as (s & r & -> & <-), (segments_head b v) as (s' & r' & -> & <-).
      cbn [lex_cmp]. rewrite seg_cmp_diff by done.
      assert (byte_cmp a b ≠ Eq) by (by intros ?%(cmp_eq byte_cmp)).
      by destruct (is_dir_seg (a :: s)), (is_dir_seg (b :: s')); try destruct (byte_cmp a b).
Qed.

(** ** The loop *)

Lemma memrchr_spec c s i : (i ≤ length s)%nat →
  bool_decide (c ∈ drop i s) = match memrchr c s with Some p => (i <=? p)%nat | None => false end.
Proof.
  revert i. induction s as [|b s IH]; intros i Hi; cbn [memrchr].
  { rewrite drop_nil. by apply bool_decide_false, not_elem_of_nil. }
  destruct i as [|i].
  - pose proof (IH 0%nat ltac:(lia)) as H0. rewrite drop_0 in H0. rewrite drop_0.
    destruct (memrchr c s) as [p|].
    + apply bool_decide_eq_true in H0. apply bool_decide_true. set_solver.
    + apply bool_decide_eq_false in H0. destruct (decide (b = c)) as [->|Hb].
      * by rewrite bool_decide_true by set_solver.
      * apply bool_decide_false. set_solver.
  - cbn [drop]. cbn [length] in Hi. rewrite IH by lia. destruct (memrchr c s); [done|].
    by destruct (decide (b = c)).
Qed.

(** Positions fit the [u32] of a key, and none is its value for no slash. *)
Definition short_name (e : FileEntry) : Prop := Z.of_nat (length (fe_name e)) ≤ u32_max.

Lemma has_slash_spec n e i : short_name e → (i ≤ length (fe_name e))%nat →
  has_slash_at_or_after (key_new n e) i = bool_decide (SLASH ∈ drop i (fe_name e)).
Proof.
  intros Hs Hi. rewrite memrchr_spec by done. unfold has_slash_at_or_after, key_new, name_bytes.
  cbn [sk_last_slash]. unfold short_name in Hs.
  destruct (memrchr SLASH (fe_name e)) as [p|] eqn:Ep; [|done].
  assert (p < length (fe_name e))%nat.
  { destruct (decide (p < length (fe_name e))%nat) as [|Hp]; [done|].
    pose proof (memrchr_spec SLASH (fe_name e) (length (fe_name e)) ltac:(done)) as H.
    rewrite Ep, drop_all in H. rewrite bool_decide_false in H by apply not_elem_of_nil.
    symmetry in H. apply Nat.leb_gt in H. lia. }
  unfold u32_max in *. rewrite wrap_small by (unfold in_u; lia).
  rewrite (proj2 (Z.eqb_neq _ _)) by lia. cbn [negb andb].
  destruct (Nat.leb_spec i p); [apply Z.leb_le|apply Z.leb_gt]; lia.
Qed.

Lemma name_done_eff s dir i : name_done s dir i = (length (effective_name s dir) <=? i)%nat.
Proof.
  unfold name_done, effective_name. rewrite length_app.
  destruct dir; cbn [length negb]; rewrite ?andb_false_r, ?andb_true_r, ?orb_false_r.
  - destruct (Nat.ltb_spec (length s) i), (Nat.leb_spec (length s + 1) i); try done; lia.
  - destruct (Nat.ltb_spec (length s) i), (Nat.eqb_spec i (length s)),
      (Nat.leb_spec (length s + 0) i); try done; lia.
Qed.

Lemma char_at_eff s dir i c : effective_name s dir !! i = Some c → char_at s dir i = c.
Proof.
  unfold effective_name, char_at. intros H. destruct (s !! i) as [b|] eqn:E.
  - rewrite lookup_app_l in H by (by eapply lookup_lt_Some). congruence.
  - apply lookup_ge_None in E. rewrite lookup_app_r in H by done.
    destruct dir; [|done]. apply list_lookup_singleton_Some in H as [Hi <-].
    by rewrite (proj2 (Nat.eqb_eq i (length s))) by lia.
Qed.

Lemma slash_ahead s dir i : (i < length (effective_name s dir))%nat →
  bool_decide (SLASH ∈ drop i s) || dir = bool_decide (SLASH ∈ drop i (effective_name s dir)).
Proof.
  unfold effective_name. rewrite length_app. destruct dir; intros Hi.
  - rewrite orb_true_r, bool_decide_true; [done|]. rewrite drop_app_le by (cbn in Hi; lia).
    set_solver.
  - by rewrite orb_false_r, app_nil_r.
Qed.

Lemma eff_index s dir i : (i < length (effective_name s dir))%nat → (i ≤ length s)%nat.
Proof. unfold effective_name. rewrite length_app. destruct dir; cbn [length]; lia. Qed.

(** The loop ends and compares the effective names. *)
Lemma cmp_loop_eff fuel n m a b i : short_name a → short_name b →
  let ea := effective_name (fe_name a) (is_dir a) in
  let eb := effective_name (fe_name b) (is_dir b) in
  (i ≤ length ea)%nat → (i ≤ length eb)%nat → (length ea - i < fuel)%nat →
  cmp_loop fuel (fe_name a) (key_new n a) (fe_name b) (key_new m b) i =
  Some (eff_cmp (drop i ea) (drop i eb)).
Proof.
  intros Ha Hb ea eb. revert i. induction fuel as [|fuel IH]; intros i Hia Hib Hf; [lia|].
  cbn [cmp_loop]. change (sk_is_dir (key_new n a)) with (is_dir a).
  change (sk_is_dir (key_new m b)) with (is_dir b).
  rewrite !name_done_eff. fold ea eb.
  destruct (Nat.leb_spec (length ea) i) as [Ga|La], (Nat.leb_spec (length eb) i) as [Gb|Lb].
  - by rewrite !drop_ge by done.
  - rewrite (drop_ge ea) by done. destruct (drop i eb) eqn:E; [|done].
    apply (f_equal length) in E. rewrite length_drop in E. cbn in E. lia.
  - rewrite (drop_ge eb) by done. destruct (drop i ea) eqn:E; [|done].
    apply (f_equal length) in E. rewrite length_drop in E. cbn in E. lia.
  - destruct (lookup_lt_is_Some_2 ea i La) as [x Hx], (lookup_lt_is_Some_2 eb i Lb) as [y Hy].
    rewrite (char_at_eff _ _ _ x), (char_at_eff _ _ _ y) by done.
    rewrite !has_slash_spec by (done || by eapply eff_index). rewrite !slash_ahead by done. fold ea eb.
    rewrite (drop_S _ _ _ Hx), (drop_S _ _ _ Hy). cbn [eff_cmp].
    destruct (decide (x = y)) as [<-|Hxy]; [apply IH; lia|].
    by destruct (bool_decide _), (bool_decide _).
Qed.

Lemma compare_with_keys_order n m a b : short_name a → short_name b →
  compare_with_keys (name_bytes a) (key_new n a) (name_bytes b) (key_new m b) = entry_order a b.
Proof.
  intros Ha Hb. unfold compare_with_keys, name_bytes.
  rewrite cmp_loop_eff; try done; [|lia..|].
  2: { unfold effective_name. rewrite length_app. destruct (is_dir a); cbn [length]; lia. }
  cbn [from_option default]. rewrite !drop_0, eff_cmp_segments.
  unfold dot_first, entry_order, order_key, pair_cmp.
  rewrite !bool_decide_decide.
  by destruct (decide (fe_name a = [x2e])), (decide (fe_name b = [x2e])).
Qed.

(** Comparisons by a key. *)
Lemma total_by_key {A K} (key : A → K) (kcmp : K → K → comparison) `{!CmpOrder kcmp}
    (cmp : A → A → comparison) l :
  (∀ x y, x ∈ l → y ∈ l → cmp x y = kcmp (key x) (key y)) → total_on cmp l.
Proof.
  intros H. split.
  - intros x y Hx Hy. rewrite !H by done. apply (cmp_opp kcmp).
  - unfold cmp_le. intros x y z Hx Hy Hz. rewrite !H by done.
    apply (cmp_le_trans (cmp := kcmp)).
Qed.

(** ** The stable sort *)

Section sort_by.
Context {A : Type} (cmp : A → A → comparison).

Lemma insert_by_perm x l : insert_by cmp x l ≡ₚ x :: l.
Proof.
  induction l as [|y l IH]; cbn [insert_by]; [done|].
  destruct (cmp x y); [done..|]. rewrite IH. apply Permutation_swap.
Qed.

Lemma sort_by_perm l : sort_by cmp l ≡ₚ l.
Proof. induction l as [|x l IH]; [done|]. cbn. rewrite insert_by_perm. by constructor. Qed.

Lemma total_on_sub l k : k ⊆ l → total_on cmp l → total_on cmp k.
Proof. intros Hs [H1 H2]. split; [auto|]. intros x y z ???. eapply H2; auto. Qed.

Lemma insert_by_ordered x l : total_on cmp (x :: l) → StronglySorted (cmp_le cmp) l →
  StronglySorted (cmp_le cmp) (insert_by cmp x l).
Proof.
  intros Ht Hl. induction Hl as [|y l Hl IH Hy]; cbn [insert_by].
  { repeat constructor. }
  assert (cmp_le cmp x y → StronglySorted (cmp_le cmp) (x :: y :: l)) as Hfront.
  { intros Hxy. constructor; [by constructor|]. constructor; [done|].
    rewrite Forall_forall in *. intros z Hz. eapply (total_trans _ _ Ht _ y); set_solver. }
  destruct (cmp x y) eqn:E; [by apply Hfront; unfold cmp_le; rewrite E..|].
  constructor.
  - apply IH. by eapply total_on_sub; [|done]; set_solver.
  - rewrite insert_by_perm. constructor; [|done].
    unfold cmp_le. rewrite (total_opp _ _ Ht x y), E; [done|set_solver..].
Qed.

Lemma sort_by_ordered l : total_on cmp l → StronglySorted (cmp_le cmp) (sort_by cmp l).
Proof.
  induction l as [|x l IH]; intros Ht; [constructor|]. apply insert_by_ordered.
  - eapply total_on_sub; [|done]. intros y. rewrite sort_by_perm. done.
  - apply IH. eapply total_on_sub; [|done]. set_solver.
Qed.

(** Entries that compare equal keep their order. *)
Lemma sort_by_stable l e : total_on cmp l → e ∈ l →
  filter (λ x, cmp e x = Eq) (sort_by cmp l) = filter (λ x, cmp e x = Eq) l.
Proof.
  intros Ht He.
  assert (∀ k x, x :: k ⊆ l → filter (λ x, cmp e x = Eq) (insert_by cmp x k) =
                    filter (λ x, cmp e x = Eq) (x :: k)) as Hins.
  { induction k as [|y k IH]; intros x Hs; [done|]. cbn [insert_by].
    destruct (cmp x y) eqn:E; [done..|]. rewrite filter_cons, IH, !filter_cons by set_solver.
    destruct (decide (cmp e x = Eq)) as [Hx|], (decide (cmp e y = Eq)) as [Hy|]; try done.
    exfalso. apply (total_trans _ _ Ht x e y); unfold cmp_le; try set_solver.
    - rewrite (total_opp _ _ Ht e x), Hx; [done|set_solver..].
    - by rewrite Hy. }
  enough (∀ k, k ⊆ l → filter (λ x, cmp e x = Eq) (sort_by cmp k) = filter (λ x, cmp e x = Eq) k)
    by auto.
  induction k as [|x k IH]; intros Hs; [done|].
  change (sort_by cmp (x :: k)) with (insert_by cmp x (sort_by cmp k)).
  rewrite Hins by (intros y; rewrite (sort_by_perm k); auto). rewrite !filter_cons, IH by set_solver.
  done.
Qed.
End sort_by.

Lemma sort_by_sorts : sorts (λ A, sort_by).
Proof. intros A cmp l Ht. split; [apply sort_by_perm|by apply sort_by_ordered]. Qed.

Lemma sort_by_map {A B} (f : A → B) (cmpa : A → A → comparison) (cmpb : B → B → comparison) l :
  (∀ x y, x ∈ l → y ∈ l → cmpa x y = cmpb (f x) (f y)) →
  map f (sort_by cmpa l) = sort_by cmpb (map f l).
Proof.
  intros H.
  assert (∀ k x, x :: k ⊆ l → map f (insert_by cmpa x k) = insert_by cmpb (f x) (map f k)) as Hins.
  { induction k as [|y k IH]; intros x Hs; [done|]. cbn [insert_by map].
    rewrite <-H by set_solver. destruct (cmpa x y); [done..|]. cbn [map]. f_equal. apply IH. set_solver. }
  enough (∀ k, k ⊆ l → map f (sort_by cmpa k) = sort_by cmpb (map f k)) by auto.
  induction k as [|x k IH]; intros Hs; [done|].
  change (sort_by cmpa (x :: k)) with (insert_by cmpa x (sort_by cmpa k)).
  rewrite Hins by (intros y; rewrite (sort_by_perm cmpa k); auto). rewrite IH by set_solver. done.
Qed.

(** ** Permuting in place *)

Lemma swap_Some {A} (l : list A) i j : (i < length l)%nat → (j < length l)%nat →
  ∃ l', swap l i j = Some l' ∧ length l' = length l ∧
  ∀ x, l' !! x = if decide (x = j) then l !! i else if decide (x = i) then l !! j else l !! x.
Proof.
  intros Hi Hj. destruct (lookup_lt_is_Some_2 l i Hi) as [x Hx], (lookup_lt_is_Some_2 l j Hj) as [y Hy].
  eexists. unfold swap. rewrite Hx, Hy. cbn [mbind option_bind].
  split; [done|]. split; [by rewrite !length_insert|]. intros z.
  destruct (decide (z = j)) as [->|]; [by rewrite list_lookup_insert_eq by (by rewrite length_insert)|].
  rewrite list_lookup_insert_ne by done.
  destruct (decide (z = i)) as [->|]; [by rewrite list_lookup_insert_eq|].
  by rewrite list_lookup_insert_ne.
Qed.

(** Positions that are not yet placed. *)
Definition open_positions (n : nat) (placed : list Z) : nat :=
  length (filter (λ x, test_bit placed x = false) (seq 0 n)).

Lemma filter_length_lt {A} (P Q : A → Prop) `{∀ x, Decision (P x), ∀ x, Decision (Q x)} l x :
  (∀ y, Q y → P y) → x ∈ l → P x → ¬ Q x →
  (length (filter Q l) < length (filter P l))%nat.
Proof.
  intros HQP Hx HP HQ. induction l as [|y l IH]; [set_solver|].
  assert (length (filter Q l) ≤ length (filter P l))%nat as Hle.
  { clear -HQP. induction l as [|z l IH]; [done|]. rewrite !filter_cons.
    destruct (decide (Q z)), (decide (P z)); cbn [length]; try lia. naive_solver. }
  rewrite !filter_cons. apply elem_of_cons in Hx as [<-|Hx].
  - rewrite (decide_False (P := Q _)), (decide_True (P := P _)) by done. cbn [length]. lia.
  - specialize (IH Hx). destruct (decide (Q y)), (decide (P y)); cbn [length]; try lia. naive_solver.
Qed.

Section place.
Context {A : Type} (l : list A) (keys : list SortKey) (σ : nat → nat).
Let n := length l.
Context (Hlen : length keys = n)
  (Hkeys : ∀ i k, keys !! i = Some k → key_index k = σ i)
  (Hrange : ∀ i, (i < n)%nat → (σ i < n)%nat)
  (Hinj : ∀ i j, (i < n)%nat → (j < n)%nat → σ i = σ j → i = j).

(** What holds between the cycles: placed positions have their final entry, the others the
    one they had, and the placed positions are closed under the inverse of the permutation. *)
Record placed_ok (cur : list A) (placed : list Z) : Prop := {
  po_len : length cur = n;
  po_words : length placed = div_ceil n 64;
  po_done : ∀ x, (x < n)%nat → test_bit placed x = true → cur !! x = l !! σ x;
  po_open : ∀ x, (x < n)%nat → test_bit placed x = false → cur !! x = l !! x;
  po_pre : ∀ y, (y < n)%nat → test_bit placed y = true →
           ∃ x, (x < n)%nat ∧ test_bit placed x = true ∧ σ x = y;
}.

(** The same inside the cycle of [i], where [j] holds the entry of [i]. *)
Record chase_ok (i j : nat) (cur : list A) (placed : list Z) : Prop := {
  co_i : (i < n)%nat;
  co_j : (j < n)%nat;
  co_len : length cur = n;
  co_words : length placed = div_ceil n 64;
  co_now : test_bit placed j = false;
  co_start : i = j ∨ test_bit placed i = true;
  co_held : cur !! j = l !! i;
  co_done : ∀ x, (x < n)%nat → test_bit placed x = true → cur !! x = l !! σ x;
  co_open : ∀ x, (x < n)%nat → test_bit placed x = false → x ≠ j → cur !! x = l !! x;
  co_pre : ∀ y, (y < n)%nat → test_bit placed y = true ∨ y = j →
           y = i ∨ ∃ x, (x < n)%nat ∧ test_bit placed x = true ∧ σ x = y;
}.

Lemma test_placed placed i x : length placed = div_ceil n 64 → (i < n)%nat →
  test_bit (set_bit placed i) x = bool_decide (i = x) || test_bit placed x.
Proof. intros Hw Hi. apply test_set_bit. rewrite Hw. by apply word_of_block. Qed.

Lemma chase_last i j cur placed : chase_ok i j cur placed → σ j = i →
  placed_ok cur (set_bit placed j).
Proof.
  intros [Hi Hj Hl Hw Hnow Hstart Hheld Hdone Hopen Hpre] Hσ. split; [done|by rewrite length_set_bit|..].
  - intros x Hx. rewrite test_placed by done. destruct (bool_decide_reflect (j = x)) as [<-|].
    + intros _. congruence.
    + by apply Hdone.
  - intros x Hx. rewrite test_placed by done. destruct (bool_decide_reflect (j = x)); [done|].
    intros ?. by apply Hopen.
  - intros y Hy. rewrite test_placed by done. intros Hp.
    assert (test_bit placed y = true ∨ y = j) as Hp'
      by (destruct (bool_decide_reflect (j = y)); auto).
    destruct (Hpre y Hy Hp') as [->|(x & ? & ? & ?)].
    + exists j. rewrite test_placed, bool_decide_true by done. done.
    + exists x. rewrite test_placed by done. split_and!; [done| |done]. apply orb_true_intro; by right.
Qed.

Lemma chase_step i j cur placed : chase_ok i j cur placed → σ j ≠ i →
  ∃ cur', swap cur j (σ j) = Some cur' ∧ chase_ok i (σ j) cur' (set_bit placed j).
Proof.
  intros [Hi Hj Hl Hw Hnow Hstart Hheld Hdone Hopen Hpre] Hσ.
  assert (σ j < n)%nat as Ht by auto.
  assert (test_bit placed (σ j) = false ∧ σ j ≠ j) as [Hnt Hne].
  { assert (¬ (test_bit placed (σ j) = true ∨ σ j = j)) as Hn.
    { intros Hp. destruct (Hpre _ Ht Hp) as [?|(x & Hx & Hpx & E)]; [done|].
      apply Hinj in E; [|done..]. congruence. }
    destruct (test_bit placed (σ j)); naive_solver. }
  destruct (swap_Some cur j (σ j)) as (cur' & Hs & Hl' & Hlook); [lia..|].
  exists cur'. split; [done|]. split; [done|done|lia|by rewrite length_set_bit|..].
  - rewrite test_placed by done. by rewrite bool_decide_false.
  - right. rewrite test_placed by done.
    destruct Hstart as [->|Hp]; [by rewrite bool_decide_true|apply orb_true_intro; by right].
  - by rewrite Hlook, decide_True.
  - intros x Hx. rewrite test_placed, Hlook by done. destruct (bool_decide_reflect (j = x)) as [<-|].
    + intros _. rewrite decide_False, decide_True by done. by apply Hopen.
    + cbn [orb]. intros Hp. rewrite decide_False by congruence. rewrite decide_False by done. by apply Hdone.
  - intros x Hx. rewrite test_placed, Hlook by done. destruct (bool_decide_reflect (j = x)); [done|].
    cbn [orb]. intros Hp Hxt. rewrite !decide_False by done. by apply Hopen.
  - intros y Hy. rewrite test_placed by done. intros Hp.
    destruct (decide (y = σ j)) as [->|Hyt].
    { right. exists j. rewrite test_placed, bool_decide_true by done. done. }
    assert (test_bit placed y = true ∨ y = j) as Hp'
      by (destruct Hp as [Hp|]; [|done]; destruct (bool_decide_reflect (j = y)); auto).
    destruct (Hpre y Hy Hp') as [->|(x & ? & ? & ?)]; [by left|right].
    exists x. rewrite test_placed by done. split_and!; [done| |done].
    apply orb_true_intro; by right.
Qed.

Lemma chase_ends fuel i j cur placed : chase_ok i j cur placed →
  (open_positions n placed < fuel)%nat →
  ∃ cur' placed', chase fuel keys i j cur placed = Some (cur', placed') ∧
  placed_ok cur' placed' ∧ test_bit placed' i = true ∧
  ∀ x, (x < n)%nat → test_bit placed x = true → test_bit placed' x = true.
Proof.
  revert j cur placed. induction fuel as [|fuel IH]; intros j cur placed Hok Hf; [lia|].
  pose proof (co_j _ _ _ _ Hok) as Hj. pose proof (co_words _ _ _ _ Hok) as Hw.
  destruct (lookup_lt_is_Some_2 keys j ltac:(lia)) as [k Hk].
  cbn [chase]. rewrite Hk. cbn [mbind option_bind]. rewrite (Hkeys _ _ Hk).
  assert (∀ x, (x < n)%nat → test_bit placed x = true → test_bit (set_bit placed j) x = true) as Hm.
  { intros x Hx Hp. rewrite test_placed by done. apply orb_true_intro; by right. }
  destruct (Nat.eqb_spec (σ j) i) as [Hσ|Hσ].
  - exists cur, (set_bit placed j). split; [done|]. pose proof (chase_last _ _ _ _ Hok Hσ) as Hp.
    split_and!; [done| |done].
    destruct (co_start _ _ _ _ Hok) as [->|]; [by rewrite test_placed, bool_decide_true|].
    apply Hm; [apply Hok|done].
  - destruct (chase_step _ _ _ _ Hok Hσ) as (cur' & -> & Hok'). cbn [mbind option_bind].
    destruct (IH _ _ _ Hok') as (cur2 & placed2 & E & Hp & Hi & Hm2).
    { assert (open_positions n (set_bit placed j) < open_positions n placed)%nat; [|lia].
      apply (filter_length_lt _ _ _ j); [|apply elem_of_seq; lia|apply Hok|].
      - intros y Hy. rewrite test_placed in Hy by done. by destruct (bool_decide (j = y)).
      - rewrite test_placed, bool_decide_true by done. done. }
    exists cur2, placed2. split_and!; auto.
Qed.

(** A position that is placed, or that keeps its entry. *)
Lemma place_fixed i cur placed : placed_ok cur placed → (i < n)%nat →
  test_bit placed i = true ∨ σ i = i → placed_ok cur (set_bit placed i).
Proof.
  intros [Hl Hw Hdone Hopen Hpre] Hi Hor. split; [done|by rewrite length_set_bit|..].
  - intros x Hx. rewrite test_placed by done. destruct (bool_decide_reflect (i = x)) as [<-|].
    + intros _. destruct (test_bit placed i) eqn:E; [by apply Hdone|].
      destruct Hor as [|Hσ]; [done|]. rewrite Hσ. by apply Hopen.
    + by apply Hdone.
  - intros x Hx. rewrite test_placed by done. destruct (bool_decide_reflect (i = x)); [done|].
    by apply Hopen.
  - intros y Hy. rewrite test_placed by done. intros Hp.
    destruct (test_bit placed y) eqn:E.
    + destruct (Hpre y Hy E) as (x & ? & ? & ?). exists x. rewrite test_placed by done.
      split_and!; [done| |done]. apply orb_true_intro; by right.
    + rewrite orb_false_r in Hp. apply bool_decide_eq_true in Hp as <-.
      destruct Hor as [|Hσ]; [congruence|]. exists i. rewrite test_placed, bool_decide_true by done. done.
Qed.

Lemma open_positions_le placed : (open_positions n placed ≤ n)%nat.
Proof. unfold open_positions. etrans; [apply length_filter|]. by rewrite length_seq. Qed.

Lemma place_from_ends i cur placed : (i ≤ n)%nat → placed_ok cur placed →
  (∀ x, (x < i)%nat → test_bit placed x = true) →
  ∃ cur', place_from (seq i (n - i)) keys cur placed = Some cur' ∧ length cur' = n ∧
  ∀ x, (x < n)%nat → cur' !! x = l !! σ x.
Proof.
  intros Hi. remember (n - i)%nat as m eqn:Em. revert i Hi Em cur placed.
  induction m as [|m IH]; intros i Hi Em cur placed Hok Hbelow.
  { exists cur. cbn [seq place_from]. split_and!; [done|apply Hok|]. intros x Hx.
    apply Hok; [done|]. apply Hbelow. lia. }
  cbn [seq place_from]. destruct (lookup_lt_is_Some_2 keys i ltac:(lia)) as [k Hk].
  rewrite Hk. cbn [mbind option_bind]. rewrite (Hkeys _ _ Hk).
  pose proof (po_words _ _ Hok) as Hw.
  destruct (test_bit placed i || (σ i =? i)%nat) eqn:E.
  - apply IH; [lia..| |].
    + apply place_fixed; [done|lia|]. apply orb_prop in E as [?|?%Nat.eqb_eq]; auto.
    + intros x Hx. rewrite test_placed by (done || lia).
      destruct (bool_decide_reflect (i = x)); [done|]. apply Hbelow. lia.
  - apply orb_false_elim in E as [Eb Eσ]. apply Nat.eqb_neq in Eσ.
    destruct (chase_ends (S (length keys)) i i cur placed) as (cur' & placed' & -> & Hok' & Hi' & Hm).
    + destruct Hok as [Hl _ Hdone Hopen Hpre].
      split; [lia|lia|done|done|done|by left|by apply Hopen; [lia|]|done|auto|].
      intros y Hy [Hp| ->]; [right; by apply Hpre|by left].
    + pose proof (open_positions_le placed). lia.
    + cbn [mbind option_bind]. apply IH; [lia..|done|]. intros x Hx.
      destruct (decide (x = i)) as [->|]; [done|]. apply Hm; [lia|]. apply Hbelow. lia.
Qed.
End place.

(** The entries at the given places. *)
Definition pick {A} (l : list A) (p : list nat) : list A := omap (λ i, l !! i) p.

Lemma pick_lookup {A} (l : list A) p i : Forall (λ j, j < length l)%nat p →
  pick l p !! i = p !! i ≫= λ j, l !! j.
Proof.
  intros Hp. revert i. induction Hp as [|j p Hj Hp IH]; intros i; [done|].
  destruct (lookup_lt_is_Some_2 l j Hj) as [x Hx]. unfold pick. cbn [omap list_omap]. rewrite Hx.
  destruct i as [|i]; [done|]. apply IH.
Qed.

Lemma pick_length {A} (l : list A) p : Forall (λ j, j < length l)%nat p → length (pick l p) = length p.
Proof.
  induction 1 as [|j p Hj Hp IH]; [done|].
  destruct (lookup_lt_is_Some_2 l j Hj) as [x Hx]. unfold pick in *. cbn [omap list_omap]. rewrite Hx.
  cbn [length]. by f_equal.
Qed.

Lemma pick_seq {A} (l : list A) : pick l (seq 0 (length l)) = l.
Proof.
  apply list_eq. intros i. rewrite pick_lookup by (apply Forall_forall; intros j; rewrite elem_of_seq; lia).
  destruct (decide (i < length l)%nat) as [Hi|Hi].
  - by rewrite lookup_seq_lt by done.
  - rewrite lookup_seq_ge by lia. symmetry. apply lookup_ge_None. lia.
Qed.

Lemma pick_perm {A} (l : list A) p : p ≡ₚ seq 0 (length l) → pick l p ≡ₚ l.
Proof. intros Hp. rewrite <-(pick_seq l) at 2. unfold pick. by rewrite Hp. Qed.

Lemma perm_range {A} (l : list A) p : p ≡ₚ seq 0 (length l) → Forall (λ j, j < length l)%nat p.
Proof. intros ->. apply Forall_forall. intros j. rewrite elem_of_seq. lia. Qed.

(** The receiver's loop applies the permutation. *)
Lemma place_permutes {A} (l : list A) keys : map key_index keys ≡ₚ seq 0 (length l) →
  place_from (seq 0 (length l)) keys l (replicate (div_ceil (length l) 64) 0) =
  Some (pick l (map key_index keys)).
Proof.
  intros Hp. set (σ i := default 0%nat (map key_index keys !! i)).
  pose proof (perm_range l _ Hp) as Hr. rewrite Forall_lookup in Hr.
  assert (length keys = length l) as Hlen
    by (apply Permutation_length in Hp; by rewrite length_map, length_seq in Hp).
  assert (∀ i, (i < length l)%nat → map key_index keys !! i = Some (σ i)) as Hσ.
  { intros i Hi. unfold σ. destruct (lookup_lt_is_Some_2 (map key_index keys) i) as [j Hj];
      [rewrite length_map; lia|by rewrite Hj]. }
  destruct (place_from_ends l keys σ Hlen) with (i := 0%nat) (cur := l)
    (placed := replicate (div_ceil (length l) 64) 0) as (cur & E & Hl & Hc).
  - intros i k Hk. unfold σ. by rewrite list_lookup_fmap, Hk.
  - intros i Hi. eauto.
  - intros i j Hi Hj E. apply Hσ in Hi, Hj. eapply (NoDup_lookup (map key_index keys)); [|done|congruence].
    rewrite Hp. apply NoDup_seq.
  - lia.
  - split; [done|by rewrite length_replicate|intros ? _; by rewrite test_bit_zero|done|].
    intros ? _. by rewrite test_bit_zero.
  - lia.
  - rewrite Nat.sub_0_r in E. rewrite E. f_equal. apply list_eq. intros i.
    rewrite pick_lookup by (by apply perm_range). destruct (decide (i < length l)%nat) as [Hi|Hi].
    + by rewrite Hc, Hσ.
    + rewrite !lookup_ge_None_2; [done|rewrite length_map; lia|lia].
Qed.

Lemma pick_map {A} (l : list A) (d : A) p : Forall (λ j, j < length l)%nat p →
  pick l p = map (λ i, default d (l !! i)) p.
Proof.
  induction 1 as [|j p Hj Hp IH]; [done|].
  destruct (lookup_lt_is_Some_2 l j Hj) as [x Hx]. unfold pick in *. cbn [omap list_omap map].
  rewrite Hx. by rewrite IH.
Qed.

(** Sorting places by what is there. *)
Lemma sort_with_sorts sort {A} q (cmp : A → A → comparison) l : sorts sort → total_on cmp l →
  sort_with sort q cmp l ≡ₚ l ∧ StronglySorted (cmp_le cmp) (sort_with sort q cmp l).
Proof.
  intros Hs Ht. destruct q; [by apply Hs|]. split; [apply sort_by_perm|by apply sort_by_ordered].
Qed.

Lemma sorted_map {A B} (f : A → B) cmpa cmpb l :
  (∀ x y, x ∈ l → y ∈ l → cmpa x y = cmpb (f x) (f y)) →
  StronglySorted (cmp_le cmpa) l → StronglySorted (cmp_le cmpb) (map f l).
Proof.
  intros H Hl. induction Hl as [|x l Hl IH Hx]; [constructor|]. cbn [map]. constructor.
  - apply IH. intros ????. apply H; set_solver.
  - rewrite Forall_forall in Hx. apply Forall_forall. intros y [z [-> Hz]]%list_elem_of_fmap.
    unfold cmp_le. rewrite <-H by set_solver. by apply Hx.
Qed.

(** What a sorted list is, from the order it began with. *)
Definition sorted_from {A} (cmp : A → A → comparison) (stable : bool) (l l' : list A) : Prop :=
  l' ≡ₚ l ∧ StronglySorted (cmp_le cmp) l' ∧
  (stable = true → ∀ e, e ∈ l → filter (λ x, cmp e x = Eq) l' = filter (λ x, cmp e x = Eq) l).

Lemma total_on_map {A B} (f : A → B) cmpa cmpb l :
  (∀ x y, x ∈ l → y ∈ l → cmpa x y = cmpb (f x) (f y)) → total_on cmpb (map f l) → total_on cmpa l.
Proof.
  intros H [H1 H2]. split.
  - intros x y Hx Hy. rewrite !H by done. apply H1; by apply list_elem_of_fmap_2.
  - unfold cmp_le in *. intros x y z Hx Hy Hz. rewrite !H by done.
    apply H2; by apply list_elem_of_fmap_2.
Qed.

Lemma sort_with_map sort {A B} q (f : A → B) cmpa cmpb l : sorts sort →
  (∀ x y, x ∈ l → y ∈ l → cmpa x y = cmpb (f x) (f y)) → total_on cmpb (map f l) →
  sort_with sort q cmpa l ≡ₚ l ∧
  sorted_from cmpb (negb q) (map f l) (map f (sort_with sort q cmpa l)).
Proof.
  intros Hs H Ht.
  destruct (sort_with_sorts sort q cmpa l Hs (total_on_map f _ _ _ H Ht)) as [Hp Hsort].
  split; [done|]. split; [by rewrite Hp|]. split.
  - eapply sorted_map; [|done]. intros x y. rewrite Hp. apply H.
  - destruct q; [done|]. intros _ e He. unfold sort_with. rewrite (sort_by_map f cmpa cmpb) by done.
    by apply sort_by_stable.
Qed.

Definition list_cmp (protocol_pre29 : bool) (a b : FileEntry) : comparison :=
  if protocol_pre29 then compare_with_keys_pre29 (name_bytes a) (name_bytes b)
  else compare_file_entries a b.

(** The order of older protocols, by a key. *)
Definition plain_key (e : FileEntry) : bool * list byte :=
  if decide (fe_name e = [x2e]) then (false, []) else (true, fe_name e).

Lemma compare_pre29_key a b : compare_with_keys_pre29 (name_bytes a) (name_bytes b) =
  pair_cmp Bool.compare bytes_cmp (plain_key a) (plain_key b).
Proof.
  unfold compare_with_keys_pre29, dot_first, plain_key, name_bytes, pair_cmp.
  rewrite !bool_decide_decide.
  by destruct (decide (fe_name a = [x2e])), (decide (fe_name b = [x2e])).
Qed.

Lemma compare_entries_order a b : short_name a → short_name b →
  compare_file_entries a b = entry_order a b.
Proof. apply compare_with_keys_order. Qed.

Lemma list_cmp_total pre29 l : Forall short_name l → total_on (list_cmp pre29) l.
Proof.
  rewrite Forall_forall. intros Hs. destruct pre29; cbn [list_cmp].
  - apply (total_by_key plain_key (pair_cmp Bool.compare bytes_cmp)). intros x y _ _.
    apply compare_pre29_key.
  - apply (total_by_key order_key (pair_cmp Bool.compare (lex_cmp seg_cmp))). intros x y Hx Hy.
    apply compare_entries_order; auto.
Qed.

Definition no_entry : FileEntry := tombstone (mkEntry [] [] 0 0 None 0 0 0 0 0).

Section sorts.
Context (sort : ∀ A : Type, (A → A → comparison) → list A → list A) (Hsort : sorts sort).

Lemma keys_index (l : list FileEntry) : (Z.of_nat (length l) ≤ 2 ^ 32) →
  map key_index (imap key_new l) = seq 0 (length l).
Proof.
  intros Hl. apply list_eq. intros i. rewrite list_lookup_fmap, list_lookup_imap.
  destruct (l !! i) as [e|] eqn:E; cbn.
  - assert (i < length l)%nat by (by eapply lookup_lt_Some). rewrite lookup_seq_lt by done.
    unfold key_index, key_new. cbn [sk_index]. rewrite wrap_small by (unfold in_u; lia).
    f_equal. lia.
  - rewrite lookup_seq_ge; [done|]. by apply lookup_ge_None.
Qed.

Lemma in_keys (l : list FileEntry) k : (Z.of_nat (length l) ≤ 2 ^ 32) → k ∈ imap key_new l →
  ∃ i e, l !! i = Some e ∧ k = key_new i e ∧ key_index k = i.
Proof.
  intros Hl [i Hi]%list_elem_of_lookup. rewrite list_lookup_imap in Hi.
  destruct (l !! i) as [e|] eqn:E; [|done]. cbn in Hi. injection Hi as <-.
  exists i, e. split_and!; [done..|].
  pose proof (keys_index l Hl) as Hk. apply (f_equal (λ l, l !! i)) in Hk.
  rewrite list_lookup_fmap, list_lookup_imap, E, lookup_seq_lt in Hk by (by eapply lookup_lt_Some).
  by injection Hk.
Qed.

Lemma sort_file_list_correct l q pre29 : Forall short_name l → (Z.of_nat (length l) ≤ 2 ^ 32) →
  ∃ l', sort_file_list sort l q pre29 = Some l' ∧ sorted_from (list_cmp pre29) (negb q) l l'.
Proof.
  intros Hshort Hl. unfold sort_file_list.
  destruct (Nat.leb_spec (length l) 1) as [H1|H1].
  { exists l. split; [done|]. split; [done|]. split; [|done].
    destruct l as [|x [|y l]]; [constructor|repeat constructor|cbn in H1; lia]. }
  set (f k := default no_entry (l !! key_index k)).
  assert (∃ cmpk, (if pre29 then sort_with sort q (λ a b, compare_with_keys_pre29
             (name_at l (key_index a)) (name_at l (key_index b))) (imap key_new l)
           else sort_with sort q (λ a b, compare_with_keys (name_at l (key_index a)) a
             (name_at l (key_index b)) b) (imap key_new l)) = sort_with sort q cmpk (imap key_new l) ∧
         ∀ x y, x ∈ imap key_new l → y ∈ imap key_new l → cmpk x y = list_cmp pre29 (f x) (f y))
    as (cmpk & -> & Hcmp).
  { destruct pre29; eexists; (split; [done|]); intros x y Hx Hy;
      destruct (in_keys l x Hl Hx) as (i & a & Ei & -> & Hi), (in_keys l y Hl Hy) as (j & b & Ej & -> & Hj);
      unfold f, name_at; cbn beta; rewrite Hi, Hj, Ei, Ej; cbn [from_option id]; unfold list_cmp; [done|].
    rewrite Forall_forall in Hshort.
    assert (short_name a ∧ short_name b) as [??]
      by (split; apply Hshort; by eapply list_elem_of_lookup_2).
    by rewrite compare_with_keys_order, compare_entries_order. }
  assert (map f (imap key_new l) = l) as Hf.
  { rewrite <-(pick_seq l) at 2. rewrite (pick_map l no_entry) by (by apply perm_range).
    by rewrite <-keys_index, map_map. }
  destruct (sort_with_map sort q f cmpk (list_cmp pre29) (imap key_new l) Hsort Hcmp) as [Hp Hres];
    rewrite Hf in *; [by apply list_cmp_total|].
  exists (map f (sort_with sort q cmpk (imap key_new l))). split; [|done].
  rewrite place_permutes by (rewrite Hp, keys_index; done). f_equal.
  rewrite (pick_map l no_entry), map_map; [done|].
  apply perm_range. by rewrite Hp, keys_index.
Qed.
End sorts.

(** ** The sender's permutation *)

Lemma fill_dest_spec k src dest : NoDup src → Forall (λ o, o < length dest)%nat src →
  ∃ d, fill_dest k src dest = Some d ∧ length d = length dest ∧
  (∀ m o, src !! m = Some o → d !! o = Some (k + m)%nat) ∧
  (∀ o, o ∉ src → d !! o = dest !! o).
Proof.
  revert k dest. induction src as [|o src IH]; intros k dest Hnd Hr.
  { exists dest. split_and!; done. }
  apply NoDup_cons in Hnd as [Ho Hnd]. apply Forall_cons in Hr as [Hlt Hr].
  cbn [fill_dest]. rewrite (proj2 (Nat.ltb_lt _ _)) by done.
  destruct (IH (S k) (<[o := k]> dest) Hnd) as (d & -> & Hl & Hin & Hout); [by rewrite length_insert|].
  exists d. split; [done|]. rewrite length_insert in Hl. split; [done|]. split.
  - intros [|m] o' H; cbn in H.
    + injection H as <-. rewrite Hout, list_lookup_insert_eq by done. by rewrite Nat.add_0_r.
    + apply Hin in H. rewrite H. f_equal. lia.
  - intros o' Ho'. apply not_elem_of_cons in Ho' as [??].
    by rewrite Hout, list_lookup_insert_ne.
Qed.

Section settle.
Context {A B : Type} (ta : list A) (tb : list B) (n : nat).

(** Every entry and where it has to go. *)
Record settle_ok (a : list A) (b : list B) (dest : list nat) : Prop := {
  so_a : length a = n;
  so_b : length b = n;
  so_dest : length dest = n;
  so_range : ∀ x m, dest !! x = Some m → (m < n)%nat;
  so_inj : ∀ x y m, dest !! x = Some m → dest !! y = Some m → x = y;
  so_entry : ∀ x m, dest !! x = Some m → a !! x = ta !! m ∧ b !! x = tb !! m;
}.

Definition misplaced (dest : list nat) : nat := length (filter (λ x, dest !! x ≠ Some x) (seq 0 n)).

Lemma settle_step a b dest i j : settle_ok a b dest → dest !! i = Some j → j ≠ i →
  ∃ a' b' dest', swap a i j = Some a' ∧ swap b i j = Some b' ∧ swap dest i j = Some dest' ∧
  settle_ok a' b' dest' ∧ (misplaced dest' < misplaced dest)%nat ∧
  ∀ x, dest !! x = Some x → dest' !! x = Some x.
Proof.
  intros [Ha Hb Hd Hr Hinj He] Hij Hne.
  assert (i < n)%nat as Hi by (rewrite <-Hd; by eapply lookup_lt_Some).
  assert (j < n)%nat as Hj by eauto.
  destruct (swap_Some a i j ltac:(lia) ltac:(lia)) as (a' & -> & La & Ea).
  destruct (swap_Some b i j ltac:(lia) ltac:(lia)) as (b' & -> & Lb & Eb).
  destruct (swap_Some dest i j ltac:(lia) ltac:(lia)) as (d' & -> & Ld & Ed).
  assert (dest !! j ≠ Some j) as Hjj by (intros E; by apply Hne, (Hinj j i j)).
  exists a', b', d'. split_and!; [done..|split| |].
  - lia.
  - lia.
  - lia.
  - intros x m. rewrite Ed. repeat case_decide; eauto.
  - intros x y m. rewrite !Ed. repeat case_decide; intros E1 E2; subst; try done;
      pose proof (Hinj _ _ _ E1 E2); congruence.
  - intros x m. rewrite Ea, Eb, Ed. repeat case_decide; eauto.
  - apply (filter_length_lt _ _ _ j); [|apply elem_of_seq; lia|done|].
    + intros y. rewrite Ed. repeat case_decide; subst; [congruence..|done].
    + intros E. apply E. by rewrite Ed, decide_True.
  - intros x Hx. rewrite Ed. repeat case_decide; subst; [done|congruence|done].
Qed.

Lemma settle_ends fuel i a b dest : (i < n)%nat → settle_ok a b dest → (misplaced dest < fuel)%nat →
  ∃ a' b' dest', settle fuel i a b dest = Some (a', b', dest') ∧ settle_ok a' b' dest' ∧
  dest' !! i = Some i ∧ ∀ x, dest !! x = Some x → dest' !! x = Some x.
Proof.
  intros Hi. revert a b dest. induction fuel as [|fuel IH]; intros a b dest Hok Hf; [lia|].
  destruct (lookup_lt_is_Some_2 dest i) as [j Hj]; [rewrite (so_dest _ _ _ Hok); lia|].
  cbn [settle]. rewrite Hj. cbn [mbind option_bind].
  destruct (Nat.eqb_spec j i) as [->|Hne]; [by exists a, b, dest|].
  destruct (settle_step a b dest i j) as (a' & b' & d' & -> & -> & -> & Hok' & Hm & Hfix); [done..|].
  cbn [mbind option_bind].
  destruct (IH a' b' d' Hok') as (a2 & b2 & d2 & -> & ? & ? & ?); [lia|].
  exists a2, b2, d2. split_and!; auto.
Qed.

Lemma settle_all_ends i a b dest : (i ≤ n)%nat → settle_ok a b dest →
  length ta = n → length tb = n → (∀ x, (x < i)%nat → dest !! x = Some x) →
  settle_all (seq i (n - i)) a b dest = Some (ta, tb).
Proof.
  intros Hi Hok Lta Ltb. remember (n - i)%nat as m eqn:Em. revert i Hi Em a b dest Hok.
  induction m as [|m IH]; intros i Hi Em a b dest Hok Hbelow; cbn [seq settle_all].
  - destruct Hok as [La Lb Ld _ _ He]. do 2 f_equal; apply list_eq_same_length with n; try done;
      intros x y z Hx Hy Hz; destruct (He x x) as [E1 E2]; try (apply Hbelow; lia); congruence.
  - destruct (settle_ends (S (length dest)) i a b dest) as (a' & b' & d' & -> & Hok' & Hii & Hfix);
      [lia|done| |].
    { rewrite (so_dest _ _ _ Hok). unfold misplaced.
      pose proof (length_filter (λ x, dest !! x ≠ Some x) (seq 0 n)) as H.
      rewrite length_seq in H. lia. }
    cbn [mbind option_bind]. apply IH; [lia..|done|]. intros x Hx.
    destruct (decide (x = i)) as [->|]; [done|]. apply Hfix, Hbelow. lia.
Qed.
End settle.

(** The sender's loop applies the permutation to both arrays. *)
Lemma apply_permutation_correct {A B} (a : list A) (b : list B) src :
  src ≡ₚ seq 0 (length a) → length b = length a →
  apply_permutation_in_place a b src = Some (pick a src, pick b src).
Proof.
  intros Hp Hb. unfold apply_permutation_in_place. set (n := length a) in *.
  assert (Forall (λ o, o < n)%nat src) as Hr by (by apply perm_range).
  assert (length src = n) as Hls by (by rewrite Hp, length_seq).
  destruct (Nat.eqb_spec n 0) as [H0|H0].
  { rewrite H0 in *. apply nil_length_inv in Hls as ->. by apply nil_length_inv in Hb as ->, H0 as ->. }
  destruct (fill_dest_spec 0 src (replicate n 0%nat)) as (d & -> & Hld & Hin & _).
  { rewrite Hp. apply NoDup_seq. }
  { by rewrite length_replicate. }
  rewrite length_replicate in Hld. cbn [mbind option_bind].
  assert (∀ x m, d !! x = Some m → src !! m = Some x) as Hinv.
  { intros x m Hx. assert (x ∈ src) as [m' Hm']%list_elem_of_lookup.
    { rewrite Hp, elem_of_seq. apply lookup_lt_Some in Hx. lia. }
    pose proof (Hin _ _ Hm') as Hd. cbn in Hd. by replace m with m' by congruence. }
  pose proof (settle_all_ends (pick a src) (pick b src) n 0 a b d) as H. rewrite Nat.sub_0_r in H.
  apply H; [lia| |by rewrite pick_length|rewrite pick_length; [done|by rewrite Hb]|lia].
  split; [done..| | |].
  - intros x m Hx%Hinv. apply lookup_lt_Some in Hx. lia.
  - intros x y m Hx%Hinv Hy%Hinv. congruence.
  - intros x m Hx%Hinv. rewrite !pick_lookup, Hx by (by rewrite ?Hb). done.
Qed.

(** ** What the sorts achieve *)

Lemma concat_segments s : concat (segments s) = s.
Proof.
  induction s as [|b s IH]; [done|]. cbn [segments]. destruct (decide (b = SLASH)).
  - cbn. by rewrite IH.
  - destruct (segments s) as [|seg rest] eqn:E; cbn in *; by rewrite <-IH.
Qed.

Lemma entry_order_eq a b : entry_order a b = Eq →
  effective_name (fe_name a) (is_dir a) = effective_name (fe_name b) (is_dir b) ∨
  (fe_name a = [x2e] ∧ fe_name b = [x2e]).
Proof.
  intros H. apply (cmp_eq (pair_cmp Bool.compare (lex_cmp seg_cmp))) in H. unfold order_key in H.
  destruct (decide (fe_name a = [x2e])), (decide (fe_name b = [x2e])); [by right|done..|left].
  injection H as H. by rewrite <-(concat_segments (effective_name (fe_name a) _)), H, concat_segments.
Qed.

(** From protocol 29 on, comparing names byte by byte, with the slashes looked up in a
    cache, is comparing them component by component: [.] before everything, in a directory
    the files before the directories, and bytes as unsigned numbers.  It is a total order,
    in which only entries whose names differ at most by the slash at the end are equal. *)
Theorem compare_is_component_order a b c :
  short_name a → short_name b → short_name c →
  compare_file_entries a b = entry_order a b ∧
  compare_file_entries b a = CompOpp (compare_file_entries a b) ∧
  (compare_file_entries a b = Eq →
     effective_name (fe_name a) (is_dir a) = effective_name (fe_name b) (is_dir b) ∨
     (fe_name a = [x2e] ∧ fe_name b = [x2e])) ∧
  (compare_file_entries a b ≠ Gt → compare_file_entries b c ≠ Gt → compare_file_entries a c ≠ Gt).
Proof.
  intros Ha Hb Hc. rewrite !compare_entries_order by done.
  split_and!; [done|apply (cmp_opp (pair_cmp Bool.compare (lex_cmp seg_cmp)))|apply entry_order_eq|].
  apply (cmp_le_trans (cmp := pair_cmp Bool.compare (lex_cmp seg_cmp))).
Qed.

(** Sorting the received list ends without a panic, and gives the entries of the list in
    the order of the protocol; without the option for the unstable sort, entries that the
    comparison does not tell apart keep their order. *)
Theorem sort_file_list_sorts sort l use_qsort pre29 :
  sorts sort → Forall short_name l → Z.of_nat (length l) ≤ 2 ^ 32 →
  ∃ l', sort_file_list sort l use_qsort pre29 = Some l' ∧ l' ≡ₚ l ∧
  StronglySorted (cmp_le (list_cmp pre29)) l' ∧
  (use_qsort = false → ∀ e, e ∈ l →
     filter (λ x, list_cmp pre29 e x = Eq) l' = filter (λ x, list_cmp pre29 e x = Eq) l).
Proof.
  intros Hs Hl Hn. destruct (sort_file_list_correct sort Hs l use_qsort pre29 Hl Hn) as (l' & E & Hp & Ho & Hst).
  exists l'. split_and!; [done..|]. intros ->. by apply Hst.
Qed.

Lemma zip_pick {A B} (a : list A) (b : list B) p : length b = length a →
  Forall (λ j, j < length a)%nat p → zip (pick a p) (pick b p) = pick (zip a b) p.
Proof.
  intros Hl. induction 1 as [|j p Hj Hp IH]; [done|].
  destruct (lookup_lt_is_Some_2 a j Hj) as [x Hx], (lookup_lt_is_Some_2 b j ltac:(lia)) as [y Hy].
  unfold pick in *. cbn [omap list_omap]. rewrite Hx, Hy, lookup_zip_with, Hx. cbn. rewrite Hy. cbn.
  f_equal. apply IH.
Qed.

Definition first_cmp {P} (x y : FileEntry * P) : comparison := compare_file_entries x.1 y.1.

Lemma sort_with_parallel_correct sort {P} l (p : list P) q : sorts sort → Forall short_name l →
  length p = length l →
  ∃ l' p', sort_with_parallel sort l p q = Some (l', p') ∧ length l' = length l ∧ length p' = length p ∧
  sorted_from first_cmp (negb q) (zip l p) (zip l' p').
Proof.
  intros Hs Hshort Hlen. unfold sort_with_parallel.
  destruct (Nat.eqb_spec (length l) 0) as [H0|H0].
  { apply nil_length_inv in H0 as ->. apply nil_length_inv in Hlen as ->. exists [], [].
    split; [done|]. split; [done|]. split; [done|]. split; [done|]. split; [constructor|done]. }
  destruct p as [|p0 p]; [cbn in Hlen; lia|]. remember (p0 :: p) as pp.
  set (f i := default (no_entry, p0) (zip l pp !! i)).
  set (cmp a b := match l !! a, l !! b with Some a, Some b => compare_file_entries a b | _, _ => Eq end).
  assert (length (zip l pp) = length l) as Hz by (rewrite length_zip; lia).
  assert (map f (seq 0 (length l)) = zip l pp) as Hf.
  { rewrite <-(pick_seq (zip l pp)), Hz. symmetry. apply pick_map. rewrite Hz. by apply perm_range. }
  destruct (sort_with_map sort q f cmp first_cmp (seq 0 (length l))) as [Hp Hres]; [done| | |].
  - intros x y Hx%elem_of_seq Hy%elem_of_seq. unfold cmp, f.
    destruct (lookup_lt_is_Some_2 l x ltac:(lia)) as [a Ha], (lookup_lt_is_Some_2 l y ltac:(lia)) as [b Hb].
    destruct (lookup_lt_is_Some_2 pp x ltac:(lia)) as [u Hu], (lookup_lt_is_Some_2 pp y ltac:(lia)) as [v Hv].
    rewrite !lookup_zip_with, Ha, Hb. cbn. by rewrite Hu, Hv.
  - rewrite Hf. apply (total_by_key (order_key ∘ fst) (pair_cmp Bool.compare (lex_cmp seg_cmp))).
    rewrite Forall_forall in Hshort. intros [x u] [y v] Hx%elem_of_zip_l Hy%elem_of_zip_l.
    apply compare_entries_order; auto.
  - remember (sort_with sort q cmp (seq 0 (length l))) as idx eqn:Eidx.
    exists (pick l idx), (pick pp idx). rewrite apply_permutation_correct by done.
    assert (Forall (λ j, j < length l)%nat idx) as Hr by (by apply perm_range).
    assert (length idx = length l) as Hli by (by rewrite Hp, length_seq).
    split; [done|]. rewrite !pick_length by (by rewrite ?Hlen).
    split_and!; [lia|lia|]. rewrite zip_pick by done.
    rewrite (pick_map _ (no_entry, p0)) by (by rewrite Hz). by rewrite <-Hf at 1.
Qed.

Lemma sorted_lookup {A} (R : relation A) l i j x y : StronglySorted R l → (i < j)%nat →
  l !! i = Some x → l !! j = Some y → R x y.
Proof.
  intros Hl. revert i j. induction Hl as [|z l Hl IH Hz]; intros i j Hij Hx Hy; [done|].
  destruct j as [|j]; [lia|]. destruct i as [|i]; cbn in *.
  - injection Hx as ->. rewrite Forall_lookup in Hz. eauto.
  - apply (IH i j); [lia|done..].
Qed.

Lemma sorted_unique_by_key {A K} (key : A → K) (kcmp : K → K → comparison) `{!CmpOrder kcmp} cmp l k :
  (∀ x y, x ∈ l → y ∈ l → cmp x y = kcmp (key x) (key y)) → NoDup (map key l) → l ≡ₚ k →
  StronglySorted (cmp_le cmp) l → StronglySorted (cmp_le cmp) k → l = k.
Proof.
  intros Hk Hnd Hp Hl Hs. eapply (StronglySorted_unique_strong (cmp_le cmp)); [|done..].
  intros x y Hx Hy. rewrite <-Hp in Hy. unfold cmp_le. rewrite !Hk by done. intros H1 H2.
  apply (cmp_le_antisym (cmp := kcmp) _ _ H1) in H2.
  apply list_elem_of_lookup in Hx as [i Hi], Hy as [j Hj].
  assert (i = j) as ->; [|congruence]. eapply (NoDup_lookup (map key l)); [done| |];
    rewrite list_lookup_fmap; [by rewrite Hi|by rewrite Hj, H2].
Qed.

(** C23: the two ends agree from protocol 29 on.  If no two entries have the same place in the
    order, the list that the sender sorts with its second array and the list that the receiver
    sorts by components, whatever order it arrived in and whichever sort each uses, are the
    same. *)
Theorem both_sides_same_order sort_s sort_r {P} l r (p : list P) q_s q_r :
  sorts sort_s → sorts sort_r → Forall short_name l → Z.of_nat (length l) ≤ 2 ^ 32 →
  l ≡ₚ r → NoDup (map order_key l) → length p = length l →
  ∃ l' p', sort_with_parallel sort_s l p q_s = Some (l', p') ∧
           sort_file_list sort_r r q_r false = Some l'.
Proof.
  intros Hs Hr Hshort Hn Hlr Hnd Hlen.
  destruct (sort_with_parallel_correct sort_s l p q_s Hs Hshort Hlen) as (l' & p' & E & Hl' & Hp' & Hz & Ho & _).
  destruct (sort_file_list_correct sort_r Hr r q_r false) as (r' & Er & Hpr & Hor & _).
  { by rewrite <-Hlr. }
  { by rewrite <-Hlr. }
  exists l', p'. split; [done|]. rewrite Er. f_equal.
  assert (map fst (zip l' p') = l') as Hf by (apply fst_zip; lia).
  assert (l' ≡ₚ l) as Hpl.
  { rewrite <-Hf, Hz. change (fst <$> zip l p ≡ₚ l). by rewrite fst_zip by lia. }
  rewrite Forall_forall in Hshort.
  symmetry. apply (sorted_unique_by_key order_key (pair_cmp Bool.compare (lex_cmp seg_cmp)) compare_file_entries).
  - intros x y. rewrite Hpl. intros Hx Hy. apply compare_entries_order; auto.
  - by rewrite Hpl.
  - by rewrite Hpl, Hpr.
  - rewrite <-Hf. by eapply sorted_map; [|apply Ho].
  - done.
Qed.

(** ** Directories and what is below them *)

Definition below (d x : FileEntry) : Prop :=
  effective_name (fe_name d) (is_dir d) `prefix_of` effective_name (fe_name x) (is_dir x).

Lemma segments_app u v : last u = Some SLASH → segments (u ++ v) = segments u ++ segments v.
Proof.
  induction u as [|b u IH]; intros Hl; [done|]. destruct u as [|c u].
  { cbn in Hl. injection Hl as ->. by cbn. }
  specialize (IH Hl). remember (c :: u) as w. cbn [app segments].
  destruct (decide (b = SLASH)); [by rewrite IH|]. rewrite IH.
  destruct (segments w) eqn:E; [|done]. apply segments_nil in E. by subst.
Qed.

Lemma lex_between `{CmpOrder A cmp} d x y :
  cmp_le (lex_cmp cmp) d x → cmp_le (lex_cmp cmp) x (d ++ y) → d `prefix_of` x.
Proof.
  revert x. induction d as [|a d IH]; intros x Hdx Hxy; [apply prefix_nil|].
  destruct x as [|b x]; [done|]. cbn [app] in Hxy. unfold cmp_le in Hdx, Hxy. cbn [lex_cmp] in *.
  assert (a = b) as <-.
  { apply (cmp_le_antisym (cmp := cmp)); unfold cmp_le; [by destruct (cmp a b)|].
    by destruct (cmp b a). }
  rewrite (cmp_refl (cmp := cmp)) in *. apply prefix_cons. by apply IH.
Qed.

Lemma entry_order_not_dot a b : cmp_le entry_order a b → fe_name a ≠ [x2e] →
  fe_name b ≠ [x2e] ∧ cmp_le (lex_cmp seg_cmp)
    (segments (effective_name (fe_name a) (is_dir a))) (segments (effective_name (fe_name b) (is_dir b))).
Proof.
  unfold cmp_le, entry_order, pair_cmp, order_key. intros H Ha.
  rewrite (decide_False (P := fe_name a = [x2e])) in H by done.
  destruct (decide (fe_name b = [x2e])); done.
Qed.

Lemma below_between d x y : cmp_le entry_order d x → cmp_le entry_order x y →
  is_dir d = true → fe_name d ≠ [x2e] → below d y → below d x.
Proof.
  intros Hdx Hxy Hd Hdot [v Hv]. unfold below.
  destruct (entry_order_not_dot _ _ Hdx Hdot) as [Hx Hsdx].
  destruct (entry_order_not_dot _ _ Hxy Hx) as [Hy Hsxy].
  rewrite Hv, segments_app in Hsxy by (rewrite Hd; unfold effective_name; by rewrite last_snoc).
  destruct (lex_between _ _ _ Hsdx Hsxy) as [w Hw].
  exists (concat w). rewrite <-(concat_segments (effective_name (fe_name x) _)), Hw, concat_app.
  by rewrite concat_segments.
Qed.

(** In the sorted list what is below a directory follows it without a gap: between a
    directory and an entry below it there are only entries below it. *)
Theorem subtree_contiguous sort l use_qsort l' i k j d x y :
  sorts sort → Forall short_name l → Z.of_nat (length l) ≤ 2 ^ 32 →
  sort_file_list sort l use_qsort false = Some l' →
  (i < k < j)%nat → l' !! i = Some d → l' !! k = Some x → l' !! j = Some y →
  is_dir d = true → fe_name d ≠ [x2e] → below d y → below d x.
Proof.
  intros Hs Hshort Hn E Hikj Hi Hk Hj Hd Hdot Hb.
  destruct (sort_file_list_correct sort Hs l use_qsort false Hshort Hn) as (l2 & E2 & Hp & Ho & _).
  rewrite E in E2. injection E2 as <-.
  assert (∀ m e, l' !! m = Some e → short_name e) as Hse.
  { rewrite Forall_forall in Hshort. intros m e He. apply Hshort. rewrite <-Hp.
    by eapply list_elem_of_lookup_2. }
  assert (∀ m n a b, (m < n)%nat → l' !! m = Some a → l' !! n = Some b → cmp_le entry_order a b) as Hle.
  { intros m n a b Hmn Ha Hb'. pose proof (sorted_lookup _ _ _ _ _ _ Ho Hmn Ha Hb') as H.
    unfold cmp_le, list_cmp in H. rewrite compare_entries_order in H; eauto. }
  apply (below_between d x y); [apply (Hle i k)|apply (Hle k j)|..]; done || lia.
Qed.

(** ** Older protocols *)

Lemma plain_segments s : SLASH ∉ s → s ≠ [] → segments s = [s].
Proof.
  induction s as [|b s IH]; intros Hs Hne; [done|]. apply not_elem_of_cons in Hs as [Hb Hs].
  cbn [segments]. rewrite decide_False by congruence.
  destruct s as [|c s]; [done|]. by rewrite IH.
Qed.

Lemma plain_dir_segments s : SLASH ∉ s → segments (s ++ [SLASH]) = [s ++ [SLASH]].
Proof.
  induction s as [|b s IH]; intros Hs; [done|]. apply not_elem_of_cons in Hs as [Hb Hs].
  cbn [app segments]. rewrite decide_False by congruence. by rewrite IH.
Qed.

(** A directory and a file at the top, the directory first by its bytes. *)
Record dir_and_file (d f : FileEntry) : Prop := {
  df_dir : is_dir d = true;
  df_file : is_dir f = false;
  df_short : short_name d ∧ short_name f;
  df_top : SLASH ∉ fe_name d ∧ SLASH ∉ fe_name f;
  df_dot : fe_name d ≠ [x2e] ∧ fe_name f ≠ [x2e];
  df_first : bytes_cmp (fe_name d) (fe_name f) = Lt;
}.

Lemma dir_and_file_order d f : dir_and_file d f →
  list_cmp true d f = Lt ∧ list_cmp false d f = Gt.
Proof.
  intros [Hd Hf [Sd Sf] [Td Tf] [Dd Df] Hlt]. unfold list_cmp. split.
  - rewrite compare_pre29_key. unfold plain_key, pair_cmp. by rewrite !decide_False.
  - rewrite compare_entries_order by done. unfold entry_order, order_key, pair_cmp.
    rewrite !decide_False by done. cbn [fst snd Bool.compare]. rewrite Hd, Hf.
    unfold effective_name. rewrite app_nil_r.
    assert (fe_name f ≠ []) as Hne by (intros E; rewrite E in Hlt; by destruct (fe_name d)).
    rewrite plain_dir_segments, (plain_segments (fe_name f)) by done. cbn [lex_cmp].
    unfold seg_cmp, pair_cmp, seg_key. cbn [fst snd].
    replace (is_dir_seg (fe_name d ++ [SLASH])) with true
      by (symmetry; apply bool_decide_true; by rewrite last_snoc).
    replace (is_dir_seg (fe_name f)) with false; [done|]. symmetry. apply bool_decide_false.
    intros Hl. apply Tf. apply last_Some_elem_of in Hl. done.
Qed.

(** At protocol 28 the two ends disagree.  The sender always sorts by components, the
    receiver by plain bytes, so that of a directory and a file, the directory first by its
    bytes, each end has the other one first, and their indices are exchanged. *)
Theorem old_protocol_orders_differ sort {P} d f (p q : P) : dir_and_file d f →
  sort_with_parallel sort [d; f] [p; q] false = Some ([f; d], [q; p]) ∧
  sort_file_list sort [d; f] false true = Some [d; f].
Proof.
  intros H. destruct (dir_and_file_order d f H) as [Hold Hnew]. split.
  - unfold sort_with_parallel. cbn [length Nat.eqb seq sort_with sort_by foldr insert_by lookup list_lookup].
    unfold list_cmp in Hnew. rewrite Hnew. by rewrite apply_permutation_correct by (done || constructor).
  - change (sort_file_list (λ A, sort_by) [d; f] false true = Some [d; f]).
    destruct (sort_file_list_correct _ sort_by_sorts [d; f] false true) as (l' & -> & Hp & Ho & _);
      [destruct (df_short _ _ H); by repeat constructor|done|].
    symmetry in Hp. apply Permutation_length_2_inv in Hp as [->| ->]; [done|].
    apply StronglySorted_cons in Ho as [Hfd _]. apply Forall_cons in Hfd as [Hfd _].
    exfalso. apply Hfd. unfold list_cmp in *. rewrite compare_pre29_key in *.
    by rewrite (cmp_opp (pair_cmp Bool.compare bytes_cmp) (plain_key d)), Hold.
Qed.

(** ** The simple comparison of names *)

(** Entries in a directory are compared by what follows it. *)
Lemma f_name_cmp_in_directory d a b : d ≠ [] → fe_dirname a = d → fe_dirname b = d →
  ∀ u v, fe_name a = d ++ SLASH :: u → fe_name b = d ++ SLASH :: v →
  f_name_cmp a b = bytes_cmp u v ∧ (f_name_cmp a b = Eq → name_cmp_eq a b = true).
Proof.
  intros Hd Ha Hb u v Hu Hv.
  assert (∀ e w, fe_dirname e = d → fe_name e = d ++ SLASH :: w → basename_bytes e = w) as Hbase.
  { intros e w He Hw. unfold basename_bytes. rewrite He, Hw, decide_False by done.
    rewrite decide_True by (split; [by rewrite take_app_length|by rewrite list_lookup_middle]).
    replace (length d + 1)%nat with (length (d ++ [SLASH])) by (rewrite length_app; done).
    replace (d ++ SLASH :: w) with ((d ++ [SLASH]) ++ w) by (by rewrite <-app_assoc).
    apply drop_app_length. }
  unfold f_name_cmp, name_cmp_eq.
  rewrite (Hbase a u), (Hbase b v), Ha, Hb, (cmp_refl (cmp := bytes_cmp)) by done.
  split; [done|]. intros E. apply (cmp_eq bytes_cmp) in E as <-. by rewrite !bool_decide_true.
Qed.

(** ** Examples *)

Definition example_entry (name : list byte) (mode : Z) : FileEntry :=
  mkEntry name [] 0 0 None 0 0 0 mode PRESENT_CONTENT_DIR.
Definition example_file (name : string) : FileEntry := example_entry (bytes name) 0x81a4.
Definition example_dir (name : string) : FileEntry := example_entry (bytes name) 0x41ed.

Definition example_list : list FileEntry :=
  [example_dir "a"; example_file "a/y"; example_file "z"; example_file "a/x"].

Lemma example_list_short : Forall short_name example_list.
Proof. by repeat constructor. Qed.

Lemma compare_is_component_order_witness :
  compare_file_entries (example_dir "a") (example_file "z") = Gt.
Proof.
  destruct (compare_is_component_order (example_dir "a") (example_file "z") (example_file "z"))
    as [-> _]; [done..|]. vm_compute. reflexivity.
Defined.

Lemma sort_file_list_sorts_witness :
  ∃ l', sort_file_list (λ A, sort_by) example_list false true = Some l' ∧ l' ≡ₚ example_list.
Proof.
  destruct (sort_file_list_sorts (λ A, sort_by) example_list false true) as (l' & E & Hp & _);
    [apply sort_by_sorts|apply example_list_short|done|].
  by exists l'.
Defined.

Lemma both_sides_same_order_witness :
  ∃ l' p', sort_with_parallel (λ A, sort_by) example_list [1; 2; 3; 4]%nat false = Some (l', p') ∧
           sort_file_list (λ A, sort_by) (reverse example_list) true false = Some l'.
Proof.
  apply both_sides_same_order; [apply sort_by_sorts..|apply example_list_short|done| | |done].
  - by rewrite reverse_Permutation.
  - apply (bool_decide_unpack _). vm_compute. exact I.
Defined.

Lemma subtree_contiguous_witness : below (example_dir "a") (example_file "a/x").
Proof.
  apply (subtree_contiguous (λ A, sort_by) example_list false
           [example_file "z"; example_dir "a"; example_file "a/x"; example_file "a/y"] 1 2 3
           (example_dir "a") (example_file "a/x") (example_file "a/y"));
    [apply sort_by_sorts|apply example_list_short|done|vm_compute; reflexivity|lia|done..| |].
  - discriminate.
  - by exists (bytes "y").
Defined.

Lemma old_protocol_orders_differ_witness :
  dir_and_file (example_dir "a") (example_file "z") ∧
  sort_file_list (λ A, sort_by) [example_dir "a"; example_file "z"] false true =
    Some [example_dir "a"; example_file "z"].
Proof.
  assert (dir_and_file (example_dir "a") (example_file "z")) as H.
  { split; [done|done|done| |by split|done]. split; apply (bool_decide_unpack _); vm_compute; exact I. }
  split; [done|]. exact (proj2 (old_protocol_orders_differ (λ A, sort_by) _ _ tt tt H)).
Defined.
