(* ===== verification/FlistClean.v ===== *)
(** * Duplicate names in the file list ([crates/protocol/src/flist/sort.rs], [dual.rs])

    After sorting, entries with the name of another entry are dropped.  The receiver clears
    them in place, so that the indices of the others stay what the sender counted; the sender
    of an incremental list removes them, together with the elements of a second array.
    [None] stands for a panic. *)

From stdpp Require Import sorting strings.
From S2P Require Import Prelude Wildmatch Utf8 FilterWire Lookup FlistEntry FlistSort.

Local Open Scope nat_scope.

(** ** The receiver *)

Record CleanResult := mkClean {
  cr_duplicates_removed : nat;
  cr_flags_merged : nat;
}.

(** The kept entry, and whether the later one replaces it. *)
Definition resolve_duplicate (write read : FileEntry) (stats : CleanResult)
    : FileEntry * bool * CleanResult :=
  let stats := mkClean (cr_duplicates_removed stats + 1) (cr_flags_merged stats) in
  match is_dir write, is_dir read with
  | false, true => (write, true, stats)
  | true, false => (write, false, stats)
  | true, true =>
      let write := if top_dir read then set_top_dir true write else write in
      let write := if content_dir read then set_content_dir true write else write in
      (write, false, mkClean (cr_duplicates_removed stats) (cr_flags_merged stats + 1))
  | false, false => (write, false, stats)
  end.

(** The name extends that of the directory with a byte before the slash. *)
Definition extends_before_slash (dir_name name : list byte) : bool :=
  (length dir_name <? length name) && bool_decide (dir_name `prefix_of` name) &&
  match name !! length dir_name with Some b => (uz b <? uz SLASH)%Z | None => false end.

(** The scan down from [k]. *)
Fixpoint find_dup_below (file_list : list FileEntry) (dir_name : list byte) (k : nat) : option nat :=
  match k with
  | 0 => None
  | S k' =>
      match file_list !! k' with
      | None => None
      | Some e =>
          if negb (is_active e) then find_dup_below file_list dir_name k'
          else if decide (name_bytes e = dir_name) then
            if negb (is_dir e) then Some k' else find_dup_below file_list dir_name k'
          else if negb (extends_before_slash dir_name (name_bytes e)) then None
          else find_dup_below file_list dir_name k'
      end
  end.

Definition find_regfile_dup (file_list : list FileEntry) (dir_idx : nat) : option nat :=
  match file_list !! dir_idx with
  | Some dir => find_dup_below file_list (name_bytes dir) dir_idx
  | None => None
  end.

(** One round of the loop, at [i]; [prev] is the last entry that is kept. *)
Definition clean_step (file_list : list FileEntry) (stats : CleanResult) (prev i : nat)
    : option (list FileEntry * CleanResult * nat) :=
  e ← file_list !! i;
  if negb (is_active e) then Some (file_list, stats, prev)
  else
    p ← file_list !! prev;
    let dup :=
      if decide (entry_name e = entry_name p) then Some prev
      else if is_dir e then find_regfile_dup file_list i
      else None in
    match dup with
    | None => Some (file_list, stats, i)
    | Some j =>
        w ← file_list !! j;
        let '(w, take_read, stats) := resolve_duplicate w e stats in
        let file_list := <[j := w]> file_list in
        if take_read then Some (<[j := tombstone w]> file_list, stats, i)
        else Some (<[i := tombstone e]> file_list, stats, prev)
    end.

Fixpoint clean_loop (positions : list nat) (file_list : list FileEntry) (stats : CleanResult)
    (prev : nat) : option (list FileEntry * CleanResult) :=
  match positions with
  | [] => Some (file_list, stats)
  | i :: positions =>
      '(file_list, stats, prev) ← clean_step file_list stats prev i;
      clean_loop positions file_list stats prev
  end.

(** The first active entry, from [prev]. *)
Fixpoint first_active (rest : list FileEntry) (prev : nat) : nat :=
  match rest with
  | [] => prev
  | e :: rest => if negb (is_active e) then first_active rest (S prev) else prev
  end.

Definition flist_clean (file_list : list FileEntry) (am_sender inc_recurse : bool)
    : option (list FileEntry * CleanResult) :=
  let len := length file_list in
  let stats := mkClean 0 0 in
  if len =? 0 then Some (file_list, stats)
  else if am_sender && negb inc_recurse then Some (file_list, stats)
  else
    let prev := first_active file_list 0 in
    if len <=? prev then Some (file_list, stats)
    else clean_loop (seq (prev + 1) (len - (prev + 1))) file_list stats prev.

Definition sort_and_clean_file_list
    (sort_unstable_by : ∀ A : Type, (A → A → comparison) → list A → list A)
    (file_list : list FileEntry) (use_qsort protocol_pre29 am_sender inc_recurse : bool)
    : option (list FileEntry * CleanResult) :=
  file_list ← sort_file_list sort_unstable_by file_list use_qsort protocol_pre29;
  flist_clean file_list am_sender inc_recurse.

(** ** The sender *)

(** One round: [w] is the last kept entry, [r] the one that is read. *)
Definition dedup_step {P} (legacy : list FileEntry) (parallel : list P) (stats : CleanResult)
    (w r : nat) : option (list FileEntry * list P * CleanResult * nat) :=
  a ← legacy !! w;
  b ← legacy !! r;
  if negb (bool_decide (entry_name a = entry_name b)) then
    let w := w + 1 in
    if negb (w =? r) then
      legacy ← swap legacy w r;
      parallel ← swap parallel w r;
      Some (legacy, parallel, stats, w)
    else Some (legacy, parallel, stats, w)
  else
    let '(a, take, stats) := resolve_duplicate a b stats in
    let legacy := <[w := a]> legacy in
    if take then
      legacy ← swap legacy w r;
      parallel ← swap parallel w r;
      Some (legacy, parallel, stats, w)
    else Some (legacy, parallel, stats, w).

Fixpoint dedup_loop {P} (positions : list nat) (legacy : list FileEntry) (parallel : list P)
    (stats : CleanResult) (w : nat) : option (list FileEntry * list P * CleanResult * nat) :=
  match positions with
  | [] => Some (legacy, parallel, stats, w)
  | r :: positions =>
      '(legacy, parallel, stats, w) ← dedup_step legacy parallel stats w r;
      dedup_loop positions legacy parallel stats w
  end.

Definition dedup_with_parallel {P} (legacy : list FileEntry) (parallel : list P)
    (am_sender inc_recurse : bool) : option (list FileEntry * list P * CleanResult) :=
  let len := length legacy in
  let stats := mkClean 0 0 in
  if len =? 0 then Some (legacy, parallel, stats)
  else if am_sender && negb inc_recurse then Some (legacy, parallel, stats)
  else
    '(legacy, parallel, stats, w) ← dedup_loop (seq 1 (len - 1)) legacy parallel stats 0;
    Some (take (w + 1) legacy, take (w + 1) parallel, stats).

Definition reclaim_segment (legacy : list FileEntry) (start end_ : nat) : option (list FileEntry) :=
  if (end_ <=? length legacy) && (start <=? end_)
  then Some (take start legacy ++ map reclaim_heap_data (take (end_ - start) (drop start legacy)) ++
             drop end_ legacy)
  else None.

(** ** Flags *)

(** The entries differ at most in their flags. *)
Definition flags_only (e e' : FileEntry) : Prop := e' = with_present (fe_present e') e.

Lemma flags_only_refl e : flags_only e e.
Proof. by destruct e. Qed.

Lemma flags_only_trans a b c : flags_only a b → flags_only b c → flags_only a c.
Proof. unfold flags_only. intros Hab ->. rewrite Hab. done. Qed.

Lemma flags_only_name e e' : flags_only e e' → fe_name e' = fe_name e.
Proof. intros ->. done. Qed.

Lemma flags_only_dir e e' : flags_only e e' → is_dir e' = is_dir e.
Proof. intros ->. done. Qed.

(** [e'] stands for [e]: it has its name, and all that makes a directory one. *)
Definition stands_for (e e' : FileEntry) : Prop :=
  fe_name e' = fe_name e ∧
  (is_dir e = true → is_dir e' = true ∧ (top_dir e = true → top_dir e' = true) ∧
     (content_dir e = true → content_dir e' = true)).

Lemma stands_for_refl e : stands_for e e.
Proof. split; auto. Qed.

Lemma stands_for_trans a b c : stands_for a b → stands_for b c → stands_for a c.
Proof. intros [E1 H1] [E2 H2]. split; [congruence|]. naive_solver. Qed.

(** What is kept differs from the first entry in its flags, and stands for both. *)
Lemma resolve_duplicate_keeps a b stats w take stats' :
  fe_name a = fe_name b → resolve_duplicate a b stats = (w, take, stats') →
  flags_only a w ∧
  if take then is_dir a = false ∧ is_dir b = true else stands_for a w ∧ stands_for b w.
Proof.
  intros Hn. unfold resolve_duplicate.
  destruct (is_dir a) eqn:Ha, (is_dir b) eqn:Hb; intros H; injection H as <- <- _.
  - split.
    + by destruct (top_dir b), (content_dir b), a.
    + split; (split; [by destruct (top_dir b), (content_dir b)|]); intros _;
        (split; [by destruct (top_dir b), (content_dir b)|]);
        unfold top_dir, content_dir, set_top_dir, set_content_dir, put_flag in *;
        destruct (has_flag (fe_present b) PRESENT_TOP_DIR) eqn:Et,
                 (has_flag (fe_present b) PRESENT_CONTENT_DIR) eqn:Ec;
        cbn [with_present fe_present]; rewrite ?has_flag_lor;
        split; intros H; rewrite ?H, ?orb_true_r; done.
  - split; [apply flags_only_refl|]. split; [apply stands_for_refl|]. split; [done|congruence].
  - split; [apply flags_only_refl|done].
  - split; [apply flags_only_refl|]. split; [apply stands_for_refl|]. split; [done|congruence].
Qed.

(** ** Entries of the same name in a sorted list *)

(** An entry as the reader makes it: active, its name in UTF-8 and without a slash at the
    end. *)
Record clean_entry (e : FileEntry) : Prop := {
  ce_active : fe_name e ≠ [];
  ce_utf8 : valid_utf8 (fe_name e) = true;
  ce_slash : last (fe_name e) ≠ Some SLASH;
  ce_short : short_name e;
}.

Lemma eff_cmp_dir s : eff_cmp s (s ++ [SLASH]) = Lt.
Proof. induction s as [|b s IH]; [done|]. cbn [app eff_cmp]. by rewrite decide_True. Qed.

(** A file comes before the directory of its name. *)
Lemma file_before_dir f d : fe_name f = fe_name d → is_dir f = false → is_dir d = true →
  fe_name f ≠ [x2e] → entry_order f d = Lt.
Proof.
  intros Hn Hf Hd Hdot. unfold entry_order, order_key, pair_cmp. rewrite <-Hn, !decide_False by done.
  cbn [fst snd Bool.compare]. rewrite <-eff_cmp_segments, Hf, Hd. unfold effective_name.
  rewrite app_nil_r. apply eff_cmp_dir.
Qed.

Lemma effective_name_inj a b : clean_entry a → clean_entry b →
  effective_name (fe_name a) (is_dir a) = effective_name (fe_name b) (is_dir b) → fe_name a = fe_name b.
Proof.
  intros [_ _ Ha _] [_ _ Hb _]. unfold effective_name.
  destruct (is_dir a), (is_dir b); rewrite ?app_nil_r; intros E; [by apply app_inj_tail in E as [? _]| | |done].
  - by rewrite <-E, last_snoc in Hb.
  - by rewrite E, last_snoc in Ha.
Qed.

Lemma same_key_name a b : clean_entry a → clean_entry b → order_key a = order_key b → fe_name a = fe_name b.
Proof.
  intros Ha Hb E.
  assert (entry_order a b = Eq) as [?|[-> ->]]%entry_order_eq
    by (unfold entry_order; rewrite E; apply (cmp_refl (cmp := pair_cmp Bool.compare (lex_cmp seg_cmp))));
    [by apply effective_name_inj|done].
Qed.

(** What lies between two entries of the same name has that name too, unless a file comes
    first and a directory last. *)
Lemma between_same_name pre29 x p y : clean_entry x → clean_entry p → clean_entry y →
  cmp_le (list_cmp pre29) x p → cmp_le (list_cmp pre29) p y → fe_name x = fe_name y →
  fe_name p = fe_name x ∨ (pre29 = false ∧ is_dir x = false ∧ is_dir y = true).
Proof.
  intros Hx Hp Hy Hxp Hpy Hn. pose proof (ce_short _ Hx). pose proof (ce_short _ Hp). pose proof (ce_short _ Hy).
  destruct pre29; unfold cmp_le, list_cmp in Hxp, Hpy.
  - left. rewrite compare_pre29_key in Hxp, Hpy.
    assert (plain_key x = plain_key y) as E by (unfold plain_key; by rewrite Hn).
    rewrite <-E in Hpy. pose proof (cmp_le_antisym (cmp := pair_cmp Bool.compare bytes_cmp) _ _ Hxp Hpy) as Ek.
    unfold plain_key in Ek. repeat case_decide; congruence.
  - rewrite compare_entries_order in Hxp, Hpy by done.
    destruct (decide (order_key x = order_key y)) as [E|Hne].
    + left. unfold entry_order in Hxp, Hpy. rewrite <-E in Hpy. symmetry. apply same_key_name; [done..|].
      by apply (cmp_le_antisym (cmp := pair_cmp Bool.compare (lex_cmp seg_cmp))).
    + destruct (is_dir x) eqn:Dx, (is_dir y) eqn:Dy; try (by right);
        try (exfalso; apply Hne; unfold order_key; by rewrite Dx, Dy, Hn).
      exfalso. assert (cmp_le entry_order x y) as Hxy
        by (by apply (cmp_le_trans (cmp := pair_cmp Bool.compare (lex_cmp seg_cmp)) _ (order_key p))).
      apply Hxy. unfold entry_order.
      rewrite (cmp_opp (pair_cmp Bool.compare (lex_cmp seg_cmp)) (order_key y)). fold (entry_order y x).
      rewrite file_before_dir; [done..|]. intros Edot. apply Hne. unfold order_key.
      by rewrite !decide_True by congruence.
Qed.

(** ** The loop of the receiver *)

Lemma find_dup_below_spec l name k j : find_dup_below l name k = Some j →
  j < k ∧ ∃ e, l !! j = Some e ∧ is_active e = true ∧ fe_name e = name ∧ is_dir e = false.
Proof.
  induction k as [|k IH]; cbn [find_dup_below]; [done|].
  assert (find_dup_below l name k = Some j →
    j < S k ∧ ∃ e, l !! j = Some e ∧ is_active e = true ∧ fe_name e = name ∧ is_dir e = false) as IH'
    by (intros H; apply IH in H as [? ?]; split; [lia|done]).
  destruct (l !! k) as [e|] eqn:E; [|done]. destruct (is_active e) eqn:Ea; [|done]. cbn [negb].
  destruct (decide (name_bytes e = name)) as [Hn|].
  - destruct (is_dir e) eqn:Ed; [done|]. cbn [negb]. intros H. injection H as <-. split; [lia|]. by exists e.
  - by destruct (extends_before_slash name (name_bytes e)).
Qed.

Lemma lookup_set {A} (l : list A) j v x : j < length l →
  <[j := v]> l !! x = if decide (x = j) then Some v else l !! x.
Proof.
  intros Hj. case_decide as E; [subst; by apply list_lookup_insert_eq|].
  by apply list_lookup_insert_ne.
Qed.

Section clean.
Context (l0 : list FileEntry) (pre29 : bool).
Context (Hclean : Forall clean_entry l0) (Hsorted : StronglySorted (cmp_le (list_cmp pre29)) l0).

(** What holds before the round at [i]. *)
Record clean_ok (i prev : nat) (cur : list FileEntry) : Prop := {
  ck_len : length cur = length l0;
  ck_rest : ∀ x, i ≤ x → cur !! x = l0 !! x;
  ck_same : ∀ x e, cur !! x = Some e → is_active e = true → ∃ e0, l0 !! x = Some e0 ∧ flags_only e0 e;
  ck_dead : ∀ x e, cur !! x = Some e → is_active e = false → e = no_entry;
  ck_prev : prev < i ∧ ∃ p, cur !! prev = Some p ∧ is_active p = true;
  ck_gap : ∀ x e, prev < x < i → cur !! x = Some e → is_active e = false;
  ck_distinct : ∀ x y a b, x < y < i → cur !! x = Some a → cur !! y = Some b →
    is_active a = true → is_active b = true → fe_name a = fe_name b →
    pre29 = false ∧ is_dir a = false ∧ is_dir b = true;
  ck_kept : ∀ x e0, x < i → l0 !! x = Some e0 →
    ∃ y e, y < i ∧ cur !! y = Some e ∧ is_active e = true ∧ stands_for e0 e;
}.

Lemma active_name e : is_active e = true → fe_name e ≠ [].
Proof. unfold is_active. by case_bool_decide. Qed.

(** Entries before the last kept one that have the name of the next. *)
Lemma earlier_same_name i prev cur x a p e : clean_ok i prev cur → x < prev →
  cur !! x = Some a → is_active a = true → cur !! prev = Some p → is_active p = true →
  l0 !! i = Some e → fe_name a = fe_name e →
  pre29 = false ∧ is_dir a = false ∧ (fe_name p = fe_name a ∨ is_dir e = true).
Proof.
  intros Hok Hx Ha Aa Hp Ap He Hn.
  destruct (ck_same _ _ _ Hok x a Ha Aa) as (a0 & Ha0 & Fa), (ck_same _ _ _ Hok prev p Hp Ap) as (p0 & Hp0 & Fp).
  pose proof (flags_only_name _ _ Fa) as Na. pose proof (flags_only_name _ _ Fp) as Np.
  destruct (ck_prev _ _ _ Hok) as [Hpi _]. rewrite Forall_lookup in Hclean.
  destruct (between_same_name pre29 a0 p0 e (Hclean _ _ Ha0) (Hclean _ _ Hp0) (Hclean _ _ He)) as [E|(? & Da & De)].
  - by eapply (sorted_lookup _ l0 x prev).
  - by eapply (sorted_lookup _ l0 prev i).
  - congruence.
  - destruct (ck_distinct _ _ _ Hok x prev a p) as (? & ? & ?); [lia|done..|congruence|].
    split_and!; [done..|]. left. congruence.
  - split_and!; [done|by rewrite (flags_only_dir _ _ Fa)|by right].
Qed.

Lemma l0_active i e : l0 !! i = Some e → is_active e = true.
Proof.
  intros He. rewrite Forall_lookup in Hclean. unfold is_active.
  by rewrite (bool_decide_false _ (ce_active _ (Hclean _ _ He))).
Qed.

(** The earlier file gives way to the directory at [i]. *)
Lemma clean_take i prev cur j w e : clean_ok i prev cur → j < i →
  cur !! j = Some w → is_dir w = false → fe_name w = fe_name e →
  l0 !! i = Some e → is_dir e = true →
  (j = prev ∨ ∀ p, cur !! prev = Some p → fe_name p ≠ fe_name e) →
  clean_ok (S i) i (<[j := no_entry]> cur).
Proof.
  intros Hok Hj Hw Dw Hn He De Hprev.
  assert (cur !! i = Some e) as Hci by (by rewrite (ck_rest _ _ _ Hok)).
  pose proof (l0_active _ _ He) as Ae.
  assert (∀ x, <[j := no_entry]> cur !! x = if decide (x = j) then Some no_entry else cur !! x) as Hset
    by (intros x; apply lookup_set; by eapply lookup_lt_Some).
  pose proof (ck_prev _ _ _ Hok) as (Hpi & p & Hp & Ap).
  split.
  - rewrite length_insert. apply Hok.
  - intros x Hx. rewrite Hset, decide_False by lia. apply Hok. lia.
  - intros x a. rewrite Hset. case_decide; [intros E; by injection E as <-|]. apply Hok.
  - intros x a. rewrite Hset. case_decide; [intros E; by injection E as <-|]. apply Hok.
  - split; [lia|]. exists e. rewrite Hset, decide_False by lia. done.
  - intros x a Hx. lia.
  - intros x y a b Hxy. rewrite !Hset.
    destruct (decide (x = j)) as [|Hxj]; [intros E _; by injection E as <-|].
    destruct (decide (y = j)) as [|Hyj]; [intros _ E _; by injection E as <-|]. intros Ha Hb Aa Ab Hab.
    destruct (decide (y = i)) as [->|Hyi].
    2: { apply (ck_distinct _ _ _ Hok x y); (lia || done). }
    replace b with e in * by congruence. destruct (decide (x = prev)) as [->|Hxp].
    { destruct Hprev as [|Hprev]; [done|]. by destruct (Hprev a). }
    destruct (decide (prev < x)).
    { rewrite (ck_gap _ _ _ Hok x a) in Aa; [done|lia|done]. }
    destruct (earlier_same_name i prev cur x a p e) as (? & ? & ?); (lia || done || split_and!; done).
  - intros x e0 Hx He0. destruct (decide (x = i)) as [->|Hxi].
    { exists i, e. rewrite Hset, decide_False by lia. replace e0 with e by congruence.
      split_and!; [lia|done..|apply stands_for_refl]. }
    destruct (ck_kept _ _ _ Hok x e0 ltac:(lia) He0) as (y & a & Hy & Ha & Aa & Sa).
    destruct (decide (y = j)) as [->|Hyj].
    + exists i, e. rewrite Hset, decide_False by lia. split_and!; [lia|done..|].
      replace a with w in * by congruence. destruct Sa as [Sn Sd]. split; [congruence|].
      intros De0. destruct (Sd De0) as [Dw' _]. congruence.
    + exists y, a. rewrite Hset, decide_False by done. split_and!; [lia|done..].
Qed.

(** No duplicate. *)
Lemma clean_none i prev cur e : clean_ok i prev cur → l0 !! i = Some e →
  (∀ p, cur !! prev = Some p → fe_name p ≠ fe_name e) → clean_ok (S i) i cur.
Proof.
  intros Hok He Hprev.
  assert (cur !! i = Some e) as Hci by (by rewrite (ck_rest _ _ _ Hok)).
  pose proof (l0_active _ _ He) as Ae. pose proof (ck_prev _ _ _ Hok) as (Hpi & p & Hp & Ap).
  split; [apply Hok| |apply Hok|apply Hok|split; [lia|by exists e]|lia| |].
  - intros x Hx. apply Hok. lia.
  - intros x y a b Hxy Ha Hb Aa Ab Hab. destruct (decide (y = i)) as [->|Hyi].
    2: { apply (ck_distinct _ _ _ Hok x y); (lia || done). }
    replace b with e in * by congruence. destruct (decide (x = prev)) as [->|Hxp].
    { by destruct (Hprev a). }
    destruct (decide (prev < x)).
    { rewrite (ck_gap _ _ _ Hok x a) in Aa; [done|lia|done]. }
    destruct (earlier_same_name i prev cur x a p e) as (? & ? & [Hpa|?]); try (lia || done).
    exfalso. apply (Hprev p Hp). congruence.
  - intros x e0 Hx He0. destruct (decide (x = i)) as [->|Hxi].
    { exists i, e. replace e0 with e by congruence. split_and!; [lia|done..|apply stands_for_refl]. }
    destruct (ck_kept _ _ _ Hok x e0 ltac:(lia) He0) as (y & a & Hy & Ha & Aa & Sa).
    exists y, a. split_and!; [lia|done..].
Qed.

(** The entry at [i] gives way to the last kept one. *)
Lemma clean_keep i prev cur p w e : clean_ok i prev cur → cur !! prev = Some p →
  l0 !! i = Some e → flags_only p w → stands_for p w → stands_for e w →
  clean_ok (S i) prev (<[i := no_entry]> (<[prev := w]> cur)).
Proof.
  intros Hok Hp He Fw Spw Sew.
  pose proof (ck_prev _ _ _ Hok) as (Hpi & p' & Hp' & Ap). replace p' with p in * by congruence. clear p' Hp'.
  assert (∀ x, <[i := no_entry]> (<[prev := w]> cur) !! x =
    if decide (x = i) then Some no_entry else if decide (x = prev) then Some w else cur !! x) as Hset.
  { intros x. rewrite lookup_set by (rewrite length_insert, (ck_len _ _ _ Hok); by eapply lookup_lt_Some).
    case_decide; [done|]. apply lookup_set. by eapply lookup_lt_Some. }
  assert (is_active w = true) as Aw by (by rewrite Fw).
  split.
  - rewrite !length_insert. apply Hok.
  - intros x Hx. rewrite Hset, !decide_False by lia. apply Hok. lia.
  - intros x a. rewrite Hset. case_decide; [intros E; by injection E as <-|].
    case_decide; [|apply Hok]. subst x. intros E _. injection E as <-.
    destruct (ck_same _ _ _ Hok prev p Hp Ap) as (e0 & ? & ?). exists e0.
    split; [done|]. by eapply flags_only_trans.
  - intros x a. rewrite Hset. case_decide; [intros E; by injection E as <-|].
    case_decide; [|apply Hok]. intros E. injection E as <-. congruence.
  - split; [lia|]. exists w. rewrite Hset, decide_False, decide_True by lia. done.
  - intros x a Hx. rewrite Hset. case_decide; [intros E; by injection E as <-|].
    rewrite decide_False by lia. apply Hok. lia.
  - intros x y a b Hxy. rewrite !Hset.
    destruct (decide (x = i)) as [|Hxi]; [lia|].
    destruct (decide (y = i)) as [|Hyi]; [intros _ E _; by injection E as <-|].
    pose proof (flags_only_name _ _ Fw) as Nw. pose proof (flags_only_dir _ _ Fw) as Dw.
    pose proof (ck_distinct _ _ _ Hok x y) as Hd. intros Ha Hb Aa Ab Hab.
    destruct (decide (x = prev)) as [->|].
    { destruct (decide (y = prev)) as [|]; [lia|]. injection Ha as <-.
      destruct (Hd p b) as (? & ? & ?); [lia|done..|congruence|]. split_and!; congruence. }
    destruct (decide (y = prev)) as [->|]; [|apply Hd; (lia || done)].
    injection Hb as <-. destruct (Hd a p) as (? & ? & ?); [lia|done..|congruence|]. split_and!; congruence.
  - intros x e0 Hx He0. destruct (decide (x = i)) as [->|Hxi].
    { exists prev, w. rewrite Hset, decide_False, decide_True by lia.
      replace e0 with e by congruence. split_and!; [lia|done..]. }
    destruct (ck_kept _ _ _ Hok x e0 ltac:(lia) He0) as (y & a & Hy & Ha & Aa & Sa).
    destruct (decide (y = prev)) as [->|Hyp].
    + exists prev, w. rewrite Hset, decide_False, decide_True by lia. replace a with p in * by congruence.
      split_and!; [lia|done..|]. by eapply stands_for_trans.
    + exists y, a. rewrite Hset, !decide_False by lia. split_and!; [lia|done..].
Qed.

Lemma clean_step_ok i prev cur stats e : clean_ok i prev cur → l0 !! i = Some e →
  ∃ cur' stats' prev', clean_step cur stats prev i = Some (cur', stats', prev') ∧ clean_ok (S i) prev' cur'.
Proof.
  intros Hok He. pose proof (ck_prev _ _ _ Hok) as (Hpi & p & Hp & Ap).
  assert (cur !! i = Some e) as Hci by (by rewrite (ck_rest _ _ _ Hok)).
  unfold clean_step. rewrite Hci. cbn [mbind option_bind].
  rewrite (l0_active _ _ He), Hp. cbn [negb mbind option_bind].
  assert (entry_name e = fe_name e ∧ entry_name p = fe_name p) as [-> ->].
  { rewrite Forall_lookup in Hclean. destruct (ck_same _ _ _ Hok prev p Hp Ap) as (p0 & Hp0 & Fp).
    unfold entry_name. rewrite (flags_only_name _ _ Fp).
    by rewrite (ce_utf8 _ (Hclean _ _ He)), (ce_utf8 _ (Hclean _ _ Hp0)). }
  destruct (decide (fe_name e = fe_name p)) as [Hn|Hn].
  - rewrite Hp. cbn [mbind option_bind].
    destruct (resolve_duplicate p e stats) as [[w take] stats'] eqn:Er.
    apply resolve_duplicate_keeps in Er as [Fw Hw]; [|done]. destruct take.
    + destruct Hw as [Dp De]. eexists _, _, _. split; [done|]. rewrite list_insert_insert_eq.
      apply (clean_take i prev cur prev p e); auto.
    + destruct Hw as [Spw Sew]. eexists _, _, _. split; [done|]. by apply (clean_keep i prev cur p w e).
  - destruct (is_dir e) eqn:De.
    2: { eexists _, _, _. split; [done|]. eapply clean_none; [done..|]. congruence. }
    unfold find_regfile_dup. rewrite Hci.
    destruct (find_dup_below cur (name_bytes e) i) as [j|] eqn:Ej.
    2: { eexists _, _, _. split; [done|]. eapply clean_none; [done..|]. congruence. }
    apply find_dup_below_spec in Ej as (Hj & w & Hw & _ & Nw & Dw). rewrite Hw. cbn [mbind option_bind].
    unfold resolve_duplicate. rewrite Dw, De. eexists _, _, _. split; [done|].
    rewrite list_insert_insert_eq. apply (clean_take i prev cur j w e); auto. right. congruence.
Qed.

Lemma clean_loop_ok i prev cur stats : i ≤ length l0 → clean_ok i prev cur →
  ∃ cur' stats' prev', clean_loop (seq i (length l0 - i)) cur stats prev = Some (cur', stats') ∧
  clean_ok (length l0) prev' cur'.
Proof.
  remember (length l0 - i) as m eqn:Em. revert i prev cur stats Em.
  induction m as [|m IH]; intros i prev cur stats Em Hi Hok; cbn [seq clean_loop].
  { exists cur, stats, prev. by replace (length l0) with i by lia. }
  destruct (lookup_lt_is_Some_2 l0 i ltac:(lia)) as [e He].
  destruct (clean_step_ok i prev cur stats e Hok He) as (cur' & stats' & prev' & -> & Hok').
  cbn [mbind option_bind]. apply IH; [lia..|done].
Qed.

Lemma clean_start : l0 ≠ [] → clean_ok 1 0 l0.
Proof.
  intros Hne. destruct (lookup_lt_is_Some_2 l0 0) as [e He]; [by destruct l0; [|cbn; lia]|].
  pose proof (l0_active _ _ He).
  split; [done|done| | |split; [lia|by exists e]|lia|lia|].
  - intros x a Ha _. exists a. split; [done|apply flags_only_refl].
  - intros x a Ha. by rewrite (l0_active _ _ Ha).
  - intros x e0 Hx Hx0. exists x, e0. split_and!; [done|done|by eapply l0_active|apply stands_for_refl].
Qed.
End clean.

(** C24: cleaning a sorted list on the receiver ends without a panic and leaves every entry at
    its index: an entry is cleared, or it is as it was up to its flags.  For each entry one of
    its name stays, a directory with its flags if the entry was one.  Two entries of the same
    name stay only if the first is not a directory, the second is, and the protocol is at
    least 29; names are assumed to be UTF-8. *)
Theorem clean_leaves_one l pre29 inc_recurse :
  Forall clean_entry l → StronglySorted (cmp_le (list_cmp pre29)) l →
  ∃ l' stats, flist_clean l false inc_recurse = Some (l', stats) ∧ length l' = length l ∧
  (∀ i e', l' !! i = Some e' → e' = no_entry ∨ ∃ e, l !! i = Some e ∧ flags_only e e') ∧
  (∀ e, e ∈ l → ∃ e', e' ∈ l' ∧ is_active e' = true ∧ stands_for e e') ∧
  (∀ i j a b, i < j → l' !! i = Some a → l' !! j = Some b → is_active a = true → is_active b = true →
     fe_name a = fe_name b → pre29 = false ∧ is_dir a = false ∧ is_dir b = true).
Proof.
  intros Hc Hs. unfold flist_clean. destruct l as [|e l].
  { eexists _, _. split; [done|]. split; [done|]. set_solver. }
  assert (first_active (e :: l) 0 = 0) as ->.
  { cbn [first_active]. by rewrite (l0_active (e :: l) Hc 0 e). }
  destruct (clean_loop_ok (e :: l) pre29 Hc Hs 1 0 (e :: l) (mkClean 0 0)) as (l' & stats & prev & E & Hok);
    [cbn; lia|by apply clean_start|].
  exists l', stats. split; [done|]. split; [apply Hok|]. split_and!.
  - intros i e' He'. destruct (is_active e') eqn:A; [right; by eapply ck_same|left; by eapply ck_dead].
  - intros a [i Hi]%list_elem_of_lookup.
    destruct (ck_kept _ _ _ _ _ Hok i a) as (y & e' & _ & Hy & A & S); [by eapply lookup_lt_Some|done|].
    exists e'. split; [by eapply list_elem_of_lookup_2|done].
  - intros i j a b Hij Ha Hb. apply (ck_distinct _ _ _ _ _ Hok i j); [|done..].
    split; [done|]. rewrite <-(ck_len _ _ _ _ _ Hok). by eapply lookup_lt_Some.
Qed.

(** Names that are not UTF-8 are all the same name to the clean pass: of two files next to
    each other whose names are not UTF-8 the second is cleared by the receiver, and removed by
    an incremental sender, although the names differ. *)
Theorem non_utf8_names_collapse {P} a b (p q : P) inc_recurse :
  is_active a = true → is_active b = true →
  valid_utf8 (fe_name a) = false → valid_utf8 (fe_name b) = false →
  is_dir a = false → is_dir b = false →
  flist_clean [a; b] false inc_recurse = Some ([a; no_entry], mkClean 1 0) ∧
  dedup_with_parallel [a; b] [p; q] true true = Some ([a], [p], mkClean 1 0).
Proof.
  intros Aa Ab Ua Ub Da Db.
  assert (entry_name a = entry_name b) as Hn by (unfold entry_name; by rewrite Ua, Ub). split.
  - unfold flist_clean. cbn [length Nat.eqb andb negb first_active]. rewrite Aa.
    cbn [negb Nat.leb Nat.add Nat.sub seq clean_loop]. unfold clean_step.
    cbn [lookup list_lookup mbind option_bind]. rewrite Ab. cbn [negb].
    rewrite decide_True by done. cbn [mbind option_bind lookup list_lookup].
    unfold resolve_duplicate. by rewrite Da, Db.
  - unfold dedup_with_parallel. cbn [length Nat.eqb andb negb Nat.sub seq dedup_loop].
    unfold dedup_step. cbn [lookup list_lookup mbind option_bind].
    rewrite bool_decide_true by done. cbn [negb]. unfold resolve_duplicate. by rewrite Da, Db.
Qed.

(** A file that sorts between a file and the directory of the same name hides them from
    each other, and both stay in the list: the scan back from the directory stops at the first
    name that does not extend its name. *)
Theorem file_and_directory_both_stay f z d inc_recurse :
  is_active f = true → is_active z = true → is_active d = true →
  fe_name f = fe_name d → is_dir f = false → is_dir z = false → is_dir d = true →
  entry_name f ≠ entry_name z → entry_name d ≠ entry_name z → fe_name z ≠ fe_name d →
  extends_before_slash (fe_name d) (fe_name z) = false →
  flist_clean [f; z; d] false inc_recurse = Some ([f; z; d], mkClean 0 0).
Proof.
  intros Af Az Ad Hfd Df Dz Dd Hfz Hdz Hzd He.
  unfold flist_clean. cbn [length Nat.eqb andb negb first_active]. rewrite Af.
  cbn [negb Nat.leb Nat.add Nat.sub seq clean_loop].
  assert (clean_step [f; z; d] (mkClean 0 0) 0 1 = Some ([f; z; d], mkClean 0 0, 1)) as ->.
  { unfold clean_step. cbn [lookup list_lookup mbind option_bind]. rewrite Az. cbn [negb].
    by rewrite decide_False, Dz by congruence. }
  cbn [mbind option_bind].
  assert (clean_step [f; z; d] (mkClean 0 0) 1 2 = Some ([f; z; d], mkClean 0 0, 2)) as ->; [|done].
  unfold clean_step. cbn [lookup list_lookup mbind option_bind]. rewrite Ad. cbn [negb].
  rewrite decide_False, Dd by done. unfold find_regfile_dup.
  cbn [lookup list_lookup find_dup_below]. rewrite Az. cbn [negb]. unfold name_bytes.
  by rewrite decide_False, He by done.
Qed.

(** ** The sender *)

Lemma lookup_second {A} (l : list A) x k y r : (l ++ x :: k ++ y :: r) !! (length l + 1 + length k) = Some y.
Proof.
  rewrite lookup_app_r by lia. replace (length l + 1 + length k - length l) with (S (length k)) by lia.
  change ((k ++ y :: r) !! length k = Some y). by apply list_lookup_middle.
Qed.

Lemma insert_first {A} (l : list A) x y r : <[length l := y]> (l ++ x :: r) = l ++ y :: r.
Proof. rewrite insert_app_r_alt by lia. by rewrite Nat.sub_diag. Qed.

Lemma swap_middle {A} (l : list A) x k y r i j : i = length l → j = length l + 1 + length k →
  swap (l ++ x :: k ++ y :: r) i j = Some (l ++ y :: k ++ x :: r).
Proof.
  intros -> ->. unfold swap. rewrite lookup_second, (list_lookup_middle l) by done.
  cbn [mbind option_bind]. f_equal. rewrite insert_first.
  rewrite (insert_app_r_alt l) by lia. f_equal.
  replace (length l + 1 + length k - length l) with (S (length k)) by lia.
  change (y :: <[length k := x]> (k ++ y :: r) = y :: k ++ x :: r). by rewrite insert_first.
Qed.

(** The reference: neighbours of the same name become one. *)
Fixpoint collapse {P} (cur : FileEntry * P) (rest : list (FileEntry * P)) (stats : CleanResult)
    : list (FileEntry * P) * CleanResult :=
  match rest with
  | [] => ([cur], stats)
  | x :: rest =>
      if negb (bool_decide (entry_name cur.1 = entry_name x.1)) then
        let '(l, stats) := collapse x rest stats in (cur :: l, stats)
      else
        let '(w, take, stats) := resolve_duplicate cur.1 x.1 stats in
        collapse (if take then x else (w, cur.2)) rest stats
  end.

(** The kept entries, the last of them, those that were dropped, and those to come. *)
Lemma dedup_step_collapse {P} kept a dropped b rest (pkept : list P) pa pdropped pb prest stats :
  length pkept = length kept → length pdropped = length dropped →
  ∃ kept' a' dropped' pkept' pa' pdropped' stats',
    dedup_step (kept ++ a :: dropped ++ b :: rest) (pkept ++ pa :: pdropped ++ pb :: prest) stats
      (length kept) (length kept + 1 + length dropped) =
      Some (kept' ++ a' :: dropped' ++ rest, pkept' ++ pa' :: pdropped' ++ prest, stats', length kept') ∧
    length pkept' = length kept' ∧ length pdropped' = length dropped' ∧
    length kept' + 1 + length dropped' = S (length kept + 1 + length dropped) ∧
    zip kept pkept ++ (collapse (a, pa) ((b, pb) :: zip rest prest) stats).1 =
      zip kept' pkept' ++ (collapse (a', pa') (zip rest prest) stats').1 ∧
    (collapse (a, pa) ((b, pb) :: zip rest prest) stats).2 = (collapse (a', pa') (zip rest prest) stats').2.
Proof.
  intros Hk Hd. unfold dedup_step. rewrite lookup_second, (list_lookup_middle kept) by done.
  cbn [mbind option_bind collapse fst snd].
  destruct (bool_decide (entry_name a = entry_name b)); cbn [negb].
  - destruct (resolve_duplicate a b stats) as [[w take] stats'] eqn:Er. rewrite insert_first. destruct take.
    + rewrite !swap_middle by lia. exists kept, b, (dropped ++ [w]), pkept, pb, (pdropped ++ [pa]), stats'.
      cbn [mbind option_bind]. rewrite <-!app_assoc, !length_app. cbn [length app]. split_and!; [done|lia..|done|done].
    + exists kept, w, (dropped ++ [b]), pkept, pa, (pdropped ++ [pb]), stats'.
      rewrite <-!app_assoc, !length_app. cbn [length app]. split_and!; [done|lia..|done|done].
  - assert (zip kept pkept ++ (let '(l, s) := collapse (b, pb) (zip rest prest) stats in ((a, pa) :: l, s)).1 =
            zip (kept ++ [a]) (pkept ++ [pa]) ++ (collapse (b, pb) (zip rest prest) stats).1 ∧
            (let '(l, s) := collapse (b, pb) (zip rest prest) stats in ((a, pa) :: l, s)).2 =
            (collapse (b, pb) (zip rest prest) stats).2) as [E1 E2].
    { rewrite zip_with_app by done. destruct (collapse (b, pb) (zip rest prest) stats) as [l s].
      cbn [fst snd]. by rewrite <-app_assoc. }
    rewrite E1, E2. clear E1 E2.
    destruct dropped as [|d dropped], pdropped as [|pd pdropped]; try done; cbn [length] in *.
    + replace (length kept + 1 + 0) with (length kept + 1) by lia. rewrite Nat.eqb_refl. cbn [negb].
      exists (kept ++ [a]), b, [], (pkept ++ [pa]), pb, [], stats.
      rewrite !length_app, <-!app_assoc. cbn [length app]. split_and!; [done|lia..|done|done].
    + rewrite (proj2 (Nat.eqb_neq _ _)) by lia. cbn [negb app].
      change (kept ++ a :: d :: dropped ++ b :: rest) with (kept ++ [a] ++ d :: dropped ++ b :: rest).
      change (pkept ++ pa :: pd :: pdropped ++ pb :: prest) with (pkept ++ [pa] ++ pd :: pdropped ++ pb :: prest).
      rewrite !(app_assoc _ [_]), !swap_middle by (rewrite length_app; cbn [length]; lia). cbn [mbind option_bind].
      exists (kept ++ [a]), b, (dropped ++ [d]), (pkept ++ [pa]), pb, (pdropped ++ [pd]), stats.
      rewrite !length_app, <-!app_assoc. cbn [length app]. split_and!; [done|lia..|done|done].
Qed.

Lemma dedup_loop_collapse {P} rest (prest : list P) : length prest = length rest →
  ∀ kept a dropped pkept pa pdropped stats,
  length pkept = length kept → length pdropped = length dropped →
  ∃ l' p' stats' w',
    dedup_loop (seq (length kept + 1 + length dropped) (length rest))
      (kept ++ a :: dropped ++ rest) (pkept ++ pa :: pdropped ++ prest) stats (length kept) =
      Some (l', p', stats', w') ∧
    length (take (w' + 1) l') = length (take (w' + 1) p') ∧
    zip (take (w' + 1) l') (take (w' + 1) p') =
      zip kept pkept ++ (collapse (a, pa) (zip rest prest) stats).1 ∧
    stats' = (collapse (a, pa) (zip rest prest) stats).2.
Proof.
  revert prest. induction rest as [|b rest IH]; intros [|pb prest] Hr kept a dropped pkept pa pdropped stats Hk Hd;
    try done; cbn [length seq dedup_loop].
  - eexists _, _, _, _. split; [done|].
    assert (∀ A (u : list A) x v, length u = length kept → take (length kept + 1) (u ++ x :: v) = u ++ [x]) as Ht.
    { intros A u x v Hu. replace (u ++ x :: v) with ((u ++ [x]) ++ v) by (by rewrite <-app_assoc).
      apply take_app_length'. rewrite length_app. cbn [length]. lia. }
    rewrite !Ht by done. cbn [zip_with collapse fst snd].
    split_and!; [rewrite !length_app; cbn [length]; lia|by rewrite zip_with_app|done].
  - destruct (dedup_step_collapse kept a dropped b rest pkept pa pdropped pb prest stats Hk Hd)
      as (kept' & a' & dropped' & pkept' & pa' & pdropped' & stats' & -> & Hk' & Hd' & Hl & E1 & E2).
    cbn [mbind option_bind zip_with]. rewrite <-Hl, E1, E2. apply IH; [cbn in Hr; lia|done..].
Qed.

(** Removing the duplicates of an incremental list in place, with a second array kept in
    step, is collapsing neighbours of the same name in the list of pairs: every kept entry
    keeps its element of the second array. *)
Theorem dedup_is_collapse {P} e legacy p (parallel : list P) :
  length parallel = length legacy →
  ∃ l' p' stats, dedup_with_parallel (e :: legacy) (p :: parallel) true true = Some (l', p', stats) ∧
  length l' = length p' ∧ (zip l' p', stats) = collapse (e, p) (zip legacy parallel) (mkClean 0 0).
Proof.
  intros Hl. unfold dedup_with_parallel. cbn [length Nat.eqb andb negb]. rewrite Nat.sub_1_r. cbn [Nat.pred].
  destruct (dedup_loop_collapse legacy parallel Hl [] e [] [] p [] (mkClean 0 0))
    as (l' & p' & stats & w & E & Hlen & Hz & Hs); [done..|].
  cbn [length Nat.add app] in E. rewrite E. cbn [mbind option_bind].
  eexists _, _, _. split; [done|]. split; [done|]. rewrite Hz, Hs. cbn [zip_with app]. by rewrite <-surjective_pairing.
Qed.

(** ** Examples *)

Definition latin_file (b : byte) : FileEntry := example_entry [x61; b] 0x81a4.

Lemma clean_leaves_one_witness :
  ∃ l' stats, flist_clean [example_file "a"; example_file "a"; example_dir "a"] false false =
    Some (l', stats) ∧ length l' = 3.
Proof.
  destruct (clean_leaves_one [example_file "a"; example_file "a"; example_dir "a"] false false)
    as (l' & stats & E & Hl & _).
  - repeat constructor; done.
  - repeat constructor; done.
  - by exists l', stats.
Defined.

Lemma non_utf8_names_collapse_witness :
  latin_file xe8 ≠ latin_file xe9 ∧
  flist_clean [latin_file xe8; latin_file xe9] false false = Some ([latin_file xe8; no_entry], mkClean 1 0).
Proof.
  split; [done|].
  apply (non_utf8_names_collapse (latin_file xe8) (latin_file xe9) tt tt false); vm_compute; reflexivity.
Defined.

Lemma file_and_directory_both_stay_witness :
  sort_file_list (λ A, sort_by) [example_dir "item"; example_file "zebra"; example_file "item"] false false =
    Some [example_file "item"; example_file "zebra"; example_dir "item"] ∧
  flist_clean [example_file "item"; example_file "zebra"; example_dir "item"] false false =
    Some ([example_file "item"; example_file "zebra"; example_dir "item"], mkClean 0 0).
Proof.
  split; [vm_compute; reflexivity|].
  apply file_and_directory_both_stay; first [vm_compute; reflexivity|vm_compute; discriminate].
Defined.

Lemma dedup_is_collapse_witness :
  ∃ l' p' stats, dedup_with_parallel [example_file "a"; example_file "a"; example_file "b"] [1; 2; 3] true true =
    Some (l', p', stats) ∧ length l' = length p'.
Proof.
  destruct (dedup_is_collapse (example_file "a") [example_file "a"; example_file "b"] 1 [2; 3])
    as (l' & p' & stats & E & Hl & _); [done|]. by exists l', p', stats.
Defined.
