(* ===== verification/FlistName.v ===== *)
(** * Names received in the file list ([crates/protocol/src/flist/read/name.rs])

    What the receiver does with the name of an entry before it is used as a path: a name
    that has no empty, [.] or [..] component is taken as it is, the others are rewritten in a
    loop that drops the empty components and the dots and refuses [..]; a leading slash is
    refused, or dropped where the transfer keeps relative paths.

    [clean_is_component_filter] says that the fast path and the loop together are the filter
    on the components of the name, and [accepted_names_stay_below] that no name which is
    accepted leaves the directory that it is taken in. *)

From stdpp Require Import strings.
From S2P Require Import Prelude Wildmatch FilterSet.

(** ** The code *)

Notation DOT_BYTE := x2e.
Definition DOTDOT : list byte := [DOT_BYTE; DOT_BYTE].

(** [next == Some('/') || next.is_none()]. *)
Definition at_component_end (s : list byte) : bool :=
  match s with [] => true | c :: _ => bool_decide (c = SLASH) end.

(** The rest of the name after a dot makes the component [..]. *)
Definition second_dot (s : list byte) : bool :=
  match s with [] => false | c :: s' => bool_decide (c = DOT_BYTE) && at_component_end s' end.

(** The loop of [needs_cleaning] from an index on; [at_start] is [i == 0 || name[i - 1] == '/']. *)
Fixpoint needs_cleaning_from (at_start : bool) (s : list byte) : bool :=
  match s with
  | [] => false
  | c :: s' =>
      if bool_decide (c = SLASH) then
        match s' with
        | [] => needs_cleaning_from true s'
        | d :: _ => bool_decide (d = SLASH) || needs_cleaning_from true s'
        end
      else if bool_decide (c = DOT_BYTE) && at_start && (at_component_end s' || second_dot s') then true
      else needs_cleaning_from false s'
  end.

Definition needs_cleaning (name : list byte) : bool :=
  match name with
  | [] => false
  | c :: _ =>
      bool_decide (c = SLASH) || needs_cleaning_from true name
      || bool_decide (last name = Some SLASH)
  end.

(** [while i < name.len() && name[i] != '/' { out.push(name[i]); i += 1 }]. *)
Fixpoint copy_component (s : list byte) : list byte * list byte :=
  match s with
  | [] => ([], [])
  | c :: s' =>
      if bool_decide (c = SLASH) then ([], s)
      else let '(component, rest) := copy_component s' in (c :: component, rest)
  end.

(** The loop that rewrites the name; each round takes at least a byte, so the length of the
    name is enough fuel. *)
Fixpoint name_loop (fuel : nat) (out s : list byte) : result io_error (list byte) :=
  match fuel, s with
  | S fuel, c :: s' =>
      if bool_decide (c = SLASH) then name_loop fuel out s'
      else if bool_decide (c = DOT_BYTE) && at_component_end s' then name_loop fuel out (drop 1 s')
      else if bool_decide (c = DOT_BYTE) && second_dot s' then Err Unsupported
      else
        let out := if bool_decide (out = []) then out else out ++ [SLASH] in
        let '(component, rest) := copy_component s in
        name_loop fuel (out ++ component) (drop 1 rest)
  | _, _ => Ok out
  end.

Fixpoint skip_slashes (s : list byte) : list byte :=
  match s with
  | c :: s' => if bool_decide (c = SLASH) then skip_slashes s' else s
  | [] => []
  end.

Definition clean_and_validate_name (relative_paths : bool) (name : list byte)
    : result io_error (list byte) :=
  match name with
  | [] => Ok name
  | first :: _ =>
      if negb (needs_cleaning name) then
        if negb relative_paths && bool_decide (first = SLASH) then Err Unsupported else Ok name
      else
        let anchored := bool_decide (first = SLASH) in
        if anchored && negb relative_paths then Err Unsupported
        else
          let start := if anchored then skip_slashes name else name in
          out ← name_loop (length start) [] start;
          if bool_decide (out = []) then Ok [DOT_BYTE] else Ok out
  end.

(** ** Components *)

(** The components that stay. *)
Definition is_kept (c : list byte) : bool := negb (bool_decide (c = [])) && negb (bool_decide (c = DOT)).
Definition kept (s : list byte) : list (list byte) := List.filter is_kept (split_slash s).

Definition slashless (c : list byte) : Prop := SLASH ∉ c.

Lemma copy_component_spec s :
  let '(c, r) := copy_component s in
  s = c ++ r ∧ slashless c ∧ (r = [] ∨ ∃ r', r = SLASH :: r').
Proof.
  unfold slashless. induction s as [|b s IH]; cbn [copy_component].
  - repeat split; [apply not_elem_of_nil|by left].
  - destruct (bool_decide_reflect (b = SLASH)) as [->|Hb].
    + repeat split; [apply not_elem_of_nil|by right; eauto].
    + destruct (copy_component s) as [c r]. destruct IH as (-> & Hc & Hr).
      repeat split; [|done]. apply not_elem_of_cons. split; [congruence|done].
Qed.

(** What comes after a component. *)
Definition tail_of (r : list byte) : Prop := r = [] ∨ ∃ r', r = SLASH :: r'.

Lemma slashless_cons b c : slashless (b :: c) ↔ b ≠ SLASH ∧ slashless c.
Proof. unfold slashless. rewrite not_elem_of_cons. split; intros []; split; congruence. Qed.

Lemma copy_component_app c r : slashless c → tail_of r → copy_component (c ++ r) = (c, r).
Proof.
  intros Hc Hr. induction c as [|b c IH]; cbn [app copy_component].
  - destruct Hr as [->|[r' ->]]; cbn [copy_component]; [done|]. by rewrite bool_decide_true.
  - apply slashless_cons in Hc as [Hb Hc]. rewrite bool_decide_false by done. by rewrite IH.
Qed.

Lemma at_component_end_app c r : slashless c → tail_of r →
  at_component_end (c ++ r) = bool_decide (c = []).
Proof.
  intros Hc Hr. destruct c as [|b c]; cbn [app at_component_end].
  - destruct Hr as [->|[r' ->]]; by cbn.
  - apply slashless_cons in Hc as [Hb _]. by rewrite !bool_decide_false.
Qed.

Lemma second_dot_app c r : slashless c → tail_of r →
  second_dot (c ++ r) = bool_decide (c = DOT).
Proof.
  intros Hc Hr. destruct c as [|b c]; cbn [app second_dot].
  - destruct Hr as [->|[r' ->]]; by cbn.
  - apply slashless_cons in Hc as [Hb Hc]. rewrite at_component_end_app by done.
    destruct (bool_decide_reflect (b = DOT_BYTE)) as [->|Hd]; cbn [andb].
    + apply bool_decide_ext. unfold DOT. split; congruence.
    + symmetry. apply bool_decide_false. unfold DOT. congruence.
Qed.

(** Induction on a name, component by component. *)
Lemma components_ind (P : list byte → Prop) :
  (∀ c, slashless c → P c) →
  (∀ c r, slashless c → P r → P (c ++ SLASH :: r)) →
  ∀ s, P s.
Proof.
  intros H1 H2 s. remember (length s) as n eqn:E. revert s E.
  induction n as [n IH] using lt_wf_ind. intros s ->.
  pose proof (copy_component_spec s) as H. destruct (copy_component s) as [c r].
  destruct H as (-> & Hc & [->|[r' ->]]).
  - rewrite app_nil_r. by apply H1.
  - apply H2; [done|]. eapply IH; [|done]. rewrite length_app. cbn [length]. lia.
Qed.

Lemma split_slash_one c : slashless c → split_slash c = [c].
Proof. intros Hc. rewrite <-(app_nil_r c) at 1. by rewrite split_slash_component by (done || by left). Qed.

Lemma split_slash_cons c r : slashless c → split_slash (c ++ SLASH :: r) = c :: split_slash r.
Proof. intros Hc. by rewrite split_slash_component by (done || (right; eauto)). Qed.

Lemma kept_cons c r : slashless c →
  kept (c ++ SLASH :: r) = (if is_kept c then [c] else []) ++ kept r.
Proof. intros Hc. unfold kept. rewrite split_slash_cons by done. cbn. by destruct (is_kept c). Qed.

Lemma kept_one c : slashless c → kept c = if is_kept c then [c] else [].
Proof. intros Hc. unfold kept. rewrite split_slash_one by done. cbn. by destruct (is_kept c). Qed.

(** One component in the loop. *)
Lemma clean_loop_component fuel out c r : slashless c → tail_of r → (0 < length (c ++ r))%nat →
  name_loop (S fuel) out (c ++ r) =
    if bool_decide (c = DOTDOT) then Err Unsupported
    else if is_kept c then
      name_loop fuel ((if bool_decide (out = []) then out else out ++ [SLASH]) ++ c) (drop 1 r)
    else name_loop fuel out (drop 1 r).
Proof.
  intros Hc Hr Hl. destruct c as [|b c].
  - destruct Hr as [->|[r' ->]]; [cbn in Hl; lia|]. by cbn.
  - pose proof Hc as [Hb Hc']%slashless_cons. cbn [app name_loop].
    rewrite (bool_decide_false (b = SLASH)) by done.
    change (b :: c ++ r) with ((b :: c) ++ r). rewrite copy_component_app by done.
    rewrite at_component_end_app, second_dot_app by done. unfold is_kept, DOTDOT.
    destruct (bool_decide_reflect (b = DOT_BYTE)) as [->|Hd]; cbn [andb].
    + destruct c as [|b2 c]; [by cbn|]. rewrite (bool_decide_false (b2 :: c = [])) by done.
      rewrite (bool_decide_false (DOT_BYTE :: b2 :: c = DOT)) by done.
      rewrite (bool_decide_false (DOT_BYTE :: b2 :: c = [])) by done. cbn [negb andb].
      rewrite (bool_decide_ext (b2 :: c = DOT) (DOT_BYTE :: b2 :: c = [DOT_BYTE; DOT_BYTE])).
      * done.
      * unfold DOT. split; congruence.
    + rewrite (bool_decide_false (b :: c = [DOT_BYTE; DOT_BYTE])) by congruence.
      rewrite (bool_decide_false (b :: c = [])) by done.
      rewrite (bool_decide_false (b :: c = DOT)); [done|]. unfold DOT. congruence.
Qed.

(** Appending components to what is written already. *)
Definition joined (out : list byte) (l : list (list byte)) : list byte :=
  if bool_decide (out = []) then join_slash l
  else match l with [] => out | _ => out ++ SLASH :: join_slash l end.

Lemma joined_cons out c l : c ≠ [] →
  joined ((if bool_decide (out = []) then out else out ++ [SLASH]) ++ c) l = joined out (c :: l).
Proof.
  intros Hc. unfold joined. rewrite (bool_decide_false (_ ++ c = [])).
  2:{ intros [_ ?]%app_nil. done. }
  destruct (bool_decide_reflect (out = [])) as [->|Ho]; [by destruct l|].
  destruct l; cbn [join_slash]; by rewrite <-!app_assoc.
Qed.

Lemma joined_nil out : joined out [] = out.
Proof. unfold joined. by destruct (bool_decide_reflect (out = [])) as [->|]. Qed.

Lemma clean_loop_nil fuel out : name_loop fuel out [] = Ok out.
Proof. by destruct fuel. Qed.

Lemma is_kept_nonempty c : is_kept c = true → c ≠ [].
Proof. by intros H ->. Qed.

(** The loop as a function of the components, given what it does with those that follow. *)
Lemma clean_loop_kept fuel out c r l : slashless c → tail_of r → (0 < length (c ++ r))%nat →
  (∀ out, name_loop fuel out (drop 1 r) =
     if bool_decide (DOTDOT ∈ l) then Err Unsupported else Ok (joined out l)) →
  let all := (if is_kept c then [c] else []) ++ l in
  name_loop (S fuel) out (c ++ r) =
    if bool_decide (DOTDOT ∈ all) then Err Unsupported else Ok (joined out all).
Proof.
  intros Hc Hr Hl IH all. rewrite clean_loop_component, !IH by done. subst all.
  destruct (bool_decide_reflect (c = DOTDOT)) as [->|Hd].
  - rewrite bool_decide_true; [done|]. cbn. by left.
  - destruct (is_kept c) eqn:Hk; cbn [app]; [|done].
    rewrite joined_cons by (by apply is_kept_nonempty).
    rewrite (bool_decide_ext (DOTDOT ∈ c :: l) (DOTDOT ∈ l)); [done|].
    rewrite elem_of_cons. split; [intros [?|?]; [congruence|done]|by right].
Qed.

Lemma clean_loop_spec s : ∀ fuel out, (length s ≤ fuel)%nat →
  name_loop fuel out s =
    if bool_decide (DOTDOT ∈ kept s) then Err Unsupported else Ok (joined out (kept s)).
Proof.
  induction s as [c Hc|c r Hc IH] using components_ind; intros fuel out Hf.
  - destruct (decide (c = [])) as [->|Hne]; [by rewrite clean_loop_nil, joined_nil|].
    assert (0 < length c)%nat by (destruct c; [done|cbn; lia]).
    destruct fuel as [|fuel]; [lia|]. rewrite kept_one by done.
    rewrite <-(app_nil_r c) at 1. rewrite <-(app_nil_r (if is_kept c then _ else _)).
    apply clean_loop_kept; [done|by left|by rewrite app_nil_r|].
    intros out'. by rewrite clean_loop_nil, joined_nil.
  - rewrite length_app in Hf. cbn [length] in Hf. destruct fuel as [|fuel]; [lia|].
    rewrite kept_cons by done. apply clean_loop_kept; [done|by right; eauto| |].
    + rewrite length_app. cbn. lia.
    + intros out'. apply IH. cbn [drop]. lia.
Qed.

(** *** The fast path *)

Lemma needs_cleaning_skip c r : slashless c →
  needs_cleaning_from false (c ++ r) = needs_cleaning_from false r.
Proof.
  induction c as [|b c IH]; intros Hc; [done|]. apply slashless_cons in Hc as [Hb Hc].
  cbn [app needs_cleaning_from]. rewrite bool_decide_false by done.
  rewrite andb_false_r. cbn [andb]. by apply IH.
Qed.

(** A component and what follows, seen by the test. *)
Lemma needs_cleaning_component c r : slashless c → tail_of r → c ≠ [] →
  needs_cleaning_from true (c ++ r) =
    bool_decide (c = DOT) || bool_decide (c = DOTDOT) || needs_cleaning_from false r.
Proof.
  intros Hc Hr Hne. destruct c as [|b c]; [done|]. apply slashless_cons in Hc as [Hb Hc].
  cbn [app needs_cleaning_from]. rewrite (bool_decide_false (b = SLASH)) by done.
  rewrite at_component_end_app, second_dot_app by done. rewrite andb_true_r.
  rewrite needs_cleaning_skip by done.
  rewrite (bool_decide_ext (b :: c = DOT) (b = DOT_BYTE ∧ c = [])) by (unfold DOT; split; [by intros [= -> ->]|by intros [-> ->]]).
  rewrite (bool_decide_ext (b :: c = DOTDOT) (b = DOT_BYTE ∧ c = DOT)) by (unfold DOT, DOTDOT; split; [by intros [= -> ->]|by intros [-> ->]]).
  rewrite !bool_decide_and. destruct (bool_decide (b = DOT_BYTE)); [|done]. cbn [andb].
  by destruct (bool_decide (c = []) || bool_decide (c = DOT)).
Qed.

Definition plain_component (c : list byte) : Prop := c ≠ [] ∧ c ≠ DOT ∧ c ≠ DOTDOT.

(** A name that does not need cleaning has nothing but plain components. *)
Lemma not_needs_cleaning s : s ≠ [] → head s ≠ Some SLASH → last s ≠ Some SLASH →
  needs_cleaning_from true s = false → Forall plain_component (split_slash s).
Proof.
  induction s as [c Hc|c r Hc IH] using components_ind; intros Hne Hh Hlast Hn.
  - rewrite split_slash_one by done. rewrite <-(app_nil_r c) in Hn.
    rewrite needs_cleaning_component in Hn by (done || by left).
    apply orb_false_iff in Hn as [[H1%bool_decide_eq_false H2%bool_decide_eq_false]%orb_false_iff _].
    by repeat constructor.
  - rewrite split_slash_cons by done. destruct (decide (c = [])) as [->|Hcne]; [done|].
    rewrite needs_cleaning_component in Hn by (done || (right; eauto)).
    apply orb_false_iff in Hn as [[H1%bool_decide_eq_false H2%bool_decide_eq_false]%orb_false_iff Hn].
    constructor; [by repeat split|]. cbn [needs_cleaning_from] in Hn.
    rewrite bool_decide_true in Hn by done.
    destruct r as [|d r]; [by rewrite last_snoc in Hlast|].
    apply orb_false_iff in Hn as [Hd%bool_decide_eq_false Hn].
    apply IH; [done|cbn; congruence| |done].
    intros Hl. apply Hlast. change (c ++ SLASH :: d :: r) with (c ++ [SLASH] ++ (d :: r)).
    rewrite app_assoc. by rewrite last_app_cons.
Qed.

Lemma join_split s : join_slash (split_slash s) = s.
Proof.
  induction s as [c Hc|c r Hc IH] using components_ind; [by rewrite split_slash_one|].
  rewrite split_slash_cons by done. cbn [join_slash].
  destruct (split_slash r) eqn:E; [|by rewrite IH]. unfold split_slash in E.
  exfalso. clear IH. revert E. generalize (@nil byte) at 1. induction r as [|b r IHr]; intros cur; cbn; [done|].
  case_decide; [done|]. apply IHr.
Qed.

Lemma split_join l : l ≠ [] → Forall slashless l → split_slash (join_slash l) = l.
Proof.
  intros Hne Hl. induction Hl as [|c l Hc Hl IH]; [done|]. destruct l as [|d l]; [by apply split_slash_one|].
  change (join_slash (c :: d :: l)) with (c ++ SLASH :: join_slash (d :: l)).
  rewrite split_slash_cons by done. by rewrite IH.
Qed.

Lemma split_slash_slashless s : Forall slashless (split_slash s).
Proof.
  induction s as [c Hc|c r Hc IH] using components_ind.
  - rewrite split_slash_one by done. by constructor.
  - rewrite split_slash_cons by done. by constructor.
Qed.

Lemma kept_skip_slashes s : kept (skip_slashes s) = kept s.
Proof.
  induction s as [|b s IH]; cbn [skip_slashes]; [done|].
  destruct (bool_decide_reflect (b = SLASH)) as [->|Hb]; [|done]. rewrite IH.
  change (SLASH :: s) with ([] ++ SLASH :: s). rewrite kept_cons; [done|]. apply not_elem_of_nil.
Qed.

Lemma is_kept_plain c : plain_component c → is_kept c = true.
Proof.
  intros (H1 & H2 & _). unfold is_kept. by rewrite !bool_decide_false.
Qed.

Lemma kept_plain s : Forall plain_component (split_slash s) → kept s = split_slash s ∧ DOTDOT ∉ kept s.
Proof.
  intros H. assert (kept s = split_slash s) as ->.
  { unfold kept. induction H as [|c l Hc Hl IH]; [done|]. cbn. rewrite is_kept_plain by done. by rewrite IH. }
  split; [done|]. intros Hin. rewrite Forall_forall in H. by destruct (H _ Hin) as (_ & _ & ?).
Qed.

(** What is written for the components that stay. *)
Definition path_of_kept (l : list (list byte)) : list byte :=
  match l with [] => DOT | _ => join_slash l end.

Lemma joined_kept_empty l : Forall (λ c, is_kept c = true) l →
  bool_decide (joined [] l = []) = bool_decide (l = []).
Proof.
  intros H. apply bool_decide_ext. unfold joined. cbn. split; [|by intros ->].
  destruct H as [|c l Hc Hl]; [done|]. apply is_kept_nonempty in Hc.
  destruct l; cbn [join_slash]; [done|]. by intros [??]%app_nil.
Qed.

Lemma kept_all s : Forall (λ c, is_kept c = true) (kept s).
Proof. apply Forall_forall. intros c Hc%list_elem_of_In. unfold kept in Hc. by apply filter_In in Hc as [_ ?]. Qed.

(** The specification: components instead of bytes. *)
Definition clean_spec (relative_paths : bool) (name : list byte) : result io_error (list byte) :=
  if bool_decide (name = []) then Ok []
  else if bool_decide (head name = Some SLASH) && negb relative_paths then Err Unsupported
  else if bool_decide (DOTDOT ∈ kept name) then Err Unsupported
  else Ok (path_of_kept (kept name)).

Lemma clean_meets_spec rel name : clean_and_validate_name rel name = clean_spec rel name.
Proof.
  unfold clean_spec, clean_and_validate_name. destruct name as [|b s]; [done|].
  set (name := b :: s). cbn [head]. rewrite (bool_decide_false (name = [])) by done.
  rewrite (bool_decide_ext (Some b = Some SLASH) (b = SLASH)) by (split; congruence).
  destruct (needs_cleaning name) eqn:Hn; cbn [negb].
  - destruct (bool_decide (b = SLASH) && negb rel); [done|].
    set (start := if bool_decide (b = SLASH) then _ else _).
    assert (kept start = kept name) as Hk.
    { subst start. destruct (bool_decide (b = SLASH)); [apply kept_skip_slashes|done]. }
    rewrite clean_loop_spec by done. rewrite Hk.
    destruct (bool_decide (DOTDOT ∈ kept name)); [done|]. cbn [mbind result_bind].
    rewrite joined_kept_empty by apply kept_all. destruct (kept name); done.
  - cbn [needs_cleaning] in Hn. subst name. apply orb_false_iff in Hn as [[Hb Hn]%orb_false_iff Hl].
    rewrite Hb, andb_false_r. cbn [andb]. apply bool_decide_eq_false in Hb, Hl.
    destruct (kept_plain (b :: s)) as [Hk Hd].
    { apply not_needs_cleaning; [done|cbn; congruence|done|done]. }
    rewrite (bool_decide_false (DOTDOT ∈ _)) by done. rewrite Hk. f_equal.
    unfold path_of_kept. rewrite <-(join_split (b :: s)) at 1.
    destruct (split_slash (b :: s)) eqn:E; [|done]. by pose proof (join_split (b :: s)) as Hj; rewrite E in Hj.
Qed.

(** A path of plain components is one that stays as it is. *)
Definition stays_below (path : list byte) : Prop :=
  path ≠ [] ∧ head path ≠ Some SLASH ∧
  (∀ c, c ∈ split_slash path → c ≠ [] ∧ c ≠ DOTDOT ∧ (path = DOT ∨ c ≠ DOT)) ∧
  ∀ rel, clean_and_validate_name rel path = Ok path.

Lemma plain_stays_below l : l ≠ [] → Forall slashless l → Forall plain_component l →
  stays_below (join_slash l).
Proof.
  intros Hne Hs Hp. pose proof (split_join l Hne Hs) as Hsplit.
  assert (Hj : head (join_slash l) ≠ Some SLASH ∧ join_slash l ≠ []).
  { destruct l as [|c l]; [done|]. inversion_clear Hs as [|?? Hc _]. inversion_clear Hp as [|?? (Hc' & _) _].
    destruct c as [|b c]; [done|]. apply slashless_cons in Hc as [Hb _].
    destruct l; cbn; split; congruence. }
  destruct Hj as [Hh Hj]. split; [done|]. split; [done|]. rewrite Forall_forall in Hp. split.
  - rewrite Hsplit. intros c Hin. destruct (Hp c Hin) as (? & ? & ?). by auto.
  - intros rel. rewrite clean_meets_spec. unfold clean_spec. rewrite !bool_decide_false by done.
    cbn [andb]. destruct (kept_plain (join_slash l)) as [Hk Hd].
    { rewrite Hsplit. by apply Forall_forall. }
    rewrite bool_decide_false by done. rewrite Hk, Hsplit. by destruct l.
Qed.

Lemma dot_stays_below : stays_below DOT.
Proof.
  split; [done|]. split; [done|]. split; [|by intros []].
  intros c Hc. change (c ∈ [DOT]) in Hc. apply list_elem_of_singleton in Hc as ->. by auto.
Qed.

Lemma kept_plain_components s : DOTDOT ∉ kept s →
  Forall slashless (kept s) ∧ Forall plain_component (kept s).
Proof.
  intros Hd. pose proof (split_slash_slashless s) as Hs. rewrite Forall_forall in Hs.
  rewrite !Forall_forall. split; intros c Hin; pose proof Hin as Hin'; apply list_elem_of_In in Hin';
    unfold kept in Hin'; apply filter_In in Hin' as [Hin'%list_elem_of_In Hk]; [by apply Hs|].
  unfold is_kept in Hk. apply andb_true_iff in Hk as [H1 H2].
  apply negb_true_iff, bool_decide_eq_false in H1, H2. repeat split; [done..|]. by intros ->.
Qed.

(** ** Properties *)

(** Cleaning a received name is a filter on its components: the test for the fast path
    and the byte loop together drop the empty components and the dots, refuse a name with a
    [..] component, refuse a leading slash unless relative paths are kept, and name the
    directory itself when nothing is left. *)
Theorem clean_is_component_filter (relative_paths : bool) (name : list byte) :
  clean_and_validate_name relative_paths name = clean_spec relative_paths name.
Proof. apply clean_meets_spec. Qed.

(** C7: No name that the receiver accepts leaves the directory it is taken in: it is not
    empty, it does not start with a slash, none of its components is [..] or empty, and only
    the name of the directory itself is a dot; cleaning it again changes nothing. *)
Theorem accepted_names_stay_below (relative_paths : bool) (name accepted : list byte) :
  name ≠ [] →
  clean_and_validate_name relative_paths name = Ok accepted →
  stays_below accepted.
Proof.
  intros Hne. rewrite clean_meets_spec. unfold clean_spec. rewrite bool_decide_false by done.
  destruct (_ && _); [done|]. destruct (bool_decide_reflect (DOTDOT ∈ kept name)) as [|Hd]; [done|].
  intros [= <-]. apply kept_plain_components in Hd as [Hs Hp]. unfold path_of_kept.
  destruct (kept name); [apply dot_stays_below|by apply plain_stays_below].
Qed.

Lemma accepted_names_stay_below_witness :
  clean_and_validate_name true (bytes "//a/./b//...") = Ok (bytes "a/b/...") ∧
  stays_below (bytes "a/b/...") ∧
  clean_and_validate_name true (bytes "a/../b") = Err Unsupported.
Proof.
  split; [by vm_compute|]. split; [|by vm_compute].
  by apply (accepted_names_stay_below true (bytes "//a/./b//...")); [|vm_compute].
Defined.
