(* ===== verification/FlistWire.v ===== *)
(** * The file list on the wire ([crates/protocol/src/flist/{state,flags}.rs], [write/], [read/])

    An entry is sent as flags and the fields that the flags announce; what an entry has in
    common with the one before it is left out, so both ends keep a compression state with the
    last name, mode, times and owner.  This file has the two codecs, statement by statement:
    [write_entry] with the flags it computes and [read_entry_with_flist] with its error paths;
    [FlistStream] proves what they do together.

    Sessions without ACLs, extended attributes and [--iconv]: the [acls] and [xattrs] parts of
    the two functions and the conversion of names are left out, and the records have no
    fields for them.  Paths are bytes, as on Unix, where the wire modes are the modes. *)

From S2P Require Import Prelude Wildmatch Utf8 FilterWire FilterSet FilterParse Varint FlistEntry FlistName.

Local Open Scope Z_scope.

(** ** Flags *)

Definition XMIT_TOP_DIR : Z := 1.
Definition XMIT_SAME_MODE : Z := 2.
Definition XMIT_EXTENDED_FLAGS : Z := 4.
Definition XMIT_SAME_UID : Z := 8.
Definition XMIT_SAME_GID : Z := 16.
Definition XMIT_SAME_NAME : Z := 32.
Definition XMIT_LONG_NAME : Z := 64.
Definition XMIT_SAME_TIME : Z := 128.

Definition XMIT_SAME_RDEV_MAJOR : Z := 1.
Definition XMIT_NO_CONTENT_DIR : Z := 1.
Definition XMIT_HLINKED : Z := 2.
Definition XMIT_SAME_DEV_PRE30 : Z := 4.
Definition XMIT_USER_NAME_FOLLOWS : Z := 4.
Definition XMIT_RDEV_MINOR_8_PRE30 : Z := 8.
Definition XMIT_GROUP_NAME_FOLLOWS : Z := 8.
Definition XMIT_HLINK_FIRST : Z := 16.
Definition XMIT_IO_ERROR_ENDLIST : Z := 16.
Definition XMIT_MOD_NSEC : Z := 32.
Definition XMIT_SAME_ATIME : Z := 64.

Definition XMIT_CRTIME_EQ_MTIME : Z := 2.

Record FileFlags := mkFlags { ff_primary : Z; ff_extended : Z; ff_extended16 : Z }.

Definition flags_from_u32 (value : Z) : FileFlags :=
  mkFlags (wrap 8 value) (wrap 8 (Z.shiftr value 8)) (wrap 8 (Z.shiftr value 16)).

Definition same_uid (f : FileFlags) : bool := has_flag (ff_primary f) XMIT_SAME_UID.
Definition same_gid (f : FileFlags) : bool := has_flag (ff_primary f) XMIT_SAME_GID.
Definition same_name (f : FileFlags) : bool := has_flag (ff_primary f) XMIT_SAME_NAME.
Definition long_name (f : FileFlags) : bool := has_flag (ff_primary f) XMIT_LONG_NAME.
Definition same_time (f : FileFlags) : bool := has_flag (ff_primary f) XMIT_SAME_TIME.
Definition same_mode (f : FileFlags) : bool := has_flag (ff_primary f) XMIT_SAME_MODE.
Definition ff_top_dir (f : FileFlags) : bool := has_flag (ff_primary f) XMIT_TOP_DIR.
Definition ff_hlinked (f : FileFlags) : bool := has_flag (ff_extended f) XMIT_HLINKED.
Definition ff_hlink_first (f : FileFlags) : bool := has_flag (ff_extended f) XMIT_HLINK_FIRST.
Definition same_rdev_major (f : FileFlags) : bool := has_flag (ff_extended f) XMIT_SAME_RDEV_MAJOR.
Definition mod_nsec (f : FileFlags) : bool := has_flag (ff_extended f) XMIT_MOD_NSEC.
Definition user_name_follows (f : FileFlags) : bool := has_flag (ff_extended f) XMIT_USER_NAME_FOLLOWS.
Definition group_name_follows (f : FileFlags) : bool := has_flag (ff_extended f) XMIT_GROUP_NAME_FOLLOWS.
Definition no_content_dir (f : FileFlags) : bool := has_flag (ff_extended f) XMIT_NO_CONTENT_DIR.
Definition same_atime (f : FileFlags) : bool := has_flag (ff_extended f) XMIT_SAME_ATIME.
Definition same_dev_pre30 (f : FileFlags) : bool := has_flag (ff_extended f) XMIT_SAME_DEV_PRE30.
Definition rdev_minor_8_pre30 (f : FileFlags) : bool := has_flag (ff_extended f) XMIT_RDEV_MINOR_8_PRE30.
Definition crtime_eq_mtime (f : FileFlags) : bool := has_flag (ff_extended16 f) XMIT_CRTIME_EQ_MTIME.

(** ** The compression state *)

Definition MAXPATHLEN : nat := 4096.

(** The name buffer and its length are the list of its valid bytes. *)
Record FileListCompressionState := mkState {
  prev_name : list byte;
  prev_mode : Z;
  prev_mtime : Z;
  prev_atime : Z;
  prev_uid : Z;
  prev_gid : Z;
  prev_rdev_major : Z;
  prev_rdev : Z;
  prev_hardlink_dev : Z;
}.

Definition state_default : FileListCompressionState := mkState [] 0 0 0 0 0 0 0 0.

Fixpoint common_prefix (a b : list byte) : nat :=
  match a, b with
  | x :: a', y :: b' => if bool_decide (x = y) then S (common_prefix a' b') else O
  | _, _ => O
  end.

Definition calculate_name_prefix_len (st : FileListCompressionState) (name : list byte) : nat :=
  Nat.min (common_prefix (prev_name st) name) 255.

Definition set_prev_name (name : list byte) (st : FileListCompressionState) : FileListCompressionState :=
  mkState (take (Nat.min (length name) MAXPATHLEN) name) (prev_mode st) (prev_mtime st) (prev_atime st)
    (prev_uid st) (prev_gid st) (prev_rdev_major st) (prev_rdev st) (prev_hardlink_dev st).

Definition update (name : list byte) (mode mtime uid gid : Z) (st : FileListCompressionState)
    : FileListCompressionState :=
  let st := set_prev_name name st in
  mkState (prev_name st) mode mtime (prev_atime st) uid gid (prev_rdev_major st) (prev_rdev st)
    (prev_hardlink_dev st).

Definition update_name (name : list byte) (st : FileListCompressionState) : FileListCompressionState :=
  set_prev_name name st.
Definition update_mode (mode : Z) (st : FileListCompressionState) : FileListCompressionState :=
  mkState (prev_name st) mode (prev_mtime st) (prev_atime st) (prev_uid st) (prev_gid st)
    (prev_rdev_major st) (prev_rdev st) (prev_hardlink_dev st).
Definition update_mtime (mtime : Z) (st : FileListCompressionState) : FileListCompressionState :=
  mkState (prev_name st) (prev_mode st) mtime (prev_atime st) (prev_uid st) (prev_gid st)
    (prev_rdev_major st) (prev_rdev st) (prev_hardlink_dev st).
Definition update_atime (atime : Z) (st : FileListCompressionState) : FileListCompressionState :=
  mkState (prev_name st) (prev_mode st) (prev_mtime st) atime (prev_uid st) (prev_gid st)
    (prev_rdev_major st) (prev_rdev st) (prev_hardlink_dev st).
Definition update_uid (uid : Z) (st : FileListCompressionState) : FileListCompressionState :=
  mkState (prev_name st) (prev_mode st) (prev_mtime st) (prev_atime st) uid (prev_gid st)
    (prev_rdev_major st) (prev_rdev st) (prev_hardlink_dev st).
Definition update_gid (gid : Z) (st : FileListCompressionState) : FileListCompressionState :=
  mkState (prev_name st) (prev_mode st) (prev_mtime st) (prev_atime st) (prev_uid st) gid
    (prev_rdev_major st) (prev_rdev st) (prev_hardlink_dev st).
Definition update_rdev_major (major : Z) (st : FileListCompressionState) : FileListCompressionState :=
  mkState (prev_name st) (prev_mode st) (prev_mtime st) (prev_atime st) (prev_uid st) (prev_gid st)
    major (prev_rdev st) (prev_hardlink_dev st).
Definition update_hardlink_dev (dev : Z) (st : FileListCompressionState) : FileListCompressionState :=
  mkState (prev_name st) (prev_mode st) (prev_mtime st) (prev_atime st) (prev_uid st) (prev_gid st)
    (prev_rdev_major st) (prev_rdev st) dev.

(** ** Statistics *)

Record FileListStats := mkFlistStats {
  num_files : Z;
  num_dirs : Z;
  num_symlinks : Z;
  num_devices : Z;
  num_specials : Z;
  total_size : Z;
}.

Definition flist_stats_default : FileListStats := mkFlistStats 0 0 0 0 0 0.

(** [update_stats], which the writer and the reader have each for itself. *)
Definition update_stats (e : FileEntry) (s : FileListStats) : FileListStats :=
  let add n := saturating_add u64_max (total_size s) n in
  if is_dir e then
    mkFlistStats (num_files s) (num_dirs s + 1) (num_symlinks s) (num_devices s) (num_specials s) (total_size s)
  else if is_file e then
    mkFlistStats (num_files s + 1) (num_dirs s) (num_symlinks s) (num_devices s) (num_specials s)
      (add (fe_size e))
  else if is_symlink e then
    mkFlistStats (num_files s) (num_dirs s) (num_symlinks s + 1) (num_devices s) (num_specials s)
      (match link_target e with
       | Some target => add (Z.of_nat (length target))
       | None => total_size s
       end)
  else if is_device e then
    mkFlistStats (num_files s) (num_dirs s) (num_symlinks s) (num_devices s + 1) (num_specials s) (total_size s)
  else if is_special e then
    mkFlistStats (num_files s) (num_dirs s) (num_symlinks s) (num_devices s) (num_specials s + 1) (total_size s)
  else s.

(** ** Codecs of the two families of protocols

    [None] is a panic of the writer. *)

Record ProtocolCodec := mkCodec {
  write_file_size : Z → option (list byte);
  read_file_size : parser Z;
  write_mtime : Z → option (list byte);
  read_mtime : parser Z;
  write_long_name_len : Z → list byte;
  read_long_name_len : parser Z;
}.

Definition legacy_read_file_size : parser Z :=
  buf ← read_exact 4;
  let value := i32_from_le buf in
  if negb (value =? -1) then mret value
  else buf64 ← read_exact 8; mret (i64_from_le buf64).

Definition legacy_write_mtime (mtime : Z) : list byte := le_bytes 4 (wrap 32 mtime).
Definition legacy_read_mtime : parser Z := buf ← read_exact 4; mret (le_val buf).

Definition legacy_write_long_name_len (len : Z) : list byte := le_bytes 4 (swrap 32 len).
Definition legacy_read_long_name_len : parser Z :=
  buf ← read_exact 4;
  let value := i32_from_le buf in
  if value <? 0 then fail InvalidData else mret value.

Definition modern_read_long_name_len : parser Z :=
  value ← read_varint;
  if value <? 0 then fail InvalidData else mret value.

Definition LegacyProtocolCodec : ProtocolCodec :=
  mkCodec (λ size, Some (write_longint size)) legacy_read_file_size
    (λ mtime, Some (legacy_write_mtime mtime)) legacy_read_mtime
    legacy_write_long_name_len legacy_read_long_name_len.

Definition ModernProtocolCodec : ProtocolCodec :=
  mkCodec (λ size, write_varlong size 3) (read_varlong 3)
    (λ mtime, write_varlong mtime 4) (read_varlong 4)
    (λ len, write_varint (swrap 32 len)) modern_read_long_name_len.

Definition create_protocol_codec (protocol_version : Z) : ProtocolCodec :=
  if protocol_version <? 30 then LegacyProtocolCodec else ModernProtocolCodec.

Definition uses_fixed_encoding (protocol : Z) : bool := protocol <? 30.
Definition supports_extended_flags (protocol : Z) : bool := 28 <=? protocol.
Definition safe_file_list_always_enabled (protocol : Z) : bool := 31 <=? protocol.

(** ** The writer *)

Record PreserveFlags := mkPreserve {
  p_uid : bool;
  p_gid : bool;
  p_links : bool;
  p_devices : bool;
  p_specials : bool;
  p_hard_links : bool;
  p_atimes : bool;
  p_crtimes : bool;
}.

Record FileListWriter := mkWriter {
  fw_protocol : Z;
  fw_state : FileListCompressionState;
  fw_stats : FileListStats;
  fw_preserve : PreserveFlags;
  fw_always_checksum : bool;
  fw_flist_csum_len : nat;
  fw_use_varint_flags : bool;
  fw_use_safe_file_list : bool;
  fw_first_ndx : Z;
  fw_name_follows : bool;
}.

Definition fw_codec (w : FileListWriter) : ProtocolCodec := create_protocol_codec (fw_protocol w).

Definition fw_with_state (st : FileListCompressionState) (w : FileListWriter) : FileListWriter :=
  mkWriter (fw_protocol w) st (fw_stats w) (fw_preserve w) (fw_always_checksum w) (fw_flist_csum_len w)
    (fw_use_varint_flags w) (fw_use_safe_file_list w) (fw_first_ndx w) (fw_name_follows w).
Definition fw_with_stats (s : FileListStats) (w : FileListWriter) : FileListWriter :=
  mkWriter (fw_protocol w) (fw_state w) s (fw_preserve w) (fw_always_checksum w) (fw_flist_csum_len w)
    (fw_use_varint_flags w) (fw_use_safe_file_list w) (fw_first_ndx w) (fw_name_follows w).
Definition set_first_ndx (first_ndx : Z) (w : FileListWriter) : FileListWriter :=
  mkWriter (fw_protocol w) (fw_state w) (fw_stats w) (fw_preserve w) (fw_always_checksum w)
    (fw_flist_csum_len w) (fw_use_varint_flags w) (fw_use_safe_file_list w) first_ndx (fw_name_follows w).

(** [if cond { xflags |= bit }]. *)
Definition on (cond : bool) (bit xflags : Z) : Z := if cond then Z.lor xflags bit else xflags.

Definition byte1 (bit : Z) : Z := Z.shiftl bit 8.
Definition byte2 (bit : Z) : Z := Z.shiftl bit 16.

Definition calculate_basic_flags (w : FileListWriter) (e : FileEntry) (same_len suffix_len : nat) : Z :=
  let st := fw_state w in
  let xflags := on (is_dir e && top_dir e) XMIT_TOP_DIR 0 in
  let xflags := on (fe_mode e =? prev_mode st) XMIT_SAME_MODE xflags in
  let xflags := on (fe_mtime e =? prev_mtime st) XMIT_SAME_TIME xflags in
  let not_first_entry := negb (bool_decide (prev_name st = [])) in
  let entry_uid := default 0 (uid e) in
  let xflags := on (negb (p_uid (fw_preserve w)) || ((entry_uid =? prev_uid st) && not_first_entry))
                  XMIT_SAME_UID xflags in
  let entry_gid := default 0 (gid e) in
  let xflags := on (negb (p_gid (fw_preserve w)) || ((entry_gid =? prev_gid st) && not_first_entry))
                  XMIT_SAME_GID xflags in
  let xflags := on (0 <? same_len)%nat XMIT_SAME_NAME xflags in
  on (255 <? suffix_len)%nat XMIT_LONG_NAME xflags.

(** Device numbers are on the wire. *)
Definition needs_rdev (preserve : PreserveFlags) (protocol : Z) (is_device is_special : bool) : bool :=
  (p_devices preserve && is_device) || (p_specials preserve && is_special && (protocol <? 31)).

Definition calculate_device_flags (w : FileListWriter) (e : FileEntry) : Z :=
  let proto := fw_protocol w in
  let pre30 := (28 <=? proto) && (proto <? 30) in
  if negb (needs_rdev (fw_preserve w) proto (is_device e) (is_special e)) then 0
  else if is_special e then
    on pre30 (byte1 XMIT_RDEV_MINOR_8_PRE30) (byte1 XMIT_SAME_RDEV_MAJOR)
  else
    let major := default 0 (rdev_major e) in
    let minor := default 0 (rdev_minor e) in
    let xflags := on (major =? prev_rdev_major (fw_state w)) (byte1 XMIT_SAME_RDEV_MAJOR) 0 in
    on (pre30 && (minor <=? 0xff)) (byte1 XMIT_RDEV_MINOR_8_PRE30) xflags.

Definition calculate_hardlink_flags (w : FileListWriter) (e : FileEntry) : Z :=
  if negb (p_hard_links (fw_preserve w)) || is_dir e then 0
  else if 30 <=? fw_protocol w then
    match hardlink_idx e with
    | Some idx => on (idx =? u32_max) (byte1 XMIT_HLINK_FIRST) (byte1 XMIT_HLINKED)
    | None => 0
    end
  else if 28 <=? fw_protocol w then
    match hardlink_dev e with
    | Some dev => on (dev =? prev_hardlink_dev (fw_state w)) (byte1 XMIT_SAME_DEV_PRE30) (byte1 XMIT_HLINKED)
    | None => 0
    end
  else 0.


Definition calculate_owner_name_flags (w : FileListWriter) (e : FileEntry) (current_flags : Z) : Z :=
  if (fw_protocol w <? 30) || negb (fw_name_follows w) then 0
  else
    let xflags := on (p_uid (fw_preserve w) && is_some (user_name e)
                        && negb (has_flag current_flags XMIT_SAME_UID))
                    (byte1 XMIT_USER_NAME_FOLLOWS) 0 in
    on (p_gid (fw_preserve w) && is_some (group_name e) && negb (has_flag current_flags XMIT_SAME_GID))
      (byte1 XMIT_GROUP_NAME_FOLLOWS) xflags.

Definition calculate_time_flags (w : FileListWriter) (e : FileEntry) : Z :=
  let xflags := on (p_atimes (fw_preserve w) && negb (is_dir e) && (atime e =? prev_atime (fw_state w)))
                  (byte1 XMIT_SAME_ATIME) 0 in
  let xflags := on (fw_use_varint_flags w && p_crtimes (fw_preserve w) && (crtime e =? fe_mtime e))
                  (byte2 XMIT_CRTIME_EQ_MTIME) xflags in
  on ((31 <=? fw_protocol w) && negb (fe_mtime_nsec e =? 0)) (byte1 XMIT_MOD_NSEC) xflags.

Definition calculate_directory_flags (w : FileListWriter) (e : FileEntry) : Z :=
  on (is_dir e && (30 <=? fw_protocol w) && negb (content_dir e)) (byte1 XMIT_NO_CONTENT_DIR) 0.

Definition calculate_xflags (w : FileListWriter) (e : FileEntry) (same_len suffix_len : nat) : Z :=
  let xflags := calculate_basic_flags w e same_len suffix_len in
  let xflags := Z.lor xflags (calculate_device_flags w e) in
  let xflags := Z.lor xflags (calculate_hardlink_flags w e) in
  let xflags := Z.lor xflags (calculate_owner_name_flags w e xflags) in
  let xflags := Z.lor xflags (calculate_time_flags w e) in
  Z.lor xflags (calculate_directory_flags w e).

(** What a method of the writer appends to the output, and the writer after it; [None] is a
    panic.  A write to the output itself does not fail. *)
Definition encoder : Type := FileListWriter → option (list byte * FileListWriter).

Definition skip : encoder := λ w, Some ([], w).
Definition emit (out : list byte) : encoder := λ w, Some (out, w).
Definition emit_some (out : option (list byte)) : encoder := λ w, out ← out; Some (out, w).
Definition modify (f : FileListCompressionState → FileListCompressionState) : encoder :=
  λ w, Some ([], fw_with_state (f (fw_state w)) w).
Definition seq_enc (a b : encoder) : encoder := λ w,
  match a w with
  | Some (x, w1) => match b w1 with Some (y, w2) => Some (x ++ y, w2) | None => None end
  | None => None
  end.

Declare Scope enc_scope.
Delimit Scope enc_scope with enc.
Notation "a >+> b" := (seq_enc a b) (at level 60, right associativity) : enc_scope.
Local Open Scope enc_scope.

Definition write_flags (xflags : Z) (is_dir : bool) : encoder := λ w,
  (if fw_use_varint_flags w then
     let flags_to_write := if xflags =? 0 then XMIT_EXTENDED_FLAGS else xflags in
     emit (write_varint (swrap 32 flags_to_write))
   else if supports_extended_flags (fw_protocol w) then
     let xflags_to_write := on ((xflags =? 0) && negb is_dir) XMIT_TOP_DIR xflags in
     if has_flag xflags_to_write 0xff00 || (xflags_to_write =? 0) then
       emit (le_bytes 2 (wrap 16 (Z.lor xflags_to_write XMIT_EXTENDED_FLAGS)))
     else emit [zb xflags_to_write]
   else
     let flags_to_write :=
       if Z.land xflags 0xff =? 0 then
         if is_dir then Z.lor xflags XMIT_LONG_NAME else Z.lor xflags XMIT_TOP_DIR
       else xflags in
     emit [zb flags_to_write]) w.

Definition write_name (name : list byte) (same_len suffix_len : nat) (xflags : Z) : encoder := λ w,
  ((if has_flag xflags XMIT_SAME_NAME then emit [zb (Z.of_nat same_len)] else skip) >+>
   (if has_flag xflags XMIT_LONG_NAME
    then emit (write_long_name_len (fw_codec w) (Z.of_nat suffix_len))
    else emit [zb (Z.of_nat suffix_len)]) >+>
   emit (drop same_len name)) w.

Definition write_symlink_target (e : FileEntry) : encoder := λ w,
  if negb (p_links (fw_preserve w)) || negb (is_symlink e) then skip w
  else match link_target e with
       | Some target =>
           (emit (write_varint30_int (swrap 32 (Z.of_nat (length target))) (fw_protocol w)) >+>
            emit target) w
       | None => skip w
       end.

Definition write_rdev (e : FileEntry) (xflags : Z) : encoder := λ w,
  let proto := fw_protocol w in
  if negb (needs_rdev (fw_preserve w) proto (is_device e) (is_special e)) then skip w
  else
    let '(major, minor) :=
      if is_device e then (default 0 (rdev_major e), default 0 (rdev_minor e)) else (0, 0) in
    ((if has_flag xflags (byte1 XMIT_SAME_RDEV_MAJOR) then skip
      else emit (write_varint30_int (swrap 32 major) proto)) >+>
     (if 30 <=? proto then emit (write_varint (swrap 32 minor))
      else if has_flag xflags (byte1 XMIT_RDEV_MINOR_8_PRE30) then emit [zb minor]
      else emit (le_bytes 4 (swrap 32 minor))) >+>
     (if is_device e then modify (update_rdev_major major) else skip)) w.

Definition write_hardlink_idx (e : FileEntry) (xflags : Z) : encoder := λ w,
  if negb (p_hard_links (fw_preserve w)) || (fw_protocol w <? 30) then skip w
  else
    let hlinked := has_flag xflags (byte1 XMIT_HLINKED) in
    let hlink_first := has_flag xflags (byte1 XMIT_HLINK_FIRST) in
    if hlinked && negb hlink_first then
      match hardlink_idx e with
      | Some idx => emit (write_varint (swrap 32 idx)) w
      | None => skip w
      end
    else skip w.

(** [dev + 1] wraps, as in a release build. *)
Definition write_hardlink_dev_ino (e : FileEntry) (xflags : Z) : encoder := λ w,
  if negb (p_hard_links (fw_preserve w)) || (30 <=? fw_protocol w) || (fw_protocol w <? 28) || is_dir e
  then skip w
  else match hardlink_dev e with
       | None => skip w
       | Some dev =>
           let ino := default 0 (hardlink_ino e) in
           ((if has_flag xflags (byte1 XMIT_SAME_DEV_PRE30) then skip
             else emit (write_longint (swrap 64 (dev + 1)))) >+>
            emit (write_longint ino) >+>
            modify (update_hardlink_dev dev)) w
       end.

Definition MAX_CSUM_LEN : nat := 20.

(** [&zeros[..n]]. *)
Definition zeros_slice (n : nat) : option (list byte) :=
  if (n <=? MAX_CSUM_LEN)%nat then Some (replicate n x00) else None.

Definition write_checksum (e : FileEntry) : encoder := λ w,
  let csum_len := fw_flist_csum_len w in
  if negb (fw_always_checksum w) || (csum_len =? 0)%nat then skip w
  else if negb (is_file e) && (28 <=? fw_protocol w) then skip w
  else if is_file e then
    match checksum e with
    | Some sum =>
        let len := Nat.min (length sum) csum_len in
        (emit (take len sum) >+>
         (if (len <? csum_len)%nat then emit_some (zeros_slice (csum_len - len)) else skip)) w
    | None => emit_some (zeros_slice csum_len) w
    end
  else emit_some (zeros_slice csum_len) w.

Definition is_hardlink_follower (xflags : Z) : bool :=
  has_flag xflags (byte1 XMIT_HLINKED) && negb (has_flag xflags (byte1 XMIT_HLINK_FIRST)).

Definition write_end (io_error : option Z) (w : FileListWriter) : list byte :=
  if fw_use_varint_flags w then write_varint 0 ++ write_varint (default 0 io_error)
  else match io_error with
       | Some error =>
           if fw_use_safe_file_list w
           then [zb XMIT_EXTENDED_FLAGS; zb XMIT_IO_ERROR_ENDLIST] ++ write_varint error
           else [x00]
       | None => [x00]
       end.

(** *** Metadata *)

Definition write_size (e : FileEntry) : encoder := λ w,
  emit_some (write_file_size (fw_codec w) (swrap 64 (fe_size e))) w.

Definition write_time_fields (e : FileEntry) (xflags : Z) : encoder := λ w,
  ((if has_flag xflags XMIT_SAME_TIME then skip else emit_some (write_mtime (fw_codec w) (fe_mtime e))) >+>
   (if has_flag xflags (byte1 XMIT_MOD_NSEC) then emit (write_varint (swrap 32 (fe_mtime_nsec e))) else skip) >+>
   (if p_crtimes (fw_preserve w) && negb (has_flag xflags (byte2 XMIT_CRTIME_EQ_MTIME))
    then emit_some (write_varlong (crtime e) 4) else skip)) w.

Definition to_wire_mode (mode : Z) : Z := swrap 32 mode.
Definition from_wire_mode (mode : Z) : Z := wrap 32 mode.

Definition write_mode (e : FileEntry) (xflags : Z) : encoder :=
  if has_flag xflags XMIT_SAME_MODE then skip else emit (le_bytes 4 (to_wire_mode (fe_mode e))).

Definition write_atime (e : FileEntry) (xflags : Z) : encoder := λ w,
  if p_atimes (fw_preserve w) && negb (is_dir e) && negb (has_flag xflags (byte1 XMIT_SAME_ATIME))
  then (emit_some (write_varlong (atime e) 4) >+> modify (update_atime (atime e))) w
  else skip w.

Definition write_owner_name (name : option (list byte)) : encoder :=
  match name with
  | Some name =>
      let len := Nat.min (length name) 255 in
      emit [zb (Z.of_nat len)] >+> emit (take len name)
  | None => skip
  end.

Definition write_uid_field (e : FileEntry) (xflags : Z) : encoder := λ w,
  let entry_uid := default 0 (uid e) in
  if negb (p_uid (fw_preserve w)) || has_flag xflags XMIT_SAME_UID then skip w
  else
    ((if uses_fixed_encoding (fw_protocol w) then emit (le_bytes 4 (swrap 32 entry_uid))
      else emit (write_varint (swrap 32 entry_uid)) >+>
           (if has_flag xflags (byte1 XMIT_USER_NAME_FOLLOWS) then write_owner_name (user_name e) else skip)) >+>
     modify (update_uid entry_uid)) w.

Definition write_gid_field (e : FileEntry) (xflags : Z) : encoder := λ w,
  let entry_gid := default 0 (gid e) in
  if negb (p_gid (fw_preserve w)) || has_flag xflags XMIT_SAME_GID then skip w
  else
    ((if uses_fixed_encoding (fw_protocol w) then emit (le_bytes 4 (swrap 32 entry_gid))
      else emit (write_varint (swrap 32 entry_gid)) >+>
           (if has_flag xflags (byte1 XMIT_GROUP_NAME_FOLLOWS) then write_owner_name (group_name e) else skip)) >+>
     modify (update_gid entry_gid)) w.

Definition write_metadata (e : FileEntry) (xflags : Z) : encoder :=
  write_size e >+> write_time_fields e xflags >+> write_mode e xflags >+> write_atime e xflags >+>
  write_uid_field e xflags >+> write_gid_field e xflags.

(** *** The entry *)

Definition w_is_abbreviated_follower (w : FileListWriter) (e : FileEntry) (xflags : Z) : bool :=
  if fw_protocol w <? 30 then false
  else if negb (is_hardlink_follower xflags) then false
  else match hardlink_idx e with Some idx => fw_first_ndx w <=? swrap 32 idx | None => false end.

Definition write_entry (e : FileEntry) : encoder := λ w,
  let name := name_bytes e in
  let same_len := calculate_name_prefix_len (fw_state w) name in
  let suffix_len := (length name - same_len)%nat in
  let xflags := calculate_xflags w e same_len suffix_len in
  let abbreviated := w_is_abbreviated_follower w e xflags in
  (write_flags xflags (is_dir e) >+>
   write_name name same_len suffix_len xflags >+>
   write_hardlink_idx e xflags >+>
   (if negb abbreviated then
      write_metadata e xflags >+> write_rdev e xflags >+> write_symlink_target e >+>
      write_hardlink_dev_ino e xflags
    else skip) >+>
   (if negb abbreviated then write_checksum e else skip) >+>
   modify (if abbreviated then update_name name
           else update name (fe_mode e) (fe_mtime e) (default 0 (uid e)) (default 0 (gid e))) >+>
   (λ w, Some ([], fw_with_stats (update_stats e (fw_stats w)) w))) w.

(** The entries of a segment, in order ([send_file_list], [encode_and_send_segment_inner]). *)
Fixpoint write_entries (l : list FileEntry) : encoder :=
  match l with
  | [] => skip
  | e :: l' => write_entry e >+> write_entries l'
  end.

Definition send_segment (l : list FileEntry) (io_error : option Z) : encoder :=
  write_entries l >+> (λ w, Some (write_end io_error w, w)).

(** ** The reader *)

(** The [preserve_*] fields are the flags [fr_preserve]; [fr_compat_flags] are the bits of the
    negotiated compatibility flags. *)
Record FileListReader := mkReader {
  fr_protocol : Z;
  fr_compat_flags : option Z;
  fr_state : FileListCompressionState;
  fr_stats : FileListStats;
  fr_preserve : PreserveFlags;
  fr_delete_missing_args : bool;
  fr_always_checksum : bool;
  fr_flist_csum_len : nat;
  fr_relative_paths : bool;
  fr_ndx_start : Z;
  fr_io_error : Z;
}.

Definition fr_codec (r : FileListReader) : ProtocolCodec := create_protocol_codec (fr_protocol r).

Definition fr_with_state (st : FileListCompressionState) (r : FileListReader) : FileListReader :=
  mkReader (fr_protocol r) (fr_compat_flags r) st (fr_stats r) (fr_preserve r) (fr_delete_missing_args r)
    (fr_always_checksum r) (fr_flist_csum_len r) (fr_relative_paths r) (fr_ndx_start r) (fr_io_error r).
Definition fr_with_stats (s : FileListStats) (r : FileListReader) : FileListReader :=
  mkReader (fr_protocol r) (fr_compat_flags r) (fr_state r) s (fr_preserve r) (fr_delete_missing_args r)
    (fr_always_checksum r) (fr_flist_csum_len r) (fr_relative_paths r) (fr_ndx_start r) (fr_io_error r).
Definition fr_with_io_error (code : Z) (r : FileListReader) : FileListReader :=
  mkReader (fr_protocol r) (fr_compat_flags r) (fr_state r) (fr_stats r) (fr_preserve r)
    (fr_delete_missing_args r) (fr_always_checksum r) (fr_flist_csum_len r) (fr_relative_paths r)
    (fr_ndx_start r) code.
Definition set_ndx_start (ndx_start : Z) (r : FileListReader) : FileListReader :=
  mkReader (fr_protocol r) (fr_compat_flags r) (fr_state r) (fr_stats r) (fr_preserve r)
    (fr_delete_missing_args r) (fr_always_checksum r) (fr_flist_csum_len r) (fr_relative_paths r)
    ndx_start (fr_io_error r).

(** A method of the reader over the bytes still to come: the reader after it, which keeps
    what was updated before an error, and the value with the bytes that are left. *)
Definition decoder (A : Type) : Type :=
  FileListReader → list byte → FileListReader * result io_error (A * list byte).

#[export] Instance decoder_ret : MRet decoder := λ A a r s, (r, Ok (a, s)).
#[export] Instance decoder_bind : MBind decoder := λ A B f p r s,
  match p r s with
  | (r', Ok (a, s')) => f a r' s'
  | (r', Err e) => (r', Err e)
  end.

Definition wire {A} (p : parser A) : decoder A := λ r s, (r, p s).
Definition raise {A} (e : io_error) : decoder A := λ r _, (r, Err e).
Definition self : decoder FileListReader := λ r s, (r, Ok (r, s)).
Definition set_self (f : FileListReader → FileListReader) : decoder unit := λ r s, (f r, Ok (tt, s)).
Definition set_state (f : FileListCompressionState → FileListCompressionState) : decoder unit :=
  set_self (λ r, fr_with_state (f (fr_state r)) r).

Definition read_byte : parser Z := b ← read_u8; mret (uz b).

Definition VARINT_FLIST_FLAGS : Z := 0x80.
Definition SAFE_FILE_LIST : Z := 0x08.

Definition compat_contains (flags : option Z) (flag : Z) : bool :=
  match flags with Some f => Z.land f flag =? flag | None => false end.

Definition use_varint_flags (r : FileListReader) : bool :=
  compat_contains (fr_compat_flags r) VARINT_FLIST_FLAGS.
Definition use_safe_file_list (r : FileListReader) : bool :=
  compat_contains (fr_compat_flags r) SAFE_FILE_LIST || safe_file_list_always_enabled (fr_protocol r).

(** *** Flags *)

Inductive FlagsResult := EndOfList | FlagsIoError (code : Z) | Flags (f : FileFlags).

Definition check_error_marker (primary extended : Z) : decoder (option Z) :=
  r ← self;
  let flags_value := Z.lor primary (Z.shiftl extended 8) in
  let error_marker := Z.lor XMIT_EXTENDED_FLAGS (Z.shiftl XMIT_IO_ERROR_ENDLIST 8) in
  if negb (flags_value =? error_marker) then mret None
  else if negb (use_safe_file_list r) then raise InvalidData
  else error_code ← wire read_varint; mret (Some error_code).

(** The second and third byte of the flags. *)
Definition read_extended_bytes (use_varint : bool) (flags_value : Z) : decoder (Z * Z) :=
  r ← self;
  if use_varint then mret (Z.land (Z.shiftr flags_value 8) 0xff, Z.land (Z.shiftr flags_value 16) 0xff)
  else if (28 <=? fr_protocol r) && has_flag (wrap 8 flags_value) XMIT_EXTENDED_FLAGS then
    b ← wire read_byte; mret (b, 0)
  else mret (0, 0).

Definition read_flags : decoder FlagsResult :=
  r ← self;
  let use_varint := use_varint_flags r in
  flags_value ← wire (if use_varint then read_varint else read_byte);
  if flags_value =? 0 then
    if use_varint then
      io_error ← wire read_varint;
      mret (if negb (io_error =? 0) then FlagsIoError io_error else EndOfList)
    else mret EndOfList
  else
    '(ext_byte, ext16_byte) ← read_extended_bytes use_varint flags_value;
    let primary_byte := wrap 8 flags_value in
    error ← check_error_marker primary_byte ext_byte;
    mret (match error with
          | Some error => FlagsIoError error
          | None =>
              Flags (if negb (ext_byte =? 0) || negb (ext16_byte =? 0)
                        || has_flag primary_byte XMIT_EXTENDED_FLAGS
                     then mkFlags primary_byte ext_byte ext16_byte
                     else mkFlags primary_byte 0 0)
          end).

(** *** Names *)

Definition read_name (flags : FileFlags) : decoder (list byte) :=
  r ← self;
  same_len ← wire (if same_name flags then read_byte else mret 0);
  suffix_len ← wire (if long_name flags then read_long_name_len (fr_codec r) else read_byte);
  if Z.of_nat (length (prev_name (fr_state r))) <? same_len then raise InvalidData
  else
    let total_len := same_len + suffix_len in
    if usize_max <? total_len then raise InvalidData
    else if Z.of_nat MAXPATHLEN <=? total_len then raise InvalidData
    else
      let name := take (Z.to_nat same_len) (prev_name (fr_state r)) in
      suffix ← wire (if 0 <? suffix_len then read_exact (Z.to_nat suffix_len) else mret []);
      let name := name ++ suffix in
      set_state (update_name name);;
      mret name.

(** *** Metadata *)

Definition MAX_WIRE_NSEC : Z := 999999999.

Record MetadataResult := mkMeta {
  m_mtime : Z;
  m_nsec : Z;
  m_mode : Z;
  m_uid : option Z;
  m_gid : option Z;
  m_user_name : option (list byte);
  m_group_name : option (list byte);
  m_atime : option Z;
  m_atime_nsec : Z;
  m_crtime : option Z;
  m_content_dir : bool;
}.

Definition read_owner_id (same name_follows : bool) (prev_id : Z) (fixed_encoding : bool)
    : parser (Z * option (list byte)) :=
  if same then mret (prev_id, None)
  else
    id ← (if fixed_encoding then buf ← read_exact 4; mret (wrap 32 (i32_from_le buf))
          else v ← read_varint; mret (wrap 32 v));
    name ← (if name_follows then
              len ← read_byte;
              if 0 <? len then
                name_bytes ← read_exact (Z.to_nat len);
                mret (Some (if valid_utf8 name_bytes then name_bytes else from_utf8_lossy name_bytes))
              else mret None
            else mret None);
    mret (id, name).

Definition read_mtime_field (flags : FileFlags) : decoder Z :=
  r ← self;
  if same_time flags then mret (prev_mtime (fr_state r))
  else
    mtime ← wire (read_mtime (fr_codec r));
    set_state (update_mtime mtime);;
    mret mtime.

Definition read_nsec (flags : FileFlags) : decoder Z :=
  if mod_nsec flags then
    raw ← wire read_varint;
    if negb ((0 <=? raw) && (raw <=? MAX_WIRE_NSEC)) then raise ProtocolViolation else mret raw
  else mret 0.

Definition read_crtime (flags : FileFlags) (mtime : Z) : decoder (option Z) :=
  r ← self;
  if p_crtimes (fr_preserve r) then
    if crtime_eq_mtime flags then mret (Some mtime)
    else crtime ← wire (read_varlong 4); mret (Some crtime)
  else mret None.

Definition read_mode (flags : FileFlags) : decoder Z :=
  r ← self;
  mode ← (if same_mode flags then mret (prev_mode (fr_state r))
          else
            mode_bytes ← wire (read_exact 4);
            let mode := from_wire_mode (i32_from_le mode_bytes) in
            set_state (update_mode mode);;
            mret mode);
  if negb ((mode =? 0) && fr_delete_missing_args r) && negb (is_some (type_from_mode mode))
  then raise ProtocolViolation else mret mode.

Definition mode_is_dir (mode : Z) : bool := Z.land mode S_IFMT =? 0x4000.

Definition read_atime_field (flags : FileFlags) (is_dir : bool) : decoder (option Z * Z) :=
  r ← self;
  if p_atimes (fr_preserve r) && negb is_dir then
    if same_atime flags then mret (Some (prev_atime (fr_state r)), 0)
    else
      atime ← wire (read_varlong 4);
      set_state (update_atime atime);;
      mret (Some atime, 0)
  else mret (None, 0).

Definition read_uid_field (flags : FileFlags) : decoder (option Z * option (list byte)) :=
  r ← self;
  let uid_name_follows := (30 <=? fr_protocol r) && user_name_follows flags in
  if p_uid (fr_preserve r) then
    '(id, name) ← wire (read_owner_id (same_uid flags) uid_name_follows (prev_uid (fr_state r))
                          (uses_fixed_encoding (fr_protocol r)));
    set_state (update_uid id);;
    mret (Some id, name)
  else mret (None, None).

Definition read_gid_field (flags : FileFlags) : decoder (option Z * option (list byte)) :=
  r ← self;
  let gid_name_follows := (30 <=? fr_protocol r) && group_name_follows flags in
  if p_gid (fr_preserve r) then
    '(id, name) ← wire (read_owner_id (same_gid flags) gid_name_follows (prev_gid (fr_state r))
                          (uses_fixed_encoding (fr_protocol r)));
    set_state (update_gid id);;
    mret (Some id, name)
  else mret (None, None).

Definition read_metadata (flags : FileFlags) : decoder MetadataResult :=
  mtime ← read_mtime_field flags;
  nsec ← read_nsec flags;
  crtime ← read_crtime flags mtime;
  mode ← read_mode flags;
  let is_dir := mode_is_dir mode in
  '(atime, atime_nsec) ← read_atime_field flags is_dir;
  '(uid, user_name) ← read_uid_field flags;
  '(gid, group_name) ← read_gid_field flags;
  r ← self;
  let content_dir := if is_dir && (30 <=? fr_protocol r) then negb (no_content_dir flags) else true in
  mret (mkMeta mtime nsec mode uid gid user_name group_name atime atime_nsec crtime content_dir).

Definition read_size : decoder Z :=
  r ← self;
  size ← wire (read_file_size (fr_codec r));
  mret (wrap 64 size).

(** *** The rest of an entry *)

Definition MAX_SYMLINK_TARGET_LEN : Z := 4096.

(** [len as usize] of a negative length is past the limit. *)
Definition read_symlink_target (mode : Z) : decoder (option (list byte)) :=
  r ← self;
  let is_symlink := Z.land mode S_IFMT =? 0xa000 in
  if negb is_symlink || negb (p_links (fr_preserve r)) then mret None
  else
    len ← wire (read_varint30_int (fr_protocol r));
    let len := wrap 64 len in
    if len =? 0 then mret None
    else if MAX_SYMLINK_TARGET_LEN <? len then raise InvalidData
    else target_bytes ← wire (read_exact (Z.to_nat len)); mret (Some target_bytes).

Definition mode_is_device (mode : Z) : bool :=
  let type_bits := Z.land mode S_IFMT in (type_bits =? 0x6000) || (type_bits =? 0x2000).
Definition mode_is_special (mode : Z) : bool :=
  let type_bits := Z.land mode S_IFMT in (type_bits =? 0xc000) || (type_bits =? 0x1000).

Definition read_rdev (mode : Z) (flags : FileFlags) : decoder (option (Z * Z)) :=
  r ← self;
  let proto := fr_protocol r in
  if negb (needs_rdev (fr_preserve r) proto (mode_is_device mode) (mode_is_special mode)) then mret None
  else
    major ← (if same_rdev_major flags then mret (prev_rdev_major (fr_state r))
             else
               m ← wire (read_varint30_int proto);
               set_state (update_rdev_major (wrap 32 m));;
               mret (wrap 32 m));
    minor ← (if 30 <=? proto then m ← wire read_varint; mret (wrap 32 m)
             else if rdev_minor_8_pre30 flags then wire read_byte
             else buf ← wire (read_exact 4); mret (wrap 32 (i32_from_le buf)));
    mret (if mode_is_special mode then None else Some (major, minor)).

Definition read_hardlink_idx (flags : FileFlags) : decoder (option Z) :=
  r ← self;
  if negb (p_hard_links (fr_preserve r)) || (fr_protocol r <? 30) then mret None
  else if negb (ff_hlinked flags) then mret None
  else if ff_hlink_first flags then mret (Some u32_max)
  else idx ← wire read_varint; mret (Some (wrap 32 idx)).

Definition read_hardlink_dev_ino (flags : FileFlags) (mode : Z) : decoder (option (Z * Z)) :=
  r ← self;
  if negb (p_hard_links (fr_preserve r)) || (30 <=? fr_protocol r) || (fr_protocol r <? 28) then mret None
  else if negb (ff_hlinked flags) then mret None
  else if mode_is_dir mode then mret None
  else
    dev ← (if same_dev_pre30 flags then mret (prev_hardlink_dev (fr_state r))
           else
             raw_dev ← wire read_longint;
             let dev := swrap 64 (raw_dev - 1) in
             set_state (update_hardlink_dev dev);;
             mret dev);
    ino ← wire read_longint;
    mret (Some (dev, ino)).

Definition read_checksum (mode : Z) : decoder (option (list byte)) :=
  r ← self;
  if negb (fr_always_checksum r) || (fr_flist_csum_len r =? 0)%nat then mret None
  else
    let is_regular := Z.land mode S_IFMT =? 0x8000 in
    if negb is_regular && (28 <=? fr_protocol r) then mret None
    else
      sum ← wire (read_exact (fr_flist_csum_len r));
      mret (if is_regular then Some sum else None).

Definition r_is_abbreviated_follower (r : FileListReader) (flags : FileFlags) (idx : option Z) : bool :=
  if negb (ff_hlinked flags) || ff_hlink_first flags then false
  else match idx with Some idx => fr_ndx_start r <=? swrap 32 idx | None => false end.

(** *** The entry *)

Definition extract_dirname (path : list byte) : list byte := default [] (path_parent path).

Definition from_raw_bytes (name : list byte) (size mode mtime mtime_nsec : Z) (flags : FileFlags) : FileEntry :=
  set_hlink_first (ff_hlink_first flags)
    (set_hlinked (ff_hlinked flags)
       (set_top_dir (ff_top_dir flags)
          (mkEntry name (extract_dirname name) size mtime None 0 0 mtime_nsec (wrap 16 mode)
             PRESENT_CONTENT_DIR))).

(** [if let Some(a) = o { f(a) }]. *)
Definition when_some {A} (o : option A) (f : A → FileEntry → FileEntry) (e : FileEntry) : FileEntry :=
  match o with Some a => f a e | None => e end.

(** What is read of an entry besides its name. *)
Record EntryBody := mkBody {
  eb_size : Z;
  eb_metadata : MetadataResult;
  eb_link_target : option (list byte);
  eb_rdev : option (Z * Z);
  eb_hardlink_dev_ino : option (Z * Z);
  eb_checksum : option (list byte);
}.

(** [a.zip(b)]. *)
Definition option_zip {A B} (a : option A) (b : option B) : option (A * B) :=
  match a, b with Some a, Some b => Some (a, b) | _, _ => None end.

(** The branch for a follower whose leader is in the same segment. *)
Definition copy_leader (idx : Z) (segment_entries : list FileEntry) : decoder EntryBody :=
  r ← self;
  let leader_local_idx := wrap 64 (swrap 32 (swrap 32 idx - fr_ndx_start r)) in
  match (if leader_local_idx <? Z.of_nat (length segment_entries)
         then segment_entries !! Z.to_nat leader_local_idx else None) with
  | None => raise ProtocolViolation
  | Some leader =>
      set_state (update_mode (fe_mode leader));;
      set_state (update_mtime (fe_mtime leader));;
      set_state (match uid leader with Some id => update_uid id | None => λ st, st end);;
      set_state (match gid leader with Some id => update_gid id | None => λ st, st end);;
      set_state (if negb (mode_is_dir (fe_mode leader)) then update_atime (atime leader) else λ st, st);;
      mret (mkBody (fe_size leader)
              (mkMeta (fe_mtime leader) (fe_mtime_nsec leader) (fe_mode leader) (uid leader) (gid leader)
                 None None (if negb (atime leader =? 0) then Some (atime leader) else None)
                 (atime_nsec leader) None (mode_is_dir (fe_mode leader)))
              (link_target leader) (option_zip (rdev_major leader) (rdev_minor leader)) None
              (checksum leader))
  end.

Definition read_body (flags : FileFlags) : decoder EntryBody :=
  size ← read_size;
  metadata ← read_metadata flags;
  rdev ← read_rdev (m_mode metadata) flags;
  link_target ← read_symlink_target (m_mode metadata);
  hardlink_dev_ino ← read_hardlink_dev_ino flags (m_mode metadata);
  checksum ← read_checksum (m_mode metadata);
  mret (mkBody size metadata link_target rdev hardlink_dev_ino checksum).

(** The entry that is built from what was read. *)
Definition build_entry (name : list byte) (flags : FileFlags) (idx : option Z) (b : EntryBody) : FileEntry :=
  let m := eb_metadata b in
  let e := from_raw_bytes name (eb_size b) (m_mode m) (m_mtime m) (m_nsec m) flags in
  let e := set_dirname (extract_dirname name) e in
  let e := when_some (eb_link_target b) set_link_target e in
  let e := when_some (eb_rdev b) (λ d, set_rdev d.1 d.2) e in
  let e := when_some idx set_hardlink_idx e in
  let e := when_some (m_uid m) set_uid e in
  let e := when_some (m_gid m) set_gid e in
  let e := when_some (m_user_name m) set_user_name e in
  let e := when_some (m_group_name m) set_group_name e in
  let e := when_some (m_atime m) (λ secs e, set_atime_nsec (m_atime_nsec m) (set_atime secs e)) e in
  let e := when_some (m_crtime m) set_crtime e in
  let e := if is_dir e then set_content_dir (m_content_dir m) e else e in
  let e := when_some (eb_hardlink_dev_ino b) (λ d e, set_hardlink_ino d.2 (set_hardlink_dev d.1 e)) e in
  when_some (eb_checksum b) set_checksum e.

Definition read_named_entry (flags : FileFlags) (segment_entries : list FileEntry)
    : decoder (option FileEntry) :=
  name ← read_name flags;
  if bool_decide (name = []) then raise InvalidData
  else
    idx ← read_hardlink_idx flags;
    r ← self;
    body ← match idx with
           | Some i => if r_is_abbreviated_follower r flags idx then copy_leader i segment_entries
                       else read_body flags
           | None => read_body flags
           end;
    match clean_and_validate_name (fr_relative_paths r) name with
    | Err err => raise err
    | Ok cleaned_name =>
        let entry := build_entry cleaned_name flags idx body in
        set_self (λ r, fr_with_stats (update_stats entry (fr_stats r)) r);;
        mret (Some entry)
    end.

Definition read_entry_with_flist (segment_entries : list FileEntry) : decoder (option FileEntry) :=
  res ← read_flags;
  match res with
  | EndOfList => mret None
  | FlagsIoError code => set_self (λ r, fr_with_io_error (Z.lor (fr_io_error r) code) r);; mret None
  | Flags flags => read_named_entry flags segment_entries
  end.

Definition read_entry : decoder (option FileEntry) := read_entry_with_flist [].

(** The loop of [receive_file_list] and [receive_one_extra_segment]; every entry takes a
    byte, so the length of the input is enough fuel. *)
Fixpoint read_segment (fuel : nat) (segment : list FileEntry) : decoder (list FileEntry) :=
  match fuel with
  | O => raise UnexpectedEof
  | S fuel =>
      e ← read_entry_with_flist segment;
      match e with
      | None => mret segment
      | Some e => read_segment fuel (segment ++ [e])
      end
  end.

(** ** Steps ([read/step.rs], [read/async_read.rs]) *)

Inductive EntryStep := NeedMore | Emit (entry : option FileEntry) (consumed : nat).

Record EntrySnapshot := mkSnapshot {
  snap_state : FileListCompressionState;
  snap_io_error : Z;
  snap_stats : FileListStats;
}.

Definition snapshot (r : FileListReader) : EntrySnapshot :=
  mkSnapshot (fr_state r) (fr_io_error r) (fr_stats r).
Definition restore (snap : EntrySnapshot) (r : FileListReader) : FileListReader :=
  fr_with_stats (snap_stats snap) (fr_with_io_error (snap_io_error snap) (fr_with_state (snap_state snap) r)).

Definition read_entry_step (r : FileListReader) (buf : list byte) (segment_entries : list FileEntry)
    : FileListReader * result io_error EntryStep :=
  match buf with
  | [] => (r, Ok NeedMore)
  | _ =>
      let snap := snapshot r in
      match read_entry_with_flist segment_entries r buf with
      | (r', Ok (entry, rest)) => (r', Ok (Emit entry (length buf - length rest)))
      | (r', Err UnexpectedEof) => (restore snap r', Ok NeedMore)
      | (r', Err err) => (r', Err err)
      end
  end.

(** [src] is what the successive reads return; an empty read is the end of the stream. *)
Fixpoint read_entry_with_flist_async (r : FileListReader) (src : list (list byte)) (carry : list byte)
    (segment_entries : list FileEntry)
    : FileListReader * result io_error (option FileEntry) * list byte * list (list byte) :=
  match read_entry_step r carry segment_entries with
  | (r', Err err) => (r', Err err, carry, src)
  | (r', Ok (Emit entry consumed)) => (r', Ok entry, drop consumed carry, src)
  | (r', Ok NeedMore) =>
      match src with
      | [] => (r', Err UnexpectedEof, carry, [])
      | [] :: src' => (r', Err UnexpectedEof, carry, src')
      | piece :: src' => read_entry_with_flist_async r' src' (carry ++ piece) segment_entries
      end
  end.
