(* ===== verification/FlistStream.v ===== *)
(** * What the file list codecs do together

    A segment of the list is written by [FlistWire.write_entries] and read back by
    [FlistWire.read_segment].  [flist_roundtrip] says that the receiver gets the entries it
    was sent, in every protocol from 28 on and with every combination of options, as far as
    the options put the fields on the wire. *)

From Stdlib Require Import Btauto.
From stdpp Require Import strings.
From S2P Require Import Prelude Wildmatch Utf8 FilterWire FilterSet FilterParse Varint FlistEntry FlistName FlistWire.

Local Open Scope Z_scope.
Local Open Scope enc_scope.

(** ** Bits *)

Lemma has_flag_0 m : has_flag 0 m = false.
Proof. done. Qed.

Lemma has_flag_on c b x m : has_flag (on c b x) m = has_flag x m || (c && has_flag b m).
Proof. unfold on. destruct c; [by rewrite has_flag_lor|]. by rewrite orb_false_r. Qed.

Lemma has_flag_wrap v m : 0 ≤ m < 256 → has_flag (wrap 8 v) m = has_flag v m.
Proof.
  intros Hm. unfold has_flag, wrap. do 2 f_equal. rewrite <-Z.land_ones by lia.
  rewrite <-Z.land_assoc. f_equal. rewrite Z.land_comm, Z.land_ones by lia. apply Z.mod_small. lia.
Qed.

Lemma land_shift v m k : 0 ≤ k → Z.land v (Z.shiftl m k) = Z.shiftl (Z.land (Z.shiftr v k) m) k.
Proof.
  intros Hk. apply Z.bits_inj'. intros n Hn. rewrite Z.land_spec, !Z.shiftl_spec by lia.
  rewrite Z.land_spec. destruct (Z.lt_ge_cases n k) as [H|H].
  - rewrite (Z.testbit_neg_r m), (Z.testbit_neg_r (Z.shiftr v k)) by lia. by rewrite andb_false_r.
  - rewrite Z.shiftr_spec by lia. by replace (n - k + k) with n by lia.
Qed.

Lemma has_flag_shift v m k : 0 ≤ m < 256 → 0 ≤ k →
  has_flag (wrap 8 (Z.shiftr v k)) m = has_flag v (Z.shiftl m k).
Proof.
  intros Hm Hk. rewrite has_flag_wrap by done. unfold has_flag. rewrite land_shift by done. f_equal.
  apply eq_bool_prop_intro. rewrite !Is_true_true, !Z.eqb_eq. split; [intros ->; apply Z.shiftl_0_l|].
  by apply Z.shiftl_eq_0_iff.
Qed.

Lemma land_255 v : Z.land v 255 = wrap 8 v.
Proof. by change 255 with (Z.ones 8); rewrite Z.land_ones. Qed.

(** The bits of the flags that the writer puts on the wire, apart from [TOP_DIR] and
    [EXTENDED_FLAGS], which it may add. *)
Definition primary_bits : list Z := [XMIT_SAME_MODE; XMIT_SAME_UID; XMIT_SAME_GID; XMIT_SAME_NAME; XMIT_LONG_NAME; XMIT_SAME_TIME].

Record flags_agree (x : Z) (is_dir : bool) (f : FileFlags) : Prop := {
  fa_primary m : m ∈ primary_bits → has_flag (ff_primary f) m = has_flag x m;
  fa_extended m : 0 ≤ m < 256 → has_flag (ff_extended f) m = has_flag x (byte1 m);
  fa_extended16 m : 0 ≤ m < 256 → has_flag (ff_extended16 f) m = has_flag x (byte2 m);
  fa_top_dir : is_dir = true → ff_top_dir f = has_flag x XMIT_TOP_DIR;
}.

Lemma flags_from_u32_agree x y is_dir :
  (∀ m, m ∈ primary_bits → has_flag y m = has_flag x m) →
  (∀ m, 0 ≤ m < 256 → has_flag y (byte1 m) = has_flag x (byte1 m) ∧ has_flag y (byte2 m) = has_flag x (byte2 m)) →
  (is_dir = true → has_flag y XMIT_TOP_DIR = has_flag x XMIT_TOP_DIR) →
  flags_agree x is_dir (flags_from_u32 y).
Proof.
  intros Hp He Ht. split; cbn [flags_from_u32 ff_primary ff_extended ff_extended16].
  - intros m Hm. rewrite has_flag_wrap; [by apply Hp|]. unfold primary_bits in Hm. 
    repeat (apply elem_of_cons in Hm as [->|Hm]; [done|]). by apply elem_of_nil in Hm.
  - intros m Hm. rewrite has_flag_shift by lia. by apply He.
  - intros m Hm. rewrite has_flag_shift by lia. by apply He.
  - intros Hd. unfold ff_top_dir. cbn [flags_from_u32 ff_primary]. rewrite has_flag_wrap by done. by apply Ht.
Qed.

Lemma lor_bound k a b : 0 ≤ k → 0 ≤ a < 2 ^ k → 0 ≤ b < 2 ^ k → 0 ≤ Z.lor a b < 2 ^ k.
Proof.
  assert (H : ∀ z, 0 ≤ k → 0 ≤ z → z < 2 ^ k ↔ Z.shiftr z k = 0).
  { intros z Hk Hz. rewrite Z.shiftr_div_pow2 by done.
    split; [intros; apply Z.div_small; lia|]. intros E%Z.div_small_iff; lia. }
  intros Hk Ha Hb. assert (Hp : 0 ≤ Z.lor a b) by (apply Z.lor_nonneg; lia).
  split; [done|]. apply H; [done..|]. rewrite Z.shiftr_lor.
  by rewrite (proj1 (H a Hk ltac:(lia)) ltac:(lia)), (proj1 (H b Hk ltac:(lia)) ltac:(lia)).
Qed.

Lemma on_bound k c b x : 0 ≤ k → 0 ≤ x < 2 ^ k → 0 ≤ b < 2 ^ k → 0 ≤ on c b x < 2 ^ k.
Proof. intros. unfold on. destruct c; [by apply lor_bound|done]. Qed.

(** The two bytes of the flags as the receiver looks for its error marker in them. *)
Lemma joined_flag p e m : 0 ≤ p < 256 → has_flag (Z.lor p (Z.shiftl e 8)) (byte1 m) = has_flag e m.
Proof.
  intros Hp. rewrite has_flag_lor. unfold byte1, has_flag. rewrite !land_shift by lia.
  rewrite (Z.shiftr_shiftl_l e) by lia. rewrite Z.sub_diag, Z.shiftl_0_r.
  rewrite (Z.shiftr_div_pow2 p), (Z.div_small p) by lia. cbn [Z.land]. rewrite Z.shiftl_0_l. cbn [negb Z.eqb orb].
  f_equal. apply eq_bool_prop_intro. rewrite !Is_true_true, !Z.eqb_eq.
  split; [|intros ->; apply Z.shiftl_0_l]. by apply Z.shiftl_eq_0_iff.
Qed.

(** What the writer's flags never are. *)
Record flags_ok (varint : bool) (x : Z) : Prop := {
  fo_bound : 0 ≤ x < 2 ^ (if varint then 24 else 16);
  fo_extended : has_flag x XMIT_EXTENDED_FLAGS = false;
  fo_first : has_flag x (byte1 XMIT_HLINK_FIRST) = true → has_flag x (byte1 XMIT_HLINKED) = true;
}.

Lemma check_error_marker_none r s p e :
  0 ≤ p < 256 → (has_flag e XMIT_HLINK_FIRST = true → has_flag e XMIT_HLINKED = true) →
  check_error_marker p e r s = (r, Ok (None, s)).
Proof.
  intros Hp Hf. unfold check_error_marker, mbind, decoder_bind, self.
  destruct (Z.eqb_spec (Z.lor p (Z.shiftl e 8)) (Z.lor XMIT_EXTENDED_FLAGS (Z.shiftl XMIT_IO_ERROR_ENDLIST 8)))
    as [E|]; [|done].
  exfalso. pose proof (joined_flag p e XMIT_HLINK_FIRST Hp) as H1.
  pose proof (joined_flag p e XMIT_HLINKED Hp) as H2. rewrite E in H1, H2.
  rewrite <-H1, <-H2 in Hf. by specialize (Hf eq_refl).
Qed.

Lemma flags_of_bytes p e e16 :
  (if negb (e =? 0) || negb (e16 =? 0) || has_flag p XMIT_EXTENDED_FLAGS then mkFlags p e e16
   else mkFlags p 0 0) = mkFlags p e e16.
Proof.
  destruct (Z.eqb_spec e 0) as [->|]; [|done]. destruct (Z.eqb_spec e16 0) as [->|]; [|done].
  by destruct (has_flag p _).
Qed.

(** The session that both ends agree on. *)
Record session (w : FileListWriter) (r : FileListReader) : Prop := {
  se_protocol : fw_protocol w = fr_protocol r;
  se_range : 28 ≤ fr_protocol r ≤ 32;
  se_preserve : fw_preserve w = fr_preserve r;
  se_varint : fw_use_varint_flags w = use_varint_flags r;
  se_safe : fw_use_safe_file_list w = use_safe_file_list r;
  se_checksum : fw_always_checksum w = fr_always_checksum r;
  se_csum_len : fw_flist_csum_len w = fr_flist_csum_len r;
  se_ndx : fw_first_ndx w = fr_ndx_start r;
}.

(** The outcome of an encoder is what a decoder reads back, whatever follows the bytes. *)
Definition transmits {A} (o : option (list byte * FileListWriter)) (D : decoder A) (r : FileListReader)
    (w' : FileListWriter) (r' : FileListReader) (a : A) : Prop :=
  ∃ out, o = Some (out, w') ∧ ∀ rest, D r (out ++ rest) = (r', Ok (a, rest)).

Lemma transmits_seq {A B} (E1 E2 : encoder) (D1 : decoder A) (D2 : A → decoder B) w r w1 r1 a w2 r2 b :
  transmits (E1 w) D1 r w1 r1 a → transmits (E2 w1) (D2 a) r1 w2 r2 b →
  transmits ((E1 >+> E2) w) (D1 ≫= D2) r w2 r2 b.
Proof.
  intros (o1 & H1 & R1) (o2 & H2 & R2). exists (o1 ++ o2). split.
  - unfold seq_enc. by rewrite H1, H2.
  - intros rest. unfold mbind, decoder_bind. by rewrite <-app_assoc, R1, R2.
Qed.

Lemma seq_enc_assoc (E1 E2 E3 : encoder) w : (E1 >+> E2 >+> E3) w = ((E1 >+> E2) >+> E3) w.
Proof.
  unfold seq_enc. destruct (E1 w) as [[o1 w1]|]; [|done]. destruct (E2 w1) as [[o2 w2]|]; [|done].
  destruct (E3 w2) as [[o3 w3]|]; [|done]. by rewrite app_assoc.
Qed.

(** What reads nothing and what writes nothing. *)
Lemma transmits_self {A B} o (D : A → decoder B) (D1 : decoder A) r r1 a w' r' b :
  (∀ s, D1 r s = (r1, Ok (a, s))) → transmits o (D a) r1 w' r' b →
  transmits o (D1 ≫= D) r w' r' b.
Proof.
  intros H (out & Ho & R). exists out. split; [done|]. intros rest. unfold mbind, decoder_bind. by rewrite H, R.
Qed.

Lemma transmits_ret {A} (a : A) w r : transmits (skip w) (mret a) r w r a.
Proof. by exists []. Qed.

Lemma transmits_wire {A} (p : parser A) out a w r :
  (∀ rest, p (out ++ rest) = Ok (a, rest)) → transmits (emit out w) (wire p) r w r a.
Proof. intros H. exists out. split; [done|]. intros rest. unfold wire. by rewrite H. Qed.

Lemma transmits_wire_some {A} (p : parser A) o a w r :
  (∀ rest, ∃ out, o = Some out ∧ p (out ++ rest) = Ok (a, rest)) → transmits (emit_some o w) (wire p) r w r a.
Proof.
  intros H. destruct (H []) as (out & -> & _). exists out. split; [done|]. intros rest. unfold wire.
  destruct (H rest) as (? & [= <-] & E). by rewrite E.
Qed.

(** ** Flags *)

(** The value that is sent for the flags [x]. *)
Definition sent_flags (varint is_dir : bool) (x : Z) : Z :=
  if varint then if x =? 0 then XMIT_EXTENDED_FLAGS else x
  else
    let x1 := on ((x =? 0) && negb is_dir) XMIT_TOP_DIR x in
    if has_flag x1 0xff00 || (x1 =? 0) then Z.lor x1 XMIT_EXTENDED_FLAGS else x1.

Lemma sent_flags_agree varint is_dir x : flags_agree x is_dir (flags_from_u32 (sent_flags varint is_dir x)).
Proof.
  assert (H4 : flags_agree x is_dir (flags_from_u32 (Z.lor x XMIT_EXTENDED_FLAGS))).
  { apply flags_from_u32_agree.
    - intros m Hm. rewrite has_flag_lor. unfold primary_bits in Hm.
      repeat (apply elem_of_cons in Hm as [->|Hm]; [by rewrite orb_false_r|]). by apply elem_of_nil in Hm.
    - intros m Hm. rewrite !has_flag_lor. unfold byte1, byte2.
      rewrite <-!(has_flag_shift XMIT_EXTENDED_FLAGS) by lia. change (wrap 8 (Z.shiftr _ _)) with 0.
      by rewrite !orb_false_r.
    - intros _. rewrite has_flag_lor. by rewrite orb_false_r. }
  assert (Hx : flags_agree x is_dir (flags_from_u32 x)) by (by apply flags_from_u32_agree).
  unfold sent_flags. destruct varint.
  - destruct (Z.eqb_spec x 0) as [->|]; [|done]. exact H4.
  - destruct (Z.eqb_spec x 0) as [->|Hx0]; cbn [andb].
    + destruct is_dir; [exact H4|].
      change (flags_agree 0 false (flags_from_u32 XMIT_TOP_DIR)). apply flags_from_u32_agree; try done.
      * intros m Hm. unfold primary_bits in Hm.
        repeat (apply elem_of_cons in Hm as [->|Hm]; [done|]). by apply elem_of_nil in Hm.
      * intros m Hm. unfold byte1, byte2. 
        by rewrite <-!(has_flag_shift XMIT_TOP_DIR) by lia.
    + cbn [on]. by destruct (has_flag x 65280 || _).
Qed.

Lemma wrap_8_wrap v : wrap 8 (wrap 8 v) = wrap 8 v.
Proof. apply wrap_small, wrap_range. done. Qed.

Lemma read_byte_cons b s : read_byte (b :: s) = Ok (uz b, s).
Proof. done. Qed.

Lemma read_flags_varint w r x is_dir : session w r → use_varint_flags r = true → flags_ok true x →
  transmits (write_flags x is_dir w) read_flags r w r (Flags (flags_from_u32 (sent_flags true is_dir x))).
Proof.
  intros Hs Hv [Hb He Hf]. unfold transmits, write_flags. rewrite (se_varint _ _ Hs), Hv.
  unfold sent_flags. set (y := if x =? 0 then XMIT_EXTENDED_FLAGS else x).
  assert (Hy : 0 < y < 2 ^ 24) by (subst y; destruct (Z.eqb_spec x 0); [done|lia]).
  assert (Hyf : has_flag y (byte1 XMIT_HLINK_FIRST) = true → has_flag y (byte1 XMIT_HLINKED) = true).
  { subst y. destruct (Z.eqb_spec x 0); [done|]. done. }
  rewrite swrap_small by (unfold in_i; lia). eexists. split; [done|]. intros rest.
  destruct (read_varint_write y rest) as [Hr _]; [unfold in_i; lia|].
  unfold read_flags, mbind, decoder_bind, self, wire. rewrite Hv, Hr.
  rewrite (proj2 (Z.eqb_neq y 0)) by lia.
  unfold read_extended_bytes, mbind, decoder_bind, self. cbn [mret decoder_ret].
  rewrite !land_255. rewrite check_error_marker_none.
  - unfold mret, decoder_ret. by rewrite flags_of_bytes.
  - apply (wrap_range 8). done.
  - rewrite !has_flag_shift by done. done.
Qed.

Lemma read_flags_bytes w r x is_dir : session w r → use_varint_flags r = false → flags_ok false x →
  transmits (write_flags x is_dir w) read_flags r w r (Flags (flags_from_u32 (sent_flags false is_dir x))).
Proof.
  intros Hs Hv [Hb He Hf]. unfold transmits, write_flags. rewrite (se_varint _ _ Hs), Hv.
  unfold supports_extended_flags. pose proof (se_range _ _ Hs). rewrite (se_protocol _ _ Hs).
  rewrite (proj2 (Z.leb_le 28 _)) by lia. unfold sent_flags.
  set (x1 := on ((x =? 0) && negb is_dir) XMIT_TOP_DIR x).
  assert (Hx1 : 0 ≤ x1 < 2 ^ 16) by (subst x1; by apply on_bound).
  assert (He1 : has_flag x1 XMIT_EXTENDED_FLAGS = false) by (subst x1; rewrite has_flag_on, He; by rewrite andb_false_r).
  assert (Hf1 : ∀ m, 0 ≤ m < 256 → has_flag x1 (byte1 m) = has_flag x (byte1 m)).
  { intros m Hm. subst x1. rewrite has_flag_on. unfold byte1. rewrite <-!(has_flag_shift XMIT_TOP_DIR) by lia.
    by rewrite andb_false_r, orb_false_r. }
  destruct (has_flag x1 65280 || (x1 =? 0)) eqn:Ec.
  - set (y := Z.lor x1 XMIT_EXTENDED_FLAGS).
    assert (Hy : 0 ≤ y < 2 ^ 16) by (by apply lor_bound).
    assert (Hy4 : has_flag y XMIT_EXTENDED_FLAGS = true) by (subst y; rewrite has_flag_lor, orb_true_iff; by right).
    eexists. split; [done|]. intros rest. rewrite (wrap_small 16) by done.
    cbn [le_bytes app]. unfold read_flags, mbind, decoder_bind, self, wire. rewrite Hv, read_byte_cons.
    rewrite uz_zb. change (y mod 256) with (wrap 8 y).
    assert (wrap 8 y ≠ 0).
    { intros E. rewrite <-has_flag_wrap, E in Hy4 by done. done. }
    rewrite (proj2 (Z.eqb_neq (wrap 8 y) 0)) by done.
    unfold read_extended_bytes, mbind, decoder_bind, self, wire. rewrite wrap_8_wrap, has_flag_wrap by done.
    rewrite Hy4, (proj2 (Z.leb_le 28 _)) by lia. cbn [andb]. rewrite read_byte_cons, uz_zb.
    assert (Hsh : (y / 256) mod 256 = wrap 8 (Z.shiftr y 8)) by (by rewrite Z.shiftr_div_pow2).
    rewrite Hsh. unfold mret, decoder_ret. rewrite check_error_marker_none.
    + rewrite orb_true_r. do 4 f_equal. unfold flags_from_u32. f_equal.
      rewrite (Z.shiftr_div_pow2 y 16), (Z.div_small y) by lia. done.
    + apply (wrap_range 8). done.
    + rewrite !has_flag_shift by done. subst y. rewrite !has_flag_lor. change (Z.shiftl ?a 8) with (byte1 a).
      rewrite !Hf1 by done. intros [H1|H1]%orb_true_iff; [|done]. by rewrite Hf.
  - apply orb_false_iff in Ec as [Eh E0%Z.eqb_neq].
    assert (Hs8 : Z.shiftr x1 8 = 0).
    { unfold has_flag in Eh. apply negb_false_iff, Z.eqb_eq in Eh.
      change 65280 with (Z.shiftl 255 8) in Eh. rewrite land_shift in Eh by done.
      apply Z.shiftl_eq_0_iff in Eh; [|done]. rewrite land_255, wrap_small in Eh; [done|].
      unfold in_u. rewrite Z.shiftr_div_pow2 by done. split; [apply Z.div_pos; lia|].
      apply Z.div_lt_upper_bound; lia. }
    assert (Hx8 : 0 ≤ x1 < 256).
    { split; [lia|]. rewrite Z.shiftr_div_pow2 in Hs8 by done. apply Z.div_small_iff in Hs8; lia. }
    eexists. split; [done|]. intros rest. cbn [app].
    unfold read_flags, mbind, decoder_bind, self, wire. rewrite Hv, read_byte_cons, uz_zb_small by done.
    rewrite (proj2 (Z.eqb_neq x1 0)) by done.
    unfold read_extended_bytes, mbind, decoder_bind, self, wire. rewrite has_flag_wrap, He1, andb_false_r by done.
    unfold mret, decoder_ret. rewrite check_error_marker_none; [|by apply (wrap_range 8)|done].
    unfold flags_from_u32. rewrite Hs8.
    assert (Z.shiftr x1 16 = 0) as ->; [|done].
    rewrite Z.shiftr_div_pow2 by done. apply Z.div_small. lia.
Qed.

Lemma flags_transmitted w r x is_dir : session w r → flags_ok (use_varint_flags r) x →
  ∃ f, flags_agree x is_dir f ∧ transmits (write_flags x is_dir w) read_flags r w r (Flags f).
Proof.
  intros Hs Hx. exists (flags_from_u32 (sent_flags (use_varint_flags r) is_dir x)).
  split; [apply sent_flags_agree|]. destruct (use_varint_flags r) eqn:E;
    [by apply read_flags_varint|by apply read_flags_bytes].
Qed.

(** *** The flags that are computed *)

Ltac flag_const a :=
  first [is_const a
        | lazymatch a with
          | byte1 ?c => flag_const c
          | byte2 ?c => flag_const c
          | Z0 => idtac
          | Zpos _ => idtac
          end].

Ltac flag_consts :=
  repeat match goal with
    | |- context [has_flag ?a ?b] =>
        flag_const a; flag_const b;
        let v := eval vm_compute in (has_flag a b) in
        lazymatch v with
        | true => change (has_flag a b) with true
        | false => change (has_flag a b) with false
        end
    end.

(** Read the bits of flags built with [on]. *)
Ltac on_bits :=
  rewrite ?has_flag_lor, ?has_flag_on; flag_consts;
  rewrite ?andb_false_r, ?andb_true_r, ?orb_false_r, ?orb_false_l; cbn [orb andb negb].

Section xflags.
Context (w : FileListWriter) (e : FileEntry) (same_len suffix_len : nat).

Notation st := (fw_state w).
Notation proto := (fw_protocol w).
Notation B := (calculate_basic_flags w e same_len suffix_len).
Notation X := (calculate_xflags w e same_len suffix_len).

Definition same_owner (preserved : bool) (id prev : Z) : bool :=
    negb preserved || ((id =? prev) && negb (bool_decide (prev_name st = []))).

Lemma basic_mode : has_flag B XMIT_SAME_MODE = (fe_mode e =? prev_mode st).
Proof. unfold calculate_basic_flags. on_bits. done. Qed.
Lemma basic_time : has_flag B XMIT_SAME_TIME = (fe_mtime e =? prev_mtime st).
Proof. unfold calculate_basic_flags. on_bits. done. Qed.
Lemma basic_uid : has_flag B XMIT_SAME_UID = same_owner (p_uid (fw_preserve w)) (default 0 (uid e)) (prev_uid st).
Proof. unfold calculate_basic_flags. on_bits. done. Qed.
Lemma basic_gid : has_flag B XMIT_SAME_GID = same_owner (p_gid (fw_preserve w)) (default 0 (gid e)) (prev_gid st).
Proof. unfold calculate_basic_flags. on_bits. done. Qed.
Lemma basic_name : has_flag B XMIT_SAME_NAME = (0 <? same_len)%nat.
Proof. unfold calculate_basic_flags. on_bits. done. Qed.
Lemma basic_long : has_flag B XMIT_LONG_NAME = (255 <? suffix_len)%nat.
Proof. unfold calculate_basic_flags. on_bits. done. Qed.
Lemma basic_top : has_flag B XMIT_TOP_DIR = is_dir e && top_dir e.
Proof. unfold calculate_basic_flags. on_bits. done. Qed.
Lemma basic_bound : 0 ≤ B < 2 ^ 8.
Proof. unfold calculate_basic_flags. repeat (apply on_bound; [done| |done]). done. Qed.

Lemma basic_ext : has_flag B XMIT_EXTENDED_FLAGS = false.
Proof. unfold calculate_basic_flags. on_bits. done. Qed.

(** The parts of the second byte. *)
Definition dev_same : bool :=
    needs_rdev (fw_preserve w) proto (is_device e) (is_special e) &&
    (is_special e || (default 0 (rdev_major e) =? prev_rdev_major st)).
Definition dev_minor8 : bool :=
    needs_rdev (fw_preserve w) proto (is_device e) (is_special e) && (proto <? 30) &&
    (is_special e || (default 0 (rdev_minor e) <=? 0xff)).
Definition link_here : bool :=
    p_hard_links (fw_preserve w) && negb (is_dir e) &&
    (if 30 <=? proto then is_some (hardlink_idx e) else is_some (hardlink_dev e)).
Definition link_first : bool :=
    link_here && (30 <=? proto) && bool_decide (hardlink_idx e = Some u32_max).
Definition link_same_dev : bool :=
    link_here && (proto <? 30) && bool_decide (hardlink_dev e = Some (prev_hardlink_dev st)).
Definition user_here : bool :=
    (30 <=? proto) && fw_name_follows w && p_uid (fw_preserve w) && is_some (user_name e)
    && negb (has_flag B XMIT_SAME_UID).
Definition group_here : bool :=
    (30 <=? proto) && fw_name_follows w && p_gid (fw_preserve w) && is_some (group_name e)
    && negb (has_flag B XMIT_SAME_GID).
Definition second_byte : Z :=
    on (dev_same || (is_dir e && (30 <=? proto) && negb (content_dir e))) 1
      (on link_here 2 (on (link_same_dev || user_here) 4 (on (dev_minor8 || group_here) 8
        (on link_first 16 (on ((31 <=? proto) && negb (fe_mtime_nsec e =? 0)) 32
          (on (p_atimes (fw_preserve w) && negb (is_dir e) && (atime e =? prev_atime st)) 64 0)))))).
Definition third_byte : Z :=
    on (fw_use_varint_flags w && p_crtimes (fw_preserve w) && (crtime e =? fe_mtime e)) 2 0.

Context (Hproto : 28 ≤ proto).

Lemma device_part : calculate_device_flags w e = byte1 (on dev_same 1 (on dev_minor8 8 0)).
Proof.
  unfold calculate_device_flags, dev_same, dev_minor8. rewrite (proj2 (Z.leb_le 28 _)) by done. cbn [andb].
  destruct (needs_rdev _ _ _ _); cbn [negb andb]; [|done].
  destruct (is_special e), (proto <? 30), (default 0 (rdev_major e) =? prev_rdev_major st),
    (default 0 (rdev_minor e) <=? 255); done.
Qed.

Lemma hardlink_part :
  calculate_hardlink_flags w e = byte1 (on link_here 2 (on link_same_dev 4 (on link_first 16 0))).
Proof.
  unfold calculate_hardlink_flags, link_same_dev, link_first, link_here.
  rewrite (proj2 (Z.leb_le 28 _)) by done. rewrite Z.ltb_antisym.
  destruct (p_hard_links (fw_preserve w)), (is_dir e); cbn [negb andb orb]; try done.
  destruct (30 <=? proto); cbn [negb andb].
  - destruct (hardlink_idx e) as [idx|]; [|done]. cbn [is_some andb].
    rewrite (bool_decide_ext (Some idx = Some u32_max) (idx = u32_max)) by (split; congruence).
    destruct (Z.eqb_spec idx u32_max); [rewrite bool_decide_true by done|rewrite bool_decide_false by done]; done.
  - destruct (hardlink_dev e) as [dev|]; [|done]. cbn [is_some andb].
    rewrite (bool_decide_ext (Some dev = _) (dev = prev_hardlink_dev st)) by (split; congruence).
    destruct (Z.eqb_spec dev (prev_hardlink_dev st));
      [rewrite bool_decide_true by done|rewrite bool_decide_false by done]; done.
Qed.

Lemma owner_part x : has_flag x XMIT_SAME_UID = has_flag B XMIT_SAME_UID →
  has_flag x XMIT_SAME_GID = has_flag B XMIT_SAME_GID →
  calculate_owner_name_flags w e x = byte1 (on user_here 4 (on group_here 8 0)).
Proof.
  intros Hu Hg. unfold calculate_owner_name_flags, user_here, group_here. rewrite Hu, Hg, Z.ltb_antisym.
  destruct (30 <=? proto), (fw_name_follows w); cbn [negb andb orb]; try done.
  destruct (p_uid _ && _ && _), (p_gid _ && _ && _); done.
Qed.

Lemma flag_byte1 y k : has_flag (byte1 y) (byte1 k) = has_flag y k.
Proof. unfold byte1. by rewrite <-(joined_flag 0 y k). Qed.

Lemma shiftl_low b k n : 0 ≤ b < 2 ^ n → 0 ≤ n → has_flag b (Z.shiftl k n) = false.
Proof.
  intros Hb Hn. unfold has_flag. rewrite land_shift by done.
  rewrite Z.shiftr_div_pow2, Z.div_small by lia. by rewrite Z.shiftl_0_l.
Qed.

Lemma has_flag_comm a b : has_flag a b = has_flag b a.
Proof. unfold has_flag. by rewrite Z.land_comm. Qed.

Lemma flag_byte1_low y m : 0 ≤ m < 256 → has_flag (byte1 y) m = false.
Proof. intros Hm. rewrite has_flag_comm. by apply shiftl_low. Qed.

Lemma flag_byte2_low y m : 0 ≤ m < 2 ^ 16 → has_flag (byte2 y) m = false.
Proof. intros Hm. rewrite has_flag_comm. by apply shiftl_low. Qed.

Lemma byte1_range k : 0 ≤ k < 256 → 0 ≤ byte1 k < 2 ^ 16.
Proof. intros Hk. unfold byte1. rewrite Z.shiftl_mul_pow2 by done. lia. Qed.

Lemma flag_byte2 y k : has_flag (byte2 y) (byte2 k) = has_flag y k.
Proof.
  unfold has_flag, byte2. rewrite land_shift by done. rewrite Z.shiftr_shiftl_l by done.
  rewrite Z.sub_diag, Z.shiftl_0_r. f_equal. apply eq_bool_prop_intro. rewrite !Is_true_true, !Z.eqb_eq.
  split; [by apply Z.shiftl_eq_0_iff|intros ->; apply Z.shiftl_0_l].
Qed.

Lemma xflags_parts : X =
  Z.lor (Z.lor (Z.lor (Z.lor (Z.lor B (byte1 (on dev_same 1 (on dev_minor8 8 0))))
                         (byte1 (on link_here 2 (on link_same_dev 4 (on link_first 16 0)))))
                  (byte1 (on user_here 4 (on group_here 8 0))))
           (calculate_time_flags w e)) (calculate_directory_flags w e).
Proof.
  unfold calculate_xflags. rewrite device_part, hardlink_part. f_equal. f_equal. f_equal.
  apply owner_part; rewrite !has_flag_lor, !flag_byte1_low by done; by rewrite !orb_false_r.
Qed.

Lemma xflags_low m : 0 ≤ m < 256 → has_flag X m = has_flag B m.
Proof.
  intros Hm. rewrite xflags_parts. unfold calculate_time_flags, calculate_directory_flags.
  rewrite !has_flag_lor, !has_flag_on, !flag_byte1_low, !flag_byte2_low, has_flag_0 by lia.
  by rewrite ?andb_false_r, ?orb_false_r.
Qed.

Lemma xflags_second k : 0 ≤ k < 256 → has_flag X (byte1 k) = has_flag second_byte k.
Proof.
  intros Hk. rewrite xflags_parts. unfold calculate_time_flags, calculate_directory_flags, second_byte.
  assert (HB : has_flag B (byte1 k) = false) by (apply shiftl_low; [apply basic_bound|done]).
  rewrite !has_flag_lor, HB.
  rewrite !has_flag_on. rewrite (flag_byte2_low XMIT_CRTIME_EQ_MTIME) by (by apply byte1_range).
  rewrite !flag_byte1, !has_flag_0. rewrite !has_flag_on, !has_flag_0.
  unfold XMIT_SAME_ATIME, XMIT_MOD_NSEC, XMIT_NO_CONTENT_DIR.
  generalize (has_flag 1 k), (has_flag 2 k), (has_flag 4 k), (has_flag 8 k), (has_flag 16 k),
    (has_flag 32 k), (has_flag 64 k). intros.
  generalize dev_same, dev_minor8, link_here, link_same_dev, link_first, user_here, group_here,
    (is_dir e && (30 <=? proto) && negb (content_dir e)),
    (p_atimes (fw_preserve w) && negb (is_dir e) && (atime e =? prev_atime st)),
    ((31 <=? proto) && negb (fe_mtime_nsec e =? 0)). intros. btauto.
Qed.

Lemma xflags_third k : 0 ≤ k < 256 → has_flag X (byte2 k) = has_flag third_byte k.
Proof.
  intros Hk. rewrite xflags_parts. unfold calculate_time_flags, calculate_directory_flags, third_byte.
  assert (H1 : ∀ y, 0 ≤ y < 256 → has_flag (byte1 y) (byte2 k) = false).
  { intros y Hy. apply shiftl_low; [|done]. by apply byte1_range. }
  assert (HB : has_flag B (byte2 k) = false) by (apply shiftl_low; [pose proof basic_bound; lia|done]).
  rewrite !has_flag_lor, HB.
  rewrite !H1 by (repeat (apply (on_bound 8); [done| |done]); done).
  rewrite !has_flag_on, !flag_byte2, !H1, !has_flag_0 by done.
  by rewrite ?andb_false_r, ?orb_false_r.
Qed.

Lemma xflags_ok : flags_ok (fw_use_varint_flags w) X.
Proof.
  split.
  - assert (H : ∀ k, 16 ≤ k → 0 ≤ B < 2 ^ k).
    { intros k Hk. pose proof basic_bound. assert (2 ^ 8 ≤ 2 ^ k) by (apply Z.pow_le_mono_r; lia). lia. }
    assert (Hb : ∀ y k, 16 ≤ k → 0 ≤ y < 2 ^ 8 → 0 ≤ byte1 y < 2 ^ k).
    { intros y k Hk Hy. assert (0 ≤ byte1 y < 2 ^ 16) by (by apply byte1_range).
      assert (2 ^ 16 ≤ 2 ^ k) by (apply Z.pow_le_mono_r; lia). lia. }
    rewrite xflags_parts. unfold calculate_time_flags, calculate_directory_flags.
    destruct (fw_use_varint_flags w); cbn [andb on]; repeat apply lor_bound; try (by apply H); try done;
      repeat (apply on_bound; [done| |]); try done; apply Hb; try done;
      repeat (apply (on_bound 8); [done| |done]); done.
  - rewrite xflags_low by done. apply basic_ext.
  - rewrite !xflags_second by done. unfold second_byte. on_bits. unfold link_first.
    by destruct link_here.
Qed.

End xflags.

(** ** Codecs *)

(** What the list needs of a codec; the times that it can send are part of it. *)
Class CodecLaws (c : ProtocolCodec) (mtimes : Z → Prop) := {
  size_back v rest : in_i 64 v →
    ∃ out, write_file_size c v = Some out ∧ read_file_size c (out ++ rest) = Ok (v, rest);
  mtime_back v rest : mtimes v →
    ∃ out, write_mtime c v = Some out ∧ read_mtime c (out ++ rest) = Ok (v, rest);
  name_len_back n rest : in_u 31 n →
    read_long_name_len c (write_long_name_len c n ++ rest) = Ok (n, rest);
}.

Lemma read_int_le v rest : in_i 32 v → read_exact 4 (le_bytes 4 v ++ rest) = Ok (le_bytes 4 v, rest).
Proof. intros _. apply read_exact_app, length_le_bytes. Qed.

#[export] Instance legacy_laws : CodecLaws LegacyProtocolCodec (in_u 32).
Proof.
  split; cbn [LegacyProtocolCodec write_file_size read_file_size write_mtime read_mtime
                write_long_name_len read_long_name_len].
  - intros v rest Hv. eexists. split; [done|]. rewrite <-(read_longint_write v rest Hv).
    generalize (write_longint v ++ rest). intros s. unfold legacy_read_file_size, read_longint.
    unfold mbind, parser_bind. destruct (read_exact 4 s) as [[buf s']|]; [|done].
    destruct (i32_from_le buf =? -1); done.
  - intros v rest Hv. eexists. split; [done|]. unfold legacy_read_mtime, legacy_write_mtime.
    rewrite wrap_small by done.
    rewrite (parser_bind_ok _ _ _ (le_bytes 4 v) rest) by apply read_exact_app, length_le_bytes.
    rewrite le_val_le_bytes. unfold mret, parser_ret. do 2 f_equal. apply Z.mod_small. done.
  - intros n rest Hn. unfold in_u in Hn. unfold legacy_read_long_name_len, legacy_write_long_name_len.
    assert (in_i 32 n) by (unfold in_i; lia).
    rewrite swrap_small by done.
    rewrite (parser_bind_ok _ _ _ (le_bytes 4 n) rest) by apply read_exact_app, length_le_bytes.
    rewrite i32_from_le_bytes by done. by rewrite (proj2 (Z.ltb_ge n 0)) by lia.
Qed.

#[export] Instance modern_laws : CodecLaws ModernProtocolCodec (in_i 64).
Proof.
  split; cbn [ModernProtocolCodec write_file_size read_file_size write_mtime read_mtime
                write_long_name_len read_long_name_len].
  - intros v rest Hv. destruct (read_varlong_write v 3 rest) as (out & E & _ & R); [done|lia|left; lia|]. eauto.
  - intros v rest Hv. destruct (read_varlong_write v 4 rest) as (out & E & _ & R); [done|lia|left; lia|]. eauto.
  - intros n rest Hn. unfold in_u in Hn. assert (in_i 32 n) by (unfold in_i; lia).
    rewrite swrap_small by done. unfold modern_read_long_name_len.
    rewrite (parser_bind_ok _ _ _ n rest) by (by apply read_varint_write).
    by rewrite (proj2 (Z.ltb_ge n 0)) by lia.
Qed.

Definition mtime_ok (proto : Z) : Z → Prop := if proto <? 30 then in_u 32 else in_i 64.

#[export] Instance codec_laws proto : CodecLaws (create_protocol_codec proto) (mtime_ok proto).
Proof. unfold create_protocol_codec, mtime_ok. destruct (proto <? 30); apply _. Qed.

(** ** Fields *)

Definition updw (w : FileListWriter) (g : FileListCompressionState → FileListCompressionState) : FileListWriter :=
  fw_with_state (g (fw_state w)) w.
Definition updr (r : FileListReader) (g : FileListCompressionState → FileListCompressionState) : FileListReader :=
  fr_with_state (g (fr_state r)) r.

Lemma session_upd w r g h : session w r → session (updw w g) (updr r h).
Proof. intros []. by split. Qed.

Lemma session_updw w r g : session w r → session (updw w g) r.
Proof. intros []. by split. Qed.

Lemma session_updr w r g : session w r → session w (updr r g).
Proof. intros []. by split. Qed.

Lemma fr_with_state_eta r : fr_with_state (fr_state r) r = r.
Proof. by destruct r. Qed.

Lemma fw_with_state_eta w : fw_with_state (fw_state w) w = w.
Proof. by destruct w. Qed.

Lemma transmits_then {A B} o (D : decoder A) (F : A → decoder B) r w1 r1 a r2 b :
  transmits o D r w1 r1 a → (∀ s, F a r1 s = (r2, Ok (b, s))) →
  transmits o (D ≫= F) r w1 r2 b.
Proof.
  intros (out & Ho & R) HF. exists out. split; [done|]. intros rest. unfold mbind, decoder_bind. by rewrite R, HF.
Qed.

Lemma transmits_modify {A} (E : encoder) (D : decoder A) w r w1 r1 a g :
  transmits (E w) D r w1 r1 a → transmits ((E >+> modify g) w) D r (updw w1 g) r1 a.
Proof.
  intros (o & Ho & R). exists o. split; [|done]. unfold seq_enc. rewrite Ho. cbn. by rewrite app_nil_r.
Qed.

Lemma transmits_eq {A} o (D : decoder A) r w' w'' r' r'' a :
  transmits o D r w' r' a → w' = w'' → r' = r'' → transmits o D r w'' r'' a.
Proof. by intros ? <- <-. Qed.

Lemma common_prefix_take a b : take (common_prefix a b) a = take (common_prefix a b) b.
Proof.
  revert b. induction a as [|x a IH]; intros [|y b]; cbn [common_prefix]; try done.
  destruct (bool_decide_reflect (x = y)) as [->|]; [|done]. cbn [take]. by rewrite IH.
Qed.

Lemma common_prefix_le a b : (common_prefix a b ≤ length a ∧ common_prefix a b ≤ length b)%nat.
Proof.
  revert b. induction a as [|x a IH]; intros [|y b]; cbn [common_prefix length]; try lia.
  destruct (bool_decide (x = y)); [|lia]. specialize (IH b). lia.
Qed.

Lemma shared_prefix st name n : n = calculate_name_prefix_len st name →
  (n ≤ 255 ∧ n ≤ length name ∧ n ≤ length (prev_name st))%nat ∧
  take n (prev_name st) ++ drop n name = name.
Proof.
  unfold calculate_name_prefix_len. intros ->. pose proof (common_prefix_le (prev_name st) name).
  split; [lia|]. set (n := Nat.min _ _). trans (take n name ++ drop n name); [|apply take_drop].
  f_equal. subst n. rewrite !(Nat.min_comm _ 255), <-!take_take. f_equal. apply common_prefix_take.
Qed.

Lemma read_byte_zb (n : nat) rest : (n ≤ 255)%nat →
  read_byte ([zb (Z.of_nat n)] ++ rest) = Ok (Z.of_nat n, rest).
Proof. intros Hn. cbn [app]. rewrite read_byte_cons, uz_zb_small; [done|lia]. Qed.

Lemma name_field w r x d f name :
  session w r → flags_agree x d f → prev_name (fr_state r) = prev_name (fw_state w) →
  (length name < MAXPATHLEN)%nat →
  let sl := calculate_name_prefix_len (fw_state w) name in
  let su := (length name - sl)%nat in
  has_flag x XMIT_SAME_NAME = (0 <? sl)%nat → has_flag x XMIT_LONG_NAME = (255 <? su)%nat →
  transmits (write_name name sl su x w) (read_name f) r w (updr r (update_name name)) name.
Proof.
  intros Hs Hf Hn Hl sl su Hsame Hlong.
  destruct (shared_prefix (fw_state w) name sl eq_refl) as [Hsl Htake].
  unfold write_name, read_name. cbv beta. unfold same_name, long_name.
  rewrite (fa_primary _ _ _ Hf XMIT_SAME_NAME) by (cbn; set_solver).
  rewrite (fa_primary _ _ _ Hf XMIT_LONG_NAME) by (cbn; set_solver).
  rewrite Hsame, Hlong.
  eapply transmits_self; [done|].
  apply (transmits_seq _ _ _ _ w r w r (Z.of_nat sl)).
  { destruct (Nat.ltb_spec 0 sl).
    - apply transmits_wire. intros. apply read_byte_zb. lia.
    - replace sl with O by lia. by exists []. }
  apply (transmits_seq _ _ _ _ w r w r (Z.of_nat su)).
  { destruct (Nat.ltb_spec 255 su).
    - apply transmits_wire. intros. unfold fw_codec, fr_codec. rewrite (se_protocol _ _ Hs).
      apply name_len_back. unfold in_u, MAXPATHLEN in *. lia.
    - apply transmits_wire. intros. apply read_byte_zb. lia. }
  rewrite Hn, (proj2 (Z.ltb_ge (Z.of_nat (length _)) (Z.of_nat sl))) by lia.
  unfold MAXPATHLEN in *. rewrite (proj2 (Z.ltb_ge usize_max _)) by (unfold usize_max; lia).
  rewrite (proj2 (Z.leb_gt (Z.of_nat 4096) (Z.of_nat sl + Z.of_nat su))) by lia.
  rewrite Nat2Z.id. eapply transmits_then.
  - apply transmits_wire. intros rest. assert (Hd : length (drop sl name) = su) by (rewrite length_drop; lia).
    destruct (Z.ltb_spec 0 (Z.of_nat su)).
    + rewrite Nat2Z.id. by apply read_exact_app.
    + assert (drop sl name = []) as -> by (apply nil_length_inv; lia). done.
  - intros s. cbn beta. rewrite Htake. done.
Qed.

Lemma wrap_swrap k v : 0 < k → in_u k v → wrap k (swrap k v) = v.
Proof.
  intros Hk Hv. rewrite (cong_wrap_eq k (swrap k v) v) by (by apply cong_swrap). by apply wrap_small.
Qed.

Lemma read_u32_varint v rest : in_u 32 v →
  read_varint (write_varint (swrap 32 v) ++ rest) = Ok (swrap 32 v, rest).
Proof. intros _. apply read_varint_write. by apply swrap_range. Qed.

Lemma read_u32_fixed v rest : in_u 32 v →
  read_exact 4 (le_bytes 4 (swrap 32 v) ++ rest) = Ok (le_bytes 4 (swrap 32 v), rest) ∧
  wrap 32 (i32_from_le (le_bytes 4 (swrap 32 v))) = v.
Proof.
  intros Hv. split; [apply read_exact_app, length_le_bytes|].
  rewrite i32_from_le_bytes by (by apply swrap_range). by apply wrap_swrap.
Qed.

Lemma read_u32_varint30 proto v rest : in_u 32 v →
  read_varint30_int proto (write_varint30_int (swrap 32 v) proto ++ rest) = Ok (swrap 32 v, rest).
Proof.
  intros _. unfold read_varint30_int, write_varint30_int. destruct (proto <? 30).
  - apply read_int_write. by apply swrap_range.
  - apply read_varint_write. by apply swrap_range.
Qed.

(** What is left unchanged where the value is the one of the state. *)
Lemma updr_same r g : g (fr_state r) = fr_state r → updr r g = r.
Proof. intros E. unfold updr. rewrite E. apply fr_with_state_eta. Qed.

Lemma updw_same w g : g (fw_state w) = fw_state w → updw w g = w.
Proof. intros E. unfold updw. rewrite E. apply fw_with_state_eta. Qed.

Lemma update_mtime_same st v : prev_mtime st = v → update_mtime v st = st.
Proof. intros <-. by destruct st. Qed.
Lemma update_mode_same st v : prev_mode st = v → update_mode v st = st.
Proof. intros <-. by destruct st. Qed.
Lemma update_atime_same st v : prev_atime st = v → update_atime v st = st.
Proof. intros <-. by destruct st. Qed.
Lemma update_uid_same st v : prev_uid st = v → update_uid v st = st.
Proof. intros <-. by destruct st. Qed.
Lemma update_gid_same st v : prev_gid st = v → update_gid v st = st.
Proof. intros <-. by destruct st. Qed.
Lemma update_rdev_major_same st v : prev_rdev_major st = v → update_rdev_major v st = st.
Proof. intros <-. by destruct st. Qed.
Lemma update_hardlink_dev_same st v : prev_hardlink_dev st = v → update_hardlink_dev v st = st.
Proof. intros <-. by destruct st. Qed.

Section fields.
Context (w : FileListWriter) (r : FileListReader) (e : FileEntry) (x : Z) (f : FileFlags).
Context (Hs : session w r) (Hf : flags_agree x (is_dir e) f).

Lemma f_primary m : m ∈ primary_bits → has_flag (ff_primary f) m = has_flag x m.
Proof. apply (fa_primary _ _ _ Hf). Qed.

(** The index of the leader on the wire. *)
Definition sent_idx : option Z :=
  if p_hard_links (fw_preserve w) && (30 <=? fw_protocol w) && negb (is_dir e) then hardlink_idx e else None.

Lemma idx_field :
  has_flag x (byte1 XMIT_HLINKED) = link_here w e →
  has_flag x (byte1 XMIT_HLINK_FIRST) = link_first w e →
  (∀ idx, hardlink_idx e = Some idx → in_u 32 idx) →
  transmits (write_hardlink_idx e x w) (read_hardlink_idx f) r w r sent_idx.
Proof.
  intros Hl Hfi Hidx. unfold write_hardlink_idx, read_hardlink_idx. eapply transmits_self; [done|].
  rewrite <-(se_preserve _ _ Hs), <-(se_protocol _ _ Hs). unfold ff_hlinked, ff_hlink_first.
  rewrite !(fa_extended _ _ _ Hf), Hl, Hfi by done. unfold sent_idx, link_first, link_here.
  rewrite Z.ltb_antisym. destruct (p_hard_links (fw_preserve w)); cbn [negb orb andb]; [|apply transmits_ret].
  destruct (30 <=? fw_protocol w); cbn [negb orb andb]; [|apply transmits_ret].
  destruct (is_dir e); cbn [negb andb]; [apply transmits_ret|].
  destruct (hardlink_idx e) as [idx|]; cbn [is_some andb negb]; [|apply transmits_ret].
  specialize (Hidx idx eq_refl).
  destruct (bool_decide_reflect (Some idx = Some u32_max)) as [[= ->]|Hne]; cbn [negb]; [apply transmits_ret|].
  eapply transmits_then.
  - apply transmits_wire. intros. by apply read_u32_varint.
  - intros s. by rewrite wrap_swrap.
Qed.

Lemma size_field : in_u 64 (fe_size e) → transmits (write_size e w) read_size r w r (fe_size e).
Proof.
  intros Hz. unfold write_size, read_size. eapply transmits_self; [done|].
  unfold fw_codec, fr_codec. rewrite (se_protocol _ _ Hs). eapply transmits_then.
  - apply transmits_wire_some. intros rest. apply size_back. by apply swrap_range.
  - intros s. by rewrite wrap_swrap.
Qed.

Lemma mtime_field :
  has_flag x XMIT_SAME_TIME = (fe_mtime e =? prev_mtime (fr_state r)) →
  mtime_ok (fw_protocol w) (fe_mtime e) →
  transmits ((if has_flag x XMIT_SAME_TIME then skip else emit_some (write_mtime (fw_codec w) (fe_mtime e))) w)
    (read_mtime_field f) r w (updr r (update_mtime (fe_mtime e))) (fe_mtime e).
Proof.
  intros Hb Hm. unfold read_mtime_field. eapply transmits_self; [done|]. unfold same_time.
  rewrite f_primary by (cbn; set_solver). rewrite Hb.
  destruct (Z.eqb_spec (fe_mtime e) (prev_mtime (fr_state r))) as [E|_].
  - rewrite updr_same by (by apply update_mtime_same). rewrite <-E. apply transmits_ret.
  - unfold fw_codec, fr_codec. rewrite (se_protocol _ _ Hs) in *. eapply transmits_then.
    + apply transmits_wire_some. intros rest. by apply mtime_back.
    + done.
Qed.

Definition sent_nsec : Z := if 31 <=? fw_protocol w then fe_mtime_nsec e else 0.

Lemma nsec_field :
  has_flag x (byte1 XMIT_MOD_NSEC) = (31 <=? fw_protocol w) && negb (fe_mtime_nsec e =? 0) →
  0 ≤ fe_mtime_nsec e ≤ MAX_WIRE_NSEC →
  transmits ((if has_flag x (byte1 XMIT_MOD_NSEC) then emit (write_varint (swrap 32 (fe_mtime_nsec e))) else skip) w)
    (read_nsec f) r w r sent_nsec.
Proof.
  intros Hb Hr. unfold read_nsec, mod_nsec, sent_nsec. rewrite (fa_extended _ _ _ Hf), Hb by done.
  destruct (31 <=? fw_protocol w); cbn [andb]; [|apply transmits_ret].
  destruct (Z.eqb_spec (fe_mtime_nsec e) 0) as [->|]; cbn [negb]; [apply transmits_ret|].
  unfold MAX_WIRE_NSEC in *. rewrite swrap_small by (unfold in_i; lia). eapply transmits_then.
  - apply transmits_wire. intros. apply read_varint_write. unfold in_i. lia.
  - intros s. cbn beta. by rewrite !(proj2 (Z.leb_le _ _)) by (unfold MAX_WIRE_NSEC; lia).
Qed.

Lemma varlong_back v rest : in_i 64 v →
  ∃ out, write_varlong v 4 = Some out ∧ read_varlong 4 (out ++ rest) = Ok (v, rest).
Proof.
  intros Hv. destruct (read_varlong_write v 4 rest) as (out & E & _ & R); [done|lia|left; lia|]. eauto.
Qed.

Lemma crtime_field :
  has_flag x (byte2 XMIT_CRTIME_EQ_MTIME)
    = fw_use_varint_flags w && p_crtimes (fw_preserve w) && (crtime e =? fe_mtime e) →
  in_i 64 (crtime e) →
  transmits ((if p_crtimes (fw_preserve w) && negb (has_flag x (byte2 XMIT_CRTIME_EQ_MTIME))
              then emit_some (write_varlong (crtime e) 4) else skip) w)
    (read_crtime f (fe_mtime e)) r w r (if p_crtimes (fw_preserve w) then Some (crtime e) else None).
Proof.
  intros Hb Hr. unfold read_crtime, crtime_eq_mtime. eapply transmits_self; [done|].
  rewrite (fa_extended16 _ _ _ Hf), Hb by done. rewrite <-(se_preserve _ _ Hs).
  destruct (p_crtimes (fw_preserve w)); [|apply transmits_ret]. rewrite andb_true_r. cbn [andb].
  destruct (fw_use_varint_flags w && (crtime e =? fe_mtime e)) eqn:E; cbn [negb].
  - apply andb_true_iff in E as [_ ->%Z.eqb_eq]. apply transmits_ret.
  - eapply transmits_then; [|done]. apply transmits_wire_some. intros rest. by apply varlong_back.
Qed.

Lemma mode_field :
  has_flag x XMIT_SAME_MODE = (fe_mode e =? prev_mode (fr_state r)) →
  in_u 16 (fe_mode e) → is_some (type_from_mode (fe_mode e)) = true →
  transmits (write_mode e x w) (read_mode f) r w (updr r (update_mode (fe_mode e))) (fe_mode e).
Proof.
  intros Hb Hm Ht. unfold write_mode, read_mode, same_mode. eapply transmits_self; [done|].
  rewrite f_primary by (cbn; set_solver). rewrite Hb.
  eapply transmits_then.
  - instantiate (1 := fe_mode e). instantiate (1 := updr r (update_mode (fe_mode e))).
    destruct (Z.eqb_spec (fe_mode e) (prev_mode (fr_state r))) as [E|_].
    + rewrite updr_same by (by apply update_mode_same). rewrite <-E. apply transmits_ret.
    + assert (H32 : in_u 32 (fe_mode e)) by (unfold in_u in *; lia).
      destruct (read_u32_fixed (fe_mode e) [] H32) as [_ H].
      eapply transmits_then; [apply transmits_wire; intros; by apply read_u32_fixed|].
      intros s. cbn beta. unfold from_wire_mode, to_wire_mode. by rewrite H.
  - intros s. cbn beta. by rewrite Ht, andb_false_r.
Qed.

End fields.

(** An owner's id and, where one goes along, the name. *)
Definition name_out (name : option (list byte)) : list byte :=
  match name with Some n => zb (Z.of_nat (length n)) :: n | None => [] end.
Definition owner_out (fixed : bool) (id : Z) (name : option (list byte)) : list byte :=
  if fixed then le_bytes 4 (swrap 32 id) else write_varint (swrap 32 id) ++ name_out name.

Definition owner_name_ok (name : list byte) : Prop :=
  valid_utf8 name = true ∧ (0 < length name ≤ 255)%nat.

Lemma read_owner_sent fixed id name prev rest : in_u 32 id →
  (∀ n, name = Some n → owner_name_ok n) → (fixed = true → name = None) →
  read_owner_id false (is_some name) prev fixed (owner_out fixed id name ++ rest) = Ok ((id, name), rest).
Proof.
  intros Hid Hn Hfix. unfold read_owner_id, owner_out. destruct fixed.
  - rewrite (Hfix eq_refl). destruct (read_u32_fixed id rest Hid) as [H1 H2].
    unfold mbind, parser_bind. rewrite H1. cbn [mret parser_ret is_some]. unfold mret, parser_ret. by rewrite H2.
  - rewrite <-app_assoc. unfold mbind, parser_bind. rewrite read_u32_varint by done.
    unfold mret, parser_ret. rewrite wrap_swrap by done. destruct name as [n|]; [|done].
    destruct (Hn n eq_refl) as [Hu Hl]. cbn [is_some name_out].
    change ((zb (Z.of_nat (length n)) :: n) ++ rest) with ([zb (Z.of_nat (length n))] ++ (n ++ rest)).
    rewrite read_byte_zb by lia. rewrite (proj2 (Z.ltb_lt 0 _)) by lia.
    rewrite Nat2Z.id, read_exact_app by done. by rewrite Hu.
Qed.

(** The writer's side of it. *)
Lemma owner_written w fixed id (follows : bool) name g :
  (follows = true → is_some name = true) → (∀ n, name = Some n → owner_name_ok n) →
  (fixed = true → follows = false) →
  ((if fixed : bool then emit (le_bytes 4 (swrap 32 id))
    else emit (write_varint (swrap 32 id)) >+> (if follows then write_owner_name name else skip)) >+>
   modify g) w = Some (owner_out fixed id (if follows then name else None), updw w g).
Proof.
  intros Hfol Hn Hfix. unfold owner_out. destruct fixed.
  - unfold seq_enc, emit, modify. by rewrite app_nil_r.
  - destruct follows.
    + destruct name as [n|]; [|by specialize (Hfol eq_refl)]. destruct (Hn n eq_refl) as [_ Hl].
      unfold write_owner_name. rewrite Nat.min_l by lia. rewrite take_ge by lia.
      unfold seq_enc, emit, modify. by rewrite app_nil_r.
    + unfold seq_enc, emit, modify, skip. by rewrite !app_nil_r.
Qed.

(** Both sides of an owner field, with the part of the state that belongs to it. *)
Lemma owner_transmitted w r (preserved same follows m30 : bool) id prev name
    (upd : Z → FileListCompressionState → FileListCompressionState) :
  (m30 = true → follows = true → is_some name = true) →
  (∀ n, name = Some n → owner_name_ok n) → in_u 32 id →
  (preserved = true → same = true → prev = id ∧ upd id (fw_state w) = fw_state w) →
  transmits
    (if negb preserved || same then skip w
     else ((if negb m30 then emit (le_bytes 4 (swrap 32 id))
            else emit (write_varint (swrap 32 id)) >+> (if follows then write_owner_name name else skip)) >+>
           modify (upd id)) w)
    (if preserved then
       '(id, name) ← wire (read_owner_id same (m30 && follows) prev (negb m30));
       set_state (upd id);; mret (Some id, name)
     else mret (None, None))
    r (updw w (if preserved then upd id else λ st, st)) (updr r (if preserved then upd id else λ st, st))
    (if preserved then Some id else None,
     if preserved then (if follows && m30 && negb same then name else None) else None).
Proof.
  intros Hfol Hn Hid Hsame. destruct preserved; cbn [negb orb].
  2:{ rewrite updr_same, updw_same by done. apply transmits_ret. }
  destruct same; cbn [negb].
  - destruct (Hsame eq_refl eq_refl) as [-> Hu]. rewrite andb_false_r, updw_same by done.
    exists []. split; [done|]. done.
  - rewrite andb_true_r. set (sent := if follows && m30 then name else None).
    assert (Hsn : m30 && follows = is_some sent).
    { subst sent. destruct m30, follows; cbn; try done. symmetry. by apply Hfol. }
    exists (owner_out (negb m30) id sent). split.
    + subst sent. destruct m30; cbn [negb].
      * rewrite andb_true_r. apply (owner_written w false); [by auto|done|done].
      * rewrite andb_false_r. unfold seq_enc, emit, modify. by rewrite app_nil_r.
    + intros rest. rewrite Hsn. unfold mbind, decoder_bind, wire.
      rewrite read_owner_sent; [done|done| |].
      * intros n. subst sent. destruct (follows && m30); [apply Hn|done].
      * subst sent. destruct m30; [done|]. by rewrite andb_false_r.
Qed.

Section fields_with_state.
Context (w : FileListWriter) (r : FileListReader) (e : FileEntry) (x : Z) (f : FileFlags).
Context (Hs : session w r) (Hf : flags_agree x (is_dir e) f).

Definition atime_sent : bool := p_atimes (fw_preserve w) && negb (is_dir e).
Definition update_if (c : bool) (g : FileListCompressionState → FileListCompressionState)
    : FileListCompressionState → FileListCompressionState := if c then g else λ st, st.

Lemma atime_field :
  has_flag x (byte1 XMIT_SAME_ATIME) = atime_sent && (atime e =? prev_atime (fw_state w)) →
  prev_atime (fr_state r) = prev_atime (fw_state w) → in_i 64 (atime e) →
  transmits (write_atime e x w) (read_atime_field f (is_dir e)) r
    (updw w (update_if atime_sent (update_atime (atime e))))
    (updr r (update_if atime_sent (update_atime (atime e))))
    (if atime_sent then Some (atime e) else None, 0).
Proof.
  intros Hb Hp Hr. unfold write_atime, read_atime_field, same_atime. eapply transmits_self; [done|].
  rewrite (fa_extended _ _ _ Hf), <-(se_preserve _ _ Hs) by done. fold atime_sent. rewrite Hb.
  destruct atime_sent; cbn [andb update_if].
  2:{ rewrite updr_same, updw_same by done. apply transmits_ret. }
  destruct (Z.eqb_spec (atime e) (prev_atime (fw_state w))) as [E|_]; cbn [negb].
  - rewrite updr_same by (apply update_atime_same; congruence).
    rewrite updw_same by (by apply update_atime_same). rewrite Hp, <-E. apply transmits_ret.
  - apply transmits_modify. eapply transmits_then; [|done].
    apply transmits_wire_some. intros rest. by apply varlong_back.
Qed.

Definition sent_user : option (list byte) := if has_flag x (byte1 XMIT_USER_NAME_FOLLOWS) && (30 <=? fw_protocol w)
                                             && negb (has_flag x XMIT_SAME_UID) then user_name e else None.
Definition sent_group : option (list byte) := if has_flag x (byte1 XMIT_GROUP_NAME_FOLLOWS) && (30 <=? fw_protocol w)
                                              && negb (has_flag x XMIT_SAME_GID) then group_name e else None.

Lemma uid_field :
  has_flag x XMIT_SAME_UID = same_owner w (p_uid (fw_preserve w)) (default 0 (uid e)) (prev_uid (fw_state w)) →
  (30 <=? fw_protocol w = true → has_flag x (byte1 XMIT_USER_NAME_FOLLOWS) = true → is_some (user_name e) = true) →
  (p_uid (fw_preserve w) = true → prev_uid (fr_state r) = prev_uid (fw_state w)) →
  in_u 32 (default 0 (uid e)) → (∀ n, user_name e = Some n → owner_name_ok n) →
  transmits (write_uid_field e x w) (read_uid_field f) r
    (updw w (update_if (p_uid (fw_preserve w)) (update_uid (default 0 (uid e)))))
    (updr r (update_if (p_uid (fw_preserve w)) (update_uid (default 0 (uid e)))))
    (if p_uid (fw_preserve w) then Some (default 0 (uid e)) else None,
     if p_uid (fw_preserve w) then sent_user else None).
Proof.
  intros Hb Hfol Hp Hu Hn. unfold write_uid_field, read_uid_field, same_uid, user_name_follows, sent_user.
  eapply transmits_self; [done|].
  rewrite (fa_extended _ _ _ Hf), (fa_primary _ _ _ Hf) by (done || (cbn; set_solver)).
  rewrite <-(se_preserve _ _ Hs), <-(se_protocol _ _ Hs). unfold uses_fixed_encoding. rewrite Z.ltb_antisym.
  apply (owner_transmitted w r _ _ _ _ _ _ _ update_uid); [done|done|done|].
  intros Ep Es. rewrite Hb in Es. unfold same_owner in Es. rewrite Ep in Es. cbn [negb orb] in Es.
  apply andb_true_iff in Es as [E%Z.eqb_eq _]. split; [rewrite E; auto|by apply update_uid_same].
Qed.

Lemma gid_field :
  has_flag x XMIT_SAME_GID = same_owner w (p_gid (fw_preserve w)) (default 0 (gid e)) (prev_gid (fw_state w)) →
  (30 <=? fw_protocol w = true → has_flag x (byte1 XMIT_GROUP_NAME_FOLLOWS) = true → is_some (group_name e) = true) →
  (p_gid (fw_preserve w) = true → prev_gid (fr_state r) = prev_gid (fw_state w)) →
  in_u 32 (default 0 (gid e)) → (∀ n, group_name e = Some n → owner_name_ok n) →
  transmits (write_gid_field e x w) (read_gid_field f) r
    (updw w (update_if (p_gid (fw_preserve w)) (update_gid (default 0 (gid e)))))
    (updr r (update_if (p_gid (fw_preserve w)) (update_gid (default 0 (gid e)))))
    (if p_gid (fw_preserve w) then Some (default 0 (gid e)) else None,
     if p_gid (fw_preserve w) then sent_group else None).
Proof.
  intros Hb Hfol Hp Hu Hn. unfold write_gid_field, read_gid_field, same_gid, group_name_follows, sent_group.
  eapply transmits_self; [done|].
  rewrite (fa_extended _ _ _ Hf), (fa_primary _ _ _ Hf) by (done || (cbn; set_solver)).
  rewrite <-(se_preserve _ _ Hs), <-(se_protocol _ _ Hs). unfold uses_fixed_encoding. rewrite Z.ltb_antisym.
  apply (owner_transmitted w r _ _ _ _ _ _ _ update_gid); [done|done|done|].
  intros Ep Es. rewrite Hb in Es. unfold same_owner in Es. rewrite Ep in Es. cbn [negb orb] in Es.
  apply andb_true_iff in Es as [E%Z.eqb_eq _]. split; [rewrite E; auto|by apply update_gid_same].
Qed.

End fields_with_state.

Lemma swrap_succ_pred v : in_i 64 v → swrap 64 (swrap 64 (v + 1) - 1) = v.
Proof.
  intros Hv. rewrite <-(swrap_small 64 v) at 2 by (done || lia).
  rewrite <-(swrap_mod 64 v), <-(swrap_mod 64 (swrap 64 (v + 1) - 1)) by lia. f_equal.
  rewrite Zminus_mod.
  pose proof (cong_swrap 64 (v + 1) ltac:(lia)) as H. unfold cong in H. rewrite H, <-Zminus_mod.
  f_equal. lia.
Qed.

Section last_fields.
Context (w : FileListWriter) (r : FileListReader) (e : FileEntry) (x : Z) (f : FileFlags).
Context (Hs : session w r) (Hf : flags_agree x (is_dir e) f).

Lemma device_not_special : is_device e = true → is_special e = false.
Proof.
  unfold is_device, is_special. set (t := Z.land (fe_mode e) S_IFMT).
  intros [->%Z.eqb_eq| ->%Z.eqb_eq]%orb_true_iff; done.
Qed.

Definition major_of : Z := default 0 (rdev_major e).
Definition minor_of : Z := default 0 (rdev_minor e).
Definition rdev_sent : bool := p_devices (fw_preserve w) && is_device e.

Lemma minor_transmitted r0 minor : in_u 32 minor →
  (30 <=? fw_protocol w = false → has_flag x (byte1 XMIT_RDEV_MINOR_8_PRE30) = true → minor <= 0xff) →
  transmits
    ((if 30 <=? fw_protocol w then emit (write_varint (swrap 32 minor))
      else if has_flag x (byte1 XMIT_RDEV_MINOR_8_PRE30) then emit [zb minor]
      else emit (le_bytes 4 (swrap 32 minor))) w)
    (if 30 <=? fw_protocol w then m ← wire read_varint; mret (wrap 32 m)
     else if rdev_minor_8_pre30 f then wire read_byte
     else buf ← wire (read_exact 4); mret (wrap 32 (i32_from_le buf)))
    r0 w r0 minor.
Proof.
  intros Hm H8. unfold rdev_minor_8_pre30. rewrite (fa_extended _ _ _ Hf) by done.
  destruct (30 <=? fw_protocol w).
  - eapply transmits_then; [apply transmits_wire; intros; by apply read_u32_varint|].
    intros s. by rewrite wrap_swrap.
  - destruct (has_flag x _) eqn:E8.
    + apply transmits_wire. intros rest. cbn [app]. rewrite read_byte_cons, uz_zb_small; [done|].
      specialize (H8 eq_refl eq_refl). unfold in_u in Hm. lia.
    + eapply transmits_then; [apply transmits_wire; intros; by apply read_u32_fixed|].
      intros s. cbn beta. destruct (read_u32_fixed minor [] Hm) as [_ ->]. done.
Qed.

Lemma rdev_field :
  (needs_rdev (fw_preserve w) (fw_protocol w) (is_device e) (is_special e) = true →
   has_flag x (byte1 XMIT_SAME_RDEV_MAJOR) = dev_same w e) →
  (30 <=? fw_protocol w = false → has_flag x (byte1 XMIT_RDEV_MINOR_8_PRE30) = dev_minor8 w e) →
  prev_rdev_major (fr_state r) = prev_rdev_major (fw_state w) →
  in_u 32 major_of → in_u 32 minor_of →
  transmits (write_rdev e x w) (read_rdev (fe_mode e) f) r
    (updw w (update_if rdev_sent (update_rdev_major major_of)))
    (updr r (update_if rdev_sent (update_rdev_major major_of)))
    (if rdev_sent then Some (major_of, minor_of) else None).
Proof.
  intros Hb H8 Hp Hmaj Hmin. unfold write_rdev, read_rdev. eapply transmits_self; [done|].
  rewrite <-(se_preserve _ _ Hs), <-(se_protocol _ _ Hs).
  change (mode_is_device (fe_mode e)) with (is_device e).
  change (mode_is_special (fe_mode e)) with (is_special e).
  unfold same_rdev_major. rewrite (fa_extended _ _ _ Hf) by done. fold major_of minor_of.
  destruct (needs_rdev _ _ _ _) eqn:En; cbn [negb].
  2:{ assert (rdev_sent = false) as ->.
      { unfold rdev_sent. unfold needs_rdev in En. by apply orb_false_iff in En as [-> _]. }
      cbn [update_if]. rewrite updr_same, updw_same by done. apply transmits_ret. }
  rewrite (Hb eq_refl). unfold dev_same. rewrite En. cbn [andb]. unfold rdev_sent in *.
  destruct (is_device e) eqn:Ed.
  - assert (p_devices (fw_preserve w) = true ∧ is_special e = false) as [Hpd Hns].
    { pose proof (device_not_special Ed) as Hns. split; [|done]. unfold needs_rdev in En. rewrite Hns in En.
      destruct (p_devices (fw_preserve w)); [done|]. by rewrite andb_false_r in En. }
    rewrite Hpd, Hns. cbn [andb orb update_if].
    assert (H8' : 30 <=? fw_protocol w = false → has_flag x (byte1 XMIT_RDEV_MINOR_8_PRE30) = true → minor_of ≤ 255).
    { intros E30 E8. rewrite (H8 E30) in E8. unfold dev_minor8 in E8. rewrite Ed, En, Hns in E8. cbn [andb orb] in E8.
      apply andb_true_iff in E8 as [_ ?%Z.leb_le]. done. }
    apply (transmits_seq _ _ _ _ w r w (updr r (update_rdev_major major_of)) major_of).
    + fold major_of. destruct (Z.eqb_spec major_of (prev_rdev_major (fw_state w))) as [E|_].
      * rewrite updr_same by (apply update_rdev_major_same; congruence). rewrite Hp, <-E. apply transmits_ret.
      * eapply transmits_then; [apply transmits_wire; intros; by apply read_u32_varint30|].
        intros s. by rewrite wrap_swrap.
    + apply transmits_modify. eapply transmits_then; [by apply minor_transmitted|]. done.
  - assert (Hsp : is_special e = true).
    { unfold needs_rdev in En. destruct (is_special e); [done|]. by rewrite !andb_false_r in En. }
    rewrite Hsp, andb_false_r. cbn [orb update_if]. rewrite updr_same, updw_same by done.
    apply (transmits_seq _ _ _ _ w r w r (prev_rdev_major (fr_state r))); [apply transmits_ret|].
    unfold transmits, seq_enc. destruct (minor_transmitted r 0) as (out & E & R); [done|done|].
    exists out. rewrite E. cbn [skip]. rewrite app_nil_r. split; [done|]. intros rest.
    unfold mbind at 1, decoder_bind at 1. by rewrite R.
Qed.

Lemma symlink_field :
  (p_links (fw_preserve w) = true → is_symlink e = true →
   ∃ t, link_target e = Some t ∧ (0 < length t ≤ 4096)%nat) →
  transmits (write_symlink_target e w) (read_symlink_target (fe_mode e)) r w r
    (if p_links (fw_preserve w) && is_symlink e then link_target e else None).
Proof.
  intros Ht. unfold write_symlink_target, read_symlink_target. eapply transmits_self; [done|].
  rewrite <-(se_preserve _ _ Hs), <-(se_protocol _ _ Hs).
  change (Z.land (fe_mode e) S_IFMT =? 40960) with (is_symlink e).
  destruct (p_links (fw_preserve w)), (is_symlink e); cbn [negb orb andb]; try apply transmits_ret.
  destruct Ht as (t & Et & Hl); [done..|]. rewrite Et.
  assert (Hlen : in_u 32 (Z.of_nat (length t))) by (unfold in_u; lia).
  apply (transmits_seq _ _ _ _ w r w r (Z.of_nat (length t))).
  - apply transmits_wire. intros rest. rewrite read_u32_varint30 by done.
    by rewrite swrap_small by (unfold in_i; lia).
  - rewrite (wrap_small 64) by (unfold in_u in *; lia).
    rewrite (proj2 (Z.eqb_neq (Z.of_nat (length t)) 0)) by lia.
    rewrite (proj2 (Z.ltb_ge MAX_SYMLINK_TARGET_LEN _)) by (unfold MAX_SYMLINK_TARGET_LEN; lia).
    eapply transmits_then; [|done]. apply transmits_wire. intros rest. apply read_exact_app. by rewrite Nat2Z.id.
Qed.

Definition dev_ino_sent : bool := p_hard_links (fw_preserve w) && (fw_protocol w <? 30) && negb (is_dir e).
Definition sent_dev_ino : option (Z * Z) :=
  if dev_ino_sent then (λ dev, (dev, default 0 (hardlink_ino e))) <$> hardlink_dev e else None.
Definition update_dev : FileListCompressionState → FileListCompressionState :=
  match sent_dev_ino with Some (dev, _) => update_hardlink_dev dev | None => λ st, st end.

Lemma dev_ino_field :
  has_flag x (byte1 XMIT_HLINKED) = link_here w e →
  (30 <=? fw_protocol w = false → has_flag x (byte1 XMIT_SAME_DEV_PRE30) = link_same_dev w e) →
  prev_hardlink_dev (fr_state r) = prev_hardlink_dev (fw_state w) →
  (∀ dev, hardlink_dev e = Some dev → in_i 64 dev) → in_i 64 (default 0 (hardlink_ino e)) →
  transmits (write_hardlink_dev_ino e x w) (read_hardlink_dev_ino f (fe_mode e)) r
    (updw w update_dev) (updr r update_dev) sent_dev_ino.
Proof.
  intros Hl Hsd Hp Hd Hi. unfold write_hardlink_dev_ino, read_hardlink_dev_ino. eapply transmits_self; [done|].
  pose proof (se_range _ _ Hs) as Hr. rewrite <-(se_preserve _ _ Hs), <-(se_protocol _ _ Hs) in *.
  rewrite !(proj2 (Z.ltb_ge (fw_protocol w) 28)) by lia. rewrite !orb_false_r.
  change (mode_is_dir (fe_mode e)) with (is_dir e). unfold ff_hlinked, same_dev_pre30.
  rewrite !(fa_extended _ _ _ Hf), Hl by done. unfold update_dev, sent_dev_ino, dev_ino_sent, link_here.
  rewrite Z.ltb_antisym.
  destruct (p_hard_links (fw_preserve w)) eqn:Eh; cbn [negb orb andb].
  2:{ rewrite updr_same, updw_same by done. apply transmits_ret. }
  destruct (30 <=? fw_protocol w) eqn:E30; cbn [negb orb andb].
  { rewrite updr_same, updw_same by done. apply transmits_ret. }
  destruct (is_dir e) eqn:Ed; cbn [negb andb].
  { rewrite updr_same, updw_same by done. apply transmits_ret. }
  destruct (hardlink_dev e) as [dev|] eqn:Edev; cbn [is_some negb fmap option_fmap option_map].
  2:{ rewrite updr_same, updw_same by done. apply transmits_ret. }
  rewrite (Hsd eq_refl). unfold link_same_dev, link_here. rewrite Eh, Ed, E30, Edev, Z.ltb_antisym, E30.
  cbn [negb andb is_some].
  apply (transmits_seq _ _ _ _ w r w (updr r (update_hardlink_dev dev)) dev).
  - destruct (bool_decide_reflect (Some dev = Some (prev_hardlink_dev (fw_state w)))) as [[= E]|_].
    + rewrite updr_same by (apply update_hardlink_dev_same; congruence). rewrite Hp, <-E. apply transmits_ret.
    + eapply transmits_then; [apply transmits_wire; intros; apply read_longint_write; by apply swrap_range|].
      intros s. cbn beta.
      assert (swrap 64 (swrap 64 (dev + 1) - 1) = dev) as ->; [|done].
      by apply swrap_succ_pred; auto.
  - apply transmits_modify. eapply transmits_then; [apply transmits_wire; intros; by apply read_longint_write|done].
Qed.

Definition checksum_sent : bool :=
  fw_always_checksum w && negb (fw_flist_csum_len w =? 0)%nat && is_file e.

Lemma checksum_field :
  (checksum_sent = true → ∃ sum, checksum e = Some sum ∧ length sum = fw_flist_csum_len w) →
  transmits (write_checksum e w) (read_checksum (fe_mode e)) r w r
    (if checksum_sent then checksum e else None).
Proof.
  intros Hc. unfold write_checksum, read_checksum. eapply transmits_self; [done|].
  pose proof (se_range _ _ Hs). rewrite <-(se_checksum _ _ Hs), <-(se_csum_len _ _ Hs), <-(se_protocol _ _ Hs) in *.
  change (Z.land (fe_mode e) S_IFMT =? 32768) with (is_file e). unfold checksum_sent in *.
  rewrite (proj2 (Z.leb_le 28 _)) by lia. rewrite !andb_true_r.
  destruct (fw_always_checksum w); cbn [negb orb andb]; [|apply transmits_ret].
  destruct (Nat.eqb_spec (fw_flist_csum_len w) 0); cbn [negb andb] in *; [apply transmits_ret|].
  destruct (is_file e); cbn [negb] in *; [|apply transmits_ret].
  destruct (Hc eq_refl) as (sum & Esum & Hl). rewrite Esum, Hl, Nat.min_id.
  rewrite (proj2 (Nat.ltb_ge (fw_flist_csum_len w) _)) by lia. rewrite take_ge by lia.
  exists sum. split; [unfold seq_enc, emit, skip; by rewrite app_nil_r|]. intros rest.
  unfold mbind, decoder_bind, wire. by rewrite read_exact_app.
Qed.

End last_fields.

(** ** The entry *)

(** What the flags of an entry say. *)
Record xflags_spec (w : FileListWriter) (e : FileEntry) (x : Z) : Prop := {
  xs_top : has_flag x XMIT_TOP_DIR = is_dir e && top_dir e;
  xs_mode : has_flag x XMIT_SAME_MODE = (fe_mode e =? prev_mode (fw_state w));
  xs_time : has_flag x XMIT_SAME_TIME = (fe_mtime e =? prev_mtime (fw_state w));
  xs_uid : has_flag x XMIT_SAME_UID
           = same_owner w (p_uid (fw_preserve w)) (default 0 (uid e)) (prev_uid (fw_state w));
  xs_gid : has_flag x XMIT_SAME_GID
           = same_owner w (p_gid (fw_preserve w)) (default 0 (gid e)) (prev_gid (fw_state w));
  xs_nsec : has_flag x (byte1 XMIT_MOD_NSEC) = (31 <=? fw_protocol w) && negb (fe_mtime_nsec e =? 0);
  xs_atime : has_flag x (byte1 XMIT_SAME_ATIME) = atime_sent w e && (atime e =? prev_atime (fw_state w));
  xs_crtime : has_flag x (byte2 XMIT_CRTIME_EQ_MTIME)
              = fw_use_varint_flags w && p_crtimes (fw_preserve w) && (crtime e =? fe_mtime e);
  xs_hlinked : has_flag x (byte1 XMIT_HLINKED) = link_here w e;
  xs_first : has_flag x (byte1 XMIT_HLINK_FIRST) = link_first w e;
  xs_user : 30 <=? fw_protocol w = true →
    has_flag x (byte1 XMIT_USER_NAME_FOLLOWS)
    = fw_name_follows w && p_uid (fw_preserve w) && is_some (user_name e) && negb (has_flag x XMIT_SAME_UID);
  xs_group : 30 <=? fw_protocol w = true →
    has_flag x (byte1 XMIT_GROUP_NAME_FOLLOWS)
    = fw_name_follows w && p_gid (fw_preserve w) && is_some (group_name e) && negb (has_flag x XMIT_SAME_GID);
  xs_same_dev : 30 <=? fw_protocol w = false → has_flag x (byte1 XMIT_SAME_DEV_PRE30) = link_same_dev w e;
  xs_minor8 : 30 <=? fw_protocol w = false → has_flag x (byte1 XMIT_RDEV_MINOR_8_PRE30) = dev_minor8 w e;
  xs_major : is_dir e = false → has_flag x (byte1 XMIT_SAME_RDEV_MAJOR) = dev_same w e;
  xs_content : is_dir e = true →
    has_flag x (byte1 XMIT_NO_CONTENT_DIR) = (30 <=? fw_protocol w) && negb (content_dir e);
}.

Lemma dir_not_device e : is_dir e = true → is_device e = false ∧ is_special e = false.
Proof.
  unfold is_dir, is_device, is_special. set (t := Z.land (fe_mode e) S_IFMT). by intros ->%Z.eqb_eq.
Qed.

Lemma calculate_xflags_spec w e sl su : 28 ≤ fw_protocol w → xflags_spec w e (calculate_xflags w e sl su).
Proof.
  intros Hp.
  split.
  1-5: rewrite xflags_low by done.
  6-7, 9-10: rewrite xflags_second by done; unfold second_byte; on_bits; done.
  6: rewrite xflags_third by done; unfold third_byte; on_bits; done.
  - apply basic_top.
  - apply basic_mode.
  - apply basic_time.
  - apply basic_uid.
  - apply basic_gid.
  - intros E. rewrite !xflags_second, xflags_low by done. unfold second_byte. on_bits.
    unfold link_same_dev, user_here. rewrite Z.ltb_antisym, E. by rewrite !andb_false_r.
  - intros E. rewrite !xflags_second, xflags_low by done. unfold second_byte. on_bits.
    unfold dev_minor8, group_here. rewrite Z.ltb_antisym, E. by rewrite !andb_false_r.
  - intros E. rewrite !xflags_second by done. unfold second_byte. on_bits.
    unfold user_here. rewrite E. by rewrite orb_false_r.
  - intros E. rewrite !xflags_second by done. unfold second_byte. on_bits.
    unfold group_here. rewrite E. by rewrite orb_false_r.
  - intros E. rewrite !xflags_second by done. unfold second_byte. on_bits. rewrite E. by rewrite orb_false_r.
  - intros E. rewrite !xflags_second by done. unfold second_byte. on_bits. rewrite E.
    destruct (dir_not_device e E) as [Hd Hsp]. unfold dev_same, needs_rdev. rewrite Hd, Hsp.
    by rewrite !andb_false_r.
Qed.

(** The two states agree on all that the flags of the next entry may refer to. *)
Record synced (p : PreserveFlags) (ws rs : FileListCompressionState) : Prop := {
  sy_name : prev_name rs = prev_name ws;
  sy_mode : prev_mode rs = prev_mode ws;
  sy_mtime : prev_mtime rs = prev_mtime ws;
  sy_atime : prev_atime rs = prev_atime ws;
  sy_uid : p_uid p = true → prev_uid rs = prev_uid ws;
  sy_gid : p_gid p = true → prev_gid rs = prev_gid ws;
  sy_rdev : prev_rdev_major rs = prev_rdev_major ws;
  sy_dev : prev_hardlink_dev rs = prev_hardlink_dev ws;
}.

(** An entry that the format can carry, with the options of the writer. *)
Record sendable (w : FileListWriter) (e : FileEntry) : Prop := {
  sd_name : stays_below (name_bytes e) ∧ (length (name_bytes e) < MAXPATHLEN)%nat;
  sd_size : in_u 64 (fe_size e);
  sd_mtime : mtime_ok (fw_protocol w) (fe_mtime e);
  sd_nsec : 0 ≤ fe_mtime_nsec e ≤ MAX_WIRE_NSEC;
  sd_mode : in_u 16 (fe_mode e) ∧ is_some (type_from_mode (fe_mode e)) = true;
  sd_uid : in_u 32 (default 0 (uid e));
  sd_gid : in_u 32 (default 0 (gid e));
  sd_user : ∀ n, user_name e = Some n → owner_name_ok n;
  sd_group : ∀ n, group_name e = Some n → owner_name_ok n;
  sd_times : in_i 64 (atime e) ∧ in_i 64 (crtime e);
  sd_rdev : in_u 32 (major_of e) ∧ in_u 32 (minor_of e);
  sd_target : p_links (fw_preserve w) = true → is_symlink e = true →
    ∃ t, link_target e = Some t ∧ (0 < length t ≤ 4096)%nat;
  sd_idx : ∀ idx, hardlink_idx e = Some idx → in_u 32 idx;
  sd_follower : ∀ idx, sent_idx w e = Some idx → idx ≠ u32_max → swrap 32 idx < fw_first_ndx w;
  sd_dev : ∀ dev, hardlink_dev e = Some dev → in_i 64 dev;
  sd_ino : in_i 64 (default 0 (hardlink_ino e));
  sd_checksum : checksum_sent w e = true →
    ∃ sum, checksum e = Some sum ∧ length sum = fw_flist_csum_len w;
}.

(** What the receiver makes of the metadata. *)
Definition sent_meta (w : FileListWriter) (e : FileEntry) (x : Z) : MetadataResult :=
  let p := fw_preserve w in
  mkMeta (fe_mtime e) (sent_nsec w e) (fe_mode e)
    (if p_uid p then Some (default 0 (uid e)) else None)
    (if p_gid p then Some (default 0 (gid e)) else None)
    (if p_uid p then sent_user w e x else None)
    (if p_gid p then sent_group w e x else None)
    (if atime_sent w e then Some (atime e) else None) 0
    (if p_crtimes p then Some (crtime e) else None)
    (if is_dir e && (30 <=? fw_protocol w) then content_dir e else true).

Definition sent_body (w : FileListWriter) (e : FileEntry) (x : Z) : EntryBody :=
  mkBody (fe_size e) (sent_meta w e x)
    (if p_links (fw_preserve w) && is_symlink e then link_target e else None)
    (if rdev_sent w e then Some (major_of e, minor_of e) else None)
    (sent_dev_ino w e)
    (if checksum_sent w e then checksum e else None).

Lemma seq_enc_head (E E' F : encoder) w : E w = E' w → (E >+> F) w = (E' >+> F) w.
Proof. intros H. unfold seq_enc. by rewrite H. Qed.

(** The states after the fields of an entry. *)
Definition meta_updates (w : FileListWriter) (e : FileEntry) (st : FileListCompressionState)
    : FileListCompressionState :=
  update_if (p_gid (fw_preserve w)) (update_gid (default 0 (gid e)))
    (update_if (p_uid (fw_preserve w)) (update_uid (default 0 (uid e)))
       (update_if (atime_sent w e) (update_atime (atime e)) st)).

Ltac flip_ifs :=
  unfold update_if;
  repeat match goal with
    | |- context [if ?c then _ else _] => lazymatch c with context [if _ then _ else _] => fail | _ => destruct c end
    end.

Lemma metadata_transmitted w r e x f :
  session w r → flags_agree x (is_dir e) f → xflags_spec w e x →
  prev_mode (fr_state r) = prev_mode (fw_state w) → prev_mtime (fr_state r) = prev_mtime (fw_state w) →
  prev_atime (fr_state r) = prev_atime (fw_state w) →
  (p_uid (fw_preserve w) = true → prev_uid (fr_state r) = prev_uid (fw_state w)) →
  (p_gid (fw_preserve w) = true → prev_gid (fr_state r) = prev_gid (fw_state w)) →
  sendable w e →
  transmits ((write_time_fields e x >+> write_mode e x >+> write_atime e x >+> write_uid_field e x >+>
              write_gid_field e x) w)
    (read_metadata f) r (updw w (meta_updates w e))
    (updr r (λ st, meta_updates w e (update_mode (fe_mode e) (update_mtime (fe_mtime e) st))))
    (sent_meta w e x).
Proof.
  intros Hs Hf Hx H1 H2 H3 H4 H5 [].
  erewrite seq_enc_head by (unfold write_time_fields; reflexivity). rewrite <-seq_enc_assoc.
  unfold read_metadata.
  eapply transmits_seq. { apply mtime_field; [done|done|by rewrite H2; apply Hx|done]. }
  set (r1 := updr r _). assert (Hs1 : session w r1) by (by apply session_updr).
  rewrite <-seq_enc_assoc. eapply transmits_seq. { apply (nsec_field w r1 e x f); [done|apply Hx|done]. }
  eapply transmits_seq. { apply (crtime_field w r1 e x f); [done|done|apply Hx|by destruct sd_times0]. }
  eapply transmits_seq. { apply (mode_field w r1 e x f); [done|done|change (prev_mode (fr_state r1)) with (prev_mode (fr_state r)); rewrite H1; apply Hx|apply sd_mode0..]. }
  set (r2 := updr r1 _). assert (Hs2 : session w r2) by (by apply session_updr).
  eapply transmits_seq. { apply (atime_field w r2 e x f); [done|done|apply Hx|done|by destruct sd_times0]. }
  set (r3 := updr r2 _). set (w3 := updw w _). assert (Hs3 : session w3 r3) by (by apply session_upd).
  cbn beta. eapply transmits_seq.
  { apply (uid_field w3 r3 e x f); [done|done| | | |done|done].
    - rewrite (xs_uid _ _ _ Hx). unfold same_owner, w3, updw. cbn. by flip_ifs.
    - intros E30. rewrite (xs_user _ _ _ Hx E30). intros E. by repeat (apply andb_true_iff in E as [E ?]).
    - unfold r3, w3, updw, updr. cbn. intros Hu. flip_ifs; by apply H4. }
  set (r4 := updr r3 _). set (w4 := updw w3 _). assert (Hs4 : session w4 r4) by (by apply session_upd).
  eapply transmits_then.
  { apply (gid_field w4 r4 e x f); [done|done| | | |done|done].
    - rewrite (xs_gid _ _ _ Hx). unfold same_owner, w4, w3, updw. cbn. by flip_ifs.
    - intros E30. rewrite (xs_group _ _ _ Hx E30). intros E. by repeat (apply andb_true_iff in E as [E ?]).
    - unfold r4, w4, r3, w3, updw, updr. cbn. intros Hg. flip_ifs; by apply H5. }
  intros s. unfold mbind, decoder_bind, self, mret, decoder_ret. f_equal.
  do 2 f_equal. change (fr_protocol (updr r4 _)) with (fr_protocol r). rewrite <-(se_protocol _ _ Hs).
  unfold sent_meta. f_equal. change (mode_is_dir (fe_mode e)) with (is_dir e).
  destruct (is_dir e) eqn:Ed; [|done]. unfold no_content_dir. rewrite (fa_extended _ _ _ Hf) by done.
  rewrite (xs_content _ _ _ Hx Ed). destruct (30 <=? fw_protocol w); cbn [andb]; [|done]. apply negb_involutive.
Qed.

Definition body_updates (w : FileListWriter) (e : FileEntry) (st : FileListCompressionState)
    : FileListCompressionState :=
  update_dev w e (update_if (rdev_sent w e) (update_rdev_major (major_of e)) (meta_updates w e st)).

Lemma body_transmitted w r e x f :
  session w r → flags_agree x (is_dir e) f → xflags_spec w e x →
  prev_mode (fr_state r) = prev_mode (fw_state w) → prev_mtime (fr_state r) = prev_mtime (fw_state w) →
  prev_atime (fr_state r) = prev_atime (fw_state w) →
  (p_uid (fw_preserve w) = true → prev_uid (fr_state r) = prev_uid (fw_state w)) →
  (p_gid (fw_preserve w) = true → prev_gid (fr_state r) = prev_gid (fw_state w)) →
  prev_rdev_major (fr_state r) = prev_rdev_major (fw_state w) →
  prev_hardlink_dev (fr_state r) = prev_hardlink_dev (fw_state w) →
  sendable w e →
  transmits (((write_metadata e x >+> write_rdev e x >+> write_symlink_target e >+> write_hardlink_dev_ino e x) >+>
              write_checksum e) w)
    (read_body f) r (updw w (body_updates w e))
    (updr r (λ st, body_updates w e (update_mode (fe_mode e) (update_mtime (fe_mtime e) st))))
    (sent_body w e x).
Proof.
  intros Hs Hf Hx H1 H2 H3 H4 H5 H6 H7 Hsend.
  rewrite <-seq_enc_assoc. unfold write_metadata. rewrite <-seq_enc_assoc. unfold read_body.
  eapply transmits_seq. { apply size_field; [done|apply Hsend]. }
  eapply transmits_seq. { by apply metadata_transmitted. }
  set (r1 := updr r _). set (w1 := updw w _). assert (Hs1 : session w1 r1) by (by apply session_upd).
  change (m_mode (sent_meta w e x)) with (fe_mode e). rewrite <-seq_enc_assoc.
  eapply transmits_seq.
  { apply (rdev_field w1 r1 e x f); [done|done|..].
    - intros En. rewrite (xs_major _ _ _ Hx).
      + unfold dev_same, w1, updw. cbn. unfold meta_updates. by flip_ifs.
      + destruct (is_dir e) eqn:Ed; [|done]. destruct (dir_not_device e Ed) as [Hd Hsp].
        unfold needs_rdev in En. rewrite Hd, Hsp in En. by rewrite !andb_false_r in En.
    - intros E30. by rewrite (xs_minor8 _ _ _ Hx E30).
    - unfold r1, w1, updr, updw. cbn. unfold meta_updates. by flip_ifs.
    - apply Hsend.
    - apply Hsend. }
  set (r2 := updr r1 _). set (w2 := updw w1 _). assert (Hs2 : session w2 r2) by (by apply session_upd).
  rewrite <-seq_enc_assoc.
  eapply transmits_seq. { apply (symlink_field w2 r2 e); [done|apply Hsend]. }
  eapply transmits_seq.
  { apply (dev_ino_field w2 r2 e x f); [done|done|..].
    - by rewrite (xs_hlinked _ _ _ Hx).
    - intros E30. rewrite (xs_same_dev _ _ _ Hx E30).
      unfold link_same_dev, w2, w1, updw. cbn. unfold meta_updates. by flip_ifs.
    - unfold r2, w2, r1, w1, updr, updw. cbn. unfold meta_updates. by flip_ifs.
    - apply Hsend.
    - apply (sd_ino _ _ Hsend). }
  set (r3 := updr r2 _). set (w3 := updw w2 _). assert (Hs3 : session w3 r3) by (by apply session_upd).
  eapply transmits_then; [|done]. apply (checksum_field w3 r3 e); [done|apply Hsend].
Qed.

(** *** The entry that is built *)

Lemma has_flag_land p k m : has_flag (Z.land p k) m = has_flag p (Z.land k m).
Proof. unfold has_flag. by rewrite Z.land_assoc. Qed.

(** The optional fields are those of [extras_mut]. *)
Lemma link_target_extras e : link_target e = ex_link_target (extras_mut e).
Proof. unfold link_target, extras_mut. by destruct (fe_extras e). Qed.
Lemma user_name_extras e : user_name e = ex_user_name (extras_mut e).
Proof. unfold user_name, extras_mut. by destruct (fe_extras e). Qed.
Lemma group_name_extras e : group_name e = ex_group_name (extras_mut e).
Proof. unfold group_name, extras_mut. by destruct (fe_extras e). Qed.
Lemma checksum_extras e : checksum e = ex_checksum (extras_mut e).
Proof. unfold checksum, extras_mut. by destruct (fe_extras e). Qed.
Lemma atime_extras e : atime e = ex_atime (extras_mut e).
Proof. unfold atime, extras_mut. by destruct (fe_extras e). Qed.
Lemma crtime_extras e : crtime e = ex_crtime (extras_mut e).
Proof. unfold crtime, extras_mut. by destruct (fe_extras e). Qed.

Definition if_present {A} (x : FileEntryExtras) (bit : Z) (a : A) : option A :=
  if has_flag (ex_present x) bit then Some a else None.

Lemma rdev_major_extras e :
  rdev_major e = if_present (extras_mut e) EXTRAS_PRESENT_RDEV (ex_rdev_major (extras_mut e)).
Proof. unfold rdev_major, extras_mut. by destruct (fe_extras e). Qed.
Lemma rdev_minor_extras e :
  rdev_minor e = if_present (extras_mut e) EXTRAS_PRESENT_RDEV (ex_rdev_minor (extras_mut e)).
Proof. unfold rdev_minor, extras_mut. by destruct (fe_extras e). Qed.
Lemma hardlink_idx_extras e :
  hardlink_idx e = if_present (extras_mut e) EXTRAS_PRESENT_HARDLINK_IDX (ex_hardlink_idx (extras_mut e)).
Proof. unfold hardlink_idx, extras_mut. by destruct (fe_extras e). Qed.
Lemma hardlink_dev_extras e :
  hardlink_dev e = if_present (extras_mut e) EXTRAS_PRESENT_HARDLINK_DEV (ex_hardlink_dev (extras_mut e)).
Proof. unfold hardlink_dev, extras_mut. by destruct (fe_extras e). Qed.
Lemma hardlink_ino_extras e :
  hardlink_ino e = if_present (extras_mut e) EXTRAS_PRESENT_HARDLINK_DEV (ex_hardlink_ino (extras_mut e)).
Proof. unfold hardlink_ino, extras_mut. by destruct (fe_extras e). Qed.

Section built.
Context (name : list byte) (f : FileFlags) (idx : option Z) (b : EntryBody).
Notation m := (eb_metadata b).
Notation built := (build_entry name f idx b).

Definition when_x {A} (o : option A) (upd : A → FileEntryExtras → FileEntryExtras) (x : FileEntryExtras)
    : FileEntryExtras := match o with Some a => upd a x | None => x end.

Lemma extras_when {A} (o : option A) set upd e x : (∀ a e, extras_mut (set a e) = upd a (extras_mut e)) →
  extras_mut e = x → extras_mut (when_some o set e) = when_x o upd x.
Proof. intros H <-. destruct o; [apply H|done]. Qed.

Lemma extras_keep {A B} (proj : FileEntryExtras → B) (o : option A) upd x :
  (∀ a x, proj (upd a x) = proj x) → proj (when_x o upd x) = proj x.
Proof. intros H. destruct o; [apply H|done]. Qed.

(** The extras of the entry as the assignments make them. *)
Definition built_extras : FileEntryExtras :=
  when_x (eb_checksum b) (λ s x, ex_texts (ex_link_target x) (ex_user_name x) (ex_group_name x) (Some s) x)
  (when_x (eb_hardlink_dev_ino b)
    (λ d x, ex_devices d.1 d.2 (ex_rdev_major x) (ex_rdev_minor x)
              (Z.lor (Z.lor (ex_present x) EXTRAS_PRESENT_HARDLINK_DEV) EXTRAS_PRESENT_HARDLINK_DEV) x)
  (when_x (m_crtime m) (λ s x, ex_times (ex_atime x) s (ex_atime_nsec x) x)
  (when_x (m_atime m) (λ s x, ex_times s (ex_crtime x) (m_atime_nsec m) x)
  (when_x (m_group_name m) (λ s x, ex_texts (ex_link_target x) (ex_user_name x) (Some s) (ex_checksum x) x)
  (when_x (m_user_name m) (λ s x, ex_texts (ex_link_target x) (Some s) (ex_group_name x) (ex_checksum x) x)
  (when_x idx
    (λ i x, mkExtras (ex_link_target x) (ex_user_name x) (ex_group_name x) (ex_atime x) (ex_crtime x)
       (ex_hardlink_dev x) (ex_hardlink_ino x) (ex_checksum x) (ex_xattr_list x)
       (ex_atime_nsec x) (ex_rdev_major x) (ex_rdev_minor x) i (ex_acl_ndx x)
       (ex_def_acl_ndx x) (ex_xattr_ndx x) (Z.lor (ex_present x) EXTRAS_PRESENT_HARDLINK_IDX))
  (when_x (eb_rdev b)
    (λ d x, ex_devices (ex_hardlink_dev x) (ex_hardlink_ino x) d.1 d.2
              (Z.lor (ex_present x) EXTRAS_PRESENT_RDEV) x)
  (when_x (eb_link_target b) (λ s x, ex_texts (Some s) (ex_user_name x) (ex_group_name x) (ex_checksum x) x)
     extras_default)))))))).

Lemma extras_built : extras_mut built = built_extras.
Proof.
  assert (Hc : ∀ e, extras_mut (if is_dir e then set_content_dir (m_content_dir m) e else e) = extras_mut e).
  { intros e. by destruct (is_dir e). }
  assert (Hg : ∀ e, extras_mut (when_some (m_gid m) set_gid e) = extras_mut e) by (intros; by destruct (m_gid m)).
  assert (Hu : ∀ e, extras_mut (when_some (m_uid m) set_uid e) = extras_mut e) by (intros; by destruct (m_uid m)).
  unfold build_entry, built_extras. do 2 (apply extras_when; [done|]). rewrite Hc.
  do 4 (apply extras_when; [done|]). rewrite Hg, Hu. do 3 (apply extras_when; [done|]). done.
Qed.

Ltac built_field proj o :=
  rewrite extras_built; unfold built_extras; repeat (rewrite (extras_keep proj) by done);
  destruct o; [done|cbn [when_x]; repeat (rewrite (extras_keep proj) by done); done].

Lemma built_target : link_target built = eb_link_target b.
Proof. rewrite link_target_extras. built_field ex_link_target (eb_link_target b). Qed.
Lemma built_user : user_name built = m_user_name m.
Proof. rewrite user_name_extras. built_field ex_user_name (m_user_name m). Qed.
Lemma built_group : group_name built = m_group_name m.
Proof. rewrite group_name_extras. built_field ex_group_name (m_group_name m). Qed.
Lemma built_checksum : checksum built = eb_checksum b.
Proof. rewrite checksum_extras. built_field ex_checksum (eb_checksum b). Qed.
Lemma built_atime : atime built = default 0 (m_atime m).
Proof. rewrite atime_extras. built_field ex_atime (m_atime m). Qed.
Lemma built_crtime : crtime built = default 0 (m_crtime m).
Proof. rewrite crtime_extras. built_field ex_crtime (m_crtime m). Qed.

Lemma built_present : ex_present (extras_mut built) =
  on (is_some (eb_hardlink_dev_ino b)) (Z.lor EXTRAS_PRESENT_HARDLINK_DEV EXTRAS_PRESENT_HARDLINK_DEV)
    (on (is_some idx) EXTRAS_PRESENT_HARDLINK_IDX (on (is_some (eb_rdev b)) EXTRAS_PRESENT_RDEV 0)).
Proof.
  assert (Hw : ∀ {A} (o : option A) upd k x, (∀ a x, ex_present (upd a x) = Z.lor (ex_present x) k) →
    ex_present (when_x o upd x) = on (is_some o) k (ex_present x)) by (intros A [] upd k x H; [apply H|done]).
  rewrite extras_built. unfold built_extras. rewrite (extras_keep ex_present (eb_checksum b)) by done.
  rewrite (Hw _ (eb_hardlink_dev_ino b) _ (Z.lor EXTRAS_PRESENT_HARDLINK_DEV EXTRAS_PRESENT_HARDLINK_DEV))
    by (intros; cbn; by rewrite Z.lor_assoc). f_equal.
  rewrite 4!(extras_keep ex_present) by done.
  rewrite (Hw _ idx _ EXTRAS_PRESENT_HARDLINK_IDX) by done. f_equal.
  rewrite (Hw _ (eb_rdev b) _ EXTRAS_PRESENT_RDEV) by done. f_equal.
  by rewrite (extras_keep ex_present) by done.
Qed.

Ltac present_field proj o :=
  unfold if_present; rewrite built_present; on_bits;
  rewrite extras_built; unfold built_extras; repeat (rewrite (extras_keep proj) by done);
  destruct o; done.

Lemma built_rdev_major : rdev_major built = fst <$> eb_rdev b.
Proof. rewrite rdev_major_extras. present_field ex_rdev_major (eb_rdev b). Qed.
Lemma built_rdev_minor : rdev_minor built = snd <$> eb_rdev b.
Proof. rewrite rdev_minor_extras. present_field ex_rdev_minor (eb_rdev b). Qed.
Lemma built_idx : hardlink_idx built = idx.
Proof. rewrite hardlink_idx_extras. present_field ex_hardlink_idx idx. Qed.
Lemma built_dev : hardlink_dev built = fst <$> eb_hardlink_dev_ino b.
Proof. rewrite hardlink_dev_extras. present_field ex_hardlink_dev (eb_hardlink_dev_ino b). Qed.
Lemma built_ino : hardlink_ino built = snd <$> eb_hardlink_dev_ino b.
Proof. rewrite hardlink_ino_extras. present_field ex_hardlink_ino (eb_hardlink_dev_ino b). Qed.

(** The other fields. *)
Lemma when_some_keep {A B} (P : FileEntry → B) (o : option A) g e :
  (∀ a e, P (g a e) = P e) → P (when_some o g e) = P e.
Proof. intros H. destruct o; [apply H|done]. Qed.

Lemma content_keep {B} (P : FileEntry → B) c e :
  (∀ e, P (set_content_dir c e) = P e) → P (if is_dir e then set_content_dir c e else e) = P e.
Proof. intros H. destruct (is_dir e); [apply H|done]. Qed.

Ltac peel P := repeat first [rewrite (when_some_keep P) by done | rewrite (content_keep P) by done].

Lemma built_name : fe_name built = name.
Proof. unfold build_entry. peel fe_name. done. Qed.
Lemma built_dirname : fe_dirname built = extract_dirname name.
Proof. unfold build_entry. peel fe_dirname. done. Qed.
Lemma built_size : fe_size built = eb_size b.
Proof. unfold build_entry. peel fe_size. done. Qed.
Lemma built_mtime : fe_mtime built = m_mtime m.
Proof. unfold build_entry. peel fe_mtime. done. Qed.
Lemma built_nsec : fe_mtime_nsec built = m_nsec m.
Proof. unfold build_entry. peel fe_mtime_nsec. done. Qed.
Lemma built_mode : fe_mode built = wrap 16 (m_mode m).
Proof. unfold build_entry. peel fe_mode. done. Qed.
Lemma built_fe_uid : fe_uid built = default 0 (m_uid m).
Proof. unfold build_entry. peel fe_uid. destruct (m_uid m); [done|]. cbn [when_some]. peel fe_uid. done. Qed.
Lemma built_fe_gid : fe_gid built = default 0 (m_gid m).
Proof. unfold build_entry. peel fe_gid. destruct (m_gid m); [done|]. cbn [when_some]. peel fe_gid. done. Qed.

(** The flags of the fresh entry. *)
Definition raw_present : Z :=
  put_flag (put_flag (put_flag PRESENT_CONTENT_DIR PRESENT_TOP_DIR (ff_top_dir f)) PRESENT_HLINKED (ff_hlinked f))
    PRESENT_HLINK_FIRST (ff_hlink_first f).

Lemma built_flags : fe_present built =
  let p := on (is_some (m_gid m)) PRESENT_GID (on (is_some (m_uid m)) PRESENT_UID raw_present) in
  if Z.land (wrap 16 (m_mode m)) S_IFMT =? 0x4000 then put_flag p PRESENT_CONTENT_DIR (m_content_dir m) else p.
Proof.
  assert (Hw : ∀ {A} (o : option A) set k e, (∀ a e, fe_present (set a e) = Z.lor (fe_present e) k) →
    fe_present (when_some o set e) = on (is_some o) k (fe_present e)) by (intros A [] set k e H; [apply H|done]).
  unfold build_entry. rewrite 2!(when_some_keep fe_present) by done.
  match goal with |- fe_present (if is_dir ?e0 then _ else _) = _ => set (e1 := e0) end.
  assert (Hm : fe_mode e1 = wrap 16 (m_mode m)) by (subst e1; peel fe_mode; done).
  assert (Hp : fe_present e1 = on (is_some (m_gid m)) PRESENT_GID (on (is_some (m_uid m)) PRESENT_UID raw_present)).
  { subst e1. rewrite 4!(when_some_keep fe_present) by done.
    rewrite (Hw _ (m_gid m) _ PRESENT_GID), (Hw _ (m_uid m) _ PRESENT_UID) by done. do 2 f_equal.
    repeat (rewrite (when_some_keep fe_present) by done). done. }
  cbv zeta. unfold is_dir. rewrite Hm. clearbody e1. destruct (_ =? _); [|done]. cbn. by rewrite Hp.
Qed.
End built.

Section built_bits.
Context (name : list byte) (f : FileFlags) (idx : option Z) (b : EntryBody).
Notation m := (eb_metadata b).
Notation built := (build_entry name f idx b).

Ltac present_bit :=
  rewrite built_flags; unfold raw_present; cbv zeta;
  destruct (_ =? _), (m_content_dir m), (is_some (m_gid m)), (is_some (m_uid m)), (ff_top_dir f), (ff_hlinked f),
    (ff_hlink_first f); vm_compute; reflexivity.

Lemma built_top : top_dir built = ff_top_dir f.
Proof. unfold top_dir. present_bit. Qed.
Lemma built_hlinked : hlinked built = ff_hlinked f.
Proof. unfold hlinked. present_bit. Qed.
Lemma built_first : hlink_first built = ff_hlink_first f.
Proof. unfold hlink_first. present_bit. Qed.
Lemma built_has_uid : has_flag (fe_present built) PRESENT_UID = is_some (m_uid m).
Proof. present_bit. Qed.
Lemma built_has_gid : has_flag (fe_present built) PRESENT_GID = is_some (m_gid m).
Proof. present_bit. Qed.
Lemma built_content : content_dir built =
  if Z.land (wrap 16 (m_mode m)) S_IFMT =? 0x4000 then m_content_dir m else true.
Proof. unfold content_dir. present_bit. Qed.
Lemma built_uid : uid built = m_uid m.
Proof. unfold uid. rewrite built_has_uid, built_fe_uid. by destruct (m_uid m). Qed.
Lemma built_gid : gid built = m_gid m.
Proof. unfold gid. rewrite built_has_gid, built_fe_gid. by destruct (m_gid m). Qed.
End built_bits.

(** ** One entry *)

(** The id is the one of the entry before. *)
Definition same_id (prev : option FileEntry) (id : FileEntry → option Z) (e : FileEntry) : bool :=
  match prev with Some p => default 0 (id p) =? default 0 (id e) | None => false end.

(** [e'] is what the receiver has of [e], sent after [prev]: the fields that the options put on
    the wire are those of [e], the others are absent or zero.  The name of an owner travels
    with the first of several entries in a row that have the owner. *)
Record received_as (w : FileListWriter) (prev : option FileEntry) (e e' : FileEntry) : Prop := {
  ra_name : name_bytes e' = name_bytes e;
  ra_dirname : fe_dirname e' = extract_dirname (name_bytes e);
  ra_size : fe_size e' = fe_size e;
  ra_mode : fe_mode e' = fe_mode e;
  ra_mtime : fe_mtime e' = fe_mtime e;
  ra_nsec : fe_mtime_nsec e' = if 31 <=? fw_protocol w then fe_mtime_nsec e else 0;
  ra_uid : uid e' = if p_uid (fw_preserve w) then Some (default 0 (uid e)) else None;
  ra_gid : gid e' = if p_gid (fw_preserve w) then Some (default 0 (gid e)) else None;
  ra_user : user_name e' =
    if p_uid (fw_preserve w) && fw_name_follows w && (30 <=? fw_protocol w) && negb (same_id prev uid e)
    then user_name e else None;
  ra_group : group_name e' =
    if p_gid (fw_preserve w) && fw_name_follows w && (30 <=? fw_protocol w) && negb (same_id prev gid e)
    then group_name e else None;
  ra_atime : atime e' = if p_atimes (fw_preserve w) && negb (is_dir e) then atime e else 0;
  ra_crtime : crtime e' = if p_crtimes (fw_preserve w) then crtime e else 0;
  ra_target : link_target e' = if p_links (fw_preserve w) && is_symlink e then link_target e else None;
  ra_rdev : (rdev_major e', rdev_minor e') =
    if p_devices (fw_preserve w) && is_device e
    then (Some (default 0 (rdev_major e)), Some (default 0 (rdev_minor e))) else (None, None);
  ra_idx : hardlink_idx e' =
    if p_hard_links (fw_preserve w) && (30 <=? fw_protocol w) && negb (is_dir e) then hardlink_idx e else None;
  ra_first : hlink_first e' = bool_decide (hardlink_idx e' = Some u32_max);
  ra_dev_ino : (hardlink_dev e', hardlink_ino e') =
    match (if p_hard_links (fw_preserve w) && (fw_protocol w <? 30) && negb (is_dir e)
           then hardlink_dev e else None) with
    | Some dev => (Some dev, Some (default 0 (hardlink_ino e)))
    | None => (None, None)
    end;
  ra_checksum : checksum e' =
    if fw_always_checksum w && negb (fw_flist_csum_len w =? 0)%nat && is_file e then checksum e else None;
  ra_dir : is_dir e = true →
    top_dir e' = top_dir e ∧ content_dir e' = if 30 <=? fw_protocol w then content_dir e else true;
}.

(** What the writer's state has of the entry before. *)
Definition state_after (st : FileListCompressionState) (prev : option FileEntry) : Prop :=
  match prev with
  | None => prev_name st = []
  | Some p => prev_name st ≠ [] ∧ prev_uid st = default 0 (uid p) ∧ prev_gid st = default 0 (gid p)
  end.

Lemma same_owner_id w prev preserved e :
  state_after (fw_state w) prev → preserved = true →
  same_owner w preserved (default 0 (uid e)) (prev_uid (fw_state w)) = same_id prev uid e ∧
  same_owner w preserved (default 0 (gid e)) (prev_gid (fw_state w)) = same_id prev gid e.
Proof.
  intros Hst ->. unfold same_owner, same_id. cbn [negb orb]. destruct prev as [p|]; cbn in Hst.
  - destruct Hst as (Hn & -> & ->). rewrite bool_decide_false by done. cbn [negb]. rewrite !andb_true_r.
    split; apply Z.eqb_sym.
  - rewrite bool_decide_true by done. by rewrite !andb_false_r.
Qed.

Lemma names_sent w prev e x (H30 : 30 <=? fw_protocol w = true) : xflags_spec w e x →
  state_after (fw_state w) prev →
  (p_uid (fw_preserve w) = true → sent_user w e x =
     if fw_name_follows w && negb (same_id prev uid e) then user_name e else None) ∧
  (p_gid (fw_preserve w) = true → sent_group w e x =
     if fw_name_follows w && negb (same_id prev gid e) then group_name e else None).
Proof.
  intros Hx Hst. unfold sent_user, sent_group. split; intros Hp; rewrite H30.
  - rewrite (xs_user _ _ _ Hx H30), (xs_uid _ _ _ Hx), Hp.
    destruct (same_owner_id w prev true e Hst eq_refl) as [-> _].
    destruct (fw_name_follows w), (same_id prev uid e), (user_name e); done.
  - rewrite (xs_group _ _ _ Hx H30), (xs_gid _ _ _ Hx), Hp.
    destruct (same_owner_id w prev true e Hst eq_refl) as [_ ->].
    destruct (fw_name_follows w), (same_id prev gid e), (group_name e); done.
Qed.

Lemma sent_names_none w e x : 30 <=? fw_protocol w = false → sent_user w e x = None ∧ sent_group w e x = None.
Proof. intros E. unfold sent_user, sent_group. rewrite E, !andb_false_r. done. Qed.

Lemma built_received w prev e x f :
  28 ≤ fw_protocol w → sendable w e → flags_agree x (is_dir e) f → xflags_spec w e x →
  state_after (fw_state w) prev →
  received_as w prev e (build_entry (name_bytes e) f (sent_idx w e) (sent_body w e x)).
Proof.
  intros Hp Hsend Hf Hx Hst.
  assert (Hm : wrap 16 (fe_mode e) = fe_mode e) by (apply wrap_small, Hsend).
  split.
  - apply built_name.
  - apply built_dirname.
  - by rewrite built_size.
  - by rewrite built_mode.
  - by rewrite built_mtime.
  - by rewrite built_nsec.
  - by rewrite built_uid.
  - by rewrite built_gid.
  - rewrite built_user. cbn. destruct (p_uid (fw_preserve w)) eqn:Ep; [|done].
    destruct (30 <=? fw_protocol w) eqn:E30; [|rewrite andb_false_r; by apply sent_names_none].
    destruct (names_sent w prev e x E30 Hx Hst) as [-> _]; [|done]. by rewrite andb_true_r.
  - rewrite built_group. cbn. destruct (p_gid (fw_preserve w)) eqn:Ep; [|done].
    destruct (30 <=? fw_protocol w) eqn:E30; [|rewrite andb_false_r; by apply sent_names_none].
    destruct (names_sent w prev e x E30 Hx Hst) as [_ ->]; [|done]. by rewrite andb_true_r.
  - rewrite built_atime. cbn. unfold atime_sent. by destruct (_ && _).
  - rewrite built_crtime. cbn. by destruct (p_crtimes _).
  - by rewrite built_target.
  - rewrite built_rdev_major, built_rdev_minor. cbn. unfold rdev_sent. by destruct (_ && _).
  - by rewrite built_idx.
  - rewrite built_first, built_idx. unfold ff_hlink_first. rewrite (fa_extended _ _ _ Hf) by done.
    change (byte1 16) with (byte1 XMIT_HLINK_FIRST). rewrite (xs_first _ _ _ Hx).
    unfold link_first, link_here, sent_idx.
    destruct (p_hard_links _), (30 <=? _), (is_dir e), (hardlink_idx e); cbn; try done; by rewrite ?andb_false_r.
  - rewrite built_dev, built_ino. cbn. unfold sent_dev_ino, dev_ino_sent.
    destruct (_ && _ && _); [|done]. by destruct (hardlink_dev e).
  - by rewrite built_checksum.
  - intros Hd. rewrite built_top, built_content. cbn [sent_body eb_metadata sent_meta m_mode m_content_dir].
    rewrite Hm. change (Z.land (fe_mode e) S_IFMT =? 16384) with (is_dir e). rewrite Hd.
    rewrite (fa_top_dir _ _ _ Hf Hd), (xs_top _ _ _ Hx), Hd. cbn [andb]. done.
Qed.

Lemma transmits_tail {A} (E T : encoder) (D : decoder A) w r w1 w2 r1 a :
  transmits (E w) D r w1 r1 a → T w1 = Some ([], w2) → transmits ((E >+> T) w) D r w2 r1 a.
Proof.
  intros (o & Ho & R) HT. exists o. split; [|done]. unfold seq_enc. by rewrite Ho, HT, app_nil_r.
Qed.

(** A sendable entry is not abbreviated, for either end. *)
Lemma not_abbreviated w r e x f : session w r → flags_agree x (is_dir e) f → xflags_spec w e x → sendable w e →
  w_is_abbreviated_follower w e x = false ∧
  ∀ r', fr_ndx_start r' = fr_ndx_start r → r_is_abbreviated_follower r' f (sent_idx w e) = false.
Proof.
  intros Hs Hf Hx Hsend. unfold w_is_abbreviated_follower, r_is_abbreviated_follower, is_hardlink_follower.
  unfold ff_hlinked, ff_hlink_first. rewrite !(fa_extended _ _ _ Hf) by done.
  change (byte1 2) with (byte1 XMIT_HLINKED). change (byte1 16) with (byte1 XMIT_HLINK_FIRST).
  rewrite (xs_hlinked _ _ _ Hx), (xs_first _ _ _ Hx), Z.ltb_antisym. pose proof (sd_follower _ _ Hsend) as Hfol.
  destruct (sent_idx w e) as [idx|] eqn:Eidx.
  2:{ split; [|intros; by destruct (_ || _)]. unfold sent_idx in Eidx. unfold link_here.
      destruct (p_hard_links _), (30 <=? _), (is_dir e), (hardlink_idx e); done. }
  unfold sent_idx in Eidx. unfold link_first, link_here.
  destruct (p_hard_links (fw_preserve w)), (30 <=? fw_protocol w), (is_dir e); try done.
  cbn [negb andb] in *. rewrite Eidx. cbn [is_some andb negb orb].
  rewrite (bool_decide_ext (Some idx = Some u32_max) (idx = u32_max)) by (split; congruence).
  destruct (bool_decide_reflect (idx = u32_max)) as [->|Hne]; cbn [negb]; [done|].
  specialize (Hfol idx eq_refl Hne). split; [|intros r' ->; rewrite <-(se_ndx _ _ Hs)]; by apply Z.leb_gt.
Qed.

Lemma body_choice r f idx seg : r_is_abbreviated_follower r f idx = false →
  match idx with
  | Some i => if r_is_abbreviated_follower r f idx then copy_leader i seg else read_body f
  | None => read_body f
  end = read_body f.
Proof. intros E. destruct idx; [by rewrite E|done]. Qed.

(** The two ends after an entry. *)
Definition wrote (w : FileListWriter) (e : FileEntry) : FileListWriter :=
  let w1 := updw w (λ st, update (name_bytes e) (fe_mode e) (fe_mtime e) (default 0 (uid e)) (default 0 (gid e))
                            (body_updates w e st)) in
  fw_with_stats (update_stats e (fw_stats w)) w1.
Definition has_read (w : FileListWriter) (r : FileListReader) (e e' : FileEntry) : FileListReader :=
  let r1 := updr r (λ st, body_updates w e (update_mode (fe_mode e) (update_mtime (fe_mtime e)
                            (update_name (name_bytes e) st)))) in
  fr_with_stats (update_stats e' (fr_stats r)) r1.

Lemma entry_transmitted w r e prev :
  session w r → synced (fw_preserve w) (fw_state w) (fr_state r) → state_after (fw_state w) prev → sendable w e →
  ∃ e', received_as w prev e e' ∧
    ∀ seg, transmits (write_entry e w) (read_entry_with_flist seg) r (wrote w e) (has_read w r e e') (Some e').
Proof.
  intros Hs Hy Hst Hsend. pose proof (se_range _ _ Hs) as Hr.
  assert (Hp : 28 ≤ fw_protocol w) by (rewrite (se_protocol _ _ Hs); lia).
  set (name := name_bytes e). set (sl := calculate_name_prefix_len (fw_state w) name).
  set (su := (length name - sl)%nat). set (x := calculate_xflags w e sl su).
  assert (Hx : xflags_spec w e x) by (by apply calculate_xflags_spec).
  destruct (flags_transmitted w r x (is_dir e) Hs) as (f & Hf & Hflags).
  { rewrite <-(se_varint _ _ Hs). by apply xflags_ok. }
  destruct (not_abbreviated w r e x f Hs Hf Hx Hsend) as [Ha1 Ha2].
  set (e' := build_entry name f (sent_idx w e) (sent_body w e x)).
  exists e'. split; [by apply built_received|]. intros seg.
  unfold write_entry. fold name sl su x. rewrite Ha1. cbn [negb].
  unfold read_entry_with_flist. eapply transmits_seq; [exact Hflags|].
  unfold read_named_entry. eapply transmits_seq.
  { apply (name_field w r x (is_dir e) f); [done|done|apply Hy|apply Hsend|..].
    - unfold x. rewrite xflags_low by done. apply basic_name.
    - unfold x. rewrite xflags_low by done. apply basic_long. }
  destruct (sd_name _ _ Hsend) as [(Hne & _ & _ & Hclean) _]. fold name in Hne, Hclean.
  rewrite (bool_decide_false (name = [])) by done.
  set (r1 := updr r _). assert (Hs1 : session w r1) by (by apply session_updr).
  eapply transmits_seq. { apply (idx_field w r1 e x f); [done|done|apply Hx|apply Hx|apply Hsend]. }
  eapply transmits_self; [done|]. rewrite body_choice by (by apply Ha2).
  rewrite seq_enc_assoc. eapply transmits_then.
  - eapply transmits_tail.
    + apply body_transmitted; try done; apply Hy.
    + done.
  - intros s. cbn beta. rewrite Hclean. done.
Qed.

(** ** A segment *)

Lemma session_after w r e e' : session w r → session (wrote w e) (has_read w r e e').
Proof. intros []. by split. Qed.

Lemma synced_after w r e e' : synced (fw_preserve w) (fw_state w) (fr_state r) →
  synced (fw_preserve (wrote w e)) (fw_state (wrote w e)) (fr_state (has_read w r e e')).
Proof.
  intros []. unfold wrote, has_read, updw, updr, body_updates, meta_updates, update_dev, update_if.
  split; cbn; destruct (sent_dev_ino w e) as [[??]|]; cbn; repeat case_match; cbn; auto; done.
Qed.

Lemma state_after_wrote w e : name_bytes e ≠ [] → state_after (fw_state (wrote w e)) (Some e).
Proof.
  intros Hn. split; [|done]. cbn. unfold MAXPATHLEN. destruct (name_bytes e); [done|].
  by rewrite Nat.min_comm.
Qed.

(** The entries that are received for those that are sent. *)
Fixpoint received_list (w : FileListWriter) (prev : option FileEntry) (sent got : list FileEntry) : Prop :=
  match sent, got with
  | [], [] => True
  | e :: sent', e' :: got' => received_as w prev e e' ∧ received_list w (Some e) sent' got'
  | _, _ => False
  end.

Lemma sendable_wrote w e0 e : sendable w e → sendable (wrote w e0) e.
Proof. intros []. by split. Qed.

Lemma received_wrote w e0 prev e e' : received_as (wrote w e0) prev e e' → received_as w prev e e'.
Proof. intros []. by split. Qed.

Lemma received_list_wrote w e0 prev l l' : received_list (wrote w e0) prev l l' → received_list w prev l l'.
Proof.
  revert prev l'. induction l as [|e l IH]; intros prev [|e' l']; cbn; try done.
  intros [H1 H2]. split; [by eapply received_wrote|by apply IH].
Qed.

Lemma read_entry_nothing seg r : ∃ r', read_entry_with_flist seg r [] = (r', Err UnexpectedEof).
Proof.
  exists r. unfold read_entry_with_flist, read_flags, mbind, decoder_bind, self, wire.
  by destruct (use_varint_flags r).
Qed.

(** The code that the receiver is told. *)
Definition told (r : FileListReader) (io_error : option Z) : Z :=
  if use_varint_flags r || use_safe_file_list r then default 0 io_error else 0.

(** Two writers that differ in their states and indices only. *)
Definition same_options (w w' : FileListWriter) : Prop :=
  (fw_protocol w', fw_preserve w', fw_always_checksum w', fw_flist_csum_len w', fw_name_follows w') =
  (fw_protocol w, fw_preserve w, fw_always_checksum w, fw_flist_csum_len w, fw_name_follows w).

Lemma received_options w w' prev e e' : same_options w w' → received_as w' prev e e' → received_as w prev e e'.
Proof. intros [= E1 E2 E3 E4 E5] []. split; rewrite <-?E1, <-?E2, <-?E3, <-?E4, <-?E5; done. Qed.

(** A writer that may send [e] may do so in another state. *)
Lemma sendable_options w w' e : same_options w w' → fw_first_ndx w' = fw_first_ndx w → sendable w e → sendable w' e.
Proof.
  intros [= E1 E2 E3 E4 E5] Ef []. split; unfold sent_idx, checksum_sent in *; rewrite ?E1, ?E2, ?E3, ?E4, ?E5, ?Ef; done.
Qed.

Lemma entries_transmitted w r prev l :
  session w r → synced (fw_preserve w) (fw_state w) (fr_state r) → state_after (fw_state w) prev →
  Forall (sendable w) l →
  ∃ out w' r' l', write_entries l w = Some (out, w') ∧ (length l ≤ length out)%nat ∧
    received_list w prev l l' ∧
    (∀ fuel acc rest, read_segment (length l + fuel) acc r (out ++ rest) = read_segment fuel (acc ++ l') r' rest) ∧
    (session w' r' ∧ synced (fw_preserve w') (fw_state w') (fr_state r') ∧ same_options w w' ∧
     ∃ prev', state_after (fw_state w') prev') ∧
    fr_io_error r' = fr_io_error r ∧ told r' = told r.
Proof.
  revert w r prev. induction l as [|e l IH]; intros w r prev Hs Hy Hst Hl.
  { exists [], w, r, []. split_and!; try done; [|by exists prev]. intros. by rewrite app_nil_r. }
  inversion_clear Hl as [|?? He Hl'].
  destruct (entry_transmitted w r e prev Hs Hy Hst He) as (e' & Hrec & Htr).
  destruct (IH (wrote w e) (has_read w r e e') (Some e)) as (out & w' & r' & l' & Hw & Hlen & Hrl & Hrd & (Hs' & Hy' & Ho' & Hst') & Hio & Hp).
  - by apply session_after.
  - by apply synced_after.
  - apply state_after_wrote. by destruct (sd_name _ _ He) as [(? & _) _].
  - eapply Forall_impl; [done|]. intros. by apply sendable_wrote.
  - destruct (Htr []) as (out1 & Hw1 & _).
    assert (Hr1 : ∀ seg rest, read_entry_with_flist seg r (out1 ++ rest) = (has_read w r e e', Ok (Some e', rest))).
    { intros seg rest. destruct (Htr seg) as (o & Ho & R). rewrite Hw1 in Ho. injection Ho as <-. apply R. }
    assert (Hne : out1 ≠ []).
    { intros ->. specialize (Hr1 [] []). cbn [app] in Hr1. destruct (read_entry_nothing [] r) as [r0 E]. by rewrite E in Hr1. }
    exists (out1 ++ out), w', r', (e' :: l'). split.
    { cbn [write_entries]. unfold seq_enc. by rewrite Hw1, Hw. }
    split. { rewrite length_app. cbn [length]. destruct out1; [done|cbn [length]; lia]. }
    split. { cbn. split; [done|]. by eapply received_list_wrote. }
    split; [|by split_and!]. intros fuel acc rest. cbn [length Nat.add read_segment].
    unfold mbind, decoder_bind. rewrite <-app_assoc, Hr1, Hrd. by rewrite <-app_assoc.
Qed.

Lemma end_transmitted w r io_error : session w r → (∀ c, io_error = Some c → in_i 32 c) → ∀ acc fuel rest,
  read_segment (S fuel) acc r (write_end io_error w ++ rest) =
    (fr_with_io_error (Z.lor (fr_io_error r) (told r io_error)) r, Ok (acc, rest)).
Proof.
  intros Hs Hc acc fuel rest. pose proof (se_range _ _ Hs) as Hr.
  assert (H0 : fr_with_io_error (Z.lor (fr_io_error r) 0) r = r) by (rewrite Z.lor_0_r; by destruct r).
  assert (Hd : in_i 32 (default 0 io_error)) by (destruct io_error; [by apply Hc|done]).
  cbn [read_segment]. unfold mbind at 1, decoder_bind at 1.
  unfold read_entry_with_flist, read_flags, told, write_end. rewrite (se_varint _ _ Hs), (se_safe _ _ Hs).
  unfold mbind, decoder_bind, self, wire. destruct (use_varint_flags r) eqn:Ev; cbn [orb].
  - rewrite <-app_assoc. rewrite (proj1 (read_varint_write 0 _ ltac:(done))). cbn [Z.eqb].
    rewrite (proj1 (read_varint_write (default 0 io_error) rest Hd)). unfold mret, decoder_ret.
    destruct (Z.eqb_spec (default 0 io_error) 0) as [->|]; cbn [negb]; [by rewrite H0|done].
  - destruct io_error as [c|]; cbn [default].
    2:{ destruct (use_safe_file_list r); cbn; by rewrite H0. }
    destruct (use_safe_file_list r) eqn:Es; [|cbn; by rewrite H0].
    change (([zb XMIT_EXTENDED_FLAGS; zb XMIT_IO_ERROR_ENDLIST] ++ write_varint c) ++ rest)
      with (zb XMIT_EXTENDED_FLAGS :: zb XMIT_IO_ERROR_ENDLIST :: (write_varint c ++ rest)).
    rewrite read_byte_cons. change (uz (zb XMIT_EXTENDED_FLAGS)) with 4. cbn [Z.eqb].
    unfold read_extended_bytes, mbind, decoder_bind, self, wire.
    rewrite (proj2 (Z.leb_le 28 _)) by lia. change (has_flag (wrap 8 4) XMIT_EXTENDED_FLAGS) with true. cbn [andb].
    rewrite read_byte_cons. change (uz (zb XMIT_IO_ERROR_ENDLIST)) with 16. unfold mret, decoder_ret.
    unfold check_error_marker, mbind, decoder_bind, self, wire.
    change (negb (Z.lor (wrap 8 4) (Z.shiftl 16 8) =? _)) with false. rewrite Es. cbn [negb].
    rewrite (proj1 (read_varint_write c rest Hd)). done.
Qed.

Lemma segment_transmitted (w : FileListWriter) (r : FileListReader) (prev : option FileEntry)
    (l : list FileEntry) (io_error : option Z) :
  session w r → synced (fw_preserve w) (fw_state w) (fr_state r) → state_after (fw_state w) prev →
  Forall (sendable w) l → (∀ c, io_error = Some c → in_i 32 c) →
  ∃ out w' r' l', send_segment l io_error w = Some (out, w') ∧ received_list w prev l l' ∧
    (∀ rest, read_segment (length (out ++ rest)) [] r (out ++ rest) = (r', Ok (l', rest))) ∧
    (session w' r' ∧ synced (fw_preserve w') (fw_state w') (fr_state r') ∧ same_options w w' ∧
     ∃ prev', state_after (fw_state w') prev') ∧
    fr_io_error r' = Z.lor (fr_io_error r) (told r io_error).
Proof.
  intros Hs Hy Hst Hl Hc.
  destruct (entries_transmitted w r prev l Hs Hy Hst Hl) as (out & w' & r' & l' & Hw & Hlen & Hrl & Hrd & (Hs' & Hy' & Ho' & Hst') & Hio & Hp).
  exists (out ++ write_end io_error w'), w', (fr_with_io_error (Z.lor (fr_io_error r') (told r' io_error)) r'), l'.
  assert (Hend : write_end io_error w' ≠ []).
  { intros E. pose proof (end_transmitted w' r' io_error Hs' Hc [] 0 []) as H. rewrite E in H. cbn [app] in H.
    cbn [read_segment] in H. unfold mbind at 1, decoder_bind at 1 in H.
    destruct (read_entry_nothing [] r') as [r0 E']. by rewrite E' in H. }
  split. { unfold send_segment, seq_enc. by rewrite Hw. }
  split; [done|]. split.
  - intros rest. set (k := (length ((out ++ write_end io_error w') ++ rest) - length l - 1)%nat).
    assert (length ((out ++ write_end io_error w') ++ rest) = length l + S k)%nat as ->.
    { subst k. rewrite !length_app. destruct (write_end io_error w'); [done|]. cbn [length]. lia. }
    rewrite <-app_assoc, Hrd. cbn [app]. by apply end_transmitted.
  - split; [|cbn; by rewrite Hio, Hp]. split; [by destruct Hs'|]. split; [by destruct Hy'|done].
Qed.

(** ** Properties *)

(** C6: The file list survives the wire: whatever sequence of sendable entries one end writes,
    in every protocol from 28 to 32 and with every set of options that both ends agree on,
    the other end reads the same sequence, entry by entry with all the fields that the
    options put on the wire, takes exactly the bytes that were written and learns the error
    code of the sender; afterwards the two compression states agree again, so the next
    segment can follow.  An entry can be sent if its numbers fit the format, its name stays
    below the directory, a symbolic link has a target and a file its checksum where these are
    sent, and it is no hard link to a leader in the same segment; the session has no access
    control lists, extended attributes or conversion of names. *)
Theorem flist_roundtrip (w : FileListWriter) (r : FileListReader) (prev : option FileEntry)
    (l : list FileEntry) (io_error : option Z) :
  session w r → synced (fw_preserve w) (fw_state w) (fr_state r) → state_after (fw_state w) prev →
  Forall (sendable w) l → (∀ c, io_error = Some c → in_i 32 c) →
  ∃ out w' r' l', send_segment l io_error w = Some (out, w') ∧ received_list w prev l l' ∧
    (∀ rest, read_segment (length (out ++ rest)) [] r (out ++ rest) = (r', Ok (l', rest))) ∧
    session w' r' ∧ synced (fw_preserve w') (fw_state w') (fr_state r') ∧
    fr_io_error r' = Z.lor (fr_io_error r) (told r io_error).
Proof.
  intros Hs Hy Hst Hl Hc.
  destruct (segment_transmitted w r prev l io_error Hs Hy Hst Hl Hc) as (out & w' & r' & l' & H1 & H2 & H3 & (H4 & H5 & _) & H6).
  by exists out, w', r', l'.
Qed.

(** *** An example *)

Definition demo_preserve : PreserveFlags := mkPreserve true true true true true true true true.
Definition demo_writer : FileListWriter :=
  mkWriter 31 state_default flist_stats_default demo_preserve false 0 true true 0 true.
Definition demo_reader : FileListReader :=
  mkReader 31 (Some 0x88) state_default flist_stats_default demo_preserve false false 0 false 0 0.

Definition demo_dir : FileEntry :=
  set_top_dir true (set_uid 5 (mkEntry (bytes "d") [] 4096 100 None 0 0 0 0x41ed PRESENT_CONTENT_DIR)).
Definition demo_file : FileEntry :=
  set_user_name (bytes "joe") (set_uid 7 (mkEntry (bytes "d/a") (bytes "d") 3 100 None 0 0 5 0x81a4 PRESENT_CONTENT_DIR)).
Definition demo_link : FileEntry :=
  set_link_target (bytes "a") (set_uid 7 (mkEntry (bytes "d/l") (bytes "d") 1 200 None 0 0 0 0xa1ff PRESENT_CONTENT_DIR)).

Lemma demo_session : session demo_writer demo_reader.
Proof. by split. Qed.

Lemma demo_below (l : list (list byte)) :
  forallb (λ c, negb (bool_decide (c = [])) && negb (bool_decide (c = DOT)) && negb (bool_decide (c = DOTDOT))
                && negb (bool_decide (SLASH ∈ c))) l = true →
  l ≠ [] → stays_below (join_slash l).
Proof.
  intros H Hne. rewrite forallb_forall in H.
  assert (Hall : ∀ c, c ∈ l → c ≠ [] ∧ c ≠ DOT ∧ c ≠ DOTDOT ∧ slashless c).
  { intros c Hc%list_elem_of_In. specialize (H c Hc).
    repeat (apply andb_true_iff in H as [H ?]). rewrite !negb_true_iff, !bool_decide_eq_false in *. done. }
  apply plain_stays_below; [done|..]; apply Forall_forall; intros c Hc; destruct (Hall c Hc) as (?&?&?&?); by repeat split.
Qed.

Lemma demo_sendable : Forall (sendable demo_writer) [demo_dir; demo_file; demo_link].
Proof.
  repeat apply Forall_cons_2; try apply Forall_nil_2; split.
  all: try done.
  all: try (intros ? [=]; done).
  - split; [by apply (demo_below [bytes "d"])|cbn; unfold MAXPATHLEN; lia].
  - split; [by apply (demo_below [bytes "d"; bytes "a"])|cbn; unfold MAXPATHLEN; lia].
  - intros ? [= <-]. split; [done|cbn; lia].
  - split; [by apply (demo_below [bytes "d"; bytes "l"])|cbn; unfold MAXPATHLEN; lia].
  - intros _ _. eexists. split; [done|]. cbn. lia.
Qed.

Lemma flist_roundtrip_witness :
  ∃ out w' r' l', send_segment [demo_dir; demo_file; demo_link] (Some 3) demo_writer = Some (out, w') ∧
    received_list demo_writer None [demo_dir; demo_file; demo_link] l' ∧
    (∀ rest, read_segment (length (out ++ rest)) [] demo_reader (out ++ rest) = (r', Ok (l', rest))) ∧
    session w' r' ∧ synced (fw_preserve w') (fw_state w') (fr_state r') ∧
    fr_io_error r' = Z.lor (fr_io_error demo_reader) (told demo_reader (Some 3)).
Proof.
  apply (flist_roundtrip demo_writer demo_reader None); [apply demo_session|by split|done|apply demo_sendable|].
  by intros c [= <-].
Defined.

(** ** Followers without metadata *)

(** The writer's state has the metadata of the leader: the entry before has it as well. *)
Record agrees_with_leader (p : PreserveFlags) (st : FileListCompressionState) (leader : FileEntry) : Prop := {
  al_mode : prev_mode st = fe_mode leader;
  al_mtime : prev_mtime st = fe_mtime leader;
  al_uid : p_uid p = true → ∀ id, uid leader = Some id → prev_uid st = id;
  al_gid : p_gid p = true → ∀ id, gid leader = Some id → prev_gid st = id;
  al_atime : is_dir leader = false → prev_atime st = atime leader;
}.

(** What the receiver's state is after the leader has been copied. *)
Definition leader_updates (leader : FileEntry) (st : FileListCompressionState) : FileListCompressionState :=
  (if negb (is_dir leader) then update_atime (atime leader) else λ st, st)
    ((match gid leader with Some id => update_gid id | None => λ st, st end)
      ((match uid leader with Some id => update_uid id | None => λ st, st end)
        (update_mtime (fe_mtime leader) (update_mode (fe_mode leader) st)))).

Lemma leader_synced p ws rs name leader : synced p ws rs →
  synced p (update_name name ws) (leader_updates leader (update_name name rs)) ↔ agrees_with_leader p ws leader.
Proof.
  intros []. unfold leader_updates. split.
  - intros [H1 H2 H3 H4 H5 H6 _ _]. split.
    + destruct (negb (is_dir leader)), (gid leader), (uid leader); cbn in H2; congruence.
    + destruct (negb (is_dir leader)), (gid leader), (uid leader); cbn in H3; congruence.
    + intros Hp id E. specialize (H5 Hp). rewrite E in H5.
      destruct (negb (is_dir leader)), (gid leader); cbn in H5; congruence.
    + intros Hp id E. specialize (H6 Hp). rewrite E in H6.
      destruct (negb (is_dir leader)), (uid leader); cbn in H6; congruence.
    + intros E. rewrite E in H4. cbn [negb] in H4. destruct (gid leader), (uid leader); cbn in H4; congruence.
  - intros []. destruct (is_dir leader) eqn:Ed, (gid leader) as [g|] eqn:Eg, (uid leader) as [u|] eqn:Eu;
      split; cbn; try congruence; intros; first [congruence|symmetry; by auto|by auto].
Qed.

Definition leader_body (leader : FileEntry) : EntryBody :=
  mkBody (fe_size leader)
    (mkMeta (fe_mtime leader) (fe_mtime_nsec leader) (fe_mode leader) (uid leader) (gid leader)
       None None (if negb (atime leader =? 0) then Some (atime leader) else None)
       (atime_nsec leader) None (is_dir leader))
    (link_target leader) (option_zip (rdev_major leader) (rdev_minor leader)) None (checksum leader).

Lemma copy_leader_read w r seg idx leader : session w r →
  0 ≤ fw_first_ndx w ≤ swrap 32 idx → seg !! Z.to_nat (swrap 32 idx - fw_first_ndx w) = Some leader → ∀ s,
  copy_leader idx seg r s = (updr r (leader_updates leader), Ok (leader_body leader, s)).
Proof.
  intros Hs Hi Hl s. pose proof (swrap_range 32 idx ltac:(lia)) as Hidx. unfold in_i in Hidx.
  unfold copy_leader. unfold mbind at 1, decoder_bind at 1, self. rewrite <-(se_ndx _ _ Hs).
  rewrite (swrap_small 32 (swrap 32 idx - _)) by (unfold in_i; lia).
  rewrite wrap_small by (unfold in_u; lia).
  pose proof (lookup_lt_Some _ _ _ Hl). rewrite (proj2 (Z.ltb_lt _ _)) by lia. rewrite Hl. done.
Qed.

Lemma abbreviated_both w r e x f idx : session w r → flags_agree x (is_dir e) f → xflags_spec w e x →
  sent_idx w e = Some idx → idx ≠ u32_max → fw_first_ndx w ≤ swrap 32 idx →
  w_is_abbreviated_follower w e x = true ∧
  ∀ r', fr_ndx_start r' = fr_ndx_start r → r_is_abbreviated_follower r' f (Some idx) = true.
Proof.
  intros Hs Hf Hx Eidx Hmax Hi. unfold w_is_abbreviated_follower, r_is_abbreviated_follower, is_hardlink_follower.
  unfold ff_hlinked, ff_hlink_first. rewrite !(fa_extended _ _ _ Hf) by done.
  change (byte1 2) with (byte1 XMIT_HLINKED). change (byte1 16) with (byte1 XMIT_HLINK_FIRST).
  rewrite (xs_hlinked _ _ _ Hx), (xs_first _ _ _ Hx), Z.ltb_antisym.
  unfold sent_idx in Eidx. unfold link_first, link_here.
  destruct (p_hard_links (fw_preserve w)), (30 <=? fw_protocol w), (is_dir e); try done.
  cbn [negb andb] in *. rewrite Eidx. cbn [is_some andb negb orb].
  rewrite bool_decide_false by congruence. cbn [negb].
  split; [|intros r' ->; rewrite <-(se_ndx _ _ Hs)]; by apply Z.leb_le.
Qed.

(** C40: A follower without metadata comes out of step: the receiver takes the size, the times,
    the mode, the owner and the target from the leader and puts them into its compression
    state, while the writer keeps the state of the entry before; so the two states agree
    afterwards exactly when that entry had the metadata of the leader, and otherwise what the
    next entry has in common with the entry before is taken from the leader instead. *)
Theorem follower_out_of_step (w : FileListWriter) (r : FileListReader) (e leader : FileEntry)
    (idx : Z) (seg : list FileEntry) :
  session w r → synced (fw_preserve w) (fw_state w) (fr_state r) →
  stays_below (name_bytes e) → (length (name_bytes e) < MAXPATHLEN)%nat →
  sent_idx w e = Some idx → in_u 32 idx → idx ≠ u32_max →
  0 ≤ fw_first_ndx w ≤ swrap 32 idx → seg !! Z.to_nat (swrap 32 idx - fw_first_ndx w) = Some leader →
  in_u 16 (fe_mode leader) →
  ∃ w' r' e', transmits (write_entry e w) (read_entry_with_flist seg) r w' r' (Some e') ∧
    name_bytes e' = name_bytes e ∧ hardlink_idx e' = Some idx ∧
    (fe_size e', fe_mode e', fe_mtime e', uid e', gid e', link_target e') =
      (fe_size leader, fe_mode leader, fe_mtime leader, uid leader, gid leader, link_target leader) ∧
    (synced (fw_preserve w) (fw_state w') (fr_state r') ↔ agrees_with_leader (fw_preserve w) (fw_state w) leader).
Proof.
  intros Hs Hy (Hne & _ & _ & Hclean) Hlen Eidx Hidx Hmax Hi Hl Hm.
  pose proof (se_range _ _ Hs) as Hr.
  assert (Hp : 28 ≤ fw_protocol w) by (rewrite (se_protocol _ _ Hs); lia).
  set (name := name_bytes e) in *. set (sl := calculate_name_prefix_len (fw_state w) name).
  set (su := (length name - sl)%nat). set (x := calculate_xflags w e sl su).
  assert (Hx : xflags_spec w e x) by (by apply calculate_xflags_spec).
  destruct (flags_transmitted w r x (is_dir e) Hs) as (f & Hf & Hflags).
  { rewrite <-(se_varint _ _ Hs). by apply xflags_ok. }
  destruct (abbreviated_both w r e x f idx Hs Hf Hx Eidx Hmax ltac:(lia)) as [Ha1 Ha2].
  set (e' := build_entry name f (Some idx) (leader_body leader)).
  exists (fw_with_stats (update_stats e (fw_stats w)) (updw w (update_name name))),
    (fr_with_stats (update_stats e' (fr_stats r)) (updr r (λ st, leader_updates leader (update_name name st)))), e'.
  split.
  - unfold write_entry. fold name sl su x. rewrite Ha1. cbn [negb].
    unfold read_entry_with_flist. eapply transmits_seq; [exact Hflags|].
    unfold read_named_entry. eapply transmits_seq.
    { apply (name_field w r x (is_dir e) f); [done|done|apply Hy|done|..].
      - unfold x. rewrite xflags_low by done. apply basic_name.
      - unfold x. rewrite xflags_low by done. apply basic_long. }
    rewrite (bool_decide_false (name = [])) by done.
    set (r1 := updr r _). assert (Hs1 : session w r1) by (by apply session_updr).
    eapply transmits_seq.
    { apply (idx_field w r1 e x f); [done|done|apply Hx|apply Hx|].
      unfold sent_idx in Eidx. destruct (_ && _); [|done]. intros i Ei. congruence. }
    rewrite Eidx. eapply transmits_self; [done|]. rewrite (Ha2 r1) by done.
    eapply transmits_self; [intros; by apply (copy_leader_read w)|].
    exists []. split; [done|]. intros rest. rewrite Hclean. done.
  - subst e'. unfold name_bytes. rewrite built_name, built_idx, built_size, built_mode, built_mtime, built_uid,
      built_gid, built_target. cbn [leader_body eb_size eb_metadata eb_link_target m_mode m_mtime m_uid m_gid].
    rewrite wrap_small by done. repeat (split; [done|]). by apply leader_synced.
Qed.

(** The entry before the follower has another mode and another time than the leader. *)
Definition demo_state : FileListCompressionState := mkState (bytes "b") 0x81ed 200 0 0 0 0 0 0.
Definition demo_leader : FileEntry :=
  set_hardlink_idx u32_max (mkEntry (bytes "a") [] 3 100 None 0 0 0 0x81a4 PRESENT_CONTENT_DIR).
Definition demo_follower : FileEntry :=
  set_hardlink_idx 0 (mkEntry (bytes "c") [] 3 100 None 0 0 0 0x81a4 PRESENT_CONTENT_DIR).

Lemma follower_out_of_step_witness :
  ∃ w' r' e', transmits (write_entry demo_follower (fw_with_state demo_state demo_writer))
    (read_entry_with_flist [demo_leader]) (fr_with_state demo_state demo_reader) w' r' (Some e') ∧
    ¬ synced demo_preserve (fw_state w') (fr_state r').
Proof.
  destruct (follower_out_of_step (fw_with_state demo_state demo_writer) (fr_with_state demo_state demo_reader)
              demo_follower demo_leader 0 [demo_leader]) as (w' & r' & e' & Ht & _ & _ & _ & Hy);
    [by split|by split|by apply (demo_below [bytes "c"])|cbn; unfold MAXPATHLEN; lia|done..|].
  exists w', r', e'. split; [done|]. intros H. apply Hy in H as [H _]. done.
Defined.
