(* ===== verification/FlistStep.v ===== *)
(** * Reading the file list in pieces ([crates/protocol/src/flist/read/step.rs], [async_read.rs])

    The asynchronous reader decodes an entry from the bytes it has so far and starts again
    with more bytes where they were not enough.  That is sound because the decoder looks at
    no more bytes than it takes ([Steady]) and because what it changed before it ran out of
    bytes is put back. *)

From stdpp Require Import strings.
From S2P Require Import Prelude Wildmatch FilterWire FilterSet FilterParse Varint Ndx FlistEntry FlistName FlistWire.

Local Open Scope Z_scope.

(** ** Parsers *)

(** A parser takes a front part of the input and does not depend on what comes after it. *)
Class Takes {A} (p : parser A) : Prop := {
  takes_stream : streaming p;
  takes_front x a r : p x = Ok (a, r) → ∃ front, x = front ++ r;
}.

#[local] Instance takes_ret {A} (a : A) : Takes (mret a).
Proof. split; [done|]. intros x ? r [= -> ->]. by exists []. Qed.

#[local] Instance takes_fail {A} (e : io_error) : Takes (@fail A e).
Proof. split; [|done]. intros x y. cbn. by destruct e. Qed.

#[local] Instance takes_u8 : Takes read_u8.
Proof. split; [apply streaming_read_u8|]. intros [|b x] a r; [done|]. intros [= -> ->]. by exists [a]. Qed.

#[local] Instance takes_exact n : Takes (read_exact n).
Proof.
  split; [apply streaming_read_exact|]. intros x a r [-> _]%read_exact_Ok. by exists a.
Qed.

#[local] Instance takes_bind {A B} (p : parser A) (f : A → parser B) :
  Takes p → (∀ a, Takes (f a)) → Takes (p ≫= f).
Proof.
  intros Hp Hf. split; [apply streaming_bind; [apply Hp|intros; apply Hf]|].
  intros x b r. unfold mbind, parser_bind. destruct (p x) as [[a r1]|] eqn:E; [|done].
  intros E2. apply (takes_front (p := p)) in E as [f1 ->]. apply (takes_front (p := f a)) in E2 as [f2 ->].
  exists (f1 ++ f2). by rewrite app_assoc.
Qed.

#[local] Instance takes_if {A} (c : bool) (p q : parser A) : Takes p → Takes q → Takes (if c then p else q).
Proof. by destruct c. Qed.

#[local] Instance takes_varint : Takes read_varint.
Proof. unfold read_varint. apply _. Qed.
#[local] Instance takes_varlong n : Takes (read_varlong n).
Proof. unfold read_varlong. apply _. Qed.
#[local] Instance takes_longint : Takes read_longint.
Proof. unfold read_longint. apply _. Qed.
#[local] Instance takes_varint30 n : Takes (read_varint30_int n).
Proof. unfold read_varint30_int, read_int. apply _. Qed.
#[local] Instance takes_byte : Takes read_byte.
Proof. unfold read_byte. apply _. Qed.
#[local] Instance takes_owner same follows prev fixed : Takes (read_owner_id same follows prev fixed).
Proof. unfold read_owner_id. apply _. Qed.

#[local] Instance takes_file_size proto : Takes (read_file_size (create_protocol_codec proto)).
Proof. unfold create_protocol_codec. destruct (proto <? 30); cbn; unfold legacy_read_file_size; apply _. Qed.
#[local] Instance takes_mtime proto : Takes (read_mtime (create_protocol_codec proto)).
Proof. unfold create_protocol_codec. destruct (proto <? 30); cbn; unfold legacy_read_mtime; apply _. Qed.
#[local] Instance takes_name_len proto : Takes (read_long_name_len (create_protocol_codec proto)).
Proof.
  unfold create_protocol_codec. destruct (proto <? 30); cbn;
    unfold legacy_read_long_name_len, modern_read_long_name_len; apply _.
Qed.

(** ** Decoders *)

Class Steady {A} (D : decoder A) : Prop := {
  steady_more r x y :
    match D r x with
    | (r', Ok (a, rest)) => D r (x ++ y) = (r', Ok (a, rest ++ y))
    | (_, Err UnexpectedEof) => True
    | (r', Err e) => D r (x ++ y) = (r', Err e)
    end;
  steady_front r x r' a rest : D r x = (r', Ok (a, rest)) → ∃ front, x = front ++ rest;
  steady_restore r x : restore (snapshot r) (D r x).1 = r;
}.

Lemma restore_trans r r1 r2 :
  restore (snapshot r) r1 = r → restore (snapshot r1) r2 = r1 → restore (snapshot r) r2 = r.
Proof.
  destruct r, r1, r2. unfold restore, snapshot. cbn.
  intros H1 H2. injection H1. injection H2. intros. by subst.
Qed.

#[local] Instance steady_ret {A} (a : A) : Steady (mret a).
Proof.
  split; [done| |by intros []]. intros r x r' a' rest [= _ _ ->]. by exists [].
Qed.

#[local] Instance steady_raise {A} (e : io_error) : Steady (@raise A e).
Proof. split; [by destruct e|done|by intros []]. Qed.

#[local] Instance steady_self : Steady self.
Proof. split; [done| |by intros []]. intros r x r' a' rest [= _ _ ->]. by exists []. Qed.

#[local] Instance steady_set_state f : Steady (set_state f).
Proof. split; [done| |by intros []]. intros r x r' a' rest [= _ _ ->]. by exists []. Qed.

#[local] Instance steady_set_stats f : Steady (set_self (λ r, fr_with_stats (f r) r)).
Proof. split; [done| |by intros []]. intros r x r' a' rest [= _ _ ->]. by exists []. Qed.

#[local] Instance steady_set_error f : Steady (set_self (λ r, fr_with_io_error (f r) r)).
Proof. split; [done| |by intros []]. intros r x r' a' rest [= _ _ ->]. by exists []. Qed.

#[local] Instance steady_wire {A} (p : parser A) : Takes p → Steady (wire p).
Proof.
  intros Hp. split.
  - intros r x y. unfold wire. pose proof (takes_stream (p := p) x y) as H.
    destruct (p x) as [[a rest]|[]]; rewrite ?H; done.
  - unfold wire. intros r x r' a rest [= _ E]. by apply (takes_front (p := p)) in E.
  - by intros [].
Qed.

#[local] Instance steady_bind {A B} (D : decoder A) (f : A → decoder B) :
  Steady D → (∀ a, Steady (f a)) → Steady (D ≫= f).
Proof.
  intros HD Hf. split; unfold mbind, decoder_bind.
  - intros r x y. pose proof (steady_more (D := D) r x y) as H.
    destruct (D r x) as [r1 [[a rest]|[]]]; rewrite ?H; try done. apply steady_more.
  - intros r x r' b rest. destruct (D r x) as [r1 [[a r2]|]] eqn:E; [|done].
    intros E2. apply (steady_front (D := D)) in E as [f1 ->]. apply (steady_front (D := f a)) in E2 as [f2 ->].
    exists (f1 ++ f2). by rewrite app_assoc.
  - intros r x. pose proof (steady_restore (D := D) r x) as H.
    destruct (D r x) as [r1 [[a r2]|]] eqn:E; [|done]. cbn in H. eapply restore_trans; [done|]. apply steady_restore.
Qed.

(** Case analysis in the body of a decoder. *)
Ltac steady :=
  repeat match goal with
    | |- Steady (_ ≫= _) => apply steady_bind; [|intros]
    | |- Steady (if ?c then _ else _) => destruct c
    | |- Steady (match ?c with _ => _ end) => destruct c
    | |- Steady (let x := _ in _) => cbv zeta
    end; try apply _.

#[local] Instance steady_marker p e : Steady (check_error_marker p e).
Proof. unfold check_error_marker. steady. Qed.
#[local] Instance steady_extended v x : Steady (read_extended_bytes v x).
Proof. unfold read_extended_bytes. steady. Qed.
#[local] Instance steady_flags : Steady read_flags.
Proof. unfold read_flags. steady. Qed.
#[local] Instance steady_name f : Steady (read_name f).
Proof. unfold read_name, fr_codec. steady. Qed.
#[local] Instance steady_metadata f : Steady (read_metadata f).
Proof.
  unfold read_metadata, read_mtime_field, read_nsec, read_crtime, read_mode, read_atime_field, read_uid_field,
    read_gid_field, fr_codec. steady.
Qed.
#[local] Instance steady_body f : Steady (read_body f).
Proof.
  unfold read_body, read_size, read_rdev, read_symlink_target, read_hardlink_dev_ino, read_checksum, fr_codec. steady.
Qed.
#[local] Instance steady_leader i seg : Steady (copy_leader i seg).
Proof. unfold copy_leader. steady. Qed.
#[local] Instance steady_idx f : Steady (read_hardlink_idx f).
Proof. unfold read_hardlink_idx. steady. Qed.
#[local] Instance steady_entry seg : Steady (read_entry_with_flist seg).
Proof. unfold read_entry_with_flist, read_named_entry. steady. Qed.

(** ** Properties *)

Lemma step_emits r buf seg r' entry rest : read_entry_with_flist seg r buf = (r', Ok (entry, rest)) →
  ∃ n, read_entry_step r buf seg = (r', Ok (Emit entry n)) ∧ drop n buf = rest.
Proof.
  intros E. destruct buf as [|b buf].
  { unfold read_entry_with_flist, read_flags, mbind, decoder_bind, self, wire in E.
    by destruct (use_varint_flags r). }
  exists (length (b :: buf) - length rest)%nat. unfold read_entry_step. rewrite E. split; [done|].
  apply (steady_front (D := read_entry_with_flist seg)) in E as [front ->].
  rewrite length_app. replace (_ + _ - _)%nat with (length front) by lia. apply drop_app_length.
Qed.

Lemma step_needs_more r buf seg r' : read_entry_with_flist seg r buf = (r', Err UnexpectedEof) →
  read_entry_step r buf seg = (r, Ok NeedMore).
Proof.
  intros E. unfold read_entry_step. rewrite E. destruct buf; [done|].
  pose proof (steady_restore (D := read_entry_with_flist seg) r (b :: buf)) as H. rewrite E in H. cbn in H.
  by rewrite H.
Qed.

Lemma step_fails r buf seg r' e : read_entry_with_flist seg r buf = (r', Err e) → e ≠ UnexpectedEof →
  read_entry_step r buf seg = (r', Err e).
Proof.
  intros E He. unfold read_entry_step. destruct buf as [|b buf]; [|rewrite E; by destruct e].
  unfold read_entry_with_flist, read_flags, mbind, decoder_bind, self, wire in E.
  destruct (use_varint_flags r); by injection E as _ <-.
Qed.

(** The round of the loop, by what is found in the bytes so far. *)
Lemma async_round r src carry seg :
  read_entry_with_flist_async r src carry seg =
    match read_entry_step r carry seg with
    | (r', Err err) => (r', Err err, carry, src)
    | (r', Ok (Emit entry consumed)) => (r', Ok entry, drop consumed carry, src)
    | (r', Ok NeedMore) =>
        match src with
        | [] => (r', Err UnexpectedEof, carry, [])
        | [] :: src' => (r', Err UnexpectedEof, carry, src')
        | piece :: src' => read_entry_with_flist_async r' src' (carry ++ piece) seg
        end
    end.
Proof. by destruct src. Qed.

(** C26: It does not matter in which pieces the bytes of the list arrive: over every sequence of
    pieces the asynchronous reader returns the entry, or the error, that the blocking reader
    finds in all the bytes, leaves the reader in the same state, and keeps every byte after
    the entry for the next call; where the stream ends inside an entry, the reader is as it
    was before the call. *)
Theorem entry_pieces_do_not_matter (src : list (list byte)) (r : FileListReader) (carry : list byte)
    (seg : list FileEntry) : Forall (λ piece, piece ≠ []) src →
  match read_entry_with_flist seg r (carry ++ concat src) with
  | (r', Ok (entry, rest)) => ∃ carry' src',
      read_entry_with_flist_async r src carry seg = (r', Ok entry, carry', src') ∧ carry' ++ concat src' = rest
  | (_, Err UnexpectedEof) => ∃ carry',
      read_entry_with_flist_async r src carry seg = (r, Err UnexpectedEof, carry', [])
  | (r', Err e) => ∃ carry' src',
      read_entry_with_flist_async r src carry seg = (r', Err e, carry', src')
  end.
Proof.
  intros Hsrc. revert carry. induction Hsrc as [|p src Hp Hsrc IH]; intros carry.
  - cbn [concat]. rewrite app_nil_r, async_round.
    destruct (read_entry_with_flist seg r carry) as [r1 [[entry rest]|e]] eqn:E.
    + destruct (step_emits _ _ _ _ _ _ E) as (n & -> & Hd). do 2 eexists. split; [done|]. by rewrite app_nil_r.
    + destruct (decide (e = UnexpectedEof)) as [->|He].
      * rewrite (step_needs_more _ _ _ _ E). by eexists.
      * rewrite (step_fails _ _ _ _ _ E He). destruct e; try done; by do 2 eexists.
  - rewrite async_round. pose proof (steady_more (D := read_entry_with_flist seg) r carry (concat (p :: src))) as Hmore.
    destruct (read_entry_with_flist seg r carry) as [r1 [[entry rest]|e]] eqn:E.
    + rewrite Hmore. destruct (step_emits _ _ _ _ _ _ E) as (n & -> & <-). by do 2 eexists.
    + destruct (decide (e = UnexpectedEof)) as [->|He].
      * rewrite (step_needs_more _ _ _ _ E). specialize (IH (carry ++ p)). cbn [concat].
        rewrite <-app_assoc in IH. destruct p; [done|exact IH].
      * assert (Hall : read_entry_with_flist seg r (carry ++ concat (p :: src)) = (r1, Err e)) by (by destruct e).
        rewrite Hall, (step_fails _ _ _ _ _ E He). destruct e; try done; by do 2 eexists.
Qed.

(** A file in five pieces, with the marker that ends the list. *)
Definition plain_reader : FileListReader :=
  mkReader 31 None state_default flist_stats_default (mkPreserve false false false false false false false false)
    false false 0 false 0 0.
Definition demo_pieces : list (list byte) :=
  [[x18]; [x01; x66; x00]; [x01; x00; x00; x64; x00]; [x00; xa4; x81]; [x00; x00; x00]].

Lemma entry_pieces_do_not_matter_witness : ∃ r' entry carry' src',
  read_entry_with_flist_async plain_reader demo_pieces [] [] = (r', Ok (Some entry), carry', src') ∧
  name_bytes entry = bytes "f" ∧ carry' ++ concat src' = [x00].
Proof.
  pose proof (entry_pieces_do_not_matter demo_pieces plain_reader [] [] ltac:(by repeat constructor)) as H.
  destruct (read_entry_with_flist [] plain_reader ([] ++ concat demo_pieces)) as [r' [[[entry|] rest]|]] eqn:E;
    vm_compute in E; try done.
  destruct H as (carry' & src' & Ha & Hr). exists r', entry, carry', src'. split; [done|].
  injection E as <- <- <-. done.
Defined.
