(* ===== verification/Hardlinks.v ===== *)
(** * Hard links in the file list ([crates/protocol/src/flist/hardlink/],
      [crates/transfer/src/generator/file_list/hardlinks.rs],
      [crates/transfer/src/receiver/file_list/hardlinks.rs])

    The sender knows which entries are the same file by their device and inode.  From protocol
    30 on it sends for the first of them a mark, and for the others the index of the first;
    the receiver gives the marked entry its own index, sorts, and makes the first entry of
    each group in its own order the leader.  Before protocol 30 the numbers of the device and
    the inode are sent, and the receiver forms the groups. *)

From S2P Require Import Prelude Wildmatch FilterWire FlistEntry.
From stdpp Require Import gmap.

Local Open Scope Z_scope.

(** ** The table of the sender *)

Record HardlinkEntry := mkHardlink { first_ndx : Z; link_count : Z }.
Inductive HardlinkLookup := First (ndx : Z) | LinkTo (ndx : Z).
Notation HardlinkTable := (gmap (Z * Z) HardlinkEntry).

Definition find_or_insert (dev_ino : Z * Z) (file_ndx : Z) (table : HardlinkTable)
    : HardlinkLookup * HardlinkTable :=
  match table !! dev_ino with
  | Some entry =>
      (LinkTo (first_ndx entry),
       <[dev_ino := mkHardlink (first_ndx entry) (wrap 32 (link_count entry + 1))]> table)
  | None => (First file_ndx, <[dev_ino := mkHardlink file_ndx 1]> table)
  end.

(** Both numbers of an entry that has them. *)
Definition dev_ino_of (e : FileEntry) : option (Z * Z) :=
  match hardlink_dev e, hardlink_ino e with
  | Some dev, Some ino => Some (wrap 64 dev, wrap 64 ino)
  | _, _ => None
  end.

Definition assign_entry (protocol ndx_start : Z) (i : nat) (e : FileEntry) (table : HardlinkTable)
    : FileEntry * HardlinkTable :=
  match dev_ino_of e with
  | None => (e, table)
  | Some dev_ino =>
      let wire_ndx := wrap 32 (ndx_start + Z.of_nat i) in
      let '(lookup, table) := find_or_insert dev_ino wire_ndx table in
      let e := match lookup with
               | First _ => set_hardlink_idx u32_max e
               | LinkTo leader_wire_ndx => set_hardlink_idx leader_wire_ndx e
               end in
      (if 30 <=? protocol then set_hardlink_ino 0 (set_hardlink_dev 0 e) else e, table)
  end.

Fixpoint assign_loop (protocol ndx_start : Z) (i : nat) (l : list FileEntry) (table : HardlinkTable)
    : list FileEntry :=
  match l with
  | [] => []
  | e :: l =>
      let '(e, table) := assign_entry protocol ndx_start i e table in
      e :: assign_loop protocol ndx_start (S i) l table
  end.

(** [ndx_start] is the index of the first entry of the first segment. *)
Definition assign_hardlink_indices (protocol ndx_start : Z) (l : list FileEntry) : list FileEntry :=
  assign_loop protocol ndx_start 0 l ∅.

(** ** The receiver *)

(** The marked entries get their own index, before sorting ([receive_file_list]). *)
Fixpoint assign_leader_ndx (ndx_start : Z) (i : nat) (l : list FileEntry) : list FileEntry :=
  match l with
  | [] => []
  | e :: l =>
      (if hlink_first e then set_hardlink_idx (wrap 32 (ndx_start + Z.of_nat i)) e else e)
      :: assign_leader_ndx ndx_start (S i) l
  end.

(** The first place of each group. *)
Fixpoint first_places (i : nat) (entries : list FileEntry) (first_in_group : gmap Z nat) : gmap Z nat :=
  match entries with
  | [] => first_in_group
  | e :: entries =>
      first_places (S i) entries
        (match hardlink_idx e with
         | Some idx => match first_in_group !! idx with
                       | Some _ => first_in_group
                       | None => <[idx := i]> first_in_group
                       end
         | None => first_in_group
         end)
  end.

Fixpoint reassign (first_in_group : gmap Z nat) (i : nat) (entries : list FileEntry) (prior : gmap Z bool)
    : list FileEntry * gmap Z bool :=
  match entries with
  | [] => ([], prior)
  | e :: entries =>
      let '(e, prior) :=
        match hardlink_idx e with
        | None => (e, prior)
        | Some gnum =>
            let is_first_in_segment := bool_decide (first_in_group !! gnum = Some i) in
            let seen_before := bool_decide (is_Some (prior !! gnum)) in
            if is_first_in_segment && negb seen_before
            then (set_hlink_first true e, <[gnum := true]> prior)
            else (set_hlink_first false e,
                  match prior !! gnum with Some _ => prior | None => <[gnum := true]> prior end)
        end in
      let '(entries, prior) := reassign first_in_group (S i) entries prior in
      (e :: entries, prior)
  end.

Definition match_hard_links (entries : list FileEntry) (prior_hlinks : gmap Z bool)
    : list FileEntry * gmap Z bool :=
  reassign (first_places 0 entries ∅) 0 entries prior_hlinks.

(** The groups of equal numbers, with their places in order. *)
Fixpoint group_places (i : nat) (entries : list FileEntry) (groups : gmap (Z * Z) (list nat))
    : gmap (Z * Z) (list nat) :=
  match entries with
  | [] => groups
  | e :: entries =>
      group_places (S i) entries
        (if negb (is_file e) then groups
         else match hardlink_dev e, hardlink_ino e with
              | Some dev, Some ino => <[(dev, ino) := default [] (groups !! (dev, ino)) ++ [i]]> groups
              | _, _ => groups
              end)
  end.

Definition mark_member (gnum : Z) (first : bool) (e : FileEntry) : FileEntry :=
  set_hlink_first first (set_hlinked true (set_hardlink_idx gnum e)).

Fixpoint mark_group (gnum : Z) (first : bool) (indices : list nat) (entries : list FileEntry) : list FileEntry :=
  match indices with
  | [] => entries
  | i :: indices => mark_group gnum false indices (alter (mark_member gnum first) i entries)
  end.

Definition normalize_group (entries : list FileEntry) (indices : list nat) : list FileEntry :=
  match indices with
  | i :: _ :: _ => mark_group (wrap 32 (Z.of_nat i)) true indices entries
  | _ => entries
  end.

(** The order in which a hash map returns its values is not known. *)
Definition normalize_pre30_hardlinks (values : gmap (Z * Z) (list nat) → list (list nat))
    (entries : list FileEntry) : list FileEntry :=
  foldl normalize_group entries (values (group_places 0 entries ∅)).

(** ** Fields of entries *)

Lemma idx_set_idx v e : hardlink_idx (set_hardlink_idx v e) = Some v.
Proof. unfold hardlink_idx, set_hardlink_idx. cbn. rewrite has_flag_lor. by rewrite orb_true_r. Qed.

Lemma idx_set_dev v e : hardlink_idx (set_hardlink_dev v e) = hardlink_idx e.
Proof.
  unfold hardlink_idx, set_hardlink_dev, extras_mut. cbn. rewrite has_flag_lor, orb_false_r.
  destruct (fe_extras e); done.
Qed.

Lemma idx_set_ino v e : hardlink_idx (set_hardlink_ino v e) = hardlink_idx e.
Proof.
  unfold hardlink_idx, set_hardlink_ino, extras_mut. cbn. rewrite has_flag_lor, orb_false_r.
  destruct (fe_extras e); done.
Qed.

Lemma idx_set_first b e : hardlink_idx (set_hlink_first b e) = hardlink_idx e.
Proof. done. Qed.

Lemma first_set_first b e : hlink_first (set_hlink_first b e) = b.
Proof.
  unfold hlink_first, set_hlink_first, put_flag. cbn [fe_present with_present]. destruct b.
  - rewrite has_flag_lor. by rewrite orb_true_r.
  - unfold has_flag. rewrite <-Z.land_assoc. by rewrite Z.land_0_r.
Qed.

Lemma first_set_idx v e : hlink_first (set_hardlink_idx v e) = hlink_first e.
Proof. done. Qed.

(** ** Matching in one pass *)

(** The reference: an entry leads its group when the group has not been seen. *)
Fixpoint lead (entries : list FileEntry) (seen : gmap Z bool) : list FileEntry * gmap Z bool :=
  match entries with
  | [] => ([], seen)
  | e :: entries =>
      let '(e, seen) :=
        match hardlink_idx e with
        | None => (e, seen)
        | Some g => match seen !! g with
                    | Some _ => (set_hlink_first false e, seen)
                    | None => (set_hlink_first true e, <[g := true]> seen)
                    end
        end in
      let '(entries, seen) := lead entries seen in (e :: entries, seen)
  end.

Lemma first_places_keeps i entries m g x : m !! g = Some x → first_places i entries m !! g = Some x.
Proof.
  revert i m. induction entries as [|e entries IH]; intros i m Hm; cbn [first_places]; [done|].
  apply IH. destruct (hardlink_idx e) as [idx|]; [|done]. destruct (m !! idx) eqn:E; [done|].
  rewrite lookup_insert_ne; [done|congruence].
Qed.

Lemma reassign_lead entries i m prior : (∀ g, is_Some (m !! g) → is_Some (prior !! g)) →
  reassign (first_places i entries m) i entries prior = lead entries prior.
Proof.
  revert i m prior. induction entries as [|e entries IH]; intros i m prior Hm; [done|].
  cbn [reassign first_places lead]. destruct (hardlink_idx e) as [g|]; [|by rewrite IH].
  destruct (prior !! g) as [b|] eqn:Ep.
  - rewrite (bool_decide_true (is_Some (Some b))) by done. rewrite andb_false_r. rewrite IH; [done|].
    intros g'. destruct (m !! g) eqn:Em; [apply Hm|].
    destruct (decide (g' = g)) as [->|]; [by rewrite Ep|]. rewrite lookup_insert_ne by done. apply Hm.
  - destruct (m !! g) eqn:Em.
    { destruct (Hm g) as [x Hx]; [by rewrite Em|]. congruence. }
    rewrite bool_decide_true by (apply first_places_keeps, lookup_insert_eq).
    rewrite bool_decide_false by (by intros []). cbn [andb negb]. rewrite IH; [done|].
    intros g'. destruct (decide (g' = g)) as [->|]; [by rewrite !lookup_insert_eq|].
    rewrite !lookup_insert_ne by done. apply Hm.
Qed.

Lemma match_is_lead entries prior : match_hard_links entries prior = lead entries prior.
Proof. apply reassign_lead. intros g [x Hx]. by rewrite lookup_empty in Hx. Qed.

(** Segments can be matched one after the other. *)
Lemma match_hard_links_app a b prior :
  match_hard_links (a ++ b) prior =
    let '(a, prior) := match_hard_links a prior in
    let '(b, prior) := match_hard_links b prior in (a ++ b, prior).
Proof.
  rewrite !match_is_lead. revert prior. induction a as [|e a IH]; intros prior; cbn [lead app].
  { rewrite match_is_lead. by destruct (lead b prior). }
  destruct (hardlink_idx e) as [g|]; [destruct (prior !! g)|]; rewrite IH;
    (destruct (lead a _) as [a' p']; rewrite match_is_lead; by destruct (lead b p')).
Qed.

(** What is found at a place. *)
Lemma lead_lookup entries seen final seen' a e : lead entries seen = (final, seen') → entries !! a = Some e →
  ∃ f, final !! a = Some f ∧ hardlink_idx f = hardlink_idx e ∧
    ∀ g, hardlink_idx e = Some g →
      (hlink_first f = true ↔ seen !! g = None ∧ ∀ b y, (b < a)%nat → entries !! b = Some y → hardlink_idx y ≠ Some g).
Proof.
  revert seen final seen' a. induction entries as [|x entries IH]; intros seen final seen' a; [done|]. cbn [lead].
  destruct (match hardlink_idx x with Some g => _ | None => _ end) as [x' seen1] eqn:Ex.
  destruct (lead entries seen1) as [es seen2] eqn:El. intros [= <- <-] Ha. destruct a as [|a]; cbn in Ha |- *.
  - injection Ha as ->. exists x'. split; [done|]. destruct (hardlink_idx e) as [g|] eqn:Eg.
    + destruct (seen !! g) eqn:Es; injection Ex as <- <-; rewrite idx_set_first, Eg; (split; [done|]);
        intros g' [= <-]; rewrite first_set_first; split; try done; [naive_solver|]. intros _. split; [done|lia].
    + by injection Ex as <- <-.
  - destruct (IH _ _ _ a El Ha) as (f & Hf & Hidx & Hlead). exists f. split; [done|]. split; [done|].
    intros g Hg. rewrite (Hlead g Hg). clear Hlead.
    assert (Hs : seen1 !! g = None ↔ seen !! g = None ∧ hardlink_idx x ≠ Some g).
    { destruct (hardlink_idx x) as [g'|] eqn:Eg'; [|by injection Ex as _ <-; naive_solver].
      destruct (seen !! g') eqn:Es; injection Ex as _ <-; [naive_solver|].
      destruct (decide (g' = g)) as [->|]; [rewrite lookup_insert_eq; naive_solver|].
      rewrite lookup_insert_ne by done. naive_solver. }
    rewrite Hs. split.
    + intros [[H1 H2] H3]. split; [done|]. intros [|b] y Hb Hy; [by injection Hy as <-|]. apply (H3 b y); [lia|done].
    + intros [H1 H2]. split; [split; [done|apply (H2 0%nat); [lia|done]]|]. intros b y Hb Hy. apply (H2 (S b)); [lia|done].
Qed.

Lemma lead_length entries seen : length (lead entries seen).1 = length entries.
Proof.
  revert seen. induction entries as [|e entries IH]; intros seen; cbn [lead]; [done|].
  destruct (match hardlink_idx e with Some g => _ | None => _ end) as [e' seen1].
  specialize (IH seen1). destruct (lead entries seen1) as [es seen2]. cbn in *. by rewrite IH.
Qed.

(** ** The indices of the sender *)

(** The place of the first entry with the same numbers. *)
Definition leader_place (l : list FileEntry) (di : Z * Z) (j : nat) : Prop :=
  (∃ e, l !! j = Some e ∧ dev_ino_of e = Some di) ∧
  ∀ b y, (b < j)%nat → l !! b = Some y → dev_ino_of y ≠ Some di.

Lemma leader_place_unique l di i j : leader_place l di i → leader_place l di j → i = j.
Proof.
  intros [(e & He & Hd) Hi] [(e' & He' & Hd') Hj]. destruct (Nat.lt_trichotomy i j) as [H|[H|H]]; [|done|].
  - by destruct (Hj i e H He).
  - by destruct (Hi j e' H He').
Qed.

(** The table knows the leaders of the entries [l]. *)
Definition knows (ndx_start : Z) (l : list FileEntry) (di : Z * Z) (h : option HardlinkEntry) : Prop :=
  match h with
  | Some h => ∃ j, leader_place l di j ∧ first_ndx h = wrap 32 (ndx_start + Z.of_nat j)
  | None => ∀ b y, l !! b = Some y → dev_ino_of y ≠ Some di
  end.
Definition table_ok (ndx_start : Z) (l : list FileEntry) (table : HardlinkTable) : Prop :=
  ∀ di, knows ndx_start l di (table !! di).

Lemma leader_place_app l m di j : leader_place l di j → leader_place (l ++ m) di j.
Proof.
  intros [(x & Hx & Hd) Hj]. split.
  - exists x. split; [by apply lookup_app_l_Some|done].
  - intros b y Hb Hy. apply (Hj b y Hb). apply lookup_lt_Some in Hx. by rewrite lookup_app_l in Hy by lia.
Qed.

Lemma knows_snoc ndx_start l di h e : knows ndx_start l di h → dev_ino_of e ≠ Some di →
  knows ndx_start (l ++ [e]) di h.
Proof.
  intros Hk Hne. destruct h as [h|]; cbn in *.
  - destruct Hk as (j & Hj & ?). exists j. split; [by apply leader_place_app|done].
  - intros b y [Hy|[_ Hy]]%lookup_app_Some; [by apply (Hk b)|].
    destruct (b - length l)%nat as [|x]; [|done]. by injection Hy as <-.
Qed.

(** What the sender writes for an entry. *)
Definition sent_idx_ok (ndx_start : Z) (l : list FileEntry) (i : nat) (e e' : FileEntry) : Prop :=
  match dev_ino_of e with
  | None => e' = e
  | Some di => ∃ j, leader_place l di j ∧
      hardlink_idx e' = Some (if decide (j = i) then u32_max else wrap 32 (ndx_start + Z.of_nat j))
  end.

Lemma assign_entry_ok protocol ndx_start l e table e' table' : table_ok ndx_start l table →
  assign_entry protocol ndx_start (length l) e table = (e', table') →
  table_ok ndx_start (l ++ [e]) table' ∧ sent_idx_ok ndx_start (l ++ [e]) (length l) e e'.
Proof.
  intros Ht. unfold assign_entry, sent_idx_ok. destruct (dev_ino_of e) as [di|] eqn:Ed.
  2:{ intros [= <- <-]. split; [|done]. intros di. apply knows_snoc; [apply Ht|congruence]. }
  assert (Hother : ∀ h di', knows ndx_start (l ++ [e]) di (Some h) →
    knows ndx_start (l ++ [e]) di' (<[di := h]> table !! di')).
  { intros h di' Hh. destruct (decide (di' = di)) as [->|Hne]; [by rewrite lookup_insert_eq|].
    rewrite lookup_insert_ne by done. apply knows_snoc; [apply Ht|congruence]. }
  assert (Hclear : ∀ v, hardlink_idx (if 30 <=? protocol then set_hardlink_ino 0 (set_hardlink_dev 0 (set_hardlink_idx v e))
    else set_hardlink_idx v e) = Some v).
  { intros v. destruct (30 <=? protocol); by rewrite ?idx_set_ino, ?idx_set_dev, idx_set_idx. }
  unfold find_or_insert. pose proof (Ht di) as Hdi. destruct (table !! di) as [h|] eqn:Eh; cbn in Hdi.
  - destruct Hdi as (j & Hj & Hh). intros [= <- <-]. split.
    + intros di'. apply Hother. exists j. split; [by apply leader_place_app|done].
    + exists j. split; [by apply leader_place_app|]. rewrite decide_False, <-Hh by (destruct Hj as [(x & Hx & _) _];
        apply lookup_lt_Some in Hx; lia). apply Hclear.
  - assert (Hnew : leader_place (l ++ [e]) di (length l)).
    { split; [exists e; by rewrite list_lookup_middle|]. intros b y Hb Hy. rewrite lookup_app_l in Hy by done. by apply (Hdi b). }
    intros [= <- <-]. split; [intros di'; apply Hother; by exists (length l)|].
    exists (length l). split; [done|]. rewrite decide_True by done. apply Hclear.
Qed.

Lemma assign_loop_ok protocol ndx_start rest l table i e : table_ok ndx_start l table → rest !! i = Some e →
  ∃ e', assign_loop protocol ndx_start (length l) rest table !! i = Some e' ∧
    sent_idx_ok ndx_start (l ++ rest) (length l + i) e e'.
Proof.
  revert l table i. induction rest as [|x rest IH]; intros l table i Ht Hi; [done|]. cbn [assign_loop].
  destruct (assign_entry protocol ndx_start (length l) x table) as [x' table'] eqn:E.
  apply assign_entry_ok in E as [Ht' Hx]; [|done]. destruct i as [|i]; cbn in Hi |- *.
  - injection Hi as ->. exists x'. split; [done|]. rewrite Nat.add_0_r. unfold sent_idx_ok in *.
    destruct (dev_ino_of e) as [di|]; [|done]. destruct Hx as (j & Hj & ?). exists j. split; [|done].
    rewrite cons_middle, app_assoc. by apply leader_place_app.
  - destruct (IH (l ++ [x]) table' i Ht' Hi) as (e' & He & Hs). rewrite length_app, Nat.add_1_r in He.
    exists e'. split; [done|]. rewrite <-app_assoc, length_app in Hs. cbn in Hs.
    by replace (length l + S i)%nat with (length l + 1 + i)%nat by lia.
Qed.

Lemma assign_ok protocol ndx_start l i e : l !! i = Some e →
  ∃ e', assign_hardlink_indices protocol ndx_start l !! i = Some e' ∧ sent_idx_ok ndx_start l i e e'.
Proof. intros Hi. apply (assign_loop_ok protocol ndx_start l [] ∅); [|done]. intros di. rewrite lookup_empty. by intros b y Hb. Qed.

Lemma assign_length protocol ndx_start l i table : length (assign_loop protocol ndx_start i l table) = length l.
Proof.
  revert i table. induction l as [|e l IH]; intros i table; cbn [assign_loop]; [done|].
  destruct (assign_entry _ _ _ _ _). cbn. by rewrite IH.
Qed.

(** ** What arrives *)

(** The index is on the wire, and the mark is set for the first entry. *)
Definition carried (e e' : FileEntry) : Prop :=
  hardlink_idx e' = hardlink_idx e ∧ hlink_first e' = bool_decide (hardlink_idx e = Some u32_max).

Lemma leader_ndx_lookup ndx_start i l a :
  assign_leader_ndx ndx_start i l !! a =
    (λ e, if hlink_first e then set_hardlink_idx (wrap 32 (ndx_start + Z.of_nat (i + a))) e else e) <$> l !! a.
Proof.
  revert i a. induction l as [|e l IH]; intros i a; [done|]. cbn [assign_leader_ndx]. destruct a as [|a]; cbn.
  - by rewrite Nat.add_0_r.
  - rewrite IH. by replace (S i + a)%nat with (i + S a)%nat by lia.
Qed.

(** The index of [y] is that of the leader of [x]. *)
Definition in_group (ndx_start : Z) (l : list FileEntry) (x y : FileEntry) : Prop :=
  match dev_ino_of x with
  | None => hardlink_idx y = None
  | Some di => ∃ j, leader_place l di j ∧ hardlink_idx y = Some (ndx_start + Z.of_nat j)
  end.

Lemma in_group_same ndx_start l x y z w di : in_group ndx_start l x y → in_group ndx_start l z w →
  dev_ino_of x = Some di → is_Some (hardlink_idx y) ∧ (hardlink_idx w = hardlink_idx y ↔ dev_ino_of z = Some di).
Proof.
  unfold in_group. intros Hx Hz E. rewrite E in Hx. destruct Hx as (j & Hj & ->). split; [done|].
  destruct (dev_ino_of z) as [dz|]; [|rewrite Hz; naive_solver]. destruct Hz as (jz & Hjz & ->). split.
  - intros [= Ej]. assert (jz = j) as -> by lia. destruct Hjz as [(e1 & E1 & D1) _], Hj as [(e2 & E2 & D2) _]. congruence.
  - intros [= ->]. by rewrite (leader_place_unique l di jz j).
Qed.

(** After the leaders have their indices, the index of an entry is that of its leader. *)
Lemma group_number protocol ndx_start l got i x y :
  0 ≤ ndx_start → ndx_start + Z.of_nat (length l) ≤ u32_max → Forall (λ e, hardlink_idx e = None) l →
  Forall2 carried (assign_hardlink_indices protocol ndx_start l) got →
  l !! i = Some x → assign_leader_ndx ndx_start 0 got !! i = Some y → in_group ndx_start l x y.
Proof.
  intros H0 Hmax Hnone Hgot Hx Hy. destruct (assign_ok protocol ndx_start l i x Hx) as (s & Hs & Hok).
  destruct (Forall2_lookup_l _ _ _ _ _ Hgot Hs) as (g & Hg & Hidx & Hfirst).
  rewrite leader_ndx_lookup, Hg in Hy. cbn in Hy. injection Hy as <-.
  assert (Hw : ∀ j e, l !! j = Some e → wrap 32 (ndx_start + Z.of_nat j) = ndx_start + Z.of_nat j ∧
    ndx_start + Z.of_nat j ≠ u32_max).
  { intros j e Hj%lookup_lt_Some. unfold u32_max in *. split; [|lia]. apply wrap_small. unfold in_u. lia. }
  unfold sent_idx_ok, in_group in *. destruct (dev_ino_of x) as [di|].
  - destruct Hok as (j & Hj & Ej). exists j. split; [done|]. destruct (Hw i x Hx) as [Ewi _].
    destruct Hj as [(e & He & _) _]. destruct (Hw j e He) as [Ewj Hne].
    rewrite Hfirst, Ej in *. destruct (decide (j = i)) as [->|].
    + rewrite bool_decide_true by done. rewrite idx_set_idx. cbn. by rewrite Ewi.
    + rewrite bool_decide_false by congruence. by rewrite Hidx, Ewj.
  - subst s. assert (hardlink_idx x = None) as En by (by eapply (Forall_lookup_1 (λ e, hardlink_idx e = None))).
    rewrite Hfirst, En in *. rewrite bool_decide_false by done. done.
Qed.

Lemma leader_ndx_length ndx_start i l : length (assign_leader_ndx ndx_start i l) = length l.
Proof. revert i. induction l as [|e l IH]; intros i; cbn; [done|by rewrite IH]. Qed.

(** Sorting keeps the groups. *)
Lemma pairs_in_group protocol ndx_start l got pairs a x y :
  0 ≤ ndx_start → ndx_start + Z.of_nat (length l) ≤ u32_max → Forall (λ e, hardlink_idx e = None) l →
  Forall2 carried (assign_hardlink_indices protocol ndx_start l) got →
  pairs ≡ₚ zip l (assign_leader_ndx ndx_start 0 got) → pairs !! a = Some (x, y) → in_group ndx_start l x y.
Proof.
  intros H0 Hmax Hnone Hgot Hp Ha%list_elem_of_lookup_2. rewrite Hp in Ha. apply list_elem_of_lookup_1 in Ha as [i Hi].
  rewrite lookup_zip_with in Hi. destruct (l !! i) as [x'|] eqn:Ex; [|done].
  destruct (assign_leader_ndx ndx_start 0 got !! i) as [y'|] eqn:Ey; [|done]. injection Hi as -> ->.
  by eapply group_number.
Qed.

(** An entry leads exactly when no entry before it has its index. *)
Lemma lead_pairs (pairs : list (FileEntry * FileEntry)) final prior a x : lead pairs.*2 ∅ = (final, prior) →
  pairs.*1 !! a = Some x → ∃ y f, pairs !! a = Some (x, y) ∧ final !! a = Some f ∧
    hardlink_idx f = hardlink_idx y ∧ ∀ g, hardlink_idx y = Some g →
      (hlink_first f = true ↔ ∀ b z w, (b < a)%nat → pairs !! b = Some (z, w) → hardlink_idx w ≠ Some g).
Proof.
  intros Hlead Ha. apply list_lookup_fmap_Some in Ha as ([x' y] & -> & Ha).
  destruct (lead_lookup pairs.*2 ∅ final prior a y Hlead) as (f & Hf & Hi & Hl); [by rewrite list_lookup_fmap, Ha|].
  exists y, f. split_and!; [done..|]. intros g Hg. rewrite (Hl g Hg), lookup_empty. split.
  - intros [_ H] b z w Hb Hz. apply (H b w Hb). by rewrite list_lookup_fmap, Hz.
  - intros H. split; [done|]. intros b w Hb Hw. apply list_lookup_fmap_Some in Hw as ([z w'] & -> & Hw). by apply (H b z w').
Qed.

(** ** Groups before protocol 30 *)

(** The numbers by which an entry is grouped. *)
Definition link_key (e : FileEntry) : option (Z * Z) :=
  if is_file e then
    match hardlink_dev e, hardlink_ino e with Some dev, Some ino => Some (dev, ino) | _, _ => None end
  else None.

(** The places of the entries with the same numbers. *)
Fixpoint places (i : nat) (l : list FileEntry) (d : Z * Z) : list nat :=
  match l with
  | [] => []
  | e :: l => (if bool_decide (link_key e = Some d) then [i] else []) ++ places (S i) l d
  end.

Lemma elem_of_places i l d j : j ∈ places i l d ↔ (i ≤ j)%nat ∧ ∃ e, l !! (j - i)%nat = Some e ∧ link_key e = Some d.
Proof.
  revert i. induction l as [|e l IH]; intros i; cbn [places].
  { split; [by intros ?%elem_of_nil|naive_solver]. }
  rewrite elem_of_app, IH. destruct (decide (j = i)) as [->|Hne].
  - rewrite Nat.sub_diag. cbn. case_bool_decide as E.
    + split; [intros _; split; [lia|by exists e]|left; left].
    + split; [intros [[]%elem_of_nil|[? _]]; lia|naive_solver].
  - assert (j ∉ (if bool_decide (link_key e = Some d) then [i] else [])) as Hni.
    { case_bool_decide; [by intros ?%list_elem_of_singleton|apply not_elem_of_nil]. }
    split.
    + intros [?|[Hi H]]; [done|]. split; [lia|]. by replace (j - i)%nat with (S (j - S i)) by lia.
    + intros [Hi H]. right. split; [lia|]. by replace (j - i)%nat with (S (j - S i)) in H by lia.
Qed.

Lemma places_NoDup i l d : NoDup (places i l d).
Proof.
  revert i. induction l as [|e l IH]; intros i; cbn [places]; [constructor|]. case_bool_decide; [|apply IH].
  constructor; [|apply IH]. intros [? _]%elem_of_places. lia.
Qed.

Lemma group_places_ok i l groups d : default [] (group_places i l groups !! d) = default [] (groups !! d) ++ places i l d ∧
  (is_Some (group_places i l groups !! d) → is_Some (groups !! d) ∨ places i l d ≠ []).
Proof.
  revert i groups. induction l as [|e l IH]; intros i groups; cbn [group_places places].
  { rewrite app_nil_r. split; [done|by left]. }
  assert (E : ∃ groups', (if negb (is_file e) then groups
     else match hardlink_dev e, hardlink_ino e with
          | Some dev, Some ino => <[(dev, ino) := default [] (groups !! (dev, ino)) ++ [i]]> groups
          | _, _ => groups end) = groups' ∧
     default [] (groups' !! d) = default [] (groups !! d) ++ (if bool_decide (link_key e = Some d) then [i] else []) ∧
     (is_Some (groups' !! d) → is_Some (groups !! d) ∨ link_key e = Some d)).
  { eexists. split; [done|]. unfold link_key. destruct (is_file e); cbn [negb].
    2:{ rewrite bool_decide_false by done. rewrite app_nil_r. split; [done|by left]. }
    destruct (hardlink_dev e) as [dev|], (hardlink_ino e) as [ino|];
      try (rewrite bool_decide_false by done; rewrite app_nil_r; split; [done|by left]).
    destruct (decide ((dev, ino) = d)) as [<-|Hne].
    - rewrite lookup_insert_eq, bool_decide_true by done. split; [done|by right].
    - rewrite lookup_insert_ne, bool_decide_false by congruence. rewrite app_nil_r. split; [done|by left]. }
  destruct E as (groups' & -> & Ed & Es). destruct (IH (S i) groups') as [H1 H2]. split.
  - by rewrite H1, Ed, <-app_assoc.
  - intros [[?|Hk]%Es|Hp]%H2; [by left|right..].
    + by rewrite bool_decide_true.
    + intros [_ ?]%app_nil. done.
Qed.

Lemma mark_group_lookup gnum first indices entries j : NoDup indices →
  mark_group gnum first indices entries !! j =
    if decide (j ∈ indices) then mark_member gnum (first && bool_decide (head indices = Some j)) <$> entries !! j
    else entries !! j.
Proof.
  intros Hnd. revert first entries. induction Hnd as [|i indices Hi Hnd IH]; intros first entries; [done|].
  cbn [mark_group head]. rewrite IH, !list_lookup_alter. destruct (decide (j = i)) as [->|Hne].
  - rewrite (decide_False (P := i ∈ indices)) by done. rewrite decide_True by done.
    rewrite decide_True by left. by rewrite bool_decide_true, andb_true_r.
  - rewrite (decide_False (P := i = j)) by done. destruct (decide (j ∈ indices)) as [Hin|Hni].
    + rewrite decide_True by (by right). rewrite (bool_decide_false (Some i = Some j)) by congruence. by rewrite andb_false_r.
    + rewrite decide_False; [done|]. by intros [?|?]%elem_of_cons.
Qed.

Lemma normalize_group_lookup entries indices j : NoDup indices →
  normalize_group entries indices !! j =
    match indices with
    | i :: _ :: _ => if decide (j ∈ indices) then mark_member (wrap 32 (Z.of_nat i)) (bool_decide (i = j)) <$> entries !! j
                     else entries !! j
    | _ => entries !! j
    end.
Proof.
  intros Hnd. unfold normalize_group. destruct indices as [|i [|i' indices]]; [done..|].
  rewrite mark_group_lookup by done. cbn [head]. rewrite andb_true_l.
  by rewrite (bool_decide_ext (Some i = Some j) (i = j)) by naive_solver.
Qed.

(** Groups that do not meet are marked in any order. *)
Lemma normalize_groups_lookup gs entries j : Forall (@NoDup nat) gs → j ∉ concat gs →
  foldl normalize_group entries gs !! j = entries !! j.
Proof.
  revert entries. induction gs as [|g gs IH]; intros entries Hnd Hj; [done|]. cbn [foldl concat] in *.
  apply not_elem_of_app in Hj as [Hg Hgs]. inversion Hnd; subst. rewrite IH by done. rewrite normalize_group_lookup by done.
  destruct g as [|i [|i' g]]; [done..|]. by rewrite decide_False.
Qed.

Lemma normalize_one gs entries g j : Forall (@NoDup nat) gs → NoDup (concat gs) → g ∈ gs → j ∈ g →
  foldl normalize_group entries gs !! j = normalize_group entries g !! j.
Proof.
  revert entries. induction gs as [|h gs IH]; intros entries Hnd Hdis Hg Hj; [by apply elem_of_nil in Hg|].
  cbn [foldl concat] in *. inversion Hnd as [|?? Hh Hnd']; subst. apply NoDup_app in Hdis as (_ & Hx & Hdis).
  assert (Hin : ∀ g', g' ∈ gs → j ∈ g' → j ∈ concat gs).
  { intros g' Hg' Hj'. apply list_elem_of_In, in_concat. exists g'. by split; apply list_elem_of_In. }
  apply elem_of_cons in Hg as [->|Hg].
  - rewrite normalize_groups_lookup; [done..|]. by apply Hx.
  - rewrite IH by done. rewrite !normalize_group_lookup by (done || by eapply (Forall_forall (@NoDup nat))).
    assert (Hjh : j ∉ h) by (intros Hjh; by apply (Hx j Hjh), (Hin g)).
    assert (Eh : (match h with i :: _ :: _ => if decide (j ∈ h) then mark_member (wrap 32 (Z.of_nat i)) (bool_decide (i = j)) <$> entries !! j
                     else entries !! j | _ => entries !! j end) = entries !! j); [|by rewrite Eh].
    destruct h as [|i [|i' h]]; [done..|]. by rewrite decide_False.
Qed.

(** Whatever the order of the hash map, the members of each group of at least two files get
    the place of the first one as their index, and the first one leads; everything else stays. *)
Lemma old_links_grouped values l a x : (∀ m, values m ≡ₚ (map_to_list m).*2) → l !! a = Some x →
  normalize_pre30_hardlinks values l !! a = Some
    match d ← link_key x; Some (places 0 l d) with
    | Some (i :: _ :: _) => mark_member (wrap 32 (Z.of_nat i)) (bool_decide (i = a)) x
    | _ => x
    end.
Proof.
  intros Hv Ha. unfold normalize_pre30_hardlinks. set (G := group_places 0 l ∅). set (gs := values G).
  assert (HG : ∀ d js, G !! d = Some js → js = places 0 l d ∧ js ≠ []).
  { intros d js Hd. destruct (group_places_ok 0 l ∅ d) as [H1 H2]. fold G in H1, H2. rewrite Hd, lookup_empty in H1.
    cbn in H1. split; [done|]. destruct H2 as [[? H]|H]; [by rewrite Hd|by rewrite lookup_empty in H|congruence]. }
  assert (Hin : ∀ g, g ∈ gs ↔ ∃ d, G !! d = Some g).
  { intros g. unfold gs. rewrite Hv, list_elem_of_fmap. split.
    - intros ([d g'] & -> & H%elem_of_map_to_list). by exists d.
    - intros [d H]. exists (d, g). split; [done|]. by apply elem_of_map_to_list. }
  assert (Hnd : Forall (@NoDup nat) gs).
  { apply Forall_forall. intros g (d & [-> _]%HG)%Hin. apply places_NoDup. }
  assert (Hdis : NoDup (concat gs)).
  { unfold gs. rewrite Hv. pose proof (NoDup_map_to_list G) as Hm. clear -HG Hm.
    assert (Hall : Forall (λ p, p.2 = places 0 l p.1) (map_to_list G)).
    { apply Forall_forall. intros [d js] H%elem_of_map_to_list. by apply HG. }
    pose proof (NoDup_fst_map_to_list G) as Hf. induction (map_to_list G) as [|[d js] ps IH]; [constructor|].
    cbn in *. inversion Hall as [|?? Hp Hall']; inversion Hf as [|?? Hd Hf']; inversion Hm; subst. cbn in Hp. subst js.
    apply NoDup_app. split; [apply places_NoDup|]. split; [|by apply IH].
    intros j [_ (e & He & Hk)]%elem_of_places Hj. apply list_elem_of_In, in_concat in Hj as (js & His%list_elem_of_In & Hj%list_elem_of_In).
    apply list_elem_of_fmap in His as ([d' js'] & -> & Hp'). rewrite Forall_forall in Hall'. specialize (Hall' _ Hp'). cbn in *. subst js'.
    apply elem_of_places in Hj as [_ (e' & He' & Hk')]. apply Hd. apply list_elem_of_fmap.
    exists (d', places 0 l d'). cbn. split; [congruence|done]. }
  destruct (link_key x) as [d|] eqn:Ek; cbn [mbind option_bind].
  - assert (Hpl : a ∈ places 0 l d) by (apply elem_of_places; rewrite Nat.sub_0_r; split; [lia|eauto]).
    assert (Hg : places 0 l d ∈ gs).
    { apply Hin. exists d. destruct (group_places_ok 0 l ∅ d) as [H1 _]. fold G in H1. rewrite lookup_empty in H1. cbn in H1.
      destruct (G !! d) as [js|]; cbn in H1; [by rewrite H1|]. rewrite <-H1 in Hpl. by apply elem_of_nil in Hpl. }
    rewrite (normalize_one gs l (places 0 l d) a Hnd Hdis Hg Hpl), normalize_group_lookup by apply places_NoDup.
    rewrite Ha. destruct (places 0 l d) as [|i [|i' js]]; [done..|]. by rewrite decide_True.
  - rewrite normalize_groups_lookup; [done..|]. intros Hc. apply list_elem_of_In, in_concat in Hc as (g & Hg%list_elem_of_In & Hj%list_elem_of_In).
    apply Hin in Hg as (d & [-> _]%HG). apply elem_of_places in Hj as [_ (e & He & Hk)]. rewrite Nat.sub_0_r in He. congruence.
Qed.

(** ** Properties *)

(** C16: Hard links survive the transfer: the sender marks the first entry of each file and
    refers the others to it, and whatever order the receiver sorts the entries into, after
    matching two of them have the same group exactly when they were the same file on the
    sender, entries that were no links have no group, and the first of each group in the
    order of the receiver is its leader. *)
Theorem links_survive (protocol ndx_start : Z) (l got : list FileEntry) (pairs : list (FileEntry * FileEntry))
    (final : list FileEntry) (prior : gmap Z bool) :
  0 ≤ ndx_start → ndx_start + Z.of_nat (length l) ≤ u32_max → Forall (λ e, hardlink_idx e = None) l →
  Forall2 carried (assign_hardlink_indices protocol ndx_start l) got →
  pairs ≡ₚ zip l (assign_leader_ndx ndx_start 0 got) →
  match_hard_links pairs.*2 ∅ = (final, prior) →
  length final = length l ∧
  ∀ a x fa, pairs.*1 !! a = Some x → final !! a = Some fa →
    match dev_ino_of x with
    | None => hardlink_idx fa = None
    | Some di =>
        is_Some (hardlink_idx fa) ∧
        (∀ b y fb, pairs.*1 !! b = Some y → final !! b = Some fb →
           (hardlink_idx fb = hardlink_idx fa ↔ dev_ino_of y = Some di)) ∧
        (hlink_first fa = true ↔ ∀ b y, (b < a)%nat → pairs.*1 !! b = Some y → dev_ino_of y ≠ Some di)
    end.
Proof.
  intros H0 Hmax Hnone Hgot Hp. rewrite match_is_lead. intros Hlead. split.
  { pose proof (lead_length pairs.*2 ∅) as Hl. rewrite Hlead in Hl. cbn in Hl. rewrite Hl, length_fmap, Hp, length_zip.
    pose proof (Forall2_length _ _ _ Hgot) as Hg. unfold assign_hardlink_indices in Hg.
    rewrite assign_length in Hg. rewrite leader_ndx_length. lia. }
  intros a x fa Hx Hfa. destruct (lead_pairs _ _ _ _ _ Hlead Hx) as (y & f & Ha & Hf & Hi & Hl).
  assert (f = fa) as -> by congruence.
  assert (Hpair : ∀ b z w, pairs !! b = Some (z, w) → in_group ndx_start l z w) by (intros b z w; by eapply pairs_in_group).
  pose proof (Hpair a x y Ha) as Hxy. rewrite Hi. destruct (dev_ino_of x) as [di|] eqn:Ex.
  2:{ unfold in_group in Hxy. by rewrite Ex in Hxy. }
  destruct (in_group_same _ _ x y x y di Hxy Hxy Ex) as [[g Hg] _]. split; [done|]. split.
  - intros b z fb Hz Hfb. destruct (lead_pairs _ _ _ _ _ Hlead Hz) as (w & f' & Hb & Hf' & Hi' & _).
    assert (f' = fb) as -> by congruence. rewrite Hi'. eapply in_group_same; [done|by eapply Hpair|done].
  - rewrite (Hl _ Hg), <-Hg. split; intros H b z.
    + intros Hb Hz Ez. apply list_lookup_fmap_Some in Hz as ([z' w] & -> & Hz). apply (H b z' w Hb Hz).
      by apply (in_group_same _ _ x y z' w di Hxy (Hpair _ _ _ Hz) Ex).
    + intros w Hb Hz Ew. apply (H b z Hb); [by rewrite list_lookup_fmap, Hz|].
      by apply (in_group_same _ _ x y z w di Hxy (Hpair _ _ _ Hz) Ex).
Qed.

Definition linked_file (dev_ino : option (Z * Z)) : FileEntry :=
  let e := mkEntry [] [] 3 100 None 0 0 0 0x81a4 PRESENT_CONTENT_DIR in
  match dev_ino with
  | Some (dev, ino) => set_hardlink_ino ino (set_hardlink_dev dev e)
  | None => e
  end.
Definition linked_list : list FileEntry := [linked_file (Some (1, 5)); linked_file None; linked_file (Some (1, 5))].
Definition linked_got : list FileEntry :=
  (λ e, set_hlink_first (bool_decide (hardlink_idx e = Some u32_max)) e) <$> assign_hardlink_indices 31 1 linked_list.

Lemma links_survive_witness :
  ∃ a b c, match_hard_links (reverse (assign_leader_ndx 1 0 linked_got)) ∅ = ([a; b; c], {[1 := true]}) ∧
    hardlink_idx c = hardlink_idx a ∧ hlink_first a = true ∧ hardlink_idx b = None.
Proof.
  destruct (match_hard_links (reverse (assign_leader_ndx 1 0 linked_got)) ∅) as [final prior] eqn:E.
  destruct (links_survive 31 1 linked_list linked_got (reverse (zip linked_list (assign_leader_ndx 1 0 linked_got)))
              final prior) as [Hlen H].
  - lia.
  - done.
  - by repeat constructor.
  - by repeat constructor.
  - apply reverse_Permutation.
  - rewrite <-E. by vm_compute.
  - destruct final as [|a [|b [|c [|]]]]; try done. exists a, b, c.
    destruct (H 0%nat _ a eq_refl eq_refl) as (_ & Hsame & Hfirst). split_and!.
    + f_equal. apply (f_equal snd) in E. cbn in E. rewrite <-E. apply (bool_decide_unpack _). by vm_compute.
    + by apply (Hsame 2%nat (linked_file (Some (1, 5))) c).
    + apply Hfirst. intros n y Hn. lia.
    + exact (H 1%nat _ b eq_refl eq_refl).
Defined.
