(* ===== verification/IncRecurse.v ===== *)
(** * Incremental recursion on the sending side
      ([crates/transfer/src/generator/file_list/inc_recurse.rs], [segments.rs], [context.rs])

    With incremental recursion the sorted file list is cut into one list for the top level and
    one for each directory, which are sent depth first.  A list is announced by the index of
    its directory among all directories sent so far, and its entries are numbered from where
    the list before ended, with a gap of one.  The receiver counts directories on its own, so
    the transfer depends on both ends counting alike. *)

From S2P Require Import Prelude Wildmatch FilterWire FilterSet FilterParse DirTree FlistEntry FlistName.
From stdpp Require Import gmap sorting strings.

Local Open Scope nat_scope.

#[export] Instance byte_countable : Countable byte.
Proof. refine (inj_countable Byte.to_N Byte.of_N _). apply Byte.of_to_N. Defined.

(** ** Data *)

Record TaggedIndex := mkTagged { file_idx : nat; ti_node_id : option nat }.
Record DirSegment := mkDirSegment { ds_node_id : nat; ds_children : list TaggedIndex }.

Record PendingSegment := mkPending {
  parent_dir_ndx : Z;
  parent_flat_idx : Z;
  flist_start : nat;
  ps_count : nat;
}.

Record ClassificationResult := mkClassification {
  cl_initial_entries : list TaggedIndex;
  cl_segments : list DirSegment;
  cl_tree : DirectoryTree;
  cl_num_dirs : nat;
}.

(** The part of the context that the lists are kept in; a base is the directory that the name
    of the entry is looked up in. *)
Record IncrementalState := mkIncremental {
  pending_segments : list PendingSegment;
  initial_segment_count : option nat;
  ndx_segments : list (nat * Z);
  segment_parent_flat : list Z;
}.

Record GeneratorContext := mkGenerator {
  g_file_list : list FileEntry;
  g_source_bases : list (list byte);
  g_incremental : IncrementalState;
  g_inc_recurse : bool;
}.

Definition incremental_new (initial_ndx_start : Z) : IncrementalState :=
  mkIncremental [] None [(0, initial_ndx_start)] [(-1)%Z].

Definition usize_max : Z := (2 ^ 64 - 1)%Z.

(** ** Classification *)

(** The loop's variables; [dir_map] holds the node, the segment and the number of a
    directory. *)
Record Classifier := mkClassifier {
  k_tree : DirectoryTree;
  k_dir_map : gmap (list byte) (nat * nat * nat);
  k_initial : list TaggedIndex;
  k_segments : list DirSegment;
  k_counter : nat;
}.

(** A new directory below a node gets a number, a node, and a segment. *)
Definition new_directory (name : list byte) (parent : option nat) (k : Classifier)
    : option (nat * Classifier) :=
  let id := k_counter k in
  '(tree_handle, tree) ← add_directory (Z.of_nat id) name parent (k_tree k);
  Some (id, mkClassifier tree
              (<[name := (tree_handle, length (k_segments k), id)]> (k_dir_map k))
              (k_initial k) (k_segments k ++ [mkDirSegment id []]) (S id)).

Definition push_initial (t : TaggedIndex) (k : Classifier) : Classifier :=
  mkClassifier (k_tree k) (k_dir_map k) (k_initial k ++ [t]) (k_segments k) (k_counter k).

Definition push_child (seg_idx : nat) (t : TaggedIndex) (k : Classifier) : option Classifier :=
  seg ← k_segments k !! seg_idx;
  Some (mkClassifier (k_tree k) (k_dir_map k) (k_initial k)
          (<[seg_idx := mkDirSegment (ds_node_id seg) (ds_children seg ++ [t])]> (k_segments k))
          (k_counter k)).

Definition parent_name (name : list byte) : list byte := default [] (path_parent name).

Definition classify_entry (i : nat) (entry : FileEntry) (k : Classifier) : option Classifier :=
  let name := entry_name entry in
  let parent := parent_name name in
  if decide (parent = [] ∨ parent = DOT) then
    if is_dir entry && bool_decide (name ≠ DOT) then
      '(id, k) ← new_directory name None k;
      Some (push_initial (mkTagged i (Some id)) k)
    else Some (push_initial (mkTagged i None) k)
  else
    match k_dir_map k !! parent with
    | Some (handle, seg_idx, _) =>
        if is_dir entry then
          '(id, k) ← new_directory name (Some handle) k;
          push_child seg_idx (mkTagged i (Some id)) k
        else push_child seg_idx (mkTagged i None) k
    | None => Some (push_initial (mkTagged i None) k)
    end.

Fixpoint classify_loop (i : nat) (file_list : list FileEntry) (k : Classifier) : option Classifier :=
  match file_list with
  | [] => Some k
  | entry :: rest => k ← classify_entry i entry k; classify_loop (S i) rest k
  end.

Definition classify_file_list_entries (file_list : list FileEntry) : option ClassificationResult :=
  k ← classify_loop 0 file_list (mkClassifier tree_new ∅ [] [] 0);
  Some (mkClassification (k_initial k) (k_segments k) (k_tree k) (k_counter k)).

(** ** Reordering *)

(** [Option::take] on a slot, with [expect]. *)
Definition take_slot {A} (slots : list (option A)) (i : nat) : option (A * list (option A)) :=
  slot ← slots !! i;
  x ← slot;
  Some (x, <[i := None]> slots).

(** The variables of the reordering. *)
Record Reorder := mkReorder {
  r_entries : list (option FileEntry);
  r_bases : list (option (list byte));
  r_file_list : list FileEntry;
  r_source_bases : list (list byte);
  r_node_to_wire : list Z;
  r_node_to_flat : list Z;
  r_wire_dir_ndx : Z;
}.

(** Vec assignment; [None] is out of bounds. *)
Definition set_at {A} (i : nat) (x : A) (l : list A) : option (list A) :=
  if i <? length l then Some (<[i := x]> l) else None.

Definition move_entry (t : TaggedIndex) (r : Reorder) : option Reorder :=
  '(e, entries) ← take_slot (r_entries r) (file_idx t);
  '(b, bases) ← take_slot (r_bases r) (file_idx t);
  Some (mkReorder entries bases (r_file_list r ++ [e]) (r_source_bases r ++ [b])
          (r_node_to_wire r) (r_node_to_flat r) (r_wire_dir_ndx r)).

Fixpoint move_entries (ts : list TaggedIndex) (r : Reorder) : option Reorder :=
  match ts with
  | [] => Some r
  | t :: ts => r ← move_entry t r; move_entries ts r
  end.

(** A node gets the number of its directory and its place. *)
Definition number_node (nid : nat) (flat : nat) (r : Reorder) : option Reorder :=
  wire ← set_at nid (r_wire_dir_ndx r) (r_node_to_wire r);
  flats ← set_at nid (Z.of_nat flat) (r_node_to_flat r);
  Some (mkReorder (r_entries r) (r_bases r) (r_file_list r) (r_source_bases r) wire flats (r_wire_dir_ndx r)).

Definition next_wire (r : Reorder) : Reorder :=
  mkReorder (r_entries r) (r_bases r) (r_file_list r) (r_source_bases r) (r_node_to_wire r)
    (r_node_to_flat r) (swrap 32 (r_wire_dir_ndx r + 1)).

Fixpoint number_initial (i : nat) (initial : list TaggedIndex) (r : Reorder) : option Reorder :=
  match initial with
  | [] => Some r
  | t :: initial =>
      e ← r_file_list r !! i;
      if is_dir e then
        r ← match ti_node_id t with Some nid => number_node nid i r | None => Some r end;
        number_initial (S i) initial (next_wire r)
      else number_initial (S i) initial r
  end.

Fixpoint move_children (children : list TaggedIndex) (r : Reorder) : option Reorder :=
  match children with
  | [] => Some r
  | child :: children =>
      let child_flat := length (r_file_list r) in
      r ← move_entry child r;
      match ti_node_id child with
      | Some nid => r ← number_node nid child_flat r; move_children children (next_wire r)
      | None => move_children children r
      end
  end.

Fixpoint index_segments (seg_idx : nat) (segments : list DirSegment) (node_to_seg : list Z)
    : option (list Z) :=
  match segments with
  | [] => Some node_to_seg
  | seg :: segments =>
      node_to_seg ← set_at (ds_node_id seg) (Z.of_nat seg_idx) node_to_seg;
      index_segments (S seg_idx) segments node_to_seg
  end.

(** The traversal; it takes one step for each directory and one for the end. *)
Fixpoint build_pending (fuel : nat) (tree : DirectoryTree) (segments : list DirSegment)
    (node_to_seg : list Z) (r : Reorder) : option (list PendingSegment * Reorder) :=
  match fuel with
  | O => None
  | S fuel =>
      '(next, tree) ← next_directory tree;
      match next with
      | None => Some ([], r)
      | Some (node_id, _) =>
          let node_id := Z.to_nat node_id in
          seg_idx ← node_to_seg !! node_id;
          if (seg_idx =? usize_max)%Z then build_pending fuel tree segments node_to_seg r
          else
            seg ← segments !! Z.to_nat seg_idx;
            let start := length (r_file_list r) in
            r ← move_children (ds_children seg) r;
            parent_wire ← r_node_to_wire r !! node_id;
            parent_flat ← r_node_to_flat r !! node_id;
            '(pending, r) ← build_pending fuel tree segments node_to_seg r;
            Some (mkPending parent_wire parent_flat start (length (ds_children seg)) :: pending, r)
      end
  end.

(** The place of the root directory, which owns the first list. *)
Definition root_flat (file_list : list FileEntry) : Z :=
  match file_list with
  | e :: _ => if bool_decide (entry_name e = DOT) then 0 else -1
  | [] => -1
  end.

Definition reorder_and_build_segments (cr : ClassificationResult) (g : GeneratorContext)
    : option GeneratorContext :=
  let r := mkReorder (Some <$> g_file_list g) (Some <$> g_source_bases g) [] []
             (replicate (cl_num_dirs cr) (-1)%Z) (replicate (cl_num_dirs cr) usize_max) 0 in
  r ← move_entries (cl_initial_entries cr) r;
  r ← number_initial 0 (cl_initial_entries cr) r;
  node_to_seg ← index_segments 0 (cl_segments cr) (replicate (cl_num_dirs cr) usize_max);
  '(pending, r) ← build_pending (S (cl_num_dirs cr)) (cl_tree cr) (cl_segments cr) node_to_seg r;
  parent_flat ← set_at 0 (root_flat (r_file_list r)) (segment_parent_flat (g_incremental g));
  Some (mkGenerator (r_file_list r) (r_source_bases r)
          (mkIncremental pending (Some (length (cl_initial_entries cr)))
             (ndx_segments (g_incremental g)) parent_flat)
          (g_inc_recurse g)).

Definition partition_file_list_for_inc_recurse (g : GeneratorContext) : option GeneratorContext :=
  if negb (g_inc_recurse g) || bool_decide (g_file_list g = []) then Some g
  else
    classification ← classify_file_list_entries (g_file_list g);
    reorder_and_build_segments classification g.

(** ** What the classification finds *)

Definition child (k : Classifier) (s : nat) (t : TaggedIndex) : Prop :=
  ∃ seg, k_segments k !! s = Some seg ∧ t ∈ ds_children seg.

Definition all_tags (k : Classifier) : list TaggedIndex :=
  k_initial k ++ concat (ds_children <$> k_segments k).

(** The directories found among the entries [l]: [own] gives the entry of each number. *)
Record directories (l : list FileEntry) (own : list nat) (k : Classifier) : Prop := {
  d_tree : tree_ok (k_tree k);
  d_fresh : at_start (k_tree k);
  d_nodes : length (dt_nodes (k_tree k)) = S (k_counter k);
  d_segments : length (k_segments k) = k_counter k;
  d_own : length own = k_counter k;
  d_labels : ∀ id, id < k_counter k → ∃ path, labels (k_tree k) !! S id = Some (Z.of_nat id, path);
  d_ids : ∀ s seg, k_segments k !! s = Some seg → ds_node_id seg = s;
  d_dirs : ∀ id o, own !! id = Some o → ∃ d, l !! o = Some d ∧ is_dir d = true;
  d_map : ∀ name h s id, k_dir_map k !! name = Some (h, s, id) →
    h = S id ∧ s = id ∧ ∃ o d, own !! id = Some o ∧ l !! o = Some d ∧ entry_name d = name;
  d_count : k_counter k ≤ length l;
}.

(** Every entry has one place: in the first list, or in the list of the directory above it. *)
Record classified (l : list FileEntry) (own : list nat) (k : Classifier) : Prop := {
  c_dirs : directories l own k;
  c_child : ∀ s t, child k s t → ∃ e o d, l !! file_idx t = Some e ∧ own !! s = Some o ∧ l !! o = Some d ∧
    parent_name (entry_name e) = entry_name d ∧ entry_name d ≠ [] ∧ (is_dir e = true ↔ is_Some (ti_node_id t));
  c_initial : ∀ t, t ∈ k_initial k → ∃ e, l !! file_idx t = Some e ∧ (is_Some (ti_node_id t) → is_dir e = true);
  c_tags : file_idx <$> all_tags k ≡ₚ seq 0 (length l);
  c_owner : ∀ t id, t ∈ all_tags k → ti_node_id t = Some id → own !! id = Some (file_idx t);
  c_located : ∀ id o, own !! id = Some o →
    match parents (k_tree k) !! S id with
    | Some (Some 0) => mkTagged o (Some id) ∈ k_initial k
    | Some (Some (S p)) => child k p (mkTagged o (Some id))
    | _ => False
    end;
  c_order : StronglySorted lt (file_idx <$> k_initial k) ∧
    ∀ s seg, k_segments k !! s = Some seg → StronglySorted lt (file_idx <$> ds_children seg);
}.

Lemma lt_sorted_snoc (xs : list nat) y : StronglySorted lt xs → (∀ x, x ∈ xs → x < y) → StronglySorted lt (xs ++ [y]).
Proof.
  induction 1 as [|x xs Hs IH Hx]; intros Hy; cbn; [repeat constructor|].
  constructor; [apply IH; intros z Hz; apply Hy; by right|].
  apply Forall_app. split; [done|]. constructor; [|done]. apply Hy. left.
Qed.

Lemma lookup_snoc_weaken {A} (l : list A) i x y : l !! i = Some x → (l ++ [y]) !! i = Some x.
Proof. apply lookup_app_l_Some. Qed.

Lemma directories_weaken l own k e : directories l own k → directories (l ++ [e]) own k.
Proof.
  intros [H1 H2 H3 H4 H5 H6 H7 H8 H9 H10]. split; try done; [..|rewrite length_app; lia].
  - intros id o (d & Hd & ?)%H8. exists d. by rewrite (lookup_snoc_weaken _ _ _ _ Hd).
  - intros name h s id (-> & -> & o & d & Ho & Hd & ?)%H9. split_and!; [done..|].
    exists o, d. by rewrite (lookup_snoc_weaken _ _ _ _ Hd).
Qed.

(** A new directory below a known node. *)
Lemma new_directory_ok l own k e parent : directories l own k → is_dir e = true →
  default ROOT parent ≤ k_counter k →
  ∃ tree, new_directory (entry_name e) parent k =
      Some (k_counter k, mkClassifier tree
        (<[entry_name e := (S (k_counter k), k_counter k, k_counter k)]> (k_dir_map k))
        (k_initial k) (k_segments k ++ [mkDirSegment (k_counter k) []]) (S (k_counter k))) ∧
    parents tree = parents (k_tree k) ++ [Some (default ROOT parent)] ∧
    directories (l ++ [e]) (own ++ [length l]) (mkClassifier tree
        (<[entry_name e := (S (k_counter k), k_counter k, k_counter k)]> (k_dir_map k))
        (k_initial k) (k_segments k ++ [mkDirSegment (k_counter k) []]) (S (k_counter k))).
Proof.
  intros Hd He Hp. pose proof (directories_weaken _ _ _ e Hd) as [_ _ _ _ _ _ _ Hdirs Hmap _].
  destruct Hd as [Htree Hfr Hnodes Hsegs Hown Hlab Hids _ _ Hcount].
  destruct (add_directory_ok (Z.of_nat (k_counter k)) (entry_name e) parent (k_tree k) Htree ltac:(lia))
    as (tree & E & Hok & Eps & El & Hlen & Hfr').
  exists tree. unfold new_directory. rewrite E, Hnodes, Hsegs. cbn [mbind option_bind].
  split; [done|]. split; [done|].
  assert (Hlt : length (labels (k_tree k)) = S (k_counter k)) by (unfold labels; by rewrite length_fmap).
  split; cbn [k_tree k_dir_map k_segments k_counter]; [done|by apply Hfr'|lia|rewrite length_app; cbn; lia|rewrite length_app; cbn; lia|..].
  - intros id Hid. rewrite El. destruct (decide (id = k_counter k)) as [->|].
    + rewrite list_lookup_middle by lia. by eexists.
    + rewrite lookup_app_l by lia. apply Hlab. lia.
  - intros s seg [Hs|[Hge Hs]]%lookup_app_Some; [by apply Hids|].
    destruct (s - length (k_segments k)) as [|x] eqn:E'; [|done]. injection Hs as <-. cbn. lia.
  - intros id o [Ho|[_ Ho]]%lookup_app_Some; [by apply (Hdirs id)|].
    destruct (id - length own) as [|x]; [|done]. injection Ho as <-. exists e. by rewrite list_lookup_middle.
  - intros name h s id. destruct (decide (name = entry_name e)) as [->|Hne].
    + rewrite lookup_insert_eq. intros [= <- <- <-]. split_and!; [done..|]. exists (length l), e.
      rewrite !list_lookup_middle by lia. done.
    + rewrite lookup_insert_ne by done. intros (-> & -> & o & d & Ho & Hd' & ?)%Hmap. split_and!; [done..|].
      exists o, d. by rewrite (lookup_snoc_weaken _ _ _ _ Ho).
  - rewrite length_app. cbn. lia.
Qed.

(** From [k] to [k1] at most one directory is new, below [po]; it is the entry after [l]. *)
Record grown (l : list FileEntry) (own own1 : list nat) (k k1 : Classifier) (node po : option nat) : Prop := {
  g_initial : k_initial k1 = k_initial k;
  g_child : ∀ s t, child k1 s t ↔ child k s t;
  g_tags : all_tags k1 = all_tags k;
  g_segment : ∀ s seg, k_segments k1 !! s = Some seg → k_segments k !! s = Some seg ∨ ds_children seg = [];
  g_own : ∀ id o, own !! id = Some o → own1 !! id = Some o;
  g_parents : ∀ id o, own !! id = Some o → parents (k_tree k1) !! S id = parents (k_tree k) !! S id;
  g_node : ∀ id, node = Some id → own1 !! id = Some (length l);
  g_new : ∀ id o, own1 !! id = Some o → own !! id = Some o ∨
    (node = Some id ∧ o = length l ∧ parents (k_tree k1) !! S id = Some (Some (default ROOT po)));
}.

Lemma grown_refl l own k po : grown l own own k k None po.
Proof. split; try done; by left. Qed.

Lemma grown_new l own k tree m name id po : directories l own k → id = k_counter k →
  parents tree = parents (k_tree k) ++ [Some (default ROOT po)] →
  grown l own (own ++ [length l]) k
    (mkClassifier tree (<[name := m]> (k_dir_map k)) (k_initial k)
       (k_segments k ++ [mkDirSegment id []]) (S id)) (Some id) po.
Proof.
  intros Hd -> Eps. assert (Hlen : length (parents (k_tree k)) = S (k_counter k)).
  { unfold parents. rewrite length_fmap. apply Hd. }
  pose proof (d_own _ _ _ Hd) as Hown. split; cbn [k_initial k_tree].
  - done.
  - intros s t. unfold child. cbn [k_segments]. split; intros (seg & Hs & Ht); exists seg; (split; [|done]).
    + apply lookup_app_Some in Hs as [Hs|[_ Hs]]; [done|].
      destruct (s - _) as [|x]; [|done]. injection Hs as <-. by apply elem_of_nil in Ht.
    + by apply lookup_app_l_Some.
  - unfold all_tags. cbn [k_initial k_segments]. by rewrite fmap_app, concat_app, app_nil_r.
  - intros s seg. cbn [k_segments]. intros [Hs|[_ Hs]]%lookup_app_Some; [by left|right].
    destruct (s - _) as [|x]; [|done]. by injection Hs as <-.
  - intros i o. apply lookup_app_l_Some.
  - intros i o Ho%lookup_lt_Some. rewrite Eps. by rewrite lookup_app_l by lia.
  - intros i [= <-]. by rewrite list_lookup_middle.
  - intros i o [Ho|[Hge Ho]]%lookup_app_Some; [by left|right].
    destruct (i - length own) as [|x] eqn:E; [|done]. injection Ho as <-.
    assert (i = k_counter k) as -> by lia. split_and!; [done..|]. rewrite Eps. by rewrite list_lookup_middle.
Qed.

Lemma directories_segments l own k initial segments : directories l own k →
  length segments = length (k_segments k) →
  (∀ s seg, segments !! s = Some seg → ∃ seg0, k_segments k !! s = Some seg0 ∧ ds_node_id seg = ds_node_id seg0) →
  directories l own (mkClassifier (k_tree k) (k_dir_map k) initial segments (k_counter k)).
Proof.
  intros [H1 H2 H3 H4 H5 H6 H7 H8 H9 H10] Hlen Hids. split; try done; cbn [k_segments k_counter]; [lia|].
  intros s seg (seg0 & Hs & ->)%Hids. by apply H7.
Qed.

Section place.
Context (l : list FileEntry) (own own1 : list nat) (k k1 : Classifier) (node po : option nat) (e : FileEntry).
Context (Hc : classified l own k) (Hd : directories (l ++ [e]) own1 k1) (Hg : grown l own own1 k k1 node po).

Notation t := (mkTagged (length l) node).

Lemma old_child s t' : child k s t' → ∃ e' o d, (l ++ [e]) !! file_idx t' = Some e' ∧ own1 !! s = Some o ∧
  (l ++ [e]) !! o = Some d ∧ parent_name (entry_name e') = entry_name d ∧ entry_name d ≠ [] ∧
  (is_dir e' = true ↔ is_Some (ti_node_id t')).
Proof using Hc Hg.
  intros (e' & o & d & He & Ho & Hd' & H)%(c_child _ _ _ Hc). exists e', o, d.
  rewrite (lookup_snoc_weaken _ _ _ _ He), (lookup_snoc_weaken _ _ _ _ Hd'). by rewrite (g_own _ _ _ _ _ _ _ Hg _ _ Ho).
Qed.

Lemma old_initial t' : t' ∈ k_initial k → ∃ e', (l ++ [e]) !! file_idx t' = Some e' ∧ (is_Some (ti_node_id t') → is_dir e' = true).
Proof using Hc.
  intros (e' & He & H)%(c_initial _ _ _ Hc). exists e'. by rewrite (lookup_snoc_weaken _ _ _ _ He).
Qed.

Lemma tags_snoc k' : all_tags k' ≡ₚ t :: all_tags k → file_idx <$> all_tags k' ≡ₚ seq 0 (length (l ++ [e])).
Proof using Hc.
  intros ->. rewrite fmap_cons, (c_tags _ _ _ Hc), length_app. cbn [length]. rewrite seq_app. cbn [seq file_idx].
  rewrite Permutation_cons_append. done.
Qed.

Lemma owner_snoc k' t' id : all_tags k' ≡ₚ t :: all_tags k → t' ∈ all_tags k' → ti_node_id t' = Some id →
  own1 !! id = Some (file_idx t').
Proof using Hc Hg.
  intros Ht. rewrite Ht. intros [->|Hin]%elem_of_cons Hid.
  - by apply (g_node _ _ _ _ _ _ _ Hg).
  - apply (g_own _ _ _ _ _ _ _ Hg). by apply (c_owner _ _ _ Hc).
Qed.

Lemma old_tag_lt t' : t' ∈ all_tags k → file_idx t' < length l.
Proof using Hc.
  intros Ht. assert (file_idx t' ∈ file_idx <$> all_tags k) as Hin by (by apply list_elem_of_fmap_2).
  rewrite (c_tags _ _ _ Hc), elem_of_seq in Hin. lia.
Qed.

Lemma tags_sorted ts : StronglySorted lt (file_idx <$> ts) → ts ⊆ all_tags k →
  StronglySorted lt (file_idx <$> (ts ++ [t])).
Proof using Hc.
  intros Hs Hsub. rewrite fmap_app. apply lt_sorted_snoc; [done|].
  intros x (t' & -> & Ht')%list_elem_of_fmap. by apply old_tag_lt, Hsub.
Qed.

Lemma segment_sorted s seg : k_segments k1 !! s = Some seg →
  StronglySorted lt (file_idx <$> ds_children seg) ∧ ds_children seg ⊆ all_tags k.
Proof using Hc Hg.
  intros Hs. destruct (g_segment _ _ _ _ _ _ _ Hg _ _ Hs) as [Hs'| ->]; [|split; [constructor|by apply list_subseteq_nil]].
  split; [by eapply (c_order _ _ _ Hc)|]. intros t' Ht'. apply elem_of_app. right.
  apply list_elem_of_In, in_concat. exists (ds_children seg). split; apply list_elem_of_In; [|done].
  apply list_elem_of_fmap_2. by eapply list_elem_of_lookup_2.
Qed.

Lemma place_initial : (is_Some node → is_dir e = true) → (is_Some node → default ROOT po = 0) →
  classified (l ++ [e]) own1 (push_initial t k1).
Proof using Hc Hd Hg.
  intros He Hpo. assert (Htags : all_tags (push_initial t k1) ≡ₚ t :: all_tags k).
  { rewrite <-(g_tags _ _ _ _ _ _ _ Hg). unfold all_tags, push_initial. cbn [k_initial k_segments].
    rewrite <-app_assoc. symmetry. apply Permutation_middle. }
  split.
  - by apply directories_segments; [..|eauto].
  - intros s t' Ht'. apply old_child. by apply (g_child _ _ _ _ _ _ _ Hg).
  - cbn [k_initial push_initial]. rewrite (g_initial _ _ _ _ _ _ _ Hg).
    intros t' [Ht'| ->%list_elem_of_singleton]%elem_of_app; [by apply old_initial|].
    exists e. by rewrite list_lookup_middle.
  - by apply tags_snoc.
  - intros t' id. by apply owner_snoc.
  - intros id o Ho. cbn [k_tree k_initial push_initial]. rewrite (g_initial _ _ _ _ _ _ _ Hg).
    destruct (g_new _ _ _ _ _ _ _ Hg _ _ Ho) as [Ho'|(Hn & -> & ->)].
    + rewrite (g_parents _ _ _ _ _ _ _ Hg _ _ Ho'). pose proof (c_located _ _ _ Hc _ _ Ho') as Hl.
      destruct (parents (k_tree k) !! S id) as [[[|p]|]|]; [|by apply (g_child _ _ _ _ _ _ _ Hg) in Hl|done..].
      apply elem_of_app. by left.
    + rewrite Hpo by (by rewrite Hn). rewrite Hn. apply elem_of_app. right. by left.
  - split; cbn [k_initial k_segments push_initial].
    + rewrite (g_initial _ _ _ _ _ _ _ Hg). apply tags_sorted; [apply Hc|]. intros t' Ht'. apply elem_of_app. by left.
    + intros s seg Hs. by apply (segment_sorted s).
Qed.

Lemma place_child p o d : own !! p = Some o → l !! o = Some d → parent_name (entry_name e) = entry_name d →
  entry_name d ≠ [] → (is_dir e = true ↔ is_Some node) → (is_Some node → po = Some (S p)) →
  ∃ k', push_child p t k1 = Some k' ∧ classified (l ++ [e]) own1 k'.
Proof using Hc Hd Hg.
  intros Ho Hd' Hpar Hnil He Hpo. assert (Hlt : p < length (k_segments k1)).
  { rewrite (d_segments _ _ _ Hd), <-(d_own _ _ _ Hd). eapply lookup_lt_Some, (g_own _ _ _ _ _ _ _ Hg), Ho. }
  destruct (lookup_lt_is_Some_2 _ _ Hlt) as [seg Hseg]. unfold push_child. rewrite Hseg. cbn [mbind option_bind].
  eexists. split; [done|]. set (k' := mkClassifier _ _ _ _ _).
  assert (Hchild : ∀ s t', child k' s t' ↔ child k1 s t' ∨ (s = p ∧ t' = t)).
  { intros s t'. unfold child, k'. cbn [k_segments]. destruct (decide (s = p)) as [->|Hne].
    - rewrite list_lookup_insert_eq by done. rewrite Hseg. split.
      + intros (? & [= <-] & Ht). cbn in Ht. apply elem_of_app in Ht as [?| ->%list_elem_of_singleton]; [left; eauto|by right].
      + intros [(? & [= <-] & Ht)|[_ ->]]; (eexists; split; [done|]); cbn; apply elem_of_app; [by left|right; by left].
    - rewrite list_lookup_insert_ne by done. naive_solver. }
  assert (Htags : all_tags k' ≡ₚ t :: all_tags k).
  { rewrite <-(g_tags _ _ _ _ _ _ _ Hg). unfold all_tags, k'. cbn [k_initial k_segments].
    rewrite (Permutation_middle (k_initial k1)). f_equiv. rewrite list_fmap_insert. cbn [ds_children].
    rewrite <-(take_drop_middle _ _ _ Hseg) at 2. rewrite <-(list_insert_id _ _ _ Hseg) at 1.
    rewrite list_fmap_insert, list_insert_insert_eq, insert_take_drop by (by rewrite length_fmap).
    rewrite fmap_app, fmap_cons, !concat_app. cbn [concat]. rewrite fmap_take, fmap_drop.
    rewrite (Permutation_app_comm (ds_children seg) [t]). cbn [app]. symmetry. apply Permutation_middle. }
  split.
  - apply directories_segments; [done|by rewrite length_insert|]. intros s sg Hs.
    destruct (decide (s = p)) as [->|Hne]; [|rewrite list_lookup_insert_ne in Hs by done; eauto].
    rewrite list_lookup_insert_eq in Hs by done. injection Hs as <-. by exists seg.
  - intros s t' [Ht|[-> ->]]%Hchild; [apply old_child; by apply (g_child _ _ _ _ _ _ _ Hg)|].
    exists e, o, d. cbn [file_idx ti_node_id]. rewrite list_lookup_middle by done.
    rewrite (lookup_snoc_weaken _ _ _ _ Hd'), (g_own _ _ _ _ _ _ _ Hg _ _ Ho). done.
  - intros t'. cbn [k_initial k']. rewrite (g_initial _ _ _ _ _ _ _ Hg). apply old_initial.
  - by apply tags_snoc.
  - intros t' id. by apply owner_snoc.
  - intros id o' Ho'. cbn [k_tree k_initial k']. rewrite (g_initial _ _ _ _ _ _ _ Hg).
    destruct (g_new _ _ _ _ _ _ _ Hg _ _ Ho') as [Hold|(Hn & -> & ->)].
    + rewrite (g_parents _ _ _ _ _ _ _ Hg _ _ Hold). pose proof (c_located _ _ _ Hc _ _ Hold) as Hl.
      destruct (parents (k_tree k) !! S id) as [[[|q]|]|]; [done| |done..].
      apply Hchild. left. by apply (g_child _ _ _ _ _ _ _ Hg).
    + rewrite Hpo by (by rewrite Hn). cbn. apply Hchild. right. by rewrite Hn.
  - split; cbn [k_initial k_segments k']; [rewrite (g_initial _ _ _ _ _ _ _ Hg); apply Hc|].
    intros s sg Hs. destruct (decide (s = p)) as [->|Hne].
    + rewrite list_lookup_insert_eq in Hs by done. injection Hs as <-. by apply tags_sorted; eapply segment_sorted.
    + rewrite list_lookup_insert_ne in Hs by done. by apply (segment_sorted s).
Qed.

End place.

Lemma classify_entry_ok l own k e : classified l own k →
  ∃ own' k', classify_entry (length l) e k = Some k' ∧ classified (l ++ [e]) own' k'.
Proof.
  intros Hc. pose proof (c_dirs _ _ _ Hc) as Hd. pose proof (directories_weaken _ _ _ e Hd) as Hd'.
  unfold classify_entry. case_decide as Htop.
  - destruct (is_dir e && _) eqn:Hdir.
    + apply andb_true_iff in Hdir as [Hdir _].
      destruct (new_directory_ok l own k e None Hd Hdir ltac:(cbn; unfold ROOT; lia)) as (tree & -> & Eps & Hd1).
      cbn [mbind option_bind]. eexists _, _. split; [done|].
      by eapply place_initial; [done..|by apply grown_new| |].
    + exists own. eexists. split; [done|]. eapply (place_initial _ _ _ _ _ _ None); [done..|apply grown_refl| |]; by intros [].
  - destruct (k_dir_map k !! _) as [[[h seg] id]|] eqn:Em.
    + apply (d_map _ _ _ Hd) in Em as (-> & -> & o & d & Ho & Hod & Ename).
      destruct (is_dir e) eqn:Hdir.
      * assert (id < k_counter k) by (rewrite <-(d_own _ _ _ Hd); by eapply lookup_lt_Some).
        destruct (new_directory_ok l own k e (Some (S id)) Hd Hdir ltac:(cbn; lia)) as (tree & -> & Eps & Hd1).
        cbn [mbind option_bind]. eexists.
        eapply (place_child _ own); [done|done|by apply (grown_new _ _ _ _ _ _ _ (Some (S id)))|done|done|done|by rewrite Ename; intros ?; apply Htop; left| |done].
        split; [by intros _; eexists|done].
      * exists own. eapply (place_child _ own _ _ _ None None); [done|done|apply grown_refl|done|done|done|by rewrite Ename; intros ?; apply Htop; left| |by intros []].
        split; [congruence|by intros []].
    + exists own. eexists. split; [done|]. eapply (place_initial _ _ _ _ _ _ None); [done..|apply grown_refl| |]; by intros [].
Qed.

Lemma classified_start : classified [] [] (mkClassifier tree_new ∅ [] [] 0).
Proof.
  destruct tree_new_ok as [Hok Hst]. split; [split; cbn; try done; lia|..]; try done.
  - intros s t (seg & Hs & _). done.
  - intros t Ht. by apply elem_of_nil in Ht.
  - intros t id Ht. by apply elem_of_nil in Ht.
  - split; [constructor|done].
Qed.

Lemma classify_loop_ok rest l own k : classified l own k →
  ∃ own' k', classify_loop (length l) rest k = Some k' ∧ classified (l ++ rest) own' k'.
Proof.
  revert l own k. induction rest as [|e rest IH]; intros l own k Hc; cbn [classify_loop].
  { exists own, k. by rewrite app_nil_r. }
  destruct (classify_entry_ok l own k e Hc) as (own1 & k1 & -> & Hc1). cbn [mbind option_bind].
  destruct (IH _ _ _ Hc1) as (own' & k' & E & Hc'). rewrite length_app, Nat.add_1_r in E.
  exists own', k'. split; [done|]. by rewrite <-app_assoc in Hc'.
Qed.

Lemma classify_ok l : ∃ own k, classified l own k ∧ classify_file_list_entries l =
  Some (mkClassification (k_initial k) (k_segments k) (k_tree k) (k_counter k)).
Proof.
  destruct (classify_loop_ok l [] [] _ classified_start) as (own & k & E & Hc). exists own, k.
  split; [done|]. unfold classify_file_list_entries. cbn [length] in E. by rewrite E.
Qed.

(** ** What the reordering does *)

(** The number of directories before a place. *)
Definition dirs_before (fl : list FileEntry) (j : nat) : nat := length (List.filter is_dir (take j fl)).

Definition children_of (k : Classifier) (id : nat) : list TaggedIndex :=
  default [] (ds_children <$> k_segments k !! id).

Lemma dirs_before_S fl j e : fl !! j = Some e →
  dirs_before fl (S j) = dirs_before fl j + (if is_dir e then 1 else 0).
Proof.
  intros He. unfold dirs_before. rewrite (take_S_r _ _ _ He), List.filter_app, length_app. cbn.
  by destruct (is_dir e).
Qed.

Lemma dirs_before_app fl fl' j : j ≤ length fl → dirs_before (fl ++ fl') j = dirs_before fl j.
Proof. intros Hj. unfold dirs_before. by rewrite take_app_le. Qed.

Lemma dirs_before_bound fl j : dirs_before fl j ≤ length fl.
Proof.
  unfold dirs_before. etrans; [apply List.filter_length_le|]. rewrite length_take. lia.
Qed.

Lemma take_slot_ok {A} (slots : list (option A)) i x : slots !! i = Some (Some x) →
  take_slot slots i = Some (x, <[i := None]> slots).
Proof. intros E. unfold take_slot. by rewrite E. Qed.

Lemma set_at_ok {A} i (x : A) (v : list A) : i < length v → set_at i x v = Some (<[i := x]> v).
Proof. intros Hi. unfold set_at. by rewrite (proj2 (Nat.ltb_lt _ _)). Qed.

Lemma index_segments_ok segs s0 v : (∀ s seg, segs !! s = Some seg → ds_node_id seg = s0 + s) →
  s0 + length segs ≤ length v →
  ∃ v', index_segments s0 segs v = Some v' ∧
    (∀ id, s0 ≤ id < s0 + length segs → v' !! id = Some (Z.of_nat id)) ∧ (∀ id, id < s0 → v' !! id = v !! id).
Proof.
  revert s0 v. induction segs as [|seg segs IH]; intros s0 v Hids Hlen; cbn [index_segments length] in *.
  { exists v. split; [done|]. split; [lia|done]. }
  rewrite (Hids 0 seg eq_refl), Nat.add_0_r, set_at_ok by lia. cbn [mbind option_bind].
  destruct (IH (S s0) (<[s0 := Z.of_nat s0]> v)) as (v' & -> & H1 & H2).
  { intros s sg Hs. rewrite (Hids (S s) sg Hs). lia. }
  { rewrite length_insert. lia. }
  exists v'. split; [done|]. split; intros id Hid.
  - destruct (decide (id = s0)) as [->|]; [|apply H1; lia]. rewrite H2 by lia. apply list_lookup_insert_eq. lia.
  - rewrite H2 by lia. apply list_lookup_insert_ne. lia.
Qed.

Lemma pick_all {A} (xs : list A) : omap (λ i, xs !! i) (seq 0 (length xs)) = xs.
Proof.
  induction xs as [|x xs IH] using rev_ind; [done|]. rewrite length_app. cbn [length]. rewrite seq_app, omap_app.
  cbn. rewrite list_lookup_middle by done. f_equal. rewrite <-IH at 2. apply list_omap_ext, Forall2_same_length_lookup_2; [done|].
  intros k' i j Hi Hj. assert (i = j) as -> by congruence. apply lookup_seq in Hj. by rewrite lookup_app_l by lia.
Qed.

(** Entries at increasing indices keep their order. *)
Lemma picked_sublist {A} (xs ys : list A) idx : StronglySorted lt idx → Forall2 (λ i x, xs !! i = Some x) idx ys →
  ys `sublist_of` xs.
Proof.
  revert idx ys. induction xs as [|x xs IH]; intros idx ys Hs H.
  - destruct H as [|i y idx ys Hi]; [constructor|done].
  - destruct H as [|i y idx ys Hi H]; [constructor; apply sublist_nil_l|]. inversion Hs as [|?? Hs' Hlt]; subst.
    assert (Hshift : ∀ js zs, StronglySorted lt js → Forall (lt 0) js → Forall2 (λ i z, (x :: xs) !! i = Some z) js zs →
      zs `sublist_of` xs).
    { intros js zs Hj Hpos Hz. apply (IH (pred <$> js)).
      - clear Hz. induction Hj as [|j js Hj IHj Hlt']; [constructor|]. inversion Hpos; subst. cbn. constructor; [by apply IHj|].
        apply Forall_fmap. eapply Forall_impl; [apply Hlt'|]. cbn. intros z Hz. lia.
      - clear Hj. induction Hz as [|j z js zs Hz _ IHz]; [constructor|]. inversion Hpos; subst. constructor; [|by apply IHz].
        by destruct j; [lia|]. }
    destruct i as [|i].
    + cbn in Hi. injection Hi as ->. constructor. by apply (Hshift idx).
    + apply sublist_cons. apply (Hshift (S i :: idx)); [by constructor| |by constructor].
      constructor; [lia|]. eapply Forall_impl; [done|]. cbn. lia.
Qed.

Section reorder.
Context (l : list FileEntry) (bases : list (list byte)) (own : list nat) (k : Classifier).
Context (Hc : classified l own k) (Hbases : length bases = length l) (Hsmall : (Z.of_nat (length l) < 2 ^ 31)%Z).

(** The entries and bases at the tags [placed] have been moved, in this order. *)
Record moved (placed : list TaggedIndex) (r : Reorder) : Prop := {
  m_list : Forall2 (λ t e, l !! file_idx t = Some e) placed (r_file_list r);
  m_bases : Forall2 (λ t b, bases !! file_idx t = Some b) placed (r_source_bases r);
  m_entries : ∀ i e, l !! i = Some e → i ∉ file_idx <$> placed → r_entries r !! i = Some (Some e);
  m_rest : ∀ i b, bases !! i = Some b → i ∉ file_idx <$> placed → r_bases r !! i = Some (Some b);
}.

(** The directories among the first [m] entries have their numbers. *)
Record numbered (placed : list TaggedIndex) (m : nat) (r : Reorder) : Prop := {
  n_wire : r_wire_dir_ndx r = Z.of_nat (dirs_before (r_file_list r) m);
  n_nodes : ∀ j t id, j < m → placed !! j = Some t → ti_node_id t = Some id →
    r_node_to_flat r !! id = Some (Z.of_nat j) ∧
    r_node_to_wire r !! id = Some (Z.of_nat (dirs_before (r_file_list r) j));
  n_flats : length (r_node_to_flat r) = k_counter k;
  n_wires : length (r_node_to_wire r) = k_counter k;
}.

Lemma moved_length placed r : moved placed r → length (r_file_list r) = length placed.
Proof. intros Hm. symmetry. eapply Forall2_length, m_list, Hm. Qed.

Lemma move_entry_ok placed t e r : moved placed r → file_idx t ∉ file_idx <$> placed → l !! file_idx t = Some e →
  ∃ r', move_entry t r = Some r' ∧ moved (placed ++ [t]) r' ∧ r_file_list r' = r_file_list r ++ [e] ∧
    r_node_to_wire r' = r_node_to_wire r ∧ r_node_to_flat r' = r_node_to_flat r ∧ r_wire_dir_ndx r' = r_wire_dir_ndx r.
Proof using Hbases.
  intros [H1 H2 H3 H4] Hnew He. destruct (lookup_lt_is_Some_2 bases (file_idx t)) as [b Hb].
  { rewrite Hbases. by eapply lookup_lt_Some. }
  unfold move_entry. rewrite (take_slot_ok _ _ _ (H3 _ _ He Hnew)). cbn [mbind option_bind].
  rewrite (take_slot_ok _ _ _ (H4 _ _ Hb Hnew)). cbn [mbind option_bind].
  eexists. split; [done|]. split; [|done].
  split; cbn [r_file_list r_source_bases r_entries r_bases].
  - apply Forall2_app; [done|]. by constructor.
  - apply Forall2_app; [done|]. by constructor.
  - intros i e' Hi. rewrite fmap_app, not_elem_of_app. cbn. intros [Hni Hne%not_elem_of_cons].
    rewrite list_lookup_insert_ne by naive_solver. by apply H3.
  - intros i b' Hi. rewrite fmap_app, not_elem_of_app. cbn. intros [Hni Hne%not_elem_of_cons].
    rewrite list_lookup_insert_ne by naive_solver. by apply H4.
Qed.

Lemma move_entries_ok ts placed r : moved placed r → NoDup (file_idx <$> (placed ++ ts)) →
  Forall (λ t, file_idx t < length l) ts →
  ∃ r', move_entries ts r = Some r' ∧ moved (placed ++ ts) r' ∧
    r_node_to_wire r' = r_node_to_wire r ∧ r_node_to_flat r' = r_node_to_flat r ∧ r_wire_dir_ndx r' = r_wire_dir_ndx r.
Proof using Hbases.
  revert placed r. induction ts as [|t ts IH]; intros placed r Hm Hnd Hts.
  { exists r. by rewrite app_nil_r. }
  inversion Hts as [|?? Ht Hts']; subst. destruct (lookup_lt_is_Some_2 l _ Ht) as [e He].
  destruct (move_entry_ok placed t e r Hm) as (r1 & E & Hm1 & _ & E1 & E2 & E3); [|done|].
  { rewrite fmap_app, fmap_cons in Hnd. apply NoDup_app in Hnd as (_ & Hd & _). intros Hin. apply (Hd _ Hin). left. }
  cbn [move_entries]. rewrite E. cbn [mbind option_bind].
  destruct (IH (placed ++ [t]) r1 Hm1) as (r' & E' & Hm' & ? & ? & ?); [by rewrite <-app_assoc|done|].
  rewrite <-app_assoc in Hm'. exists r'. split_and!; [done..|congruence|congruence|congruence].
Qed.

(** A node is numbered once. *)
Lemma node_once placed i j t t' id : NoDup (file_idx <$> placed) → placed ⊆ all_tags k →
  placed !! i = Some t → placed !! j = Some t' → ti_node_id t = Some id → ti_node_id t' = Some id → i = j.
Proof using Hc Hbases.
  intros Hnd Hsub Hi Hj Hti Htj. apply (NoDup_lookup (file_idx <$> placed) i j (file_idx t)); [done|..];
    rewrite list_lookup_fmap; [by rewrite Hi|]. rewrite Hj. cbn. f_equal.
  pose proof (c_owner _ _ _ Hc t id (Hsub _ (list_elem_of_lookup_2 _ _ _ Hi)) Hti).
  pose proof (c_owner _ _ _ Hc t' id (Hsub _ (list_elem_of_lookup_2 _ _ _ Hj)) Htj). congruence.
Qed.

Lemma number_plain placed m t e r : numbered placed m r → placed !! m = Some t → r_file_list r !! m = Some e →
  is_dir e = false → ti_node_id t = None → numbered placed (S m) r.
Proof.
  intros [H1 H2 H3 H4] Ht He Hd Hn. split; [|intros j t' id Hj Ht' Hid|done..].
  - rewrite H1, (dirs_before_S _ _ _ He), Hd. f_equal. lia.
  - apply (H2 j t' id); [|done..]. assert (j ≠ m) by congruence. lia.
Qed.

Lemma number_dir placed m t e r : numbered placed m r → moved placed r → NoDup (file_idx <$> placed) →
  placed ⊆ all_tags k → placed !! m = Some t → r_file_list r !! m = Some e → is_dir e = true →
  ∃ r1, match ti_node_id t with Some nid => number_node nid m r | None => Some r end = Some r1 ∧
    numbered placed (S m) (next_wire r1) ∧ moved placed (next_wire r1) ∧ r_file_list r1 = r_file_list r.
Proof using Hc Hsmall Hbases.
  intros Hn Hm Hnd Hsub Ht He Hd. pose proof Hn as [H1 H2 H3 H4].
  assert (Hwire : swrap 32 (r_wire_dir_ndx r + 1) = Z.of_nat (dirs_before (r_file_list r) (S m))).
  { pose proof (dirs_before_bound (r_file_list r) (S m)) as Hb. pose proof (moved_length _ _ Hm).
    rewrite (dirs_before_S _ _ _ He), Hd in Hb |- *. rewrite H1, swrap_small; [lia..|].
    assert (length placed ≤ length l).
    { pose proof (Permutation_length (c_tags _ _ _ Hc)) as Hpl. rewrite length_fmap, length_seq in Hpl. rewrite <-Hpl.
      apply submseteq_length, NoDup_submseteq; [by eapply NoDup_fmap_1|done]. }
    unfold in_i. cbn. lia. }
  destruct (ti_node_id t) as [id|] eqn:Hid.
  - assert (Hlt : id < k_counter k).
    { rewrite <-(d_own _ _ _ (c_dirs _ _ _ Hc)). eapply lookup_lt_Some, (c_owner _ _ _ Hc t); [|done].
      by eapply Hsub, list_elem_of_lookup_2. }
    unfold number_node. rewrite !set_at_ok by lia. cbn [mbind option_bind]. eexists. split; [done|].
    split_and!; [|by destruct Hm|done].
    split; cbn [r_wire_dir_ndx next_wire r_file_list r_node_to_wire r_node_to_flat]; [done| |by rewrite length_insert..].
    intros j t' id' Hj Ht' Hid'. destruct (decide (j = m)) as [->|Hne].
    + assert (id' = id) as -> by congruence. rewrite !list_lookup_insert_eq by lia. by rewrite H1.
    + assert (id ≠ id') by (intros ->; apply Hne; by eapply node_once).
      rewrite !list_lookup_insert_ne by done. apply (H2 j t'); [lia|done..].
  - eexists. split; [done|]. split_and!; [|by destruct Hm|done].
    split; cbn [r_wire_dir_ndx next_wire r_file_list r_node_to_wire r_node_to_flat]; [done| |done..].
    intros j t' id' Hj Ht' Hid'. apply (H2 j t'); [|done..]. assert (j ≠ m) by congruence. lia.
Qed.

Lemma number_initial_ok placed m ts r : placed = take m placed ++ ts → m + length ts = length placed →
  moved placed r → numbered placed m r → NoDup (file_idx <$> placed) → placed ⊆ k_initial k →
  ∃ r', number_initial m ts r = Some r' ∧ moved placed r' ∧ numbered placed (length placed) r'.
Proof using Hc Hsmall Hbases.
  revert m r. induction ts as [|t ts IH]; intros m r Hsplit Hlen Hm Hn Hnd Hsub.
  { exists r. cbn in Hlen. replace (length placed) with m by lia. done. }
  cbn in Hlen. assert (Ht : placed !! m = Some t).
  { rewrite Hsplit. rewrite list_lookup_middle; [done|]. rewrite length_take. lia. }
  destruct (lookup_lt_is_Some_2 (r_file_list r) m) as [e He]; [rewrite (moved_length _ _ Hm); lia|].
  assert (Hle : l !! file_idx t = Some e) by (by destruct (Forall2_lookup_lr _ _ _ _ _ _ (m_list _ _ Hm) Ht He)).
  destruct (c_initial _ _ _ Hc t) as (e' & He' & Hnode); [by eapply Hsub, list_elem_of_lookup_2|].
  assert (e' = e) as -> by congruence. cbn [number_initial]. rewrite He. cbn [mbind option_bind].
  assert (Hsplit' : placed = take (S m) placed ++ ts).
  { rewrite (take_S_r _ _ _ Ht), <-app_assoc. done. }
  assert (Hsub' : placed ⊆ all_tags k) by (intros x Hx; apply elem_of_app; left; by apply Hsub).
  destruct (is_dir e) eqn:Hd.
  - destruct (number_dir placed m t e r) as (r1 & -> & Hn1 & Hm1 & _); [done..|]. cbn [mbind option_bind].
    apply IH; [done|lia|done..].
  - apply IH; [done|lia|done| |done..]. eapply number_plain; [done..|].
    destruct (ti_node_id t); [|done]. by discriminate Hnode.
Qed.

Lemma move_children_ok children id placed r : moved placed r → numbered placed (length placed) r →
  NoDup (file_idx <$> (placed ++ children)) → placed ++ children ⊆ all_tags k → Forall (child k id) children →
  ∃ r', move_children children r = Some r' ∧ moved (placed ++ children) r' ∧
    numbered (placed ++ children) (length (placed ++ children)) r'.
Proof using Hc Hsmall Hbases.
  revert placed r. induction children as [|t ts IH]; intros placed r Hm Hn Hnd Hsub Hch.
  { exists r. by rewrite app_nil_r. }
  inversion Hch as [|?? Ht Hts]; subst.
  destruct (c_child _ _ _ Hc _ _ Ht) as (e & o & d & He & _ & _ & _ & _ & Hdir).
  assert (Hnew : file_idx t ∉ file_idx <$> placed).
  { rewrite fmap_app, fmap_cons in Hnd. apply NoDup_app in Hnd as (_ & Hx & _). intros Hin. apply (Hx _ Hin). left. }
  destruct (move_entry_ok placed t e r Hm Hnew He) as (r1 & E & Hm1 & Efl & E1 & E2 & E3).
  cbn [move_children]. rewrite E. cbn [mbind option_bind]. rewrite (moved_length _ _ Hm).
  rewrite cons_middle, app_assoc in Hnd, Hsub |- *. set (placed1 := placed ++ [t]) in *.
  assert (Hnd1 : NoDup (file_idx <$> placed1)) by (rewrite fmap_app in Hnd; by apply NoDup_app in Hnd as (? & _)).
  assert (Hsub1 : placed1 ⊆ all_tags k) by (intros x Hx; apply Hsub, elem_of_app; by left).
  assert (Hlen1 : length placed1 = S (length placed)) by (unfold placed1; rewrite length_app; cbn; lia).
  assert (Ht1 : placed1 !! length placed = Some t) by (by apply list_lookup_middle).
  assert (He1 : r_file_list r1 !! length placed = Some e).
  { rewrite Efl. apply list_lookup_middle. by rewrite (moved_length _ _ Hm). }
  assert (Hn1 : numbered placed1 (length placed) r1).
  { destruct Hn as [H1 H2 H3 H4]. pose proof (moved_length _ _ Hm).
    split; rewrite ?E1, ?E2, ?E3, ?Efl; [by rewrite dirs_before_app by lia| |done..].
    intros j t' nid Hj Ht'. rewrite dirs_before_app by lia. apply H2; [done|].
    unfold placed1 in Ht'. by rewrite lookup_app_l in Ht' by lia. }
  destruct (is_dir e) eqn:Hd.
  - destruct (number_dir placed1 (length placed) t e r1) as (r2 & Er & Hn2 & Hm2 & _); [done..|].
    destruct (proj1 Hdir eq_refl) as [nid Enid]. rewrite Enid in Er |- *. rewrite Er. cbn [mbind option_bind].
    rewrite <-Hlen1 in Hn2. apply IH; done.
  - destruct (ti_node_id t) eqn:Enid; [by discriminate (proj2 Hdir (ex_intro _ _ eq_refl))|].
    apply IH; [done| |done..]. rewrite Hlen1. by eapply number_plain.
Qed.

Lemma moved_extends placed more r r' : moved placed r → moved (placed ++ more) r' →
  ∃ fl, r_file_list r' = r_file_list r ++ fl.
Proof.
  intros [H1 _ _ _] [H2 _ _ _]. apply Forall2_app_inv_l in H2 as (fl1 & fl2 & Ha & _ & ->).
  exists fl2. f_equal. clear -H1 Ha. revert Ha. generalize fl1. induction H1 as [|t e ts es Ht _ IH]; intros fl1' Ha.
  - by inversion Ha.
  - inversion Ha as [|? e' ? es' He' Hs]; subst. f_equal; [congruence|by apply IH].
Qed.

(** The segments follow each other without a gap. *)
Fixpoint tiles (start : nat) (pending : list PendingSegment) (end_ : nat) : Prop :=
  match pending with
  | [] => start = end_
  | p :: pending => flist_start p = start ∧ tiles (start + ps_count p) pending end_
  end.

(** A segment names its directory by its place and its number, and holds what is below it. *)
Definition announced (placed : list TaggedIndex) (fl : list FileEntry) (id : nat) (p : PendingSegment) : Prop :=
  ∃ j t, placed !! j = Some t ∧ ti_node_id t = Some id ∧ j < flist_start p ∧
    parent_flat_idx p = Z.of_nat j ∧ parent_dir_ndx p = Z.of_nat (dirs_before fl j) ∧
    take (ps_count p) (drop (flist_start p) placed) = children_of k id.

Notation order := (remaining (k_tree k)).
Definition placed_after (visited : list nat) : list TaggedIndex :=
  k_initial k ++ concat ((λ n, children_of k (pred n)) <$> visited).

Lemma order_perm : order ≡ₚ seq 1 (k_counter k).
Proof using Hc Hbases.
  pose proof (c_dirs _ _ _ Hc) as Hd. pose proof (ok_ordered _ (ok_nodes _ (d_tree _ _ _ Hd))) as Hord.
  pose proof (preorder_complete _ Hord) as Hp. fold (parents (k_tree k)) in Hp.
  rewrite (remaining_at_start _ (d_tree _ _ _ Hd) (d_fresh _ _ _ Hd)) in Hp.
  unfold parents in Hp. rewrite length_fmap, (d_nodes _ _ _ Hd) in Hp. cbn [seq] in Hp.
  by apply Permutation_cons_inv in Hp.
Qed.

Lemma all_placed : placed_after order ≡ₚ all_tags k.
Proof using Hc Hbases.
  unfold placed_after, all_tags. f_equiv. rewrite order_perm.
  assert (E : (λ n, children_of k (pred n)) <$> seq 1 (k_counter k) = ds_children <$> k_segments k); [|by rewrite E].
  apply list_eq. intros i. rewrite !list_lookup_fmap. pose proof (d_segments _ _ _ (c_dirs _ _ _ Hc)) as Hlen.
  destruct (k_segments k !! i) as [seg|] eqn:E.
  - rewrite lookup_seq_lt by (apply lookup_lt_Some in E; lia). cbn. unfold children_of. by rewrite E.
  - rewrite lookup_seq_ge by (apply lookup_ge_None in E; lia). done.
Qed.

Lemma placed_NoDup visited rest : order = visited ++ rest → NoDup (file_idx <$> placed_after visited).
Proof using Hc Hbases.
  intros E. pose proof all_placed as Ha. rewrite E in Ha. unfold placed_after in Ha |- *.
  rewrite fmap_app, concat_app, app_assoc in Ha.
  assert (Hnd : NoDup (file_idx <$> all_tags k)) by (rewrite (c_tags _ _ _ Hc); apply NoDup_seq).
  rewrite <-Ha, fmap_app in Hnd. by apply NoDup_app in Hnd as (? & _).
Qed.

Lemma placed_sub visited rest : order = visited ++ rest → placed_after visited ⊆ all_tags k.
Proof using Hc Hbases.
  intros E x Hx. rewrite <-all_placed, E. unfold placed_after in *. rewrite fmap_app, concat_app, app_assoc.
  apply elem_of_app. by left.
Qed.

Lemma placed_snoc visited id : placed_after (visited ++ [S id]) = placed_after visited ++ children_of k id.
Proof. unfold placed_after. rewrite fmap_app, concat_app, app_assoc. cbn. by rewrite app_nil_r. Qed.

(** When a directory is visited, it is in a list already. *)
Lemma parent_placed visited id rest : order = visited ++ S id :: rest →
  ∃ j t, placed_after visited !! j = Some t ∧ ti_node_id t = Some id.
Proof using Hc Hbases.
  intros E. pose proof (c_dirs _ _ _ Hc) as Hd. pose proof (ok_ordered _ (ok_nodes _ (d_tree _ _ _ Hd))) as Hord.
  fold (parents (k_tree k)) in Hord. assert (Hlen : length (parents (k_tree k)) = S (k_counter k)).
  { unfold parents. rewrite length_fmap. apply Hd. }
  pose proof (remaining_at_start _ (d_tree _ _ _ Hd) (d_fresh _ _ _ Hd)) as Hr.
  rewrite E in Hr. destruct (parent_before _ Hord 0 (S id) (0 :: visited) rest ltac:(lia) Hr ltac:(lia)) as (p & Hp & Hin).
  assert (Hid : S id ∈ order) by (rewrite E; apply elem_of_app; right; left).
  rewrite order_perm, elem_of_seq in Hid.
  destruct (lookup_lt_is_Some_2 own id) as [o Ho]; [rewrite (d_own _ _ _ Hd); lia|].
  pose proof (c_located _ _ _ Hc id o Ho) as Hloc. rewrite Hp in Hloc.
  assert (mkTagged o (Some id) ∈ placed_after visited) as [j Hj]%list_elem_of_lookup_1; [|by eexists _, _].
  unfold placed_after. apply elem_of_app. destruct p as [|p]; [by left|right].
  apply elem_of_cons in Hin as [?|Hin]; [done|]. destruct Hloc as (seg & Hseg & Ht).
  apply list_elem_of_In, in_concat. exists (children_of k p). split; apply list_elem_of_In.
  - apply list_elem_of_fmap. by exists (S p).
  - unfold children_of. by rewrite Hseg.
Qed.

Lemma children_child id : Forall (child k id) (children_of k id).
Proof.
  unfold children_of. destruct (k_segments k !! id) as [seg|] eqn:E; cbn; [|constructor].
  apply Forall_forall. intros t Ht. by exists seg.
Qed.

Lemma build_pending_ok node_to_seg fuel tree visited r :
  (∀ id, id < k_counter k → node_to_seg !! id = Some (Z.of_nat id)) →
  length (remaining tree) < fuel → tree_ok tree → labels tree = labels (k_tree k) →
  order = visited ++ remaining tree →
  moved (placed_after visited) r → numbered (placed_after visited) (length (placed_after visited)) r →
  ∃ pending r', build_pending fuel tree (k_segments k) node_to_seg r = Some (pending, r') ∧
    moved (placed_after order) r' ∧
    Forall2 (announced (placed_after order) (r_file_list r')) (pred <$> remaining tree) pending ∧
    tiles (length (placed_after visited)) pending (length (placed_after order)).
Proof using Hc Hsmall Hbases.
  intros Hseg. revert tree visited r. induction fuel as [|fuel IH]; intros tree visited r Hf Hok Hlab Hord Hm Hn; [lia|].
  cbn [build_pending]. destruct (next_directory_ok tree Hok) as (o & tree1 & -> & Hok1 & _ & El & Hrem).
  cbn [mbind option_bind]. destruct (remaining tree) as [|n rest] eqn:Er.
  { subst o. exists [], r. rewrite app_nil_r in Hord. subst visited. by split_and!; [..|constructor|]. }
  destruct Hrem as (-> & _ & Hrem). pose proof (c_dirs _ _ _ Hc) as Hd.
  assert (Hn' : n ∈ order) by (rewrite Hord; apply elem_of_app; right; left).
  rewrite order_perm, elem_of_seq in Hn'. destruct n as [|id]; [lia|].
  destruct (d_labels _ _ _ Hd id ltac:(lia)) as [path Hpath]. rewrite Hlab, Hpath. rewrite Nat2Z.id.
  rewrite Hseg by lia. cbn [mbind option_bind].
  pose proof (d_count _ _ _ Hd).
  rewrite (proj2 (Z.eqb_neq _ _)) by (unfold usize_max; lia). rewrite Nat2Z.id.
  destruct (lookup_lt_is_Some_2 (k_segments k) id) as [seg Hs]; [rewrite (d_segments _ _ _ Hd); lia|].
  rewrite Hs. cbn [mbind option_bind]. assert (Ech : ds_children seg = children_of k id) by (unfold children_of; by rewrite Hs).
  rewrite Ech. assert (Hord' : order = (visited ++ [S id]) ++ rest) by (by rewrite <-app_assoc).
  destruct (move_children_ok (children_of k id) id (placed_after visited) r) as (r1 & -> & Hm1 & Hn1); [done|done|..].
  { rewrite <-placed_snoc. by eapply placed_NoDup. }
  { rewrite <-placed_snoc. by eapply placed_sub. }
  { apply children_child. }
  rewrite <-placed_snoc in Hm1, Hn1. cbn [mbind option_bind].
  destruct (parent_placed visited id rest Hord) as (j & t & Hj & Hid). pose proof (lookup_lt_Some _ _ _ Hj) as Hjlt.
  assert (Hlen1 : length (placed_after (visited ++ [S id])) = length (placed_after visited) + length (children_of k id)).
  { by rewrite placed_snoc, length_app. }
  destruct (n_nodes _ _ _ Hn1 j t id ltac:(lia)) as [-> ->]; [rewrite placed_snoc; by apply lookup_app_l_Some|done|].
  cbn [mbind option_bind].
  destruct (IH tree1 (visited ++ [S id]) r1) as (pending & r' & -> & Hm' & Hann & Htile);
    [rewrite Hrem; cbn in Hf; lia|done|congruence|by rewrite Hrem|done|done|].
  cbn [mbind option_bind]. eexists _, _. split; [done|]. split; [done|]. rewrite Hrem in Hann.
  assert (∃ more, placed_after order = placed_after visited ++ children_of k id ++ more) as [more Hmore].
  { rewrite Hord'. unfold placed_after. rewrite fmap_app, concat_app, (app_assoc (k_initial k)).
    fold (placed_after (visited ++ [S id])). rewrite placed_snoc, <-app_assoc. by eexists. }
  split; [|cbn [tiles flist_start ps_count]; rewrite (moved_length _ _ Hm); split; [done|by rewrite <-Hlen1]].
  constructor; [|done]. exists j, t. cbn [flist_start parent_flat_idx parent_dir_ndx ps_count pred].
  rewrite (moved_length _ _ Hm). split_and!; [|done|done|done|..].
  - rewrite Hmore. by apply lookup_app_l_Some.
  - rewrite Hmore, app_assoc, <-placed_snoc in Hm'. destruct (moved_extends _ _ _ _ Hm1 Hm') as [fl ->].
    rewrite dirs_before_app; [done|]. rewrite (moved_length _ _ Hm1). lia.
  - by rewrite Hmore, drop_app_length, take_app_length.
Qed.

Lemma moved_initial : moved [] (mkReorder (Some <$> l) (Some <$> bases) [] []
  (replicate (k_counter k) (-1)%Z) (replicate (k_counter k) usize_max) 0).
Proof.
  split; cbn; [constructor..| |]; intros i x Hx _; by rewrite list_lookup_fmap, Hx.
Qed.

Lemma reorder_ok g : g_file_list g = l → g_source_bases g = bases → segment_parent_flat (g_incremental g) ≠ [] →
  ∃ g' r, reorder_and_build_segments (mkClassification (k_initial k) (k_segments k) (k_tree k) (k_counter k)) g = Some g' ∧
    g_file_list g' = r_file_list r ∧ g_source_bases g' = r_source_bases r ∧ moved (placed_after order) r ∧
    initial_segment_count (g_incremental g') = Some (length (k_initial k)) ∧
    ndx_segments (g_incremental g') = ndx_segments (g_incremental g) ∧
    segment_parent_flat (g_incremental g') = <[0 := root_flat (g_file_list g')]> (segment_parent_flat (g_incremental g)) ∧
    tiles (length (k_initial k)) (pending_segments (g_incremental g')) (length (g_file_list g')) ∧
    Forall2 (announced (placed_after order) (g_file_list g')) (pred <$> order) (pending_segments (g_incremental g')).
Proof using Hc Hsmall Hbases.
  intros Hl Hb Hroot. unfold reorder_and_build_segments. cbn [cl_initial_entries cl_segments cl_tree cl_num_dirs].
  rewrite Hl, Hb. pose proof (placed_NoDup [] order eq_refl) as Hnd. pose proof (placed_sub [] order eq_refl) as Hsub.
  assert (E0 : placed_after [] = k_initial k) by (unfold placed_after; cbn; by rewrite app_nil_r).
  rewrite E0 in Hnd, Hsub. pose proof (c_dirs _ _ _ Hc) as Hd.
  destruct (move_entries_ok (k_initial k) [] _ moved_initial) as (r1 & -> & Hm1 & E1 & E2 & E3); [done|..].
  { apply Forall_forall. intros t Ht. destruct (c_initial _ _ _ Hc t Ht) as (e & He & _). by eapply lookup_lt_Some. }
  cbn [mbind option_bind app] in *.
  destruct (number_initial_ok (k_initial k) 0 (k_initial k) r1) as (r2 & -> & Hm2 & Hn2); [done|done|done| |done|done|].
  { split; rewrite ?E1, ?E2, ?E3; cbn; [done|lia|by rewrite length_replicate..]. }
  cbn [mbind option_bind].
  destruct (index_segments_ok (k_segments k) 0 (replicate (k_counter k) usize_max)) as (nts & -> & Hnts & _).
  { intros s seg. apply (d_ids _ _ _ Hd). }
  { rewrite length_replicate, (d_segments _ _ _ Hd). lia. }
  cbn [mbind option_bind]. pose proof (Permutation_length order_perm) as Hlen. rewrite length_seq in Hlen.
  destruct (build_pending_ok nts (S (k_counter k)) (k_tree k) [] r2) as (pending & r' & -> & Hm' & Hann & Htile);
    [|lia|apply Hd|done|done|by rewrite E0..|].
  { intros id Hid. apply Hnts. rewrite (d_segments _ _ _ Hd). lia. }
  cbn [mbind option_bind]. rewrite set_at_ok by (destruct (segment_parent_flat _); [done|cbn; lia]). cbn [mbind option_bind].
  eexists _, r'. split; [done|]. cbn [g_file_list g_source_bases g_incremental initial_segment_count ndx_segments pending_segments].
  rewrite E0 in Htile. split_and!; try done. by rewrite (moved_length _ _ Hm').
Qed.

Lemma moved_pairs ts fl bs : Forall2 (λ t e, l !! file_idx t = Some e) ts fl →
  Forall2 (λ t b, bases !! file_idx t = Some b) ts bs →
  zip fl bs = omap (λ i, zip l bases !! i) (file_idx <$> ts).
Proof.
  intros H. revert bs. induction H as [|t e ts fl He _ IH]; intros bs Hb; inversion Hb as [|? b ? bs' Hb' Hbs]; subst; [done|].
  cbn. rewrite lookup_zip_with, He, Hb'. cbn. by rewrite (IH bs').
Qed.

Lemma moved_all r : moved (placed_after order) r → zip (r_file_list r) (r_source_bases r) ≡ₚ zip l bases.
Proof using Hc Hbases.
  intros [H1 H2 _ _]. rewrite (moved_pairs _ _ _ H1 H2), all_placed, (c_tags _ _ _ Hc).
  assert (Hlen : length l = length (zip l bases)) by (rewrite length_zip; lia). rewrite Hlen. by rewrite pick_all.
Qed.

End reorder.

(** ** The lists that are sent *)

Definition dirs_of (fl : list FileEntry) : list FileEntry := List.filter is_dir fl.

(** The entries of a segment. *)
Definition segment_entries (fl : list FileEntry) (p : PendingSegment) : list FileEntry :=
  take (ps_count p) (drop (flist_start p) fl).

(** The list of a directory [d]: the receiver has [d] among its directories under the number in
    the header when the list arrives, and the list holds entries directly below it, in the
    order of the whole list [l]. *)
Record segment_ok (l fl : list FileEntry) (p : PendingSegment) : Prop := {
  seg_parent : ∃ j d, parent_flat_idx p = Z.of_nat j ∧ fl !! j = Some d ∧ is_dir d = true ∧
    parent_dir_ndx p = Z.of_nat (dirs_before fl j) ∧
    dirs_of (take (flist_start p) fl) !! dirs_before fl j = Some d ∧ (segment_entries fl p ≠ [] → entry_name d ≠ []) ∧
    Forall (λ e, parent_name (entry_name e) = entry_name d) (segment_entries fl p);
  seg_order : segment_entries fl p `sublist_of` l;
}.

Lemma dirs_before_lookup fl j d n : fl !! j = Some d → is_dir d = true → j < n →
  dirs_of (take n fl) !! dirs_before fl j = Some d.
Proof.
  intros Hj Hd Hn. unfold dirs_of, dirs_before.
  rewrite <-(take_drop_middle (take n fl) j d) by (by rewrite lookup_take_lt).
  rewrite take_take, Nat.min_l by lia. rewrite List.filter_app. cbn. rewrite Hd. by apply list_lookup_middle.
Qed.

Lemma dirs_before_inj fl i j d e : fl !! i = Some d → fl !! j = Some e → is_dir d = true → is_dir e = true →
  dirs_before fl i = dirs_before fl j → i = j.
Proof.
  assert (Hlt : ∀ i j d, fl !! i = Some d → is_dir d = true → i < j → dirs_before fl i < dirs_before fl j).
  { intros i' j' d' Hi Hd Hij. unfold dirs_before at 2. rewrite <-(take_drop_middle (take j' fl) i' d')
      by (by rewrite lookup_take_lt).
    rewrite take_take, Nat.min_l by lia. rewrite List.filter_app, length_app. cbn. rewrite Hd. cbn.
    unfold dirs_before. lia. }
  intros Hi Hj Hd He E. destruct (Nat.lt_trichotomy i j) as [H|[H|H]]; [|done|].
  - specialize (Hlt _ _ _ Hi Hd H). lia.
  - specialize (Hlt _ _ _ Hj He H). lia.
Qed.

Lemma tiles_in start pending end_ p : tiles start pending end_ → p ∈ pending → flist_start p + ps_count p ≤ end_.
Proof.
  assert (Hle : ∀ pending start, tiles start pending end_ → start ≤ end_).
  { induction pending0 as [|q qs IH]; intros s; cbn; [lia|]. intros [_ H%IH]. lia. }
  revert start. induction pending as [|q pending IH]; intros start Ht Hp; [by apply elem_of_nil in Hp|].
  destruct Ht as [<- Ht]. apply elem_of_cons in Hp as [->|Hp]; [by apply (Hle pending)|by eapply IH].
Qed.

Section sent.
Context (l : list FileEntry) (own : list nat) (k : Classifier) (fl : list FileEntry).
Context (Hc : classified l own k).
Notation placed := (placed_after k (remaining (k_tree k))).
Context (Hfl : Forall2 (λ t e, l !! file_idx t = Some e) placed fl) (Hbound : placed ⊆ all_tags k).

(** An announced directory is a directory of the list. *)
Lemma announced_dir id p : announced k placed fl id p → ∃ j t d o, placed !! j = Some t ∧ fl !! j = Some d ∧
  is_dir d = true ∧ own !! id = Some o ∧ l !! o = Some d ∧ ti_node_id t = Some id ∧ parent_flat_idx p = Z.of_nat j ∧
  j < flist_start p ∧ parent_dir_ndx p = Z.of_nat (dirs_before fl j).
Proof using Hc Hfl Hbound.
  intros (j & t & Hj & Hid & Hlt & Ef & Ed & _).
  pose proof (c_owner _ _ _ Hc t id (Hbound _ (list_elem_of_lookup_2 _ _ _ Hj)) Hid) as Ho.
  destruct (d_dirs _ _ _ (c_dirs _ _ _ Hc) _ _ Ho) as (d & Hd & Hdir).
  destruct (Forall2_lookup_l _ _ _ _ _ Hfl Hj) as (d' & Hj' & Hd'). assert (d' = d) as -> by congruence.
  by exists j, t, d, (file_idx t).
Qed.

Lemma announced_ok id p : announced k placed fl id p → segment_ok l fl p.
Proof using Hc Hfl Hbound.
  intros Ha. destruct (announced_dir id p Ha) as (j & t & d & o & Hj & Hd & Hdir & Ho & Hod & Hid & Ef & Hlt & Ed).
  destruct Ha as (_ & _ & _ & _ & _ & _ & _ & Ech).
  assert (Hts : Forall2 (λ t e, l !! file_idx t = Some e) (children_of k id) (segment_entries fl p)).
  { rewrite <-Ech. by apply Forall2_take, Forall2_drop. }
  split.
  - assert (Hbelow : ∀ x e, segment_entries fl p !! x = Some e →
      parent_name (entry_name e) = entry_name d ∧ entry_name d ≠ []).
    { intros x e He. destruct (Forall2_lookup_r _ _ _ _ _ Hts He) as (t' & Ht' & He').
      assert (Hct : child k id t') by (eapply Forall_lookup_1; [apply children_child|done]).
      destruct (c_child _ _ _ Hc _ _ Hct) as (e' & o' & d' & Hle' & Ho' & Hd' & Hpar & Hnil & _).
      assert (e' = e) as -> by congruence. by assert (d' = d) as -> by congruence. }
    exists j, d. split_and!; try done; [by apply dirs_before_lookup| |].
    + intros Hne. destruct (segment_entries fl p) as [|e es]; [done|]. by apply (Hbelow 0 e).
    + apply Forall_lookup. intros x e He. by apply (Hbelow x).
  - apply (picked_sublist l _ (file_idx <$> children_of k id)); [|by apply Forall2_fmap_l].
    unfold children_of. destruct (k_segments k !! id) as [seg|] eqn:E; [by eapply (c_order _ _ _ Hc)|constructor].
Qed.

Lemma announced_inj id id' p p' : announced k placed fl id p → announced k placed fl id' p' →
  parent_dir_ndx p = parent_dir_ndx p' → id = id'.
Proof using Hc Hfl Hbound.
  intros (j & t & d & o & Hj & Hd & Hdir & _ & _ & Hid & _ & _ & Ed)%announced_dir
    (j' & t' & d' & o' & Hj' & Hd' & Hdir' & _ & _ & Hid' & _ & _ & Ed')%announced_dir E.
  assert (j = j') as -> by (eapply dirs_before_inj; [done..|lia]). congruence.
Qed.

Lemma announced_distinct ids pending : NoDup ids → Forall2 (announced k placed fl) ids pending →
  NoDup (parent_dir_ndx <$> pending).
Proof using Hc Hfl Hbound.
  intros Hnd H. induction H as [|id p ids pending Ha H IH]; cbn; [constructor|]. inversion Hnd as [|?? Hni Hnd']; subst.
  constructor; [|by apply IH]. intros (p' & E & Hp')%list_elem_of_fmap.
  apply list_elem_of_lookup_1 in Hp' as [i Hp']. destruct (Forall2_lookup_r _ _ _ _ _ H Hp') as (id' & Hid' & Ha').
  rewrite (announced_inj _ _ _ _ Ha Ha' E) in Hni. apply Hni. by eapply list_elem_of_lookup_2.
Qed.

End sent.

(** [g'] is [g] with its list cut into segments. *)
Record partitioned (g g' : GeneratorContext) (n0 : nat) : Prop := {
  pt_moved : zip (g_file_list g') (g_source_bases g') ≡ₚ zip (g_file_list g) (g_source_bases g);
  pt_length : length (g_source_bases g') = length (g_file_list g');
  pt_initial : initial_segment_count (g_incremental g') = Some n0;
  pt_first : take n0 (g_file_list g') `sublist_of` g_file_list g;
  pt_tiles : tiles n0 (pending_segments (g_incremental g')) (length (g_file_list g'));
  pt_distinct : NoDup (parent_dir_ndx <$> pending_segments (g_incremental g'));
  pt_segments : Forall (segment_ok (g_file_list g) (g_file_list g')) (pending_segments (g_incremental g'));
  pt_ndx : ndx_segments (g_incremental g') = ndx_segments (g_incremental g);
  pt_root : segment_parent_flat (g_incremental g') =
    <[0 := root_flat (g_file_list g')]> (segment_parent_flat (g_incremental g));
}.

Lemma partition_ok (g : GeneratorContext) :
  g_inc_recurse g = true → g_file_list g ≠ [] → length (g_source_bases g) = length (g_file_list g) →
  (Z.of_nat (length (g_file_list g)) < 2 ^ 31)%Z → segment_parent_flat (g_incremental g) ≠ [] →
  ∃ g' n0, partition_file_list_for_inc_recurse g = Some g' ∧ partitioned g g' n0.
Proof.
  intros Hinc Hne Hb Hsmall Hroot. unfold partition_file_list_for_inc_recurse.
  rewrite Hinc, bool_decide_false by done. cbn [negb orb].
  destruct (classify_ok (g_file_list g)) as (own & k & Hc & ->). cbn [mbind option_bind].
  destruct (reorder_ok _ _ own k Hc Hb Hsmall g eq_refl eq_refl Hroot)
    as (g' & r & E & Efl & Ebs & Hm & Hn0 & Hndx & Hrt & Htile & Hann).
  exists g', (length (k_initial k)). pose proof (m_list _ _ _ _ Hm) as Hfl. rewrite <-Efl in Hfl.
  pose proof (placed_sub _ _ own k Hc Hb _ [] (eq_sym (app_nil_r _))) as Hsub.
  split; [done|]. split; [|..|done|done].
  - rewrite Efl, Ebs. by eapply moved_all.
  - rewrite Efl, Ebs. pose proof (m_bases _ _ _ _ Hm) as Hbs. rewrite <-(Forall2_length _ _ _ Hbs). symmetry. by eapply moved_length.
  - done.
  - apply (picked_sublist _ _ (file_idx <$> k_initial k)); [apply Hc|]. apply Forall2_fmap_l.
    pose proof (Forall2_take _ _ _ (length (k_initial k)) Hfl) as H. unfold placed_after in H. by rewrite take_app_length in H.
  - done.
  - eapply announced_distinct; [done|done|done| |done].
    pose proof (order_perm _ _ own k Hc Hb) as Hp. rewrite Hp. rewrite <-fmap_S_seq, <-list_fmap_compose. cbn.
    rewrite list_fmap_id. apply NoDup_seq.
  - apply Forall_lookup. intros i p Hp. destruct (Forall2_lookup_r _ _ _ _ _ Hann Hp) as (id & _ & Ha).
    by eapply announced_ok.
Qed.

(** Fewer lists than entries. *)
Lemma pending_few g g' n0 : partitioned g g' n0 →
  length (pending_segments (g_incremental g')) ≤ length (g_file_list g').
Proof.
  intros H. rewrite <-(length_fmap parent_dir_ndx).
  assert (Hin : ∀ x, x ∈ (Z.to_nat <$> (parent_dir_ndx <$> pending_segments (g_incremental g'))) →
    x ∈ seq 0 (length (g_file_list g'))).
  { intros x Hx. apply list_elem_of_fmap in Hx as (z & -> & (p & -> & Hp)%list_elem_of_fmap).
    pose proof (pt_segments _ _ _ H) as Hs. rewrite Forall_forall in Hs. destruct (seg_parent _ _ _ (Hs p Hp))
      as (j & d & _ & _ & _ & -> & Hd & _). apply elem_of_seq. apply lookup_lt_Some in Hd. unfold dirs_of in Hd.
    pose proof (List.filter_length_le is_dir (take (flist_start p) (g_file_list g'))) as Hl. rewrite length_take in Hl. lia. }
  rewrite <-(length_fmap Z.to_nat). rewrite <-(length_seq (length (g_file_list g')) 0).
  apply submseteq_length, NoDup_submseteq; [|done]. apply NoDup_fmap_2_strong; [|apply (pt_distinct _ _ _ H)].
  intros x y (p & -> & Hp)%list_elem_of_fmap (q & -> & Hq)%list_elem_of_fmap.
  pose proof (pt_segments _ _ _ H) as Hs. rewrite Forall_forall in Hs.
  destruct (seg_parent _ _ _ (Hs p Hp)) as (j & d & _ & _ & _ & -> & _).
  destruct (seg_parent _ _ _ (Hs q Hq)) as (j' & d' & _ & _ & _ & -> & _). lia.
Qed.

Lemma partitioned_length g g' n0 : partitioned g g' n0 → length (g_source_bases g) = length (g_file_list g) →
  length (g_file_list g') = length (g_file_list g).
Proof.
  intros H Hb. pose proof (Permutation_length (pt_moved _ _ _ H)) as E. rewrite !length_zip in E.
  pose proof (pt_length _ _ _ H). lia.
Qed.

(** ** Properties *)

(** C15: Partitioning the list for incremental recursion loses nothing and announces every
    directory under the number that the receiver gives it: no index is out of bounds, entries
    and bases are moved together, the first list and the lists of the directories follow each
    other without a gap, no directory is announced twice, and each list holds entries
    directly below a directory that was sent in a list before it, at the announced number
    among all directories sent until then; within each list the entries keep the order of the
    sorted list. *)
Theorem partition_aligned (g : GeneratorContext) :
  g_inc_recurse g = true → g_file_list g ≠ [] → length (g_source_bases g) = length (g_file_list g) →
  (Z.of_nat (length (g_file_list g)) < 2 ^ 31)%Z → segment_parent_flat (g_incremental g) ≠ [] →
  ∃ g' n0, partition_file_list_for_inc_recurse g = Some g' ∧ partitioned g g' n0.
Proof. apply partition_ok. Qed.

Definition tree_entry (dir : bool) (name : string) : FileEntry :=
  mkEntry (bytes name) (parent_name (bytes name)) 0 100 None 0 0 0 (if dir then 0x41ed else 0x81a4)%Z PRESENT_CONTENT_DIR.

Definition tree_list : list FileEntry :=
  [tree_entry true "."; tree_entry false "f"; tree_entry true "a"; tree_entry false "a/x"; tree_entry true "a/c";
   tree_entry false "a/c/y"; tree_entry true "b"; tree_entry false "b/z"].

Definition tree_generator : GeneratorContext :=
  mkGenerator tree_list ((λ _, bytes "/src") <$> tree_list) (incremental_new 1) true.

Lemma partition_aligned_witness :
  ∃ g' n0, partition_file_list_for_inc_recurse tree_generator = Some g' ∧
    entry_name <$> g_file_list g' =
      (bytes <$> ["."; "f"; "a"; "b"; "a/x"; "a/c"; "a/c/y"; "b/z"]%string) ∧
    pending_segments (g_incremental g') = [mkPending 1 2 4 2; mkPending 3 5 6 1; mkPending 2 3 7 1] ∧
    tiles n0 (pending_segments (g_incremental g')) (length (g_file_list g')).
Proof.
  destruct (partition_aligned tree_generator) as (g' & n0 & E & H);
    [reflexivity|discriminate|reflexivity|reflexivity|discriminate|].
  exists g', n0. pose proof (pt_tiles _ _ _ H) as Ht.
  assert (En : (λ g, entry_name <$> g_file_list g) <$> partition_file_list_for_inc_recurse tree_generator =
    Some (bytes <$> ["."; "f"; "a"; "b"; "a/x"; "a/c"; "a/c/y"; "b/z"]%string)) by (vm_compute; reflexivity).
  assert (Ep : (λ g, pending_segments (g_incremental g)) <$> partition_file_list_for_inc_recurse tree_generator =
    Some [mkPending 1 2 4 2; mkPending 3 5 6 1; mkPending 2 3 7 1]) by (vm_compute; reflexivity).
  rewrite E in En, Ep. cbn [fmap option_fmap option_map] in En, Ep. injection En as En. injection Ep as Ep.
  split; [exact E|]. split; [exact En|]. split; [exact Ep|exact Ht].
Defined.
