(* ===== verification/IncSend.v ===== *)
(** * Sending the lists of the directories ([crates/transfer/src/generator/segments.rs],
      [generator/protocol_io.rs], [generator/context.rs], [generator/transfer/transfer_loop.rs])

    After the first list the transfer loop sends the lists of the directories: a scheduler
    holds them back while the receiver still has enough to do, each is announced by an index
    below [NDX_FLIST_OFFSET], and a table keeps where each starts in the list and which index
    its first entry has. *)

From S2P Require Import Prelude Wildmatch FilterWire Ndx FlistEntry FlistWire IncRecurse.

Local Open Scope nat_scope.

(** ** The scheduler *)

Definition MIN_FILECNT_LOOKAHEAD : nat := 1000.

Record SegmentScheduler := mkScheduler { ss_segments : list PendingSegment; ss_cursor : nat }.

Definition scheduler_new (segments : list PendingSegment) : SegmentScheduler := mkScheduler segments 0.

(** The outer [None] is an index out of bounds. *)
Definition next_if_needed (remaining_in_current : nat) (s : SegmentScheduler)
    : option (option PendingSegment * SegmentScheduler) :=
  if length (ss_segments s) <=? ss_cursor s then Some (None, s)
  else if remaining_in_current <? MIN_FILECNT_LOOKAHEAD then
    seg ← ss_segments s !! ss_cursor s;
    Some (Some seg, mkScheduler (ss_segments s) (S (ss_cursor s)))
  else Some (None, s).

Definition scheduler_remaining (s : SegmentScheduler) : list PendingSegment := drop (ss_cursor s) (ss_segments s).
Definition is_exhausted (s : SegmentScheduler) : bool := length (ss_segments s) <=? ss_cursor s.

(** ** Segments on the wire *)

Definition NDX_FLIST_OFFSET : Z := -101.

(** What sending changes: the context, the writer of the list, the state of the indices. *)
Record Sending := mkSending {
  sn_ctx : GeneratorContext;
  sn_writer : FileListWriter;
  sn_codec : NdxCodecEnum;
  sn_flist_eof_sent : bool;
}.

(** The index of the first entry of a segment that starts at [flat_start]. *)
Definition segment_ndx_start (prev : nat * Z) (flat_start : nat) : Z :=
  let prev_used := swrap 32 (Z.of_nat flat_start - Z.of_nat prev.1) in
  swrap 32 (swrap 32 (prev.2 + prev_used) + 1).

Definition push_segment (seg : PendingSegment) (ndx_start : Z) (g : GeneratorContext) : GeneratorContext :=
  let i := g_incremental g in
  mkGenerator (g_file_list g) (g_source_bases g)
    (mkIncremental (pending_segments i) (initial_segment_count i)
       (ndx_segments i ++ [(flist_start seg, ndx_start)])
       (segment_parent_flat i ++ [swrap 32 (parent_flat_idx seg)]))
    (g_inc_recurse g).

(** [None] stands for a failed write and for an index out of bounds. *)
Definition encode_and_send_segment (seg : PendingSegment) (s : Sending) : option (list byte * Sending) :=
  prev ← last (ndx_segments (g_incremental (sn_ctx s)));
  let seg_ndx_start := segment_ndx_start prev (flist_start seg) in
  let g := push_segment seg seg_ndx_start (sn_ctx s) in
  let '(codec, header) := write_ndx (sn_codec s) (swrap 32 (NDX_FLIST_OFFSET - parent_dir_ndx seg)) in
  let w := set_first_ndx seg_ndx_start (sn_writer s) in
  if flist_start seg + ps_count seg <=? length (g_file_list g) then
    '(body, w) ← send_segment (take (ps_count seg) (drop (flist_start seg) (g_file_list g))) None w;
    Some (header ++ body, mkSending g w codec (sn_flist_eof_sent s))
  else None.

Definition send_flist_eof (s : Sending) : list byte * Sending :=
  let '(codec, out) := write_ndx (sn_codec s) NDX_FLIST_EOF in
  (out, mkSending (sn_ctx s) (sn_writer s) codec true).

(** The loop of [run_transfer_loop] that sends while the scheduler yields; the number of
    entries that the receiver has still to do is computed before it. *)
Fixpoint dispatch (fuel : nat) (remaining : nat) (sched : SegmentScheduler) (s : Sending)
    : option (list byte * SegmentScheduler * Sending) :=
  match fuel with
  | O => None
  | S fuel =>
      '(next, sched) ← next_if_needed remaining sched;
      match next with
      | None => Some ([], sched, s)
      | Some seg =>
          '(out, s) ← encode_and_send_segment seg s;
          '(out', sched, s) ← dispatch fuel remaining sched s;
          Some (out ++ out', sched, s)
      end
  end.

(** The top of a round of the transfer loop: [dispatched] entries were sent so far and
    [transferred] files were requested. *)
Definition send_extra_lists (dispatched transferred : nat) (sched : SegmentScheduler) (s : Sending)
    : option (list byte * SegmentScheduler * Sending) :=
  '(out, sched, s) ← dispatch (S (length (ss_segments sched))) (dispatched - transferred) sched s;
  if negb (sn_flist_eof_sent s) && is_exhausted sched then
    let '(eof, s) := send_flist_eof s in Some (out ++ eof, sched, s)
  else Some (out, sched, s).

(** Several segments one after the other. *)
Fixpoint send_segments (segs : list PendingSegment) (s : Sending) : option (list byte * Sending) :=
  match segs with
  | [] => Some ([], s)
  | seg :: segs =>
      '(out, s) ← encode_and_send_segment seg s;
      '(out', s) ← send_segments segs s;
      Some (out ++ out', s)
  end.

(** What is left after the loop. *)
Definition flush_extra_lists (sched : SegmentScheduler) (s : Sending) : option (list byte * Sending) :=
  if sn_flist_eof_sent s then Some ([], s)
  else
    '(out, s) ← send_segments (scheduler_remaining sched) s;
    let '(eof, s) := send_flist_eof s in Some (out ++ eof, s).

(** ** Indices that the receiver sends back *)

(** [slice::partition_point] of a slice that is partitioned. *)
Fixpoint partition_point {A} (p : A → bool) (l : list A) : nat :=
  match l with
  | [] => 0
  | x :: l => if p x then S (partition_point p l) else 0
  end.

(** [segments[seg_idx]] panics when there is no segment; the sum is taken in [usize], so an
    index below the segment wraps around. *)
Definition wire_to_flat_ndx (g : GeneratorContext) (wire_ndx : Z) : option Z :=
  let segments := ndx_segments (g_incremental g) in
  let seg_idx := partition_point (λ '(_, ndx_start), (ndx_start <=? wire_ndx)%Z) segments - 1 in
  '(flat_start, ndx_start) ← segments !! seg_idx;
  Some (wrap 64 (Z.of_nat flat_start + wrap 64 (swrap 32 (wire_ndx - ndx_start)))).

(** [binary_search_by] of a slice in strictly increasing order. *)
Fixpoint find_start (ndx : Z) (segments : list (nat * Z)) (i : nat) : option nat :=
  match segments with
  | [] => None
  | (_, ndx_start) :: segments => if (ndx_start =? ndx)%Z then Some i else find_start ndx segments (S i)
  end.

Definition resolve_itemize_ndx (g : GeneratorContext) (wire_ndx : Z) : option Z :=
  let i := g_incremental g in
  match find_start (swrap 32 (wire_ndx + 1)) (ndx_segments i) 0 with
  | Some seg_idx =>
      parent_flat ← segment_parent_flat i !! seg_idx;
      if (0 <=? parent_flat)%Z then Some parent_flat else wire_to_flat_ndx g wire_ndx
  | None => wire_to_flat_ndx g wire_ndx
  end.

(** [slice::partition_point] again, the way the receiver looks indices up. *)
Definition flat_to_wire (segments : list (nat * Z)) (flat_idx : nat) : option Z :=
  match partition_point (λ '(start, _), start <=? flat_idx) segments with
  | O => None
  | S seg_idx =>
      '(flat_start, ndx_start) ← segments !! seg_idx;
      Some (swrap 32 (ndx_start + swrap 32 (Z.of_nat (flat_idx - flat_start))))
  end.

(** ** All or nothing *)

Lemma dispatch_enough remaining segs cursor fuel s : remaining < MIN_FILECNT_LOOKAHEAD →
  cursor ≤ length segs → length segs - cursor < fuel →
  dispatch fuel remaining (mkScheduler segs cursor) s =
    ('(out, s) ← send_segments (drop cursor segs) s; Some (out, mkScheduler segs (length segs), s)).
Proof.
  intros Hr. revert cursor s. induction fuel as [|fuel IH]; intros cursor s Hc Hf; [lia|].
  cbn [dispatch]. unfold next_if_needed. cbn [ss_segments ss_cursor].
  destruct (Nat.leb_spec (length segs) cursor) as [Hle|Hlt].
  { cbn [mbind option_bind]. rewrite drop_ge by lia. cbn. by replace cursor with (length segs) by lia. }
  rewrite (proj2 (Nat.ltb_lt _ _) Hr).
  destruct (lookup_lt_is_Some_2 segs cursor Hlt) as [seg Hseg]. rewrite Hseg. cbn [mbind option_bind].
  rewrite (drop_S _ _ _ Hseg). cbn [send_segments mbind option_bind].
  destruct (encode_and_send_segment seg s) as [[out s1]|]; [|done]. cbn [mbind option_bind].
  rewrite IH by lia. by destruct (send_segments (drop (S cursor) segs) s1) as [[out' s2]|].
Qed.

Lemma dispatch_held remaining sched fuel s : MIN_FILECNT_LOOKAHEAD ≤ remaining →
  dispatch (S fuel) remaining sched s = Some ([], sched, s).
Proof.
  intros Hr. cbn [dispatch]. unfold next_if_needed. rewrite (proj2 (Nat.ltb_ge _ _) Hr). by destruct (_ <=? _).
Qed.

(** ** The table of indices *)

Section partition_point.
Context {A : Type} (p : A → bool).

Lemma partition_point_eq l k : k ≤ length l → (∀ i x, i < k → l !! i = Some x → p x = true) →
  (∀ x, l !! k = Some x → p x = false) → partition_point p l = k.
Proof.
  revert k. induction l as [|x l IH]; intros k Hk Hlt Hat; cbn in *; [lia|].
  destruct k as [|k]; [by rewrite (Hat x)|]. rewrite (Hlt 0 x) by (done || lia). f_equal. apply IH; [lia|..].
  - intros i y Hi Hy. apply (Hlt (S i)); [lia|done].
  - intros y Hy. by apply Hat.
Qed.

End partition_point.

(** Each segment is numbered on from the one before, with a gap of one. *)
Definition ndx_table (start : Z) (starts : list nat) : list (nat * Z) :=
  imap (λ k f, (f, (start + Z.of_nat f + Z.of_nat k)%Z)) starts.

Lemma ndx_table_lookup start starts k :
  ndx_table start starts !! k = (λ f, (f, (start + Z.of_nat f + Z.of_nat k)%Z)) <$> starts !! k.
Proof. apply list_lookup_imap. Qed.

Lemma ndx_table_snoc start starts f :
  ndx_table start (starts ++ [f]) = ndx_table start starts ++ [(f, (start + Z.of_nat f + Z.of_nat (length starts))%Z)].
Proof. unfold ndx_table. rewrite imap_app. cbn. by rewrite Nat.add_0_r. Qed.

Definition ordered_starts (starts : list nat) (len : nat) : Prop :=
  starts !! 0 = Some 0 ∧ (∀ j k a b, j ≤ k → starts !! j = Some a → starts !! k = Some b → a ≤ b) ∧
  Forall (λ f, f ≤ len) starts.

Section table.
Context (start : Z) (starts : list nat) (len : nat).
Hypothesis Hord : ordered_starts starts len.
Hypothesis Hstart : (0 ≤ start)%Z.
Hypothesis Hmax : (start + Z.of_nat len + Z.of_nat (length starts) < 2 ^ 31)%Z.

(** The segment of an entry: the last one that starts at or before it. *)
Lemma segment_of i : i < len → ∃ k f, starts !! k = Some f ∧ f ≤ i ∧
  partition_point (λ '(s, _), s <=? i) (ndx_table start starts) = S k ∧
  (∀ j b, k < j → starts !! j = Some b → i < b).
Proof using Hord.
  intros Hi. destruct Hord as (H0 & Hmono & _).
  assert (∀ k, k ≤ length starts → (∀ j b, j < k → starts !! j = Some b → b ≤ i) ∨
    ∃ m, m < k ∧ (∀ j b, j < m → starts !! j = Some b → b ≤ i) ∧ ∃ b, starts !! m = Some b ∧ i < b) as Hsplit.
  { induction k as [|k IH]; intros Hk; [left; lia|]. destruct IH as [IH|(m & Hm & H)]; [lia| |right; exists m; split; [lia|done]].
    destruct (lookup_lt_is_Some_2 starts k Hk) as [b Hb]. destruct (decide (b ≤ i)) as [Hbi|Hbi].
    - left. intros j b' Hj Hb'. destruct (decide (j = k)) as [->|]; [congruence|]. apply (IH j); [lia|done].
    - right. exists k. split; [lia|]. split; [done|]. exists b. split; [done|lia]. }
  assert (∃ m, m ≤ length starts ∧ (∀ j b, j < m → starts !! j = Some b → b ≤ i) ∧
    ∀ j b, m ≤ j → starts !! j = Some b → i < b) as (m & Hm & Hbefore & Hafter).
  { destruct (Hsplit (length starts) (le_n _)) as [H|(m & Hm & H & b & Hb & Hib)].
    - exists (length starts). split_and!; [done..|]. intros j b Hj Hb. apply lookup_lt_Some in Hb. lia.
    - exists m. split_and!; [lia|done|]. intros j b' Hj Hb'. pose proof (Hmono m j b b' Hj Hb Hb'). lia. }
  destruct m as [|k].
  { pose proof (Hafter 0 0 (le_n _) H0). lia. }
  destruct (lookup_lt_is_Some_2 starts k ltac:(lia)) as [f Hf]. exists k, f. split_and!; [done|by apply (Hbefore k); [lia|]| |].
  - apply partition_point_eq.
    + unfold ndx_table. by rewrite length_imap.
    + intros j x Hj Hx. rewrite ndx_table_lookup in Hx. destruct (starts !! j) as [b|] eqn:Eb; [|done].
      injection Hx as <-. apply Nat.leb_le. by apply (Hbefore j).
    + intros x Hx. rewrite ndx_table_lookup in Hx. destruct (starts !! S k) as [b|] eqn:Eb; [|done].
      injection Hx as <-. apply Nat.leb_gt. by apply (Hafter (S k)).
  - intros j b Hj Hb. by apply (Hafter j).
Qed.

(** The index of entry [i] of segment [k] lies between the starts of [k] and of the next. *)
Lemma wire_segment i k f : i < len → starts !! k = Some f → f ≤ i →
  (∀ j b, k < j → starts !! j = Some b → i < b) →
  partition_point (λ '(_, n), (n <=? start + Z.of_nat i + Z.of_nat k)%Z) (ndx_table start starts) = S k.
Proof using Hord.
  intros Hi Hf Hfi Hafter. destruct Hord as (_ & Hmono & _). apply partition_point_eq.
  - unfold ndx_table. rewrite length_imap. by apply lookup_lt_Some in Hf.
  - intros j x Hj Hx. rewrite ndx_table_lookup in Hx. destruct (starts !! j) as [b|] eqn:Eb; [|done].
    injection Hx as <-. pose proof (Hmono j k b f ltac:(lia) Eb Hf). apply Z.leb_le. lia.
  - intros x Hx. rewrite ndx_table_lookup in Hx. destruct (starts !! S k) as [b|] eqn:Eb; [|done].
    injection Hx as <-. pose proof (Hafter (S k) b ltac:(lia) Eb). apply Z.leb_gt. lia.
Qed.

Lemma flat_to_wire_ok i : i < len → ∃ k f, starts !! k = Some f ∧ f ≤ i ∧
  (∀ j b, k < j → starts !! j = Some b → i < b) ∧
  flat_to_wire (ndx_table start starts) i = Some (start + Z.of_nat i + Z.of_nat k)%Z.
Proof using Hord Hstart Hmax.
  intros Hi. destruct (segment_of i Hi) as (k & f & Hf & Hfi & Hp & Hafter). exists k, f. split_and!; [done..|].
  unfold flat_to_wire. rewrite Hp. rewrite ndx_table_lookup, Hf. cbn [fmap option_fmap option_map mbind option_bind].
  apply lookup_lt_Some in Hf. rewrite (swrap_small 32 (Z.of_nat (i - f))) by (unfold in_i; lia).
  rewrite swrap_small by (unfold in_i; lia). f_equal. lia.
Qed.

Lemma find_start_found ndx segs i k f : segs !! k = Some (f, ndx) →
  (∀ j g n, j < k → segs !! j = Some (g, n) → n ≠ ndx) → find_start ndx segs i = Some (i + k).
Proof.
  clear. revert i k. induction segs as [|[f' n'] segs IH]; intros i k Hk Hne; [done|]. cbn [find_start].
  destruct k as [|k].
  - injection Hk as -> ->. by rewrite Z.eqb_refl, Nat.add_0_r.
  - rewrite (proj2 (Z.eqb_neq _ _) (Hne 0 f' n' ltac:(lia) eq_refl)). rewrite (IH (S i) k Hk); [f_equal; lia|].
    intros j g n Hj Hg. apply (Hne (S j) g); [lia|done].
Qed.

Lemma find_start_none ndx segs i : (∀ j g n, segs !! j = Some (g, n) → n ≠ ndx) → find_start ndx segs i = None.
Proof.
  clear. revert i. induction segs as [|[f' n'] segs IH]; intros i Hne; [done|]. cbn [find_start].
  rewrite (proj2 (Z.eqb_neq _ _) (Hne 0 f' n' eq_refl)). apply IH. intros j g n. apply (Hne (S j)).
Qed.

Context (g : GeneratorContext).
Hypothesis Htable : ndx_segments (g_incremental g) = ndx_table start starts.

(** The index of an entry resolves to the entry. *)
Lemma resolve_entry i k f : i < len → starts !! k = Some f → f ≤ i →
  (∀ j b, k < j → starts !! j = Some b → i < b) →
  resolve_itemize_ndx g (start + Z.of_nat i + Z.of_nat k) = Some (Z.of_nat i).
Proof using Hord Hstart Hmax Htable.
  intros Hi Hf Hfi Hafter. assert (Hk := lookup_lt_Some _ _ _ Hf). unfold resolve_itemize_ndx. rewrite Htable.
  rewrite swrap_small by (unfold in_i; lia). rewrite find_start_none.
  - unfold wire_to_flat_ndx. rewrite Htable, (wire_segment i k f) by done.
    replace (S k - 1) with k by lia. rewrite ndx_table_lookup, Hf. cbn [fmap option_fmap option_map mbind option_bind].
    rewrite (swrap_small 32) by (unfold in_i; lia). rewrite (wrap_small 64 (_ - _)) by (unfold in_u; lia).
    rewrite wrap_small by (unfold in_u; lia). f_equal. lia.
  - intros j f' n Hj. rewrite ndx_table_lookup in Hj. destruct (starts !! j) as [b|] eqn:Eb; [|done].
    injection Hj as <- <-. destruct (decide (k < j)) as [Hkj|Hkj].
    + pose proof (Hafter j b Hkj Eb). lia.
    + destruct Hord as (_ & Hmono & _). pose proof (Hmono j k b f ltac:(lia) Eb Hf). lia.
Qed.

(** The index in the gap before a segment resolves to the directory of the segment. *)
Lemma resolve_gap k f d : starts !! k = Some f → segment_parent_flat (g_incremental g) !! k = Some d → (0 ≤ d)%Z →
  resolve_itemize_ndx g (start + Z.of_nat f + Z.of_nat k - 1) = Some d.
Proof using Hord Hstart Hmax Htable.
  intros Hf Hd Hpos. assert (Hk := lookup_lt_Some _ _ _ Hf). destruct Hord as (_ & Hmono & Hle).
  rewrite Forall_forall in Hle. pose proof (Hle f (list_elem_of_lookup_2 _ _ _ Hf)).
  unfold resolve_itemize_ndx. rewrite Htable, swrap_small by (unfold in_i; lia).
  rewrite (find_start_found _ _ 0 k f).
  - rewrite Nat.add_0_l, Hd. cbn [mbind option_bind]. by rewrite (proj2 (Z.leb_le _ _) Hpos).
  - rewrite ndx_table_lookup, Hf. cbn. do 2 f_equal. lia.
  - intros j g' n Hj Hn. rewrite ndx_table_lookup in Hn. destruct (starts !! j) as [b|] eqn:Eb; [|done].
    injection Hn as <- <-. pose proof (Hmono j k b f ltac:(lia) Eb Hf). lia.
Qed.

End table.

(** The table while segments are sent. *)
Definition table_of (start : Z) (starts : list nat) (parents : list Z) (g : GeneratorContext) : Prop :=
  ndx_segments (g_incremental g) = ndx_table start starts ∧ segment_parent_flat (g_incremental g) = parents.

Lemma next_ndx_start start starts f n : last starts = Some f → f ≤ n → (0 ≤ start)%Z →
  (start + Z.of_nat n + Z.of_nat (length starts) < 2 ^ 31)%Z →
  ∃ prev, last (ndx_table start starts) = Some prev ∧
    segment_ndx_start prev n = (start + Z.of_nat n + Z.of_nat (length starts))%Z.
Proof.
  intros Hlast Hf H0 Hmax. apply last_Some in Hlast as [pre ->].
  exists (f, (start + Z.of_nat f + Z.of_nat (length pre))%Z). rewrite length_app in *. cbn [length] in *.
  split; [by rewrite ndx_table_snoc, last_snoc|]. unfold segment_ndx_start. cbn [fst snd].
  rewrite (swrap_small 32 (Z.of_nat _ - _)) by (unfold in_i; lia).
  rewrite (swrap_small 32 (_ + (_ - _))) by (unfold in_i; lia). rewrite swrap_small by (unfold in_i; lia). lia.
Qed.

Lemma push_segment_table start starts parents g seg f : table_of start starts parents g → last starts = Some f →
  f ≤ flist_start seg → (0 ≤ start)%Z → (0 ≤ parent_flat_idx seg < 2 ^ 31)%Z →
  (start + Z.of_nat (flist_start seg) + Z.of_nat (length starts) < 2 ^ 31)%Z →
  ∃ prev, last (ndx_segments (g_incremental g)) = Some prev ∧
    segment_ndx_start prev (flist_start seg) = (start + Z.of_nat (flist_start seg) + Z.of_nat (length starts))%Z ∧
    table_of start (starts ++ [flist_start seg]) (parents ++ [parent_flat_idx seg])
      (push_segment seg (segment_ndx_start prev (flist_start seg)) g).
Proof.
  intros [Ht Hp] Hlast Hf H0 Hpar Hmax. destruct (next_ndx_start _ _ _ _ Hlast Hf H0 Hmax) as (prev & Hprev & E).
  exists prev. split; [by rewrite Ht|]. split; [done|]. rewrite E. split; cbn.
  - by rewrite Ht, ndx_table_snoc.
  - rewrite Hp, swrap_small by (unfold in_i; lia). done.
Qed.

Lemma encode_pushes seg s out s' prev : last (ndx_segments (g_incremental (sn_ctx s))) = Some prev →
  encode_and_send_segment seg s = Some (out, s') →
  sn_ctx s' = push_segment seg (segment_ndx_start prev (flist_start seg)) (sn_ctx s) ∧
  sn_flist_eof_sent s' = sn_flist_eof_sent s.
Proof.
  intros Hl. unfold encode_and_send_segment. rewrite Hl. cbn [mbind option_bind].
  destruct (write_ndx _ _) as [codec header]. destruct (_ <=? _); [|done].
  destruct (send_segment _ _ _) as [[body w]|]; [|done]. by intros [= _ <-].
Qed.

Lemma send_segments_eof segs s out s' : send_segments segs s = Some (out, s') →
  sn_flist_eof_sent s' = sn_flist_eof_sent s.
Proof.
  revert s out. induction segs as [|seg segs IH]; intros s out; cbn [send_segments]; [by intros [= _ <-]|].
  destruct (last (ndx_segments (g_incremental (sn_ctx s)))) as [prev|] eqn:Hl.
  2:{ unfold encode_and_send_segment. by rewrite Hl. }
  destruct (encode_and_send_segment seg s) as [[o s1]|] eqn:E1; [|done]. cbn [mbind option_bind].
  destruct (send_segments segs s1) as [[o' s2]|] eqn:E2; [|done]. intros [= _ <-].
  rewrite (IH _ _ E2). by destruct (encode_pushes _ _ _ _ _ Hl E1).
Qed.

Lemma send_segments_table start segs : (0 ≤ start)%Z → ∀ s out s' starts parents f a end_,
  table_of start starts parents (sn_ctx s) → last starts = Some f → f ≤ a → tiles a segs end_ →
  Forall (λ p, 0 ≤ parent_flat_idx p < 2 ^ 31)%Z segs →
  (start + Z.of_nat end_ + Z.of_nat (length starts + length segs) ≤ 2 ^ 31)%Z →
  send_segments segs s = Some (out, s') →
  table_of start (starts ++ (flist_start <$> segs)) (parents ++ (parent_flat_idx <$> segs)) (sn_ctx s') ∧
  g_file_list (sn_ctx s') = g_file_list (sn_ctx s).
Proof.
  intros H0. induction segs as [|seg segs IH]; intros s out s' starts parents f a end_ Ht Hl Hf Htile Hpar Hmax E.
  { injection E as _ <-. by rewrite !app_nil_r. }
  inversion_clear Hpar as [|?? Hp Hps]. cbn [send_segments] in E.
  pose proof (tiles_in _ _ _ seg Htile ltac:(by left)) as Hend. destruct Htile as [Ha Htile].
  cbn [length] in Hmax.
  destruct (push_segment_table start starts parents (sn_ctx s) seg f Ht Hl ltac:(lia) H0 Hp ltac:(lia))
    as (prev & Hprev & _ & Ht').
  destruct (encode_and_send_segment seg s) as [[out1 s1]|] eqn:E1; [|done]. cbn [mbind option_bind] in E.
  destruct (send_segments segs s1) as [[out2 s2]|] eqn:E2; [|done]. injection E as <- <-.
  destruct (encode_pushes _ _ _ _ _ Hprev E1) as [Ec _].
  destruct (IH s1 out2 s2 (starts ++ [flist_start seg]) (parents ++ [parent_flat_idx seg]) (flist_start seg)
              (a + ps_count seg) end_) as [Hfin Hfl].
  - by rewrite Ec.
  - by rewrite last_snoc.
  - lia.
  - done.
  - done.
  - rewrite length_app. cbn [length]. lia.
  - done.
  - split; [|by rewrite Hfl, Ec]. cbn. by rewrite <-!app_assoc in Hfin.
Qed.

Lemma tiles_ordered n0 segs len : tiles n0 segs len → ordered_starts (0 :: (flist_start <$> segs)) len.
Proof.
  intros Ht. assert (Hall : ∀ segs a, tiles a segs len → a ≤ len ∧ Forall (λ f, a ≤ f ≤ len) (flist_start <$> segs) ∧
    ∀ j k x y, j ≤ k → (flist_start <$> segs) !! j = Some x → (flist_start <$> segs) !! k = Some y → x ≤ y).
  { clear. induction segs as [|p segs IH]; intros a; cbn; [intros ->; split_and!; [done|by constructor|done]|].
    intros [<- (Hle & Hf & Hm)%IH]. split_and!; [lia|constructor; [lia|]|].
    - eapply Forall_impl; [done|]. cbn. lia.
    - intros [|j] [|k] x y Hjk; cbn; [intros [= <-] [= <-]; lia| |lia|apply Hm; lia].
      intros [= <-] Hy. rewrite Forall_lookup in Hf. apply Hf in Hy. lia. }
  destruct (Hall _ _ Ht) as (Hle & Hf & Hm). split; [done|]. split.
  - intros [|j] [|k] x y Hjk; cbn; [intros [= <-] [= <-]; lia| |lia|apply Hm; lia]. intros [= <-] _. lia.
  - constructor; [lia|]. eapply Forall_impl; [done|]. cbn. lia.
Qed.

(** ** Properties *)

(** C21: The lookahead does not ration the lists, it sends all or none: at the top of a round of
    the transfer loop, if the receiver knows of fewer than a thousand entries that were not
    transferred, every list that is left is sent, with the end marker; otherwise nothing is
    sent and nothing changes, however many rounds pass without a transfer. *)
Theorem all_lists_or_none (dispatched transferred : nat) (sched : SegmentScheduler) (s : Sending) :
  is_exhausted sched = false → sn_flist_eof_sent s = false →
  (dispatched - transferred < MIN_FILECNT_LOOKAHEAD →
     send_extra_lists dispatched transferred sched s =
       ('(out, s') ← flush_extra_lists sched s; Some (out, mkScheduler (ss_segments sched) (length (ss_segments sched)), s'))) ∧
  (MIN_FILECNT_LOOKAHEAD ≤ dispatched - transferred →
     ∀ rounds, Nat.iter rounds (λ r, '(out, sched, s) ← r;
       '(out', sched, s) ← send_extra_lists dispatched transferred sched s; Some (out ++ out', sched, s))
       (Some ([], sched, s)) = Some ([], sched, s)).
Proof.
  intros Hex Heof. destruct sched as [segs cursor]. pose proof Hex as Hc. apply Nat.leb_gt in Hc. cbn in Hc. split.
  - intros Hr. unfold send_extra_lists, flush_extra_lists. rewrite Heof. cbn [ss_segments].
    rewrite dispatch_enough by (done || lia). unfold scheduler_remaining. cbn [ss_segments ss_cursor].
    destruct (send_segments (drop cursor segs) s) as [[out s1]|] eqn:E; [|done]. cbn [mbind option_bind].
    pose proof (send_segments_eof _ _ _ _ E) as He1. rewrite Heof in He1.
    rewrite He1. unfold is_exhausted. cbn [ss_segments ss_cursor negb andb]. rewrite Nat.leb_refl.
    by destruct (send_flist_eof s1) as [eof s2].
  - intros Hr. induction rounds as [|rounds IH]; [done|]. cbn [Nat.iter nat_rect]. unfold Nat.iter in IH. rewrite IH.
    cbn [mbind option_bind]. unfold send_extra_lists. rewrite dispatch_held by done. cbn [mbind option_bind].
    by rewrite Hex, andb_false_r.
Qed.

(** C20: Every index that comes back is understood: once the lists of the directories are sent,
    the index of each entry, counted the way the receiver counts, resolves to that entry, and
    the index in the gap before each list, which stands for its directory, resolves to the
    entry of that directory. *)
Theorem indices_resolve (g g' : GeneratorContext) (start : Z) (s s' : Sending) (out : list byte) :
  g_inc_recurse g = true → g_file_list g ≠ [] → length (g_source_bases g) = length (g_file_list g) →
  g_incremental g = incremental_new start → (0 ≤ start)%Z →
  (start + 2 * Z.of_nat (length (g_file_list g)) < 2 ^ 31 - 1)%Z →
  partition_file_list_for_inc_recurse g = Some g' → sn_ctx s = g' →
  send_segments (pending_segments (g_incremental g')) s = Some (out, s') →
  (∀ i, i < length (g_file_list g') →
     ∃ ndx, flat_to_wire (ndx_segments (g_incremental (sn_ctx s'))) i = Some ndx ∧
       resolve_itemize_ndx (sn_ctx s') ndx = Some (Z.of_nat i)) ∧
  (∀ k p, pending_segments (g_incremental g') !! k = Some p →
     ∃ ndx j d, ndx_segments (g_incremental (sn_ctx s')) !! S k = Some (flist_start p, ndx) ∧
       resolve_itemize_ndx (sn_ctx s') (ndx - 1) = Some (Z.of_nat j) ∧ g_file_list g' !! j = Some d ∧
       is_dir d = true ∧ Forall (λ e, parent_name (entry_name e) = entry_name d) (segment_entries (g_file_list g') p)).
Proof.
  intros Hinc Hne Hb Hnew H0 Hmax Epart Ectx Esend. pose proof (f_equal g_file_list Ectx) as Efl.
  destruct (partition_ok g Hinc Hne Hb ltac:(lia)) as (g1 & n0 & E & Hpt); [by rewrite Hnew|].
  rewrite Epart in E. injection E as <-.
  pose proof (pending_few _ _ _ Hpt) as Hfew. pose proof (partitioned_length _ _ _ Hpt Hb) as Hlen.
  pose proof (pt_segments _ _ _ Hpt) as Hsegs. pose proof (tiles_ordered _ _ _ (pt_tiles _ _ _ Hpt)) as Hord.
  set (pending := pending_segments (g_incremental g')) in *. set (root' := root_flat (g_file_list g')).
  destruct (send_segments_table start pending H0 s out s' [0] [root'] 0 n0 (length (g_file_list g'))) as [[Ht Hp] Hfl].
  - rewrite Ectx. split; [rewrite (pt_ndx _ _ _ Hpt)|rewrite (pt_root _ _ _ Hpt)]; rewrite Hnew; cbn; [|done].
    repeat f_equal. lia.
  - done.
  - lia.
  - apply Hpt.
  - eapply Forall_impl; [done|]. intros p [(j & d & -> & Hj & _) _]. apply lookup_lt_Some in Hj. lia.
  - cbn [length]. lia.
  - done.
  - cbn [app] in Ht, Hp.
    assert (Hlens : length (0 :: (flist_start <$> pending)) = S (length pending)) by (cbn; by rewrite length_fmap).
    split.
    + intros i Hi. rewrite Ht.
      destruct (flat_to_wire_ok start _ _ Hord H0 ltac:(lia) i Hi) as (k & f & Hk & Hfi & Hafter & E).
      eexists. split; [exact E|]. by apply (resolve_entry start _ _ Hord H0 ltac:(lia) _ Ht i k f).
    + intros k p Hkp. rewrite Forall_lookup in Hsegs. destruct (Hsegs _ _ Hkp) as [(j & d & Hj & Hd & Hdir & _ & _ & _ & Hall) _].
      exists (start + Z.of_nat (flist_start p) + Z.of_nat (S k))%Z, j, d.
      assert (Hk : (0 :: (flist_start <$> pending)) !! S k = Some (flist_start p)) by (change ((flist_start <$> pending) !! k = Some (flist_start p)); by rewrite list_lookup_fmap, Hkp).
      split_and!; [by rewrite Ht, ndx_table_lookup, Hk| |done..]. rewrite <-Hj.
      apply (resolve_gap start _ _ Hord H0 ltac:(lia) _ Ht); [done| |lia]. rewrite Hp.
      change ((parent_flat_idx <$> pending) !! k = Some (parent_flat_idx p)). by rewrite list_lookup_fmap, Hkp.
Qed.

Definition tree_writer : FileListWriter :=
  mkWriter 31 state_default flist_stats_default (mkPreserve false false false false false false false false)
    false 0 true true 0 false.
Definition tree_sending (g : GeneratorContext) : Sending := mkSending g tree_writer (create_ndx_codec 31) false.

Lemma all_lists_or_none_witness :
  let sched := scheduler_new [mkPending 1 2 4 2] in
  let s := tree_sending tree_generator in
  is_Some (send_extra_lists 4 0 sched s) ∧ send_extra_lists 1500 400 sched s = Some ([], sched, s).
Proof.
  intros sched s. split.
  - rewrite (proj1 (all_lists_or_none 4 0 sched s eq_refl eq_refl)) by (unfold MIN_FILECNT_LOOKAHEAD; lia).
    apply (bool_decide_unpack _). vm_compute. exact I.
  - assert (Hr : MIN_FILECNT_LOOKAHEAD ≤ 1500 - 400) by (apply Nat.leb_le; reflexivity).
    pose proof (proj2 (all_lists_or_none 1500 400 sched s eq_refl eq_refl) Hr 1) as H.
    cbn [Nat.iter nat_rect mbind option_bind] in H.
    destruct (send_extra_lists 1500 400 sched s) as [[[out sched'] s']|]; [exact H|discriminate].
Defined.

Lemma indices_resolve_witness :
  ∃ g' out s', partition_file_list_for_inc_recurse tree_generator = Some g' ∧
    send_segments (pending_segments (g_incremental g')) (tree_sending g') = Some (out, s') ∧
    ∃ ndx, flat_to_wire (ndx_segments (g_incremental (sn_ctx s'))) 5 = Some ndx ∧
      resolve_itemize_ndx (sn_ctx s') ndx = Some 5%Z.
Proof.
  assert (Hrun : is_some (g' ← partition_file_list_for_inc_recurse tree_generator;
    send_segments (pending_segments (g_incremental g')) (tree_sending g')) = true) by (vm_compute; reflexivity).
  assert (Hlen : (λ g', length (g_file_list g')) <$> partition_file_list_for_inc_recurse tree_generator = Some 8)
    by (vm_compute; reflexivity).
  destruct (partition_file_list_for_inc_recurse tree_generator) as [g'|] eqn:E; [|discriminate].
  cbn [mbind option_bind] in Hrun.
  destruct (send_segments (pending_segments (g_incremental g')) (tree_sending g')) as [[out s']|] eqn:Es; [|discriminate].
  exists g', out, s'. split; [reflexivity|]. split; [exact Es|].
  destruct (indices_resolve tree_generator g' 1 (tree_sending g') s' out) as [H _];
    [reflexivity|discriminate|reflexivity|reflexivity|lia|reflexivity|exact E|reflexivity|exact Es|].
  apply H. injection Hlen as ->. lia.
Defined.
