(* ===== verification/IncReceive.v ===== *)
(** * Receiving the lists of the directories ([crates/transfer/src/receiver/file_list/receive.rs],
      [receiver/file_list/on_demand.rs], [receiver/context.rs])

    With incremental recursion the receiver takes the lists of the directories as they come:
    the header names a directory by its number, which has to be one that was received and was
    not served before, every entry has to be directly below that directory, and the entries
    are cleaned, matched and appended to the list. *)

From S2P Require Import Prelude Wildmatch Utf8 FilterWire FilterSet FilterParse Ndx FlistEntry FlistSort FlistClean FlistName FlistWire FlistStream Hardlinks IncRecurse IncSend.
From stdpp Require Import gmap sorting strings.

Local Open Scope nat_scope.

(** ** The context *)

(** The fields that the lists change, and the options that the code asks for.
    [rc_built_reader] is what [build_flist_reader] makes, and [rc_observed] what was passed to
    [observe_segment_for_delete] when a delete context is attached. *)
Record ReceiverContext := mkReceiver {
  rc_protocol : Z;
  rc_hard_links : bool;
  rc_iconv_reorder_suppressed : bool;
  rc_built_reader : FileListReader;
  rc_file_list : list FileEntry;
  rc_ndx_segments : list (nat * Z);
  rc_dir_flist_used : nat;
  rc_served_dir_flists : gset Z;
  rc_dir_flist_names : list (list byte);
  rc_flist_reader_cache : option FileListReader;
  rc_prior_hlinks : gmap Z bool;
  rc_flist_eof : bool;
  rc_observed : option (list (list byte * list FileEntry));
}.

Definition rc_with_list (l : list FileEntry) (c : ReceiverContext) : ReceiverContext :=
  mkReceiver (rc_protocol c) (rc_hard_links c) (rc_iconv_reorder_suppressed c) (rc_built_reader c) l
    (rc_ndx_segments c) (rc_dir_flist_used c) (rc_served_dir_flists c) (rc_dir_flist_names c)
    (rc_flist_reader_cache c) (rc_prior_hlinks c) (rc_flist_eof c) (rc_observed c).
Definition rc_with_segments (s : list (nat * Z)) (c : ReceiverContext) : ReceiverContext :=
  mkReceiver (rc_protocol c) (rc_hard_links c) (rc_iconv_reorder_suppressed c) (rc_built_reader c)
    (rc_file_list c) s (rc_dir_flist_used c) (rc_served_dir_flists c) (rc_dir_flist_names c)
    (rc_flist_reader_cache c) (rc_prior_hlinks c) (rc_flist_eof c) (rc_observed c).
Definition rc_with_dirs (used : nat) (names : list (list byte)) (c : ReceiverContext) : ReceiverContext :=
  mkReceiver (rc_protocol c) (rc_hard_links c) (rc_iconv_reorder_suppressed c) (rc_built_reader c)
    (rc_file_list c) (rc_ndx_segments c) used (rc_served_dir_flists c) names
    (rc_flist_reader_cache c) (rc_prior_hlinks c) (rc_flist_eof c) (rc_observed c).
Definition rc_with_served (served : gset Z) (c : ReceiverContext) : ReceiverContext :=
  mkReceiver (rc_protocol c) (rc_hard_links c) (rc_iconv_reorder_suppressed c) (rc_built_reader c)
    (rc_file_list c) (rc_ndx_segments c) (rc_dir_flist_used c) served (rc_dir_flist_names c)
    (rc_flist_reader_cache c) (rc_prior_hlinks c) (rc_flist_eof c) (rc_observed c).
Definition rc_with_cache (cache : option FileListReader) (c : ReceiverContext) : ReceiverContext :=
  mkReceiver (rc_protocol c) (rc_hard_links c) (rc_iconv_reorder_suppressed c) (rc_built_reader c)
    (rc_file_list c) (rc_ndx_segments c) (rc_dir_flist_used c) (rc_served_dir_flists c) (rc_dir_flist_names c)
    cache (rc_prior_hlinks c) (rc_flist_eof c) (rc_observed c).
Definition rc_with_prior (prior : gmap Z bool) (c : ReceiverContext) : ReceiverContext :=
  mkReceiver (rc_protocol c) (rc_hard_links c) (rc_iconv_reorder_suppressed c) (rc_built_reader c)
    (rc_file_list c) (rc_ndx_segments c) (rc_dir_flist_used c) (rc_served_dir_flists c) (rc_dir_flist_names c)
    (rc_flist_reader_cache c) prior (rc_flist_eof c) (rc_observed c).
Definition rc_with_eof (eof : bool) (c : ReceiverContext) : ReceiverContext :=
  mkReceiver (rc_protocol c) (rc_hard_links c) (rc_iconv_reorder_suppressed c) (rc_built_reader c)
    (rc_file_list c) (rc_ndx_segments c) (rc_dir_flist_used c) (rc_served_dir_flists c) (rc_dir_flist_names c)
    (rc_flist_reader_cache c) (rc_prior_hlinks c) eof (rc_observed c).
Definition rc_with_observed (o : option (list (list byte * list FileEntry))) (c : ReceiverContext) : ReceiverContext :=
  mkReceiver (rc_protocol c) (rc_hard_links c) (rc_iconv_reorder_suppressed c) (rc_built_reader c)
    (rc_file_list c) (rc_ndx_segments c) (rc_dir_flist_used c) (rc_served_dir_flists c) (rc_dir_flist_names c)
    (rc_flist_reader_cache c) (rc_prior_hlinks c) (rc_flist_eof c) o.

(** A method over the bytes still to come; the context keeps what was changed before an error,
    and [None] is a panic. *)
Definition recv (A : Type) : Type :=
  ReceiverContext → list byte → option (ReceiverContext * result io_error (A * list byte)).

#[export] Instance recv_ret : MRet recv := λ A a c s, Some (c, Ok (a, s)).
#[export] Instance recv_bind : MBind recv := λ A B f p c s,
  match p c s with
  | Some (c', Ok (a, s')) => f a c' s'
  | Some (c', Err e) => Some (c', Err e)
  | None => None
  end.

Definition on_wire {A} (p : parser A) : recv A := λ c s, Some (c, p s).
Definition abort {A} (e : io_error) : recv A := λ c _, Some (c, Err e).
Definition get_ctx : recv ReceiverContext := λ c s, Some (c, Ok (c, s)).
Definition modify_ctx (f : ReceiverContext → ReceiverContext) : recv unit := λ c s, Some (f c, Ok (tt, s)).
(** [expect], an index in brackets. *)
Definition unwrap {A} (o : option A) : recv A := λ c s, a ← o; Some (c, Ok (a, s)).

(** ** Guards *)

Definition count_directories (entries : list FileEntry) : nat := length (List.filter is_dir entries).

Definition validate_extra_segment_dir_ndx (dir_ndx : Z) : recv unit :=
  c ← get_ctx;
  if (dir_ndx <? 0)%Z || (Z.of_nat (rc_dir_flist_used c) <=? dir_ndx)%Z then abort ProtocolViolation
  else if bool_decide (dir_ndx ∈ rc_served_dir_flists c) then abort ProtocolViolation
  else modify_ctx (rc_with_served ({[dir_ndx]} ∪ rc_served_dir_flists c)).

Definition record_dir_flist_names (from : nat) (c : ReceiverContext) : ReceiverContext :=
  rc_with_dirs (rc_dir_flist_used c)
    (rc_dir_flist_names c ++ (name_bytes <$> List.filter is_dir (drop from (rc_file_list c)))) c.

(** The path without the root, as its components: paths are compared by them. *)
Definition strip_leading_slashes (p : list byte) : list (list byte) :=
  match components p with
  | root :: c :: rest => if decide (root = [SLASH]) then c :: rest else root :: c :: rest
  | cs => cs
  end.

Definition validate_extra_segment_path_belongs (dir_ndx : Z) (flat_start : nat) : recv unit :=
  c ← get_ctx;
  match rc_dir_flist_names c !! Z.to_nat dir_ndx with
  | None => mret tt
  | Some parent =>
      let parent := strip_leading_slashes parent in
      if forallb (λ e, bool_decide (strip_leading_slashes (fe_dirname e) = parent)) (drop flat_start (rc_file_list c))
      then mret tt
      else modify_ctx (rc_with_list (take flat_start (rc_file_list c)));; abort Unsupported
  end.

(** ** A list *)

(** The entries are pushed as they are read; every entry takes a byte, so the length of the
    input is enough fuel. *)
Fixpoint read_entries (fuel : nat) (flat_start : nat) (file_list : list FileEntry) (r : FileListReader)
    (s : list byte) : FileListReader * list FileEntry * result io_error (list byte) :=
  match fuel with
  | O => (r, file_list, Err UnexpectedEof)
  | S fuel =>
      match read_entry_with_flist (drop flat_start file_list) r s with
      | (r, Ok (Some e, s)) => read_entries fuel flat_start (file_list ++ [e]) r s
      | (r, Ok (None, s)) => (r, file_list, Ok s)
      | (r, Err e) => (r, file_list, Err e)
      end
  end.

(** The reader is taken out of the cache and put back at the end only. *)
Definition read_list (flat_start : nat) (flist_reader : FileListReader) : recv FileListReader := λ c s,
  let '(r, l, res) := read_entries (length s) flat_start (rc_file_list c) flist_reader s in
  Some (rc_with_list l c, match res with Ok s => Ok (r, s) | Err e => Err e end).

(** The index of a place in the list, [None] where none is. *)
Definition rc_wire_to_flat_ndx (c : ReceiverContext) (wire_ndx : Z) : option nat :=
  let segments := rc_ndx_segments c in
  match partition_point (λ '(_, ns), (ns <=? wire_ndx)%Z) segments with
  | O => None
  | S seg_idx =>
      '(flat_start, ndx_start) ← segments !! seg_idx;
      if (wire_ndx <? ndx_start)%Z then None
      else
        let flat_idx := flat_start + Z.to_nat (wire_ndx - ndx_start) in
        let seg_end := default (length (rc_file_list c)) (fst <$> segments !! S seg_idx) in
        if seg_end <=? flat_idx then None else Some flat_idx
  end.

Definition flat_to_wire_ndx (c : ReceiverContext) (flat_idx : nat) : option Z :=
  flat_to_wire (rc_ndx_segments c) flat_idx.

Definition publish_segment_to_delete_pipeline (dir_ndx : Z) (flat_start : nat) (c : ReceiverContext)
    : ReceiverContext :=
  match rc_observed c with
  | None => c
  | Some observed =>
      match rc_wire_to_flat_ndx c dir_ndx with
      | None => c
      | Some parent_flat =>
          match rc_file_list c !! parent_flat with
          | None => c
          | Some parent =>
              rc_with_observed (Some (observed ++ [(name_bytes parent, drop flat_start (rc_file_list c))])) c
          end
      end
  end.

Section receive.
(** The library's unstable sort, and the order in which a hash map yields its values. *)
Context (sort_unstable_by : ∀ A : Type, (A → A → comparison) → list A → list A)
        (values : gmap (Z * Z) (list nat) → list (list nat)).

(** The entries of a list from [flat_start] on, after they were read. *)
Definition finish_segment (flat_start : nat) (seg_ndx_start : Z) (c : ReceiverContext) : option ReceiverContext :=
  let head := take flat_start (rc_file_list c) in
  let tail := drop flat_start (rc_file_list c) in
  let tail := if rc_hard_links c then assign_leader_ndx seg_ndx_start 0 tail else tail in
  tail ← (if rc_iconv_reorder_suppressed c then Some tail
          else fst <$> sort_and_clean_file_list sort_unstable_by tail true false false true);
  let '(tail, prior) := match_hard_links tail (rc_prior_hlinks c) in
  let tail := if (rc_protocol c <? 30)%Z && rc_hard_links c then normalize_pre30_hardlinks values tail else tail in
  Some (rc_with_prior prior (rc_with_list (head ++ tail) c)).

Definition receive_one_extra_segment (ndx : Z) : recv nat :=
  if (NDX_FLIST_OFFSET <? ndx)%Z then abort InvalidData
  else
    let dir_ndx := swrap 32 (NDX_FLIST_OFFSET - ndx) in
    validate_extra_segment_dir_ndx dir_ndx;;
    c ← get_ctx;
    let flist_reader := default (rc_built_reader c) (rc_flist_reader_cache c) in
    modify_ctx (rc_with_cache None);;
    let flat_start := length (rc_file_list c) in
    prev ← unwrap (last (rc_ndx_segments c));
    let seg_ndx_start := segment_ndx_start prev flat_start in
    flist_reader ← read_list flat_start (set_ndx_start seg_ndx_start flist_reader);
    c ← get_ctx;
    let segment_count := length (rc_file_list c) - flat_start in
    validate_extra_segment_path_belongs dir_ndx flat_start;;
    c ← unwrap (finish_segment flat_start seg_ndx_start c);
    let c := rc_with_dirs (rc_dir_flist_used c + count_directories (drop flat_start (rc_file_list c)))
               (rc_dir_flist_names c) c in
    let c := record_dir_flist_names flat_start c in
    let c := rc_with_segments (rc_ndx_segments c ++ [(flat_start, seg_ndx_start)]) c in
    let c := rc_with_cache (Some flist_reader) c in
    modify_ctx (λ _, publish_segment_to_delete_pipeline dir_ndx flat_start c);;
    mret segment_count.

(** ** On demand *)

Inductive FrameKind := Segment (dir_ndx : Z) | FlistEof | Done | Reply (ndx : Z).

Definition read_next_frame (codec : NdxCodecEnum) : recv (FrameKind * NdxCodecEnum) :=
  '(ndx, codec) ← on_wire (read_ndx codec);
  if (ndx =? NDX_FLIST_EOF)%Z then modify_ctx (rc_with_eof true);; mret (FlistEof, codec)
  else if (ndx =? NDX_DONE)%Z then mret (Done, codec)
  else if (ndx <=? NDX_FLIST_OFFSET)%Z then
    receive_one_extra_segment ndx;; mret (Segment (swrap 32 (NDX_FLIST_OFFSET - ndx)), codec)
  else mret (Reply ndx, codec).

(** Every frame takes a byte, so one more than the length of the input is enough fuel. *)
Fixpoint ensure_all_segments_loaded (fuel : nat) (codec : NdxCodecEnum) : recv NdxCodecEnum :=
  match fuel with
  | O => abort UnexpectedEof
  | S fuel =>
      c ← get_ctx;
      if rc_flist_eof c then mret codec
      else
        '(frame, codec) ← read_next_frame codec;
        match frame with
        | Segment _ | FlistEof => ensure_all_segments_loaded fuel codec
        | Done => modify_ctx (rc_with_eof true);; ensure_all_segments_loaded fuel codec
        | Reply _ => abort InvalidData
        end
  end.

Fixpoint ensure_flat_idx (fuel : nat) (flat_idx : nat) (codec : NdxCodecEnum) : recv (bool * NdxCodecEnum) :=
  match fuel with
  | O => abort UnexpectedEof
  | S fuel =>
      c ← get_ctx;
      if flat_idx <? length (rc_file_list c) then mret (true, codec)
      else if rc_flist_eof c then mret (false, codec)
      else
        '(frame, codec) ← read_next_frame codec;
        match frame with
        | Segment _ | FlistEof => ensure_flat_idx fuel flat_idx codec
        | Done => modify_ctx (rc_with_eof true);; mret (false, codec)
        | Reply _ => abort InvalidData
        end
  end.

(** [target] is [hardlink_lookahead_target]. *)
Fixpoint prefetch_for_hardlinks (fuel : nat) (target : nat) (codec : NdxCodecEnum) : recv NdxCodecEnum :=
  match fuel with
  | O => abort UnexpectedEof
  | S fuel =>
      c ← get_ctx;
      if negb (rc_flist_eof c) && (length (rc_file_list c) <? target) then
        '(frame, codec) ← read_next_frame codec;
        match frame with
        | Segment _ | FlistEof => prefetch_for_hardlinks fuel target codec
        | Done => modify_ctx (rc_with_eof true);; prefetch_for_hardlinks fuel target codec
        | Reply _ => mret codec
        end
      else mret codec
  end.

(** All the lists at once, with indices read from the start of the stream. *)
Fixpoint receive_extra_loop (fuel : nat) (codec : NdxCodecEnum) (total_extra : nat) : recv nat :=
  match fuel with
  | O => abort UnexpectedEof
  | S fuel =>
      '(ndx, codec) ← on_wire (read_ndx codec);
      if (ndx =? NDX_FLIST_EOF)%Z then modify_ctx (rc_with_eof true);; mret total_extra
      else
        n ← receive_one_extra_segment ndx;
        receive_extra_loop fuel codec (total_extra + n)
  end.

Definition receive_extra_file_lists (inc_recurse : bool) : recv nat := λ c s,
  if inc_recurse then receive_extra_loop (length s) (create_ndx_codec (rc_protocol c)) 0 c s
  else (mret 0 : recv nat) c s.

End receive.

(** ** A list that is read, cleaned and matched stays as it was sent *)

Lemma read_entries_ok pre fuel acc r s r' l rest :
  read_segment fuel acc r s = (r', Ok (l, rest)) →
  read_entries fuel (length pre) (pre ++ acc) r s = (r', pre ++ l, Ok rest).
Proof.
  revert acc r s. induction fuel as [|fuel IH]; intros acc r s; [done|]. cbn [read_segment read_entries].
  unfold mbind, decoder_bind. rewrite drop_app_length.
  destruct (read_entry_with_flist acc r s) as [r1 [[[e|] s1]|err]]; [| |done].
  - intros H. rewrite <-app_assoc. by apply IH.
  - by intros [= <- <- <-].
Qed.

(** The order in which the sender leaves its list: strictly by place. *)
Definition strictly_ordered (l : list FileEntry) : Prop := StronglySorted (λ a b, entry_order a b = Lt) l.

Lemma strictly_keys l : strictly_ordered l → NoDup (map order_key l).
Proof.
  induction 1 as [|e l _ IH He]; cbn; constructor; [|done]. intros Hin%list_elem_of_fmap.
  destruct Hin as (x & Ex & Hx). rewrite Forall_forall in He. specialize (He x Hx). unfold entry_order in He.
  by rewrite Ex, (cmp_refl (cmp := pair_cmp Bool.compare (lex_cmp seg_cmp))) in He.
Qed.

Lemma sort_id sort l q : sorts sort → Forall short_name l → (Z.of_nat (length l) ≤ 2 ^ 32)%Z → strictly_ordered l →
  sort_file_list sort l q false = Some l.
Proof.
  intros Hs Hl Hn Hord. destruct (sort_file_list_correct sort Hs l q false Hl Hn) as (l' & E & Hp & Ho & _).
  rewrite E. f_equal. rewrite Forall_forall in Hl.
  apply (sorted_unique_by_key order_key (pair_cmp Bool.compare (lex_cmp seg_cmp)) compare_file_entries).
  - intros x y. rewrite Hp. intros Hx Hy. apply compare_entries_order; auto.
  - rewrite Hp. by apply strictly_keys.
  - done.
  - done.
  - assert (Hall : ∀ e, e ∈ l → short_name e) by done. clear -Hord Hall.
    induction Hord as [|e l _ IH He]; constructor.
    + apply IH. intros x Hx. apply Hall. by right.
    + apply Forall_forall. intros x Hx. rewrite Forall_forall in He. unfold cmp_le.
      rewrite compare_entries_order by (apply Hall; (by left) || (by right)). by rewrite (He x Hx).
Qed.

Lemma find_dup_none l i e : NoDup (fe_name <$> l) → l !! i = Some e → find_regfile_dup l i = None.
Proof.
  intros Hnd Hi. unfold find_regfile_dup. rewrite Hi. destruct (find_dup_below l (name_bytes e) i) as [j|] eqn:E; [|done].
  apply find_dup_below_spec in E as (Hj & x & Hx & _ & Hname & _).
  assert (i = j); [|lia]. eapply (NoDup_lookup _ i j (fe_name e) Hnd); rewrite list_lookup_fmap; [by rewrite Hi|].
  rewrite Hx. cbn. f_equal. exact Hname.
Qed.

Lemma clean_loop_id l stats n i prev : Forall (λ e, is_active e = true) l → NoDup (fe_name <$> l) →
  NoDup (entry_name <$> l) → prev < i → i + n = length l → clean_loop (seq i n) l stats prev = Some (l, stats).
Proof.
  intros Ha Hnd He. revert i prev. induction n as [|n IH]; intros i prev Hp Hn; [done|]. cbn [seq clean_loop].
  destruct (lookup_lt_is_Some_2 l i ltac:(lia)) as [e Ei]. destruct (lookup_lt_is_Some_2 l prev ltac:(lia)) as [p Ep].
  unfold clean_step. rewrite Ei, Ep. cbn [mbind option_bind]. rewrite Forall_lookup in Ha. rewrite (Ha _ _ Ei). cbn [negb].
  rewrite decide_False.
  2:{ intros E. assert (i = prev); [|lia]. eapply (NoDup_lookup _ i prev (entry_name e) He); rewrite list_lookup_fmap;
      [by rewrite Ei|by rewrite Ep, E]. }
  rewrite (find_dup_none l i e) by done. destruct (is_dir e); apply IH; lia.
Qed.

Lemma sort_and_clean_id sort l : sorts sort → Forall short_name l → (Z.of_nat (length l) ≤ 2 ^ 32)%Z →
  strictly_ordered l → Forall (λ e, is_active e = true) l → NoDup (fe_name <$> l) → NoDup (entry_name <$> l) →
  fst <$> sort_and_clean_file_list sort l true false false true = Some l.
Proof.
  intros Hs Hsh Hn Hord Ha Hnd He. unfold sort_and_clean_file_list. rewrite sort_id by done. cbn [mbind option_bind].
  unfold flist_clean. destruct l as [|e l]; [done|]. cbn [length Nat.eqb andb first_active].
  rewrite (Forall_inv Ha). cbn [negb Nat.leb]. by rewrite clean_loop_id by (done || cbn; lia).
Qed.

Lemma match_no_links l prior : Forall (λ e, hardlink_idx e = None) l → match_hard_links l prior = (l, prior).
Proof.
  intros H. unfold match_hard_links.
  assert (Hre : ∀ first i, reassign first i l prior = (l, prior)); [|by rewrite Hre].
  intros first. induction H as [|e l He _ IH]; intros i; [done|]. cbn [reassign]. by rewrite He, IH.
Qed.

(** ** What arrives *)

Definition arrived (w : FileListWriter) (e e' : FileEntry) : Prop := ∃ prev, received_as w prev e e'.

Lemma arrived_dir w e e' : arrived w e e' → is_dir e' = is_dir e.
Proof. intros [prev H]. unfold is_dir. by rewrite (ra_mode _ _ _ _ H). Qed.
Lemma arrived_name w e e' : arrived w e e' → fe_name e' = fe_name e.
Proof. intros [prev H]. exact (ra_name _ _ _ _ H). Qed.
Lemma arrived_order w a a' b b' : arrived w a a' → arrived w b b' → entry_order a' b' = entry_order a b.
Proof.
  intros Ha Hb. unfold entry_order, order_key.
  by rewrite (arrived_name _ _ _ Ha), (arrived_name _ _ _ Hb), (arrived_dir _ _ _ Ha), (arrived_dir _ _ _ Hb).
Qed.

Lemma received_arrived w w' prev l l' : same_options w w' → received_list w' prev l l' → Forall2 (arrived w) l l'.
Proof.
  intros Ho. revert prev l'. induction l as [|e l IH]; intros prev [|e' l']; cbn; try done.
  intros [H1 H2]. constructor; [|by eapply IH]. exists prev. by eapply received_options.
Qed.

Lemma arrived_ordered w l l' : Forall2 (arrived w) l l' → strictly_ordered l → strictly_ordered l'.
Proof.
  unfold strictly_ordered. induction 1 as [|e e' k k' He Hk IH]; [constructor|].
  intros [Hs Hf]%StronglySorted_inv. constructor; [by apply IH|]. clear -He Hk Hf.
  induction Hk as [|x x' k k' Hx _ IH]; [constructor|]. apply Forall_cons_1 in Hf as [Hex Hf].
  constructor; [|by apply IH]. rewrite (arrived_order _ _ _ _ _ He Hx). exact Hex.
Qed.

Lemma arrived_names w l l' : Forall2 (arrived w) l l' → fe_name <$> l' = fe_name <$> l.
Proof. induction 1 as [|e e' k k' He _ IH]; [done|]. by rewrite !fmap_cons, (arrived_name _ _ _ He), IH. Qed.

Lemma arrived_dirs w l l' : Forall2 (arrived w) l l' →
  name_bytes <$> List.filter is_dir l' = name_bytes <$> List.filter is_dir l.
Proof.
  induction 1 as [|e e' k k' He _ IH]; [done|]. cbn [List.filter]. rewrite (arrived_dir _ _ _ He).
  destruct (is_dir e); [|done]. rewrite !fmap_cons, IH. f_equal. exact (arrived_name _ _ _ He).
Qed.

Lemma arrived_forall w l l' (P Q : FileEntry → Prop) : Forall2 (arrived w) l l' →
  (∀ e e', arrived w e e' → P e → Q e') → Forall P l → Forall Q l'.
Proof. intros H HPQ. induction H; inversion_clear 1; constructor; eauto. Qed.

(** ** One list *)

(** A segment that the receiver takes as it is: strictly ordered, without names twice and
    without links, each entry directly below the directory [parent]. *)
Record good_segment (w : FileListWriter) (parent : list byte) (seg : list FileEntry) : Prop := {
  gs_ordered : strictly_ordered seg;
  gs_names : NoDup (fe_name <$> seg);
  gs_below : Forall (λ e, parent_name (entry_name e) = parent ∧ parent ≠ []) seg;
  gs_sendable : ∀ n, Forall (sendable (set_first_ndx n w)) seg;
  gs_short : (Z.of_nat (length seg) < 2 ^ 32)%Z;
}.

Lemma below_utf8 e parent : parent_name (entry_name e) = parent → parent ≠ [] →
  entry_name e = fe_name e ∧ parent_name (fe_name e) = parent.
Proof.
  unfold entry_name. destruct (valid_utf8 (fe_name e)); [done|]. intros <-. by destruct 1.
Qed.

Section finish.
Context (sort : ∀ A : Type, (A → A → comparison) → list A → list A)
        (values : gmap (Z * Z) (list nat) → list (list nat)).
Hypothesis Hsort : sorts sort.
Context (w : FileListWriter) (parent : list byte) (seg got : list FileEntry).
Hypothesis Hgood : good_segment w parent seg.
Hypothesis Hgot : Forall2 (arrived w) seg got.
Hypothesis Hnolinks : p_hard_links (fw_preserve w) = false.

Lemma got_belongs : Forall (λ e, fe_dirname e = parent) got.
Proof using Hgood Hgot.
  eapply arrived_forall; [exact Hgot| |apply (gs_below _ _ _ Hgood)]. intros e e' [prev H] [H1 H2].
  rewrite (ra_dirname _ _ _ _ H). by apply (below_utf8 _ _ H1 H2).
Qed.

Lemma got_no_links : Forall (λ e, hardlink_idx e = None) got.
Proof using Hgot Hnolinks.
  eapply (arrived_forall _ _ _ (λ _, True)); [exact Hgot| |by apply Forall_true]. intros e e' [prev H] _.
  by rewrite (ra_idx _ _ _ _ H), Hnolinks.
Qed.

Lemma got_clean : fst <$> sort_and_clean_file_list sort got true false false true = Some got.
Proof using Hsort Hgood Hgot.
  pose proof (arrived_names _ _ _ Hgot) as En.
  assert (Hutf : Forall (λ e, entry_name e = fe_name e) got).
  { eapply arrived_forall; [exact Hgot| |apply (gs_below _ _ _ Hgood)]. intros e e' He [H1 H2].
    destruct (below_utf8 _ _ H1 H2) as [E _]. unfold entry_name in *. by rewrite (arrived_name _ _ _ He). }
  assert (Hlong : Forall (λ e, fe_name e ≠ [] ∧ length (fe_name e) < MAXPATHLEN) got).
  { eapply arrived_forall; [exact Hgot| |apply (gs_sendable _ _ _ Hgood 0)]. intros e e' He Hs.
    rewrite (arrived_name _ _ _ He). by destruct (sd_name _ _ Hs) as [(? & _) ?]. }
  apply sort_and_clean_id; [done| |..].
  - eapply Forall_impl; [exact Hlong|]. intros e [_ Hl]. unfold short_name, u32_max, MAXPATHLEN in *. lia.
  - rewrite <-(Forall2_length _ _ _ Hgot). pose proof (gs_short _ _ _ Hgood). lia.
  - by eapply arrived_ordered, Hgood.
  - eapply Forall_impl; [exact Hlong|]. intros e [Hne _]. unfold is_active. by rewrite bool_decide_false.
  - rewrite En. apply Hgood.
  - assert (entry_name <$> got = fe_name <$> got) as ->; [|rewrite En; apply Hgood].
    clear -Hutf. induction Hutf as [|e l He _ IH]; [done|]. by rewrite !fmap_cons, He, IH.
Qed.

Lemma finish_got pre seg_ndx_start c : rc_hard_links c = false → rc_iconv_reorder_suppressed c = false →
  rc_file_list c = pre ++ got → finish_segment sort values (length pre) seg_ndx_start c = Some c.
Proof using Hsort Hgood Hgot Hnolinks.
  intros Hh Hi Hl. unfold finish_segment. rewrite Hh, Hi, Hl, take_app_length, drop_app_length, got_clean.
  cbn [mbind option_bind]. rewrite match_no_links by apply got_no_links. rewrite andb_false_r, <-Hl. by destruct c.
Qed.

End finish.

(** ** Both ends in step *)

(** The first [n] entries of the list [fl] were sent with the options of [w0]; [starts] are the
    places where the lists start. *)
Record in_step (start : Z) (fl : list FileEntry) (w0 : FileListWriter) (n : nat) (starts : list nat)
    (w : FileListWriter) (c : ReceiverContext) : Prop := {
  st_reader : ∃ r prev, rc_flist_reader_cache c = Some r ∧ session w r ∧
    synced (fw_preserve w) (fw_state w) (fr_state r) ∧ state_after (fw_state w) prev;
  st_options : same_options w0 w;
  st_list : Forall2 (arrived w0) (take n fl) (rc_file_list c);
  st_segments : rc_ndx_segments c = ndx_table start starts;
  st_names : rc_dir_flist_names c = name_bytes <$> dirs_of (take n fl);
  st_used : rc_dir_flist_used c = length (dirs_of (take n fl));
  st_flags : rc_hard_links c = false ∧ rc_iconv_reorder_suppressed c = false;
}.

Lemma same_options_trans w1 w2 w3 : same_options w1 w2 → same_options w2 w3 → same_options w1 w3.
Proof. unfold same_options. congruence. Qed.

Lemma options_first_ndx n w : same_options w (set_first_ndx n w).
Proof. done. Qed.

Lemma publish_fields dir_ndx flat_start c : ∃ o,
  publish_segment_to_delete_pipeline dir_ndx flat_start c = rc_with_observed o c.
Proof.
  unfold publish_segment_to_delete_pipeline. assert (Hc : c = rc_with_observed (rc_observed c) c) by (by destruct c).
  repeat case_match; eauto.
Qed.

(** The guards let the list of a directory through that was received and not served. *)
Lemma dir_ndx_valid (k : nat) c s : k < rc_dir_flist_used c → Z.of_nat k ∉ rc_served_dir_flists c →
  validate_extra_segment_dir_ndx (Z.of_nat k) c s =
    Some (rc_with_served ({[Z.of_nat k]} ∪ rc_served_dir_flists c) c, Ok (tt, s)).
Proof.
  intros Hk Hs. unfold validate_extra_segment_dir_ndx, mbind, recv_bind, get_ctx.
  rewrite (proj2 (Z.ltb_ge _ 0)) by lia. rewrite (proj2 (Z.leb_gt _ _)) by lia. cbn [orb].
  by rewrite bool_decide_false.
Qed.

Lemma path_valid (k : nat) pre got parent c s : rc_dir_flist_names c !! k = Some parent →
  rc_file_list c = pre ++ got → Forall (λ e, fe_dirname e = parent) got →
  validate_extra_segment_path_belongs (Z.of_nat k) (length pre) c s = Some (c, Ok (tt, s)).
Proof.
  intros Hp Hl Hgot. unfold validate_extra_segment_path_belongs, mbind, recv_bind, get_ctx.
  rewrite Nat2Z.id, Hp, Hl, drop_app_length.
  assert (forallb (λ e, bool_decide (strip_leading_slashes (fe_dirname e) = strip_leading_slashes parent)) got = true) as ->;
    [|done].
  apply forallb_forall. intros e He%list_elem_of_In. rewrite Forall_forall in Hgot. by rewrite (Hgot e He), bool_decide_true.
Qed.

Lemma ndx_written codec ndx : ndx_ok ndx → (write_ndx codec ndx).2 ≠ [].
Proof. intros Hn E. pose proof (ndx_roundtrip codec ndx [] Hn) as H. rewrite E in H. by destruct codec. Qed.

Section segment_received.
Context (sort : ∀ A : Type, (A → A → comparison) → list A → list A)
        (values : gmap (Z * Z) (list nat) → list (list nat)).
Hypothesis Hsort : sorts sort.
Context (start : Z) (fl : list FileEntry) (w0 : FileListWriter).
Hypothesis Hnolinks : p_hard_links (fw_preserve w0) = false.


(** The context after the entries [got] of a list were read, and after they were recorded. *)
Definition ctx_read (k : nat) (got : list FileEntry) (c : ReceiverContext) : ReceiverContext :=
  rc_with_list (rc_file_list c ++ got)
    (rc_with_cache None (rc_with_served ({[Z.of_nat k]} ∪ rc_served_dir_flists c) c)).
Definition ctx_recorded (k : nat) (ndx : Z) (r' : FileListReader) (got : list FileEntry) (c : ReceiverContext)
    : ReceiverContext :=
  rc_with_cache (Some r') (rc_with_segments (rc_ndx_segments c ++ [(length (rc_file_list c), ndx)])
    (rc_with_dirs (rc_dir_flist_used c + count_directories got)
       (rc_dir_flist_names c ++ (name_bytes <$> List.filter is_dir got)) (ctx_read k got c))).

Lemma receive_run (k : nat) c s r r' got parent rest prev ndx :
  rc_flist_reader_cache c = Some r → k < rc_dir_flist_used c → Z.of_nat k ∉ rc_served_dir_flists c →
  rc_dir_flist_names c !! k = Some parent → (Z.of_nat k < 2 ^ 31 - 101)%Z →
  last (rc_ndx_segments c) = Some prev → segment_ndx_start prev (length (rc_file_list c)) = ndx →
  read_segment (length s) [] (set_ndx_start ndx r) s = (r', Ok (got, rest)) →
  Forall (λ e, fe_dirname e = parent) got →
  finish_segment sort values (length (rc_file_list c)) ndx (ctx_read k got c) = Some (ctx_read k got c) →
  receive_one_extra_segment sort values (NDX_FLIST_OFFSET - Z.of_nat k) c s =
    Some (publish_segment_to_delete_pipeline (Z.of_nat k) (length (rc_file_list c)) (ctx_recorded k ndx r' got c),
          Ok (length got, rest)).
Proof using.
  intros Hcache Hk Hserved Hname Hmax Hlast Hndx Hread Hgot Hfin. unfold receive_one_extra_segment.
  rewrite (proj2 (Z.ltb_ge _ _)) by lia.
  replace (NDX_FLIST_OFFSET - (NDX_FLIST_OFFSET - Z.of_nat k))%Z with (Z.of_nat k) by lia.
  rewrite (swrap_small 32) by (unfold in_i; lia).
  unfold mbind, recv_bind. rewrite dir_ndx_valid by done. unfold get_ctx, modify_ctx, unwrap.
  cbn [rc_flist_reader_cache rc_with_served rc_ndx_segments rc_with_cache rc_file_list rc_built_reader].
  rewrite Hlast, Hcache. cbn [mbind option_bind default].
  rewrite Hndx. unfold read_list.
  rewrite <-(app_nil_r (rc_file_list (rc_with_cache None _))). erewrite read_entries_ok by exact Hread.
  change (rc_with_list (rc_file_list (rc_with_cache None _) ++ got) _) with (ctx_read k got c).
  rewrite (path_valid k _ got parent) by done. rewrite Hfin. cbn [mbind option_bind].
  change (rc_file_list (ctx_read k got c)) with (rc_file_list c ++ got).
  rewrite length_app. replace (length (rc_file_list c) + length got - length (rc_file_list c)) with (length got) by lia.
  unfold mret, recv_ret. do 3 f_equal. unfold record_dir_flist_names. cbn [rc_file_list rc_with_dirs ctx_read rc_with_list].
  by rewrite drop_app_length.
Qed.

Lemma segment_received n starts f w c (k : nat) d seg :
  in_step start fl w0 n starts w c → last starts = Some f → f ≤ n → n + length seg ≤ length fl →
  seg = take (length seg) (drop n fl) → dirs_of (take n fl) !! k = Some d →
  good_segment w0 (name_bytes d) seg → Z.of_nat k ∉ rc_served_dir_flists c →
  (0 ≤ start)%Z → (start + Z.of_nat n + Z.of_nat (length starts) < 2 ^ 31)%Z → (Z.of_nat k < 2 ^ 31 - 101)%Z →
  let ndx := (start + Z.of_nat n + Z.of_nat (length starts))%Z in
  ∃ body w' c', send_segment seg None (set_first_ndx ndx w) = Some (body, w') ∧
    (∀ rest, receive_one_extra_segment sort values (NDX_FLIST_OFFSET - Z.of_nat k) c (body ++ rest) =
       Some (c', Ok (length seg, rest))) ∧
    in_step start fl w0 (n + length seg) (starts ++ [n]) w' c' ∧
    rc_served_dir_flists c' = {[Z.of_nat k]} ∪ rc_served_dir_flists c ∧ rc_flist_eof c' = rc_flist_eof c.
Proof using Hsort Hnolinks.
  intros Hstep Hlast Hf Hlen Hseg Hd Hgood Hserved H0 Hmax Hk ndx.
  destruct (st_reader _ _ _ _ _ _ _ Hstep) as (r & prev & Hcache & Hs & Hy & Hst).
  pose proof (st_options _ _ _ _ _ _ _ Hstep) as Hopt.
  destruct (segment_transmitted (set_first_ndx ndx w) (set_ndx_start ndx r) prev seg None)
    as (body & w' & r' & got & Hsend & Hrec & Hread & (Hs' & Hy' & Ho' & prev' & Hst') & _); [by destruct Hs|by destruct Hy|done| |done|].
  { eapply Forall_impl; [apply (gs_sendable _ _ _ Hgood ndx)|]. intros e. by apply sendable_options. }
  assert (Hgot : Forall2 (arrived w0) seg got) by (by eapply received_arrived; [|exact Hrec]).
  pose proof (st_list _ _ _ _ _ _ _ Hstep) as Hl. assert (Hn : length (rc_file_list c) = n).
  { rewrite <-(Forall2_length _ _ _ Hl), length_take. lia. }
  destruct (st_flags _ _ _ _ _ _ _ Hstep) as [Hh Hi].
  pose proof (st_names _ _ _ _ _ _ _ Hstep) as Hnames. pose proof (st_used _ _ _ _ _ _ _ Hstep) as Hused.
  destruct (publish_fields (Z.of_nat k) n (ctx_recorded k ndx r' got c)) as [o Ho].
  exists body, w', (rc_with_observed o (ctx_recorded k ndx r' got c)). split; [done|]. split; [|split; [|done]].
  - intros rest. rewrite <-Ho, <-Hn, (Forall2_length _ _ _ Hgot). rewrite Hn.
    destruct (next_ndx_start start starts f n Hlast Hf H0 Hmax) as (p & Hp & Hndx).
    rewrite <-Hn in Hndx |- *. apply (receive_run k c _ r r' got (name_bytes d) rest p ndx); try done.
    + rewrite Hused. by eapply lookup_lt_Some.
    + by rewrite Hnames, list_lookup_fmap, Hd.
    + by rewrite (st_segments _ _ _ _ _ _ _ Hstep).
    + rewrite Hndx. unfold ndx. by rewrite Hn.
    + by eapply got_belongs.
    + eapply finish_got; try done.
  - assert (Htake : take (n + length seg) fl = take n fl ++ seg).
    { rewrite Hseg at 2. by rewrite take_take_drop. }
    split.
    + exists r', prev'. done.
    + eapply same_options_trans; [exact Hopt|]. eapply same_options_trans; [apply (options_first_ndx ndx)|done].
    + rewrite Htake. by apply Forall2_app.
    + cbn. rewrite (st_segments _ _ _ _ _ _ _ Hstep), ndx_table_snoc, Hn. done.
    + cbn. rewrite Htake, Hnames. unfold dirs_of. rewrite List.filter_app, fmap_app. by rewrite (arrived_dirs _ _ _ Hgot).
    + cbn. rewrite Htake, Hused. unfold dirs_of, count_directories. rewrite List.filter_app, length_app.
      rewrite <-(length_fmap name_bytes (List.filter is_dir got)), (arrived_dirs _ _ _ Hgot). by rewrite length_fmap.
    + done.
Qed.

(** The receiver reads a frame that holds a list. *)
Lemma frame_received codec (k : nat) c c' body m rest : (Z.of_nat k < 2 ^ 31 - 101)%Z →
  receive_one_extra_segment sort values (NDX_FLIST_OFFSET - Z.of_nat k) c (body ++ rest) = Some (c', Ok (m, rest)) →
  let '(codec', header) := write_ndx codec (NDX_FLIST_OFFSET - Z.of_nat k) in
  header ≠ [] ∧
  read_next_frame sort values codec c ((header ++ body) ++ rest) = Some (c', Ok (Segment (Z.of_nat k), codec', rest)).
Proof using.
  intros Hk Hrec. set (v := (NDX_FLIST_OFFSET - Z.of_nat k)%Z) in *.
  assert (Hv : (-2 ^ 31 < v ≤ -101)%Z) by (unfold v, NDX_FLIST_OFFSET; lia).
  assert (Hok : ndx_ok v) by (unfold ndx_ok; lia).
  pose proof (ndx_written codec v Hok) as Hne. pose proof (ndx_roundtrip codec v (body ++ rest) Hok) as E.
  destruct (write_ndx codec v) as [codec' header]. cbn [fst snd] in *. split; [done|].
  unfold read_next_frame, mbind, recv_bind, on_wire. rewrite <-app_assoc, E.
  rewrite (proj2 (Z.eqb_neq v NDX_FLIST_EOF)) by (unfold NDX_FLIST_EOF; lia).
  rewrite (proj2 (Z.eqb_neq v NDX_DONE)) by (unfold NDX_DONE; lia).
  rewrite (proj2 (Z.leb_le v NDX_FLIST_OFFSET)) by (unfold NDX_FLIST_OFFSET; lia). rewrite Hrec. unfold mret, recv_ret.
  repeat f_equal. unfold v. rewrite swrap_small by (unfold in_i, NDX_FLIST_OFFSET; lia). lia.
Qed.

(** A pending list that the receiver has the directory of and takes as it is. *)
Definition expected (p : PendingSegment) : Prop := ∃ (k : nat) d, parent_dir_ndx p = Z.of_nat k ∧
  dirs_of (take (flist_start p) fl) !! k = Some d ∧ good_segment w0 (name_bytes d) (segment_entries fl p).

Lemma one_list n starts parents f s c p : in_step start fl w0 n starts (sn_writer s) c →
  table_of start starts parents (sn_ctx s) → g_file_list (sn_ctx s) = fl → last starts = Some f → f ≤ n →
  flist_start p = n → n + ps_count p ≤ length fl → expected p → (0 ≤ parent_flat_idx p < 2 ^ 31)%Z →
  parent_dir_ndx p ∉ rc_served_dir_flists c → (0 ≤ start)%Z →
  (start + Z.of_nat n + Z.of_nat (length starts) < 2 ^ 31)%Z → (Z.of_nat (length fl) < 2 ^ 31 - 101)%Z →
  ∃ out s' c', encode_and_send_segment p s = Some (out, s') ∧ out ≠ [] ∧
    (∀ rest, ∃ frame, read_next_frame sort values (sn_codec s) c (out ++ rest) = Some (c', Ok (Segment frame, sn_codec s', rest))) ∧
    in_step start fl w0 (n + ps_count p) (starts ++ [n]) (sn_writer s') c' ∧
    table_of start (starts ++ [n]) (parents ++ [parent_flat_idx p]) (sn_ctx s') ∧ g_file_list (sn_ctx s') = fl ∧
    rc_served_dir_flists c' = {[parent_dir_ndx p]} ∪ rc_served_dir_flists c ∧ rc_flist_eof c' = rc_flist_eof c.
Proof using Hsort Hnolinks.
  intros Hstep Ht Hfl Hlast Hf Hp Hlen (k & d & Hk & Hd & Hgood) Hpar Hserved H0 Hmax Hsmall.
  rewrite Hp in Hd. rewrite Hk in Hserved |- *.
  assert (Hkb : k < length fl).
  { apply lookup_lt_Some in Hd. unfold dirs_of in Hd. pose proof (List.filter_length_le is_dir (take n fl)) as Hle.
    rewrite length_take in Hle. lia. }
  assert (Hseglen : length (segment_entries fl p) = ps_count p).
  { unfold segment_entries. rewrite length_take, length_drop. lia. }
  destruct (push_segment_table _ _ _ _ p f Ht Hlast ltac:(lia) H0 Hpar ltac:(lia)) as (prev & Hprev & Hndx & Ht').
  destruct (segment_received n starts f (sn_writer s) c k d (segment_entries fl p))
    as (body & w' & c' & Hsend & Hrec & Hstep' & Hs' & He'); try done; [lia| |lia|].
  { unfold segment_entries. rewrite length_take, length_drop, Nat.min_l by lia. by rewrite Hp. }
  assert (Eheader : swrap 32 (NDX_FLIST_OFFSET - Z.of_nat k) = (NDX_FLIST_OFFSET - Z.of_nat k)%Z)
    by (apply swrap_small; unfold in_i, NDX_FLIST_OFFSET; lia).
  destruct (write_ndx (sn_codec s) (NDX_FLIST_OFFSET - Z.of_nat k)) as [codec' header] eqn:Ew.
  exists (header ++ body), (mkSending (push_segment p (segment_ndx_start prev (flist_start p)) (sn_ctx s)) w' codec'
                             (sn_flist_eof_sent s)), c'.
  assert (Hframe : ∀ rest, header ≠ [] ∧ read_next_frame sort values (sn_codec s) c ((header ++ body) ++ rest) =
    Some (c', Ok (Segment (Z.of_nat k), codec', rest))).
  { intros rest. pose proof (frame_received (sn_codec s) k c c' body _ rest ltac:(lia) (Hrec rest)) as H. by rewrite Ew in H. }
  split; [|split_and!].
  - unfold encode_and_send_segment. rewrite Hprev. cbn [mbind option_bind]. rewrite Hk, Eheader, Ew.
    cbn [push_segment g_file_list]. rewrite Hfl, Hp in *. rewrite (proj2 (Nat.leb_le _ _)) by lia.
    rewrite Hndx.
    unfold segment_entries in Hsend. rewrite Hp in Hsend. rewrite Hsend. done.
  - destruct (Hframe []) as [Hh _]. by destruct header.
  - intros rest. exists (Z.of_nat k). apply Hframe.
  - by rewrite <-Hseglen.
  - by rewrite <-Hp.
  - done.
  - done.
  - done.
Qed.

Lemma all_lists segs : (0 ≤ start)%Z → (Z.of_nat (length fl) < 2 ^ 31 - 101)%Z → ∀ n starts parents f s c,
  in_step start fl w0 n starts (sn_writer s) c → table_of start starts parents (sn_ctx s) →
  g_file_list (sn_ctx s) = fl → last starts = Some f → f ≤ n → tiles n segs (length fl) →
  Forall expected segs → Forall (λ p, 0 ≤ parent_flat_idx p < 2 ^ 31)%Z segs → NoDup (parent_dir_ndx <$> segs) →
  (∀ p, p ∈ segs → parent_dir_ndx p ∉ rc_served_dir_flists c) → rc_flist_eof c = false →
  (start + Z.of_nat (length fl) + Z.of_nat (length starts + length segs) ≤ 2 ^ 31)%Z →
  ∃ out s' c', send_segments segs s = Some (out, s') ∧ length segs ≤ length out ∧
    (∀ fuel rest, ensure_all_segments_loaded sort values (length segs + fuel) (sn_codec s) c (out ++ rest) =
       ensure_all_segments_loaded sort values fuel (sn_codec s') c' rest) ∧
    in_step start fl w0 (length fl) (starts ++ (flist_start <$> segs)) (sn_writer s') c' ∧
    table_of start (starts ++ (flist_start <$> segs)) (parents ++ (parent_flat_idx <$> segs)) (sn_ctx s') ∧
    rc_flist_eof c' = false.
Proof using Hsort Hnolinks.
  intros H0 Hsmall. induction segs as [|p segs IH]; intros n starts parents f s c Hstep Ht Hfl Hlast Hf Htile Hex Hpar Hnd Hserved Heof Hmax.
  { cbn in Htile. subst n. exists [], s, c. rewrite !app_nil_r. by split_and!. }
  apply Forall_cons_1 in Hex as [Hexp Hex], Hpar as [Hp Hpar]. cbn [length] in Hmax.
  pose proof (tiles_in _ _ _ p Htile ltac:(by left)) as Hend.
  destruct Htile as [Hst Htile]. rewrite Hst in Hend. rewrite fmap_cons in Hnd. apply NoDup_cons in Hnd as [Hnotin Hnd].
  destruct (one_list n starts parents f s c p) as (out1 & s1 & c1 & E1 & Hne & Hframe & Hstep1 & Ht1 & Hfl1 & Hserved1 & Heof1);
    try done; [by apply Hserved; left|lia|].
  destruct (IH (n + ps_count p) (starts ++ [n]) (parents ++ [parent_flat_idx p]) n s1 c1)
    as (out2 & s2 & c2 & E2 & Hlen2 & Hrun & Hstep2 & Ht2 & Heof2); try done.
  - by rewrite last_snoc.
  - lia.
  - intros q Hq. rewrite Hserved1, elem_of_union, elem_of_singleton. intros [E|Hin].
    + apply Hnotin. rewrite <-E. by apply list_elem_of_fmap_2.
    + by apply (Hserved q); [right|].
  - congruence.
  - rewrite length_app. cbn [length]. lia.
  - exists (out1 ++ out2), s2, c2. split_and!.
    + cbn [send_segments]. rewrite E1. cbn [mbind option_bind]. rewrite E2. done.
    + rewrite length_app. cbn [length]. destruct out1; [done|]. cbn [length]. lia.
    + intros fuel rest. cbn [length Nat.add ensure_all_segments_loaded]. unfold mbind at 1, recv_bind at 1, get_ctx at 1.
      rewrite Heof. unfold mbind at 1, recv_bind at 1. rewrite <-app_assoc.
      destruct (Hframe (out2 ++ rest)) as [frame ->]. apply Hrun.
    + rewrite fmap_cons, Hst. by rewrite <-app_assoc in Hstep2.
    + rewrite !fmap_cons, Hst. by rewrite <-!app_assoc in Ht2.
    + done.
Qed.

End segment_received.

(** ** Segments of a sorted list *)

Lemma ordered_sublist l k : k `sublist_of` l → strictly_ordered l → strictly_ordered k.
Proof.
  unfold strictly_ordered. induction 1 as [|x l k H IH|x l k H IH]; [done|..]; intros [Hs Hf]%StronglySorted_inv.
  - constructor; [by apply IH|]. rewrite Forall_forall in Hf |- *. intros y Hy. apply Hf. by eapply elem_of_sublist.
  - by apply IH.
Qed.

Lemma segment_expected g g' n0 w p : partitioned g g' n0 → p ∈ pending_segments (g_incremental g') →
  strictly_ordered (g_file_list g) → NoDup (fe_name <$> g_file_list g) →
  (∀ n e, e ∈ g_file_list g → parent_name (fe_name e) ≠ [] → sendable (set_first_ndx n w) e) →
  (Z.of_nat (length (g_file_list g')) < 2 ^ 32)%Z → expected (g_file_list g') w p.
Proof.
  intros Hpt Hp Hord Hnd Hsend Hlen. pose proof (pt_segments _ _ _ Hpt) as Hs. rewrite Forall_forall in Hs.
  destruct (Hs p Hp) as [(j & d & _ & _ & _ & Hk & Hd & Hne & Hbelow) Hsub].
  exists (dirs_before (g_file_list g') j), d. split_and!; [done..|]. rewrite Forall_forall in Hbelow.
  assert (Hpar : ∀ e, e ∈ segment_entries (g_file_list g') p →
    parent_name (entry_name e) = name_bytes d ∧ name_bytes d ≠ []).
  { intros e He. assert (Hdn : entry_name d ≠ []) by (apply Hne; by destruct (segment_entries _ p); [inversion He|]).
    rewrite (Hbelow e He). unfold entry_name, name_bytes in *. by destruct (valid_utf8 (fe_name d)). }
  split.
  - by eapply ordered_sublist.
  - eapply sublist_NoDup; [exact Hnd|]. by apply fmap_sublist.
  - apply Forall_forall. exact Hpar.
  - intros n. apply Forall_forall. intros e He. apply Hsend; [by eapply elem_of_sublist|].
    destruct (Hpar e He) as [H1 H2]. by destruct (below_utf8 _ _ H1 H2) as [_ ->].
  - unfold segment_entries. rewrite length_take, length_drop. lia.
Qed.

(** The receiver finds the place of its own indices again. *)
Lemma wire_to_flat_ok start starts c i k f : ordered_starts starts (length (rc_file_list c)) →
  rc_ndx_segments c = ndx_table start starts → i < length (rc_file_list c) → starts !! k = Some f → f ≤ i →
  (∀ j b, k < j → starts !! j = Some b → i < b) →
  rc_wire_to_flat_ndx c (start + Z.of_nat i + Z.of_nat k) = Some i.
Proof.
  intros Hord Ht Hi Hf Hfi Hafter. unfold rc_wire_to_flat_ndx.
  rewrite Ht, (wire_segment start starts _ Hord i k f) by done. rewrite !ndx_table_lookup, Hf.
  cbn [fmap option_fmap option_map mbind option_bind]. rewrite (proj2 (Z.ltb_ge _ _)) by lia.
  replace (f + Z.to_nat (start + Z.of_nat i + Z.of_nat k - (start + Z.of_nat f + Z.of_nat k))) with i by lia.
  destruct (starts !! S k) as [b|] eqn:Eb; cbn [fmap option_fmap option_map default fst];
    rewrite (proj2 (Nat.leb_gt _ _)); [done| |done|done]. by apply (Hafter (S k)); [lia|].
Qed.

(** Both ends find the entry of an index in the same table. *)
Lemma indices_back start starts g c i : ordered_starts starts (length (rc_file_list c)) → (0 ≤ start)%Z →
  (start + Z.of_nat (length (rc_file_list c)) + Z.of_nat (length starts) < 2 ^ 31)%Z →
  rc_ndx_segments c = ndx_table start starts → ndx_segments (g_incremental g) = ndx_table start starts →
  i < length (rc_file_list c) →
  ∃ ndx, flat_to_wire_ndx c i = Some ndx ∧ rc_wire_to_flat_ndx c ndx = Some i ∧ resolve_itemize_ndx g ndx = Some (Z.of_nat i).
Proof.
  intros Hos H0 Hmax Hc Hg Hi.
  destruct (flat_to_wire_ok start _ _ Hos H0 Hmax i Hi) as (k & f & Hk & Hfi & Hafter & E).
  eexists. split; [unfold flat_to_wire_ndx; by rewrite Hc|]. split.
  - by eapply (wire_to_flat_ok start).
  - by apply (resolve_entry start _ _ Hos H0 Hmax _ Hg i k f).
Qed.

Lemma eof_received sort values codec c rest : rc_flist_eof c = false →
  let '(codec', eof) := write_ndx codec NDX_FLIST_EOF in eof ≠ [] ∧
  ∀ fuel, ensure_all_segments_loaded sort values (S (S fuel)) codec c (eof ++ rest) =
    Some (rc_with_eof true c, Ok (codec', rest)).
Proof.
  intros Heof. pose proof (ndx_written codec NDX_FLIST_EOF ltac:(by unfold ndx_ok, NDX_FLIST_EOF; lia)) as Hne.
  pose proof (ndx_roundtrip codec NDX_FLIST_EOF rest ltac:(by unfold ndx_ok, NDX_FLIST_EOF; lia)) as E.
  destruct (write_ndx codec NDX_FLIST_EOF) as [codec' eof]. cbn [fst snd] in *. split; [done|]. intros fuel.
  cbn [ensure_all_segments_loaded]. unfold mbind, recv_bind, get_ctx. rewrite Heof.
  unfold read_next_frame, mbind, recv_bind, on_wire, modify_ctx, mret, recv_ret. rewrite E, Z.eqb_refl. done.
Qed.

(** ** Lists from any sender *)

Section any_sender.
Context (D : list byte → Prop).

(** An entry that is not cleared has a directory in [D]. *)
Definition inside (e : FileEntry) : Prop := is_active e = true → D (fe_dirname e).

Lemma insert_all {A} (P : A → Prop) l i x : P x → Forall P l → Forall P (<[i := x]> l).
Proof.
  intros Hx Hl. apply Forall_lookup. intros j y Hy. rewrite Forall_lookup in Hl.
  destruct (decide (i = j)) as [->|Hne]; [|rewrite list_lookup_insert_ne in Hy by done; by eapply Hl].
  assert (j < length l) by (apply lookup_lt_Some in Hy; by rewrite length_insert in Hy).
  rewrite list_lookup_insert_eq in Hy by done. by injection Hy as <-.
Qed.

Lemma place_all {A} (P : A → Prop) keys positions l placed l' : Forall P l →
  place_from positions keys l placed = Some l' → Forall P l'.
Proof.
  assert (Hchase : ∀ fuel i j l placed l' placed', Forall P l → chase fuel keys i j l placed = Some (l', placed') → Forall P l').
  { induction fuel as [|fuel IH]; intros i j k pl k' pl' Hk; [done|]. cbn [chase].
    destruct (keys !! j) as [key|]; [|done]. cbn [mbind option_bind]. destruct (_ =? _); [by intros [= <- _]|].
    unfold swap. destruct (k !! j) as [x|] eqn:Ex; [|done]. destruct (k !! key_index key) as [y|] eqn:Ey; [|done].
    cbn [mbind option_bind]. apply IH. rewrite Forall_lookup in Hk. by apply insert_all, insert_all, Forall_lookup; [eapply Hk..|]. }
  revert l placed. induction positions as [|i positions IH]; intros l placed Hl; cbn [place_from]; [by intros [= <-]|].
  destruct (keys !! i) as [key|]; [|done]. cbn [mbind option_bind]. destruct (_ || _); [by apply IH|].
  destruct (chase _ _ _ _ _ _) as [[k pl]|] eqn:E; [|done]. cbn [mbind option_bind]. apply IH. by eapply Hchase.
Qed.

Lemma clean_all positions l stats prev l' stats' : Forall inside l →
  clean_loop positions l stats prev = Some (l', stats') → Forall inside l'.
Proof.
  revert l stats prev. induction positions as [|i positions IH]; intros l stats prev Hl; cbn [clean_loop]; [by intros [= <- _]|].
  destruct (clean_step l stats prev i) as [[[l1 stats1] prev1]|] eqn:E; [|done]. cbn [mbind option_bind]. apply IH.
  revert E. unfold clean_step. destruct (l !! i) as [e|] eqn:Ei; [|done]. cbn [mbind option_bind].
  destruct (negb (is_active e)); [by intros [= <- _ _]|]. destruct (l !! prev) as [p|]; [|done]. cbn [mbind option_bind].
  destruct (if decide _ then _ else _) as [j|]; [|by intros [= <- _ _]]. destruct (l !! j) as [w|] eqn:Ew; [|done].
  cbn [mbind option_bind]. rewrite Forall_lookup in Hl. pose proof (Hl _ _ Ew) as Hw. rewrite <-Forall_lookup in Hl.
  destruct (resolve_duplicate w e stats) as [[w' take_read] stats2] eqn:Er.
  assert (Hw' : inside w').
  { unfold resolve_duplicate in Er. unfold inside in *. destruct (is_dir w), (is_dir e); injection Er as <- _ _; try done.
    by destruct (top_dir e), (content_dir e). }
  destruct take_read; intros [= <- _ _]; (apply insert_all; [done|]); by apply insert_all.
Qed.

Lemma sort_and_clean_all sort l l' : Forall inside l →
  fst <$> sort_and_clean_file_list sort l true false false true = Some l' → Forall inside l'.
Proof.
  intros Hl. unfold sort_and_clean_file_list. destruct (sort_file_list sort l true false) as [k|] eqn:E; [|done].
  assert (Hk : Forall inside k).
  { revert E. unfold sort_file_list. destruct (_ <=? 1); [by intros [= <-]|]. by apply place_all. }
  cbn [mbind option_bind]. unfold flist_clean. destruct (_ =? 0); [by intros [= <-]|]. cbn [andb].
  destruct (_ <=? _); [by intros [= <-]|]. destruct (clean_loop _ _ _ _) as [[m st]|] eqn:Ec; [|done].
  intros [= <-]. by eapply clean_all.
Qed.

Lemma links_all values l n prior : Forall inside l →
  Forall inside (assign_leader_ndx n 0 l) ∧ Forall inside (match_hard_links l prior).1 ∧
  Forall inside (normalize_pre30_hardlinks values l).
Proof.
  intros Hl. split_and!.
  - generalize 0. induction Hl as [|e l He _ IH]; intros i; cbn; constructor; [by destruct (hlink_first e)|done].
  - unfold match_hard_links. generalize (first_places 0 l ∅). intros first. generalize 0. revert prior.
    induction Hl as [|e l He _ IH]; intros prior i; cbn [reassign]; [constructor|].
    destruct (hardlink_idx e) as [gnum|]; [destruct (_ && _)|]; cbn beta iota zeta;
      (destruct (reassign _ _ _ _) as [k pr] eqn:E; constructor; [done|]; change k with (k, pr).1; rewrite <-E; apply IH).
  - unfold normalize_pre30_hardlinks. generalize (values (group_places 0 l ∅)). intros groups. revert l Hl.
    assert (Hmark : ∀ indices gnum first l, Forall inside l → Forall inside (mark_group gnum first indices l)).
    { induction indices as [|i indices IH]; intros gnum first l Hl; [done|]. cbn [mark_group]. apply IH.
      apply Forall_alter; [done|]. by intros. }
    induction groups as [|indices groups IH]; intros l Hl; [done|]. cbn [foldl]. apply IH.
    unfold normalize_group. destruct indices as [|i [|]]; [done..|]. by apply Hmark.
Qed.

Lemma finish_all sort values pre got ndx c c' : rc_file_list c = pre ++ got → Forall inside got →
  finish_segment sort values (length pre) ndx c = Some c' →
  ∃ added prior, c' = rc_with_prior prior (rc_with_list (pre ++ added) c) ∧ Forall inside added.
Proof.
  intros Hl Hgot. unfold finish_segment. rewrite Hl, take_app_length, drop_app_length.
  set (t1 := if rc_hard_links c then _ else got).
  assert (H1 : Forall inside t1) by (unfold t1; destruct (rc_hard_links c); [by apply (links_all values _ _ ∅)|done]).
  destruct (if rc_iconv_reorder_suppressed c then _ else _) as [t2|] eqn:E2; [|done]. cbn [mbind option_bind].
  assert (H2 : Forall inside t2).
  { destruct (rc_iconv_reorder_suppressed c); [by injection E2 as <-|by eapply sort_and_clean_all]. }
  destruct (match_hard_links t2 (rc_prior_hlinks c)) as [t3 prior] eqn:E3.
  assert (H3 : Forall inside t3) by (change t3 with (t3, prior).1; rewrite <-E3; by apply (links_all values _ 0)).
  intros [= <-]. eexists _, prior. split; [done|]. destruct (_ && _); [by apply (links_all values _ 0 ∅)|done].
Qed.

End any_sender.

Lemma read_entries_app pre fuel acc r s r' l res :
  read_entries fuel (length pre) (pre ++ acc) r s = (r', l, res) → ∃ got, l = pre ++ got.
Proof.
  revert acc r s. induction fuel as [|fuel IH]; intros acc r s; cbn [read_entries]; [intros [= _ <- _]; by exists acc|].
  destruct (read_entry_with_flist _ r s) as [r1 [[[e|] s1]|err]].
  - rewrite <-app_assoc. apply IH.
  - intros [= _ <- _]. by exists acc.
  - intros [= _ <- _]. by exists acc.
Qed.

(** The guard of the paths: all the entries are inside, or the list is as before. *)
Lemma path_guard k pre got c s : rc_file_list c = pre ++ got →
  validate_extra_segment_path_belongs k (length pre) c s =
    match rc_dir_flist_names c !! Z.to_nat k with
    | Some parent =>
        if forallb (λ e, bool_decide (strip_leading_slashes (fe_dirname e) = strip_leading_slashes parent)) got
        then Some (c, Ok (tt, s)) else Some (rc_with_list pre c, Err Unsupported)
    | None => Some (c, Ok (tt, s))
    end.
Proof.
  intros Hl. unfold validate_extra_segment_path_belongs, mbind, recv_bind, get_ctx.
  rewrite Hl, take_app_length, drop_app_length. destruct (rc_dir_flist_names c !! _); [|done]. by destruct (forallb _ _).
Qed.

(** The check passes unless the receiver has the name of the directory and an entry is not in it. *)
Lemma path_guard_cases k pre got c s : rc_file_list c = pre ++ got →
  validate_extra_segment_path_belongs k (length pre) c s = Some (rc_with_list pre c, Err Unsupported) ∨
  validate_extra_segment_path_belongs k (length pre) c s = Some (c, Ok (tt, s)) ∧
    Forall (λ e, ∀ parent, rc_dir_flist_names c !! Z.to_nat k = Some parent →
                   strip_leading_slashes (fe_dirname e) = strip_leading_slashes parent) got.
Proof.
  intros Hl. rewrite (path_guard k pre got) by done.
  destruct (rc_dir_flist_names c !! Z.to_nat k) as [parent|]; [|right; split; [done|]; by apply Forall_true].
  destruct (forallb _ got) eqn:E; [right; split; [done|]|by left].
  rewrite forallb_forall in E. apply Forall_forall. intros e He%list_elem_of_In p [= <-].
  by apply E, bool_decide_eq_true in He.
Qed.

(** ** Properties *)

(** C4: Incremental recursion works from end to end: when both ends have exchanged the first
    list, all the lists of directories that the sender makes of a sorted list without names
    twice pass the guards of the receiver, who takes exactly the bytes that were sent; at the
    end marker the receiver has every entry in the order of the sender, both ends have the
    same table of indices, and the index of each entry leads both ends back to it.  Hard links
    are not preserved, names are not converted, the entries below the top can be sent, and the
    indices stay within 31 bits. *)
Theorem lists_arrive (sort : ∀ A : Type, (A → A → comparison) → list A → list A)
    (values : gmap (Z * Z) (list nat) → list (list nat)) (g g' : GeneratorContext) (n0 : nat) (start : Z)
    (s : Sending) (c : ReceiverContext) :
  sorts sort → g_inc_recurse g = true → g_file_list g ≠ [] → length (g_source_bases g) = length (g_file_list g) →
  g_incremental g = incremental_new start → (0 ≤ start)%Z →
  (start + 2 * Z.of_nat (length (g_file_list g)) < 2 ^ 31 - 102)%Z →
  strictly_ordered (g_file_list g) → NoDup (fe_name <$> g_file_list g) →
  (∀ n e, e ∈ g_file_list g → parent_name (fe_name e) ≠ [] → sendable (set_first_ndx n (sn_writer s)) e) →
  p_hard_links (fw_preserve (sn_writer s)) = false →
  partition_file_list_for_inc_recurse g = Some g' → initial_segment_count (g_incremental g') = Some n0 →
  sn_ctx s = g' → sn_flist_eof_sent s = false →
  in_step start (g_file_list g') (sn_writer s) n0 [0] (sn_writer s) c →
  rc_served_dir_flists c = ∅ → rc_flist_eof c = false →
  ∃ out s' c', flush_extra_lists (scheduler_new (pending_segments (g_incremental g'))) s = Some (out, s') ∧
    (∀ rest, ensure_all_segments_loaded sort values (S (length (out ++ rest))) (sn_codec s) c (out ++ rest) =
       Some (c', Ok (sn_codec s', rest))) ∧
    rc_flist_eof c' = true ∧ Forall2 (arrived (sn_writer s)) (g_file_list g') (rc_file_list c') ∧
    rc_ndx_segments c' = ndx_segments (g_incremental (sn_ctx s')) ∧
    ∀ i, i < length (g_file_list g') → ∃ ndx, flat_to_wire_ndx c' i = Some ndx ∧
      rc_wire_to_flat_ndx c' ndx = Some i ∧ resolve_itemize_ndx (sn_ctx s') ndx = Some (Z.of_nat i).
Proof.
  intros Hsort Hinc Hne Hb Hnew H0 Hmax Hord Hnd Hsend Hlinks Epart Hn0 Ectx Heofs Hstep Hserved Heof.
  destruct (partition_ok g Hinc Hne Hb ltac:(lia)) as (g1 & n1 & E & Hpt); [by rewrite Hnew|].
  rewrite Epart in E. injection E as <-. assert (n1 = n0) as -> by (pose proof (pt_initial _ _ _ Hpt); congruence).
  pose proof (pending_few _ _ _ Hpt) as Hfew. pose proof (partitioned_length _ _ _ Hpt Hb) as Hlen.
  pose proof (tiles_ordered _ _ _ (pt_tiles _ _ _ Hpt)) as Hos.
  destruct (all_lists sort values Hsort start (g_file_list g') (sn_writer s) Hlinks
              (pending_segments (g_incremental g')) H0 ltac:(lia) n0 [0] [root_flat (g_file_list g')] 0 s c)
    as (out & s1 & c1 & Hout & Hlout & Hrun & Hstep1 & [Ht1 _] & Heof1); try done; try apply Hpt; try (cbn [length]; lia).
  - rewrite Ectx. split; [rewrite (pt_ndx _ _ _ Hpt)|rewrite (pt_root _ _ _ Hpt)]; rewrite Hnew; cbn; [|done].
    repeat f_equal. lia.
  - by rewrite Ectx.
  - apply Forall_forall. intros p Hp. eapply segment_expected; try done. lia.
  - eapply Forall_impl; [apply (pt_segments _ _ _ Hpt)|]. intros p [(j & d & -> & Hj & _) _]. apply lookup_lt_Some in Hj. lia.
  - intros p _. rewrite Hserved. apply not_elem_of_empty.
  - cbn [app] in Ht1, Hstep1. unfold flush_extra_lists. rewrite Heofs. unfold scheduler_remaining, scheduler_new. cbn [ss_cursor ss_segments].
    rewrite drop_0, Hout. cbn [mbind option_bind]. unfold send_flist_eof.
    pose proof (λ rest, eof_received sort values (sn_codec s1) c1 rest Heof1) as He.
    destruct (write_ndx (sn_codec s1) NDX_FLIST_EOF) as [codec' eof].
    exists (out ++ eof), (mkSending (sn_ctx s1) (sn_writer s1) codec' true), (rc_with_eof true c1).
    pose proof (st_list _ _ _ _ _ _ _ Hstep1) as Hl. rewrite firstn_all in Hl.
    pose proof (st_segments _ _ _ _ _ _ _ Hstep1) as Hs1. pose proof (Forall2_length _ _ _ Hl) as Hll.
    split_and!; [done| |done|done|exact (eq_trans Hs1 (eq_sym Ht1))|].
    + intros rest. destruct (He rest) as [Hn He']. rewrite <-app_assoc.
      replace (S (length (out ++ eof ++ rest))) with
        (length (pending_segments (g_incremental g')) + S (S (length (out ++ eof ++ rest) - length (pending_segments (g_incremental g')) - 1))).
      2:{ rewrite !length_app. destruct eof; [done|]. cbn [length]. lia. }
      by rewrite Hrun, He'.
    + intros i Hi. eapply indices_back; cbn; rewrite <-?Hll; try done. cbn. rewrite length_fmap. lia.
Qed.

Definition tree_reader : FileListReader :=
  mkReader 31 (Some 0x88%Z) state_default flist_stats_default (mkPreserve false false false false false false false false)
    false false 0 false 0 0.

Definition tree_first : list FileEntry := [tree_entry true "."; tree_entry false "f"; tree_entry true "a"; tree_entry true "b"].
Definition tree_receiver : ReceiverContext :=
  mkReceiver 31 false false tree_reader tree_first [(0, 1%Z)] 3 ∅ (bytes <$> ["."; "a"; "b"]%string)
    (Some tree_reader) ∅ false None.

Lemma tree_arrived : Forall2 (arrived tree_writer) tree_first tree_first.
Proof. repeat constructor; exists None; split; try done; by vm_compute. Qed.

Lemma tree_plain_sendable n dir name : stays_below (bytes name) → length (bytes name) < MAXPATHLEN →
  sendable (set_first_ndx n tree_writer) (tree_entry dir name).
Proof. intros H1 H2. by split; try done; destruct dir; cbn. Qed.

Lemma tree_sendable n e : e ∈ tree_list → parent_name (fe_name e) ≠ [] → sendable (set_first_ndx n tree_writer) e.
Proof.
  intros He Hp. unfold tree_list in He. rewrite !elem_of_cons, elem_of_nil in He.
  destruct He as [->|[->|[->|[->|[->|[->|[->|[->|[]]]]]]]]]; [by destruct Hp; vm_compute|..];
    (apply tree_plain_sendable; [|cbn; unfold MAXPATHLEN; lia]).
  - by apply (demo_below [bytes "f"]).
  - by apply (demo_below [bytes "a"]).
  - by apply (demo_below [bytes "a"; bytes "x"]).
  - by apply (demo_below [bytes "a"; bytes "c"]).
  - by apply (demo_below [bytes "a"; bytes "c"; bytes "y"]).
  - by apply (demo_below [bytes "b"]).
  - by apply (demo_below [bytes "b"; bytes "z"]).
Qed.

Lemma tree_ordered : strictly_ordered tree_list.
Proof. repeat constructor; by vm_compute. Qed.

Lemma tree_in_step fl : take 4 fl = tree_first → in_step 1 fl tree_writer 4 [0] tree_writer tree_receiver.
Proof.
  intros Hfl. split; rewrite ?Hfl.
  - exists tree_reader, None. split; [reflexivity|]. split; [by split|]. split; [by split|reflexivity].
  - reflexivity.
  - apply tree_arrived.
  - reflexivity.
  - vm_compute. reflexivity.
  - vm_compute. reflexivity.
  - split; reflexivity.
Qed.

Lemma lists_arrive_witness :
  ∃ g' out s' c', partition_file_list_for_inc_recurse tree_generator = Some g' ∧
    flush_extra_lists (scheduler_new (pending_segments (g_incremental g'))) (tree_sending g') = Some (out, s') ∧
    ensure_all_segments_loaded (λ A, sort_by) (λ m, snd <$> map_to_list m) (S (length (out ++ []))) (create_ndx_codec 31)
      tree_receiver (out ++ []) = Some (c', Ok (sn_codec s', [])) ∧
    Forall2 (arrived tree_writer) (g_file_list g') (rc_file_list c').
Proof.
  assert (Hn0 : (λ g', initial_segment_count (g_incremental g')) <$> partition_file_list_for_inc_recurse tree_generator =
    Some (Some 4)) by (vm_compute; reflexivity).
  assert (Hfl : (λ g', take 4 (g_file_list g')) <$> partition_file_list_for_inc_recurse tree_generator = Some tree_first)
    by (vm_compute; reflexivity).
  destruct (partition_file_list_for_inc_recurse tree_generator) as [g'|] eqn:E; [|discriminate].
  injection Hn0 as Hn0. injection Hfl as Hfl.
  destruct (lists_arrive (λ A, sort_by) (λ m, snd <$> map_to_list m) tree_generator g' 4 1 (tree_sending g') tree_receiver)
    as (out & s' & c' & H1 & H2 & _ & H3 & _).
  - apply sort_by_sorts.
  - reflexivity.
  - discriminate.
  - reflexivity.
  - reflexivity.
  - lia.
  - reflexivity.
  - apply tree_ordered.
  - apply (bool_decide_unpack _). vm_compute. exact I.
  - apply tree_sendable.
  - reflexivity.
  - exact E.
  - exact Hn0.
  - reflexivity.
  - reflexivity.
  - apply (tree_in_step _ Hfl).
  - reflexivity.
  - reflexivity.
  - exists g', out, s', c'. split; [reflexivity|]. split; [exact H1|]. split; [exact (H2 [])|exact H3].
Defined.

Ltac as_before := intros [= <- <-]; split; [done|]; by split_and!; [..|left].

(** C5: A sender can place entries only in the directory that it announced: whatever bytes
    follow a header, a list is accepted only for the number of a directory that was counted
    and was not served before; if the receiver has the name of that directory, every entry
    that the list adds and that is not cleared as a duplicate is directly below it.  Each list
    adds as many names as it adds to the number of directories, so the receiver has the name
    of every directory if it had them all after the first list.  A list that is refused gets
    no indices, and leaves the list of entries as it was, unless the bytes of an entry were
    broken. *)
Theorem only_below_announced (sort : ∀ A : Type, (A → A → comparison) → list A → list A)
    (values : gmap (Z * Z) (list nat) → list (list nat)) (ndx : Z) (c c' : ReceiverContext) (s : list byte)
    (res : result io_error (nat * list byte)) :
  in_i 32 ndx → receive_one_extra_segment sort values ndx c s = Some (c', res) →
  length (rc_dir_flist_names c') + rc_dir_flist_used c = length (rc_dir_flist_names c) + rc_dir_flist_used c' ∧
  match res with
  | Ok _ => ∃ (k : nat) added, ndx = (NDX_FLIST_OFFSET - Z.of_nat k)%Z ∧ k < rc_dir_flist_used c ∧
      Z.of_nat k ∉ rc_served_dir_flists c ∧ rc_served_dir_flists c' = {[Z.of_nat k]} ∪ rc_served_dir_flists c ∧
      rc_file_list c' = rc_file_list c ++ added ∧
      ∀ parent, rc_dir_flist_names c !! k = Some parent →
        Forall (inside (λ d, strip_leading_slashes d = strip_leading_slashes parent)) added
  | Err e => rc_ndx_segments c' = rc_ndx_segments c ∧ rc_dir_flist_names c' = rc_dir_flist_names c ∧
      (rc_file_list c' = rc_file_list c ∨ ∃ r r', read_entries (length s) (length (rc_file_list c)) (rc_file_list c) r s =
         (r', rc_file_list c', Err e))
  end.
Proof.
  intros Hndx. unfold receive_one_extra_segment. destruct (Z.ltb_spec NDX_FLIST_OFFSET ndx) as [Hlt|Hle].
  { as_before. }
  assert (Hk : swrap 32 (NDX_FLIST_OFFSET - ndx) = (NDX_FLIST_OFFSET - ndx)%Z).
  { apply swrap_small; unfold in_i, NDX_FLIST_OFFSET in *; lia. }
  set (v := (NDX_FLIST_OFFSET - ndx)%Z) in *. rewrite Hk. unfold mbind at 1, recv_bind at 1.
  unfold validate_extra_segment_dir_ndx at 1, mbind at 1, recv_bind at 1, get_ctx at 1.
  destruct ((v <? 0)%Z || _) eqn:Erange. { as_before. }
  case_bool_decide as Hserved. { as_before. }
  apply orb_false_iff in Erange as [H1%Z.ltb_ge H2%Z.leb_gt].
  unfold modify_ctx, get_ctx, unwrap, mbind, recv_bind, mret, recv_ret, abort.
  cbn [rc_flist_reader_cache rc_with_served rc_ndx_segments rc_with_cache rc_file_list rc_built_reader].
  destruct (last (rc_ndx_segments c)) as [prev|]; [|done]. cbn [mbind option_bind].
  set (nstart := segment_ndx_start prev _). set (r := set_ndx_start nstart _).
  set (c1 := rc_with_cache None (rc_with_served ({[v]} ∪ rc_served_dir_flists c) c)).
  unfold read_list. change (rc_file_list c1) with (rc_file_list c).
  destruct (read_entries (length s) (length (rc_file_list c)) (rc_file_list c) r s) as [[r' l] rd] eqn:Er.
  destruct rd as [s'|err].
  2:{ intros [= <- <-]. split; [done|]. split_and!; [done..|right; by exists r, r']. }
  destruct (read_entries_app (rc_file_list c) (length s) [] r s r' l (Ok s')) as [got ->]; [by rewrite app_nil_r|].
  set (P := λ d, ∀ parent, rc_dir_flist_names c !! Z.to_nat v = Some parent →
                   strip_leading_slashes d = strip_leading_slashes parent).
  destruct (path_guard_cases v (rc_file_list c) got (rc_with_list (rc_file_list c ++ got) c1) s')
    as [-> |[-> Hgot]]; [done|as_before|].
  destruct (finish_segment sort values _ nstart _) as [c2|] eqn:Ef; [|done]. cbn [option_bind].
  destruct (finish_all P sort values (rc_file_list c) got nstart
              (rc_with_list (rc_file_list c ++ got) c1) c2) as (added & prior & -> & Hadded); [done| |done|].
  { eapply Forall_impl; [exact Hgot|]. by intros e He _. }
  unfold record_dir_flist_names. cbn [rc_dir_flist_names rc_dir_flist_used rc_file_list rc_with_prior rc_with_list rc_with_dirs c1
    rc_with_cache rc_with_served rc_ndx_segments]. rewrite drop_app_length.
  match goal with |- context [publish_segment_to_delete_pipeline ?a ?b ?x] => destruct (publish_fields a b x) as [o ->] end.
  intros [= <- <-]. cbn. split; [rewrite length_app, length_fmap; unfold count_directories; lia|].
  exists (Z.to_nat v), added. rewrite Z2Nat.id by lia. split_and!; [unfold v; lia|lia|done..|].
  intros parent Hparent. eapply Forall_impl; [exact Hadded|]. intros e He Ha. by apply (He Ha).
Qed.

(** A list announced for the directory [a], with an entry of [b]. *)
Definition foreign_list : list byte :=
  from_option fst [] (send_segment [tree_entry false "b/z"] None (set_first_ndx 6 tree_writer)).

Lemma only_below_announced_witness :
  ∃ c', receive_one_extra_segment (λ A, sort_by) (λ m, snd <$> map_to_list m) (-102) tree_receiver foreign_list =
      Some (c', Err Unsupported) ∧
    rc_ndx_segments c' = [(0, 1%Z)] ∧ length (rc_dir_flist_names c') = rc_dir_flist_used c'.
Proof.
  assert (Hrun : snd <$> receive_one_extra_segment (λ A, sort_by) (λ m, snd <$> map_to_list m) (-102) tree_receiver foreign_list =
    Some (Err Unsupported)) by (vm_compute; reflexivity).
  destruct (receive_one_extra_segment (λ A, sort_by) (λ m, snd <$> map_to_list m) (-102) tree_receiver foreign_list)
    as [[c' res]|] eqn:E; [|discriminate].
  injection Hrun as ->. exists c'. split; [reflexivity|].
  destruct (only_below_announced (λ A, sort_by) (λ m, snd <$> map_to_list m) (-102) tree_receiver c' foreign_list (Err Unsupported))
    as (H1 & H2 & _); [unfold in_i; lia|exact E|].
  split; [exact H2|]. change (rc_dir_flist_used tree_receiver) with 3 in H1.
  change (length (rc_dir_flist_names tree_receiver)) with 3 in H1. lia.
Defined.

(** A receiver that counted one directory more than it has names, as after a first list in
    which a directory occurs twice, does not check the list of the last number. *)
Lemma unnamed_directory_unchecked :
  (λ '(c', res), (match res with Ok _ => true | Err _ => false end, last (fe_name <$> rc_file_list c'))) <$>
    receive_one_extra_segment (λ A, sort_by) (λ m, snd <$> map_to_list m) (-104)
      (rc_with_dirs 4 (rc_dir_flist_names tree_receiver) tree_receiver) foreign_list =
  Some (true, Some (bytes "b/z")).
Proof. vm_compute. reflexivity. Qed.

(** ** Two numberings that are mixed up *)

(** The number of a directory is taken for an index of an entry: the list of the directory [a],
    number 1, is handed to the delete pipeline as the contents of the root, index 1. *)
Lemma published_for_another_directory :
  (λ '(c', _), fst <$> default [] (rc_observed c')) <$>
    receive_one_extra_segment (λ A, sort_by) (λ m, snd <$> map_to_list m) (-102)
      (rc_with_observed (Some []) tree_receiver)
      (from_option fst [] (send_segment [tree_entry false "a/x"; tree_entry true "a/c"] None (set_first_ndx 6 tree_writer))) =
  Some [bytes "."].
Proof. vm_compute. reflexivity. Qed.

Definition linked_entry (name : string) : FileEntry := set_hardlink_ino 7 (set_hardlink_dev 1 (tree_entry false name)).

Definition linked_tree : list FileEntry :=
  [tree_entry true "."; tree_entry true "a"; linked_entry "a/x"; tree_entry true "b"; linked_entry "b/z"].

(** The links are numbered in the sorted list, and the list is cut into segments afterwards: the
    link refers to index 3, but the first of the two files is sent as index 5. *)
Lemma links_refer_to_another_entry :
  (g ← partition_file_list_for_inc_recurse
         (mkGenerator (assign_hardlink_indices 31 1 linked_tree) ((λ _, bytes "/src") <$> linked_tree) (incremental_new 1) true);
   '(_, s) ← send_segments (pending_segments (g_incremental g)) (tree_sending g);
   link ← last (g_file_list g);
   ndx ← flat_to_wire (ndx_segments (g_incremental (sn_ctx s))) 3;
   Some (entry_name <$> g_file_list g !! 3, ndx, hardlink_idx link)) =
  Some (Some (bytes "a/x"), 5%Z, Some 3%Z).
Proof. vm_compute. reflexivity. Qed.
