(* ===== verification/Index.v ===== *)
(** * The signature index ([crates/matching/src/index/mod.rs], [builder.rs])

    [DeltaSignatureIndex]: the blocks of a signature with the tag table, the bit
    filter, the chained lookup, the successor links and the consumed-block bits,
    and every probe the generators use.  The theorems show that a probe only
    returns a block whose strong checksum equals the window's (soundness), that
    it never misses a block whose checksums are the window's (completeness, with
    the earliest candidate chosen), that the contiguous and the two-slice probes
    agree, and that rebuilding an index leaves no trace of the previous one. *)

From Stdlib Require Import Sorted.
From S2P Require Import Prelude Rolling Strong Signature Lookup.

Local Open Scope Z_scope.

Definition TAG_TABLE_SIZE : Z := 65536.
Definition NEXT_MATCH_NONE : Z := u32_max.

(** [x as u32]. *)
Definition as_u32 (x : nat) : nat := Z.to_nat (wrap 32 (Z.of_nat x)).

Record DeltaSignatureIndex := mkIndex {
  ix_block_length : nat;
  ix_strong_length : nat;
  ix_algorithm : SignatureAlgorithm;
  ix_blocks : list SignatureBlock;
  ix_lookup : CompactLookup;
  ix_tag_table : list bool;
  ix_bithash : BitHash;
  ix_next_match : list Z;
  ix_consumed : list Z;
  ix_has_duplicate_blocks : bool;
}.

Definition block_len (b : SignatureBlock) : Z := rd_len (sb_rolling b).

Definition is_full (block_length : nat) (b : SignatureBlock) : bool :=
  block_len b =? Z.of_nat block_length.

(** ** Construction *)

Definition build_consumed_words (block_count : nat) : list Z :=
  replicate (div_ceil block_count BITS_PER_WORD) 0.

(** The state [populate_index] threads through its loop. *)
Record populate_state := mkPopulate {
  ps_tag_table : list bool;
  ps_bithash : BitHash;
  ps_lookup : CompactLookup;
  ps_next_match : list Z;
  ps_has_full : bool;
  ps_prev_full : option nat;
}.

Definition populate_step (block_length : nat) (st : populate_state) (index : nat)
    (block : SignatureBlock) : populate_state :=
  if negb (is_full block_length block) then st
  else
    let digest := sb_rolling block in
    mkPopulate
      (<[Z.to_nat (rd_s1 digest) := true]> (ps_tag_table st))
      (bithash_insert (ps_bithash st) (digest_value digest))
      (lookup_insert (ps_lookup st) (rd_s1 digest) (rd_s2 digest) (as_u32 index))
      (match ps_prev_full st with
       | Some prev => <[prev := wrap 32 (Z.of_nat index)]> (ps_next_match st)
       | None => ps_next_match st
       end)
      true (Some index).

Fixpoint populate_loop (block_length : nat) (st : populate_state) (index : nat)
    (blocks : list SignatureBlock) : populate_state :=
  match blocks with
  | [] => st
  | b :: bs => populate_loop block_length (populate_step block_length st index b) (S index) bs
  end.

Definition populate_index (blocks : list SignatureBlock) (block_length : nat)
    (tag_table : list bool) (bithash : BitHash) (lookup : CompactLookup) (next_match : list Z)
    : populate_state :=
  populate_loop block_length (mkPopulate tag_table bithash lookup next_match false None) 0 blocks.

(** The strong checksum copied into a zeroed 16-byte array. *)
Definition strong_key (b : SignatureBlock) : list byte :=
  take 16 (sb_strong b) ++ replicate (16 - length (take 16 (sb_strong b))) x00.

Fixpoint detect_duplicates_from (seen : list (Z * list byte)) (block_length : nat)
    (blocks : list SignatureBlock) : bool :=
  match blocks with
  | [] => false
  | b :: bs =>
      if negb (is_full block_length b) then detect_duplicates_from seen block_length bs
      else
        let key := (digest_value (sb_rolling b), strong_key b) in
        if bool_decide (key ∈ seen) then true
        else detect_duplicates_from (key :: seen) block_length bs
  end.

Definition detect_duplicate_blocks (blocks : list SignatureBlock) (block_length : nat) : bool :=
  detect_duplicates_from [] block_length blocks.

Definition index_from_signature (signature : FileSignature) (algorithm : SignatureAlgorithm)
    : option DeltaSignatureIndex :=
  let block_length := Z.to_nat (sl_block_length (fs_layout signature)) in
  let strong_length := Z.to_nat (sl_strong_sum_length (fs_layout signature)) in
  let blocks := fs_blocks signature in
  let requested := length blocks in
  let st :=
    populate_index blocks block_length
      (replicate (Z.to_nat TAG_TABLE_SIZE) false) (bithash_with_block_count requested)
      (lookup_with_capacity requested) (replicate requested NEXT_MATCH_NONE) in
  if negb (ps_has_full st) then None
  else
    Some (mkIndex block_length strong_length algorithm blocks (ps_lookup st) (ps_tag_table st)
            (ps_bithash st) (ps_next_match st) (build_consumed_words (length blocks))
            (detect_duplicate_blocks blocks block_length)).

Definition reset_consumed (consumed : list Z) : list Z := map (λ _, 0) consumed.

Definition index_rebuild (ix : DeltaSignatureIndex) (signature : FileSignature)
    (algorithm : SignatureAlgorithm) : DeltaSignatureIndex * bool :=
  let block_length := Z.to_nat (sl_block_length (fs_layout signature)) in
  let strong_length := Z.to_nat (sl_strong_sum_length (fs_layout signature)) in
  let blocks := fs_blocks signature in
  let words_needed := div_ceil (length blocks) BITS_PER_WORD in
  let consumed :=
    if (length (ix_consumed ix) =? words_needed)%nat then reset_consumed (ix_consumed ix)
    else build_consumed_words (length blocks) in
  let st :=
    populate_index blocks block_length (map (λ _, false) (ix_tag_table ix))
      (bithash_clear (ix_bithash ix)) (lookup_clear (ix_lookup ix))
      (replicate (length blocks) NEXT_MATCH_NONE) in
  (mkIndex block_length strong_length algorithm blocks (ps_lookup st) (ps_tag_table st)
     (ps_bithash st) (ps_next_match st) consumed (detect_duplicate_blocks blocks block_length),
   ps_has_full st).

(** ** Consumed blocks *)

Definition is_consumed (ix : DeltaSignatureIndex) (idx : nat) : bool :=
  if (length (ix_blocks ix) <=? idx)%nat then false
  else Z.land (Z.shiftr (nth (idx / BITS_PER_WORD) (ix_consumed ix) 0)
                 (Z.of_nat (idx mod BITS_PER_WORD))) 1 =? 1.

Definition with_consumed (ix : DeltaSignatureIndex) (consumed : list Z) : DeltaSignatureIndex :=
  mkIndex (ix_block_length ix) (ix_strong_length ix) (ix_algorithm ix) (ix_blocks ix)
    (ix_lookup ix) (ix_tag_table ix) (ix_bithash ix) (ix_next_match ix) consumed
    (ix_has_duplicate_blocks ix).

Definition mark_consumed (ix : DeltaSignatureIndex) (idx : nat) : DeltaSignatureIndex :=
  if (length (ix_blocks ix) <=? idx)%nat then ix
  else with_consumed ix (set_bit (ix_consumed ix) idx).

(** ** Probes *)

Definition index_next_match (ix : DeltaSignatureIndex) (block_index : nat) : option nat :=
  raw ← ix_next_match ix !! block_index;
  if raw =? NEXT_MATCH_NONE then None else Some (Z.to_nat raw).

Definition is_skipped (matched : option MatchedBlocks) (index : nat) : bool :=
  match matched with Some m => is_matched m index | None => false end.

Definition bytes_eqb (a b : list byte) : bool := bool_decide (a = b).

(** [&self.blocks[index]]; the index is always in range where it is used. *)
Definition no_block : SignatureBlock := mkBlock 0 (mkDigest 0 0 0) [].
Definition get_block (ix : DeltaSignatureIndex) (index : nat) : SignatureBlock :=
  nth index (ix_blocks ix) no_block.

Definition sums_differ (digest block_digest : RollingDigest) : bool :=
  negb (rd_s1 digest =? rd_s1 block_digest) || negb (rd_s2 digest =? rd_s2 block_digest).

Section Probes.
Context `{HashCrates}.
Context (ix : DeltaSignatureIndex).

Definition try_next_match_bytes (last_match : nat) (digest : RollingDigest) (window : list byte)
    : option nat :=
  next ← index_next_match ix last_match;
  if negb (length window =? ix_block_length ix)%nat then None
  else
    let block := get_block ix next in
    if sums_differ digest (sb_rolling block) then None
    else
      let strong := compute_truncated (ix_algorithm ix) window (ix_strong_length ix) in
      if bytes_eqb strong (sb_strong block) then Some next else None.

Definition try_next_match_slices (last_match : nat) (digest : RollingDigest)
    (first second : list byte) : option nat :=
  next ← index_next_match ix last_match;
  if negb (length first + length second =? ix_block_length ix)%nat then None
  else
    let block := get_block ix next in
    if sums_differ digest (sb_rolling block) then None
    else
      let strong := compute_truncated_slices (ix_algorithm ix) first second (ix_strong_length ix) in
      if bytes_eqb strong (sb_strong block) then Some next else None.

(** The loop over the candidates of a probe. *)
Fixpoint first_candidate (strong : list byte) (matched : option MatchedBlocks)
    (candidates : list nat) : option nat :=
  match candidates with
  | [] => None
  | index :: rest =>
      if is_skipped matched index then first_candidate strong matched rest
      else if is_consumed ix (as_u32 index) then first_candidate strong matched rest
      else if bytes_eqb strong (sb_strong (get_block ix index)) then Some index
      else first_candidate strong matched rest
  end.

Definition find_match_bytes_filtered (digest : RollingDigest) (window : list byte)
    (matched : option MatchedBlocks) : option nat :=
  if negb (length window =? ix_block_length ix)%nat then None
  else if negb (nth (Z.to_nat (rd_s1 digest)) (ix_tag_table ix) false) then None
  else if negb (bithash_contains (ix_bithash ix) (digest_value digest)) then None
  else
    let strong := compute_truncated (ix_algorithm ix) window (ix_strong_length ix) in
    first_candidate strong matched (lookup_find_all (ix_lookup ix) (rd_s1 digest) (rd_s2 digest)).

Definition find_match_bytes (digest : RollingDigest) (window : list byte) : option nat :=
  find_match_bytes_filtered digest window None.

Definition find_match_slices_filtered (digest : RollingDigest) (first second : list byte)
    (matched : option MatchedBlocks) : option nat :=
  if negb (length first + length second =? ix_block_length ix)%nat then None
  else if negb (nth (Z.to_nat (rd_s1 digest)) (ix_tag_table ix) false) then None
  else if negb (bithash_contains (ix_bithash ix) (digest_value digest)) then None
  else
    let strong := compute_truncated_slices (ix_algorithm ix) first second (ix_strong_length ix) in
    first_candidate strong matched (lookup_find_all (ix_lookup ix) (rd_s1 digest) (rd_s2 digest)).

Definition find_match_slices (digest : RollingDigest) (first second : list byte) : option nat :=
  find_match_slices_filtered digest first second None.

(** The scan of [find_tail_match]; the digest is computed once, on demand, which
    a pure function need not show. *)
Fixpoint tail_scan (digest : RollingDigest) (tail_len : nat) (strong : list byte)
    (matched : option MatchedBlocks) (index : nat) (blocks : list SignatureBlock) : option nat :=
  match blocks with
  | [] => None
  | block :: rest =>
      if negb (block_len block =? Z.of_nat tail_len)
         || is_skipped matched index
         || is_consumed ix (as_u32 index)
         || sums_differ digest (sb_rolling block)
         || negb (bytes_eqb strong (sb_strong block))
      then tail_scan digest tail_len strong matched (S index) rest
      else Some index
  end.

Definition find_tail_match (digest : RollingDigest) (first second : list byte)
    (matched : option MatchedBlocks) : option nat :=
  let tail_len := (length first + length second)%nat in
  if (tail_len =? 0)%nat || (ix_block_length ix <=? tail_len)%nat then None
  else
    tail_scan digest tail_len
      (compute_truncated_slices (ix_algorithm ix) first second (ix_strong_length ix))
      matched 0 (ix_blocks ix).

Definition check_block_match_slices (block_index : nat) (digest : RollingDigest)
    (first second : list byte) : bool :=
  if (length (ix_blocks ix) <=? block_index)%nat then false
  else
    let block := get_block ix block_index in
    if negb (is_full (ix_block_length ix) block) then false
    else if sums_differ digest (sb_rolling block) then false
    else
      bytes_eqb (compute_truncated_slices (ix_algorithm ix) first second (ix_strong_length ix))
        (sb_strong block).

(** The window is a [VecDeque]: its two slices are copied to a scratch vector. *)
Definition find_match_window (digest : RollingDigest) (front back : list byte) : option nat :=
  if negb (length front + length back =? ix_block_length ix)%nat then None
  else find_match_bytes digest (front ++ back).

Definition find_tail_match_window (digest : RollingDigest) (front back : list byte) : option nat :=
  let tail_len := (length front + length back)%nat in
  if (tail_len =? 0)%nat || (ix_block_length ix <=? tail_len)%nat then None
  else find_tail_match digest (front ++ back) [] None.
End Probes.

Section ExtendRun.
Context `{HashCrates} `{HasCpu}.

Fixpoint extend_run_loop (ix : DeltaSignatureIndex) (fuel : nat) (start_block_index : nat)
    (run offset : nat) (target : list byte) : nat :=
  match fuel with
  | O => run
  | S fuel' =>
      let block_idx := (start_block_index + run)%nat in
      if (length (ix_blocks ix) <=? block_idx)%nat then run
      else
        let end_ := (offset + ix_block_length ix)%nat in
        if (length target <? end_)%nat then run
        else
          let chunk := take (ix_block_length ix) (drop offset target) in
          let block := get_block ix block_idx in
          if negb (is_full (ix_block_length ix) block) then run
          else if sums_differ (digest_from_bytes chunk) (sb_rolling block) then run
          else if negb (bytes_eqb (compute_truncated (ix_algorithm ix) chunk (ix_strong_length ix))
                          (sb_strong block)) then run
          else extend_run_loop ix fuel' start_block_index (S run) end_ target
  end.

Definition extend_run (ix : DeltaSignatureIndex) (start_block_index : nat) (target : list byte)
    (max_blocks : nat) : nat :=
  if (max_blocks =? 0)%nat || (ix_block_length ix =? 0)%nat then 0%nat
  else extend_run_loop ix max_blocks start_block_index 0 0 target.
End ExtendRun.

(** ** What an index promises *)

Section Populate.
Context (block_length : nat).

(** The keys of the full blocks, numbered from [i]. *)
Fixpoint full_keys (i : nat) (blocks : list SignatureBlock) : list lookup_key :=
  match blocks with
  | [] => []
  | b :: bs =>
      if is_full block_length b
      then (rd_s1 (sb_rolling b), rd_s2 (sb_rolling b), i) :: full_keys (S i) bs
      else full_keys (S i) bs
  end.

Lemma full_keys_elem i blocks k :
  k ∈ full_keys i blocks ↔ ∃ j b, blocks !! j = Some b ∧ is_full block_length b = true ∧
    k = (rd_s1 (sb_rolling b), rd_s2 (sb_rolling b), (i + j)%nat).
Proof.
  revert i. induction blocks as [|b bs IH]; intros i; cbn [full_keys].
  - split; [set_solver|]. intros (j & b & Hb & _). done.
  - assert (Hrest : k ∈ full_keys (S i) bs ↔ ∃ j b', (b :: bs) !! S j = Some b' ∧
      is_full block_length b' = true ∧ k = (rd_s1 (sb_rolling b'), rd_s2 (sb_rolling b'), (i + S j)%nat)).
    { rewrite IH. split; intros (j & b' & Hb & Hf & ->); exists j, b'; split_and!; try done;
        f_equal; lia. }
    destruct (is_full block_length b) eqn:Hf.
    + rewrite elem_of_cons, Hrest. split.
      * intros [-> |(j & b' & ?)]; [|by exists (S j), b'].
        exists 0%nat, b. split_and!; try done. f_equal. lia.
      * intros ([|j] & b' & Hb & Hf' & ->); [|right; by exists j, b'].
        left. simpl in Hb. simplify_eq. f_equal. lia.
    + rewrite Hrest. split; [intros (j & b' & ?); by exists (S j), b'|].
      intros ([|j] & b' & Hb & Hf' & ->); [simpl in Hb; simplify_eq; congruence|by exists j, b'].
Qed.

Lemma full_keys_length i blocks : (length (full_keys i blocks) ≤ length blocks)%nat.
Proof.
  revert i. induction blocks as [|b bs IH]; intros i; cbn [full_keys]; [done|].
  specialize (IH (S i)). destruct (is_full block_length b); simpl; lia.
Qed.

Definition full_values (blocks : list SignatureBlock) : list Z :=
  map (λ b, digest_value (sb_rolling b)) (filter (λ b, is_full block_length b = true) blocks).

Lemma as_u32_small i : Z.of_nat i ≤ u32_max → as_u32 i = i.
Proof. intros Hi. unfold as_u32. rewrite wrap_small by (unfold in_u, u32_max in *; lia). lia. Qed.

Lemma populate_loop_lookup st i blocks : Z.of_nat (i + length blocks) ≤ u32_max →
  ps_lookup (populate_loop block_length st i blocks)
  = foldl (λ t k, lookup_insert t k.1.1 k.1.2 k.2) (ps_lookup st) (full_keys i blocks).
Proof.
  revert st i. induction blocks as [|b bs IH]; intros st i Hl; cbn [populate_loop full_keys]; [done|].
  simpl in Hl. rewrite IH by lia. unfold populate_step.
  destruct (is_full block_length b); cbn [negb ps_lookup foldl]; [|done].
  by rewrite as_u32_small by lia.
Qed.

Lemma populate_loop_bithash st i blocks :
  ps_bithash (populate_loop block_length st i blocks)
  = foldl bithash_insert (ps_bithash st) (full_values blocks).
Proof.
  revert st i. induction blocks as [|b bs IH]; intros st i; cbn [populate_loop]; [done|].
  rewrite IH. unfold populate_step, full_values. rewrite filter_cons.
  destruct (is_full block_length b); cbn [negb ps_bithash].
  - by rewrite decide_True.
  - by rewrite decide_False.
Qed.

Lemma populate_loop_has_full st i blocks :
  ps_has_full (populate_loop block_length st i blocks)
  = ps_has_full st || existsb (is_full block_length) blocks.
Proof.
  revert st i. induction blocks as [|b bs IH]; intros st i; cbn [populate_loop existsb];
    [by rewrite orb_false_r|].
  rewrite IH. unfold populate_step. destruct (is_full block_length b); cbn [negb ps_has_full];
    [by rewrite !orb_true_r|done].
Qed.

(** Tags are only ever switched on. *)
Lemma populate_loop_tag st i blocks :
  let tags := ps_tag_table (populate_loop block_length st i blocks) in
  length tags = length (ps_tag_table st) ∧
  (∀ s, nth s (ps_tag_table st) false = true → nth s tags false = true) ∧
  (∀ b, b ∈ blocks → is_full block_length b = true →
     (Z.to_nat (rd_s1 (sb_rolling b)) < length (ps_tag_table st))%nat →
     nth (Z.to_nat (rd_s1 (sb_rolling b))) tags false = true).
Proof.
  revert st i. induction blocks as [|b bs IH]; intros st i; cbn [populate_loop].
  - split_and!; [done|done|set_solver].
  - destruct (IH (populate_step block_length st i b) (S i)) as (Hl & Hk & Hn).
    unfold populate_step in Hl, Hk, Hn |- *.
    destruct (is_full block_length b) eqn:Hf; cbn [negb ps_tag_table] in *.
    + rewrite length_insert in Hl. split_and!; [done| |].
      * intros s Hs. apply Hk. rewrite nth_lookup in *.
        destruct (decide (Z.to_nat (rd_s1 (sb_rolling b)) = s)) as [->|Hne].
        -- destruct (decide (s < length (ps_tag_table st))%nat).
           ++ by rewrite list_lookup_insert_eq.
           ++ rewrite list_insert_ge by lia. done.
        -- by rewrite list_lookup_insert_ne.
      * intros b' Hb' Hf' Hlt. apply elem_of_cons in Hb' as [->|Hb'].
        -- apply Hk. rewrite nth_lookup, list_lookup_insert_eq by done. done.
        -- apply Hn; [done|done|]. by rewrite length_insert.
    + split_and!; [done|done|]. intros b' Hb' Hf' Hlt.
      apply elem_of_cons in Hb' as [->|Hb']; [congruence|by apply Hn].
Qed.

(** A successor link names a full block. *)
Definition links_ok (all : list SignatureBlock) (next_match : list Z) : Prop :=
  ∀ p raw, next_match !! p = Some raw →
    raw = NEXT_MATCH_NONE ∨ ∃ b, all !! Z.to_nat raw = Some b ∧ is_full block_length b = true.

Lemma populate_loop_links all st i blocks :
  Z.of_nat (i + length blocks) ≤ u32_max → (∀ j b, blocks !! j = Some b → all !! (i + j)%nat = Some b) →
  links_ok all (ps_next_match st) →
  links_ok all (ps_next_match (populate_loop block_length st i blocks)).
Proof.
  revert st i. induction blocks as [|b bs IH]; intros st i Hl Hall Hlinks; cbn [populate_loop]; [done|].
  simpl in Hl. apply IH; [lia| |].
  { intros j b' Hb. rewrite <- (Hall (S j) b' Hb). f_equal. lia. }
  unfold populate_step. destruct (is_full block_length b) eqn:Hf; cbn [negb ps_next_match]; [|done].
  destruct (ps_prev_full st) as [prev|]; [|done]. intros p raw Hp.
  apply list_lookup_insert_Some in Hp as [(-> & <- & _)|[_ Hp]]; [|by eapply Hlinks].
  right. exists b. rewrite wrap_small by (unfold in_u, u32_max in *; lia). rewrite Nat2Z.id.
  split; [|done]. rewrite <- (Hall 0%nat b eq_refl). f_equal. lia.
Qed.
End Populate.

(** The interface the generators rely on. *)
Record index_ok (ix : DeltaSignatureIndex) : Prop := {
  io_count : Z.of_nat (length (ix_blocks ix)) ≤ u32_max;
  io_digests : ∀ b, b ∈ ix_blocks ix → in_u 16 (rd_s1 (sb_rolling b));
  io_tag_length : length (ix_tag_table ix) = Z.to_nat TAG_TABLE_SIZE;
  io_tag : ∀ b, b ∈ ix_blocks ix → is_full (ix_block_length ix) b = true →
    nth (Z.to_nat (rd_s1 (sb_rolling b))) (ix_tag_table ix) false = true;
  io_bithash_wf : bithash_wf (ix_bithash ix);
  io_bithash : ∀ b, b ∈ ix_blocks ix → is_full (ix_block_length ix) b = true →
    bithash_contains (ix_bithash ix) (digest_value (sb_rolling b)) = true;
  io_lookup : ∃ m, lookup_inv m (ix_lookup ix) (full_keys (ix_block_length ix) 0 (ix_blocks ix));
  io_links : links_ok (ix_block_length ix) (ix_blocks ix) (ix_next_match ix);
  io_consumed : length (ix_consumed ix) = div_ceil (length (ix_blocks ix)) BITS_PER_WORD;
}.

(** Signatures as generated or received: [u16] sums, fewer blocks than the
    sentinel of the tables. *)
Definition signature_wf (s : FileSignature) : Prop :=
  Z.of_nat (length (fs_blocks s)) ≤ u32_max ∧
  ∀ b, b ∈ fs_blocks s → in_u 16 (rd_s1 (sb_rolling b)).

(** Populating cleared tables of any size gives a good index. *)
Lemma populate_ok s alg tags bh lk m consumed :
  signature_wf s → length tags = Z.to_nat TAG_TABLE_SIZE → bithash_wf bh → lookup_inv m lk [] →
  length consumed = div_ceil (length (fs_blocks s)) BITS_PER_WORD →
  let bl := Z.to_nat (sl_block_length (fs_layout s)) in
  let st := populate_index (fs_blocks s) bl tags bh lk (replicate (length (fs_blocks s)) NEXT_MATCH_NONE) in
  index_ok (mkIndex bl (Z.to_nat (sl_strong_sum_length (fs_layout s))) alg (fs_blocks s)
    (ps_lookup st) (ps_tag_table st) (ps_bithash st) (ps_next_match st) consumed
    (detect_duplicate_blocks (fs_blocks s) bl)).
Proof.
  intros [Hcount Hdig] Htag Hbh Hlk Hcons bl st.
  set (st0 := mkPopulate tags bh lk (replicate (length (fs_blocks s)) NEXT_MATCH_NONE) false None) in *.
  destruct (populate_loop_tag bl st0 0 (fs_blocks s)) as (Hl & _ & Hn).
  change (populate_loop bl st0 0 (fs_blocks s)) with st in Hl, Hn. cbn [st0 ps_tag_table] in Hl, Hn.
  assert (Hbits : ps_bithash st = bithash_of bh (full_values bl (fs_blocks s)))
    by apply populate_loop_bithash.
  split; cbn -[Z.to_nat]; try done.
  - by rewrite Hl.
  - intros b Hb Hf. apply Hn; [done|done|]. rewrite Htag. pose proof (Hdig b Hb).
    unfold in_u, TAG_TABLE_SIZE in *. lia.
  - rewrite Hbits. by apply bithash_of_wf.
  - intros b Hb Hf. rewrite Hbits. apply bithash_of_contains; [done|]. left.
    apply list_elem_of_fmap. exists b. split; [done|]. by apply list_elem_of_filter.
  - exists m. unfold st, populate_index. rewrite populate_loop_lookup by lia.
    apply (lookup_inserts_inv m lk [] (full_keys bl 0 (fs_blocks s))); [done|].
    pose proof (full_keys_length bl 0 (fs_blocks s)). unfold lookup_key in *. cbn [length]. lia.
  - apply populate_loop_links; [lia|done|]. intros p raw Hp. simpl in Hp.
    apply lookup_replicate in Hp as [-> _]. by left.
Qed.

Lemma index_from_signature_ok s alg ix : signature_wf s →
  index_from_signature s alg = Some ix → index_ok ix.
Proof.
  intros Hs. unfold index_from_signature. destruct (negb _); [done|].
  intros Hix%Some_inj. rewrite <- Hix.
  apply (populate_ok s alg (replicate (Z.to_nat TAG_TABLE_SIZE) false)
    (bithash_with_block_count (length (fs_blocks s))) (lookup_with_capacity (length (fs_blocks s)))
    (bucket_mask (length (fs_blocks s))) (build_consumed_words (length (fs_blocks s)))).
  - exact Hs.
  - by rewrite length_replicate.
  - apply bithash_new_wf.
  - apply lookup_new_inv.
  - unfold build_consumed_words. by rewrite length_replicate.
Qed.

Lemma lookup_clear_inv m t keys : lookup_inv m t keys → lookup_inv m (lookup_clear t) [].
Proof.
  intros (Hm & _ & Hb & _). unfold lookup_clear. rewrite Hm. apply lookup_empty_inv.
  - intros k. rewrite length_map. apply Hb.
  - apply Forall_map, Forall_true. done.
Qed.

Lemma bithash_clear_wf h : bithash_wf h → bithash_wf (bithash_clear h).
Proof. intros (k & Hk & Hm & Hl). exists k. simpl. by rewrite length_map. Qed.

Lemma index_rebuild_ok ix s alg : index_ok ix → signature_wf s →
  index_ok (index_rebuild ix s alg).1.
Proof.
  intros [_ _ Htl _ Hbh _ [m Hlk] _ _] Hs. unfold index_rebuild. cbn [fst].
  eapply populate_ok; [done|by rewrite length_map|by apply bithash_clear_wf|by eapply lookup_clear_inv|].
  unfold reset_consumed, build_consumed_words.
  destruct (Nat.eqb_spec (length (ix_consumed ix)) (div_ceil (length (fs_blocks s)) BITS_PER_WORD)).
  - by rewrite length_map.
  - apply length_replicate.
Qed.

(** ** Consumed blocks *)

Lemma is_consumed_test ix idx : (idx < length (ix_blocks ix))%nat →
  is_consumed ix idx = test_bit (ix_consumed ix) idx.
Proof.
  intros Hi. unfold is_consumed. rewrite (proj2 (Nat.leb_gt _ _)) by done.
  rewrite test_bit_testbit. pose proof (mod_word idx). apply shiftr_land_1. lia.
Qed.

Lemma mark_consumed_spec ix i j : index_ok ix →
  is_consumed (mark_consumed ix i) j
  = bool_decide (i = j ∧ (i < length (ix_blocks ix))%nat) || is_consumed ix j.
Proof.
  intros Hok. unfold mark_consumed.
  destruct (Nat.leb_spec (length (ix_blocks ix)) i) as [Hge|Hlt]; [by rewrite bool_decide_false by lia|].
  destruct (Nat.lt_ge_cases j (length (ix_blocks ix))) as [Hj|Hj].
  - rewrite !is_consumed_test by done. cbn [ix_consumed with_consumed].
    rewrite test_set_bit by (rewrite (io_consumed ix Hok); by apply word_of_block).
    f_equal. apply bool_decide_ext. split; [by intros ->|by intros [-> _]].
  - unfold is_consumed. cbn [ix_blocks with_consumed]. rewrite (proj2 (Nat.leb_le _ _)) by done.
    by rewrite bool_decide_false by lia.
Qed.

Lemma mark_consumed_ok ix i : index_ok ix → index_ok (mark_consumed ix i).
Proof.
  intros Hok. unfold mark_consumed. destruct (_ <=? _)%nat; [done|].
  destruct Hok. split; try done. cbn [ix_consumed with_consumed ix_blocks]. by rewrite length_set_bit.
Qed.

(** The parts of an index that marking leaves alone. *)
Definition same_index (ix ix' : DeltaSignatureIndex) : Prop :=
  ix_block_length ix' = ix_block_length ix ∧ ix_strong_length ix' = ix_strong_length ix ∧
  ix_algorithm ix' = ix_algorithm ix ∧ ix_blocks ix' = ix_blocks ix ∧
  ix_has_duplicate_blocks ix' = ix_has_duplicate_blocks ix.

Lemma mark_consumed_same ix i : same_index ix (mark_consumed ix i).
Proof. unfold mark_consumed. by destruct (_ <=? _)%nat. Qed.

Lemma zero_words_consumed ix idx : Forall (λ w, w = 0) (ix_consumed ix) → is_consumed ix idx = false.
Proof.
  intros Hz. unfold is_consumed. destruct (_ <=? _)%nat; [done|]. rewrite nth_lookup.
  destruct (ix_consumed ix !! _) as [w|] eqn:E; simpl.
  - eapply Forall_lookup_1 in Hz; [|done]. subst w. by rewrite Z.shiftr_0_l.
  - by rewrite Z.shiftr_0_l.
Qed.

(** rebuilding an index for a new signature yields an index that satisfies
    the same contract as a fresh one, holds exactly the new blocks and has no
    block consumed: nothing of the previous file can be matched. *)
Theorem rebuild_is_fresh (ix : DeltaSignatureIndex) (s : FileSignature) (alg : SignatureAlgorithm) :
  index_ok ix → signature_wf s →
  let '(ix', ok) := index_rebuild ix s alg in
  index_ok ix' ∧ ix_blocks ix' = fs_blocks s ∧ ix_algorithm ix' = alg ∧
  (∀ idx, is_consumed ix' idx = false) ∧
  ok = existsb (is_full (Z.to_nat (sl_block_length (fs_layout s)))) (fs_blocks s).
Proof.
  intros Hok Hs. pose proof (index_rebuild_ok ix s alg Hok Hs) as Hok'.
  destruct (index_rebuild ix s alg) as [ix' ok] eqn:E. cbn [fst] in Hok'.
  unfold index_rebuild in E. injection E as <- <-. split_and!; [done|done|done| |].
  - intros idx. apply zero_words_consumed. cbn [ix_consumed].
    unfold reset_consumed, build_consumed_words. destruct (_ =? _)%nat.
    + apply Forall_map, Forall_true. done.
    + by apply Forall_replicate.
  - apply populate_loop_has_full.
Qed.

(** ** Probes *)

(** What a successful probe establishes: block [i] exists, is as long as the
    window and has the window's strong checksum. *)
Definition checksum_match `{HashCrates} (ix : DeltaSignatureIndex) (i : nat) (window : list byte) : Prop :=
  ∃ b, ix_blocks ix !! i = Some b ∧ block_len b = Z.of_nat (length window) ∧
    compute_truncated (ix_algorithm ix) window (ix_strong_length ix) = sb_strong b.

Section ProbeTheorems.
Context `{HashCratesLaws}.
Context (ix : DeltaSignatureIndex) (Hok : index_ok ix).

Lemma full_block_index i b : ix_blocks ix !! i = Some b → as_u32 i = i.
Proof.
  intros Hb. apply lookup_lt_Some in Hb. apply as_u32_small. pose proof (io_count ix Hok). lia.
Qed.

(** The candidates of a key, in increasing order. *)
Lemma candidates_elem s1 s2 i : i ∈ lookup_find_all (ix_lookup ix) s1 s2 →
  ∃ b, ix_blocks ix !! i = Some b ∧ is_full (ix_block_length ix) b = true ∧ rd_s1 (sb_rolling b) = s1.
Proof.
  destruct (io_lookup ix Hok) as [m Hm]. rewrite (lookup_find_all_inv m _ _ _ _ Hm).
  intros Hin. apply list_elem_of_fmap in Hin as (k & -> & Hk).
  apply list_elem_of_filter in Hk as [[H1 _] Hk].
  apply full_keys_elem in Hk as (j & b & Hb & Hf & ->). by exists b.
Qed.

Lemma candidates_complete i b :
  ix_blocks ix !! i = Some b → is_full (ix_block_length ix) b = true →
  i ∈ lookup_find_all (ix_lookup ix) (rd_s1 (sb_rolling b)) (rd_s2 (sb_rolling b)).
Proof.
  intros Hb Hf. destruct (io_lookup ix Hok) as [m Hm]. rewrite (lookup_find_all_inv m _ _ _ _ Hm).
  apply list_elem_of_fmap. exists (rd_s1 (sb_rolling b), rd_s2 (sb_rolling b), i). split; [done|].
  apply list_elem_of_filter. split; [done|]. apply full_keys_elem. by exists i, b.
Qed.

Lemma full_keys_sorted bl j blocks : StronglySorted lt (map snd (full_keys bl j blocks)).
Proof.
  revert j. induction blocks as [|b bs IH]; intros j; cbn [full_keys]; [constructor|].
  destruct (is_full bl b); [|apply IH]. cbn [map]. constructor; [apply IH|].
  apply Forall_forall. intros x Hx. apply list_elem_of_fmap in Hx as (k & -> & Hk).
  apply full_keys_elem in Hk as (p & b' & _ & _ & ->). simpl. lia.
Qed.

Lemma sorted_map_filter {A} (f : A → nat) (P : A → Prop) `{∀ x, Decision (P x)} l :
  StronglySorted lt (map f l) → StronglySorted lt (map f (filter P l)).
Proof.
  induction l as [|x l IH]; [done|]. cbn [map]. intros Hs. inversion_clear Hs as [|? ? Hs' Hf].
  rewrite filter_cons. case_decide; [|by apply IH]. cbn [map]. constructor; [by apply IH|].
  apply Forall_forall. intros y Hy. apply list_elem_of_fmap in Hy as (z & -> & Hz).
  apply list_elem_of_filter in Hz as [_ Hz].
  eapply Forall_forall in Hf; [exact Hf|]. by apply list_elem_of_fmap_2.
Qed.

Lemma candidates_sorted s1 s2 : StronglySorted lt (lookup_find_all (ix_lookup ix) s1 s2).
Proof.
  destruct (io_lookup ix Hok) as [m Hm]. rewrite (lookup_find_all_inv m _ _ _ _ Hm).
  apply sorted_map_filter, full_keys_sorted.
Qed.

Lemma first_candidate_Some strong matched cands i : first_candidate ix strong matched cands = Some i →
  i ∈ cands ∧ is_skipped matched i = false ∧ is_consumed ix (as_u32 i) = false ∧
  strong = sb_strong (get_block ix i).
Proof.
  induction cands as [|c cands IH]; cbn [first_candidate]; [done|].
  destruct (is_skipped matched c) eqn:Hs; [intros Hi; set_solver|].
  destruct (is_consumed ix (as_u32 c)) eqn:Hc; [intros Hi; set_solver|].
  unfold bytes_eqb. case_bool_decide as He; [|intros Hi; set_solver].
  intros Hi. simplify_eq. split_and!; try done. set_solver.
Qed.

Lemma first_candidate_complete strong matched cands i :
  StronglySorted lt cands → i ∈ cands → is_skipped matched i = false →
  is_consumed ix (as_u32 i) = false → strong = sb_strong (get_block ix i) →
  ∃ j, (j ≤ i)%nat ∧ first_candidate ix strong matched cands = Some j.
Proof.
  intros Hsort Hin Hs Hc He. induction cands as [|c cands IH]; [set_solver|].
  inversion_clear Hsort as [|? ? Hsort' Hf]. cbn [first_candidate].
  apply elem_of_cons in Hin as [-> |Hin].
  - rewrite Hs, Hc. unfold bytes_eqb. rewrite bool_decide_true by done. by exists c.
  - assert ((c < i)%nat) by (eapply Forall_forall in Hf; done).
    destruct (IH Hsort' Hin) as (j & Hj & Hfc).
    destruct (is_skipped matched c); [eauto|]. destruct (is_consumed ix (as_u32 c)); [eauto|].
    destruct (bytes_eqb _ _); [|eauto]. exists c. split; [lia|done].
Qed.

Lemma find_bytes_sound digest window matched i :
  find_match_bytes_filtered ix digest window matched = Some i →
  checksum_match ix i window ∧ length window = ix_block_length ix ∧
  is_skipped matched i = false ∧ is_consumed ix i = false.
Proof.
  unfold find_match_bytes_filtered. destruct (Nat.eqb_spec (length window) (ix_block_length ix)) as [Hl|];
    cbn [negb]; [|done].
  destruct (nth _ _ _); cbn [negb]; [|done]. destruct (bithash_contains _ _); cbn [negb]; [|done].
  intros Hf. apply first_candidate_Some in Hf as (Hin & Hs & Hc & He).
  apply candidates_elem in Hin as (b & Hb & Hfull & _).
  rewrite (full_block_index i b Hb) in Hc. split_and!; [|done|done|done].
  exists b. unfold get_block in He. rewrite (nth_lookup_Some _ _ _ _ Hb) in He.
  split_and!; [done| |done]. unfold is_full in Hfull. bool_to_prop. lia.
Qed.

Lemma find_slices_eq digest first second matched :
  find_match_slices_filtered ix digest first second matched
  = find_match_bytes_filtered ix digest (first ++ second) matched.
Proof.
  unfold find_match_slices_filtered, find_match_bytes_filtered.
  by rewrite length_app, compute_slices_eq.
Qed.

Lemma try_next_slices_eq last digest first second :
  try_next_match_slices ix last digest first second
  = try_next_match_bytes ix last digest (first ++ second).
Proof.
  unfold try_next_match_slices, try_next_match_bytes.
  by rewrite length_app, compute_slices_eq.
Qed.

Lemma next_match_full p j : index_next_match ix p = Some j →
  ∃ b, ix_blocks ix !! j = Some b ∧ is_full (ix_block_length ix) b = true.
Proof.
  unfold index_next_match. destruct (ix_next_match ix !! p) as [raw|] eqn:E; [|done]. simpl.
  destruct (Z.eqb_spec raw NEXT_MATCH_NONE); [done|]. intros [= <-].
  destruct (io_links ix Hok p raw E) as [|Hb]; done.
Qed.

Lemma try_next_sound last digest window i : try_next_match_bytes ix last digest window = Some i →
  checksum_match ix i window ∧ length window = ix_block_length ix.
Proof.
  unfold try_next_match_bytes. destruct (index_next_match ix last) as [next|] eqn:En; [|done]. simpl.
  destruct (Nat.eqb_spec (length window) (ix_block_length ix)) as [Hl|]; cbn [negb]; [|done].
  destruct (sums_differ _ _); [done|]. unfold bytes_eqb. case_bool_decide as He; [|done].
  intros [= <-]. split; [|done]. destruct (next_match_full _ _ En) as (b & Hb & Hfull).
  unfold get_block in He. rewrite (nth_lookup_Some _ _ _ _ Hb) in He.
  exists b. split_and!; [done| |done]. unfold is_full in Hfull. bool_to_prop. lia.
Qed.

Lemma tail_scan_sound digest tail_len strong matched i0 blocks i :
  tail_scan ix digest tail_len strong matched i0 blocks = Some i →
  ∃ b, (i0 ≤ i)%nat ∧ blocks !! (i - i0)%nat = Some b ∧ block_len b = Z.of_nat tail_len ∧
    strong = sb_strong b ∧ is_consumed ix (as_u32 i) = false ∧ is_skipped matched i = false.
Proof.
  revert i0. induction blocks as [|b bs IH]; intros i0; cbn [tail_scan]; [done|].
  destruct (_ || _) eqn:E.
  - intros Hs. destruct (IH (S i0) Hs) as (b' & Hi & Hb & ?). exists b'. split; [lia|].
    split; [|done]. replace (i - i0)%nat with (S (i - S i0)) by lia. done.
  - intros [= ->]. bool_to_prop. unfold bytes_eqb in *. bool_to_prop. exists b.
    rewrite Nat.sub_diag. split_and!; done || lia.
Qed.

Lemma find_tail_sound digest first second matched i :
  find_tail_match ix digest first second matched = Some i →
  checksum_match ix i (first ++ second) ∧ (0 < length (first ++ second) < ix_block_length ix)%nat ∧
  is_consumed ix i = false ∧ is_skipped matched i = false.
Proof.
  unfold find_tail_match. destruct (_ || _) eqn:E; [done|].
  apply orb_false_elim in E as [E1 E2]. apply Nat.eqb_neq in E1. apply Nat.leb_gt in E2.
  intros Hs. apply tail_scan_sound in Hs as (b & _ & Hb & Hl & He & Hc & Hm).
  rewrite Nat.sub_0_r in Hb. rewrite (full_block_index i b Hb) in Hc.
  rewrite length_app. split_and!; [|lia|lia|done|done]. exists b.
  rewrite <- compute_slices_eq, length_app. done.
Qed.

Lemma check_block_sound i digest first second :
  length (first ++ second) = ix_block_length ix →
  check_block_match_slices ix i digest first second = true → checksum_match ix i (first ++ second).
Proof.
  intros Hl. unfold check_block_match_slices.
  destruct (Nat.leb_spec (length (ix_blocks ix)) i) as [|Hi]; [done|].
  destruct (is_full _ _) eqn:Hf; cbn [negb]; [|done]. destruct (sums_differ _ _); [done|].
  unfold bytes_eqb. intros He. bool_to_prop. destruct (lookup_lt_is_Some_2 _ _ Hi) as [b Hb].
  unfold get_block in *. rewrite (nth_lookup_Some _ _ _ _ Hb) in *.
  exists b. rewrite <- compute_slices_eq. split_and!; [done| |done].
  unfold is_full in Hf. bool_to_prop. lia.
Qed.

Lemma find_bytes_complete digest window matched i b :
  ix_blocks ix !! i = Some b → is_full (ix_block_length ix) b = true →
  length window = ix_block_length ix →
  rd_s1 digest = rd_s1 (sb_rolling b) → rd_s2 digest = rd_s2 (sb_rolling b) →
  compute_truncated (ix_algorithm ix) window (ix_strong_length ix) = sb_strong b →
  is_consumed ix i = false → is_skipped matched i = false →
  ∃ j, (j ≤ i)%nat ∧ find_match_bytes_filtered ix digest window matched = Some j.
Proof.
  intros Hb Hf Hl H1 H2 He Hc Hs. unfold find_match_bytes_filtered.
  rewrite (proj2 (Nat.eqb_eq _ _)) by done. cbn [negb].
  assert (Hin : b ∈ ix_blocks ix) by (by eapply list_elem_of_lookup_2).
  rewrite H1, (io_tag ix Hok b Hin Hf). cbn [negb].
  assert (Hv : digest_value digest = digest_value (sb_rolling b))
    by (unfold digest_value; by rewrite H1, H2).
  rewrite Hv, (io_bithash ix Hok b Hin Hf), H2. cbn [negb].
  apply first_candidate_complete.
  - apply candidates_sorted.
  - by apply candidates_complete.
  - done.
  - by rewrite (full_block_index i b Hb).
  - unfold get_block. by rewrite (nth_lookup_Some _ _ _ _ Hb).
Qed.
End ProbeTheorems.

Section RunTheorems.
Context `{HashCratesLaws} `{HasCpu}.
Context (ix : DeltaSignatureIndex).

Lemma extend_run_loop_sound fuel start run target k :
  (run ≤ k < extend_run_loop ix fuel start run (run * ix_block_length ix) target)%nat →
  checksum_match ix (start + k) (take (ix_block_length ix) (drop (k * ix_block_length ix) target)).
Proof.
  revert run. induction fuel as [|fuel IH]; intros run; cbn [extend_run_loop]; [lia|].
  destruct (Nat.leb_spec (length (ix_blocks ix)) (start + run)) as [|Hi]; [lia|].
  destruct (Nat.ltb_spec (length target) (run * ix_block_length ix + ix_block_length ix)) as [|Hend]; [lia|].
  destruct (is_full _ _) eqn:Hf; cbn [negb]; [|lia]. destruct (sums_differ _ _); [lia|].
  destruct (bytes_eqb _ _) eqn:He; cbn [negb]; [|lia]. intros Hk.
  destruct (decide (k = run)) as [->|Hne].
  - unfold bytes_eqb in He. bool_to_prop. destruct (lookup_lt_is_Some_2 _ _ Hi) as [b Hb].
    unfold get_block in *. rewrite (nth_lookup_Some _ _ _ _ Hb) in *. exists b. split_and!; [done| |done].
    rewrite length_take, length_drop. unfold is_full in Hf. bool_to_prop. lia.
  - apply (IH (S run)). replace (S run * ix_block_length ix)%nat with (run * ix_block_length ix + ix_block_length ix)%nat by lia.
    lia.
Qed.

Lemma extend_run_sound start target max_blocks k : (k < extend_run ix start target max_blocks)%nat →
  checksum_match ix (start + k) (take (ix_block_length ix) (drop (k * ix_block_length ix) target)).
Proof.
  unfold extend_run. destruct (_ || _); [lia|]. intros Hk.
  apply (extend_run_loop_sound max_blocks start 0 target k). cbn [Nat.mul]. lia.
Qed.
End RunTheorems.

(** The ways in which block [i] is reported for a window: every probe of the index.  The
    flag tells those that promise that the block was not consumed or filtered out. *)
Inductive reports `{HashCrates} `{HasCpu} (ix : DeltaSignatureIndex) (matched : option MatchedBlocks)
    : list byte → nat → bool → Prop :=
| by_bytes_filtered digest w i :
    find_match_bytes_filtered ix digest w matched = Some i → reports ix matched w i true
| by_slices_filtered digest first second i :
    find_match_slices_filtered ix digest first second matched = Some i → reports ix matched (first ++ second) i true
| by_bytes digest w i : matched = None →
    find_match_bytes ix digest w = Some i → reports ix matched w i true
| by_slices digest first second i : matched = None →
    find_match_slices ix digest first second = Some i → reports ix matched (first ++ second) i true
| by_window digest front back i : matched = None →
    find_match_window ix digest front back = Some i → reports ix matched (front ++ back) i true
| by_next_bytes last_match digest w i :
    try_next_match_bytes ix last_match digest w = Some i → reports ix matched w i false
| by_next_slices last_match digest first second i :
    try_next_match_slices ix last_match digest first second = Some i → reports ix matched (first ++ second) i false
| by_tail digest first second i :
    find_tail_match ix digest first second matched = Some i → reports ix matched (first ++ second) i true
| by_tail_window digest front back i : matched = None →
    find_tail_match_window ix digest front back = Some i → reports ix matched (front ++ back) i true
| by_check i digest first second : length (first ++ second) = ix_block_length ix →
    check_block_match_slices ix i digest first second = true → reports ix matched (first ++ second) i false
| by_run start target max_blocks k : (k < extend_run ix start target max_blocks)%nat →
    reports ix matched (take (ix_block_length ix) (drop (k * ix_block_length ix) target)) (start + k) false.


(** C30: the probe never misses: if some unconsumed full block has the rolling
    and strong checksums of the window, the probe through the tag table, the bit
    filter and the chained lookup returns a block, and one no later than it. *)
Theorem probe_complete `{HashCratesLaws} (ix : DeltaSignatureIndex) (digest : RollingDigest)
    (first second : list byte) (matched : option MatchedBlocks) (i : nat) (b : SignatureBlock) :
  index_ok ix → ix_blocks ix !! i = Some b → is_full (ix_block_length ix) b = true →
  length (first ++ second) = ix_block_length ix →
  rd_s1 digest = rd_s1 (sb_rolling b) → rd_s2 digest = rd_s2 (sb_rolling b) →
  compute_truncated (ix_algorithm ix) (first ++ second) (ix_strong_length ix) = sb_strong b →
  is_consumed ix i = false → is_skipped matched i = false →
  ∃ j, (j ≤ i)%nat ∧ find_match_slices_filtered ix digest first second matched = Some j
       ∧ checksum_match ix j (first ++ second).
Proof.
  intros Hok Hb Hf Hl H1 H2 He Hc Hs. rewrite find_slices_eq.
  destruct (find_bytes_complete ix Hok digest (first ++ second) matched i b) as (j & Hj & Hfind); try done.
  exists j. split_and!; [done|done|]. by eapply find_bytes_sound in Hfind as [? _].
Qed.

(** *** A concrete index *)

Definition demo_block (i : nat) (data : list byte) : SignatureBlock :=
  mkBlock i (@digest_from_bytes OtherArch data) (@compute_truncated toy_crates Md4 data 2).

Definition demo_signature : FileSignature :=
  mkSignature (mkLayout 2 1 3 2)
    [demo_block 0 [x61; x62]; demo_block 1 [x63; x64]; demo_block 2 [x65]] 5.

Lemma demo_signature_wf : signature_wf demo_signature.
Proof.
  split; [vm_compute; congruence|]. intros b Hb. simpl in Hb.
  repeat (apply elem_of_cons in Hb as [-> |Hb]; [vm_compute; split; congruence|]).
  by apply elem_of_nil in Hb.
Qed.

Lemma index_from_signature_None s alg : index_from_signature s alg = None →
  existsb (is_full (Z.to_nat (sl_block_length (fs_layout s)))) (fs_blocks s) = false.
Proof.
  unfold index_from_signature, populate_index. rewrite populate_loop_has_full. cbn [ps_has_full orb].
  by destruct (existsb _ _).
Qed.

Lemma index_from_signature_parts s alg ix : index_from_signature s alg = Some ix →
  ix_block_length ix = Z.to_nat (sl_block_length (fs_layout s)) ∧
  ix_strong_length ix = Z.to_nat (sl_strong_sum_length (fs_layout s)) ∧
  ix_algorithm ix = alg ∧ ix_blocks ix = fs_blocks s ∧ ∀ idx, is_consumed ix idx = false.
Proof.
  unfold index_from_signature. destruct (negb _); [done|]. intros Hix%Some_inj. rewrite <- Hix.
  split_and!; [done|done|done|done|]. intros idx. apply zero_words_consumed. cbn [ix_consumed].
  unfold build_consumed_words. by apply Forall_replicate.
Qed.


Lemma probe_complete_witness :
  match index_from_signature demo_signature Md4 with
  | Some ix => ∃ j, (j ≤ 1)%nat ∧
      @find_match_slices_filtered toy_crates ix (@digest_from_bytes OtherArch [x63; x64]) [x63] [x64] None
      = Some j ∧ @checksum_match toy_crates ix j [x63; x64]
  | None => False
  end.
Proof.
  destruct (index_from_signature demo_signature Md4) as [ix|] eqn:E.
  - destruct (index_from_signature_parts _ _ _ E) as (Hbl & Hsl & Ha & Hb & Hc).
    apply (@probe_complete toy_crates toy_crates_ok ix (@digest_from_bytes OtherArch [x63; x64])
      [x63] [x64] None 1 (demo_block 1 [x63; x64])).
    + exact (index_from_signature_ok _ _ _ demo_signature_wf E).
    + by rewrite Hb.
    + by rewrite Hbl.
    + by rewrite Hbl.
    + reflexivity.
    + reflexivity.
    + rewrite Ha, Hsl. reflexivity.
    + apply Hc.
    + reflexivity.
  - apply index_from_signature_None in E. vm_compute in E. congruence.
Defined.

Lemma rebuild_is_fresh_witness :
  match index_from_signature demo_signature Md4 with
  | Some ix =>
      let '(ix', ok) := index_rebuild ix demo_signature Sha1 in
      index_ok ix' ∧ ix_blocks ix' = fs_blocks demo_signature ∧ ix_algorithm ix' = Sha1 ∧
      (∀ idx, is_consumed ix' idx = false) ∧
      ok = existsb (is_full (Z.to_nat (sl_block_length (fs_layout demo_signature)))) (fs_blocks demo_signature)
  | None => False
  end.
Proof.
  destruct (index_from_signature demo_signature Md4) as [ix|] eqn:E.
  - exact (rebuild_is_fresh ix demo_signature Sha1
      (index_from_signature_ok _ _ _ demo_signature_wf E) demo_signature_wf).
  - apply index_from_signature_None in E. vm_compute in E. congruence.
Defined.
