(* ===== verification/Script.v ===== *)
(** * Delta scripts and their application ([crates/matching/src/script.rs])

    [DeltaToken], [DeltaScript] and [apply_delta].  The basis file is a byte
    string with a cursor, as a [Read + Seek] value has; the cache of the cursor
    position that lets sequential copies skip the seek is part of the state.
    The theorems give the output of every script: the literals and the basis
    ranges in order when every copy lies inside the basis, and the error and the
    bytes written so far when one does not. *)

From S2P Require Import Prelude.

(** ** Data *)

Inductive DeltaToken :=
| Literal (bytes : list byte)
| Copy (index : nat) (len : nat).

#[export] Instance DeltaToken_eq_dec : EqDecision DeltaToken.
Proof. solve_decision. Defined.

Definition token_byte_len (t : DeltaToken) : nat :=
  match t with
  | Literal bytes => length bytes
  | Copy _ len => len
  end.

Definition token_is_literal (t : DeltaToken) : bool :=
  match t with Literal _ => true | Copy _ _ => false end.

Record DeltaScript := mkScript {
  ds_tokens : list DeltaToken;
  ds_total_bytes : Z;
  ds_literal_bytes : Z;
}.

Definition script_copy_bytes (s : DeltaScript) : Z :=
  Z.max 0 (ds_total_bytes s - ds_literal_bytes s).

Definition script_is_empty (s : DeltaScript) : bool :=
  match ds_tokens s with [] => true | _ => false end.

(** ** Application *)

(** The reader's cursor, the cached [basis_position] and what was written. *)
Record apply_state := mkApply {
  ap_cursor : nat;
  ap_position : option nat;
  ap_output : list byte;
}.

Definition fits_u64 (n : nat) : bool := bool_decide (Z.of_nat n ≤ u64_max)%Z.

Section Apply.
Context (basis : list byte).

(** The [while remaining > 0] loop of a copy; [fuel] is the number of bytes left,
    each turn takes at least one. *)
Fixpoint copy_loop (fuel remaining buffer_len : nat) (st : apply_state)
    : apply_state * result io_error unit :=
  if decide (remaining = 0) then (st, Ok tt)
  else
    match fuel with
    | O => (st, Err OtherError)
    | S fuel' =>
        let chunk := min remaining buffer_len in
        if decide (ap_cursor st + chunk ≤ length basis) then
          let data := take chunk (drop (ap_cursor st) basis) in
          let st' := mkApply (ap_cursor st + chunk) (ap_position st) (ap_output st ++ data) in
          match ap_position st' with
          | Some position =>
              if fits_u64 (position + chunk) then
                copy_loop fuel' (remaining - chunk) buffer_len
                  (mkApply (ap_cursor st') (Some (position + chunk)) (ap_output st'))
              else (st', Err InvalidInput)
          | None => copy_loop fuel' (remaining - chunk) buffer_len st'
          end
        else (st, Err UnexpectedEof)
    end.

Definition apply_token (block_length buffer_len : nat) (st : apply_state) (t : DeltaToken)
    : apply_state * result io_error unit :=
  match t with
  | Literal bytes =>
      (mkApply (ap_cursor st) (ap_position st) (ap_output st ++ bytes), Ok tt)
  | Copy block_index len =>
      let offset := block_index * block_length in
      if fits_u64 offset then
        let st :=
          if decide (ap_position st = Some offset) then st
          else mkApply offset (Some offset) (ap_output st) in
        copy_loop len len buffer_len st
      else (st, Err InvalidInput)
  end.

Fixpoint apply_tokens (block_length buffer_len : nat) (st : apply_state) (ts : list DeltaToken)
    : apply_state * result io_error unit :=
  match ts with
  | [] => (st, Ok tt)
  | t :: ts' =>
      match apply_token block_length buffer_len st t with
      | (st', Ok _) => apply_tokens block_length buffer_len st' ts'
      | (st', Err e) => (st', Err e)
      end
  end.

(** The output written and the result; [cursor] is where the caller left the
    basis reader. *)
Definition apply_delta (cursor block_length : nat) (script : DeltaScript)
    : list byte * result io_error unit :=
  let buffer_len := max block_length (8 * 1024) in
  let '(st, r) :=
    apply_tokens block_length buffer_len (mkApply cursor None []) (ds_tokens script) in
  (ap_output st, r).
End Apply.

(** ** What a script means *)

(** The bytes a token stands for, [None] when a copy leaves the basis. *)
Definition token_bytes (basis : list byte) (block_length : nat) (t : DeltaToken)
    : option (list byte) :=
  match t with
  | Literal bytes => Some bytes
  | Copy i len =>
      if decide (len = 0 ∨ i * block_length + len ≤ length basis)
      then Some (take len (drop (i * block_length) basis)) else None
  end.

Fixpoint script_bytes (basis : list byte) (block_length : nat) (ts : list DeltaToken)
    : option (list byte) :=
  match ts with
  | [] => Some []
  | t :: ts' =>
      b ← token_bytes basis block_length t;
      bs ← script_bytes basis block_length ts';
      Some (b ++ bs)
  end.

Section Theorems.
Context (basis : list byte) (block_length : nat).
Hypothesis basis_fits : (Z.of_nat (length basis) ≤ u64_max)%Z.

(** The cache never lies about the cursor. *)
Definition apply_inv (st : apply_state) : Prop :=
  match ap_position st with Some p => ap_cursor st = p | None => True end.

Lemma fits_u64_le n : n ≤ length basis → fits_u64 n = true.
Proof. intros Hn. apply bool_decide_eq_true. lia. Qed.

Lemma copy_loop_ok fuel remaining buffer_len p out :
  0 < buffer_len → remaining ≤ fuel → remaining = 0 ∨ p + remaining ≤ length basis →
  copy_loop basis fuel remaining buffer_len (mkApply p (Some p) out)
  = (mkApply (p + remaining) (Some (p + remaining)) (out ++ take remaining (drop p basis)), Ok tt).
Proof.
  intros Hb. revert remaining p out.
  induction fuel as [|fuel IH]; intros remaining p out Hf Hr; cbn [copy_loop].
  - rewrite decide_True by lia. replace remaining with 0 by lia.
    by rewrite Nat.add_0_r, app_nil_r.
  - destruct (decide (remaining = 0)) as [->|Hne]; [by rewrite Nat.add_0_r, app_nil_r|].
    destruct Hr as [|Hr]; [done|]. cbn [ap_cursor ap_position ap_output].
    rewrite decide_True, fits_u64_le by lia. set (chunk := min remaining buffer_len).
    rewrite IH by lia. rewrite <- app_assoc, <- Nat.add_assoc.
    replace (chunk + (remaining - chunk)) with remaining by lia. do 3 f_equal.
    rewrite <- drop_drop, take_take_drop. f_equal. lia.
Qed.

Lemma copy_loop_short fuel remaining buffer_len p out :
  0 < buffer_len → remaining ≤ fuel → 0 < remaining → length basis < p + remaining →
  ∃ st, copy_loop basis fuel remaining buffer_len (mkApply p (Some p) out) = (st, Err UnexpectedEof)
    ∧ out `prefix_of` ap_output st.
Proof.
  intros Hb. revert remaining p out.
  induction fuel as [|fuel IH]; intros remaining p out Hf Hr Hs; [lia|]. cbn [copy_loop].
  rewrite decide_False by lia. cbn [ap_cursor ap_position ap_output].
  set (chunk := min remaining buffer_len).
  destruct (decide (p + chunk ≤ length basis)) as [Hc|Hc].
  - rewrite fits_u64_le by lia.
    destruct (IH (remaining - chunk) (p + chunk) (out ++ take chunk (drop p basis)))
      as (st & -> & Hp); [lia..|].
    exists st. split; [done|]. etransitivity; [|exact Hp]. by apply prefix_app_r.
  - eexists. split; [done|]. done.
Qed.

(** Skipping the seek leaves the state a seek would. *)
Lemma seek_cached st offset : apply_inv st →
  (if decide (ap_position st = Some offset) then st
   else mkApply offset (Some offset) (ap_output st))
  = mkApply offset (Some offset) (ap_output st).
Proof.
  intros Hinv. case_decide as E; [|done]. destruct st as [cur pos out].
  unfold apply_inv in Hinv. simpl in *. rewrite E in Hinv. by subst.
Qed.

Lemma apply_token_ok buffer_len st t bs :
  0 < buffer_len → apply_inv st → token_bytes basis block_length t = Some bs →
  (∀ i len, t = Copy i len → fits_u64 (i * block_length) = true) →
  ∃ st', apply_token basis block_length buffer_len st t = (st', Ok tt) ∧
    apply_inv st' ∧ ap_output st' = ap_output st ++ bs.
Proof.
  intros Hb Hinv Ht Hfit. destruct t as [bytes|i len]; cbn [token_bytes] in Ht.
  - simplify_eq. eexists. split; [done|]. done.
  - case_decide as Hd; [|done]. simplify_eq. cbn [apply_token].
    rewrite (Hfit i len eq_refl). set (offset := i * block_length) in *.
    rewrite seek_cached, copy_loop_ok by (done || lia). eexists. split; [done|]. done.
Qed.

(** A token list all of whose copies have a representable offset. *)
Definition offsets_fit (ts : list DeltaToken) : Prop :=
  ∀ i len, Copy i len ∈ ts → fits_u64 (i * block_length) = true.

Lemma apply_tokens_ok buffer_len ts st bs :
  0 < buffer_len → apply_inv st → offsets_fit ts →
  script_bytes basis block_length ts = Some bs →
  ∃ st', apply_tokens basis block_length buffer_len st ts = (st', Ok tt) ∧
    ap_output st' = ap_output st ++ bs.
Proof.
  intros Hb. revert st bs. induction ts as [|t ts IH]; intros st bs Hinv Hfit Hbs;
    cbn [apply_tokens script_bytes] in *.
  - simplify_eq. exists st. by rewrite app_nil_r.
  - destruct (token_bytes basis block_length t) as [b|] eqn:Et; [|done]. simpl in Hbs.
    destruct (script_bytes basis block_length ts) as [bs'|] eqn:Es; [|done]. simplify_eq/=.
    destruct (apply_token_ok buffer_len st t b) as (st' & -> & Hinv' & Hout); try done.
    { intros i len ->. apply (Hfit i len). set_solver. }
    destruct (IH st' bs') as (st'' & -> & Hout'); try done.
    { intros i len Hin. apply (Hfit i len). set_solver. }
    exists st''. split; [done|]. by rewrite Hout', Hout, app_assoc.
Qed.

Lemma apply_delta_ok cursor script bs :
  offsets_fit (ds_tokens script) → script_bytes basis block_length (ds_tokens script) = Some bs →
  apply_delta basis cursor block_length script = (bs, Ok tt).
Proof.
  intros Hfit Hbs. unfold apply_delta.
  destruct (apply_tokens_ok (max block_length (8 * 1024)) (ds_tokens script)
    (mkApply cursor None []) bs) as (st & -> & Hout); [lia|done|done|done|].
  by rewrite Hout.
Qed.

Lemma apply_tokens_fail buffer_len ts st :
  0 < buffer_len → apply_inv st → offsets_fit ts →
  script_bytes basis block_length ts = None →
  ∃ st', apply_tokens basis block_length buffer_len st ts = (st', Err UnexpectedEof) ∧
    ap_output st `prefix_of` ap_output st'.
Proof.
  intros Hb. revert st. induction ts as [|t ts IH]; intros st Hinv Hfit Hbs;
    cbn [apply_tokens script_bytes] in *; [done|].
  destruct (token_bytes basis block_length t) as [b|] eqn:Et; simpl in Hbs.
  - destruct (script_bytes basis block_length ts) as [bs'|] eqn:Es; [done|].
    destruct (apply_token_ok buffer_len st t b) as (st' & -> & Hinv' & Hout); try done.
    { intros i len ->. apply (Hfit i len). set_solver. }
    destruct (IH st') as (st'' & -> & Hp); try done.
    { intros i len Hin. apply (Hfit i len). set_solver. }
    exists st''. split; [done|]. etransitivity; [|exact Hp]. rewrite Hout. by apply prefix_app_r.
  - destruct t as [bytes|i len]; [done|]. cbn [token_bytes] in Et. case_decide as Hd; [done|].
    cbn [apply_token]. rewrite (Hfit i len) by set_solver.
    set (offset := i * block_length) in *.
    rewrite seek_cached by done.
    destruct (copy_loop_short len len buffer_len offset (ap_output st)) as (st' & -> & Hp); [lia..|].
    by exists st'.
Qed.
End Theorems.

(** applying a script writes exactly the literals and basis ranges it names,
    in order, whatever the cursor position and the read-buffer splits; if some
    copy leaves the basis it stops with an end-of-file error. *)
Theorem apply_delta_correct (basis : list byte) (block_length cursor : nat) (script : DeltaScript) :
  (Z.of_nat (length basis) ≤ u64_max)%Z → offsets_fit block_length (ds_tokens script) →
  match script_bytes basis block_length (ds_tokens script) with
  | Some bs => apply_delta basis cursor block_length script = (bs, Ok tt)
  | None => (apply_delta basis cursor block_length script).2 = Err UnexpectedEof
  end.
Proof.
  intros Hb Hfit. destruct (script_bytes basis block_length (ds_tokens script)) as [bs|] eqn:E.
  - by apply apply_delta_ok.
  - unfold apply_delta.
    destruct (apply_tokens_fail basis block_length Hb (max block_length (8 * 1024))
      (ds_tokens script) (mkApply cursor None [])) as (st & -> & _); done || lia.
Qed.

Lemma apply_delta_correct_witness :
  apply_delta [x61; x62; x63; x64; x65] 3 2
    (mkScript [Copy 1 2; Copy 2 1; Literal [x7a]; Copy 0 2] 6 1)
  = ([x63; x64; x65; x7a; x61; x62], Ok tt).
Proof.
  apply (apply_delta_correct [x61; x62; x63; x64; x65] 2 3
    (mkScript [Copy 1 2; Copy 2 1; Literal [x7a]; Copy 0 2] 6 1)).
  - vm_compute; congruence.
  - intros i len Hin. apply bool_decide_eq_true.
    repeat (apply elem_of_cons in Hin as [Hin|Hin]; [simplify_eq; unfold u64_max; lia|]).
    by apply elem_of_nil in Hin.
Defined.
