(* ===== verification/Generator.v ===== *)
(** * Delta generation ([crates/matching/src/generator.rs])

    The sequential scan ([generate_with_prune]) and the consecutive-match scan
    ([generate_gated]); the parallel scan is in [Parallel].  A reader is the
    sequence of results its [read] calls return.  The main theorems: whatever
    the reader's chunking, the index and the options, applying the generated
    script to the basis gives back the input exactly, or the input contains a
    window that differs from a basis block with the same strong checksum; the
    scripts cover the input, count their bytes and, with the in-place guard, never
    read basis data that was overwritten. *)

From S2P Require Import Prelude Rolling Strong Signature RingBuffer Lookup Index Script.

Definition CHUNK_SIZE : nat := 32 * 1024.

Definition literal_flush_cadence (block_len : nat) : nat := block_len + CHUNK_SIZE.

(** ** Runs *)

Definition flush_seq_match_run (tokens : list DeltaToken) (start : option nat) (run_len block_len : nat)
    : list DeltaToken :=
  match start with
  | Some start_idx =>
      if 0 <? run_len then tokens ++ [Copy start_idx (run_len * block_len)] else tokens
  | None => tokens
  end.

(** ** Reading *)

(** What is left of the read buffer, and the results of the reads to come. *)
Record source := mkSource { so_buf : list byte; so_reader : list read_event }.

(** [if buffer_pos == buffer_len { buffer_len = reader.read(..)?; .. }]; [false]
    when the read returned no data. *)
Definition refill (s : source) : result io_error (bool * source) :=
  match so_buf s with
  | _ :: _ => Ok (true, s)
  | [] =>
      match so_reader s with
      | [] => Ok (false, s)
      | RData [] :: r => Ok (false, mkSource [] r)
      | RData bs :: r => Ok (true, mkSource bs r)
      | RInterrupted :: _ => Err OtherError
      | RFail e :: _ => Err e
      end
  end.

(** The bulk refill of the window after a match; every turn but the last empties
    the buffer, so the reads to come bound the turns. *)
Fixpoint fill_window (fuel : nat) (filled block_len : nat) (w : RingBuffer) (s : source)
    : result io_error (nat * RingBuffer * source) :=
  match fuel with
  | O => Ok (filled, w, s)
  | S fuel' =>
      if filled <? block_len then
        match refill s with
        | Err e => Err e
        | Ok (false, s) => Ok (filled, w, s)
        | Ok (true, s) =>
            let n := length (so_buf s) `min` (block_len - filled) in
            let '(w, _) := ring_extend_from_slice w (take n (so_buf s)) in
            fill_window fuel' (filled + n) block_len w (mkSource (drop n (so_buf s)) (so_reader s))
        end
      else Ok (filled, w, s)
  end.

Definition fill_fuel (s : source) : nat := length (so_reader s) + 2.

(** ** The sequential scan *)

Definition DEFAULT_BUFFER_LEN : nat := 128 * 1024.

Record DeltaGenerator := mkGenerator {
  dg_buffer_len : nat;
  dg_consecutive_match_needed : nat;
  dg_updating_basis_file : bool;
}.

Definition generator_new : DeltaGenerator := mkGenerator DEFAULT_BUFFER_LEN 1 false.

Definition with_buffer_len (g : DeltaGenerator) (buffer_len : nat) : DeltaGenerator :=
  mkGenerator (max buffer_len 1) (dg_consecutive_match_needed g) (dg_updating_basis_file g).

Definition with_consecutive_match_needed (g : DeltaGenerator) (needed : nat) : DeltaGenerator :=
  mkGenerator (dg_buffer_len g) (max needed 1) (dg_updating_basis_file g).

Definition with_updating_basis_file (g : DeltaGenerator) (updating : bool) : DeltaGenerator :=
  mkGenerator (dg_buffer_len g) (dg_consecutive_match_needed g) updating.

Record gen_state := mkGen {
  g_window : RingBuffer;
  g_pending : list byte;
  g_rolling : RollingChecksum;
  g_tokens : list DeltaToken;
  g_total : Z;
  g_literal : Z;
  g_offset : nat;
  g_want : option nat;
  g_matched : MatchedBlocks;
  g_index : DeltaSignatureIndex;
  g_source : source;
}.

(** Emit the pending bytes as one literal token. *)
Definition flush_pending (st : gen_state) : gen_state :=
  mkGen (g_window st) [] (g_rolling st) (g_tokens st ++ [Literal (g_pending st)])
    (g_total st + Z.of_nat (length (g_pending st))) (g_literal st + Z.of_nat (length (g_pending st)))
    (g_offset st) (g_want st) (g_matched st) (g_index st) (g_source st).

Definition basis_offset_ok (g : DeltaGenerator) (ix : DeltaSignatureIndex) (block_len idx cursor : nat)
    : bool :=
  if negb (dg_updating_basis_file g) then true
  else cursor <=? sb_index (get_block ix idx) * block_len.

Definition filter_offset (g : DeltaGenerator) (ix : DeltaSignatureIndex) (block_len cursor : nat)
    (candidate : option nat) : option nat :=
  match candidate with
  | Some idx => if basis_offset_ok g ix block_len idx cursor then Some idx else None
  | None => None
  end.

(** [rolling.update(s1); if !s2.is_empty() { rolling.update(s2); }]. *)
Definition update_slices `{HasCpu} (c : RollingChecksum) (s1 s2 : list byte) : RollingChecksum :=
  let c := rolling_update c s1 in
  match s2 with [] => c | _ => rolling_update c s2 end.

Section Scan.
Context `{HasCpu} `{HashCrates}.
Context (g : DeltaGenerator) (block_len : nat) (prune : bool).

Definition prune_filter (st : gen_state) : option MatchedBlocks :=
  if prune then Some (g_matched st) else None.

(** The probe at a window reached byte by byte. *)
Definition probe_window (st : gen_state) : option nat :=
  let ix := g_index st in
  let digest := rolling_digest (g_rolling st) in
  let '(first, second) := ring_as_slices (g_window st) in
  let matched :=
    match g_want st with
    | Some hint =>
        if check_block_match_slices ix hint digest first second then Some hint
        else find_match_slices_filtered ix digest first second (prune_filter st)
    | None => find_match_slices_filtered ix digest first second (prune_filter st)
    end in
  filter_offset g ix block_len (g_offset st) matched.

(** The probe at a block boundary after a match. *)
Definition probe_adjacent (last_matched : nat) (st : gen_state) : option nat :=
  let ix := g_index st in
  let digest := rolling_digest (g_rolling st) in
  let '(f, s) := ring_as_slices (g_window st) in
  let adj_match :=
    match try_next_match_slices ix last_matched digest f s with
    | Some next_idx => Some next_idx
    | None => find_match_slices_filtered ix digest f s (prune_filter st)
    end in
  filter_offset g ix block_len (g_offset st) adj_match.

(** One turn of the match loop up to the refill: literals, run tracking, marks,
    cursor. Returns the state and the open run. *)
Definition accept_match (match_idx : nat) (run : option nat * nat) (st : gen_state)
    : gen_state * (option nat * nat) :=
  let '(st, run) :=
    match g_pending st with
    | [] => (st, run)
    | _ =>
        (flush_pending
           (mkGen (g_window st) (g_pending st) (g_rolling st)
              (flush_seq_match_run (g_tokens st) run.1 run.2 block_len) (g_total st) (g_literal st)
              (g_offset st) (g_want st) (g_matched st) (g_index st) (g_source st)),
         (None, 0))
    end in
  let block := get_block (g_index st) match_idx in
  let block_basis_idx := sb_index block in
  let '(tokens, run) :=
    match run with
    | (Some start_idx, run_len) =>
        if start_idx + run_len =? block_basis_idx then (g_tokens st, (Some start_idx, run_len + 1))
        else (flush_seq_match_run (g_tokens st) (Some start_idx) run_len block_len,
              (Some block_basis_idx, 1))
    | (None, run_len) => (g_tokens st, (Some block_basis_idx, 1))
    end in
  let ix := if prune then mark_consumed (g_index st) (as_u32 match_idx) else g_index st in
  (mkGen (ring_clear (g_window st)) (g_pending st) (rolling_reset (g_rolling st)) tokens
     (g_total st + Index.block_len block) (g_literal st) (g_offset st + block_len)
     (index_next_match ix match_idx) (mark_matched (g_matched st) match_idx) ix (g_source st),
   run).

Definition with_window (st : gen_state) (w : RingBuffer) (c : RollingChecksum) (s : source) : gen_state :=
  mkGen w (g_pending st) c (g_tokens st) (g_total st) (g_literal st) (g_offset st) (g_want st)
    (g_matched st) (g_index st) s.

Definition with_tokens (st : gen_state) (tokens : list DeltaToken) : gen_state :=
  mkGen (g_window st) (g_pending st) (g_rolling st) tokens (g_total st) (g_literal st) (g_offset st)
    (g_want st) (g_matched st) (g_index st) (g_source st).

(** The match loop: accept, refill, probe the next block. Every turn takes a full
    block from the source, so the bytes left bound the turns. *)
Fixpoint match_loop (fuel : nat) (match_idx : nat) (run : option nat * nat) (st : gen_state)
    : result io_error gen_state :=
  match fuel with
  | O => Err OtherError
  | S fuel' =>
      let '(st, run) := accept_match match_idx run st in
      match fill_window (fill_fuel (g_source st)) 0 block_len (g_window st) (g_source st) with
      | Err e => Err e
      | Ok (filled, w, s) =>
          if filled <? block_len then
            let st := with_window st w (g_rolling st) s in
            Ok (with_tokens st (flush_seq_match_run (g_tokens st) run.1 run.2 block_len))
          else
            let '(s1, s2) := ring_as_slices w in
            let st := with_window st w (update_slices (g_rolling st) s1 s2) s in
            match probe_adjacent match_idx st with
            | Some next_idx => match_loop fuel' next_idx run st
            | None => Ok (with_tokens st (flush_seq_match_run (g_tokens st) run.1 run.2 block_len))
            end
      end
  end.

(** Taking one byte into the window: roll or extend the checksum, and flush the
    literals when they reach the cadence. *)
Definition take_byte (byte : byte) (s : source) (st : gen_state) : result io_error gen_state :=
  let '(w, evicted) := ring_push_back (g_window st) byte in
  match evicted with
  | Some outgoing_byte =>
      match rolling_roll (g_rolling st) outgoing_byte byte with
      | Err _ => Err InvalidData
      | Ok c =>
          let st :=
            mkGen w (g_pending st ++ [outgoing_byte]) c (g_tokens st) (g_total st) (g_literal st)
              (g_offset st + 1) (g_want st) (g_matched st) (g_index st) s in
          Ok (if literal_flush_cadence block_len <=? length (g_pending st)
              then flush_pending st else st)
      end
  | None => Ok (with_window st w (rolling_update_byte (g_rolling st) byte) s)
  end.

(** Bytes and reads left: what the loops consume. *)
Definition source_size (s : source) : nat :=
  length (so_buf s) +
  foldr (λ e acc, S (match e with RData bs => length bs | _ => 0 end) + acc) 0 (so_reader s).

Fixpoint scan_loop (fuel : nat) (st : gen_state) : result io_error gen_state :=
  match fuel with
  | O => Err OtherError
  | S fuel' =>
      match refill (g_source st) with
      | Err e => Err e
      | Ok (false, s) => Ok (with_window st (g_window st) (g_rolling st) s)
      | Ok (true, s) =>
          match so_buf s with
          | [] => Err OtherError
          | byte :: buf =>
              match take_byte byte (mkSource buf (so_reader s)) st with
              | Err e => Err e
              | Ok st =>
                  if negb (ring_is_full (g_window st)) then scan_loop fuel' st
                  else
                    match probe_window st with
                    | Some match_idx =>
                        match match_loop (S (source_size (g_source st))) match_idx (None, 0) st with
                        | Err e => Err e
                        | Ok st => scan_loop fuel' st
                        end
                    | None => scan_loop fuel' st
                    end
              end
          end
      end
  end.

(** [while let Some(byte) = window.pop_front() { pending_literals.push(byte); }]. *)
Fixpoint drain_window (fuel : nat) (w : RingBuffer) (pending : list byte) : RingBuffer * list byte :=
  match fuel with
  | O => (w, pending)
  | S fuel' =>
      match ring_pop_front w with
      | (w, Some byte) => drain_window fuel' w (pending ++ [byte])
      | (w, None) => (w, pending)
      end
  end.

Definition finish_scan (st : gen_state) : gen_state :=
  let '(w, pending) := drain_window (S (rb_len (g_window st))) (g_window st) (g_pending st) in
  let st :=
    mkGen w pending (g_rolling st) (g_tokens st) (g_total st) (g_literal st) (g_offset st)
      (g_want st) (g_matched st) (g_index st) (g_source st) in
  match pending with [] => st | _ => flush_pending st end.

End Scan.

Section Generate.
Context `{HasCpu} `{HashCrates}.
Context (g : DeltaGenerator).

(** The script, and the index with its consumed bits as the scan leaves them. *)
Definition generate_with_prune (reader : list read_event) (ix : DeltaSignatureIndex) (prune : bool)
    : result io_error (DeltaScript * DeltaSignatureIndex) :=
  let block_len := ix_block_length ix in
  let ix := if prune then with_consumed ix (reset_consumed (ix_consumed ix)) else ix in
  let st :=
    mkGen (ring_with_capacity block_len) [] rolling_new [] 0 0 0 (Some 0)
      (matched_with_block_count (length (ix_blocks ix))) ix (mkSource [] reader) in
  match scan_loop g block_len prune (S (source_size (mkSource [] reader))) st with
  | Err e => Err e
  | Ok st =>
      let st := finish_scan st in
      Ok (mkScript (g_tokens st) (g_total st) (g_literal st), g_index st)
  end.

(** ** The consecutive-match scan *)

Definition gated_probe (block_len : nat) (st : gen_state) : option nat :=
  let '(first, second) := ring_as_slices (g_window st) in
  filter_offset g (g_index st) block_len (g_offset st)
    (find_match_slices_filtered (g_index st) (rolling_digest (g_rolling st)) first second
       (Some (g_matched st))).

(** The loop over consecutive matching blocks: the basis indices of the run and
    the source bytes of its first block. *)
Fixpoint gated_match_loop (fuel block_len match_idx : nat) (run : list nat) (lone_src : list byte)
    (st : gen_state) : result io_error (gen_state * list nat * list byte) :=
  match fuel with
  | O => Err OtherError
  | S fuel' =>
      let basis_idx := sb_index (get_block (g_index st) match_idx) in
      let lone_src :=
        match run with
        | [] => let '(s1, s2) := ring_as_slices (g_window st) in lone_src ++ s1 ++ s2
        | _ => lone_src
        end in
      let run := run ++ [basis_idx] in
      let st :=
        mkGen (ring_clear (g_window st)) (g_pending st) (rolling_reset (g_rolling st)) (g_tokens st)
          (g_total st) (g_literal st) (g_offset st + block_len) (g_want st)
          (mark_matched (g_matched st) match_idx) (mark_consumed (g_index st) (as_u32 match_idx))
          (g_source st) in
      match fill_window (fill_fuel (g_source st)) 0 block_len (g_window st) (g_source st) with
      | Err e => Err e
      | Ok (filled, w, s) =>
          if filled <? block_len then Ok (with_window st w (g_rolling st) s, run, lone_src)
          else
            let '(f, s') := ring_as_slices w in
            let st := with_window st w (update_slices (g_rolling st) f s') s in
            match gated_probe block_len st with
            | Some next_idx => gated_match_loop fuel' block_len next_idx run lone_src st
            | None => Ok (st, run, lone_src)
            end
      end
  end.

(** Trusted runs become copies, a lone match a literal of its own bytes. *)
Definition flush_gated_run (block_len : nat) (run : list nat) (lone_src : list byte) (st : gen_state)
    : gen_state :=
  if 2 <=? length run then
    mkGen (g_window st) (g_pending st) (g_rolling st) (g_tokens st ++ map (λ i, Copy i block_len) run)
      (g_total st + Z.of_nat (length run) * Z.of_nat block_len) (g_literal st) (g_offset st) (g_want st)
      (g_matched st) (g_index st) (g_source st)
  else
    match run with
    | [] => st
    | _ =>
        mkGen (g_window st) (g_pending st) (g_rolling st) (g_tokens st ++ [Literal lone_src])
          (g_total st + Z.of_nat (length lone_src)) (g_literal st + Z.of_nat (length lone_src))
          (g_offset st) (g_want st) (g_matched st) (g_index st) (g_source st)
    end.

Definition gated_take_byte (byte : byte) (s : source) (st : gen_state) : result io_error gen_state :=
  let '(w, evicted) := ring_push_back (g_window st) byte in
  match evicted with
  | Some outgoing_byte =>
      match rolling_roll (g_rolling st) outgoing_byte byte with
      | Err _ => Err InvalidData
      | Ok c =>
          Ok (mkGen w (g_pending st ++ [outgoing_byte]) c (g_tokens st) (g_total st) (g_literal st)
                (g_offset st + 1) (g_want st) (g_matched st) (g_index st) s)
      end
  | None => Ok (with_window st w (rolling_update_byte (g_rolling st) byte) s)
  end.

Definition flush_if_pending (st : gen_state) : gen_state :=
  match g_pending st with [] => st | _ => flush_pending st end.

Fixpoint gated_loop (fuel block_len : nat) (st : gen_state) : result io_error gen_state :=
  match fuel with
  | O => Err OtherError
  | S fuel' =>
      match refill (g_source st) with
      | Err e => Err e
      | Ok (false, s) => Ok (with_window st (g_window st) (g_rolling st) s)
      | Ok (true, s) =>
          match so_buf s with
          | [] => Err OtherError
          | byte :: buf =>
              match gated_take_byte byte (mkSource buf (so_reader s)) st with
              | Err e => Err e
              | Ok st =>
                  if negb (ring_is_full (g_window st)) then gated_loop fuel' block_len st
                  else
                    match gated_probe block_len st with
                    | None => gated_loop fuel' block_len st
                    | Some match_idx =>
                        let st := flush_if_pending st in
                        match gated_match_loop (S (source_size (g_source st))) block_len match_idx
                                [] [] st with
                        | Err e => Err e
                        | Ok (st, run, lone_src) =>
                            gated_loop fuel' block_len (flush_gated_run block_len run lone_src st)
                        end
                    end
              end
          end
      end
  end.

Definition generate_gated (reader : list read_event) (ix : DeltaSignatureIndex)
    : result io_error (DeltaScript * DeltaSignatureIndex) :=
  let block_len := ix_block_length ix in
  let ix := with_consumed ix (reset_consumed (ix_consumed ix)) in
  let st :=
    mkGen (ring_with_capacity block_len) [] rolling_new [] 0 0 0 None
      (matched_with_block_count (length (ix_blocks ix))) ix (mkSource [] reader) in
  match gated_loop (S (source_size (mkSource [] reader))) block_len st with
  | Err e => Err e
  | Ok st =>
      let st := finish_scan st in
      Ok (mkScript (g_tokens st) (g_total st) (g_literal st), g_index st)
  end.

Definition generate (reader : list read_event) (ix : DeltaSignatureIndex)
    : result io_error (DeltaScript * DeltaSignatureIndex) :=
  if 2 <=? dg_consecutive_match_needed g then generate_gated reader ix
  else generate_with_prune reader ix true.
End Generate.

(** ** What a script stands for *)

(** The bytes carried by literals. *)
Fixpoint literal_len (ts : list DeltaToken) : Z :=
  match ts with
  | [] => 0
  | Literal bs :: ts' => Z.of_nat (length bs) + literal_len ts'
  | Copy _ _ :: ts' => literal_len ts'
  end.

Lemma literal_len_app ts ts' : literal_len (ts ++ ts') = (literal_len ts + literal_len ts')%Z.
Proof. induction ts as [|[bs|i l] ts IH]; simpl; lia. Qed.

Section Denotes.
Context `{HashCrates}.
Context (ix : DeltaSignatureIndex) (guard : bool) (block_len : nat).

(** Some block of the signature with basis index [i] has the length and the
    strong checksum of [w]. *)
Definition block_matches (i : nat) (w : list byte) : Prop :=
  ∃ p b, ix_blocks ix !! p = Some b ∧ sb_index b = i ∧ Index.block_len b = Z.of_nat (length w) ∧
    compute_truncated (ix_algorithm ix) w (ix_strong_length ix) = sb_strong b.

Definition segs_match (i : nat) (segs : list (list byte)) : Prop :=
  ∀ k w, segs !! k = Some w → block_matches (i + k) w ∧ length w = block_len.

(** The tokens stand for [src] at offset [off]: literals are its bytes, and the
    copies are runs of windows whose checksums match the blocks they name, read
    no earlier than the cursor when the in-place guard is on. *)
Inductive denotes : nat → list DeltaToken → list byte → Prop :=
| den_nil off : denotes off [] []
| den_literal off bs ts src :
    denotes (off + length bs) ts src → denotes off (Literal bs :: ts) (bs ++ src)
| den_copy off i segs ts src :
    segs_match i segs → segs ≠ [] → (guard = true → off ≤ i * block_len) →
    denotes (off + length segs * block_len) ts src →
    denotes off (Copy i (length segs * block_len) :: ts) (concat segs ++ src).

Lemma concat_segs_length i segs : segs_match i segs → length (concat segs) = length segs * block_len.
Proof.
  revert i. induction segs as [|w segs IH]; intros i Hs; [done|]. cbn [concat length].
  rewrite length_app, (proj2 (Hs 0 w eq_refl)), (IH (S i)); [lia|].
  intros k v Hk. replace (S i + k) with (i + S k) by lia. by apply Hs.
Qed.

Lemma denotes_app off ts1 ts2 s1 s2 :
  denotes off ts1 s1 → denotes (off + length s1) ts2 s2 → denotes off (ts1 ++ ts2) (s1 ++ s2).
Proof.
  intros H1. revert ts2 s2. induction H1 as [off|off bs ts src H1 IH|off i segs ts src Hs Hne Hg H1 IH];
    intros ts2 s2 H2; cbn [app].
  - by rewrite Nat.add_0_r in H2.
  - rewrite <- app_assoc. constructor. apply IH. rewrite length_app in H2.
    by rewrite <- Nat.add_assoc.
  - rewrite <- app_assoc. constructor; [done|done|done|]. apply IH.
    rewrite length_app, (concat_segs_length i) in H2 by done. by rewrite <- Nat.add_assoc.
Qed.

Lemma denotes_literal off ts src bs :
  denotes off ts src → denotes off (ts ++ [Literal bs]) (src ++ bs).
Proof.
  intros Hd. apply denotes_app; [done|]. rewrite <- (app_nil_r bs) at 2. repeat constructor.
Qed.

Lemma denotes_snoc_copy off ts src i segs :
  denotes off ts src → segs_match i segs → segs ≠ [] → (guard = true → off + length src ≤ i * block_len) →
  denotes off (ts ++ [Copy i (length segs * block_len)]) (src ++ concat segs).
Proof.
  intros Hd Hs Hne Hg. apply denotes_app; [done|]. rewrite <- (app_nil_r (concat segs)).
  constructor; [done|done|done|constructor].
Qed.

Lemma denotes_copy_inv off ts i n src :
  denotes off (ts ++ [Copy i n]) src →
  ∃ src' segs, src = src' ++ concat segs ∧ n = length segs * block_len ∧ denotes off ts src' ∧
    segs_match i segs ∧ (guard = true → off + length src' ≤ i * block_len).
Proof.
  revert off src. induction ts as [|t ts IH]; intros off src Hd; cbn [app] in Hd.
  - inversion Hd as [| |? ? segs ? src0 Hs Hne Hg Hd0]; subst.
    inversion Hd0; subst. exists [], segs. rewrite app_nil_r, Nat.add_0_r.
    split_and!; [done|done|constructor|done|done].
  - inversion Hd as [|? bs ? src0 Hd0|? j segs0 ? src0 Hs Hne Hg Hd0]; subst.
    + destruct (IH _ _ Hd0) as (s' & segs & -> & -> & Hd' & Hs' & Hg'). exists (bs ++ s'), segs.
      rewrite <- app_assoc, length_app, Nat.add_assoc. split_and!; [done|done|by constructor|done|done].
    + destruct (IH _ _ Hd0) as (s' & segs & -> & -> & Hd' & Hs' & Hg').
      exists (concat segs0 ++ s'), segs.
      rewrite <- app_assoc, length_app, (concat_segs_length j), Nat.add_assoc by done.
      split_and!; [done|done|by constructor|done|done].
Qed.
End Denotes.

(** ** From checksums to contents *)

Section Basis.
Context `{HashCrates}.
Context (ix : DeltaSignatureIndex) (basis : list byte).

Definition basis_chunk (i : nat) : list byte :=
  take (ix_block_length ix) (drop (i * ix_block_length ix) basis).

(** The index was built from a signature of [basis]. *)
Definition index_of_basis : Prop :=
  ∀ p b, ix_blocks ix !! p = Some b →
    sb_index b = p ∧ Index.block_len b = Z.of_nat (length (basis_chunk p)) ∧
    sb_strong b = compute_truncated (ix_algorithm ix) (basis_chunk p) (ix_strong_length ix).

(** Two different byte strings of the same length, one a window of the input and
    one a block of the basis, with the same (truncated) strong checksum. *)
Definition collision (input : list byte) : Prop :=
  ∃ i w, w ≠ basis_chunk i ∧ length w = length (basis_chunk i) ∧
    (∃ k, take (length w) (drop k input) = w) ∧
    compute_truncated (ix_algorithm ix) w (ix_strong_length ix)
    = compute_truncated (ix_algorithm ix) (basis_chunk i) (ix_strong_length ix).

Hypothesis Hbasis : index_of_basis.

Lemma block_matches_chunk i w : block_matches ix i w →
  length w = length (basis_chunk i) ∧
  compute_truncated (ix_algorithm ix) w (ix_strong_length ix)
  = compute_truncated (ix_algorithm ix) (basis_chunk i) (ix_strong_length ix).
Proof.
  intros (p & b & Hb & <- & Hl & He). destruct (Hbasis p b Hb) as (-> & Hl' & He').
  split; [lia|congruence].
Qed.

(** A matched run is the basis range it names, or contains a collision. *)
Lemma segs_match_basis i segs : segs_match ix (ix_block_length ix) i segs →
  (length segs = 0 ∨ i * ix_block_length ix + length (concat segs) ≤ length basis) ∧
  (concat segs = take (length (concat segs)) (drop (i * ix_block_length ix) basis) ∨
   ∃ j w, w ≠ basis_chunk j ∧ length w = length (basis_chunk j) ∧
     (∃ k, take (length w) (drop k (concat segs)) = w) ∧
     compute_truncated (ix_algorithm ix) w (ix_strong_length ix)
     = compute_truncated (ix_algorithm ix) (basis_chunk j) (ix_strong_length ix)).
Proof.
  revert i. induction segs as [|w segs IH]; intros i Hs; [split; left; done|].
  destruct (Hs 0 w eq_refl) as [Hm Hw]. rewrite Nat.add_0_r in Hm.
  destruct (block_matches_chunk i w Hm) as [Hl He].
  destruct (IH (S i)) as [Hin Hrest].
  { intros k v Hk. replace (S i + k) with (i + S k) by lia. by apply Hs. }
  set (bl := ix_block_length ix) in *.
  assert (Hfit : i * bl + bl ≤ length basis ∨ bl = 0).
  { unfold basis_chunk in Hl. fold bl in Hl. rewrite length_take, length_drop in Hl. lia. }
  cbn [concat]. rewrite length_app, Hw. split.
  { right. destruct Hin as [Hz|Hin]; [|lia].
    destruct segs; [|done]. cbn [concat length]. unfold basis_chunk in Hl. fold bl in Hl.
    rewrite length_take, length_drop in Hl. destruct Hfit; [lia|]. subst bl.
    lia. }
  destruct (decide (w = basis_chunk i)) as [Heq|Hne].
  - destruct Hrest as [Hrest|(j & v & Hv & Hlv & (k & Hk) & Hev)].
    + left. rewrite <- take_take_drop. rewrite drop_drop. f_equal.
      * rewrite Heq at 1. done.
      * rewrite Hrest at 1. do 2 f_equal. lia.
    + right. exists j, v. split_and!; [done|done| |done]. exists (length w + k).
      rewrite <- drop_drop, drop_app_length. done.
  - right. exists i, w. split_and!; [done|done| |done]. exists 0. by rewrite drop_0, take_app_length.
Qed.
End Basis.

(** ** Reconstruction *)

Lemma window_app_l (w l r : list byte) k :
  take (length w) (drop k l) = w → take (length w) (drop k (l ++ r)) = w.
Proof.
  intros Hw. pose proof (f_equal length Hw) as Hl. rewrite length_take in Hl.
  rewrite drop_app, take_app. rewrite Hw. rewrite length_drop in Hl |- *.
  destruct (decide (length w = 0)) as [E|E].
  - apply nil_length_inv in E. by subst w.
  - replace (length w - (length l - k)) with 0 by lia. by rewrite take_0, app_nil_r.
Qed.

Lemma window_app_r (w l r : list byte) k :
  take (length w) (drop k r) = w → take (length w) (drop (length l + k) (l ++ r)) = w.
Proof. intros Hw. by rewrite <- drop_drop, drop_app_length. Qed.

Section Reconstruct.
Context `{HashCrates}.
Context (ix : DeltaSignatureIndex) (basis : list byte) (Hbasis : index_of_basis ix basis).

Lemma denotes_reconstructs guard off ts src :
  denotes ix guard (ix_block_length ix) off ts src →
  script_bytes basis (ix_block_length ix) ts = Some src ∨ collision ix basis src.
Proof.
  induction 1 as [off|off bs ts src Hd IH|off i segs ts src Hs Hnil Hg Hd IH]; [by left|..].
  - destruct IH as [IH|(i & w & Hne & Hl & (k & Hk) & He)].
    + left. cbn [script_bytes token_bytes]. simpl. by rewrite IH.
    + right. exists i, w. split_and!; [done|done| |done]. exists (length bs + k). by apply window_app_r.
  - destruct (segs_match_basis ix basis Hbasis i segs Hs) as [Hfit [Heq|Hcol]].
    + destruct IH as [IH|(j & w & Hne & Hl & (k & Hk) & He)].
      * left. cbn [script_bytes token_bytes].
        rewrite (concat_segs_length ix _ i segs Hs) in Hfit, Heq.
        rewrite decide_True by (destruct Hfit as [E|]; [left; rewrite E; lia|by right]).
        simpl. rewrite IH. simpl. by rewrite <- Heq.
      * right. exists j, w. split_and!; [done|done| |done].
        exists (length (concat segs) + k). by apply window_app_r.
    + right. destruct Hcol as (j & w & Hne & Hl & (k & Hk) & He). exists j, w.
      split_and!; [done|done| |done]. exists k. by apply window_app_l.
Qed.

Lemma denotes_offsets_fit guard off ts src : (Z.of_nat (length basis) ≤ u64_max)%Z →
  denotes ix guard (ix_block_length ix) off ts src → offsets_fit (ix_block_length ix) ts.
Proof.
  intros Hb Hd i len Hin. apply bool_decide_eq_true.
  induction Hd as [off|off bs ts src Hd IH|off j segs ts src Hs Hnil Hg Hd IH]; [set_solver|..].
  - apply IH. apply elem_of_cons in Hin as [?|?]; done.
  - apply elem_of_cons in Hin as [Heq|?]; [|by apply IH]. simplify_eq.
    destruct (segs_match_basis ix basis Hbasis j segs Hs) as [[E|Hfit] _].
    + by apply nil_length_inv in E.
    + rewrite (concat_segs_length ix _ j segs Hs) in Hfit. lia.
Qed.
End Reconstruct.

(** ** The window and the source *)

(** Every read delivers data; the end of the list is the end of the file. *)
Definition delivers (reader : list read_event) : Prop :=
  Forall (λ e, ∃ b bs, e = RData (b :: bs)) reader.

Definition reader_bytes (reader : list read_event) : list byte :=
  concat (map (λ e, match e with RData bs => bs | _ => [] end) reader).

Definition source_data (s : source) : list byte := so_buf s ++ reader_bytes (so_reader s).

Lemma source_size_data s : length (source_data s) ≤ source_size s.
Proof.
  unfold source_data, source_size. rewrite length_app.
  induction (so_reader s) as [|e r IH]; [simpl; lia|].
  unfold reader_bytes in *. cbn [map concat foldr]. rewrite length_app. destruct e; simpl in *; lia.
Qed.

Lemma refill_spec s : delivers (so_reader s) →
  (∃ s', refill s = Ok (true, s') ∧ so_buf s' ≠ [] ∧ source_data s' = source_data s ∧
     delivers (so_reader s') ∧ source_size s' ≤ source_size s ∧
     length (so_reader s') + (if decide (so_buf s = []) then 1 else 0) = length (so_reader s)) ∨
  (refill s = Ok (false, s) ∧ s = mkSource [] []).
Proof.
  intros Hd. unfold refill. destruct s as [buf reader]. cbn [so_buf so_reader] in *.
  destruct buf as [|b buf].
  - destruct reader as [|e r]; [by right|]. left.
    inversion_clear Hd as [|? ? (b & bs & ->) Hr]. eexists. split; [done|].
    split_and!; try done; unfold source_size; simpl; lia.
  - left. eexists. split; [done|]. split_and!; solve [done | simpl; lia].
Qed.

Section Window.
Context (block_len : nat) (Hbl : 0 < block_len).

(** The window is a ring of one block. *)
Definition window_ok (w : RingBuffer) : Prop := ring_wf w ∧ ring_capacity w = block_len.

Lemma window_ok_len w : window_ok w → rb_len w = length (ring_contents w) ∧ length (ring_contents w) ≤ block_len.
Proof.
  intros [Hwf Hc]. rewrite ring_contents_length by done. split; [done|].
  destruct Hwf as (_ & _ & ?). unfold ring_capacity in Hc. lia.
Qed.

Lemma window_is_full w : window_ok w → ring_is_full w = bool_decide (length (ring_contents w) = block_len).
Proof.
  intros Hw. destruct (window_ok_len w Hw) as [Hl _]. destruct Hw as [_ Hc].
  unfold ring_is_full, ring_capacity in *. rewrite Hl, Hc.
  case_bool_decide; [by apply Nat.eqb_eq|by apply Nat.eqb_neq].
Qed.

Lemma window_clear w : window_ok w → window_ok (ring_clear w) ∧ ring_contents (ring_clear w) = [].
Proof.
  intros [(H1 & H2 & H3) Hc]. split; [|done]. split; [|done]. unfold ring_wf. simpl. lia.
Qed.

Lemma fill_window_spec fuel filled w s :
  window_ok w → delivers (so_reader s) → filled = length (ring_contents w) →
  0 < fuel → (filled < block_len → length (so_reader s) + (if decide (so_buf s = []) then 0 else 1) < fuel) →
  ∃ filled' w' s', fill_window fuel filled block_len w s = Ok (filled', w', s') ∧
    window_ok w' ∧ delivers (so_reader s') ∧ filled' = length (ring_contents w') ∧
    ring_contents w' ++ source_data s' = ring_contents w ++ source_data s ∧
    source_size s' ≤ source_size s ∧ (filled' = block_len ∨ s' = mkSource [] []).
Proof.
  revert filled w s. induction fuel as [|fuel IH]; intros filled w s Hw Hd Hf Hpos Hfuel; [lia|].
  cbn [fill_window]. destruct (window_ok_len w Hw) as [Hlen Hcap].
  destruct (Nat.ltb_spec filled block_len) as [Hlt|Hge].
  - destruct (refill_spec s Hd) as [(s1 & -> & Hne & Hdata & Hd1 & Hsz & Hrd)|[-> Hs]].
    + set (n := length (so_buf s1) `min` (block_len - filled)).
      destruct Hw as [Hwf Hc]. pose proof (ring_extend_spec w (take n (so_buf s1)) _ Hwf eq_refl) as He.
      destruct (ring_extend_from_slice w (take n (so_buf s1))) as [w1 m].
      destruct He as (Hwf1 & Hc1 & He). unfold queue_extend in He. rewrite Hc in He.
      rewrite length_take in He.
      replace (n `min` length (so_buf s1) `min` (block_len - length (ring_contents w))) with n in He by lia.
      rewrite take_take, Nat.min_id in He. injection He as Hcont Hm.
      destruct (IH (filled + n) w1 (mkSource (drop n (so_buf s1)) (so_reader s1)))
        as (f' & w' & s' & Hrun & Hw' & Hd' & Hf' & Hdat & Hsz' & Hend).
      { split; [done|lia]. }
      { done. }
      { rewrite Hcont, length_app, length_take. lia. }
      { specialize (Hfuel Hlt). destruct (decide (so_buf s = [])); lia. }
      { intros Hlt'. specialize (Hfuel Hlt). cbn [so_buf so_reader].
        rewrite decide_True by (apply drop_ge; lia). destruct (decide (so_buf s = [])); lia. }
      exists f', w', s'. split; [exact Hrun|]. split_and!; try done.
      * rewrite Hdat, Hcont, <- app_assoc, <- Hdata. unfold source_data. cbn [so_buf so_reader].
        rewrite (app_assoc (take n _)), take_drop. done.
      * etransitivity; [exact Hsz'|]. etransitivity; [|exact Hsz].
        unfold source_size. cbn [so_buf so_reader]. rewrite length_drop. lia.
    + exists filled, w, s. split_and!; try done. by right.
  - exists filled, w, s. split_and!; try done. left. lia.
Qed.

Lemma drain_window_spec fuel w pending : window_ok w → length (ring_contents w) < fuel →
  ∃ w', drain_window fuel w pending = (w', pending ++ ring_contents w).
Proof.
  revert w pending. induction fuel as [|fuel IH]; intros w pending Hw Hf; [lia|]. cbn [drain_window].
  destruct Hw as [Hwf Hc]. pose proof (ring_pop_spec w _ Hwf eq_refl) as Hp.
  destruct (ring_pop_front w) as [w1 out]. destruct Hp as (Hwf1 & Hc1 & Hp).
  destruct (ring_contents w) as [|x q] eqn:Eq; injection Hp as Hcont ->.
  - exists w1. by rewrite app_nil_r.
  - destruct (IH w1 (pending ++ [x])) as [w' ->].
    { split; [done|lia]. }
    { rewrite Hcont. simpl in Hf. lia. }
    exists w'. by rewrite Hcont, <- app_assoc.
Qed.
End Window.

(** ** The scan invariant *)

Ltac gsimpl :=
  cbn [g_window g_pending g_rolling g_tokens g_total g_literal g_offset g_want g_matched g_index
       g_source flush_pending with_window with_tokens fst snd] in *.

Section ScanProofs.
Context `{HasCpu} `{HashCratesLaws}.
Context (g : DeltaGenerator) (ix : DeltaSignatureIndex) (prune : bool) (input : list byte).
Local Notation bl := (ix_block_length ix).
Local Notation guard := (dg_updating_basis_file g).
Context (Hbl : 0 < bl) (Hmax : (Z.of_nat bl ≤ u32_max)%Z).

Definition run_ok (run : option nat * nat) : Prop :=
  run = (None, 0) ∨ ∃ start n, run = (Some start, S n).

(** [done] is the part of the input the tokens and the open run stand for. *)
Record scan_inv (run : option nat * nat) (done : list byte) (st : gen_state) : Prop := {
  si_run : run_ok run;
  si_denotes : denotes ix guard bl 0 (flush_seq_match_run (g_tokens st) run.1 run.2 bl) done;
  si_total : g_total st = Z.of_nat (length done);
  si_literal : g_literal st = literal_len (g_tokens st);
  si_offset : g_offset st = length done + length (g_pending st);
  si_same : same_index ix (g_index st);
  si_index : index_ok (g_index st);
  si_window : window_ok bl (g_window st);
  si_source : delivers (so_reader (g_source st));
  si_input : done ++ g_pending st ++ ring_contents (g_window st) ++ source_data (g_source st) = input;
  si_rolling : g_rolling st = rolling_of (ring_contents (g_window st)) ∨ g_source st = mkSource [] [];
}.

Lemma literal_len_flush ts start n : literal_len (flush_seq_match_run ts start n bl) = literal_len ts.
Proof.
  unfold flush_seq_match_run. destruct start; [|done]. destruct (0 <? n); [|done].
  rewrite literal_len_app. simpl. lia.
Qed.

(** What a successful probe gives. *)
Definition probe_ok (st : gen_state) (i : nat) : Prop :=
  checksum_match (g_index st) i (ring_contents (g_window st)) ∧
  (guard = true → g_offset st ≤ sb_index (get_block (g_index st) i) * bl).

Lemma filter_offset_Some i0 c cand i : filter_offset g i0 bl c cand = Some i →
  cand = Some i ∧ (guard = true → c ≤ sb_index (get_block i0 i) * bl).
Proof.
  unfold filter_offset, basis_offset_ok. destruct cand as [j|]; [|done].
  destruct guard eqn:E; cbn [negb].
  - destruct (Nat.leb_spec c (sb_index (get_block i0 j) * bl)); [|done]. intros [= ->]. done.
  - intros [= ->]. done.
Qed.

(** Extending or starting a run with a matching window. *)
Lemma run_step ts run d w i :
  run_ok run → denotes ix guard bl 0 (flush_seq_match_run ts run.1 run.2 bl) d →
  block_matches ix i w → length w = bl → (guard = true → length d ≤ i * bl) →
  let '(ts', run') :=
    match run with
    | (Some start_idx, run_len) =>
        if start_idx + run_len =? i then (ts, (Some start_idx, run_len + 1))
        else (flush_seq_match_run ts (Some start_idx) run_len bl, (Some i, 1))
    | (None, run_len) => (ts, (Some i, 1))
    end in
  run_ok run' ∧ denotes ix guard bl 0 (flush_seq_match_run ts' run'.1 run'.2 bl) (d ++ w) ∧
  literal_len ts' = literal_len ts.
Proof.
  intros Hrun Hd Hm Hw Hg.
  assert (Hnew : ∀ ts0, denotes ix guard bl 0 ts0 d →
    denotes ix guard bl 0 (flush_seq_match_run ts0 (Some i) 1 bl) (d ++ w)).
  { intros ts0 Hd0. pose proof (denotes_snoc_copy ix guard bl 0 ts0 d i [w] Hd0) as Hs.
    cbn [concat length] in Hs. rewrite app_nil_r in Hs. apply Hs; [|done|done].
    intros k v Hk. destruct k; [|done]. injection Hk as <-. by rewrite Nat.add_0_r. }
  destruct Hrun as [-> | (s & n & ->)].
  - split_and!; [right; by eexists _, 0|by apply Hnew|done].
  - destruct (Nat.eqb_spec (s + S n) i) as [<-|Hne].
    + cbn [fst snd flush_seq_match_run] in *. split_and!; [right; eexists _, (S n); f_equal; lia| |done].
      apply denotes_copy_inv in Hd as (d0 & segs & -> & Hn & Hd0 & Hs & Hg0).
      apply Nat.mul_cancel_r in Hn; [|lia].
      pose proof (denotes_snoc_copy ix guard bl 0 ts d0 s (segs ++ [w]) Hd0) as Hc.
      rewrite length_app, concat_app in Hc. cbn [concat length] in Hc. rewrite app_nil_r in Hc.
      rewrite <- app_assoc. destruct (Nat.ltb_spec 0 (S n + 1)); [|lia]. rewrite Hn. apply Hc; [|by destruct segs|done].
      intros k v [Hk|[Hk1 Hk2]]%lookup_app_Some; [by apply Hs|].
      destruct (k - length segs) eqn:E; [|done]. injection Hk2 as <-.
      replace k with (S n) by lia. done.
    + split_and!; [right; by eexists _, 0|by apply Hnew|apply literal_len_flush].
Qed.

Lemma block_matches_of st i : same_index ix (g_index st) → checksum_match (g_index st) i (ring_contents (g_window st)) →
  block_matches ix (sb_index (get_block (g_index st) i)) (ring_contents (g_window st)).
Proof.
  intros (_ & E2 & E3 & E4 & _) (b & Hb & Hl & He). rewrite E2, E3 in He. rewrite E4 in Hb.
  exists i, b. unfold get_block. rewrite E4, (nth_lookup_Some _ _ _ _ Hb). done.
Qed.

Lemma accept_match_inv run d st i :
  scan_inv run d st → length (ring_contents (g_window st)) = bl → probe_ok st i →
  let '(st', run') := accept_match bl prune i run st in
  (∃ d', scan_inv run' d' st') ∧ ring_contents (g_window st') = [] ∧
  g_source st' = g_source st ∧ g_rolling st' = rolling_of [].
Proof.
  intros [Hrun Hden Htot Hlit Hoff Hsame Hix Hwin Hsrc Hin Hroll] Hfull [Hm Hg].
  pose proof (block_matches_of st i Hsame Hm) as Hbm.
  unfold accept_match.
  (* the pending bytes are flushed, closing the open run *)
  set (pre := match g_pending st with [] => (st, run) | _ => _ end).
  assert (Hpre : ∃ st1 run1, pre = (st1, run1) ∧ run_ok run1 ∧
    denotes ix guard bl 0 (flush_seq_match_run (g_tokens st1) run1.1 run1.2 bl) (d ++ g_pending st) ∧
    g_literal st1 = literal_len (g_tokens st1) ∧ g_total st1 = Z.of_nat (length (d ++ g_pending st)) ∧
    g_pending st1 = [] ∧ g_window st1 = g_window st ∧ g_index st1 = g_index st ∧
    g_source st1 = g_source st ∧ g_offset st1 = g_offset st).
  { subst pre. destruct (g_pending st) as [|p ps] eqn:Ep.
    - eexists _, _. split; [done|]. rewrite app_nil_r. split_and!; done.
    - eexists _, _. split; [done|]. gsimpl. cbn [flush_seq_match_run].
      rewrite literal_len_app, literal_len_flush, length_app, Htot, Hlit. simpl.
      split_and!; try done; try lia; [by left|]. by apply denotes_literal. }
  destruct Hpre as (st1 & run1 & -> & Hr1 & Hd1 & Hl1 & Ht1 & Hp1 & Hw1 & Hi1 & Hs1 & Ho1).
  rewrite Hi1. set (blk := sb_index (get_block (g_index st) i)) in *.
  pose proof (run_step (g_tokens st1) run1 (d ++ g_pending st) (ring_contents (g_window st)) blk
    Hr1 Hd1 Hbm Hfull) as Hstep.
  rewrite length_app in Hstep. specialize (Hstep ltac:(intros; rewrite <- Hoff; by apply Hg)).
  destruct (match run1 with (Some _, _) => _ | (None, _) => _ end) as [ts' run'].
  destruct Hstep as (Hr' & Hd' & Hl'). gsimpl.
  rewrite Hw1. destruct (window_clear bl Hbl (g_window st) Hwin) as [Hwc Hc].
  split_and!; [|done|done|done]. eexists. split; gsimpl; try done.
  - rewrite Ht1, !length_app. destruct Hm as (b & Hb & Hbl' & _).
    unfold get_block. rewrite (nth_lookup_Some _ _ _ _ Hb). lia.
  - by rewrite Hl1, Hl'.
  - rewrite Ho1, Hp1, Hoff, !length_app, Hfull. simpl. lia.
  - destruct prune; [|done]. destruct Hsame as (?&?&?&?&?). rewrite <- Hi1.
    destruct (mark_consumed_same (g_index st1) (as_u32 i)) as (?&?&?&?&?). rewrite Hi1 in *.
    split_and!; congruence.
  - destruct prune; [by apply mark_consumed_ok|done].
  - by rewrite Hs1.
  - rewrite Hp1, Hc, Hs1. simpl. rewrite <- Hin, <- !app_assoc. done.
  - left. by rewrite Hc.
Qed.

(** Each probe only returns a block whose checksum is the window's. *)
Lemma window_slices w : window_ok bl w →
  let '(a, b) := ring_as_slices w in a ++ b = ring_contents w.
Proof. intros [Hwf _]. by apply ring_slices_spec. Qed.

Lemma probe_window_ok run d st i :
  scan_inv run d st → length (ring_contents (g_window st)) = bl →
  probe_window g bl prune st = Some i → probe_ok st i.
Proof.
  intros Hi Hfull. unfold probe_window. pose proof (window_slices _ (si_window _ _ _ Hi)) as Hs.
  destruct (ring_as_slices (g_window st)) as [a b].
  intros [Hc Hg]%filter_offset_Some. split; [|done]. rewrite <- Hs.
  assert (Hfind : find_match_slices_filtered (g_index st) (rolling_digest (g_rolling st)) a b
    (prune_filter prune st) = Some i → checksum_match (g_index st) i (a ++ b)).
  { rewrite find_slices_eq. intros Hf. by apply find_bytes_sound in Hf as [? _]; [|apply Hi]. }
  destruct (g_want st) as [hint|]; [|by apply Hfind].
  destruct (check_block_match_slices _ _ _ _ _) eqn:Ec; [|by apply Hfind]. injection Hc as ->.
  eapply check_block_sound; [|exact Ec].
  destruct (si_same _ _ _ Hi) as (E1 & _). rewrite Hs, Hfull. done.
Qed.

Lemma probe_adjacent_ok run d st last i :
  scan_inv run d st → probe_adjacent g bl prune last st = Some i → probe_ok st i.
Proof.
  intros Hi. unfold probe_adjacent. pose proof (window_slices _ (si_window _ _ _ Hi)) as Hs.
  destruct (ring_as_slices (g_window st)) as [a b].
  intros [Hc Hg]%filter_offset_Some. split; [|done]. rewrite <- Hs.
  rewrite try_next_slices_eq, find_slices_eq in Hc.
  destruct (try_next_match_bytes _ _ _ _) as [j|] eqn:Et.
  - injection Hc as ->. by apply try_next_sound in Et as [? _]; [|apply Hi].
  - by apply find_bytes_sound in Hc as [? _]; [|apply Hi].
Qed.

Lemma update_slices_of p a b : update_slices (rolling_of p) a b = rolling_of (p ++ a ++ b).
Proof.
  unfold update_slices. destruct b as [|y b].
  - by rewrite rolling_update_of, app_nil_r.
  - by rewrite !rolling_update_of, <- app_assoc.
Qed.

(** Refilling the cleared window after a match. *)
Lemma refill_window run d st :
  scan_inv run d st → ring_contents (g_window st) = [] → g_rolling st = rolling_of [] →
  ∃ filled w s, fill_window (fill_fuel (g_source st)) 0 bl (g_window st) (g_source st) = Ok (filled, w, s) ∧
    source_size s ≤ source_size (g_source st) ∧
    ((filled < bl ∧ scan_inv run d (with_window st w (g_rolling st) s)) ∨
     (filled = bl ∧ length (ring_contents w) = bl ∧
      length (source_data s) < length (source_data (g_source st)) ∧
      let '(s1, s2) := ring_as_slices w in
      scan_inv run d (with_window st w (update_slices (g_rolling st) s1 s2) s))).
Proof.
  intros Hi Hc Hr. destruct Hi as [Hrun Hden Htot Hlit Hoff Hsame Hix Hwin Hsrc Hin Hroll].
  destruct (fill_window_spec bl Hbl (fill_fuel (g_source st)) 0 (g_window st) (g_source st))
    as (filled & w & s & Hrun' & Hw & Hd & Hf & Hdat & Hsz & Hend); [done|done|by rewrite Hc| | |].
  { unfold fill_fuel. lia. }
  { unfold fill_fuel. destruct (decide _); lia. }
  exists filled, w, s. do 2 (split; [done|]). rewrite Hc in *.
  destruct (Nat.eq_dec filled bl) as [Heq|Hne].
  - right. do 2 (split; [lia|]). split.
    { apply (f_equal length) in Hdat. rewrite !length_app in Hdat. simpl in Hdat. lia. }
    pose proof (window_slices w Hw) as Hsl. destruct (ring_as_slices w) as [s1 s2].
    split; gsimpl; try done; [by rewrite Hdat|]. left. by rewrite Hr, update_slices_of, <- Hsl.
  - left. destruct Hend as [|Hs]; [done|]. split; [destruct (window_ok_len bl Hbl w Hw); lia|].
    split; gsimpl; try done; [by rewrite Hdat|by right].
Qed.

(** Closing the open run. *)
Lemma close_run run d st : scan_inv run d st →
  scan_inv (None, 0) d (with_tokens st (flush_seq_match_run (g_tokens st) run.1 run.2 bl)).
Proof.
  intros []. split; gsimpl; try done; [by left|]. by rewrite literal_len_flush.
Qed.

Lemma match_loop_inv fuel : ∀ run d st i,
  scan_inv run d st → length (ring_contents (g_window st)) = bl → probe_ok st i →
  length (source_data (g_source st)) < fuel →
  ∃ st' d', match_loop g bl prune fuel i run st = Ok st' ∧ scan_inv (None, 0) d' st' ∧
    source_size (g_source st') ≤ source_size (g_source st).
Proof.
  induction fuel as [|fuel IH]; intros run d st i Hi Hfull Hp Hfuel; [lia|]. cbn [match_loop].
  pose proof (accept_match_inv run d st i Hi Hfull Hp) as Ha.
  destruct (accept_match bl prune i run st) as [st1 run1].
  destruct Ha as ((d1 & Hi1) & Hc1 & Hs1 & Hr1).
  destruct (refill_window run1 d1 st1 Hi1 Hc1 Hr1) as (filled & w & s & -> & Hsz & Hcase).
  rewrite Hs1 in Hsz, Hcase.
  destruct Hcase as [[Hlt Hi2]|(Heq & Hfull2 & Hdec & Hi2)].
  - rewrite (proj2 (Nat.ltb_lt _ _)) by done. eexists _, d1. split; [done|]. split; [|done].
    by apply close_run in Hi2.
  - rewrite (proj2 (Nat.ltb_ge _ _)) by lia. destruct (ring_as_slices w) as [s1 s2].
    destruct (probe_adjacent _ _ _ _ _) as [next|] eqn:Ep.
    + destruct (IH run1 d1 _ next Hi2 Hfull2) as (st' & d' & Hm & Hi' & Hsz').
      { by eapply probe_adjacent_ok. }
      { gsimpl. lia. }
      exists st', d'. split_and!; [done|done|]. etransitivity; [exact Hsz'|done].
    + eexists _, d1. split; [done|]. split; [|done]. by apply close_run in Hi2.
Qed.

(** Flushing literals keeps the invariant. *)
Lemma flush_pending_inv d st : scan_inv (None, 0) d st →
  scan_inv (None, 0) (d ++ g_pending st) (flush_pending st).
Proof.
  intros []. gsimpl. cbn [flush_seq_match_run] in *. split; gsimpl; try done.
  - by apply denotes_literal.
  - rewrite length_app. lia.
  - rewrite literal_len_app. simpl. lia.
  - rewrite length_app. simpl. lia.
  - by rewrite <- app_assoc.
Qed.

Lemma push_byte_inv d st b s :
  scan_inv (None, 0) d st → g_rolling st = rolling_of (ring_contents (g_window st)) →
  delivers (so_reader s) → b :: source_data s = source_data (g_source st) →
  let '(w, evicted) := ring_push_back (g_window st) b in
  match evicted with
  | Some x =>
      ∃ c, rolling_roll (g_rolling st) x b = Ok c ∧
      scan_inv (None, 0) d
        (mkGen w (g_pending st ++ [x]) c (g_tokens st) (g_total st) (g_literal st)
          (g_offset st + 1) (g_want st) (g_matched st) (g_index st) s)
  | None => scan_inv (None, 0) d (with_window st w (rolling_update_byte (g_rolling st) b) s)
  end.
Proof.
  intros [Hrun Hden Htot Hlit Hoff Hsame Hix Hwin Hsrc Hin Hroll] Hr Hd Hb.
  destruct Hwin as [Hwf Hcap]. pose proof (ring_push_spec (g_window st) b _ Hwf eq_refl) as Hp.
  destruct (ring_push_back (g_window st) b) as [w out]. destruct Hp as (Hwf' & Hcap' & Hp).
  unfold queue_push in Hp. rewrite Hcap in *.
  destruct (Nat.ltb_spec (length (ring_contents (g_window st))) bl) as [Hlt|Hge].
  - injection Hp as Hc ->. split; gsimpl; try done.
    + rewrite Hc, <- app_assoc. cbn [app]. by rewrite Hb.
    + left. rewrite Hr, Hc, rolling_update_byte_spec by apply rolling_of_wf. apply rolling_update_of.
  - destruct (ring_contents (g_window st)) as [|x q] eqn:Eq; [simpl in Hge; lia|].
    injection Hp as Hc ->.
    assert (Hl : length (x :: q) ≤ bl).
    { rewrite <- Eq. apply (window_ok_len bl Hbl (g_window st)). by split. }
    exists (rolling_of (q ++ [b])). split.
    { rewrite Hr. apply roll_of. unfold rollable, ulen. cbn [length] in *. lia. }
    split; gsimpl; try done.
    + rewrite length_app. simpl. lia.
    + rewrite Hc, <- !app_assoc. cbn [app]. by rewrite Hb.
    + left. by rewrite Hc.
Qed.

Lemma take_byte_inv d st b s :
  scan_inv (None, 0) d st → g_rolling st = rolling_of (ring_contents (g_window st)) →
  delivers (so_reader s) → b :: source_data s = source_data (g_source st) →
  ∃ st' d', take_byte bl b s st = Ok st' ∧ scan_inv (None, 0) d' st' ∧ g_source st' = s.
Proof.
  intros Hi Hr Hd Hb. pose proof (push_byte_inv d st b s Hi Hr Hd Hb) as Hp. unfold take_byte.
  destruct (ring_push_back (g_window st) b) as [w [x|]].
  - destruct Hp as (c & -> & Hi'). destruct (_ <=? _).
    + eexists _, _. split; [done|]. split; [by apply flush_pending_inv|done].
    + eexists _, d. by split_and!.
  - eexists _, d. by split_and!.
Qed.

Lemma source_step s s' b buf :
  so_buf s' = b :: buf → source_data s' = source_data s → source_size s' ≤ source_size s →
  b :: source_data (mkSource buf (so_reader s')) = source_data s ∧
  source_size (mkSource buf (so_reader s')) < source_size s.
Proof.
  intros Hb Hd Hs. split.
  - rewrite <- Hd. unfold source_data. by rewrite Hb.
  - unfold source_size in *. rewrite Hb in Hs. cbn [so_buf so_reader length] in *. lia.
Qed.

(** The invariant at the end of the source. *)
Definition scanned (d : list byte) (st : gen_state) : Prop :=
  scan_inv (None, 0) d st ∧ g_source st = mkSource [] [].

Lemma rolling_live d st s' : scan_inv (None, 0) d st → so_buf s' ≠ [] →
  source_data s' = source_data (g_source st) → g_rolling st = rolling_of (ring_contents (g_window st)).
Proof.
  intros Hi Hne Hd. destruct (si_rolling _ _ _ Hi) as [|Hs]; [done|].
  rewrite Hs in Hd. unfold source_data in Hd. cbn in Hd. by apply app_eq_nil in Hd as [? _].
Qed.

Lemma scan_loop_inv fuel : ∀ d st,
  scan_inv (None, 0) d st → source_size (g_source st) < fuel →
  ∃ st' d', scan_loop g bl prune fuel st = Ok st' ∧ scanned d' st'.
Proof.
  induction fuel as [|fuel IH]; intros d st Hi Hf; [lia|]. cbn [scan_loop].
  destruct (refill_spec _ (si_source _ _ _ Hi)) as [(s1 & -> & Hne & Hdat & Hd1 & Hsz & _)|[-> Hs]].
  2:{ eexists _, d. split; [done|]. destruct Hi. split; [|done]. split; gsimpl; try done. }
  destruct (so_buf s1) as [|b buf] eqn:Eb; [done|].
  destruct (source_step _ _ _ _ Eb Hdat Hsz) as [Hb Hlt].
  destruct (take_byte_inv d st b (mkSource buf (so_reader s1)) Hi) as (st2 & d2 & -> & Hi2 & Hs2);
    [eapply rolling_live; [done| |done]; congruence|done|done|].
  rewrite (window_is_full bl Hbl) by apply Hi2. case_bool_decide as Hfull; cbn [negb].
  - destruct (probe_window g bl prune st2) as [i|] eqn:Ep; [|apply (IH d2 st2 Hi2); rewrite Hs2; lia].
    destruct (match_loop_inv (S (source_size (g_source st2))) (None, 0) d2 st2 i Hi2 Hfull)
      as (st3 & d3 & -> & Hi3 & Hs3).
    { by eapply probe_window_ok. }
    { pose proof (source_size_data (g_source st2)). lia. }
    apply (IH d3 st3 Hi3). rewrite Hs2 in Hs3. lia.
  - apply (IH d2 st2 Hi2). rewrite Hs2. lia.
Qed.

(** The rest of the window and the literals are flushed at the end. *)
Lemma finish_scan_inv d st : scanned d st →
  let st' := finish_scan st in
  denotes ix guard bl 0 (g_tokens st') input ∧ g_total st' = Z.of_nat (length input) ∧
  g_literal st' = literal_len (g_tokens st') ∧ same_index ix (g_index st') ∧ index_ok (g_index st').
Proof.
  intros [[Hrun Hden Htot Hlit Hoff Hsame Hix Hwin Hsrc Hin Hroll] Hs]. unfold finish_scan.
  destruct (window_ok_len bl Hbl _ Hwin) as [Hl _].
  destruct (drain_window_spec bl Hbl (S (rb_len (g_window st))) (g_window st) (g_pending st) Hwin)
    as [w' ->]; [lia|].
  rewrite Hs in Hin. unfold source_data in Hin. cbn in Hin. rewrite app_nil_r in Hin.
  gsimpl. cbn [flush_seq_match_run] in *. destruct (g_pending st ++ ring_contents (g_window st)) eqn:Ep.
  - rewrite app_nil_r in Hin. subst d. done.
  - gsimpl. rewrite <- Hin, literal_len_app, length_app. simpl literal_len.
    split_and!; [by apply denotes_literal|lia|cbn [length]; lia|done|done].
Qed.

(** *** The gated scan *)

Definition commit_run (run : list nat) (st : gen_state) : gen_state :=
  mkGen (g_window st) (g_pending st) (g_rolling st) (g_tokens st ++ map (λ i, Copy i bl) run)
    (g_total st + Z.of_nat (length run) * Z.of_nat bl) (g_literal st) (g_offset st) (g_want st)
    (g_matched st) (g_index st) (g_source st).

(** A matched window becomes a copy. *)
Lemma accept_copy d st i mt :
  scan_inv (None, 0) d st → g_pending st = [] → length (ring_contents (g_window st)) = bl →
  probe_ok st i →
  scan_inv (None, 0) (d ++ ring_contents (g_window st))
    (mkGen (ring_clear (g_window st)) (g_pending st) (rolling_reset (g_rolling st))
       (g_tokens st ++ [Copy (sb_index (get_block (g_index st) i)) bl])
       (g_total st + Z.of_nat bl) (g_literal st) (g_offset st + bl) (g_want st) mt
       (mark_consumed (g_index st) (as_u32 i)) (g_source st)).
Proof.
  intros [Hrun Hden Htot Hlit Hoff Hsame Hix Hwin Hsrc Hin Hroll] Hp Hfull [Hm Hg].
  pose proof (block_matches_of st i Hsame Hm) as Hbm. destruct (window_clear bl Hbl _ Hwin) as [Hwc Hc].
  gsimpl. cbn [flush_seq_match_run] in *.
  split; gsimpl; cbn [flush_seq_match_run]; try done.
  - pose proof (denotes_snoc_copy ix guard bl 0 (g_tokens st) d
      (sb_index (get_block (g_index st) i)) [ring_contents (g_window st)] Hden) as Hs.
    cbn [concat length] in Hs. rewrite app_nil_r, Nat.mul_1_l in Hs. apply Hs.
    + intros k v Hk. destruct k; [|done]. injection Hk as <-. by rewrite Nat.add_0_r.
    + done.
    + intros E. specialize (Hg E). rewrite Hoff, Hp in Hg. simpl in *. lia.
  - rewrite length_app. lia.
  - rewrite literal_len_app. simpl. lia.
  - rewrite length_app, Hoff, Hp. simpl. lia.
  - destruct (mark_consumed_same (g_index st) (as_u32 i)) as (?&?&?&?&?). destruct Hsame as (?&?&?&?&?).
    split_and!; congruence.
  - by apply mark_consumed_ok.
  - rewrite Hc, <- Hin, Hp, <- app_assoc. done.
  - left. by rewrite Hc.
Qed.

Lemma gated_probe_ok d st i : scan_inv (None, 0) d st → gated_probe g bl st = Some i → probe_ok st i.
Proof.
  intros Hi. unfold gated_probe. pose proof (window_slices _ (si_window _ _ _ Hi)) as Hs.
  destruct (ring_as_slices (g_window st)) as [a b].
  intros [Hc Hg]%filter_offset_Some. split; [|done]. rewrite <- Hs.
  rewrite find_slices_eq in Hc. by apply find_bytes_sound in Hc as [? _]; [|apply Hi].
Qed.

(** The run collected so far: committed as copies it extends the scan, and a run
    of one block has its source bytes in [lone]. *)
Definition gated_inv (d : list byte) (run : list nat) (lone : list byte) (st : gen_state) : Prop :=
  g_pending st = [] ∧ scan_inv (None, 0) d (commit_run run st) ∧
  (run = [] → lone = []) ∧
  (length run = 1 → ∃ d0, d = d0 ++ lone ∧ length lone = bl ∧ denotes ix guard bl 0 (g_tokens st) d0).

Lemma gated_match_loop_inv fuel : ∀ d run lone st i,
  gated_inv d run lone st → length (ring_contents (g_window st)) = bl → probe_ok st i →
  length (source_data (g_source st)) < fuel →
  ∃ st' run' lone' d', gated_match_loop g fuel bl i run lone st = Ok (st', run', lone') ∧
    gated_inv d' run' lone' st' ∧ run' ≠ [] ∧ source_size (g_source st') ≤ source_size (g_source st).
Proof.
  induction fuel as [|fuel IH]; intros d run lone st i (Hp & Hi & Hnil & Hone) Hfull Hpr Hfuel; [lia|].
  cbn [gated_match_loop].
  pose proof (window_slices _ (si_window _ _ _ Hi)) as Hsl. unfold commit_run in Hsl. gsimpl.
  set (lone1 := match run with [] => _ | _ => lone end).
  set (st1 := mkGen (ring_clear _) _ _ _ _ _ _ _ _ _ _).
  set (run1 := run ++ [sb_index (get_block (g_index st) i)]).
  assert (Hg1 : gated_inv (d ++ ring_contents (g_window st)) run1 lone1 st1).
  { split; [done|]. split; [|split].
    - pose proof (accept_copy d (commit_run run st) i (mark_matched (g_matched st) i) Hi Hp Hfull Hpr) as Ha.
      unfold commit_run in Ha |- *. gsimpl. subst run1. rewrite map_app, length_app, app_assoc.
      cbn [map length]. replace (Z.of_nat (length run + 1) * Z.of_nat bl)%Z
        with (Z.of_nat (length run) * Z.of_nat bl + Z.of_nat bl)%Z by lia. rewrite Z.add_assoc. done.
    - subst run1. by destruct run.
    - subst run1 lone1 st1. rewrite length_app. cbn [length]. intros Hl.
      destruct run as [|? ?]; [|simpl in Hl; lia]. rewrite (Hnil eq_refl).
      destruct (ring_as_slices (g_window st)) as [a b]. exists d. cbn [app]. rewrite Hsl. gsimpl.
      split_and!; [done|done|]. destruct Hi as [_ Hd _ _ _ _ _ _ _ _ _]. unfold commit_run in Hd. gsimpl.
      cbn [map flush_seq_match_run] in Hd. by rewrite app_nil_r in Hd. }
  assert (Hc1 : ring_contents (g_window (commit_run run1 st1)) = []).
  { apply (window_clear bl Hbl). apply Hi. }
  destruct Hg1 as (Hp1 & Hi1 & Hn1 & Ho1).
  destruct (refill_window (None, 0) _ _ Hi1 Hc1 eq_refl) as (filled & w & s & Hfill & Hsz & Hcase).
  unfold commit_run in Hfill, Hsz, Hcase. gsimpl.
  change (fill_window _ 0 bl _ _)
    with (fill_window (fill_fuel (g_source st1)) 0 bl (g_window st1) (g_source st1)) in Hfill |- *.
  rewrite Hfill.
  destruct Hcase as [[Hlt Hi2]|(Heq & Hfull2 & Hdec & Hi2)].
  - rewrite (proj2 (Nat.ltb_lt _ _)) by done. eexists _, run1, lone1, _. split; [done|].
    unfold gated_inv. split_and!; [done|exact Hi2|done|done|by destruct run|done].
  - rewrite (proj2 (Nat.ltb_ge _ _)) by lia. destruct (ring_as_slices w) as [s1 s2].
    destruct (gated_probe g bl _) as [next|] eqn:Ep.
    + destruct (IH (d ++ ring_contents (g_window st)) run1 lone1
        (with_window st1 w (update_slices (g_rolling st1) s1 s2) s) next)
        as (st' & run' & lone' & d' & Hm & Hg' & Hne & Hsz').
      { unfold gated_inv. split_and!; [done|exact Hi2|done|done]. }
      { done. }
      { by apply (gated_probe_ok _ _ _ Hi2). }
      { change (g_source st1) with (g_source st) in Hdec. gsimpl. lia. }
      exists st', run', lone', d'. split_and!; [done|done|done|]. etransitivity; [exact Hsz'|done].
    + eexists _, run1, lone1, _. split; [done|].
      unfold gated_inv. split_and!; [done|exact Hi2|done|done|by destruct run|done].
Qed.

Lemma flush_gated_run_inv d run lone st : gated_inv d run lone st → run ≠ [] →
  scan_inv (None, 0) d (flush_gated_run bl run lone st).
Proof.
  intros (Hp & Hi & _ & Hone) Hne. unfold flush_gated_run.
  destruct (Nat.leb_spec 2 (length run)) as [Hle|Hlt]; [exact Hi|].
  destruct run as [|i [|j run]]; [done| |simpl in Hlt; lia].
  destruct (Hone eq_refl) as (d0 & -> & Hl & Hd0).
  destruct Hi as [Hrun Hden Htot Hlit Hoff Hsame Hix Hwin Hsrc Hin Hroll]. unfold commit_run in *. gsimpl.
  rewrite length_app in *. cbn [length] in *. rewrite literal_len_app in Hlit. simpl literal_len in Hlit.
  split; gsimpl; try done; [by apply denotes_literal| | |by rewrite length_app].
  - rewrite length_app. lia.
  - rewrite literal_len_app. cbn [literal_len]. lia.
Qed.

Lemma gated_take_byte_inv d st b s :
  scan_inv (None, 0) d st → g_rolling st = rolling_of (ring_contents (g_window st)) →
  delivers (so_reader s) → b :: source_data s = source_data (g_source st) →
  ∃ st', gated_take_byte b s st = Ok st' ∧ scan_inv (None, 0) d st' ∧ g_source st' = s.
Proof.
  intros Hi Hr Hd Hb. pose proof (push_byte_inv d st b s Hi Hr Hd Hb) as Hp. unfold gated_take_byte.
  destruct (ring_push_back (g_window st) b) as [w [x|]].
  - destruct Hp as (c & -> & Hi'). eexists. by split_and!.
  - eexists. by split_and!.
Qed.

Lemma flush_if_pending_inv d st : scan_inv (None, 0) d st →
  ∃ d', scan_inv (None, 0) d' (flush_if_pending st) ∧ g_pending (flush_if_pending st) = [] ∧
    g_source (flush_if_pending st) = g_source st ∧ g_window (flush_if_pending st) = g_window st ∧
    ∀ i, probe_ok st i → probe_ok (flush_if_pending st) i.
Proof.
  intros Hi. unfold flush_if_pending. destruct (g_pending st) as [|p ps] eqn:Ep.
  - exists d. by split_and!.
  - eexists. split; [by apply flush_pending_inv|]. by split_and!.
Qed.

Lemma commit_nil st : commit_run [] st = st.
Proof.
  destruct st. unfold commit_run. gsimpl. cbn [map length]. by rewrite app_nil_r, Z.add_0_r.
Qed.

Lemma gated_loop_inv fuel : ∀ d st,
  scan_inv (None, 0) d st → source_size (g_source st) < fuel →
  ∃ st' d', gated_loop g fuel bl st = Ok st' ∧ scanned d' st'.
Proof.
  induction fuel as [|fuel IH]; intros d st Hi Hf; [lia|]. cbn [gated_loop].
  destruct (refill_spec _ (si_source _ _ _ Hi)) as [(s1 & -> & Hne & Hdat & Hd1 & Hsz & _)|[-> Hs]].
  2:{ eexists _, d. split; [done|]. destruct Hi. split; [|done]. split; gsimpl; try done. }
  destruct (so_buf s1) as [|b buf] eqn:Eb; [done|].
  destruct (source_step _ _ _ _ Eb Hdat Hsz) as [Hb Hlt].
  destruct (gated_take_byte_inv d st b (mkSource buf (so_reader s1)) Hi) as (st2 & -> & Hi2 & Hs2);
    [eapply rolling_live; [done| |done]; congruence|done|done|].
  rewrite (window_is_full bl Hbl) by apply Hi2. case_bool_decide as Hfull; cbn [negb].
  2:{ apply (IH d st2 Hi2). rewrite Hs2. lia. }
  destruct (gated_probe g bl st2) as [i|] eqn:Ep; [|apply (IH d st2 Hi2); rewrite Hs2; lia].
  pose proof (gated_probe_ok _ _ _ Hi2 Ep) as Hpr.
  destruct (flush_if_pending_inv d st2 Hi2) as (d3 & Hi3 & Hp3 & Hs3 & Hw3 & Hpr3).
  destruct (gated_match_loop_inv (S (source_size (g_source (flush_if_pending st2)))) d3 [] []
    (flush_if_pending st2) i) as (st4 & run & lone & d4 & -> & Hg4 & Hne4 & Hs4).
  { unfold gated_inv. rewrite commit_nil. split_and!; [done|done|done|done]. }
  { by rewrite Hw3. }
  { by apply Hpr3. }
  { pose proof (source_size_data (g_source (flush_if_pending st2))). lia. }
  apply (IH d4); [by apply flush_gated_run_inv|]. rewrite Hs3, Hs2 in Hs4.
  assert (g_source (flush_gated_run bl run lone st4) = g_source st4) as ->; [|lia].
  unfold flush_gated_run. destruct (_ <=? _); [done|]. by destruct run.
Qed.
End ScanProofs.

(** ** The generators *)

(** A script that stands for [input], with its byte counts. *)
Definition scripts `{HashCrates} (ix : DeltaSignatureIndex) (guard : bool) (input : list byte)
    (script : DeltaScript) : Prop :=
  denotes ix guard (ix_block_length ix) 0 (ds_tokens script) input ∧
  ds_total_bytes script = Z.of_nat (length input) ∧
  ds_literal_bytes script = literal_len (ds_tokens script).

Section GenerateProofs.
Context `{HasCpu} `{HashCratesLaws}.
Context (g : DeltaGenerator) (ix : DeltaSignatureIndex) (Hok : index_ok ix).
Context (Hbl : 0 < ix_block_length ix) (Hmax : (Z.of_nat (ix_block_length ix) ≤ u32_max)%Z).

Lemma reset_consumed_ok : index_ok (with_consumed ix (reset_consumed (ix_consumed ix))).
Proof.
  destruct Hok. split; try done. cbn [ix_consumed with_consumed ix_blocks].
  unfold reset_consumed. by rewrite length_map.
Qed.

Lemma initial_inv reader ix0 want mb : delivers reader → same_index ix ix0 → index_ok ix0 →
  scan_inv g ix (reader_bytes reader) (None, 0) []
    (mkGen (ring_with_capacity (ix_block_length ix)) [] rolling_new [] 0 0 0 want mb ix0
       (mkSource [] reader)).
Proof.
  intros Hd Hs Hi. destruct (ring_with_capacity_spec (ix_block_length ix) Hbl) as [Hwf Hc].
  split; gsimpl; try done; [by left|constructor| |left; by rewrite Hc].
  split; [done|]. unfold ring_capacity. simpl. apply length_replicate.
Qed.

Lemma generate_with_prune_spec reader prune : delivers reader →
  ∃ script ix', generate_with_prune g reader ix prune = Ok (script, ix') ∧
    scripts ix (dg_updating_basis_file g) (reader_bytes reader) script ∧
    same_index ix ix' ∧ index_ok ix'.
Proof.
  intros Hd. unfold generate_with_prune.
  set (ix0 := if prune then _ else _). set (st := mkGen _ _ _ _ _ _ _ _ _ _ _).
  assert (Hi : scan_inv g ix (reader_bytes reader) (None, 0) [] st).
  { apply initial_inv; [done|by destruct prune|]. subst ix0. destruct prune; [apply reset_consumed_ok|done]. }
  destruct (scan_loop_inv g ix prune _ Hbl Hmax (S (source_size (mkSource [] reader))) [] st Hi)
    as (st' & d' & -> & Hsc); [simpl; lia|].
  destruct (finish_scan_inv g ix _ Hbl d' st' Hsc) as (H1' & H2 & H3 & H4 & H5).
  eexists _, _. split; [done|]. by split_and!.
Qed.

Lemma generate_gated_spec reader : delivers reader →
  ∃ script ix', generate_gated g reader ix = Ok (script, ix') ∧
    scripts ix (dg_updating_basis_file g) (reader_bytes reader) script ∧
    same_index ix ix' ∧ index_ok ix'.
Proof.
  intros Hd. unfold generate_gated. set (st := mkGen _ _ _ _ _ _ _ _ _ _ _).
  assert (Hi : scan_inv g ix (reader_bytes reader) (None, 0) [] st).
  { apply initial_inv; [done|done|apply reset_consumed_ok]. }
  destruct (gated_loop_inv g ix _ Hbl Hmax (S (source_size (mkSource [] reader))) [] st Hi)
    as (st' & d' & -> & Hsc); [simpl; lia|].
  destruct (finish_scan_inv g ix _ Hbl d' st' Hsc) as (H1' & H2 & H3 & H4 & H5).
  eexists _, _. split; [done|]. by split_and!.
Qed.

Lemma delta_generate_spec reader : delivers reader →
  ∃ script ix', generate g reader ix = Ok (script, ix') ∧
    scripts ix (dg_updating_basis_file g) (reader_bytes reader) script ∧
    same_index ix ix' ∧ index_ok ix'.
Proof.
  intros Hd. unfold generate. destruct (_ <=? _); [by apply generate_gated_spec|].
  by apply generate_with_prune_spec.
Qed.
End GenerateProofs.

(** ** From the basis file to the reconstructed file *)

Section EndToEnd.
Context `{HasCpu} `{HashCratesLaws}.
Context (basis : list byte) (layout : SignatureLayout) (algorithm : SignatureAlgorithm).
Context (signature : FileSignature) (ix : DeltaSignatureIndex).
Context (Hlayout : layout_of layout (Z.of_nat (length basis))).
Context (Hsize : (Z.of_nat (length basis) ≤ u64_max)%Z).
Context (Hsig : generate_file_signature basis layout algorithm = Ok signature).
Context (Hix : index_from_signature signature algorithm = Some ix).

Lemma signature_of_basis : signature = mkSignature layout
  (map (layout_block layout algorithm basis) (seq 0 (Z.to_nat (sl_block_count layout))))
  (Z.of_nat (length basis)).
Proof.
  assert (Hs : (sl_strong_sum_length layout ≤ Z.of_nat (digest_len algorithm))%Z).
  { unfold generate_file_signature in Hsig.
    destruct (Nat.ltb_spec (digest_len algorithm) (Z.to_nat (sl_strong_sum_length layout))); [done|].
    destruct Hlayout. lia. }
  rewrite (Signature.generate_spec layout (length basis) Hlayout Hsize basis algorithm Hs) in Hsig.
  rewrite decide_True in Hsig by done. by injection Hsig.
Qed.

Lemma layout_block_len i : block_len (layout_block layout algorithm basis i)
  = Z.of_nat (length (layout_chunk layout basis i)).
Proof.
  unfold block_len, layout_block, digest_from_bytes. cbn [sb_rolling].
  rewrite rolling_new_of, rolling_update_of. cbn [app rolling_of rolling_digest rd_len rc_len].
  assert (Hl : (Z.of_nat (length (layout_chunk layout basis i)) ≤ Z.of_nat (length basis))%Z).
  { unfold layout_chunk. rewrite length_take, length_drop. lia. }
  unfold ulen. unfold usize_max, u64_max in *. lia.
Qed.

Lemma end_to_end_index : index_ok ix ∧ index_of_basis ix basis ∧
  ix_block_length ix = Z.to_nat (sl_block_length layout) ∧
  0 < ix_block_length ix ∧ (Z.of_nat (ix_block_length ix) ≤ u32_max)%Z.
Proof.
  destruct (index_from_signature_parts _ _ _ Hix) as (Hb & Hs & Ha & Hbl & _).
  rewrite signature_of_basis in *. cbn [fs_layout fs_blocks] in *.
  split_and!.
  - eapply index_from_signature_ok; [|exact Hix]. split; cbn [fs_blocks].
    + rewrite length_map, length_seq. destruct Hlayout. unfold u32_max, i32_max in *. lia.
    + intros b Hb'. apply list_elem_of_fmap in Hb' as (i & -> & _). cbn [layout_block sb_rolling].
      unfold digest_from_bytes. rewrite rolling_new_of, rolling_update_of.
      cbn [rolling_digest rd_s1]. apply wrap_range. lia.
  - intros p b Hp. rewrite Hbl, list_lookup_fmap in Hp.
    destruct (seq _ _ !! p) as [q|] eqn:Eq; [|done]. injection Hp as <-.
    apply lookup_seq in Eq as [-> _]. cbn [Nat.add]. rewrite layout_block_len.
    unfold layout_block, basis_chunk. cbn [sb_index sb_strong]. unfold layout_chunk.
    rewrite Hb, Hs, Ha. done.
  - done.
  - destruct Hlayout. lia.
  - destruct Hlayout. unfold u32_max. lia.
Qed.

(** Any script that stands for [input] rebuilds it. *)
Lemma scripts_apply guard input script cursor : scripts ix guard input script →
  apply_delta basis cursor (ix_block_length ix) script = (input, Ok tt) ∨ collision ix basis input.
Proof.
  intros (Hd & _ & _). destruct end_to_end_index as (Hok & Hb & _).
  destruct (denotes_reconstructs ix basis Hb _ _ _ _ Hd) as [Hs|Hc]; [left|by right].
  apply apply_delta_ok; [done| |done]. by eapply denotes_offsets_fit.
Qed.
End EndToEnd.

(** C9: the whole delta pipeline is correct. Take any basis file, a layout that
    describes it, its signature, the index built from the signature, and any
    generator options. Whatever chunks the new file is read in, generation
    succeeds, and applying the script to the basis reproduces the new file
    byte for byte, unless a window of the new file differs from a basis block
    of the same length that has the same truncated strong checksum. *)
Theorem delta_roundtrip `{HasCpu} `{HashCratesLaws} (g : DeltaGenerator) (basis : list byte)
    (layout : SignatureLayout) (algorithm : SignatureAlgorithm) (signature : FileSignature)
    (ix : DeltaSignatureIndex) (reader : list read_event) (cursor : nat) :
  layout_of layout (Z.of_nat (length basis)) → (Z.of_nat (length basis) ≤ u64_max)%Z →
  generate_file_signature basis layout algorithm = Ok signature →
  index_from_signature signature algorithm = Some ix → delivers reader →
  ∃ script ix', generate g reader ix = Ok (script, ix') ∧
    (apply_delta basis cursor (ix_block_length ix) script = (reader_bytes reader, Ok tt) ∨
     collision ix basis (reader_bytes reader)).
Proof.
  intros Hl Hs Hsig Hix Hd.
  destruct (end_to_end_index basis layout algorithm signature ix Hl Hs Hsig Hix) as (Hok & _ & _ & H0' & H1').
  destruct (delta_generate_spec g ix Hok H0' H1' reader Hd) as (script & ix' & Hg & Hsc & _).
  exists script, ix'. split; [done|]. by eapply scripts_apply.
Qed.

Definition demo_basis : list byte := [x61; x62; x63; x64; x65].
Definition demo_layout : SignatureLayout := mkLayout 2 1 3 2.
Definition demo_reader : list read_event := [RData [x7a; x63]; RData [x64; x61; x62; x63; x64]].

Lemma demo_layout_of : layout_of demo_layout (Z.of_nat (length demo_basis)).
Proof. split; simpl; unfold i32_max; try lia; reflexivity. Qed.

Lemma demo_delivers : delivers demo_reader.
Proof. repeat constructor; eauto. Qed.

Definition demo_signature_of_basis : FileSignature :=
  mkSignature demo_layout (map (@layout_block OtherArch toy_crates demo_layout Md4 demo_basis) (seq 0 3)) 5.

Lemma demo_generated :
  @generate_file_signature OtherArch toy_crates demo_basis demo_layout Md4 = Ok demo_signature_of_basis.
Proof. vm_compute. reflexivity. Qed.

Lemma demo_indexed : ∃ ix, index_from_signature demo_signature_of_basis Md4 = Some ix.
Proof.
  destruct (index_from_signature demo_signature_of_basis Md4) as [ix|] eqn:E; [by exists ix|].
  apply index_from_signature_None in E. vm_compute in E. congruence.
Qed.

Lemma delta_roundtrip_witness :
  ∃ ix script ix', index_from_signature demo_signature_of_basis Md4 = Some ix ∧
    @generate OtherArch toy_crates generator_new demo_reader ix = Ok (script, ix') ∧
    (apply_delta demo_basis 0 (ix_block_length ix) script = (reader_bytes demo_reader, Ok tt) ∨
     @collision toy_crates ix demo_basis (reader_bytes demo_reader)).
Proof.
  destruct demo_indexed as [ix Hix].
  destruct (@delta_roundtrip OtherArch toy_crates toy_crates_ok generator_new demo_basis demo_layout Md4
    demo_signature_of_basis ix demo_reader 0 demo_layout_of ltac:(vm_compute; discriminate) demo_generated
    Hix demo_delivers) as (script & ix' & Hg & Hr).
  exists ix, script, ix'. split; [exact Hix|]. split; [exact Hg|exact Hr].
Defined.

(** ** Byte counts *)

Definition tokens_len (ts : list DeltaToken) : Z :=
  foldr (λ t acc, Z.of_nat (token_byte_len t) + acc)%Z 0%Z ts.

Lemma denotes_len `{HashCrates} ix guard bl off ts src :
  denotes ix guard bl off ts src → tokens_len ts = Z.of_nat (length src).
Proof.
  induction 1 as [off|off bs ts src Hd IH|off i segs ts src Hs Hne Hg Hd IH]; [done|..];
    cbn [tokens_len foldr token_byte_len]; fold (tokens_len ts); rewrite IH, length_app.
  - lia.
  - rewrite (concat_segs_length ix bl i segs Hs). lia.
Qed.

Lemma denotes_copies `{HashCrates} ix guard bl off ts src i len :
  denotes ix guard bl off ts src → Copy i len ∈ ts → 0 < bl → 0 < len ∧ len mod bl = 0.
Proof.
  intros Hd Hin Hbl. induction Hd as [off|off bs ts src Hd IH|off j segs ts src Hs Hne Hg Hd IH]; [set_solver|..];
    apply elem_of_cons in Hin as [Heq|Hin]; try done; try by apply IH.
  injection Heq as -> ->. rewrite Nat.Div0.mod_mul. split; [|done]. destruct segs; [done|simpl; lia].
Qed.

(** generation accounts for every byte. It succeeds whatever the options; the
    script's total is the length of the input and the sum of its tokens, its
    literal count is what its literal tokens carry, every copy is a positive
    number of whole blocks, and the index it leaves is good for the next scan. *)
Theorem generate_accounts `{HasCpu} `{HashCratesLaws} (g : DeltaGenerator) (ix : DeltaSignatureIndex)
    (reader : list read_event) :
  index_ok ix → 0 < ix_block_length ix → (Z.of_nat (ix_block_length ix) ≤ u32_max)%Z → delivers reader →
  ∃ script ix', generate g reader ix = Ok (script, ix') ∧
    ds_total_bytes script = Z.of_nat (length (reader_bytes reader)) ∧
    ds_total_bytes script = tokens_len (ds_tokens script) ∧
    ds_literal_bytes script = literal_len (ds_tokens script) ∧
    (∀ i len, Copy i len ∈ ds_tokens script → 0 < len ∧ len mod ix_block_length ix = 0) ∧
    same_index ix ix' ∧ index_ok ix'.
Proof.
  intros Hok H0' H1' Hd.
  destruct (delta_generate_spec g ix Hok H0' H1' reader Hd) as (script & ix' & Hg & (Hden & Ht & Hl) & Hs & Hi).
  exists script, ix'. do 2 (split; [done|]). rewrite Ht. split; [symmetry; by eapply denotes_len|].
  do 2 (split; [done||eauto using denotes_copies|]). done.
Qed.

Lemma generate_accounts_witness :
  ∃ ix script ix', index_from_signature demo_signature Md4 = Some ix ∧
    @generate OtherArch toy_crates generator_new demo_reader ix = Ok (script, ix') ∧
    ds_total_bytes script = 7%Z.
Proof.
  destruct (index_from_signature demo_signature Md4) as [ix|] eqn:E.
  - pose proof (index_from_signature_ok _ _ _ demo_signature_wf E) as Hok.
    destruct (index_from_signature_parts _ _ _ E) as (Hb & _).
    destruct (@generate_accounts OtherArch toy_crates toy_crates_ok generator_new ix demo_reader Hok
      ltac:(rewrite Hb; vm_compute; lia) ltac:(rewrite Hb; vm_compute; discriminate) demo_delivers)
      as (script & ix' & Hg & Ht & _).
    exists ix, script, ix'. split; [reflexivity|]. split; [exact Hg|exact Ht].
  - apply index_from_signature_None in E. vm_compute in E. congruence.
Defined.

(** ** Updating the basis in place *)

(** Writing [bs] at offset [off] of the file. *)
Definition write_at (file : list byte) (off : nat) (bs : list byte) : list byte :=
  take off file ++ bs ++ drop (off + length bs) file.

(** Copying [len] bytes forward in pieces of [step]: each piece is read from the
    file as it is at that moment. *)
Fixpoint inplace_copy (fuel step src dst len : nat) (file : list byte) : list byte :=
  match fuel with
  | O => file
  | S fuel' =>
      let n := step `min` len in
      inplace_copy fuel' step (src + n) (dst + n) (len - n) (write_at file dst (take n (drop src file)))
  end.

(** Executing a script on the file it was generated against. *)
Fixpoint inplace_tokens (block_len step off : nat) (file : list byte) (ts : list DeltaToken) : list byte :=
  match ts with
  | [] => file
  | Literal bs :: ts' => inplace_tokens block_len step (off + length bs) (write_at file off bs) ts'
  | Copy i len :: ts' =>
      inplace_tokens block_len step (off + len) (inplace_copy len step (i * block_len) off len file) ts'
  end.

Lemma write_over d basis bs :
  write_at (d ++ drop (length d) basis) (length d) bs = d ++ bs ++ drop (length d + length bs) basis.
Proof. unfold write_at. by rewrite take_app_length, drop_app_add, drop_drop. Qed.

Lemma inplace_copy_ok basis step fuel : 0 < step → ∀ src len d,
  len ≤ fuel → length d ≤ src → src + len ≤ length basis →
  inplace_copy fuel step src (length d) len (d ++ drop (length d) basis)
  = d ++ take len (drop src basis) ++ drop (length d + len) basis.
Proof.
  intros Hst. induction fuel as [|fuel IH]; intros src len d Hf Hle Hfit.
  - assert (len = 0) as -> by lia. by rewrite take_0, Nat.add_0_r.
  - cbn [inplace_copy]. set (n := step `min` len).
    assert (Hrd : take n (drop src (d ++ drop (length d) basis)) = take n (drop src basis)).
    { rewrite drop_app_ge, drop_drop by done. do 2 f_equal. lia. }
    assert (Hn : length (take n (drop src basis)) = n) by (rewrite length_take, length_drop; lia).
    rewrite Hrd, write_over, Hn, app_assoc.
    replace (length d + n) with (length (d ++ take n (drop src basis))) by (rewrite length_app; lia).
    rewrite IH; rewrite ?length_app, ?Hn; [|lia..].
    rewrite <- !app_assoc. f_equal. rewrite app_assoc, <- drop_drop, take_take_drop.
    do 2 f_equal; lia.
Qed.

Lemma inplace_tokens_ok `{HashCrates} ix basis step off ts src :
  0 < step → denotes ix true (ix_block_length ix) off ts src →
  script_bytes basis (ix_block_length ix) ts = Some src → ∀ d, length d = off →
  inplace_tokens (ix_block_length ix) step off (d ++ drop off basis) ts
  = d ++ src ++ drop (off + length src) basis.
Proof.
  intros Hst. induction 1 as [off|off bs ts src Hd IH|off i segs ts src Hs Hne Hg Hd IH];
    intros Hb d Hl; cbn [inplace_tokens].
  - by rewrite Nat.add_0_r.
  - cbn [script_bytes token_bytes] in Hb. simpl in Hb.
    destruct (script_bytes basis _ ts) as [src'|]; [|done]. injection Hb as Hb.
    apply app_inv_head in Hb as ->. subst off. rewrite write_over, app_assoc.
    rewrite IH by (done || by rewrite length_app). by rewrite <- !app_assoc, length_app, Nat.add_assoc.
  - cbn [script_bytes token_bytes] in Hb. set (n := length segs * ix_block_length ix) in *.
    destruct (decide _) as [Hfit|]; [|done]. simpl in Hb.
    destruct (script_bytes basis _ ts) as [src'|]; [|done]. injection Hb as Hb.
    assert (Hcl : length (concat segs) = n) by (by eapply concat_segs_length).
    destruct Hfit as [Hz|Hfit].
    { rewrite Hz in *. cbn [inplace_copy]. rewrite take_0 in Hb. apply nil_length_inv in Hcl.
      rewrite Hcl in *. cbn [app] in *. subst src'. rewrite !Nat.add_0_r in *. by apply IH. }
    apply app_inj_1 in Hb as [Hc ->]; [|rewrite length_take, length_drop; lia].
    subst off. rewrite inplace_copy_ok by (done || by apply Hg). rewrite Hc, app_assoc.
    rewrite IH; [|done|by rewrite length_app, Hcl].
    by rewrite <- !app_assoc, length_app, Hcl, Nat.add_assoc.
Qed.

(** C27: the in-place guard works. A script generated with [updating_basis_file]
    can be executed on the basis file itself, writing front to back and reading
    every copy from the partly overwritten file in pieces of any size: the result
    is the new file (followed by what the old one had beyond it), unless the
    strong checksums collide. *)
Theorem in_place_safe `{HasCpu} `{HashCratesLaws} (g : DeltaGenerator) (basis : list byte)
    (layout : SignatureLayout) (algorithm : SignatureAlgorithm) (signature : FileSignature)
    (ix : DeltaSignatureIndex) (reader : list read_event) (step : nat) :
  dg_updating_basis_file g = true → 0 < step →
  layout_of layout (Z.of_nat (length basis)) → (Z.of_nat (length basis) ≤ u64_max)%Z →
  generate_file_signature basis layout algorithm = Ok signature →
  index_from_signature signature algorithm = Some ix → delivers reader →
  ∃ script ix', generate g reader ix = Ok (script, ix') ∧
    (inplace_tokens (ix_block_length ix) step 0 basis (ds_tokens script)
     = reader_bytes reader ++ drop (length (reader_bytes reader)) basis ∨
     collision ix basis (reader_bytes reader)).
Proof.
  intros Hg Hst Hl Hs Hsig Hix Hd.
  destruct (end_to_end_index basis layout algorithm signature ix Hl Hs Hsig Hix) as (Hok & Hb & _ & H0' & H1').
  destruct (delta_generate_spec g ix Hok H0' H1' reader Hd) as (script & ix' & Hgen & (Hden & _) & _).
  exists script, ix'. split; [done|]. rewrite Hg in Hden.
  destruct (denotes_reconstructs ix basis Hb _ _ _ _ Hden) as [Hsb|Hc]; [left|by right].
  exact (inplace_tokens_ok ix basis step 0 _ _ Hst Hden Hsb [] eq_refl).
Qed.

Lemma in_place_safe_witness :
  ∃ ix script ix', index_from_signature demo_signature_of_basis Md4 = Some ix ∧
    @generate OtherArch toy_crates (with_updating_basis_file generator_new true) demo_reader ix
    = Ok (script, ix') ∧
    (inplace_tokens (ix_block_length ix) 1 0 demo_basis (ds_tokens script)
     = reader_bytes demo_reader ++ drop 7 demo_basis ∨
     @collision toy_crates ix demo_basis (reader_bytes demo_reader)).
Proof.
  destruct demo_indexed as [ix Hix].
  destruct (@in_place_safe OtherArch toy_crates toy_crates_ok (with_updating_basis_file generator_new true)
    demo_basis demo_layout Md4 demo_signature_of_basis ix demo_reader 1 eq_refl ltac:(lia) demo_layout_of
    ltac:(vm_compute; discriminate) demo_generated Hix demo_delivers) as (script & ix' & Hg & Hr).
  exists ix, script, ix'. split; [exact Hix|]. split; [exact Hg|exact Hr].
Defined.
