(* ===== verification/Parallel.v ===== *)
(** * The parallel scan ([generate_chunked] of [crates/matching/src/generator.rs])

    The source is cut into overlapping stripes, each stripe is scanned by the
    sequential scan, the copies are lifted to runs of one block in global
    coordinates, sorted, merged into one script and the literals are cut again
    at the sequential cadence.  The theorems: the merged script stands for the
    source like the sequential one does, and cutting literals again keeps the
    bytes and the copies and bounds every literal. *)

From Stdlib Require Import Sorted.
From stdpp Require Import sorting.
From S2P Require Import Prelude Rolling Strong Signature RingBuffer Lookup Index Script Generator.

(** ** Literal framing *)

(** The [while len - start > cadence] loop; [fuel] is the length of the run. *)
Fixpoint split_run_loop (fuel : nat) (out : list DeltaToken) (run : list byte) (cadence : nat)
    : list DeltaToken :=
  match fuel with
  | O => out ++ [Literal run]
  | S fuel' =>
      if cadence <? length run
      then split_run_loop fuel' (out ++ [Literal (take cadence run)]) (drop cadence run) cadence
      else out ++ [Literal run]
  end.

Definition push_split_literal_run (out : list DeltaToken) (run : list byte) (cadence : nat)
    : list DeltaToken :=
  match run with
  | [] => out
  | _ =>
      if length run <=? cadence then out ++ [Literal run]
      else split_run_loop (length run) out run cadence
  end.

(** The loop of [resegment_literals]: the output so far and the open run. *)
Definition resegment_step (cadence : nat) (st : list DeltaToken * option (list byte)) (token : DeltaToken)
    : list DeltaToken * option (list byte) :=
  let '(out, run) := st in
  match token with
  | Literal bytes =>
      match run with
      | Some acc => (out, Some (acc ++ bytes))
      | None => (out, Some bytes)
      end
  | copy =>
      let out := match run with Some acc => push_split_literal_run out acc cadence | None => out end in
      (out ++ [copy], None)
  end.

Definition resegment_literals (tokens : list DeltaToken) (block_len : nat) : list DeltaToken :=
  let cadence := literal_flush_cadence block_len in
  let '(out, run) := foldl (resegment_step cadence) ([], None) tokens in
  match run with Some acc => push_split_literal_run out acc cadence | None => out end.

(** ** The parallel scan *)

Record CopyRun := mkRun { cr_source_start : nat; cr_basis_index : nat; cr_len : nat }.

Definition run_le (a b : CopyRun) : Prop :=
  cr_source_start a < cr_source_start b ∨
  (cr_source_start a = cr_source_start b ∧ cr_len b ≤ cr_len a).

(** [sort_unstable_by]: some permutation in comparator order. *)
Definition sorts (sort : list CopyRun → list CopyRun) : Prop :=
  ∀ l, sort l ≡ₚ l ∧ Sorted run_le (sort l).

Fixpoint skip_runs (cursor : nat) (runs : list CopyRun) : list CopyRun :=
  match runs with
  | r :: rest => if cr_source_start r <? cursor then skip_runs cursor rest else runs
  | [] => []
  end.

(** The cursor loop; [None] is the panic of a slice that ends past the source.
    Every turn advances the cursor or drops a run. *)
Fixpoint merge_loop (fuel : nat) (source : list byte) (cursor : nat) (runs : list CopyRun)
    (tokens : list DeltaToken) : option (list DeltaToken) :=
  match fuel with
  | O => None
  | S fuel' =>
      if cursor <? length source then
        let runs := skip_runs cursor runs in
        let gap (gap_end : nat) :=
          if gap_end <=? length source then
            merge_loop fuel' source gap_end runs
              (tokens ++ [Literal (take (gap_end - cursor) (drop cursor source))])
          else None in
        match runs with
        | run :: rest =>
            if cr_source_start run =? cursor
            then merge_loop fuel' source (cursor + cr_len run) rest
                   (tokens ++ [Copy (cr_basis_index run) (cr_len run)])
            else gap (cr_source_start run)
        | [] => gap (length source)
        end
      else Some tokens
  end.

Definition merge_copy_runs (sort : list CopyRun → list CopyRun) (source : list byte)
    (runs : list CopyRun) (block_len : nat) : option DeltaScript :=
  let runs := sort runs in
  tokens ← merge_loop (S (length source + length runs)) source 0 runs [];
  let tokens := resegment_literals tokens block_len in
  let literal_bytes :=
    foldr Z.add 0%Z (map (λ t, Z.of_nat (token_byte_len t)) (filter (λ t, token_is_literal t = true) tokens)) in
  Some (mkScript tokens (Z.of_nat (length source)) literal_bytes).

(** Splitting a copy into runs of one block; [fuel] is the bytes left. *)
Fixpoint split_copy (fuel block_len start basis_index covered block len : nat) : list CopyRun :=
  match fuel with
  | O => []
  | S fuel' =>
      if covered <? len then
        let this := block_len `min` (len - covered) in
        mkRun (start + covered) (basis_index + block) this
        :: split_copy fuel' block_len start basis_index (covered + this) (S block) len
      else []
  end.

Fixpoint lift_tokens (block_len scan_start local_off : nat) (tokens : list DeltaToken) : list CopyRun :=
  match tokens with
  | [] => []
  | t :: rest =>
      match t with
      | Copy basis_index len =>
          split_copy len block_len (scan_start + local_off) basis_index 0 0 len
      | Literal _ => []
      end ++ lift_tokens block_len scan_start (local_off + token_byte_len t) rest
  end.

Definition MIN_PARALLEL_CHUNK_BYTES : nat := 1024 * 1024.

(** [Cursor::new(source)] read through a buffer of [cap] bytes. *)
Fixpoint cursor_reads (fuel cap : nat) (source : list byte) : list read_event :=
  match fuel with
  | O => []
  | S fuel' =>
      match source with
      | [] => []
      | _ => RData (take cap source) :: cursor_reads fuel' cap (drop cap source)
      end
  end.

Definition cursor_new (g : DeltaGenerator) (ix : DeltaSignatureIndex) (source : list byte)
    : list read_event :=
  cursor_reads (length source) (max (dg_buffer_len g) (ix_block_length ix)) source.

Fixpoint take_while_start (n : nat) (ranges : list (nat * nat)) : list (nat * nat) :=
  match ranges with
  | (start, end_) :: rest => if start <? n then (start, end_) :: take_while_start n rest else []
  | [] => []
  end.

Definition stripe_ranges (n chunks block_len : nat) : list (nat * nat) :=
  let stripe := max (n / chunks) 1 in
  take_while_start n
    (map (λ k, let start := k * stripe in
               (start, if k + 1 =? chunks then n else (start + stripe + block_len) `min` n))
       (seq 0 chunks)).

Section Chunked.
Context `{HasCpu} `{HashCrates}.
Context (sort : list CopyRun → list CopyRun) (g : DeltaGenerator).

(** The runs of every stripe, in stripe order; the first error is returned. *)
Fixpoint lift_scripts (ix : DeltaSignatureIndex) (source : list byte) (ranges : list (nat * nat))
    : result io_error (list CopyRun) :=
  match ranges with
  | [] => Ok []
  | (s, e) :: rest =>
      match generate_with_prune g (cursor_new g ix (take (e - s) (drop s source))) ix false with
      | Err err => Err err
      | Ok (script, _) =>
          match lift_scripts ix source rest with
          | Err err => Err err
          | Ok runs => Ok (lift_tokens (ix_block_length ix) s 0 (ds_tokens script) ++ runs)
          end
      end
  end.

Definition generate_chunked (source : list byte) (ix : DeltaSignatureIndex) (max_chunks : nat)
    : result io_error DeltaScript :=
  if 2 <=? dg_consecutive_match_needed g then
    match generate_gated g (cursor_new g ix source) ix with Ok (s, _) => Ok s | Err e => Err e end
  else if dg_updating_basis_file g then
    match generate g (cursor_new g ix source) ix with Ok (s, _) => Ok s | Err e => Err e end
  else
    let block_len := ix_block_length ix in
    let n := length source in
    let min_chunk := max (max MIN_PARALLEL_CHUNK_BYTES (block_len * 64)) 1 in
    let feasible := max (n / min_chunk) 1 in
    let chunks := feasible `min` max max_chunks 1 in
    if (chunks <=? 1) || (block_len =? 0) then
      match generate g (cursor_new g ix source) ix with Ok (s, _) => Ok s | Err e => Err e end
    else
      let ix := with_consumed ix (reset_consumed (ix_consumed ix)) in
      match lift_scripts ix source (stripe_ranges n chunks block_len) with
      | Err e => Err e
      | Ok runs =>
          match merge_copy_runs sort source runs block_len with
          | Some script => Ok script
          | None => Err OtherError
          end
      end.
End Chunked.

(** ** Framing *)

(** A script without its literal framing. *)
Definition token_units (t : DeltaToken) : list (byte + nat * nat) :=
  match t with Literal bs => map inl bs | Copy i len => [inr (i, len)] end.

Definition flatten (ts : list DeltaToken) : list (byte + nat * nat) := concat (map token_units ts).

Definition unit_token (u : byte + nat * nat) : DeltaToken :=
  match u with inl b => Literal [b] | inr (i, len) => Copy i len end.

Lemma flatten_app ts ts' : flatten (ts ++ ts') = flatten ts ++ flatten ts'.
Proof. unfold flatten. by rewrite map_app, concat_app. Qed.

Lemma flatten_literal bs : flatten [Literal bs] = map inl bs.
Proof. apply app_nil_r. Qed.

Lemma literal_len_flatten ts : literal_len (map unit_token (flatten ts)) = literal_len ts.
Proof.
  induction ts as [|[bs|i len] ts IH]; [done|..]; unfold flatten in *; cbn [map concat token_units].
  - rewrite map_app, literal_len_app, IH. cbn [literal_len]. f_equal.
    induction bs as [|b bs IHb]; [done|]. cbn [map unit_token literal_len length]. lia.
  - cbn [map app unit_token literal_len]. by rewrite IH.
Qed.

Section Framing.
Context `{HashCrates}.
Context (ix : DeltaSignatureIndex) (guard : bool) (bl : nat).

Lemma denotes_literal_units off bs ts src :
  denotes ix guard bl off (Literal bs :: ts) src ↔
  denotes ix guard bl off (map (λ b, Literal [b]) bs ++ ts) src.
Proof.
  revert off src. induction bs as [|b bs IH]; intros off src; cbn [map app].
  - split; [|intros Hd; change src with ([] ++ src); constructor; by rewrite Nat.add_0_r].
    intros Hd. inversion Hd as [|? ? ? src0 Hd0|]; subst. by rewrite Nat.add_0_r in Hd0.
  - split; intros Hd; inversion Hd as [|? ? ? src0 Hd0|]; subst.
    + change ((b :: bs) ++ src0) with ([b] ++ (bs ++ src0)). constructor. apply IH. constructor.
      cbn [length] in *. by rewrite <- Nat.add_assoc.
    + apply IH in Hd0. inversion Hd0 as [|? ? ? src1 Hd1|]; subst.
      change ([b] ++ bs ++ src1) with ((b :: bs) ++ src1). constructor.
      cbn [length] in *. by rewrite <- Nat.add_assoc in Hd1.
Qed.

Lemma denotes_flatten_iff off ts src :
  denotes ix guard bl off ts src ↔ denotes ix guard bl off (map unit_token (flatten ts)) src.
Proof.
  revert off src. induction ts as [|[bs|i len] ts IH]; intros off src; [done|..].
  - unfold flatten in *. cbn [map concat token_units]. rewrite map_app, map_map.
    cbn [unit_token]. rewrite <- denotes_literal_units.
    split; intros Hd; inversion Hd; subst; constructor; by apply IH.
  - unfold flatten in *. cbn [map concat token_units app unit_token].
    split; intros Hd; inversion Hd; subst; constructor; try done; by apply IH.
Qed.

Lemma denotes_flatten off ts ts' src :
  flatten ts = flatten ts' → denotes ix guard bl off ts src → denotes ix guard bl off ts' src.
Proof. intros E. rewrite denotes_flatten_iff, E, <- denotes_flatten_iff. done. Qed.
End Framing.

(** The canonical framing: no literal is empty or above the cadence, and a
    literal that is followed by another is exactly at it. *)
Fixpoint framed (cadence : nat) (ts : list DeltaToken) : Prop :=
  match ts with
  | [] => True
  | Copy _ _ :: ts' => framed cadence ts'
  | Literal bs :: ts' =>
      0 < length bs ≤ cadence ∧
      match ts' with Literal _ :: _ => length bs = cadence | _ => True end ∧ framed cadence ts'
  end.

Definition ends_open (ts : list DeltaToken) : bool :=
  match last ts with Some (Literal _) => true | _ => false end.

Lemma framed_app c ts ts' : framed c ts → framed c ts' → ends_open ts = false → framed c (ts ++ ts').
Proof.
  induction ts as [|t ts IH]; [done|]. intros Ht Ht' He.
  destruct ts as [|u ts].
  - destruct t as [bs|i len]; [done|]. done.
  - assert (He' : ends_open (u :: ts) = false) by done.
    destruct t as [bs|i len]; [|by apply IH]. destruct Ht as (Hb & Hn & Hr). cbn [app framed].
    split; [lia|split; [by destruct u|by apply IH]].
Qed.

Section SplitRun.
Context (cadence : nat) (Hc : 0 < cadence).

Lemma split_run_app fuel out run :
  split_run_loop fuel out run cadence = out ++ split_run_loop fuel [] run cadence.
Proof.
  revert out run. induction fuel as [|fuel IH]; intros out run; cbn [split_run_loop]; [done|].
  destruct (_ <? _); [|done]. rewrite IH, (IH ([] ++ _)). by rewrite <- app_assoc.
Qed.

Lemma split_run_units fuel run : flatten (split_run_loop fuel [] run cadence) = map inl run.
Proof.
  revert run. induction fuel as [|fuel IH]; intros run; cbn [split_run_loop app]; [apply flatten_literal|].
  destruct (_ <? _); [|apply flatten_literal].
  rewrite split_run_app, flatten_app, IH, flatten_literal, <- map_app, take_drop. done.
Qed.

Lemma split_run_framed fuel run : run ≠ [] → length run ≤ fuel →
  framed cadence (split_run_loop fuel [] run cadence) ∧
  ∃ bs rest, split_run_loop fuel [] run cadence = Literal bs :: rest.
Proof.
  revert run. induction fuel as [|fuel IH]; intros run Hne Hf.
  { destruct run; [done|simpl in Hf; lia]. }
  assert (0 < length run) by (destruct run; [done|simpl; lia]). cbn [split_run_loop app].
  destruct (Nat.ltb_spec cadence (length run)) as [Hlt|Hge].
  - rewrite split_run_app. cbn [app]. split; [|by eexists _, _].
    destruct (IH (drop cadence run)) as [Hfr (bs & rest & E)].
    { intros E%(f_equal length). rewrite length_drop in E. simpl in E. lia. }
    { rewrite length_drop. lia. }
    rewrite E in *. cbn [framed] in *. rewrite length_take. split; [lia|split; [lia|apply Hfr]].
  - split; [|by eexists _, _]. cbn [framed]. by split; [lia|].
Qed.

Lemma push_split_units out run : flatten (push_split_literal_run out run cadence) = flatten out ++ map inl run.
Proof.
  unfold push_split_literal_run. destruct run as [|b run]; [by rewrite app_nil_r|].
  destruct (_ <=? _); [by rewrite flatten_app, flatten_literal|].
  by rewrite split_run_app, flatten_app, split_run_units.
Qed.

Lemma push_split_framed out run : framed cadence out → ends_open out = false →
  framed cadence (push_split_literal_run out run cadence).
Proof.
  intros Ho He. unfold push_split_literal_run. destruct run as [|b run]; [done|].
  destruct (Nat.leb_spec (length (b :: run)) cadence) as [Hle|Hgt].
  - apply framed_app; [done| |done]. cbn [framed]. by split; [simpl in *; lia|].
  - rewrite split_run_app. apply framed_app; [done| |done]. by apply split_run_framed.
Qed.

(** The invariant of the loop over the tokens. *)
Lemma resegment_fold ts out run : framed cadence out → ends_open out = false →
  let '(out', run') := foldl (resegment_step cadence) (out, run) ts in
  framed cadence out' ∧ ends_open out' = false ∧
  flatten out' ++ map inl (default [] run') = flatten out ++ map inl (default [] run) ++ flatten ts.
Proof.
  revert out run. induction ts as [|[bs|i len] ts IH]; intros out run Hf He; cbn [foldl].
  - split_and!; [done|done|]. by rewrite app_nil_r.
  - cbn [resegment_step].
    assert (E : (match run with Some acc => (out, Some (acc ++ bs)) | None => (out, Some bs) end)
      = (out, Some (default [] run ++ bs))) by (by destruct run). rewrite E.
    specialize (IH out (Some (default [] run ++ bs)) Hf He).
    destruct (foldl _ _ ts) as [out' run']. destruct IH as (H1 & H2 & H3). split_and!; [done|done|].
    rewrite H3. cbn [from_option id]. by rewrite map_app, <- app_assoc.
  - cbn [resegment_step]. set (out1 := match run with Some _ => _ | None => _ end).
    assert (H1 : framed cadence out1 ∧ flatten out1 = flatten out ++ map inl (default [] run)).
    { subst out1. destruct run as [acc|]; [|by rewrite app_nil_r].
      split; [by apply push_split_framed|apply push_split_units]. }
    destruct H1 as [Hf1 Hu1].
    assert (Hf2 : framed cadence (out1 ++ [Copy i len])).
    { clear -Hf1. induction out1 as [|[b|? ?] o IHo]; [done| |by apply IHo].
      destruct Hf1 as (Hb & Hn & Hr). cbn [app framed]. split; [lia|split; [|by apply IHo]].
      by destruct o as [|[] ?]. }
    specialize (IH (out1 ++ [Copy i len]) None Hf2).
    destruct (foldl _ _ ts) as [out' run']. destruct IH as (H1 & H2 & H3).
    { unfold ends_open. by rewrite last_snoc. }
    split_and!; [done|done|]. rewrite H3, flatten_app, Hu1. cbn [from_option map].
    by rewrite <- !app_assoc.
Qed.
End SplitRun.

Lemma resegment_spec ts bl : flatten (resegment_literals ts bl) = flatten ts ∧
  framed (literal_flush_cadence bl) (resegment_literals ts bl).
Proof.
  unfold resegment_literals.
  assert (Hc : 0 < literal_flush_cadence bl) by (unfold literal_flush_cadence, CHUNK_SIZE; lia).
  pose proof (resegment_fold _ Hc ts [] None I eq_refl) as Hf.
  destruct (foldl _ _ ts) as [out run]. destruct Hf as (Hf & He & Hu). cbn [from_option map app] in Hu.
  destruct run as [acc|].
  - split; [|by apply push_split_framed]. rewrite push_split_units by done. done.
  - cbn [from_option map] in Hu. rewrite app_nil_r in Hu. done.
Qed.

(** re-cutting the literals of any script changes nothing but their framing:
    the sequence of literal bytes and copies is the same, and the result is in
    the canonical framing of the sequential sender's cadence. *)
Theorem resegment_canonical (ts : list DeltaToken) (bl : nat) :
  flatten (resegment_literals ts bl) = flatten ts ∧
  framed (literal_flush_cadence bl) (resegment_literals ts bl).
Proof. apply resegment_spec. Qed.

(** ** Merging *)

Section Merge.
Context `{HashCrates}.
Context (ix : DeltaSignatureIndex) (source : list byte).
Local Notation bl := (ix_block_length ix).
Context (Hbl : 0 < bl).

(** A run of one block whose source window has the checksum of the block. *)
Definition run_valid (r : CopyRun) : Prop :=
  cr_len r = bl ∧ cr_source_start r + bl ≤ length source ∧
  block_matches ix (cr_basis_index r) (take bl (drop (cr_source_start r) source)).

Lemma skip_runs_Forall cursor runs : Forall run_valid runs →
  Forall run_valid (skip_runs cursor runs) ∧ length (skip_runs cursor runs) ≤ length runs ∧
  (∀ r rest, skip_runs cursor runs = r :: rest → cursor ≤ cr_source_start r).
Proof.
  induction 1 as [|r runs Hr Hruns IH]; [done|]. cbn [skip_runs].
  destruct (Nat.ltb_spec (cr_source_start r) cursor).
  - destruct IH as (? & ? & ?). split_and!; [done|simpl; lia|done].
  - split_and!; [by constructor|lia|]. intros r' rest [= <- <-]. done.
Qed.

Lemma source_split cursor gap_end : cursor ≤ gap_end →
  take cursor source ++ take (gap_end - cursor) (drop cursor source) = take gap_end source.
Proof. intros Hle. rewrite take_take_drop. f_equal. lia. Qed.

Lemma merge_loop_ok fuel : ∀ cursor runs tokens,
  Forall run_valid runs → cursor ≤ length source →
  denotes ix false bl 0 tokens (take cursor source) →
  length source - cursor + length runs < fuel →
  ∃ ts, merge_loop fuel source cursor runs tokens = Some ts ∧ denotes ix false bl 0 ts source.
Proof.
  induction fuel as [|fuel IH]; intros cursor runs tokens Hr Hc Hd Hf; [lia|]. cbn [merge_loop].
  destruct (Nat.ltb_spec cursor (length source)) as [Hlt|Hge].
  2:{ exists tokens. split; [done|]. by rewrite take_ge in Hd by lia. }
  destruct (skip_runs_Forall cursor runs Hr) as (Hr' & Hlen & Hhd).
  destruct (skip_runs cursor runs) as [|r rest] eqn:Es.
  - rewrite (proj2 (Nat.leb_le _ _)) by lia. apply IH; [done|lia| |simpl in *; lia].
    rewrite <- source_split with (cursor := cursor) by lia. by apply denotes_literal.
  - apply Forall_cons in Hr' as [(Hl & Hfit & Hm) Hrest]. specialize (Hhd r rest eq_refl).
    destruct (Nat.eqb_spec (cr_source_start r) cursor) as [Heq|Hne].
    + rewrite Hl. apply IH; [done|lia| |simpl in *; lia].
      rewrite <- (source_split cursor (cursor + bl)) by lia.
      replace (cursor + bl - cursor) with bl by lia. rewrite Heq in *.
      pose proof (denotes_snoc_copy ix false bl 0 tokens _ (cr_basis_index r)
        [take bl (drop cursor source)] Hd) as Hs.
      cbn [concat length] in Hs. rewrite app_nil_r, Nat.mul_1_l in Hs. apply Hs; [|done|done].
      intros k v Hk. destruct k; [|done]. injection Hk as <-. rewrite Nat.add_0_r.
      split; [done|]. rewrite length_take, length_drop. lia.
    + rewrite (proj2 (Nat.leb_le _ _)) by lia. apply IH; [by constructor|lia| |simpl in *; lia].
      rewrite <- (source_split cursor (cr_source_start r)) by lia. by apply denotes_literal.
Qed.

Lemma literal_sum ts :
  foldr Z.add 0%Z (map (λ t, Z.of_nat (token_byte_len t)) (filter (λ t, token_is_literal t = true) ts))
  = literal_len ts.
Proof.
  induction ts as [|[bs|i len] ts IH]; [done|..].
  - rewrite filter_cons_True by done. cbn [map foldr token_byte_len literal_len]. by rewrite IH.
  - by rewrite filter_cons_False by done.
Qed.

Lemma merge_copy_runs_ok sort runs : sorts sort → Forall run_valid runs →
  ∃ script, merge_copy_runs sort source runs bl = Some script ∧ scripts ix false source script.
Proof.
  intros Hsort Hr. unfold merge_copy_runs. destruct (Hsort runs) as [Hp _].
  destruct (merge_loop_ok (S (length source + length (sort runs))) 0 (sort runs) []) as (ts & -> & Hd);
    [by rewrite Hp|lia|constructor|lia|].
  destruct (resegment_spec ts bl) as [Hu _].
  eexists. split; [done|]. split; [by eapply denotes_flatten|]. split; [done|apply literal_sum].
Qed.

(** *** Lifting *)

Lemma split_copy_elem fuel start bi n block r : n * bl - block * bl ≤ fuel →
  r ∈ split_copy fuel bl start bi (block * bl) block (n * bl) →
  ∃ k, k < n ∧ r = mkRun (start + k * bl) (bi + k) bl.
Proof.
  revert block. induction fuel as [|fuel IH]; intros block Hf; cbn [split_copy]; [set_solver|].
  destruct (Nat.ltb_spec (block * bl) (n * bl)) as [Hlt|]; [|set_solver].
  assert (Hbn : block < n) by nia.
  replace (bl `min` (n * bl - block * bl)) with bl by nia.
  intros [-> |Hin]%elem_of_cons; [by exists block|].
  replace (block * bl + bl) with (S block * bl) in Hin by lia. apply IH in Hin; [done|lia].
Qed.

Lemma lift_tokens_valid guard start off ts src part :
  denotes ix guard bl off ts src → (∃ pre, part = pre ++ src ∧ length pre = off) →
  (∃ m, part = take m (drop start source)) →
  Forall run_valid (lift_tokens bl start off ts).
Proof.
  intros Hd. induction Hd as [off|off bs ts src Hd IH|off i segs ts src Hs Hne Hg Hd IH];
    intros (pre & Hpart & Hpre) Hm; cbn [lift_tokens token_byte_len].
  - constructor.
  - apply IH; [|done]. exists (pre ++ bs). rewrite <- app_assoc, length_app. split; [done|lia].
  - pose proof (concat_segs_length ix bl i segs Hs) as Hcl.
    apply Forall_app. split.
    2:{ apply IH; [|done]. exists (pre ++ concat segs). rewrite <- app_assoc, length_app. split; [done|lia]. }
    apply Forall_forall. intros r Hr.
    apply (split_copy_elem _ _ _ (length segs) 0) in Hr as (k & Hk & ->); [|lia].
    destruct (lookup_lt_is_Some_2 segs k Hk) as [w Hw]. destruct (Hs k w Hw) as [Hbm Hwl].
    (* the window of the source is the segment *)
    assert (Hdrop : ∃ rest, drop (off + k * bl) part = w ++ rest).
    { exists (concat (drop (S k) segs) ++ src). rewrite Hpart, <- Hpre, drop_app_add.
      rewrite <- (take_drop k segs) at 1. rewrite concat_app, <- app_assoc.
      assert (Hkl : length (concat (take k segs)) = k * bl).
      { erewrite concat_segs_length; [rewrite length_take; f_equal; lia|].
        intros j v Hj. apply lookup_take_Some in Hj as [Hj _]. by apply Hs. }
      rewrite <- Hkl, drop_app_length. rewrite (drop_S _ w k) by done. cbn [concat].
      by rewrite app_assoc. }
    destruct Hdrop as [rest Hdrop], Hm as [m Hm].
    assert (Hsrc : take bl (drop (start + off + k * bl) source) = w ∧ start + off + k * bl + bl ≤ length source).
    { rewrite Hm in Hdrop. rewrite <- Nat.add_assoc, <- drop_drop.
      rewrite <- (firstn_skipn m (drop start source)) at 1.
      pose proof (f_equal length Hdrop) as Hl. rewrite length_app, length_drop, length_take, length_drop in Hl.
      rewrite drop_app, take_app, Hdrop, length_app.
      rewrite <- Hwl at 1. rewrite take_app_length.
      replace (bl - (length w + length rest)) with 0 by lia. rewrite take_0, app_nil_r.
      split; [done|]. lia. }
    destruct Hsrc as [Hsrc Hfit]. split; cbn [cr_len cr_source_start cr_basis_index]; [done|].
    split; [lia|]. by rewrite Hsrc.
Qed.
End Merge.

(** ** The whole parallel scan *)

Lemma cursor_reads_spec cap fuel src : 0 < cap → length src ≤ fuel →
  delivers (cursor_reads fuel cap src) ∧ reader_bytes (cursor_reads fuel cap src) = src.
Proof.
  intros Hcap. revert src. induction fuel as [|fuel IH]; intros src Hf.
  { destruct src; [|simpl in Hf; lia]. split; [constructor|done]. }
  cbn [cursor_reads]. destruct src as [|b src]; [split; [constructor|done]|].
  destruct (IH (drop cap (b :: src))) as [Hd Hb]; [rewrite length_drop; simpl in *; lia|].
  unfold reader_bytes in *. cbn [map concat]. rewrite Hb, take_drop. split; [|done].
  constructor; [|done]. destruct cap; [lia|]. by eexists _, _.
Qed.

Section ChunkedProofs.
Context `{HasCpu} `{HashCratesLaws}.
Context (sort : list CopyRun → list CopyRun) (Hsort : sorts sort).
Context (g : DeltaGenerator) (ix : DeltaSignatureIndex) (Hok : index_ok ix).
Context (Hbl : 0 < ix_block_length ix) (Hmax : (Z.of_nat (ix_block_length ix) ≤ u32_max)%Z).

Lemma cursor_new_spec src :
  delivers (cursor_new g ix src) ∧ reader_bytes (cursor_new g ix src) = src.
Proof. apply cursor_reads_spec; lia. Qed.

Lemma lift_scripts_ok src ranges :
  ∃ runs, lift_scripts g ix src ranges = Ok runs ∧ Forall (run_valid ix src) runs.
Proof.
  induction ranges as [|[s e] ranges (runs & Hruns & IH)]; [by exists []|]. cbn [lift_scripts].
  destruct (cursor_new_spec (take (e - s) (drop s src))) as [Hd Hb].
  destruct (generate_with_prune_spec g ix Hok Hbl Hmax _ false Hd) as (script & ix' & -> & (Hden & _) & _).
  rewrite Hruns. eexists. split; [done|]. apply Forall_app. split; [|done].
  rewrite Hb in Hden. eapply lift_tokens_valid; [done|exact Hden|by exists []|by eexists].
Qed.
End ChunkedProofs.

Lemma denotes_same `{HashCrates} ix ix' guard bl off ts src : same_index ix ix' →
  denotes ix' guard bl off ts src → denotes ix guard bl off ts src.
Proof.
  intros (_ & E2 & E3 & E4 & _). induction 1 as [|? ? ? ? ? IH|off i segs ts src Hs Hne Hg Hd IH];
    constructor; try done.
  intros k w Hk. destruct (Hs k w Hk) as [(p & b & Hb & Hi & Hl & He) Hw]. split; [|done].
  exists p, b. rewrite <- E2, <- E3, <- E4. done.
Qed.

Section ChunkedSpec.
Context `{HasCpu} `{HashCratesLaws}.
Context (sort : list CopyRun → list CopyRun) (Hsort : sorts sort).
Context (g : DeltaGenerator) (ix : DeltaSignatureIndex) (Hok : index_ok ix).
Context (Hbl : 0 < ix_block_length ix) (Hmax : (Z.of_nat (ix_block_length ix) ≤ u32_max)%Z).

Lemma generate_chunked_spec src max_chunks :
  ∃ script, generate_chunked sort g src ix max_chunks = Ok script ∧
    scripts ix (dg_updating_basis_file g) src script.
Proof.
  unfold generate_chunked. destruct (cursor_new_spec g ix Hbl src) as [Hd Hb].
  assert (Hseq : ∃ script,
    match generate g (cursor_new g ix src) ix with Ok (s, _) => Ok s | Err e => Err e end = Ok script ∧
    scripts ix (dg_updating_basis_file g) src script).
  { destruct (delta_generate_spec g ix Hok Hbl Hmax _ Hd) as (script & ix' & -> & Hs & _).
    rewrite Hb in Hs. eauto. }
  destruct (2 <=? dg_consecutive_match_needed g).
  { destruct (generate_gated_spec g ix Hok Hbl Hmax _ Hd) as (script & ix' & -> & Hs & _).
    rewrite Hb in Hs. eauto. }
  destruct (dg_updating_basis_file g); [done|]. destruct (_ || _); [done|].
  pose proof (reset_consumed_ok ix Hok) as Hok'.
  set (ix' := with_consumed ix _) in *.
  destruct (lift_scripts_ok g ix' Hok' Hbl Hmax src
    (stripe_ranges (length src) (max (length src / max (max MIN_PARALLEL_CHUNK_BYTES
       (ix_block_length ix * 64)) 1) 1 `min` max max_chunks 1) (ix_block_length ix)))
    as (runs & -> & Hr).
  destruct (merge_copy_runs_ok ix' src Hbl sort runs Hsort Hr) as (script & Hm & Hs).
  change (ix_block_length ix') with (ix_block_length ix) in Hm. rewrite Hm.
  exists script. split; [done|]. destruct Hs as (Hden & Ht & Hlit). split; [|done].
  by apply (denotes_same ix ix').
Qed.
End ChunkedSpec.

(** C10: the parallel scan is as good as the sequential one. However many stripes
    the source is cut into and whatever order the unstable sort leaves equal runs
    in, generation succeeds without a slice out of bounds, the script accounts
    for every source byte, and applying it to the basis rebuilds the source, or
    the strong checksums collide. *)
Theorem parallel_roundtrip `{HasCpu} `{HashCratesLaws} (sort : list CopyRun → list CopyRun)
    (g : DeltaGenerator) (basis : list byte) (layout : SignatureLayout) (algorithm : SignatureAlgorithm)
    (signature : FileSignature) (ix : DeltaSignatureIndex) (source : list byte) (max_chunks cursor : nat) :
  sorts sort → layout_of layout (Z.of_nat (length basis)) → (Z.of_nat (length basis) ≤ u64_max)%Z →
  generate_file_signature basis layout algorithm = Ok signature →
  index_from_signature signature algorithm = Some ix →
  ∃ script, generate_chunked sort g source ix max_chunks = Ok script ∧
    ds_total_bytes script = Z.of_nat (length source) ∧
    tokens_len (ds_tokens script) = Z.of_nat (length source) ∧
    ds_literal_bytes script = literal_len (ds_tokens script) ∧
    (apply_delta basis cursor (ix_block_length ix) script = (source, Ok tt) ∨ collision ix basis source).
Proof.
  intros Hsort Hl Hs Hsig Hix.
  destruct (end_to_end_index basis layout algorithm signature ix Hl Hs Hsig Hix) as (Hok & _ & _ & H0' & H1').
  destruct (generate_chunked_spec sort Hsort g ix Hok H0' H1' source max_chunks) as (script & Hg & Hsc).
  exists script. split; [done|]. pose proof Hsc as (Hd & Ht & Hlit).
  split_and!; [done|by eapply denotes_len|done|]. by eapply scripts_apply.
Qed.

#[local] Instance run_le_dec : RelDecision run_le.
Proof. intros a b. unfold run_le. apply _. Defined.

#[local] Instance run_le_total : Total run_le.
Proof. intros a b. unfold run_le. lia. Qed.

Lemma merge_sort_sorts : sorts (merge_sort run_le).
Proof. intros l. split; [apply merge_sort_Permutation|apply Sorted_merge_sort; apply _]. Qed.

Lemma parallel_roundtrip_witness :
  ∃ ix script, index_from_signature demo_signature_of_basis Md4 = Some ix ∧
    @generate_chunked OtherArch toy_crates (merge_sort run_le) generator_new [x7a; x63; x64; x61; x62] ix 4
    = Ok script ∧ ds_total_bytes script = 5%Z.
Proof.
  destruct demo_indexed as [ix Hix].
  destruct (@parallel_roundtrip OtherArch toy_crates toy_crates_ok (merge_sort run_le) generator_new
    demo_basis demo_layout Md4 demo_signature_of_basis ix [x7a; x63; x64; x61; x62] 4 0 merge_sort_sorts
    demo_layout_of ltac:(vm_compute; discriminate) demo_generated Hix) as (script & Hg & Ht & _).
  exists ix, script. split; [exact Hix|]. split; [exact Hg|exact Ht].
Defined.
