(* ===== verification/Verifier.v ===== *)
(** * Whole-file checksums ([crates/transfer/src/delta_apply/checksum.rs])

    [ChecksumVerifier]: the digest sender and receiver accumulate over a whole
    file and compare at its end.  The lemmas show that the digest depends only on
    the bytes, not on how they were cut into updates, and has the announced
    length. *)

From S2P Require Import Prelude Strong.

(** ** Data *)

(** [protocol::ChecksumAlgorithm]. *)
Inductive ChecksumAlgorithm :=
| CkNone
| CkMD4
| CkMD5
| CkSHA1
| CkXXH64
| CkXXH3
| CkXXH128.

(** [ProtocolVersion::uses_varint_encoding]. *)
Definition uses_varint_encoding (protocol : Z) : bool := (30 <=? protocol)%Z.

Section Verifier.
Context `{HashCrates}.

Inductive ChecksumVerifier :=
| VNone
| VMd4 (h : hb_state md4_crate)
| VMd5 (h : md5_hasher)
| VSha1 (h : hb_state sha1_crate)
| VXxh64 (h : hb_state (xxh64_crate 0))
| VXxh3 (h : hb_state (xxh3_crate 0))
| VXxh128 (h : hb_state (xxh3_128_crate 0)).

Definition verifier_update (v : ChecksumVerifier) (data : list byte) : ChecksumVerifier :=
  match v with
  | VNone => VNone
  | VMd4 h => VMd4 (hb_update md4_crate h data)
  | VMd5 h => VMd5 (md5_update h data)
  | VSha1 h => VSha1 (hb_update sha1_crate h data)
  | VXxh64 h => VXxh64 (hb_update (xxh64_crate 0) h data)
  | VXxh3 h => VXxh3 (hb_update (xxh3_crate 0) h data)
  | VXxh128 h => VXxh128 (hb_update (xxh3_128_crate 0) h data)
  end.

Definition for_algorithm (algorithm : ChecksumAlgorithm) : ChecksumVerifier :=
  match algorithm with
  | CkNone => VNone
  | CkMD4 => VMd4 (hb_new md4_crate)
  | CkMD5 => VMd5 (mkMd5 (hb_new md5_crate) None)
  | CkSHA1 => VSha1 (hb_new sha1_crate)
  | CkXXH64 => VXxh64 (hb_new (xxh64_crate 0))
  | CkXXH3 => VXxh3 (hb_new (xxh3_crate 0))
  | CkXXH128 => VXxh128 (hb_new (xxh3_128_crate 0))
  end.

Definition for_algorithm_seeded (algorithm : ChecksumAlgorithm) (seed protocol : Z) : ChecksumVerifier :=
  let verifier := for_algorithm algorithm in
  match algorithm with
  | CkMD4 => if negb (uses_varint_encoding protocol) then verifier_update verifier (le_bytes 4 seed) else verifier
  | _ => verifier
  end.

(** [new]; [negotiated] is the checksum of the negotiation result. *)
Definition verifier_new (negotiated : option ChecksumAlgorithm) (protocol seed : Z) : ChecksumVerifier :=
  match negotiated with
  | Some checksum => for_algorithm_seeded checksum seed protocol
  | None =>
      if uses_varint_encoding protocol then for_algorithm CkMD5
      else for_algorithm_seeded CkMD4 seed protocol
  end.

Definition is_noop (v : ChecksumVerifier) : bool := match v with VNone => true | _ => false end.

Definition verifier_digest_len (v : ChecksumVerifier) : nat :=
  match v with
  | VNone => 1
  | VMd4 _ | VMd5 _ | VXxh128 _ => 16
  | VSha1 _ => 20
  | VXxh64 _ | VXxh3 _ => 8
  end.

(** The bytes written to the caller's buffer. *)
Definition finalize_into (v : ChecksumVerifier) : list byte :=
  match v with
  | VNone => [x00]
  | VMd4 h => hb_finish md4_crate h
  | VMd5 h => md5_finalize h
  | VSha1 h => hb_finish sha1_crate h
  | VXxh64 h => hb_finish (xxh64_crate 0) h
  | VXxh3 h => hb_finish (xxh3_crate 0) h
  | VXxh128 h => hb_finish (xxh3_128_crate 0) h
  end.

(** ** The digest of a file *)

(** The verifiers that some algorithm, seed and protocol give. *)
Definition initial_verifier (v : ChecksumVerifier) : Prop :=
  ∃ algorithm seed protocol, v = for_algorithm_seeded algorithm seed protocol.

Definition whole_file_digest (v0 : ChecksumVerifier) (data : list byte) : list byte :=
  finalize_into (verifier_update v0 data).

Lemma verifier_new_initial negotiated protocol seed : initial_verifier (verifier_new negotiated protocol seed).
Proof.
  unfold verifier_new. destruct negotiated as [a|]; [by exists a, seed, protocol|].
  destruct (uses_varint_encoding protocol); [by exists CkMD5, seed, protocol|by exists CkMD4, seed, protocol].
Qed.

Section Laws.
Context `{!HashCratesLaws}.

Lemma update_digest_len v chunks :
  verifier_digest_len (foldl verifier_update v chunks) = verifier_digest_len v.
Proof. revert v. induction chunks as [|c cs IH]; intros v; [done|]. cbn [foldl]. rewrite IH. by destruct v. Qed.

Lemma update_noop v chunks : is_noop (foldl verifier_update v chunks) = is_noop v.
Proof. revert v. induction chunks as [|c cs IH]; intros v; [done|]. cbn [foldl]. rewrite IH. by destruct v. Qed.

Lemma finalize_len v : length (finalize_into v) = verifier_digest_len v.
Proof.
  destruct v as [|h|h|h|h|h|h]; cbn [finalize_into verifier_digest_len]; [done|..].
  - apply (proj2 md4_ok).
  - apply (proj2 md5_ok).
  - apply (proj2 sha1_ok).
  - apply (proj2 (xxh64_ok 0)).
  - apply (proj2 (xxh3_ok 0)).
  - apply (proj2 (xxh3_128_ok 0)).
Qed.

(** A hasher started with [prefix] streams. *)
Lemma backend_streams b n prefix chunks : backend_ok b n →
  hb_finish b (foldl (hb_update b) (hb_update b (hb_new b) prefix) chunks)
  = hb_finish b (hb_update b (hb_update b (hb_new b) prefix) (concat chunks)).
Proof.
  intros [Hs _]. pose proof (Hs (prefix :: chunks)) as H1. pose proof (Hs [prefix; concat chunks]) as H2.
  cbn [foldl concat] in H1, H2. rewrite app_nil_r in H2. by rewrite H1, H2.
Qed.

Lemma fold_backend {V} (wrapv : V → ChecksumVerifier) (upd : V → list byte → V) :
  (∀ h d, verifier_update (wrapv h) d = wrapv (upd h d)) →
  ∀ chunks h, foldl verifier_update (wrapv h) chunks = wrapv (foldl upd h chunks).
Proof. intros Hu. induction chunks as [|c cs IH]; intros h; [done|]. cbn [foldl]. by rewrite Hu, IH. Qed.

Lemma fold_md5 chunks h : foldl md5_update h chunks
  = mkMd5 (foldl (hb_update md5_crate) (md5_inner h) chunks) (md5_pending_seed h).
Proof. revert h. induction chunks as [|c cs IH]; intros h; [by destruct h|]. cbn [foldl]. by rewrite IH. Qed.

(** The digest depends only on the bytes. *)
Lemma verifier_streams v chunks : initial_verifier v →
  finalize_into (foldl verifier_update v chunks) = whole_file_digest v (concat chunks).
Proof.
  intros (a & seed & p & ->). unfold whole_file_digest.
  destruct a; cbn [for_algorithm_seeded for_algorithm].
  - induction chunks as [|c cs IH]; [done|]. exact IH.
  - destruct (negb _); cbn [verifier_update]; rewrite (fold_backend VMd4 (hb_update md4_crate)) by done;
      cbn [finalize_into]; [by apply (backend_streams _ 16), md4_ok|apply (proj1 md4_ok)].
  - rewrite (fold_backend VMd5 md5_update) by done. cbn [finalize_into verifier_update]. rewrite fold_md5.
    cbn [md5_inner md5_pending_seed md5_finalize md5_update]. apply (proj1 md5_ok).
  - rewrite (fold_backend VSha1 (hb_update sha1_crate)) by done. apply (proj1 sha1_ok).
  - rewrite (fold_backend VXxh64 (hb_update (xxh64_crate 0))) by done. apply (proj1 (xxh64_ok 0)).
  - rewrite (fold_backend VXxh3 (hb_update (xxh3_crate 0))) by done. apply (proj1 (xxh3_ok 0)).
  - rewrite (fold_backend VXxh128 (hb_update (xxh3_128_crate 0))) by done. apply (proj1 (xxh3_128_ok 0)).
Qed.
End Laws.
End Verifier.
