(* ===== verification/Receiver.v ===== *)
(** * The receiver ([crates/transfer/src/token_reader.rs], [token_buffer.rs],
      [delta_apply/applicator.rs])

    [TokenReader] and [DeltaApplicator]: reading delta tokens from the wire,
    copying blocks from the basis file (in the kernel where that is possible),
    writing the output plainly or sparsely, and checking the whole-file digest at
    the end.  The basis is any [MapStrategy]; the compressed token decoder wraps
    decompression crates and is the class [TokenDecoder].

    The invariant [recv_ok] says which bytes the output stands for.  Every token
    extends them by the literal or the basis block it names, so that accepting a
    file means its digest was the one sent, and discarding a stream reads exactly
    the bytes applying it does. *)

From S2P Require Import Prelude Strong Signature WireDelta MapFile Sparse KernelCopy Verifier.

(** ** Tokens *)

Inductive LiteralData :=
| Pending (len : nat)
| Ready (data : list byte).

Inductive RecvToken :=
| TLiteral (data : LiteralData)
| TBlockRef (block_idx : nat)
| TEnd.

(** [CompressedToken]. *)
Inductive CompressedToken :=
| CLiteral (data : list byte)
| CBlockMatch (idx : Z)
| CEnd.

(** [CompressedTokenDecoder]: [recv_token] and [see_token]. *)
Class TokenDecoder (D : Type) := {
  decoder_recv_token : D → list byte → result io_error (CompressedToken * D * list byte);
  decoder_see_token : D → list byte → result io_error D;
}.

Inductive TokenReader (D : Type) :=
| Plain
| Compressed (decoder : D).
Arguments Plain {D}.
Arguments Compressed {D} decoder.

Definition is_compressed {D} (t : TokenReader D) : bool :=
  match t with Plain => false | Compressed _ => true end.

Section Tokens.
Context {D : Type} `{TokenDecoder D}.

Definition reader_read_token (t : TokenReader D) (reader : list byte)
    : result io_error (RecvToken * TokenReader D * list byte) :=
  match t with
  | Plain =>
      match read_exact 4 reader with
      | Err e => Err e
      | Ok (buf, reader) =>
          let token := i32_from_le buf in
          match (token ?= 0)%Z with
          | Eq => Ok (TEnd, Plain, reader)
          | Gt =>
              match check_literal_token_len token with
              | Err e => Err e
              | Ok _ => Ok (TLiteral (Pending (Z.to_nat token)), Plain, reader)
              end
          | Lt => Ok (TBlockRef (Z.to_nat (- (token + 1))), Plain, reader)
          end
      end
  | Compressed decoder =>
      match decoder_recv_token decoder reader with
      | Err e => Err e
      | Ok (CLiteral data, decoder, reader) => Ok (TLiteral (Ready data), Compressed decoder, reader)
      | Ok (CBlockMatch idx, decoder, reader) => Ok (TBlockRef (Z.to_nat idx), Compressed decoder, reader)
      | Ok (CEnd, decoder, reader) => Ok (TEnd, Compressed decoder, reader)
      end
  end.

Definition reader_see_token (t : TokenReader D) (data : list byte) : result io_error (TokenReader D) :=
  match t with
  | Plain => Ok Plain
  | Compressed decoder =>
      match decoder_see_token decoder data with
      | Ok decoder => Ok (Compressed decoder)
      | Err e => Err e
      end
  end.
End Tokens.

(** ** The literal buffer *)

Record TokenBuffer := mkTokenBuffer { tb_data : list byte; tb_len : nat }.

Definition buffer_resize_for (b : TokenBuffer) (size : nat) : TokenBuffer :=
  mkTokenBuffer
    (if length (tb_data b) <? size then tb_data b ++ replicate (size - length (tb_data b)) x00 else tb_data b)
    size.

Definition buffer_as_slice (b : TokenBuffer) : list byte := take (tb_len b) (tb_data b).

(** [read_exact(as_mut_slice())]. *)
Definition buffer_fill (b : TokenBuffer) (reader : list byte) : result io_error (TokenBuffer * list byte) :=
  match read_exact (tb_len b) reader with
  | Ok (bytes, reader) => Ok (mkTokenBuffer (copy_at 0 bytes (tb_data b)) (tb_len b), reader)
  | Err e => Err e
  end.

(** ** Copies in the kernel *)

Inductive SameFsCache := FsUnresolved | SameFs | DifferentFs.
Inductive ReflinkRangeCache := RlUnresolved | RlSupported | RlDeclined.
Inductive CowPolicy := CowAuto | CowRequired | CowDisabled.

#[export] Instance SameFsCache_eq_dec : EqDecision SameFsCache.
Proof. solve_decision. Defined.
#[export] Instance ReflinkRangeCache_eq_dec : EqDecision ReflinkRangeCache.
Proof. solve_decision. Defined.

Definition REFLINK_BLOCK_ALIGNMENT : nat := 4096.
Definition COPY_BASIS_RANGE_MIN_BYTES : nat := 4 * 1024.
Definition CLONE_FILE_RANGE_MIN_BYTES : nat := 16 * 1024.

Section Copies.
Context `{KernelCalls}.

Definition resolve_same_fs : SameFsCache :=
  match platform with
  | Linux => match files_same_device with Some true => SameFs | _ => DifferentFs end
  | Windows => SameFs
  | OtherPlatform => DifferentFs
  end.

Definition resolve_cache (cache : SameFsCache) : SameFsCache :=
  if decide (cache = FsUnresolved) then resolve_same_fs else cache.

(** The byte count, the cache and the destination's contents. *)
Definition try_copy_basis_range (basis : list byte) (basis_off : nat) (dest : list byte)
    (dest_off bytes_to_copy : nat) (cache : SameFsCache) : result io_error nat * SameFsCache * list byte :=
  let cache := resolve_cache cache in
  if decide (cache = DifferentFs) then (Ok 0, cache, dest)
  else
    let '(r, dest) := copy_basis_range basis basis_off dest dest_off bytes_to_copy in
    (r, cache, dest).

Definition try_clone_basis_range (basis : list byte) (basis_off : nat) (dest : list byte)
    (dest_off bytes_to_copy : nat) (cow_policy : CowPolicy) (cache : ReflinkRangeCache) (same_fs : SameFsCache)
    : result io_error bool * ReflinkRangeCache * SameFsCache * list byte :=
  match cow_policy with
  | CowDisabled => (Ok false, cache, same_fs, dest)
  | _ =>
      if decide (cache = RlDeclined) then (Ok false, cache, same_fs, dest)
      else if bytes_to_copy <? CLONE_FILE_RANGE_MIN_BYTES then (Ok false, cache, same_fs, dest)
      else if negb (basis_off mod REFLINK_BLOCK_ALIGNMENT =? 0)
              || negb (dest_off mod REFLINK_BLOCK_ALIGNMENT =? 0)
              || negb (bytes_to_copy mod REFLINK_BLOCK_ALIGNMENT =? 0)
      then (Ok false, cache, same_fs, dest)
      else
        let same_fs := resolve_cache same_fs in
        if decide (same_fs = DifferentFs) then (Ok false, cache, same_fs, dest)
        else
          match try_clone_file_range basis basis_off dest dest_off bytes_to_copy with
          | (Err e, dest) => (Err e, cache, same_fs, dest)
          | (Ok cloned, dest) => (Ok cloned, if cloned then RlSupported else RlDeclined, same_fs, dest)
          end
  end.
End Copies.

(** ** The applicator *)

Record DeltaApplyResult := mkApplyResult {
  ar_bytes_written : nat;
  ar_literal_bytes : nat;
  ar_matched_bytes : nat;
  ar_literal_tokens : nat;
  ar_block_tokens : nat;
  ar_final_pos : option nat;
}.

Section Applicator.
Context `{HashCrates} `{KernelCalls} `{Fallocate}.
Context {M : Type} `{MapStrategy M}.
Context {D : Type} `{TokenDecoder D}.

Record DeltaApplicator := mkApplicator {
  da_output : file;
  da_sparse_state : option SparseWriteState;
  da_checksum_verifier : ChecksumVerifier;
  da_basis_signature : option FileSignature;
  da_basis_map : option M;
  da_token_buffer : TokenBuffer;
  da_same_fs : SameFsCache;
  da_reflink_range : ReflinkRangeCache;
  da_cow_policy : CowPolicy;
  da_stats : DeltaApplyResult;
}.

(** [new], with the basis already mapped by the strategy the writer kind selects. *)
Definition applicator_new (output : file) (sparse : bool) (cow_policy : CowPolicy)
    (checksum_verifier : ChecksumVerifier) (basis_signature : option FileSignature) (basis_map : option M)
    : DeltaApplicator :=
  mkApplicator output (if sparse then Some sparse_new else None) checksum_verifier basis_signature basis_map
    (mkTokenBuffer [] 0) FsUnresolved RlUnresolved cow_policy (mkApplyResult 0 0 0 0 0 None).

(** The digest, the output and its sparse state after writing [data], the part
    the three ways of applying a token share. *)
Definition write_output (v : ChecksumVerifier) (sparse : option SparseWriteState) (output : file)
    (data : list byte) : result io_error (ChecksumVerifier * option SparseWriteState * file) :=
  let v := verifier_update v data in
  match sparse with
  | Some s =>
      match sparse_write s output data with
      | Ok (s, output) => Ok (v, Some s, output)
      | Err e => Err e
      end
  | None => Ok (v, None, file_write output data)
  end.

Definition count_literal (s : DeltaApplyResult) (len : nat) : DeltaApplyResult :=
  mkApplyResult (ar_bytes_written s + len) (ar_literal_bytes s + len) (ar_matched_bytes s)
    (S (ar_literal_tokens s)) (ar_block_tokens s) (ar_final_pos s).

Definition count_block (s : DeltaApplyResult) (len : nat) : DeltaApplyResult :=
  mkApplyResult (ar_bytes_written s + len) (ar_literal_bytes s) (ar_matched_bytes s + len)
    (ar_literal_tokens s) (S (ar_block_tokens s)) (ar_final_pos s).

Definition apply_literal_bytes (da : DeltaApplicator) (data : list byte) : result io_error DeltaApplicator :=
  match write_output (da_checksum_verifier da) (da_sparse_state da) (da_output da) data with
  | Err e => Err e
  | Ok (v, sparse, output) =>
      Ok (mkApplicator output sparse v (da_basis_signature da) (da_basis_map da) (da_token_buffer da)
            (da_same_fs da) (da_reflink_range da) (da_cow_policy da) (count_literal (da_stats da) (length data)))
  end.

Definition with_token_buffer (da : DeltaApplicator) (b : TokenBuffer) : DeltaApplicator :=
  mkApplicator (da_output da) (da_sparse_state da) (da_checksum_verifier da) (da_basis_signature da)
    (da_basis_map da) b (da_same_fs da) (da_reflink_range da) (da_cow_policy da) (da_stats da).

(** Writes the first [len] bytes of the token buffer. *)
Definition apply_literal_from_buffer (da : DeltaApplicator) (len : nat) : result io_error DeltaApplicator :=
  apply_literal_bytes da (take len (buffer_as_slice (da_token_buffer da))).

Definition should_try_kernel_copy (v : ChecksumVerifier) (sparse : option SparseWriteState)
    (bytes_to_copy : nat) : bool :=
  if negb (is_noop v) then false
  else match sparse with Some _ => false | None => COPY_BASIS_RANGE_MIN_BYTES <=? bytes_to_copy end.

(** The length of a block: the remainder for a short last block. *)
Definition block_bytes (layout : SignatureLayout) (block_idx : nat) : nat :=
  let block_len := Z.to_nat (sl_block_length layout) in
  if block_idx =? Z.to_nat (sl_block_count layout) - 1 then
    if (0 <? sl_remainder layout)%Z then Z.to_nat (sl_remainder layout) else block_len
  else block_len.

(** What the kernel copies came to: the whole range is there, or it is left to
    the read and write. *)
Inductive kernel_outcome := KDone | KFall | KFail (e : io_error).

Definition kernel_copy (da : DeltaApplicator) (basis : list byte) (offset bytes_to_copy : nat)
    : kernel_outcome * file * SameFsCache * ReflinkRangeCache :=
  let dest_off := ar_bytes_written (da_stats da) in
  let pos := f_pos (da_output da) in
  let '(cloned, reflink, same_fs, dest) :=
    try_clone_basis_range basis offset (f_data (da_output da)) dest_off bytes_to_copy (da_cow_policy da)
      (da_reflink_range da) (da_same_fs da) in
  match cloned with
  | Err e => (KFail e, mkFile dest pos, same_fs, reflink)
  | Ok true =>
      match file_seek (mkFile dest pos) (dest_off + bytes_to_copy) with
      | Ok output => (KDone, output, same_fs, reflink)
      | Err e => (KFail e, mkFile dest pos, same_fs, reflink)
      end
  | Ok false =>
      let '(dispatched, same_fs, dest) :=
        try_copy_basis_range basis offset dest dest_off bytes_to_copy same_fs in
      match dispatched with
      | Err e => (KFail e, mkFile dest pos, same_fs, reflink)
      | Ok n =>
          if n =? bytes_to_copy then
            match file_seek (mkFile dest pos) (dest_off + n) with
            | Ok output => (KDone, output, same_fs, reflink)
            | Err e => (KFail e, mkFile dest pos, same_fs, reflink)
            end
          else (KFall, mkFile dest pos, same_fs, reflink)
      end
  end.

Definition apply_block_ref (da : DeltaApplicator) (block_idx : nat) : result io_error DeltaApplicator :=
  match da_basis_signature da, da_basis_map da with
  | Some signature, Some basis_map =>
      let layout := fs_layout signature in
      if Z.to_nat (sl_block_count layout) <=? block_idx then Err InvalidData
      else
        let offset := block_idx * Z.to_nat (sl_block_length layout) in
        let bytes_to_copy := block_bytes layout block_idx in
        let '(k, output, same_fs, reflink) :=
          if should_try_kernel_copy (da_checksum_verifier da) (da_sparse_state da) bytes_to_copy then
            match buffered_file basis_map with
            | Some basis => kernel_copy da basis offset bytes_to_copy
            | None => (KFall, da_output da, da_same_fs da, da_reflink_range da)
            end
          else (KFall, da_output da, da_same_fs da, da_reflink_range da) in
        let done_ v sparse output basis_map :=
          Ok (mkApplicator output sparse v (Some signature) (Some basis_map) (da_token_buffer da) same_fs reflink
                (da_cow_policy da) (count_block (da_stats da) bytes_to_copy)) in
        match k with
        | KFail e => Err e
        | KDone => done_ (da_checksum_verifier da) (da_sparse_state da) output basis_map
        | KFall =>
            match map_ptr basis_map offset bytes_to_copy with
            | (Err e, _) => Err e
            | (Ok block_data, basis_map) =>
                match write_output (da_checksum_verifier da) (da_sparse_state da) output block_data with
                | Err e => Err e
                | Ok (v, sparse, output) => done_ v sparse output basis_map
                end
            end
        end
  | _, _ => Err InvalidData
  end.

Definition feed_see_token (da : DeltaApplicator) (block_idx : nat) (t : TokenReader D)
    : result io_error (DeltaApplicator * TokenReader D) :=
  match da_basis_signature da, da_basis_map da with
  | Some signature, Some basis_map =>
      let layout := fs_layout signature in
      let offset := block_idx * Z.to_nat (sl_block_length layout) in
      match map_ptr basis_map offset (block_bytes layout block_idx) with
      | (Err e, _) => Err e
      | (Ok block_data, basis_map) =>
          match reader_see_token t block_data with
          | Err e => Err e
          | Ok t =>
              Ok (mkApplicator (da_output da) (da_sparse_state da) (da_checksum_verifier da)
                    (da_basis_signature da) (Some basis_map) (da_token_buffer da) (da_same_fs da)
                    (da_reflink_range da) (da_cow_policy da) (da_stats da), t)
          end
      end
  | _, _ => Err InvalidData
  end.

(** [true] when more tokens are expected. *)
Definition recv_apply_token (da : DeltaApplicator) (reader : list byte) (t : TokenReader D)
    : result io_error (bool * DeltaApplicator * list byte * TokenReader D) :=
  match reader_read_token t reader with
  | Err e => Err e
  | Ok (TEnd, t, reader) => Ok (false, da, reader, t)
  | Ok (TLiteral (Ready data), t, reader) =>
      match apply_literal_bytes da data with
      | Ok da => Ok (true, da, reader, t)
      | Err e => Err e
      end
  | Ok (TLiteral (Pending len), t, reader) =>
      match buffer_fill (buffer_resize_for (da_token_buffer da) len) reader with
      | Err e => Err e
      | Ok (b, reader) =>
          match apply_literal_from_buffer (with_token_buffer da b) (tb_len b) with
          | Ok da => Ok (true, da, reader, t)
          | Err e => Err e
          end
      end
  | Ok (TBlockRef block_idx, t, reader) =>
      match apply_block_ref da block_idx with
      | Err e => Err e
      | Ok da =>
          if is_compressed t then
            match feed_see_token da block_idx t with
            | Ok (da, t) => Ok (true, da, reader, t)
            | Err e => Err e
            end
          else Ok (true, da, reader, t)
      end
  end.

(** [while applicator.apply_token(..)? {}]; [None] when [fuel] tokens were not
    enough.  A plain token takes at least four bytes. *)
Fixpoint apply_delta_stream (fuel : nat) (da : DeltaApplicator) (reader : list byte) (t : TokenReader D)
    : option (result io_error (DeltaApplicator * list byte * TokenReader D)) :=
  match fuel with
  | O => None
  | S fuel' =>
      match recv_apply_token da reader t with
      | Err e => Some (Err e)
      | Ok (false, da, reader, t) => Some (Ok (da, reader, t))
      | Ok (true, da, reader, t) => apply_delta_stream fuel' da reader t
      end
  end.

(** The output, the statistics and the reader after the digest. *)
Definition applicator_finish (da : DeltaApplicator) (reader : list byte) (expected_size : option nat)
    : result io_error (file * DeltaApplyResult * list byte) :=
  let sized :=
    match da_sparse_state da with
    | None => Ok (da_output da, da_stats da)
    | Some s =>
        match sparse_end s (da_output da) with
        | Err e => Err e
        | Ok (final_pos, output) =>
            let st := da_stats da in
            let stats :=
              mkApplyResult (ar_bytes_written st) (ar_literal_bytes st) (ar_matched_bytes st)
                (ar_literal_tokens st) (ar_block_tokens st) (Some final_pos) in
            match expected_size with
            | Some expected => if negb (final_pos =? expected) then Err InvalidData else Ok (output, stats)
            | None => Ok (output, stats)
            end
        end
    end in
  match sized with
  | Err e => Err e
  | Ok (output, stats) =>
      match read_exact (verifier_digest_len (da_checksum_verifier da)) reader with
      | Err e => Err e
      | Ok (expected, reader) =>
          let computed := finalize_into (da_checksum_verifier da) in
          if decide (computed = expected) then Ok (output, stats, reader) else Err InvalidData
      end
  end.

(** Reading a delta without applying it. *)
Fixpoint discard_tokens (fuel : nat) (reader : list byte) (t : TokenReader D)
    : option (result io_error (list byte * TokenReader D)) :=
  match fuel with
  | O => None
  | S fuel' =>
      match reader_read_token t reader with
      | Err e => Some (Err e)
      | Ok (TEnd, t, reader) => Some (Ok (reader, t))
      | Ok (TLiteral (Ready _), t, reader) => discard_tokens fuel' reader t
      | Ok (TLiteral (Pending len), t, reader) =>
          match read_exact len reader with
          | Err e => Some (Err e)
          | Ok (_, reader) => discard_tokens fuel' reader t
          end
      | Ok (TBlockRef _, t, reader) => discard_tokens fuel' reader t
      end
  end.

Definition discard_delta_stream (fuel : nat) (reader : list byte) (t : TokenReader D) (checksum_len : nat)
    : option (result io_error (list byte)) :=
  match discard_tokens fuel reader t with
  | None => None
  | Some (Err e) => Some (Err e)
  | Some (Ok (reader, _)) =>
      match read_exact checksum_len reader with
      | Err e => Some (Err e)
      | Ok (_, reader) => Some (Ok reader)
      end
  end.
End Applicator.

(** ** Blocks and buffers *)

Lemma read_exact_length n s bytes s' : read_exact n s = Ok (bytes, s') → length bytes = n ∧ s = bytes ++ s'.
Proof.
  unfold read_exact. case_decide; [|done]. intros [= <- <-]. rewrite length_take, take_drop. split; [lia|done].
Qed.

(** Filling the buffer reads exactly the literal, whatever it held. *)
Lemma buffer_fill_spec b len reader :
  match read_exact len reader with
  | Ok (bytes, reader') =>
      ∃ b', buffer_fill (buffer_resize_for b len) reader = Ok (b', reader') ∧ tb_len b' = len ∧
        buffer_as_slice b' = bytes
  | Err e => buffer_fill (buffer_resize_for b len) reader = Err e
  end.
Proof.
  unfold buffer_fill. cbn [buffer_resize_for tb_len].
  destruct (read_exact len reader) as [[bytes reader']|e] eqn:E; [|done].
  apply read_exact_length in E as [Hl _]. eexists. split; [done|]. split; [done|].
  unfold buffer_as_slice, copy_at. cbn [tb_len tb_data]. rewrite take_0. cbn [app].
  by rewrite take_app_length'.
Qed.

Section Blocks.
Context (layout : SignatureLayout) (basis : list byte).
Context (Hlayout : layout_of layout (Z.of_nat (length basis))).
Local Notation bl := (Z.to_nat (sl_block_length layout)).

(** The range the receiver copies for a block is the block of the layout. *)
Lemma block_bytes_chunk i : i < Z.to_nat (sl_block_count layout) →
  0 < block_bytes layout i ≤ bl ∧ i * bl + block_bytes layout i ≤ length basis ∧
  take (block_bytes layout i) (drop (i * bl) basis) = layout_chunk layout basis i.
Proof.
  intros Hi. destruct Hlayout as [Hb Hr Hc _ Hre Hce]. set (n := Z.of_nat (length basis)) in *.
  set (b := sl_block_length layout) in *. set (r := sl_remainder layout) in *.
  set (c := sl_block_count layout) in *.
  pose proof (Z.div_mod n b ltac:(lia)) as Hdm. rewrite <- Hre in Hdm.
  assert ((r = 0 ∧ c * b = n) ∨ (0 < r ∧ (c - 1) * b + r = n))%Z as Hn.
  { rewrite ceil_div in Hce by lia. rewrite <- Hre in Hce.
    destruct (Z.eqb_spec r 0); [left|right]; nia. }
  assert (Z.of_nat (block_bytes layout i)
          = if (Z.of_nat i =? c - 1)%Z then if (0 <? r)%Z then r else b else b) as Hbb.
  { unfold block_bytes. fold b r c. destruct (Nat.eqb_spec i (Z.to_nat c - 1)), (Z.eqb_spec (Z.of_nat i) (c - 1));
      [|lia|lia|lia]. destruct (0 <? r)%Z; lia. }
  assert (0 < block_bytes layout i ≤ Z.to_nat b ∧ i * Z.to_nat b + block_bytes layout i ≤ length basis) as [Hle Hin].
  { destruct (Z.eqb_spec (Z.of_nat i) (c - 1)); [destruct (Z.ltb_spec 0 r)|];
      destruct Hn as [[? ?]|[? ?]]; nia. }
  split_and!; [lia|lia|done|]. unfold layout_chunk. fold b.
  assert (block_bytes layout i = Z.to_nat b ∨ length basis = i * Z.to_nat b + block_bytes layout i) as Hlast.
  { destruct (Z.eqb_spec (Z.of_nat i) (c - 1)); [destruct (Z.ltb_spec 0 r)|];
      destruct Hn as [[? ?]|[? ?]]; [lia|right; nia|lia|lia|lia|lia]. }
  destruct (Nat.eq_dec (block_bytes layout i) (Z.to_nat b)) as [->|Hne]; [done|].
  rewrite !take_ge; [done|rewrite length_drop; lia|rewrite length_drop; lia].
Qed.
End Blocks.

(** Writing over a part that was already copied. *)
Lemma file_write_over w part data : length part ≤ length data → data ≠ [] →
  file_write (mkFile (w ++ part) (length w)) data = mkFile (w ++ data) (length (w ++ data)).
Proof.
  intros Hl Hne. destruct data as [|b data]; [done|]. cbn [file_write f_pos f_data].
  unfold pad_to, copy_at. rewrite length_app.
  replace (length w - (length w + length part)) with 0 by lia. cbn [replicate].
  rewrite app_nil_r, take_app_length, drop_ge, app_nil_r, length_app by (rewrite length_app; simpl in *; lia). done.
Qed.

(** ** The invariant *)

(** The clone is attempted, or the destination is left alone. *)
Lemma try_clone_cases `{KernelCalls} basis off dest dest_off n policy cache fs r cache' fs' dest' :
  try_clone_basis_range basis off dest dest_off n policy cache fs = (r, cache', fs', dest') →
  (r = Ok false ∧ dest' = dest) ∨ try_clone_file_range basis off dest dest_off n = (r, dest').
Proof. unfold try_clone_basis_range. repeat case_match; intros; simplify_eq; auto. Qed.

Lemma try_copy_cases `{KernelCalls} basis off dest dest_off n fs r fs' dest' :
  try_copy_basis_range basis off dest dest_off n fs = (r, fs', dest') →
  (r = Ok 0 ∧ dest' = dest) ∨ copy_basis_range basis off dest dest_off n = (r, dest').
Proof. unfold try_copy_basis_range. repeat case_match; intros; simplify_eq; auto. Qed.

Section Proofs.
Context `{HashCratesLaws} `{KernelCallsLaws} `{FallocateLaws}.
Context {M : Type} `{MapStrategyLaws M} {D : Type} `{TokenDecoder D}.
Context (v0 : ChecksumVerifier) (signature : option FileSignature) (basis : list byte) (limit : nat).

(** The digest and the output stand for [w]. *)
Definition output_ok (w : list byte) (v : ChecksumVerifier) (sparse : option SparseWriteState) (output : file)
    : Prop :=
  (∃ chunks, concat chunks = w ∧ v = foldl verifier_update v0 chunks) ∧
  match sparse with Some s => sparse_ok [] w s output | None => output = mkFile w (length w) end.

Record recv_ok (w : list byte) (da : DeltaApplicator (M:=M)) : Prop := {
  ro_bytes : ar_bytes_written (da_stats da) = length w;
  ro_sum : ar_literal_bytes (da_stats da) + ar_matched_bytes (da_stats da) = length w;
  ro_output : output_ok w (da_checksum_verifier da) (da_sparse_state da) (da_output da);
  ro_signature : da_basis_signature da = signature;
  ro_basis : ∀ m, da_basis_map da = Some m → map_inv basis limit m;
}.

Lemma write_output_ok w v sparse output data : output_ok w v sparse output →
  (Z.of_nat (length w + length data) ≤ i64_max)%Z →
  ∃ v' sparse' output', write_output v sparse output data = Ok (v', sparse', output') ∧
    output_ok (w ++ data) v' sparse' output'.
Proof.
  intros [(chunks & Hc & Hv) Ho] Hb. unfold write_output.
  assert (∃ chunks', concat chunks' = w ++ data ∧ verifier_update v data = foldl verifier_update v0 chunks') as Hv'.
  { exists (chunks ++ [data]). rewrite concat_app, Hc, foldl_app, <- Hv. cbn [concat foldl].
    by rewrite app_nil_r. }
  destruct sparse as [s|].
  - destruct (sparse_write_ok [] w s output data Ho Hb) as (s' & f' & -> & Ho'). by eexists _, _, _.
  - subst output. rewrite file_write_end. by eexists _, _, _.
Qed.

(** A digest that is not computed need not be updated. *)
Lemma output_noop w v output data : output_ok w v None output → is_noop v = true →
  output_ok (w ++ data) v None (mkFile (w ++ data) (length (w ++ data))).
Proof.
  intros [(chunks & Hc & Hv) _] Hn. split; [|done]. exists (chunks ++ [data]).
  rewrite concat_app, Hc, foldl_app, <- Hv. cbn [concat foldl]. rewrite app_nil_r. split; [done|].
  by destruct v.
Qed.

Lemma apply_literal_ok w da data : recv_ok w da → (Z.of_nat (length w + length data) ≤ i64_max)%Z →
  ∃ da', apply_literal_bytes da data = Ok da' ∧ recv_ok (w ++ data) da' ∧
    ar_bytes_written (da_stats da') = length w + length data.
Proof.
  intros [Hby Hsu Ho Hsi Hba] Hb. unfold apply_literal_bytes.
  destruct (write_output_ok w _ _ _ data Ho Hb) as (v & sparse & output & -> & Ho').
  eexists. split; [done|]. cbn [da_stats count_literal ar_bytes_written]. split; [|lia].
  constructor; cbn [da_stats count_literal ar_bytes_written ar_literal_bytes ar_matched_bytes
    da_checksum_verifier da_sparse_state da_output da_basis_signature da_basis_map];
    rewrite ?length_app; [lia|lia|done|done|done].
Qed.

(** The kernel copied everything, or at most a part that is written again. *)
Lemma kernel_copy_ok w da offset n : recv_ok w da → da_sparse_state da = None →
  offset + n ≤ length basis → (Z.of_nat (length basis) < u64_max)%Z → 0 < n →
  (Z.of_nat (length w + n) ≤ i64_max)%Z →
  let block := take n (drop offset basis) in
  let '(k, output, _, _) := kernel_copy da basis offset n in
  match k with
  | KDone => output = mkFile (w ++ block) (length (w ++ block))
  | KFall => file_write output block = mkFile (w ++ block) (length (w ++ block))
  | KFail _ => ¬ kernel_reliable basis
  end.
Proof.
  intros [Hby _ [_ Ho] _ _] Hs Hin Hfit Hn Hb block. rewrite Hs in Ho. unfold kernel_copy. rewrite Ho, Hby. cbn [f_data f_pos].
  assert (length block = n) as Hbl by (unfold block; rewrite length_take, length_drop; lia).
  assert (∀ f p k, p = length w → k = n → file_seek (mkFile f p) (length w + k) = Ok (mkFile f (length (w ++ block)))) as Hseek.
  { intros f p k -> ->. unfold file_seek. rewrite (proj2 (Z.ltb_ge _ _)) by lia. cbn [f_data]. by rewrite length_app, Hbl. }
  destruct (try_clone_basis_range basis offset w (length w) n (da_cow_policy da) (da_reflink_range da)
    (da_same_fs da)) as [[[cloned reflink] same_fs] dest] eqn:Ec.
  assert (match cloned with Err _ => ¬ kernel_reliable basis | Ok true => dest = w ++ block | Ok false => dest = w end) as Hc.
  { apply try_clone_cases in Ec as [[-> ->]|E]; [done|]. destruct cloned as [[|]|e].
    - by rewrite (clone_effect _ _ _ _ _ _ _ Hin E), put_at_end.
    - by rewrite (clone_effect _ _ _ _ _ _ _ Hin E).
    - intros Hk. by destruct (Hk offset w (length w) n e dest Hin Hb). }
  destruct cloned as [[|]|e]; [subst dest; by rewrite Hseek| |done]. subst dest.
  destruct (try_copy_basis_range basis offset w (length w) n same_fs) as [[dispatched same_fs'] dest] eqn:Ed.
  assert (match dispatched with
          | Err _ => ¬ kernel_reliable basis
          | Ok k => k ≤ n ∧ dest = w ++ take k (drop offset basis) end) as Hd.
  { apply try_copy_cases in Ed as [[-> ->]|E]; [by rewrite take_0, app_nil_r; split; [lia|]|].
    destruct dispatched as [k|e].
    - unfold u64_max, i64_max in *. apply copy_effect in E as [? ->]; [|lia..]. by rewrite put_at_end.
    - intros Hk. by destruct (Hk offset w (length w) n e dest Hin Hb). }
  destruct dispatched as [k|e]; [|done]. destruct Hd as [Hk ->].
  destruct (Nat.eqb_spec k n) as [->|Hne]; [by rewrite Hseek|].
  apply file_write_over; [rewrite length_take; lia|]. intros E. rewrite E in Hbl. simpl in Hbl. lia.
Qed.

Context (Hsig : ∀ sig, signature = Some sig → layout_of (fs_layout sig) (Z.of_nat (length basis)) ∧
  Z.to_nat (sl_block_length (fs_layout sig)) ≤ limit).

(** The output after a block, whichever way it was copied. *)
Lemma block_output_ok w da m idx n :
  recv_ok w da → da_basis_map da = Some m → 0 < n → n ≤ limit → idx + n ≤ length basis →
  (Z.of_nat (length w + n) ≤ i64_max)%Z →
  let block := take n (drop idx basis) in
  let '(k, output, _, _) :=
    if should_try_kernel_copy (da_checksum_verifier da) (da_sparse_state da) n then
      match buffered_file m with
      | Some f => kernel_copy da f idx n
      | None => (KFall, da_output da, da_same_fs da, da_reflink_range da)
      end
    else (KFall, da_output da, da_same_fs da, da_reflink_range da) in
  match k with
  | KDone => output_ok (w ++ block) (da_checksum_verifier da) (da_sparse_state da) output
  | KFall => ∃ v s o, write_output (da_checksum_verifier da) (da_sparse_state da) output block = Ok (v, s, o) ∧
      output_ok (w ++ block) v s o
  | KFail _ => is_noop v0 = true ∧ ¬ kernel_reliable basis
  end.
Proof.
  intros Hok Hm Hn Hlim Hin Hb block. destruct (Hok) as [Hby _ Ho _ Hba]. specialize (Hba m Hm).
  assert (length block = n) as Hbl by (unfold block; rewrite length_take, length_drop; lia).
  assert (∃ v s o, write_output (da_checksum_verifier da) (da_sparse_state da) (da_output da) block = Ok (v, s, o) ∧
      output_ok (w ++ block) v s o) as Hplain by (apply write_output_ok; [done|lia]).
  destruct (should_try_kernel_copy _ _ _) eqn:Et; [|done].
  destruct (buffered_file m) as [f|] eqn:Ef; [|done].
  apply (buffered_file_spec basis limit m f Hba) in Ef as ->.
  unfold should_try_kernel_copy in Et. destruct (is_noop (da_checksum_verifier da)) eqn:Eno; [|done].
  destruct (da_sparse_state da) eqn:Es; [done|].
  pose proof (kernel_copy_ok w da idx n Hok Es Hin (map_fits basis limit m Hba) Hn Hb) as Hk. cbv zeta in Hk. fold block in Hk.
  destruct (kernel_copy da basis idx n) as [[[k output] fs] rl].
  destruct k; [|clear Hplain|split; [|done]; destruct Ho as [(chunks & _ & Hv) _]; by rewrite Hv, update_noop in Eno].
  - subst output. by eapply output_noop.
  - unfold write_output. eexists _, _, _. split; [done|]. rewrite Hk.
    replace (verifier_update (da_checksum_verifier da) block) with (da_checksum_verifier da)
      by (by destruct (da_checksum_verifier da)). by eapply output_noop.
Qed.

Lemma apply_block_ref_ok w da sig m idx :
  recv_ok w da → signature = Some sig → da_basis_map da = Some m →
  idx < Z.to_nat (sl_block_count (fs_layout sig)) →
  (Z.of_nat (length w + block_bytes (fs_layout sig) idx) ≤ i64_max)%Z →
  (∃ da', apply_block_ref da idx = Ok da' ∧ recv_ok (w ++ layout_chunk (fs_layout sig) basis idx) da' ∧
     is_Some (da_basis_map da')) ∨
  (∃ e, apply_block_ref da idx = Err e ∧ is_noop v0 = true ∧ ¬ kernel_reliable basis).
Proof.
  intros Hok Hs Hm Hi Hb. destruct (Hsig sig Hs) as [Hl Hlim]. destruct (Hok) as [Hby Hsu Ho Hsi Hba].
  destruct (block_bytes_chunk (fs_layout sig) basis Hl idx Hi) as ((Hn & Hn') & Hin & Ech).
  unfold apply_block_ref. rewrite Hsi, Hs, Hm, (proj2 (Nat.leb_gt _ _)) by done.
  pose proof (block_output_ok w da m (idx * Z.to_nat (sl_block_length (fs_layout sig)))
    (block_bytes (fs_layout sig) idx) Hok Hm Hn ltac:(lia) Hin Hb) as Hk. cbv zeta in Hk. rewrite Ech in Hk.
  match type of Hk with context [let '_ := ?x in _] => destruct x as [[[k output] fs] rl] end.
  assert (length (layout_chunk (fs_layout sig) basis idx) = block_bytes (fs_layout sig) idx) as Hlen
    by (rewrite <- Ech, length_take, length_drop; lia).
  assert (∀ v s o m' , output_ok (w ++ layout_chunk (fs_layout sig) basis idx) v s o → map_inv basis limit m' →
    recv_ok (w ++ layout_chunk (fs_layout sig) basis idx)
      (mkApplicator o s v (Some sig) (Some m') (da_token_buffer da) fs rl (da_cow_policy da)
         (count_block (da_stats da) (block_bytes (fs_layout sig) idx)))) as Hdone.
  { intros v s o m' Hout Hm'. constructor; cbn [da_stats count_block ar_bytes_written ar_literal_bytes
      ar_matched_bytes da_checksum_verifier da_sparse_state da_output da_basis_signature da_basis_map];
      rewrite ?length_app, ?Hlen; [lia|lia|done|done|]. by intros ? [= <-]. }
  destruct k as [| |e].
  - left. eexists. split; [done|]. split; [by apply Hdone, Hba|by eexists].
  - destruct Hk as (v & s & o & Hw & Hout).
    destruct (map_ptr_spec basis limit m (idx * Z.to_nat (sl_block_length (fs_layout sig)))
      (block_bytes (fs_layout sig) idx) (Hba m Hm)) as (m' & -> & Hm'); [lia|].
    unfold slice_request. rewrite decide_False, decide_True, Ech, Hw by lia.
    left. eexists. split; [done|]. split; [by apply Hdone|by eexists].
  - right. by exists e.
Qed.

Lemma feed_see_token_ok w da idx (t t' : TokenReader D) da' : recv_ok w da →
  (∀ sig, signature = Some sig → idx < Z.to_nat (sl_block_count (fs_layout sig))) →
  feed_see_token da idx t = Ok (da', t') → recv_ok w da' ∧ da_stats da' = da_stats da.
Proof.
  intros Hok Hi. destruct (Hok) as [Hby Hsu Ho Hsi Hba]. unfold feed_see_token.
  destruct (da_basis_signature da) as [sig|] eqn:Es; [|done]. destruct (da_basis_map da) as [m|] eqn:Em; [|done].
  destruct (Hsig sig (eq_sym Hsi)) as [Hl Hlim].
  destruct (block_bytes_chunk (fs_layout sig) basis Hl idx (Hi sig (eq_sym Hsi))) as ((Hn & Hn') & _).
  destruct (map_ptr_spec basis limit m (idx * Z.to_nat (sl_block_length (fs_layout sig)))
      (block_bytes (fs_layout sig) idx) (Hba m eq_refl)) as (m' & -> & Hm'); [lia|].
  destruct (slice_request _ _ _) as [data|e]; [|done]. destruct (reader_see_token t data) as [t1|e]; [|done].
  intros [= <- <-]. split; [|done]. constructor; cbn [da_stats da_checksum_verifier da_sparse_state da_output
    da_basis_signature da_basis_map]; [done|done|done|congruence|]. by intros ? [= <-].
Qed.

(** ** Every accepted token extends the output *)

Lemma apply_literal_counts (da da' : DeltaApplicator (M:=M)) data : apply_literal_bytes da data = Ok da' →
  ar_bytes_written (da_stats da') = ar_bytes_written (da_stats da) + length data.
Proof. unfold apply_literal_bytes. repeat case_match; intros; simplify_eq; done. Qed.

Lemma apply_block_ref_counts (da da' : DeltaApplicator (M:=M)) idx : apply_block_ref da idx = Ok da' →
  ∃ sig m, da_basis_signature da = Some sig ∧ da_basis_map da = Some m ∧
    idx < Z.to_nat (sl_block_count (fs_layout sig)) ∧
    ar_bytes_written (da_stats da') = ar_bytes_written (da_stats da) + block_bytes (fs_layout sig) idx.
Proof.
  unfold apply_block_ref. destruct (da_basis_signature da) as [sig|]; [|done].
  destruct (da_basis_map da) as [m|]; [|done]. case_match eqn:E; [done|]. apply Nat.leb_gt in E.
  intros Hap. exists sig, m. split_and!; [done|done|done|]. revert Hap. clear.
  match goal with |- context [let '_ := ?x in _] => destruct x as [[[k output] fs] rl] end.
  repeat case_match; intros; simplify_eq; done.
Qed.

Lemma apply_block_ref_inv w da da' idx : recv_ok w da → apply_block_ref da idx = Ok da' →
  (Z.of_nat (ar_bytes_written (da_stats da')) ≤ i64_max)%Z →
  (∀ sig, signature = Some sig → idx < Z.to_nat (sl_block_count (fs_layout sig))) ∧ ∃ w', recv_ok w' da'.
Proof.
  intros Hok Hap Hb. destruct (apply_block_ref_counts da da' idx Hap) as (sig & m & Hs & Hm & Hi & Hc).
  destruct (Hok) as [Hby _ _ Hsi _]. rewrite Hsi in Hs. split; [by intros ? E; rewrite Hs in E; injection E as <-|].
  destruct (apply_block_ref_ok w da sig m idx Hok Hs Hm Hi) as [(da1 & E & Hok' & _)|(e & E & _)];
    [lia| |congruence]. exists (w ++ layout_chunk (fs_layout sig) basis idx). congruence.
Qed.

Lemma recv_token_mono (da da' : DeltaApplicator (M:=M)) reader reader' (t t' : TokenReader D) more :
  recv_apply_token da reader t = Ok (more, da', reader', t') →
  ar_bytes_written (da_stats da) ≤ ar_bytes_written (da_stats da').
Proof.
  unfold recv_apply_token, apply_literal_from_buffer.
  destruct (reader_read_token t reader) as [[[[[len|data]|idx|] t1] r1]|e]; [| | | |done].
  - destruct (buffer_fill _ _) as [[b r2]|e]; [|done].
    destruct (apply_literal_bytes _ _) as [da1|e] eqn:E; [|done]. intros; simplify_eq.
    apply apply_literal_counts in E. cbn [da_stats with_token_buffer] in E. lia.
  - destruct (apply_literal_bytes _ _) as [da1|e] eqn:E; [|done]. intros; simplify_eq.
    apply apply_literal_counts in E. lia.
  - destruct (apply_block_ref da idx) as [da1|e] eqn:E; [|done].
    destruct (apply_block_ref_counts _ _ _ E) as (sig & m & _ & _ & _ & Hc).
    destruct (is_compressed t1); [|intros; simplify_eq; lia].
    destruct (feed_see_token da1 idx t1) as [[da2 t2]|e] eqn:Ef; [|done]. intros; simplify_eq.
    revert Ef. unfold feed_see_token. repeat case_match; intros; simplify_eq; cbn [da_stats]; lia.
  - intros; simplify_eq. lia.
Qed.

Lemma with_token_buffer_ok w da b : recv_ok w da → recv_ok w (with_token_buffer da b).
Proof. by intros []. Qed.

Lemma recv_token_inv w da da' reader reader' (t t' : TokenReader D) more : recv_ok w da →
  recv_apply_token da reader t = Ok (more, da', reader', t') →
  (Z.of_nat (ar_bytes_written (da_stats da')) ≤ i64_max)%Z → ∃ w', recv_ok w' da'.
Proof.
  intros Hok Hst Hb. pose proof (ro_bytes _ _ Hok) as Hby.
  assert (∀ da1 da2 data, recv_ok w da1 → apply_literal_bytes da1 data = Ok da2 →
    (Z.of_nat (ar_bytes_written (da_stats da2)) ≤ i64_max)%Z → recv_ok (w ++ data) da2) as Hlit.
  { intros da1 da2 data Hok1 E Hb2. pose proof (apply_literal_counts _ _ _ E) as Hc.
    rewrite (ro_bytes _ _ Hok1) in Hc.
    destruct (apply_literal_ok w da1 data Hok1) as (da3 & E3 & Hok3 & _); [lia|]. congruence. }
  revert Hst. unfold recv_apply_token, apply_literal_from_buffer.
  destruct (reader_read_token t reader) as [[[[[len|data]|idx|] t1] r1]|e]; [| | | |done].
  - destruct (buffer_fill _ _) as [[b r2]|e]; [|done].
    destruct (apply_literal_bytes _ _) as [da1|e] eqn:E; [|done]. intros; simplify_eq.
    eexists. eapply Hlit; [by apply with_token_buffer_ok|done|done].
  - destruct (apply_literal_bytes _ _) as [da1|e] eqn:E; [|done]. intros; simplify_eq.
    eexists. by eapply Hlit.
  - destruct (apply_block_ref da idx) as [da1|e] eqn:E; [|done].
    destruct (is_compressed t1).
    + destruct (feed_see_token da1 idx t1) as [[da2 t2]|e] eqn:Ef; [|done]. intros; simplify_eq.
      assert (da_stats da' = da_stats da1) as Hst.
      { revert Ef. unfold feed_see_token. repeat case_match; intros; simplify_eq; done. }
      destruct (apply_block_ref_inv w da da1 idx Hok E) as (Hi & w' & Hok'); [by rewrite <- Hst|].
      exists w'. by eapply feed_see_token_ok.
    + intros; simplify_eq. by eapply apply_block_ref_inv.
  - intros; simplify_eq. by exists w.
Qed.

Lemma recv_stream_mono fuel : ∀ (da da' : DeltaApplicator (M:=M)) reader reader' (t t' : TokenReader D),
  apply_delta_stream fuel da reader t = Some (Ok (da', reader', t')) →
  ar_bytes_written (da_stats da) ≤ ar_bytes_written (da_stats da').
Proof.
  induction fuel as [|fuel IH]; intros da da' reader reader' t t' Hs; [done|]. cbn [apply_delta_stream] in Hs.
  destruct (recv_apply_token da reader t) as [[[[more da1] r1] t1]|e] eqn:E; [|done].
  apply recv_token_mono in E. destruct more; [|by simplify_eq]. apply IH in Hs. lia.
Qed.

Lemma recv_stream_inv fuel : ∀ w da da' reader reader' (t t' : TokenReader D), recv_ok w da →
  apply_delta_stream fuel da reader t = Some (Ok (da', reader', t')) →
  (Z.of_nat (ar_bytes_written (da_stats da')) ≤ i64_max)%Z → ∃ w', recv_ok w' da'.
Proof.
  induction fuel as [|fuel IH]; intros w da da' reader reader' t t' Hok Hs Hb; [done|].
  cbn [apply_delta_stream] in Hs.
  destruct (recv_apply_token da reader t) as [[[[more da1] r1] t1]|e] eqn:E; [|done].
  assert (ar_bytes_written (da_stats da1) ≤ ar_bytes_written (da_stats da')).
  { destruct more; [by eapply recv_stream_mono|by simplify_eq]. }
  destruct (recv_token_inv w da da1 reader r1 t t1 more Hok E) as [w1 Hok1]; [lia|].
  destruct more; [by eapply IH|]. simplify_eq. by exists w1.
Qed.

(** ** The end of a file *)

Definition size_mismatch (da : DeltaApplicator (M:=M)) (len : nat) (expected_size : option nat) : bool :=
  match da_sparse_state da, expected_size with Some _, Some e => negb (len =? e) | _, _ => false end.

(** Finishing materialises the bytes and compares their digest with the one sent. *)
Lemma finish_spec w da reader expected_size : initial_verifier v0 → recv_ok w da →
  (Z.of_nat (length w) ≤ i64_max)%Z →
  ∃ f stats, f_data f = w ∧ ar_bytes_written stats = length w ∧
    ar_literal_bytes stats + ar_matched_bytes stats = length w ∧
    applicator_finish da reader expected_size
    = if size_mismatch da (length w) expected_size then Err InvalidData
      else match read_exact (verifier_digest_len v0) reader with
           | Err e => Err e
           | Ok (expected, rest) =>
               if decide (whole_file_digest v0 w = expected) then Ok (f, stats, rest) else Err InvalidData
           end.
Proof.
  intros Hv [Hby Hsu [(chunks & Hc & Hvf) Ho] _ _] Hb. unfold applicator_finish, size_mismatch.
  rewrite Hvf, verifier_streams, Hc, update_digest_len by done.
  destruct (da_sparse_state da) as [s|].
  - destruct (sparse_end_ok [] w s _ Ho Hb) as (f & -> & Hf). eexists f, _.
    split; [done|]. split; [|split; [|by destruct expected_size as [e|]; [destruct (negb _)|]]]; done.
  - exists (da_output da), (da_stats da). rewrite Ho. done.
Qed.
End Proofs.

(** A fresh applicator stands for the empty file. *)
Lemma recv_start `{HashCrates} `{MapStrategyLaws M} v0 sparse cow signature (m : option M) basis limit :
  (∀ m', m = Some m' → map_inv basis limit m') →
  recv_ok v0 signature basis limit [] (applicator_new (mkFile [] 0) sparse cow v0 signature m).
Proof.
  intros Hm. constructor; cbn [applicator_new da_stats ar_bytes_written ar_literal_bytes ar_matched_bytes
    da_checksum_verifier da_sparse_state da_output da_basis_signature da_basis_map length]; [done|done| |done|done].
  split; [by exists []|]. destruct sparse; [|done]. exact (sparse_start [] 0 (le_n 0)).
Qed.

(** C2: no file is accepted whose digest is not the one sent.  Take any stream of
    bytes, plain or compressed framing, any basis and any writer options.  When
    the receiver applies the stream and finishes without an error, the bytes
    after the tokens start with the whole-file digest of exactly the contents of
    the output file, and the statistics account for each of its bytes. *)
Theorem receiver_integrity `{HashCratesLaws} `{KernelCallsLaws} `{FallocateLaws} `{MapStrategyLaws M}
    `{TokenDecoder D} (v0 : ChecksumVerifier) (signature : FileSignature) (basis : list byte) (m : M)
    (limit fuel : nat) (sparse : bool) (cow : CowPolicy) (stream reader rest : list byte) (t t' : TokenReader D)
    (da : DeltaApplicator) (f : file) (stats : DeltaApplyResult) (expected_size : option nat) :
  initial_verifier v0 → layout_of (fs_layout signature) (Z.of_nat (length basis)) →
  Z.to_nat (sl_block_length (fs_layout signature)) ≤ limit → map_inv basis limit m →
  apply_delta_stream fuel (applicator_new (mkFile [] 0) sparse cow v0 (Some signature) (Some m)) stream t
  = Some (Ok (da, reader, t')) →
  applicator_finish da reader expected_size = Ok (f, stats, rest) →
  (Z.of_nat (ar_bytes_written (da_stats da)) ≤ i64_max)%Z →
  reader = whole_file_digest v0 (f_data f) ++ rest ∧
  ar_bytes_written stats = length (f_data f) ∧
  ar_literal_bytes stats + ar_matched_bytes stats = length (f_data f).
Proof.
  intros Hv Hl Hlim Hm Hs Hfin Hb.
  assert (∃ w, recv_ok v0 (Some signature) basis limit w da) as [w Hok].
  { eapply recv_stream_inv; [by intros ? [= <-]| |exact Hs|done].
    apply recv_start. by intros ? [= <-]. }
  rewrite (ro_bytes _ _ _ _ _ _ Hok) in Hb.
  destruct (finish_spec v0 (Some signature) basis limit w da reader expected_size Hv Hok Hb)
    as (f' & stats' & Hf & Hby & Hsu & E). rewrite Hfin in E.
  destruct (size_mismatch _ _ _); [done|].
  destruct (read_exact _ reader) as [[expected r]|e] eqn:Er; [|done].
  case_decide as Hd; [|done]. injection E as -> -> ->. rewrite Hf. split; [|done].
  apply read_exact_length in Er as [_ ->]. by rewrite Hd.
Qed.

(** ** A concrete environment *)

(** No [fallocate], and no compression. *)
#[export] Instance portable_fallocate : Fallocate := {| fallocate _ _ _ _ := None |}.

#[export] Instance portable_fallocate_ok : FallocateLaws.
Proof. by constructor. Defined.

#[export] Instance no_decoder : TokenDecoder unit := {|
  decoder_recv_token _ _ := Err OtherError;
  decoder_see_token _ _ := Err OtherError;
|}.

Definition recv_demo_basis : list byte := [x61; x62; x63; x64; x65].
Definition recv_demo_signature : FileSignature := mkSignature (mkLayout 2 1 3 2) [] 5.
Definition recv_demo_verifier : ChecksumVerifier (H := toy_crates) :=
  @for_algorithm_seeded toy_crates CkMD5 0 31.
Definition recv_demo_stream : list byte :=
  write_token_stream [WLiteral [x7a]; WCopy 2 1; WCopy 0 2]
    ++ @whole_file_digest toy_crates recv_demo_verifier [x7a; x65; x61; x62] ++ [x2a].

Lemma recv_demo_layout : layout_of (fs_layout recv_demo_signature) (Z.of_nat (length recv_demo_basis)).
Proof. split; simpl; unfold i32_max; try lia; reflexivity. Qed.

(** A mapper with a window of 2 KiB. *)
Definition recv_demo_mapper : BufferedMap := from_file_with_window recv_demo_basis 2048.

Lemma recv_demo_map : map_inv recv_demo_basis 1025 recv_demo_mapper.
Proof.
  constructor; cbn [recv_demo_mapper from_file_with_window bm_file bm_size bm_buffer bm_window_start
    bm_window_len bm_max_window]; [done|done|unfold u64_max; simpl; lia|lia|lia|done|].
  apply Nat.leb_le. vm_compute. reflexivity.
Qed.

(** The same file in a memory map. *)
Definition recv_demo_mmap : MmapStrategy := mkMmap recv_demo_basis.

Lemma recv_demo_mmap_ok : map_inv recv_demo_basis 1025 recv_demo_mmap.
Proof. split; [done|unfold u64_max; simpl; lia]. Qed.

Notation recv_demo_applicator :=
  (@applicator_new toy_crates MmapStrategy (mkFile [] 0) true CowAuto recv_demo_verifier
     (Some recv_demo_signature) (Some recv_demo_mmap)).

Notation recv_demo_applied := (apply_delta_stream 9 recv_demo_applicator recv_demo_stream (@Plain unit)).

(** The stream is applied and the file finished, with one byte left over. *)
Definition recv_accepted
    (applied : option (result io_error
      (DeltaApplicator (H := toy_crates) (M := MmapStrategy) * list byte * TokenReader unit))) : bool :=
  match applied with
  | Some (Ok (da, reader, _)) =>
      (Z.of_nat (ar_bytes_written (da_stats da)) <=? i64_max)%Z &&
      (verifier_digest_len (da_checksum_verifier da) =? 16) &&
      match applicator_finish da reader (Some 4) with
      | Ok (_, _, rest) => bool_decide (rest = [x2a])
      | Err _ => false
      end
  | _ => false
  end.

Lemma recv_accepted_inv applied : recv_accepted applied = true → ∃ da reader t f stats,
  applied = Some (Ok (da, reader, t)) ∧ applicator_finish da reader (Some 4) = Ok (f, stats, [x2a]) ∧
  (Z.of_nat (ar_bytes_written (da_stats da)) ≤ i64_max)%Z ∧
  verifier_digest_len (da_checksum_verifier da) = 16.
Proof.
  unfold recv_accepted. destruct applied as [[[[da reader] t]|e]|]; [|done|done]. intros Hb.
  apply andb_prop in Hb as [Hb Hf]. apply andb_prop in Hb as [Hb Hl].
  destruct (applicator_finish da reader (Some 4)) as [[[f stats] rest]|e] eqn:E; [|done].
  apply bool_decide_eq_true in Hf. subst rest. apply Z.leb_le in Hb. apply Nat.eqb_eq in Hl.
  by exists da, reader, t, f, stats.
Qed.

Lemma recv_demo_runs : ∃ da reader t f stats,
  recv_demo_applied = Some (Ok (da, reader, t)) ∧ applicator_finish da reader (Some 4) = Ok (f, stats, [x2a]) ∧
  (Z.of_nat (ar_bytes_written (da_stats da)) ≤ i64_max)%Z ∧
  verifier_digest_len (da_checksum_verifier da) = 16.
Proof.
  apply recv_accepted_inv. vm_compute. reflexivity.
Qed.

Lemma receiver_integrity_witness :
  ∃ da reader t f stats,
    recv_demo_applied = Some (Ok (da, reader, t)) ∧ applicator_finish da reader (Some 4) = Ok (f, stats, [x2a]) ∧
    reader = @whole_file_digest toy_crates recv_demo_verifier (f_data f) ++ [x2a].
Proof.
  destruct recv_demo_runs as (da & reader & t & f & stats & Ha & Hf & Hb & _).
  exists da, reader, t, f, stats. split; [exact Ha|]. split; [exact Hf|].
  refine (proj1 (@receiver_integrity toy_crates toy_crates_ok _ portable_kernel_ok _ portable_fallocate_ok
    MmapStrategy _ _ unit _ recv_demo_verifier recv_demo_signature recv_demo_basis recv_demo_mmap 1025 9 true
    CowAuto recv_demo_stream reader [x2a] Plain t da f stats (Some 4) _ recv_demo_layout _ recv_demo_mmap_ok Ha Hf Hb)).
  - by exists CkMD5, 0%Z, 31%Z.
  - apply Nat.leb_le. vm_compute. reflexivity.
Defined.

(** ** Discarding *)

Section Discard.
Context `{HashCrates} `{KernelCalls} `{Fallocate} `{MapStrategy M} `{TokenDecoder D}.

Lemma discard_tokens_sync fuel : ∀ (da da' : DeltaApplicator (M:=M)) reader reader' (t' : TokenReader D),
  apply_delta_stream fuel da reader Plain = Some (Ok (da', reader', t')) →
  discard_tokens fuel reader (@Plain D) = Some (Ok (reader', t')).
Proof.
  induction fuel as [|fuel IH]; intros da da' reader reader' t' Hs; [done|].
  cbn [apply_delta_stream discard_tokens] in *. unfold recv_apply_token in Hs.
  destruct (reader_read_token Plain reader) as [[[tok t1] r1]|e] eqn:Et; [|done].
  assert (t1 = Plain) as ->.
  { revert Et. unfold reader_read_token. repeat case_match; intros; simplify_eq; done. }
  destruct tok as [[len|data]|idx|].
  - pose proof (buffer_fill_spec (da_token_buffer da) len r1) as Hf.
    destruct (read_exact len r1) as [[bytes r2]|e]; [|by rewrite Hf in Hs].
    destruct Hf as (b & Eb & _). rewrite Eb in Hs.
    destruct (apply_literal_from_buffer _ _) as [da1|e]; [|done]. by eapply IH.
  - destruct (apply_literal_bytes _ _) as [da1|e]; [|done]. by eapply IH.
  - destruct (apply_block_ref da idx) as [da1|e]; [|done]. cbn [is_compressed] in Hs. by eapply IH.
  - by simplify_eq.
Qed.
End Discard.

(** Discarding keeps the connection in step.  For plain framing, whenever the
    receiver can apply a delta stream and finish the file, discarding the same
    stream instead succeeds and leaves exactly the same bytes to be read next,
    with the same number of tokens. *)
Theorem discard_in_sync `{HashCrates} `{KernelCalls} `{Fallocate} `{MapStrategy M} `{TokenDecoder D}
    (fuel : nat) (da da' : DeltaApplicator (M:=M)) (stream reader rest : list byte) (t : TokenReader D)
    (expected_size : option nat) (f : file) (stats : DeltaApplyResult) :
  apply_delta_stream fuel da stream Plain = Some (Ok (da', reader, t)) →
  applicator_finish da' reader expected_size = Ok (f, stats, rest) →
  discard_delta_stream fuel stream (@Plain D) (verifier_digest_len (da_checksum_verifier da')) = Some (Ok rest).
Proof.
  intros Hs Hf. unfold discard_delta_stream. rewrite (discard_tokens_sync _ _ _ _ _ _ Hs).
  revert Hf. unfold applicator_finish.
  match goal with |- match ?x with _ => _ end = _ → _ => destruct x as [[output st]|e]; [|done] end.
  destruct (read_exact _ reader) as [[expected r]|e]; [|done]. case_decide; [|done]. by intros [= _ _ <-].
Qed.

Lemma discard_in_sync_witness :
  discard_delta_stream 9 recv_demo_stream (@Plain unit) 16 = Some (Ok [x2a]).
Proof.
  destruct recv_demo_runs as (da & reader & t & f & stats & Ha & Hf & _ & Hl). rewrite <- Hl.
  exact (@discard_in_sync toy_crates portable_kernel portable_fallocate MmapStrategy _ unit _ 9
    recv_demo_applicator da recv_demo_stream reader [x2a] t (Some 4) f stats Ha Hf).
Defined.
