(* ===== verification/Transfer.v ===== *)
(** * A file transfer from end to end ([crates/transfer/src/generator/delta.rs]
      and the receiver)

    The sender's half after matching: a delta script becomes wire operations
    ([script_to_wire_delta]), which are written as plain tokens while the
    whole-file digest is computed from the source
    ([write_delta_with_inline_checksum]).  The theorem composes everything: the
    signature of the basis, the index, the generator, the wire format, the
    receiver with any basis mapper, sparse or plain output and kernel copies or
    none.  The receiver ends with the sender's file, unless two blocks collide. *)

From S2P Require Import Prelude Rolling Strong Signature WireDelta MapFile Sparse KernelCopy Lookup Index Script Generator Verifier Receiver.

(** ** The sender *)

Definition token_ops (block_length : Z) (t : DeltaToken) : list DeltaOp :=
  match t with
  | Literal data => [WLiteral data]
  | Copy index len =>
      let block_len := Z.to_nat block_length in
      if (0 <? block_len) && (block_len <? len) && (len mod block_len =? 0) then
        map (λ k, WCopy (wrap 32 (Z.of_nat (index + k))) block_length) (seq 0 (len / block_len))
      else [WCopy (wrap 32 (Z.of_nat index)) (wrap 32 (Z.of_nat len))]
  end.

Definition script_to_wire_delta (script : DeltaScript) (block_length : Z) : list DeltaOp :=
  concat (map (token_ops block_length) (ds_tokens script)).

Record InlineChecksumResult := mkInline {
  ic_checksum : list byte;
  ic_matched_data : nat;
  ic_literal_data : nat;
}.

Section Sender.
Context `{HashCrates}.

(** The loop over the operations: the digest, what was written, the offset in the
    source and the two byte counts. *)
Record inline_state := mkInlineState {
  is_verifier : ChecksumVerifier;
  is_wire : list byte;
  is_source_offset : nat;
  is_matched : nat;
  is_literal : nat;
}.

Definition inline_op (source : list byte) (st : inline_state) (op : DeltaOp) : result io_error inline_state :=
  match op with
  | WLiteral data =>
      Ok (mkInlineState (verifier_update (is_verifier st) data) (is_wire st ++ write_token_literal data)
            (is_source_offset st + length data) (is_matched st) (is_literal st + length data))
  | WCopy block_index len =>
      let wire := is_wire st ++ write_token_block_match block_index in
      match read_at source (is_source_offset st) (Z.to_nat len) with
      | Err e => Err e
      | Ok read_buf =>
          Ok (mkInlineState (verifier_update (is_verifier st) read_buf) wire
                (is_source_offset st + Z.to_nat len) (is_matched st + Z.to_nat len) (is_literal st))
      end
  end.

Fixpoint inline_ops (source : list byte) (st : inline_state) (ops : list DeltaOp)
    : result io_error inline_state :=
  match ops with
  | [] => Ok st
  | op :: ops' =>
      match inline_op source st op with
      | Ok st => inline_ops source st ops'
      | Err e => Err e
      end
  end.

(** The uncompressed path: the bytes written and the result. *)
Definition write_delta_with_inline_checksum (source : list byte) (ops : list DeltaOp)
    (checksum_algorithm : ChecksumAlgorithm) (checksum_seed protocol : Z)
    : result io_error (list byte * InlineChecksumResult) :=
  let verifier := for_algorithm_seeded checksum_algorithm checksum_seed protocol in
  match inline_ops source (mkInlineState verifier [] 0 0 0) ops with
  | Err e => Err e
  | Ok st =>
      Ok (is_wire st ++ write_token_end,
          mkInline (finalize_into (is_verifier st)) (is_matched st) (is_literal st))
  end.
End Sender.

(** ** The operations of a script *)

Lemma inline_ops_app `{HashCrates} source st ops ops' :
  inline_ops source st (ops ++ ops') =
  match inline_ops source st ops with Ok st' => inline_ops source st' ops' | Err e => Err e end.
Proof.
  revert st. induction ops as [|op ops IH]; intros st; [done|]. cbn [app inline_ops].
  destruct (inline_op source st op) as [st'|e]; [apply IH|done].
Qed.

(** A run of [k] blocks becomes [k] copies of one block. *)
Lemma token_ops_run bl i k : (0 < bl)%Z → (bl ≤ u32_max)%Z → 0 < k →
  token_ops bl (Copy i (k * Z.to_nat bl)) = map (λ j, WCopy (wrap 32 (Z.of_nat (i + j))) bl) (seq 0 k).
Proof.
  intros Hbl Hmax Hk. cbn [token_ops]. rewrite (proj2 (Nat.ltb_lt 0 (Z.to_nat bl))) by lia. cbn [andb].
  rewrite Nat.Div0.mod_mul, Nat.eqb_refl, andb_true_r.
  destruct (Nat.ltb_spec (Z.to_nat bl) (k * Z.to_nat bl)) as [Hlt|Hge].
  - by rewrite Nat.div_mul by lia.
  - assert (k = 1) as -> by nia. cbn [seq map]. rewrite Nat.add_0_r, Nat.mul_1_l.
    rewrite (wrap_small 32 (Z.of_nat (Z.to_nat bl))) by (unfold in_u, u32_max in *; lia). do 2 f_equal. lia.
Qed.

(** Reading the source for a run of copies. *)
Lemma inline_copies `{HashCrates} source bl idxs : (0 ≤ bl)%Z → ∀ st,
  is_source_offset st + length idxs * Z.to_nat bl ≤ length source →
  ∃ chunks, inline_ops source st (map (λ i, WCopy i bl) idxs)
    = Ok (mkInlineState (foldl verifier_update (is_verifier st) chunks)
            (is_wire st ++ concat (map write_op_token (map (λ i, WCopy i bl) idxs)))
            (is_source_offset st + length idxs * Z.to_nat bl) (is_matched st + length idxs * Z.to_nat bl)
            (is_literal st)) ∧
    concat chunks = take (length idxs * Z.to_nat bl) (drop (is_source_offset st) source).
Proof.
  intros Hbl. induction idxs as [|i idxs IH]; intros st Hin; cbn [map inline_ops].
  { exists []. split; [|by rewrite Nat.mul_0_l, take_0]. destruct st. cbn. by rewrite app_nil_r, !Nat.add_0_r. }
  cbn [length] in Hin. cbn [inline_op]. unfold read_at. rewrite decide_True by lia.
  edestruct IH as (chunks & -> & Hc); [cbn [is_source_offset]; lia|].
  exists (take (Z.to_nat bl) (drop (is_source_offset st) source) :: chunks).
  cbn [is_verifier is_wire is_source_offset is_matched is_literal foldl concat map write_op_token length] in *.
  rewrite Hc, <- drop_drop, take_take_drop, <- app_assoc. split; [do 2 f_equal; lia|f_equal; lia].
Qed.

Section SenderProofs.
Context `{HashCrates}.
Context (ix : DeltaSignatureIndex) (guard : bool) (block_length : Z).
Context (Hbl : (0 < block_length)%Z) (Hmax : (block_length ≤ u32_max)%Z).
Local Notation ops_of ts := (concat (map (token_ops block_length) ts)).

(** The sender's digest covers exactly the source, whether or not the copies are
    right. *)
Lemma inline_script source off ts src : denotes ix guard (Z.to_nat block_length) off ts src →
  ∀ st post, is_source_offset st = off → drop off source = src ++ post →
  ∃ st' chunks, inline_ops source st (ops_of ts) = Ok st' ∧
    is_verifier st' = foldl verifier_update (is_verifier st) chunks ∧ concat chunks = src ∧
    is_wire st' = is_wire st ++ concat (map write_op_token (ops_of ts)) ∧
    is_matched st' + is_literal st' = is_matched st + is_literal st + length src.
Proof.
  induction 1 as [off|off bs ts src Hd IH|off i segs ts src Hs Hne Hg Hd IH]; intros st post Ho Hsrc;
    cbn [map concat].
  - exists st, []. split_and!; [done|done|done|by rewrite app_nil_r|simpl; lia].
  - cbn [token_ops app inline_ops inline_op]. rewrite <- app_assoc in Hsrc.
    edestruct IH as (st' & chunks & -> & Hv & Hc & Hw & Hn);
      [cbn [is_source_offset]; by rewrite Ho|by rewrite <- drop_drop, Hsrc, drop_app_length|].
    exists st', (bs :: chunks). cbn [is_verifier is_wire is_matched is_literal foldl concat map write_op_token] in *.
    split_and!; [done|done|by rewrite Hc|by rewrite Hw, app_assoc|rewrite length_app; lia].
  - assert (0 < length segs) as Hk by (destruct segs; [done|simpl; lia]).
    rewrite token_ops_run by done.
    assert (length (concat segs) = length segs * Z.to_nat block_length) as Hlen
      by (by eapply concat_segs_length).
    rewrite <- app_assoc in Hsrc.
    rewrite <- (map_map (λ j, wrap 32 (Z.of_nat (i + j))) (λ z, WCopy z block_length)).
    set (idxs := map (λ j, wrap 32 (Z.of_nat (i + j))) (seq 0 (length segs))).
    assert (length idxs = length segs) as Hi by (unfold idxs; by rewrite length_map, length_seq).
    rewrite inline_ops_app. destruct (inline_copies source block_length idxs ltac:(lia) st) as (chunks1 & -> & Hc1).
    { apply (f_equal length) in Hsrc. rewrite length_drop, length_app in Hsrc. rewrite Hi, <- Hlen, Ho. nia. }
    rewrite Hi, <- Hlen, Ho in *. rewrite Hsrc, take_app_length in Hc1.
    edestruct IH as (st' & chunks & -> & Hv & Hc & Hw & Hn);
      [done|by rewrite <- drop_drop, Hsrc, drop_app_length|].
    exists st', (chunks1 ++ chunks). cbn [is_verifier is_wire is_matched is_literal] in *.
    rewrite foldl_app, concat_app, map_app, concat_app, Hc1, Hc, Hw, <- app_assoc, length_app.
    split_and!; [done|done|done|done|lia].
Qed.

(** A whole script. *)
Lemma inline_checksum_ok `{!HashCratesLaws} source script ck seed protocol :
  denotes ix guard (Z.to_nat block_length) 0 (ds_tokens script) source →
  let ops := script_to_wire_delta script block_length in
  ∃ res, write_delta_with_inline_checksum source ops ck seed protocol = Ok (write_token_stream ops, res) ∧
    ic_checksum res = whole_file_digest (for_algorithm_seeded ck seed protocol) source ∧
    ic_literal_data res + ic_matched_data res = length source.
Proof.
  intros Hd ops. unfold write_delta_with_inline_checksum.
  destruct (inline_script source 0 _ source Hd (mkInlineState (for_algorithm_seeded ck seed protocol) [] 0 0 0) [])
    as (st & chunks & E & Hv & Hc & Hw & Hn); [done|by rewrite drop_0, app_nil_r|].
  fold (script_to_wire_delta script block_length) in E, Hw. fold ops in E, Hw. rewrite E. eexists.
  cbn [is_wire app is_verifier is_matched is_literal ic_checksum ic_literal_data ic_matched_data] in *.
  split; [by rewrite Hw|]. cbn [ic_checksum ic_literal_data ic_matched_data].
  rewrite Hv, verifier_streams, Hc; [|by exists ck, seed, protocol]. split; [done|lia].
Qed.
End SenderProofs.

(** ** Receiving a token stream *)

Lemma apply_literal_map `{HashCrates} {M} (da da' : DeltaApplicator (M:=M)) data :
  apply_literal_bytes da data = Ok da' → da_basis_map da' = da_basis_map da.
Proof. unfold apply_literal_bytes. repeat case_match; intros; simplify_eq; done. Qed.

Section StreamProofs.
Context `{HashCratesLaws} `{KernelCallsLaws} `{FallocateLaws} `{MapStrategyLaws M} `{TokenDecoder D}.
Context (v0 : ChecksumVerifier) (sig : FileSignature) (basis : list byte) (limit : nat).
Context (Hlayout : layout_of (fs_layout sig) (Z.of_nat (length basis))).
Context (Hlimit : Z.to_nat (sl_block_length (fs_layout sig)) ≤ limit).
Context (Hkernel : is_noop v0 = true → kernel_reliable basis).
Local Notation chunk := (layout_chunk (fs_layout sig) basis).

(** The receiver stands for [w] and has its basis. *)
Definition receiving (w : list byte) (da : DeltaApplicator (M:=M)) : Prop :=
  recv_ok v0 (Some sig) basis limit w da ∧ is_Some (da_basis_map da).

(** Applying the tokens in [bs] leads from [da] to [da'] in [k] tokens. *)
Definition advances (da : DeltaApplicator (M:=M)) (bs : list byte) (da' : DeltaApplicator) (k : nat) : Prop :=
  k ≤ length bs ∧ ∀ fuel rest, apply_delta_stream (k + fuel) da (bs ++ rest) (@Plain D)
    = apply_delta_stream fuel da' rest Plain.

Lemma advances_refl da : advances da [] da 0.
Proof. by split. Qed.

Lemma advances_trans da da' da'' bs bs' k k' : advances da bs da' k → advances da' bs' da'' k' →
  advances da (bs ++ bs') da'' (k + k').
Proof.
  intros [Hk Ha] [Hk' Ha']. split; [rewrite length_app; lia|]. intros fuel rest.
  by rewrite <- app_assoc, <- Nat.add_assoc, Ha, Ha'.
Qed.

Lemma advances_one da bs da' : 0 < length bs →
  (∀ rest, recv_apply_token da (bs ++ rest) (@Plain D) = Ok (true, da', rest, Plain)) → advances da bs da' 1.
Proof. intros Hl Ha. split; [lia|]. intros fuel rest. cbn [Nat.add apply_delta_stream]. by rewrite Ha. Qed.

Lemma plain_token v rest : in_i 32 v →
  reader_read_token (@Plain D) (wire_write_int v ++ rest) =
    match (v ?= 0)%Z with
    | Eq => Ok (TEnd, Plain, rest)
    | Gt => match check_literal_token_len v with
            | Err e => Err e
            | Ok _ => Ok (TLiteral (Pending (Z.to_nat v)), Plain, rest)
            end
    | Lt => Ok (TBlockRef (Z.to_nat (- (v + 1))), Plain, rest)
    end.
Proof.
  intros Hv. unfold reader_read_token, wire_write_int.
  rewrite (read_exact_app 4) by apply length_le_bytes. by rewrite i32_from_le_bytes.
Qed.

Lemma length_wire_int v : length (wire_write_int v) = 4.
Proof. apply length_le_bytes. Qed.

(** One literal token. *)
Lemma advances_literal w da data : receiving w da → 0 < length data ≤ TOKEN_CHUNK_SIZE →
  (Z.of_nat (length w + length data) ≤ i64_max)%Z →
  ∃ da', advances da (wire_write_int (swrap 32 (Z.of_nat (length data))) ++ data) da' 1 ∧
    receiving (w ++ data) da'.
Proof.
  intros [Hok Hm] Hlen Hb.
  assert (swrap 32 (Z.of_nat (length data)) = Z.of_nat (length data) ∧ in_i 32 (Z.of_nat (length data))) as [-> Hi]
    by (apply small_i32; unfold TOKEN_CHUNK_SIZE, i32_max in *; lia).
  set (b := mkTokenBuffer (copy_at 0 data (tb_data (buffer_resize_for (da_token_buffer da) (length data))))
    (length data)).
  assert (buffer_as_slice b = data) as Hbs
    by (unfold buffer_as_slice, b, copy_at; cbn [tb_len tb_data]; rewrite take_0; cbn [app]; by rewrite take_app_length).
  destruct (apply_literal_ok v0 (Some sig) basis limit w (with_token_buffer da b) data) as (da' & Ha & Hok' & _);
    [by apply with_token_buffer_ok|done|].
  exists da'. split; [|split; [done|by rewrite (apply_literal_map _ _ _ Ha)]].
  apply advances_one; [rewrite length_app, length_wire_int; lia|]. intros rest. unfold recv_apply_token.
  rewrite <- app_assoc, plain_token by done. rewrite (proj2 (Z.compare_gt_iff _ _)) by lia.
  unfold check_literal_token_len.
  rewrite (proj1 (small_i32 (Z.of_nat TOKEN_CHUNK_SIZE) ltac:(unfold TOKEN_CHUNK_SIZE, i32_max; lia))).
  rewrite (proj2 (Z.ltb_ge _ _)), Nat2Z.id by lia.
  unfold buffer_fill. cbn [buffer_resize_for tb_len]. rewrite read_exact_app by done. fold b.
  unfold apply_literal_from_buffer. cbn [with_token_buffer da_token_buffer]. rewrite Hbs.
  rewrite take_ge by (unfold b; cbn [tb_len]; lia). by rewrite Ha.
Qed.

Lemma advances_chunks n : ∀ w da data, length data ≤ n → receiving w da →
  (Z.of_nat (length w + length data) ≤ i64_max)%Z →
  ∃ da' k, advances da (literal_chunks n data) da' k ∧ receiving (w ++ data) da'.
Proof.
  induction n as [|n IH]; intros w da data Hn Hr Hb; cbn [literal_chunks].
  { destruct data; [|simpl in Hn; lia]. exists da, 0. rewrite app_nil_r. split; [apply advances_refl|done]. }
  destruct data as [|x data']; [exists da, 0; rewrite app_nil_r; by split; [apply advances_refl|]|].
  set (data := x :: data') in *. set (c := length data `min` TOKEN_CHUNK_SIZE).
  assert (0 < c ≤ TOKEN_CHUNK_SIZE ∧ c ≤ length data) as [Hc Hcl] by (unfold c, data, TOKEN_CHUNK_SIZE; simpl length; lia).
  assert (length (take c data) = c) as Ht by (rewrite length_take; lia).
  destruct (advances_literal w da (take c data)) as (da1 & Ha1 & Hr1); [done|lia|lia|]. rewrite Ht in Ha1.
  destruct (IH (w ++ take c data) da1 (drop c data)) as (da' & k & Ha & Hr');
    [rewrite length_drop; lia|done|rewrite length_app, length_drop; lia|].
  exists da', (1 + k). rewrite <- app_assoc, take_drop in Hr'. split; [|done].
  rewrite app_assoc. by eapply advances_trans.
Qed.

(** One block token. *)
Lemma advances_block w da i : receiving w da → i < Z.to_nat (sl_block_count (fs_layout sig)) →
  (Z.of_nat (length w + length (chunk i)) ≤ i64_max)%Z →
  ∃ da', advances da (write_token_block_match (Z.of_nat i)) da' 1 ∧ receiving (w ++ chunk i) da'.
Proof.
  intros [Hok [m Hm]] Hi Hb. destruct (Hlayout) as [_ _ Hcount _ _ _].
  destruct (block_bytes_chunk (fs_layout sig) basis Hlayout i Hi) as (_ & Hin & Ech).
  rewrite <- Ech, length_take, length_drop in Hb.
  destruct (apply_block_ref_ok v0 (Some sig) basis limit) with (w := w) (da := da) (sig := sig) (m := m) (idx := i)
    as [(da' & Ha & Hok' & Hm')|(e & _ & Hn & Hk)];
    [intros ? [= <-]; by split|done|done|done|done|lia| |by destruct (Hk (Hkernel Hn))].
  exists da'. split; [|done]. unfold write_token_block_match.
  assert (swrap 32 (- swrap 32 (swrap 32 (Z.of_nat i) + 1)) = - (Z.of_nat i + 1))%Z as ->
    by (unfold i32_max in Hcount; rewrite (swrap_small 32 (Z.of_nat i)), (swrap_small 32 (Z.of_nat i + 1)),
          swrap_small by (unfold in_i; lia); lia).
  apply advances_one; [rewrite length_wire_int; lia|]. intros rest. unfold recv_apply_token.
  rewrite plain_token by (unfold in_i, i32_max in *; lia). rewrite (proj2 (Z.compare_lt_iff _ _)) by lia.
  replace (Z.to_nat (- (- (Z.of_nat i + 1) + 1))) with i by lia. by rewrite Ha.
Qed.

(** ** Receiving operations *)

Definition op_ok (op : DeltaOp) : Prop :=
  match op with WLiteral _ => True | WCopy i _ => (0 ≤ i < sl_block_count (fs_layout sig))%Z end.

Definition op_data (op : DeltaOp) : list byte :=
  match op with WLiteral data => data | WCopy i _ => chunk (Z.to_nat i) end.

Lemma advances_ops ops : Forall op_ok ops → ∀ w da, receiving w da →
  (Z.of_nat (length w + length (concat (map op_data ops))) ≤ i64_max)%Z →
  ∃ da' k, advances da (concat (map write_op_token ops)) da' k ∧ receiving (w ++ concat (map op_data ops)) da'.
Proof.
  induction 1 as [|op ops Hop Hops IH]; intros w da Hr Hb; cbn [map concat] in *.
  { exists da, 0. rewrite app_nil_r. split; [apply advances_refl|done]. }
  rewrite length_app in Hb.
  assert (∃ da1 k1, advances da (write_op_token op) da1 k1 ∧ receiving (w ++ op_data op) da1) as (da1 & k1 & Ha1 & Hr1).
  { destruct op as [data|i len]; cbn [op_ok op_data write_op_token] in *.
    - unfold write_token_literal. apply advances_chunks; [done|done|lia].
    - destruct (advances_block w da (Z.to_nat i) Hr) as (da1 & Ha1 & Hr1); [lia|lia|].
      rewrite Z2Nat.id in Ha1 by lia. by exists da1, 1. }
  destruct (IH (w ++ op_data op) da1) as (da' & k & Ha & Hr'); [done|rewrite length_app; lia|].
  exists da', (k1 + k). rewrite <- app_assoc in Hr'. split; [by eapply advances_trans|done].
Qed.

(** A whole stream, with as much fuel as it has bytes. *)
Lemma receive_stream ops w da rest fuel : Forall op_ok ops → receiving w da →
  (Z.of_nat (length w + length (concat (map op_data ops))) ≤ i64_max)%Z →
  length (write_token_stream ops) ≤ fuel →
  ∃ da', apply_delta_stream fuel da (write_token_stream ops ++ rest) (@Plain D) = Some (Ok (da', rest, Plain)) ∧
    receiving (w ++ concat (map op_data ops)) da'.
Proof.
  intros Hops Hr Hb Hf. destruct (advances_ops ops Hops w da Hr Hb) as (da' & k & [Hk Ha] & Hr').
  exists da'. split; [|done]. unfold write_token_stream in *. rewrite length_app in Hf.
  unfold write_token_end in *. rewrite length_wire_int in Hf.
  replace fuel with (k + S (fuel - k - 1)) by lia. rewrite <- app_assoc, Ha. cbn [apply_delta_stream].
  unfold recv_apply_token. by rewrite plain_token by (unfold in_i; lia).
Qed.
End StreamProofs.

(** ** From scripts to operations *)

Section ScriptOps.
Context `{HashCrates}.
Context (ix : DeltaSignatureIndex) (basis : list byte) (Hbasis : index_of_basis ix basis).
Context (sig : FileSignature) (Hlayout : layout_of (fs_layout sig) (Z.of_nat (length basis))).
Local Notation block_length := (sl_block_length (fs_layout sig)).
Local Notation bl := (Z.to_nat block_length).
Context (Hix : ix_block_length ix = bl).
Local Notation ops_of ts := (concat (map (token_ops block_length) ts)).

(** Consecutive full blocks make up the range they cover. *)
Lemma run_data i k : i * bl + k * bl ≤ length basis →
  concat (map (op_data sig basis) (map (λ j, WCopy (wrap 32 (Z.of_nat (i + j))) block_length) (seq 0 k)))
  = take (k * bl) (drop (i * bl) basis) ∧
  Forall (op_ok sig) (map (λ j, WCopy (wrap 32 (Z.of_nat (i + j))) block_length) (seq 0 k)).
Proof.
  intros Hin. destruct Hlayout as [Hb _ Hc _ _ Hce]. rewrite map_map.
  assert (∀ j, j < k → (Z.of_nat (i + j) < sl_block_count (fs_layout sig))%Z) as Hcount.
  { intros j Hj. rewrite Hce. apply Z.le_succ_l, Z.div_le_lower_bound; [lia|].
    assert (Z.of_nat ((i + S j) * bl) ≤ Z.of_nat (length basis))%Z as Hle by nia.
    rewrite Nat2Z.inj_mul, Z2Nat.id in Hle by lia. lia. }
  assert (∀ j, j < k → wrap 32 (Z.of_nat (i + j)) = Z.of_nat (i + j)) as Hwrap.
  { intros j Hj. specialize (Hcount j Hj). apply wrap_small. unfold in_u, i32_max in *. lia. }
  split.
  - revert i Hin Hcount Hwrap. induction k as [|k IH]; intros i Hin Hcount Hwrap; [by rewrite Nat.mul_0_l, take_0|].
    cbn [seq map concat op_data]. rewrite Hwrap, Nat2Z.id, Nat.add_0_r by lia. rewrite <- seq_shift, map_map.
    erewrite map_ext; [erewrite (IH (S i))|]; [|lia|..].
    + unfold layout_chunk. cbn [Nat.mul]. rewrite <- take_take_drop, drop_drop. do 3 f_equal. lia.
    + intros j Hj. specialize (Hcount (S j) ltac:(lia)). lia.
    + intros j Hj. specialize (Hwrap (S j) ltac:(lia)). by replace (S i + j) with (i + S j) by lia.
    + intros j. cbn [op_data]. by replace (S i + j) with (i + S j) by lia.
  - apply Forall_forall. intros op Hop. apply list_elem_of_fmap in Hop as (j & -> & Hj).
    apply elem_of_seq in Hj. cbn [op_ok]. rewrite Hwrap by lia. specialize (Hcount j ltac:(lia)). lia.
Qed.

(** The receiver's bytes for a script: the source's length always, and the source
    itself unless a block collides. *)
Lemma script_ops_data guard off ts src : denotes ix guard (ix_block_length ix) off ts src →
  Forall (op_ok sig) (ops_of ts) ∧ length (concat (map (op_data sig basis) (ops_of ts))) = length src ∧
  (concat (map (op_data sig basis) (ops_of ts)) = src ∨ collision ix basis src).
Proof.
  induction 1 as [off|off bs ts src Hd IH|off i segs ts src Hs Hne Hg Hd IH]; cbn [map concat].
  - split_and!; [done|done|by left].
  - destruct IH as (Hok & Hlen & IH). cbn [token_ops app map concat op_data]. rewrite !length_app, Hlen.
    split_and!; [by constructor|done|].
    destruct IH as [->|(i & w & Hne & Hl & (k & Hk) & He)]; [by left|right].
    exists i, w. split_and!; [done|done| |done]. exists (length bs + k). by apply window_app_r.
  - destruct IH as (Hok & Hlen & IH). assert (0 < length segs) as Hk by (destruct segs; [done|simpl; lia]).
    destruct (Hlayout) as [Hb _ _ _ _ _].
    destruct (segs_match_basis ix basis Hbasis i segs Hs) as [Hfit Heq].
    rewrite (concat_segs_length ix _ i segs Hs), Hix in *.
    destruct Hfit as [?|Hfit]; [lia|]. destruct (run_data i (length segs) Hfit) as [Hrun Hrok].
    rewrite token_ops_run by (unfold u32_max; lia). rewrite map_app, concat_app, !length_app, Hlen, Hrun.
    split_and!; [by apply Forall_app| |].
    { rewrite length_take, length_drop, (concat_segs_length ix bl i segs) by done. lia. }
    destruct Heq as [<-|(j & w & Hnw & Hl & (k & Hkw) & He)].
    + destruct IH as [->|(j & w & Hnw & Hl & (k & Hkw) & He)]; [by left|right].
      exists j, w. split_and!; [done|done| |done]. exists (length (concat segs) + k). by apply window_app_r.
    + right. exists j, w. split_and!; [done|done| |done]. exists k. by apply window_app_l.
Qed.
End ScriptOps.

(** ** The transfer *)

(** C1: a whole transfer.  The receiver has a basis file and its signature; the
    sender has a new file, however it is read.  The sender generates a script,
    turns it into wire operations and writes them with the digest of the file.
    Whatever follows on the connection, with plain or sparse output, and with any
    mapper of the basis that can hold a block, the receiver reads the uncompressed
    stream to its end, and leaves exactly what follows it.  It accepts when the
    digests agree and refuses otherwise; the file it wrote has the new file's
    length, and is the new file unless a window of it differs from a basis block
    with the same strong checksum.  Where there is no whole-file digest, and only
    then, the kernel may be asked to copy blocks, and is assumed not to break off a
    copy with an error; whether it copies, shares blocks, copies a part or declines
    does not matter. *)
Theorem transfer_delivers `{HasCpu} `{HashCratesLaws} `{KernelCallsLaws} `{FallocateLaws} `{MapStrategyLaws M}
    `{TokenDecoder D} (g : DeltaGenerator) (basis : list byte) (layout : SignatureLayout)
    (algorithm : SignatureAlgorithm) (signature : FileSignature) (ix : DeltaSignatureIndex)
    (reader : list read_event) (checksum : ChecksumAlgorithm) (seed protocol : Z) (m : M) (limit : nat)
    (sparse : bool) (cow : CowPolicy) (rest : list byte) :
  layout_of layout (Z.of_nat (length basis)) → (Z.of_nat (length basis) ≤ u64_max)%Z →
  generate_file_signature basis layout algorithm = Ok signature →
  index_from_signature signature algorithm = Some ix → delivers reader →
  map_inv basis limit m → Z.to_nat (sl_block_length layout) ≤ limit →
  let input := reader_bytes reader in
  let v0 := for_algorithm_seeded checksum seed protocol in
  (is_noop v0 = true → kernel_reliable basis) →
  (Z.of_nat (length input) ≤ i64_max)%Z →
  ∃ script ix' wire sent received,
    generate g reader ix = Ok (script, ix') ∧
    write_delta_with_inline_checksum input (script_to_wire_delta script (sl_block_length layout)) checksum seed
      protocol = Ok (wire, sent) ∧
    ic_checksum sent = whole_file_digest v0 input ∧ ic_literal_data sent + ic_matched_data sent = length input ∧
    length received = length input ∧ (received = input ∨ collision ix basis input) ∧
    ∀ fuel, length wire ≤ fuel → ∃ da f stats,
      apply_delta_stream fuel (applicator_new (mkFile [] 0) sparse cow v0 (Some signature) (Some m))
        (wire ++ ic_checksum sent ++ rest) (@Plain D) = Some (Ok (da, ic_checksum sent ++ rest, Plain)) ∧
      f_data f = received ∧ ar_bytes_written stats = length received ∧
      applicator_finish da (ic_checksum sent ++ rest) (Some (length input))
      = if decide (whole_file_digest v0 received = whole_file_digest v0 input) then Ok (f, stats, rest)
        else Err InvalidData.
Proof.
  intros Hl Hs Hsig Hix Hd Hm Hlim input v0 Hk Hb.
  destruct (end_to_end_index basis layout algorithm signature ix Hl Hs Hsig Hix) as (Hok & Hbasis & Hbl & H0' & H1').
  assert (fs_layout signature = layout) as Hfl
    by (by rewrite (signature_of_basis basis layout algorithm signature Hl Hs Hsig)).
  rewrite <- Hfl in *. destruct (Hl) as [Hblock _ _ _ _ _].
  destruct (delta_generate_spec g ix Hok H0' H1' reader Hd) as (script & ix' & Hg & (Hden & _) & _).
  destruct (script_ops_data ix basis Hbasis signature Hl Hbl _ _ _ _ Hden) as (Hops & Hlen & Hdata).
  rewrite Hbl in Hden.
  destruct (inline_checksum_ok ix _ (sl_block_length (fs_layout signature)) ltac:(lia)
    ltac:(unfold u32_max; lia) input script checksum seed protocol Hden) as (sent & Hw & Hck & Hct).
  fold (script_to_wire_delta script (sl_block_length (fs_layout signature))) in Hops, Hlen, Hdata.
  set (ops := script_to_wire_delta script (sl_block_length (fs_layout signature))) in *.
  exists script, ix', (write_token_stream ops), sent, (concat (map (op_data signature basis) ops)).
  split_and!; [done..|]. intros fuel Hf.
  destruct (receive_stream v0 signature basis limit Hl Hlim Hk ops []
    (applicator_new (mkFile [] 0) sparse cow v0 (Some signature) (Some m)) (ic_checksum sent ++ rest) fuel)
    as (da & Ha & Hr & _); [done|split; [|by exists m]|by rewrite Hlen|done|].
  { apply recv_start. by intros ? [= <-]. }
  destruct (finish_spec v0 (Some signature) basis limit (concat (map (op_data signature basis) ops)) da
    (ic_checksum sent ++ rest) (Some (length input))) as (f & stats & Hfd & Hby & _ & E);
    [by exists checksum, seed, protocol|done|by rewrite Hlen|].
  exists da, f, stats. split_and!; [done|done|done|]. rewrite E.
  assert (size_mismatch da (length (concat (map (op_data signature basis) ops))) (Some (length input)) = false) as ->.
  { unfold size_mismatch. rewrite Hlen. destruct (da_sparse_state da); [|done]. by rewrite Nat.eqb_refl. }
  rewrite read_exact_app; [by rewrite Hck|]. rewrite Hck. unfold whole_file_digest. rewrite finalize_len.
  apply (update_digest_len v0 [input]).
Qed.

Lemma transfer_delivers_witness :
  ∃ ix script ix' wire sent received,
    index_from_signature demo_signature_of_basis Md4 = Some ix ∧
    @generate OtherArch toy_crates generator_new demo_reader ix = Ok (script, ix') ∧
    @write_delta_with_inline_checksum toy_crates (reader_bytes demo_reader) (script_to_wire_delta script 2)
      CkMD5 7 31 = Ok (wire, sent) ∧
    (received = reader_bytes demo_reader ∨ @collision toy_crates ix demo_basis (reader_bytes demo_reader)) ∧
    ∃ da f stats,
      apply_delta_stream (length wire)
        (@applicator_new toy_crates BufferedMap (mkFile [] 0) true CowAuto
           (@for_algorithm_seeded toy_crates CkMD5 7 31) (Some demo_signature_of_basis) (Some recv_demo_mapper))
        (wire ++ ic_checksum sent ++ [x01]) (@Plain unit) = Some (Ok (da, ic_checksum sent ++ [x01], Plain)) ∧
      f_data f = received ∧
      applicator_finish da (ic_checksum sent ++ [x01]) (Some 7)
      = if decide (@whole_file_digest toy_crates (@for_algorithm_seeded toy_crates CkMD5 7 31) received
                   = @whole_file_digest toy_crates (@for_algorithm_seeded toy_crates CkMD5 7 31)
                       (reader_bytes demo_reader))
        then Ok (f, stats, [x01]) else Err InvalidData.
Proof.
  destruct demo_indexed as [ix Hix].
  destruct (@transfer_delivers OtherArch toy_crates toy_crates_ok _ portable_kernel_ok _ portable_fallocate_ok
    BufferedMap _ _ unit _ generator_new demo_basis demo_layout Md4 demo_signature_of_basis ix demo_reader CkMD5 7 31
    recv_demo_mapper 1025 true CowAuto [x01] demo_layout_of ltac:(vm_compute; discriminate) demo_generated Hix
    demo_delivers recv_demo_map ltac:(apply Nat.leb_le; vm_compute; reflexivity) (λ _, portable_kernel_reliable demo_basis)
    ltac:(vm_compute; discriminate))
    as (script & ix' & wire & sent & received & Hg & Hw & _ & _ & _ & Hr & Happly).
  destruct (Happly (length wire) (le_n _)) as (da & f & stats & Ha & Hf & _ & Hfin).
  exists ix, script, ix', wire, sent, received. split; [exact Hix|]. split; [exact Hg|]. split; [exact Hw|].
  split; [exact Hr|]. exists da, f, stats. split; [exact Ha|]. split; [exact Hf|exact Hfin].
Defined.
